(* ===== verification/_CoqProject ===== *)
-Q . S2P
Prelude.v
Heap.v
BitMap.v
Wire.v
Config.v
Strategy.v
RsCodec.v
Planner.v
PlannerRef.v
RsStrategy.v
RsLink.v
Session.v
Channel.v
Runtime.v
MemoryNet.v
Engine.v
EngineInv.v
EngineRel.v
EnginePark.v
EngineSend.v
EngineDrain.v
EngineFlights.v
EngineDeliver.v
EngineObserve.v
EngineNet.v
EngineFlow.v
EngineSwap.v
RsEngine.v
RsFlights.v
EngineAuth.v
RsBroadcast.v
RsMesh.v
Transport.v
TransportLink.v
QuicReset.v
QuicNet.v
QuicBroadcast.v
Sim.v
SimSleep.v
SimMemory.v
SimRunner.v
SimMesh.v
SimBroadcast.v
SimAuth.v
