(* ===== verification/Prelude.v ===== *)
(** * ethp2p-rs: a verification of the broadcast engine, its transport and its
    simulator

    ethp2p broadcasts a message over a peer-to-peer mesh by erasure coding it
    into shards that relays forward while they collect.  This library models the
    Rust crates [ethp2p-broadcast], [ethp2p-transport] and [ethp2p-sim] as
    executable definitions and proves what makes them correct.

    ** The program

    An [Engine] owns a set of channels; a channel owns the sessions of its
    messages and the set of subscribed peers; a session drives a strategy through
    a state machine.  The Reed-Solomon strategy holds the shards received so far,
    an [EmitPlanner] that decides which shard goes to which peer, and the codec.
    The engine reacts to network events one at a time, drains the strategies'
    work into sends, hands decoded payloads to the application and disposes of
    old sessions.  Networks, clocks and the delivery channel are behind traits:
    QUIC in production, [MemoryNet] in tests, and a deterministic discrete-event
    network in the simulator, whose runner hosts many engines.

    ** The files

    - [Prelude]: results, the state monad [SM], machine integers with their
      wrap-around, byte strings, ordered iteration over maps and sets ([bt_keys],
      [bt_elements], for [BTreeMap] and [BTreeSet]) and the shared lemmas.
    - [Heap]: [BinaryHeap] as a list that is kept sorted, which pops in the same
      order; equal elements do not occur or do not differ.
    - [BitMap]: [strategy/bitmap.rs], 64-bit limbs and the byte encoding.
    - [Wire]: [selector.rs], [wire.rs] and [chunk.rs] over byte streams.
    - [Config]: [strategy/config.rs].
    - [Strategy]: the trait of [strategy/mod.rs], a class of operations that pass
      their state; [StrategyInv] is what an instance promises its users.
    - [RsCodec]: [strategy/rs/encode.rs], [verify.rs] and [decode.rs].
    - [Planner]: [strategy/rs/planner.rs].
    - [PlannerRef]: a reference planner without a heap, and the simulation.
    - [RsStrategy]: [strategy/rs/state.rs], an instance of [Strategy].
    - [RsLink]: an origin and its relays over links that fail and lose sends.
    - [Session], [Channel]: [session.rs] and [channel.rs], over any strategy.
    - [Runtime]: the messages, events and traits of [runtime/mod.rs].
    - [MemoryNet]: [runtime/memory_net.rs].
    - [Engine]: the [Engine] of [engine.rs], one definition per handler.
    - [EngineInv]: its invariant [coherent] and the theorems on tombstones,
      cleanup and handshakes.
    - [EngineRel]: [DrainRel] and [EngineRel], the interfaces by which a relation on
      engine states is lifted from elementary effects to every operation.
    - [EnginePark]: [HandlerRel], the interface for facts on the engine's books; while
      the clock stays [Within] the time for which chunks are parked, those of a
      session that arrive before its open are kept, in order, and no session is
      disposed of.
    - [EngineSend]: the order of what is sent, on a network with a log.
    - [EngineDrain]: drains end, against the interface [DrainLaws].
    - [EngineFlights]: the pending sends cover the dispatches under way, for any
      strategy with the [FlightLaws].
    - [EngineDeliver]: what the application gets, on a delivery channel with a log.
    - [EngineObserve]: one session of an engine through everything else that happens:
      [Unmoved] observations of a strategy are kept by every operation but a chunk,
      and a strategy that [Gathers] chunks gets its message delivered, whatever else
      it is sent, as long as it can tell that from the genuine chunks ([Fair]).
    - [EngineNet]: the engine acts on its network by sends only; a channel it hosts
      stays.
    - [EngineFlow]: what drains and publications put on a network that [Accepts] it,
      how much, and which chunks, for a strategy whose [Polls] are bounded.
    - [EngineSwap]: a publication whose sends a network takes is the one over a
      network that takes everything ([Trusting]).
    - [RsEngine]: the relay factories of [engine.rs], the Reed-Solomon instance of
      [DrainLaws], and concrete engines.
    - [RsFlights]: its instance of the [FlightLaws].
    - [EngineAuth]: published preambles in, published preambles out.
    - [RsBroadcast]: the Reed-Solomon instances of [EngineObserve] and [EngineFlow]
      and their composition, from [publish] at one engine to the delivery at another.
    - [RsMesh]: a member of a mesh, one event at a time: a potential that pays for
      every message it sends ([Acts]), and the shards it has or can hope for ([Hope]).
      A member holds and sends only the shards of the message ([shard_at]).
    - [Transport]: the streams of [ethp2p-transport/src/lib.rs]: what a peer's pump
      writes ([write_outbound], [peer_pump]) and what the reader of an inbound
      stream makes of its bytes ([read_stream]).
    - [TransportLink]: one connection, end to end, against [MemoryNet].
    - [QuicReset]: [ResetState] of the same file, the tracker of reconstructed
      sessions and the wait for one, as steps that interleave.
    - [QuicNet]: the node, [QuicNet]: its registry of peers, outbound queues and
      events.
    - [QuicBroadcast]: engine, node, pump, readers and engine composed.
    - [Sim]: [ethp2p-sim/src/state.rs], [net.rs], [trace.rs] and [clock.rs].
    - [SimSleep]: a sleep of [clock.rs] and the wakeup that ends it, [WakeupInner]
      of [state.rs], as accesses of two threads that interleave.
    - [SimMemory]: the simulated network without faults against [MemoryNet].
    - [SimRunner]: [ethp2p-sim/src/runner.rs], which composes everything above.
    - [SimMesh]: without faults the hub is a queue of events, and engines whose
      messages are paid for ([Reacts]) empty it.
    - [SimBroadcast]: a scenario on such a mesh, from its first call to its last.
    - [SimAuth]: what a whole simulated mesh delivers.

    State is passed explicitly.  A Rust method on [&mut self] becomes a function
    from the state to a result and the next state; [Result] is [result], and
    where the code can panic the model returns [option] ([None] is the panic) or
    the runner's [Outcome].  Names are those of the code; a constructor or field
    that would clash has a prefix.

    ** The theorems

    The properties are the theorems whose comments begin with C and a number.

    - Codec: any [num_data] distinct shards of an encoded payload decode to it,
      [encode] and [decode] fail exactly as documented, [decode] never returns a
      message whose length or digest differs from the preamble's, and the bitmap
      implements finite sets and survives its encoding.
    - Planner: it cannot be told from a reference that searches all shards at every
      allocation, whatever its heap of lazily discarded entries holds; an origin
      sends a peer everything once.
    - Strategy: every operation on every branch; a relay never exceeds its
      forwarding budget; a relay that can reconstruct decodes exactly the origin's
      payload, after any sequence of calls with any chunks that are not collisions
      (see below); over lossy links the
      relays get exactly what arrives and decode exactly if it is enough.
    - Session and engine: the state machine of a session; the engine's maps agree
      in every reachable state; opens precede updates and chunks on every link;
      every chunk under way can be resolved unless the network refuses an open;
      tombstones hold; cleanup removes exactly what is overdue; a message is
      delivered exactly when its session reconstructs it; every drain ends, for
      any strategy with the drain laws and for Reed-Solomon in particular.
    - Broadcast: a publication sends every shard to every subscriber once; a relay
      that gets enough shards hands the payload to its application, whatever else
      happens to it; and the two compose, from one engine to the other, also through
      the queues, pumps and streams of the QUIC transport
      ([quic_broadcast_delivers]).
    - Wire: round trips of frames and chunk streams, and each error in its case; the
      payload reader gives exactly the declared bytes, however the stream
      fragments them.
    - Transport: what a pump writes is read at the other end as the events of the
      in-memory network; whatever bytes arrive, nothing is reported that a remote
      peer may not cause; the node's queues are FIFO and bounded, its registry
      agrees with the events of the engine, and no wake-up of a reader is lost.
    - Networks: the in-memory network is FIFO per stream; the simulator processes
      its events in order and loses none; without fault rules it gives the events
      of the in-memory network, less those about a message's own sender, unless a
      peer registers again while messages are on their way to it; a partition
      cuts exactly its link; a simulated sleep ends after its wakeup fires, and no
      wakeup is lost.
    - Authenticity: an engine that is given published preambles passes on no
      others, and in a simulated mesh every delivery has the digest and length of
      a payload that was published for it.
    - Runner: a scenario never blocks or panics; without faults a mesh of any size
      delivers a broadcast to everyone and comes to rest ([mesh_delivers]).

    Five theorems state that the code does not do what it is meant to:
    [refused_open_leaks_dispatch], [empty_polls_exhaust_budget],
    [failed_sends_grow_heap], [connect_after_handshake] and
    [failed_write_mutes_sessions]; the last part of [tracker_fifo] is a case that
    the comments of the code exclude.  The example [lossy_mesh_delivers], a mesh of
    three under all losses on the links of the origin, shows an end-to-end
    effect of polling one shard per peer, and [replaced_endpoint_differs] where
    the simulated network and the in-memory network part.

    Some digests collide, so a strategy can be fooled by a chunk that is another
    string with the digest of the shard at its index.  The theorems on relays that
    chunks may reach from anywhere ([relay_reconstructs], [relay_delivers],
    [broadcast_delivers], [quic_broadcast_delivers]) assume of the chunks at hand
    that none is of this kind ([collision_free]); a digest that does not match is
    the business of the code.  [mesh_delivers] assumes nothing of digests: it shows
    that only genuine shards are sent.  [deliveries_were_published] and
    [engine_authentic] speak of the digests themselves.

    ** Bounds and fuel

    The drain loop of the engine runs with fuel [poll_bound + 1], where
    [DrainBound] gives a bound for each strategy; [drain_terminates] shows that it
    never runs out.  [advance_loop] and [pump_loop] take an entry off the heap per
    round and run with its length.  The readers of a stream consume at least four
    bytes per round, so one more than its length is enough ([read_bcast_fuel],
    [read_sess_fuel]).  The runner's loop recurs on its own step
    budget, and [mesh_steps] is enough for a broadcast: a potential bounds what
    each engine can send.  The theorems on the simulator bound the virtual times by
    [DURATION_MAX], beyond which the additions of the code panic, and the sequence
    numbers by [2^64].

    ** Parameters

    SHA-256 ([Sha256]), the Reed-Solomon crate ([ReedSolomon]) and prost
    ([Message]) are classes of operations; [Sha256Laws], [ReedSolomonLaws] and
    [MessageLaws] state their documented behaviour where a theorem needs it, and
    [RsCodec.XorCode] is a small instance of them.  The texts of errors are
    [Display] and [Debug] instances; those of the two crates are fields of their
    classes.  The connections of quinn are
    the class [Quic], the codec of a chunk index has the laws [ChunkIdentLaws],
    and tokio's [Notify] is a class with [NotifyLaws].  [Net], [Clock], [DeliverySink],
    and [Rng] with [RngRange], are the seams of the runtime and of [rand_chacha].

    ** Not modelled

    - The endpoint of the QUIC transport, its TLS configuration and its sockets
      ([bind_with_config] after the tables, [tls.rs]): settings for quinn and
      rustls.  A task is modelled by its steps on the shared state; how the runtime
      schedules tasks is not.
    - [Spawn] and its instances, and log output.
    - The code prost generates, the fuzz targets, which compare with a Go codec,
      and the build helper [xtask]. *)
From stdpp Require Import base gmap list sorting strings pretty option.
From Stdlib Require Import NArith ZArith Lia.
From Stdlib.Strings Require Byte.

(** * Results and errors *)

(** Rust's [Result<A, E>]. *)
Inductive result (E A : Type) : Type :=
  | Ok (a : A)
  | Err (e : E).
Arguments Ok {E A} a.
Arguments Err {E A} e.

Declare Scope rust_scope.
Delimit Scope rust_scope with rust.
Open Scope rust_scope.

#[export] Instance result_ret E : MRet (result E) := λ A a, Ok a.
#[export] Instance result_bind E : MBind (result E) := λ A B k c,
  match c with Ok a => k a | Err e => Err e end.
#[export] Instance result_fmap E : FMap (result E) := λ A B f c,
  match c with Ok a => Ok (f a) | Err e => Err e end.

(** [Result::map_err]. *)
Definition map_err {E F A} (f : E → F) (r : result E A) : result F A :=
  match r with Ok a => Ok a | Err e => Err (f e) end.

(** [Option::ok_or]. *)
Definition ok_or {E A} (e : E) (o : option A) : result E A :=
  match o with Some a => Ok a | None => Err e end.

Definition is_ok {E A} (r : result E A) : bool :=
  match r with Ok _ => true | Err _ => false end.

(** A method that takes [&mut self] and returns [Result<A, E>]: the state
    written so far survives an early return, as it does in Rust. *)
Definition SM (S E A : Type) : Type := S → result E A * S.

#[export] Instance SM_ret S E : MRet (SM S E) := λ A a s, (Ok a, s).
#[export] Instance SM_bind S E : MBind (SM S E) := λ A B k c s,
  match c s with
  | (Ok a, s') => k a s'
  | (Err e, s') => (Err e, s')
  end.

(** [for a in l { f(a)?; }]. *)
Fixpoint sm_for {S E A} (f : A → SM S E unit) (l : list A) : SM S E unit :=
  match l with
  | [] => mret ()
  | a :: l => f a ≫= λ _, sm_for f l
  end.

(** [let _ = f(s)]: run for the effect, ignore the result. *)
Definition sm_exec {S E A} (f : SM S E A) (s : S) : S := snd (f s).

(** * Texts

    [Display] and [Debug], the traits behind [to_string], [{}] and [{:?}]; numbers
    print in decimal. *)
Class Display (A : Type) : Type := to_string : A → string.
Class Debug (A : Type) : Type := debug_string : A → string.

#[export] Instance Display_N : Display N := pretty.
#[export] Instance Display_nat : Display nat := pretty.
#[export] Instance Display_Z : Display Z := pretty.
#[export] Instance Display_string : Display string := id.
#[export] Instance Debug_N : Debug N := pretty.
#[export] Instance Debug_nat : Debug nat := pretty.
#[export] Instance Debug_Z : Debug Z := pretty.

(** What [derive(Debug)] prints of a variant with named fields, and of one with a
    single field. *)
Definition debug_struct (name : string) (fields : list (string * string)) : string :=
  name +:+ " { " +:+
  String.concat ", " ((λ '(field, value), field +:+ ": " +:+ value) <$> fields) +:+ " }".
Definition debug_tuple (name value : string) : string := name +:+ "(" +:+ value +:+ ")".

(** * Machine integers

    [u32], [u64] and [usize] values are [N]; [i32] values are [Z].  Each
    definition below writes the width out; values of the model are kept below
    it by the operations. *)
Abbreviation U32_MAX := 4294967295%N.
Abbreviation I32_MAX := 2147483647%Z.

(** [u32 + u32] with wrap-around. *)
Definition u32_add (a b : N) : N := ((a + b) mod 2 ^ 32)%N.
(** [u64::wrapping_add]. *)
Definition u64_add (a b : N) : N := ((a + b) mod 2 ^ 64)%N.
(** [u64::wrapping_mul]. *)
Definition u64_mul (a b : N) : N := ((a * b) mod 2 ^ 64)%N.
(** [u32::checked_add]. *)
Definition u32_checked_add (a b : N) : option N :=
  if decide (a + b < 2 ^ 32)%N then Some (a + b)%N else None.
(** [i32 + i32] with wrap-around (two's complement). *)
Definition i32_add (a b : Z) : Z := ((a + b + 2 ^ 31) mod 2 ^ 32 - 2 ^ 31)%Z.
(** [u32::try_from(i32)]. *)
Definition u32_try_from_i32 (a : Z) : option N :=
  if decide (0 ≤ a)%Z then Some (Z.to_N a) else None.
(** [i32::try_from(usize)]. *)
Definition i32_try_from_usize (n : nat) : option Z :=
  if decide (Z.of_nat n ≤ I32_MAX)%Z then Some (Z.of_nat n) else None.
(** [as u32] on an [i32]. *)
Definition i32_as_u32 (a : Z) : N := Z.to_N (a mod 2 ^ 32)%Z.
(** [as u32] on a [usize]. *)
Definition usize_as_u32 (n : nat) : N := (N.of_nat n mod 2 ^ 32)%N.
(** [as usize] on an [i32], on a 64-bit target (sign extension). *)
Definition i32_as_usize (a : Z) : N := Z.to_N (a mod 2 ^ 64)%Z.
(** [usize::div_ceil] and [u32::div_ceil] for a non-zero divisor. *)
Definition div_ceil (a b : N) : N := ((a + (b - 1)) / b)%N.

(** * Bytes *)

Abbreviation byte := Byte.byte.
Abbreviation bytes := (list Byte.byte).

#[export] Instance byte_eq_dec : EqDecision byte := Byte.byte_eq_dec.

(** The byte of a number taken modulo 256 ([as u8]). *)
Definition byte_of_N (n : N) : byte :=
  match Byte.of_N (n mod 256) with
  | Some b => b
  | None => Byte.x00
  end.

(** [u64::to_le_bytes] and [from_le_bytes], at any width [w]. *)
Fixpoint to_le_bytes (w : nat) (n : N) : bytes :=
  match w with
  | O => []
  | S w => byte_of_N n :: to_le_bytes w (n / 256)%N
  end.
Fixpoint from_le_bytes (bs : bytes) : N :=
  match bs with
  | [] => 0%N
  | b :: bs => (Byte.to_N b + 256 * from_le_bytes bs)%N
  end.

(** [u32::to_be_bytes] and [from_be_bytes]. *)
Definition to_be_bytes (w : nat) (n : N) : bytes := rev (to_le_bytes w n).
Definition from_be_bytes (bs : bytes) : N := from_le_bytes (rev bs).

(** [slice::chunks(k)]: consecutive pieces of [k] elements, the last one
    possibly shorter.  The fuel is the length of the slice. *)
Fixpoint chunks_fuel {A} (fuel k : nat) (l : list A) : list (list A) :=
  match fuel, l with
  | O, _ => []
  | _, [] => []
  | S fuel, _ => take k l :: chunks_fuel fuel k (drop k l)
  end.
Definition chunks {A} (k : nat) (l : list A) : list (list A) :=
  chunks_fuel (length l) k l.

(** The range [0..n] of [u32] values. *)
Definition range (n : N) : list N := N.of_nat <$> seq 0 (N.to_nat n).

(** * Ordered iteration of [BTreeMap] and [BTreeSet]

    The maps are [gmap]s; the places where the code observes the iteration
    order go through the two functions below, which list the keys in
    ascending order. *)
Class KeyOrder (K : Type) := {
  key_le : relation K;
  key_le_dec :: RelDecision key_le;
  key_le_po :: PartialOrder key_le;
  key_le_total :: Total key_le
}.

#[export] Instance KeyOrder_N : KeyOrder N := {| key_le := N.le |}.

#[export] Instance KeyOrder_string : KeyOrder string :=
  {| key_le := String.le |}.

Section btree.
Context `{Countable K, !KeyOrder K}.

(** [BTreeSet::iter]. *)
Definition bt_elements (X : gset K) : list K := merge_sort key_le (elements X).

(** [BTreeMap::keys]. *)
Definition bt_keys {V} (m : gmap K V) : list K := bt_elements (dom m).

(** [BTreeMap::iter]. *)
Definition bt_iter {V} (m : gmap K V) : list (K * V) :=
  omap (λ k, (k,.) <$> m !! k) (bt_keys m).
End btree.

(** [HashMap::contains_key] and friends. *)
Definition contains_key `{Countable K} {V} (m : gmap K V) (k : K) : bool :=
  bool_decide (is_Some (m !! k)).

(** * Tactics and hint databases *)

(** Linear arithmetic with division and remainder by constants. *)
Ltac divmod_lia := zify; Z.to_euclidean_division_equations; lia.

(** Case analysis on the innermost [match] or [if] of the goal or hypotheses,
    followed by the simplification of the equations it leaves. *)
Ltac step_match := repeat (case_match || case_decide); simplify_eq/=.

(** Destruct a pair-returning call, keeping its equation. *)
Ltac pair_eq x y H :=
  match goal with
  | |- context [match ?c with (_, _) => _ end] => destruct c as [x y] eqn:H
  end.

Create HintDb rust discriminated.
Create Rewrite HintDb words.

(** * Lemmas on results *)

Lemma ok_or_Ok {E A} (e : E) (o : option A) a : ok_or e o = Ok a ↔ o = Some a.
Proof. destruct o; simpl; split; congruence. Qed.

Lemma map_err_Ok {E F A} (f : E → F) (r : result E A) a :
  map_err f r = Ok a ↔ r = Ok a.
Proof. destruct r; simpl; split; congruence. Qed.

#[export] Instance result_eq_dec `{EqDecision E, EqDecision A} :
  EqDecision (result E A).
Proof. solve_decision. Defined.

(** * Lemmas on machine integers *)

Lemma u32_add_bound a b : (u32_add a b < 2 ^ 32)%N.
Proof. unfold u32_add. divmod_lia. Qed.
Lemma u32_add_small a b : (a + b < 2 ^ 32)%N → u32_add a b = (a + b)%N.
Proof. intros. unfold u32_add. apply N.mod_small. lia. Qed.
Lemma u64_add_small a b : (a + b < 2 ^ 64)%N → u64_add a b = (a + b)%N.
Proof. intros. unfold u64_add. apply N.mod_small. lia. Qed.
Lemma u64_add_bound a b : (u64_add a b < 2 ^ 64)%N.
Proof. unfold u64_add. apply N.mod_lt. lia. Qed.
#[export] Hint Resolve u32_add_bound u64_add_bound : rust.
#[export] Hint Rewrite u32_add_small u64_add_small using lia : words.

(** The sum of two non-negative [i32]s, cast to [u32], is the true sum, even
    when the [i32] addition wraps. *)
Lemma i32_add_as_u32 a b :
  (0 ≤ a ≤ I32_MAX)%Z → (0 ≤ b ≤ I32_MAX)%Z →
  i32_as_u32 (i32_add a b) = Z.to_N (a + b).
Proof. intros. unfold i32_as_u32, i32_add. f_equal. divmod_lia. Qed.

Lemma i32_as_usize_nonneg a :
  (0 ≤ a ≤ I32_MAX)%Z → i32_as_usize a = Z.to_N a.
Proof. intros. unfold i32_as_usize. rewrite Z.mod_small by lia. done. Qed.

Lemma usize_as_u32_small n :
  (N.of_nat n < 2 ^ 32)%N → usize_as_u32 n = N.of_nat n.
Proof. intros. unfold usize_as_u32. by apply N.mod_small. Qed.

Lemma div_ceil_spec a b :
  (0 < b)%N → (a ≤ div_ceil a b * b)%N ∧ (div_ceil a b * b < a + b)%N.
Proof.
  intros Hb. unfold div_ceil.
  pose proof (N.div_mod (a + (b - 1)) b ltac:(lia)).
  pose proof (N.mod_lt (a + (b - 1)) b ltac:(lia)).
  generalize dependent ((a + (b - 1)) `mod` b)%N.
  generalize ((a + (b - 1)) / b)%N. intros q r ??. split; lia.
Qed.

Lemma div_ceil_pos a b : (0 < a)%N → (0 < b)%N → (0 < div_ceil a b)%N.
Proof.
  intros Ha Hb. destruct (div_ceil_spec a b Hb) as [H _].
  destruct (decide (div_ceil a b = 0)%N) as [E|E]; [rewrite E in H|]; lia.
Qed.

Lemma div_ceil_le a b c : (0 < b)%N → (a ≤ c * b)%N → (div_ceil a b ≤ c)%N.
Proof.
  intros Hb Ha. destruct (div_ceil_spec a b Hb) as [_ H].
  apply N.le_ngt. intros Hlt.
  pose proof (N.mul_le_mono_r (c + 1) (div_ceil a b) b). lia.
Qed.

(** * Lemmas on bytes *)

Lemma byte_to_N_lt b : (Byte.to_N b < 256)%N.
Proof. pose proof (Byte.to_N_bounded b). lia. Qed.

Lemma to_N_byte_of_N n : Byte.to_N (byte_of_N n) = (n mod 256)%N.
Proof.
  unfold byte_of_N. destruct (Byte.of_N (n mod 256)) eqn:E.
  - by apply Byte.to_of_N.
  - apply Byte.of_N_None_iff in E. pose proof (N.mod_lt n 256). lia.
Qed.

Lemma byte_of_N_to_N b : byte_of_N (Byte.to_N b) = b.
Proof.
  unfold byte_of_N. rewrite N.mod_small by apply byte_to_N_lt.
  by rewrite Byte.of_to_N.
Qed.

Lemma length_to_le_bytes w n : length (to_le_bytes w n) = w.
Proof. revert n; induction w; intros; simpl; auto. Qed.

Lemma from_le_bytes_bound bs : (from_le_bytes bs < 256 ^ N.of_nat (length bs))%N.
Proof.
  induction bs as [|b bs IH]; [done|].
  cbn [from_le_bytes length]. rewrite Nat2N.inj_succ, N.pow_succ_r'.
  pose proof (byte_to_N_lt b). lia.
Qed.

Lemma from_to_le_bytes w n :
  from_le_bytes (to_le_bytes w n) = (n mod 256 ^ N.of_nat w)%N.
Proof.
  revert n; induction w as [|w IH]; intros n.
  - cbn. by rewrite N.mod_1_r.
  - cbn [from_le_bytes to_le_bytes].
    rewrite IH, to_N_byte_of_N, Nat2N.inj_succ, N.pow_succ_r'.
    rewrite N.Div0.mod_mul_r by (try apply N.pow_nonzero; lia). lia.
Qed.

Lemma to_from_le_bytes bs : to_le_bytes (length bs) (from_le_bytes bs) = bs.
Proof.
  induction bs as [|b bs IH]; [done|]. cbn [from_le_bytes length to_le_bytes].
  pose proof (byte_to_N_lt b) as Hb. f_equal.
  - rewrite <- (byte_of_N_to_N b) at 2. unfold byte_of_N. repeat f_equal.
    rewrite (N.mul_comm 256), N.Div0.mod_add, !N.mod_small by lia. done.
  - rewrite (N.mul_comm 256), N.div_add, N.div_small by lia. done.
Qed.

Lemma testbit_add_low w x y i :
  (x < 2 ^ w)%N → (i < w)%N → N.testbit (x + 2 ^ w * y) i = N.testbit x i.
Proof.
  intros Hx Hi. rewrite <- (N.mod_pow2_bits_low _ w i) by done.
  by rewrite (N.mul_comm (2 ^ w)), N.Div0.mod_add, N.mod_small.
Qed.

Lemma testbit_from_le_bytes bs i :
  N.testbit (from_le_bytes bs) i =
  match bs !! N.to_nat (i / 8) with
  | Some b => N.testbit (Byte.to_N b) (i mod 8)
  | None => false
  end.
Proof.
  revert i; induction bs as [|b bs IH]; intros i.
  - apply N.bits_0.
  - cbn [from_le_bytes]. pose proof (byte_to_N_lt b) as Hb.
    change 256%N with (2 ^ 8)%N in *.
    destruct (decide (i < 8)%N) as [Hi|Hi].
    + rewrite (N.div_small i 8), (N.mod_small i 8) by done.
      change (N.to_nat 0) with 0. change ((b :: bs) !! 0) with (Some b).
      cbv iota. by apply testbit_add_low.
    + replace i with ((i - 8) + 8)%N at 1 by lia.
      rewrite <- N.div_pow2_bits, (N.mul_comm (2 ^ 8)), N.div_add by done.
      rewrite N.div_small by done.
      rewrite N.add_0_l, IH.
      replace (i / 8)%N with ((i - 8) / 8 + 1)%N by divmod_lia.
      replace ((i - 8) mod 8)%N with (i mod 8)%N by divmod_lia.
      rewrite N2Nat.inj_add. change (N.to_nat 1) with 1.
      by rewrite Nat.add_1_r.
Qed.

Lemma length_to_be_bytes w n : length (to_be_bytes w n) = w.
Proof. unfold to_be_bytes. by rewrite length_rev, length_to_le_bytes. Qed.

Lemma from_to_be_bytes w n :
  (n < 256 ^ N.of_nat w)%N → from_be_bytes (to_be_bytes w n) = n.
Proof.
  intros. unfold from_be_bytes, to_be_bytes.
  rewrite rev_involutive, from_to_le_bytes. by apply N.mod_small.
Qed.

(** * Lemmas on [chunks] *)

Lemma lookup_chunks_fuel {A} fuel k (l : list A) i :
  0 < k → length l ≤ fuel →
  chunks_fuel fuel k l !! i =
  if decide (i * k < length l) then Some (take k (drop (i * k) l)) else None.
Proof.
  intros Hk. revert l i; induction fuel as [|fuel IH]; intros l i Hl.
  { destruct l; [|simpl in *; lia]. case_decide; [simpl in *; lia|done]. }
  destruct l as [|x l]; [case_decide; [simpl in *; lia|done]|].
  cbn [chunks_fuel]. destruct i as [|i].
  { case_decide; [done|simpl in *; lia]. }
  change ((?a :: ?b) !! S i) with (b !! i).
  assert (Hd : length (drop k (x :: l)) = length (x :: l) - k)
    by apply length_drop.
  rewrite IH by (simpl in *; lia). rewrite Hd, drop_drop.
  replace (k + i * k) with (S i * k) by lia.
  repeat case_decide; try done; simpl in *; lia.
Qed.

Lemma lookup_chunks {A} k (l : list A) i :
  0 < k →
  chunks k l !! i =
  if decide (i * k < length l) then Some (take k (drop (i * k) l)) else None.
Proof. intros. by apply lookup_chunks_fuel. Qed.

Lemma length_chunks_le {A} k (l : list A) n :
  0 < k → length l ≤ n * k → length (chunks k l) ≤ n.
Proof.
  intros Hk Hl. apply lookup_ge_None. rewrite lookup_chunks by done.
  case_decide; [lia|done].
Qed.

Lemma elem_of_range n i : i ∈ range n ↔ (i < n)%N.
Proof.
  unfold range. rewrite list_elem_of_fmap. split.
  - intros (j & -> & Hj%elem_of_seq). lia.
  - intros Hi. exists (N.to_nat i). split; [by rewrite N2Nat.id|].
    apply elem_of_seq. lia.
Qed.

Lemma NoDup_range n : NoDup (range n).
Proof. apply NoDup_fmap_2; [intros ??; apply Nat2N.inj|apply NoDup_seq]. Qed.

(** * Lemmas on ordered iteration *)

Section btree_lemmas.
Context `{Countable K, !KeyOrder K}.

Lemma bt_elements_perm (X : gset K) : bt_elements X ≡ₚ elements X.
Proof. apply merge_sort_Permutation. Qed.

Lemma elem_of_bt_elements (X : gset K) k : k ∈ bt_elements X ↔ k ∈ X.
Proof. by rewrite bt_elements_perm, elem_of_elements. Qed.

Lemma NoDup_bt_elements (X : gset K) : NoDup (bt_elements X).
Proof. rewrite bt_elements_perm. apply NoDup_elements. Qed.

Lemma length_bt_elements (X : gset K) : length (bt_elements X) = size X.
Proof. by rewrite bt_elements_perm. Qed.

Lemma bt_elements_sorted (X : gset K) : StronglySorted key_le (bt_elements X).
Proof. apply StronglySorted_merge_sort; apply _. Qed.

Lemma elem_of_bt_keys {V} (m : gmap K V) k : k ∈ bt_keys m ↔ is_Some (m !! k).
Proof. unfold bt_keys. by rewrite elem_of_bt_elements, elem_of_dom. Qed.

Lemma elem_of_bt_iter {V} (m : gmap K V) k v :
  (k, v) ∈ bt_iter m ↔ m !! k = Some v.
Proof.
  unfold bt_iter. rewrite list_elem_of_omap. split.
  - intros (k' & _ & E). destruct (m !! k') eqn:?; simplify_eq/=. done.
  - intros E. exists k. rewrite E. split; [|done].
    apply elem_of_bt_keys. rewrite E. eauto.
Qed.
End btree_lemmas.

Lemma contains_key_true `{Countable K} {V} (m : gmap K V) k :
  contains_key m k = true ↔ is_Some (m !! k).
Proof. unfold contains_key. apply bool_decide_eq_true. Qed.
Lemma contains_key_false `{Countable K} {V} (m : gmap K V) k :
  contains_key m k = false ↔ m !! k = None.
Proof. unfold contains_key. by rewrite bool_decide_eq_false, eq_None_not_Some. Qed.

(** * Counting

    [countb f n] is the number of indices below [n] that satisfy [f]. *)
Fixpoint countb (f : nat → bool) (n : nat) : nat :=
  match n with
  | O => 0
  | S n => countb f n + (if f n then 1 else 0)
  end.

Lemma countb_ext f g n : (∀ i, i < n → f i = g i) → countb f n = countb g n.
Proof.
  induction n as [|n IH]; intros H; simpl; [done|].
  rewrite IH, H by auto with lia. done.
Qed.

Lemma countb_add f n m : countb f (n + m) = countb f n + countb (λ i, f (n + i)) m.
Proof.
  induction m as [|m IH]; simpl; [by rewrite !Nat.add_0_r|].
  rewrite Nat.add_succ_r. simpl. rewrite IH. lia.
Qed.

Lemma countb_false f n : (∀ i, i < n → f i = false) → countb f n = 0.
Proof.
  induction n as [|n IH]; intros H; simpl; [done|].
  rewrite IH, H by auto with lia. done.
Qed.

Lemma countb_le f n : countb f n ≤ n.
Proof. induction n; simpl; [done|]. case_match; lia. Qed.

Lemma countb_mono f g n :
  (∀ i, i < n → f i = true → g i = true) → countb f n ≤ countb g n.
Proof.
  induction n as [|n IH]; intros H; simpl; [done|].
  pose proof (IH ltac:(auto with lia)). pose proof (H n ltac:(lia)).
  destruct (f n), (g n); simpl in *; lia || naive_solver.
Qed.

(** Turning one index from [false] to [true] adds one to the count. *)
Lemma countb_set f g n k :
  k < n → f k = false → g k = true → (∀ i, i ≠ k → g i = f i) →
  countb g n = S (countb f n).
Proof.
  intros Hk Hf Hg Heq. induction n as [|n IH]; [lia|]. simpl.
  destruct (decide (k = n)) as [->|Hne].
  - rewrite Hf, Hg, (countb_ext g f) by (intros; apply Heq; lia). lia.
  - rewrite IH, Heq by lia. lia.
Qed.
