(* ===== verification/Heap.v ===== *)
(** [std::collections::BinaryHeap], as the emit planner and the simulator use
    it: a priority queue from which [pop] removes an entry that no other entry
    precedes.  The entries of both users are totally ordered, so the queue is
    represented by the list of its entries in increasing order; [push] inserts
    and [pop] takes the head.  Entries that compare equal are equal for both
    users, so the representation loses nothing. *)
From stdpp Require Import base list sorting.
From S2P Require Import Prelude.

Section heap.
Context {A : Type} (le : A → A → bool).

(** [BinaryHeap::push]. *)
Fixpoint heap_push (x : A) (h : list A) : list A :=
  match h with
  | [] => [x]
  | y :: h' => if le x y then x :: h else y :: heap_push x h'
  end.

(** [BinaryHeap::pop]. *)
Definition heap_pop (h : list A) : option (A * list A) :=
  match h with
  | [] => None
  | x :: h' => Some (x, h')
  end.

(** Pushing the entries of a list one after the other. *)
Definition heap_push_all (xs h : list A) : list A :=
  foldl (λ h x, heap_push x h) h xs.

Definition heap_sorted (h : list A) : Prop := StronglySorted le h.

Lemma heap_push_perm x h : heap_push x h ≡ₚ x :: h.
Proof.
  induction h as [|y h IH]; simpl; [done|].
  destruct (le x y); [done|]. by rewrite IH, Permutation_swap.
Qed.

Lemma elem_of_heap_push x y h : y ∈ heap_push x h ↔ y = x ∨ y ∈ h.
Proof. by rewrite heap_push_perm, elem_of_cons. Qed.

Lemma heap_push_all_perm xs h : heap_push_all xs h ≡ₚ xs ++ h.
Proof.
  unfold heap_push_all. revert h; induction xs as [|x xs IH]; intros h; [done|].
  simpl. rewrite IH, heap_push_perm. by rewrite Permutation_middle.
Qed.

Lemma elem_of_heap_push_all xs h y : y ∈ heap_push_all xs h ↔ y ∈ xs ∨ y ∈ h.
Proof. by rewrite heap_push_all_perm, elem_of_app. Qed.

Lemma length_heap_push x h : length (heap_push x h) = S (length h).
Proof. by rewrite heap_push_perm. Qed.

(** A push seen through a partial function: an entry it drops changes nothing,
    and one that no entry it keeps comes after joins the end. *)
Lemma heap_push_omap_None {B} (f : A → option B) x h :
  f x = None → omap f (heap_push x h) = omap f h.
Proof.
  intros Hx. induction h as [|y h IH]; cbn [heap_push omap list_omap]; [by rewrite Hx|].
  destruct (le x y); cbn [omap list_omap] in *; [by rewrite Hx|by rewrite IH].
Qed.

Context (le_trans : ∀ x y z, le x y → le y z → le x z).
Context (le_total : ∀ x y, le x y ∨ le y x).

Lemma heap_push_sorted x h : heap_sorted h → heap_sorted (heap_push x h).
Proof.
  unfold heap_sorted. induction 1 as [|y h Hs IH Hy]; simpl.
  { repeat constructor. }
  destruct (le x y) eqn:E.
  - constructor; [by constructor|]. constructor; [by rewrite E|].
    eapply Forall_impl; [exact Hy|]. intros z Hz.
    apply (le_trans x y z); [by rewrite E|done].
  - constructor; [done|]. rewrite heap_push_perm. constructor; [|done].
    destruct (le_total x y) as [H|H]; [by rewrite E in H|done].
Qed.

Lemma heap_push_omap_last {B} (f : A → option B) x h :
  heap_sorted h → (∀ y, y ∈ h → le x y → f y = None) →
  omap f (heap_push x h) = omap f h ++ option_list (f x).
Proof.
  unfold heap_sorted. induction 1 as [|y h Hs IH Hy]; intros Hf; cbn [heap_push].
  { cbn. by destruct (f x). }
  destruct (le x y) eqn:E.
  - assert (Forall (λ z, f z = None) (y :: h)) as Hall.
    { apply Forall_cons. split; [apply Hf; [left|by rewrite E]|].
      apply Forall_forall. intros z Hz. apply Hf; [by right|].
      apply (le_trans x y z); [by rewrite E|]. by eapply Forall_forall in Hy. }
    assert (∀ l, Forall (λ z, f z = None) l → omap f l = []) as Hnil.
    { induction 1 as [|z l Hz _ IHl]; [done|]. simpl. by rewrite Hz. }
    apply Hnil in Hall. cbn [omap list_omap] in *. rewrite Hall. by destruct (f x).
  - cbn [omap list_omap]. rewrite IH by (intros z Hz; apply Hf; by right).
    by destruct (f y).
Qed.

Lemma heap_push_all_sorted xs h :
  heap_sorted h → heap_sorted (heap_push_all xs h).
Proof.
  unfold heap_push_all. revert h; induction xs as [|x xs IH]; intros h ?;
    [done|]. simpl. by apply IH, heap_push_sorted.
Qed.

(** What [pop] returns precedes every entry that stays. *)
Lemma heap_pop_min x h h' :
  heap_sorted h → heap_pop h = Some (x, h') → ∀ y, y ∈ h' → le x y.
Proof.
  unfold heap_sorted. destruct 1 as [|z h0 _ Hz]; simpl; [done|].
  intros [= -> ->] y Hy. by eapply Forall_forall in Hz.
Qed.
End heap.

#[export] Hint Resolve heap_push_sorted heap_push_all_sorted : rust.
