(* ===== verification/BitMap.v ===== *)
(** The shard havelist: [crates/ethp2p-broadcast/src/strategy/bitmap.rs].

    A bitmap keeps its bits in 64-bit limbs.  The limbs are private in the
    source and every constructor establishes [wf]; under [wf] the limb index
    that [set] and [get] compute is in range ([limb_in_bounds]), so the
    default value that [get] gives an absent limb never stand for a Rust panic. *)
From stdpp Require Import base gmap option strings list.
From Stdlib Require Import NArith Lia.
From S2P Require Import Prelude.
Local Open Scope N_scope.

Record BitMap := mkBitMap { bits : list N; bm_n : N }.

Inductive BitMapError :=
  | OutOfRange (idx n : N)
  | SizeMismatch (lhs_n rhs_n : N)
  | InvalidByteLength (got expected : nat).

#[export] Instance BitMap_eq_dec : EqDecision BitMap.
Proof. solve_decision. Defined.
#[export] Instance BitMapError_eq_dec : EqDecision BitMapError.
Proof. solve_decision. Defined.

#[export] Instance Display_BitMapError : Display BitMapError := λ e,
  match e with
  | OutOfRange idx n =>
      "bit index " +:+ to_string idx +:+ " out of range for bitmap of size " +:+ to_string n
  | SizeMismatch lhs_n rhs_n =>
      "bitmap size mismatch: " +:+ to_string lhs_n +:+ " (lhs) vs " +:+ to_string rhs_n +:+ " (rhs)"
  | InvalidByteLength got expected =>
      "bitmap byte length " +:+ to_string got +:+ " does not match expected " +:+
      to_string expected +:+ " for declared n"
  end%string.

Module BitMap.

Definition BITS_PER_LIMB : N := 64.

Definition limbs_for (n : N) : nat := N.to_nat (div_ceil n BITS_PER_LIMB).

Definition bytes_for (n : N) : nat := N.to_nat (div_ceil n 8).

Definition limb_bit (idx : N) : nat * N :=
  (N.to_nat (idx / BITS_PER_LIMB), idx mod BITS_PER_LIMB).

Definition with_capacity (n : N) : BitMap :=
  mkBitMap (replicate (limbs_for n) 0) n.

Definition set (b : BitMap) (idx : N) : result BitMapError BitMap :=
  if decide (bm_n b ≤ idx) then Err (OutOfRange idx (bm_n b))
  else
    let '(limb, bit) := limb_bit idx in
    Ok (mkBitMap (alter (λ w, N.lor w (N.shiftl 1 bit)) limb (bits b)) (bm_n b)).

Definition get (b : BitMap) (idx : N) : bool :=
  if decide (bm_n b ≤ idx) then false
  else
    let '(limb, bit) := limb_bit idx in
    N.land (N.shiftr (default 0 (bits b !! limb)) bit) 1 =? 1.

(** [u64::count_ones]: how many of the 64 bits are set. *)
Definition u64_count_ones (w : N) : N :=
  N.of_nat (countb (λ i, N.testbit w (N.of_nat i)) 64).

Definition count_ones (b : BitMap) : N :=
  foldr (λ w acc, u64_count_ones w + acc) 0 (bits b).

(** [self.bits.iter_mut().zip(other.bits.iter())]: the limbs of [self] past the
    end of [other] keep their value. *)
Fixpoint or_limbs (xs ys : list N) : list N :=
  match xs, ys with
  | x :: xs, y :: ys => N.lor x y :: or_limbs xs ys
  | xs, _ => xs
  end.

Definition or_merge (b other : BitMap) : result BitMapError BitMap :=
  if decide (bm_n b = bm_n other)
  then Ok (mkBitMap (or_limbs (bits b) (bits other)) (bm_n b))
  else Err (SizeMismatch (bm_n b) (bm_n other)).

(** The loop of [as_bytes] over the limbs, from limb number [idx] on, with
    [out] the bytes written so far. *)
Fixpoint as_bytes_loop (nbytes nlimbs idx : nat) (limbs : list N) (out : bytes)
    : bytes :=
  match limbs with
  | [] => out
  | limb :: limbs =>
      let bs := to_le_bytes 8 limb in
      let out :=
        if decide (idx = nlimbs - 1)%nat
        then out ++ take (nbytes - length out) bs
        else out ++ bs in
      as_bytes_loop nbytes nlimbs (S idx) limbs out
  end.

Definition as_bytes (b : BitMap) : bytes :=
  as_bytes_loop (bytes_for (bm_n b)) (length (bits b)) 0 (bits b) [].

(** [out[i] = u64::from_le_bytes(buf)] for each 8-byte chunk, the last one
    padded with zero bytes. *)
Fixpoint write_limbs (i : nat) (cs : list bytes) (out : list N) : list N :=
  match cs with
  | [] => out
  | c :: cs =>
      let buf := c ++ replicate (8 - length c) Byte.x00 in
      write_limbs (S i) cs (<[i := from_le_bytes buf]> out)
  end.

Definition from_bytes (bs : bytes) (n : N) : result BitMapError BitMap :=
  let expected := bytes_for n in
  if decide (length bs = expected) then
    let out := write_limbs 0 (chunks 8 bs) (replicate (limbs_for n) 0) in
    let used := n mod BITS_PER_LIMB in
    let out :=
      if decide (0 < used)
      then alter (λ w, N.land w (N.shiftl 1 used - 1)) (length out - 1)%nat out
      else out in
    Ok (mkBitMap out n)
  else Err (InvalidByteLength (length bs) expected).

(** ** The bits a limb vector holds, and well-formedness *)

Definition limb_testbit (ls : list N) (i : N) : bool :=
  match ls !! N.to_nat (i / 64) with
  | Some w => N.testbit w (i mod 64)
  | None => false
  end.

Record wf (b : BitMap) : Prop := {
  wf_length : length (bits b) = limbs_for (bm_n b);
  wf_limb : Forall (λ w, w < 2 ^ 64) (bits b);
  wf_canonical : ∀ i, bm_n b ≤ i → limb_testbit (bits b) i = false
}.

(** Bit [i] of a packed byte sequence, lowest bit first. *)
Definition bytes_testbit (bs : bytes) (i : N) : bool :=
  match bs !! N.to_nat (i / 8) with
  | Some b => N.testbit (Byte.to_N b) (i mod 8)
  | None => false
  end.

(** ** Lemmas on single limbs *)

Lemma testbit_high w i : w < 2 ^ 64 → 64 ≤ i → N.testbit w i = false.
Proof.
  intros Hw Hi. rewrite <- (N.mod_small w (2 ^ 64)) by done.
  by apply N.mod_pow2_bits_high.
Qed.

Lemma limb_eq w1 w2 :
  w1 < 2 ^ 64 → w2 < 2 ^ 64 →
  (∀ j, j < 64 → N.testbit w1 j = N.testbit w2 j) → w1 = w2.
Proof.
  intros H1 H2 Hj. apply N.bits_inj. intros j.
  destruct (decide (j < 64)) as [Hlt|Hge]; [by apply Hj|].
  by rewrite !testbit_high by lia.
Qed.

Lemma land_shiftr_1 w i : (N.land (N.shiftr w i) 1 =? 1) = N.testbit w i.
Proof.
  change 1 with (N.ones 1) at 1. rewrite N.land_ones, N.shiftr_div_pow2.
  change (2 ^ 1) with 2. rewrite <- N.testbit_spec'.
  by destruct (N.testbit w i).
Qed.

Lemma lt_pow2_bits w : (∀ i, 64 ≤ i → N.testbit w i = false) → w < 2 ^ 64.
Proof.
  intros H. apply N.lt_nge. intros Hge.
  assert (w ≠ 0) as Hw by (intros ->; by vm_compute in Hge).
  apply N.log2_le_mono in Hge as Hlog. rewrite N.log2_pow2 in Hlog by lia.
  specialize (H (N.log2 w) Hlog). by rewrite N.bit_log2 in H.
Qed.

Lemma lor_limb w1 w2 : w1 < 2 ^ 64 → w2 < 2 ^ 64 → N.lor w1 w2 < 2 ^ 64.
Proof.
  intros. apply lt_pow2_bits. intros i Hi.
  by rewrite N.lor_spec, !testbit_high.
Qed.

Lemma land_limb w1 w2 : w1 < 2 ^ 64 → N.land w1 w2 < 2 ^ 64.
Proof.
  intros. apply lt_pow2_bits. intros i Hi.
  by rewrite N.land_spec, testbit_high.
Qed.

Lemma testbit_shiftl_1 bit j : N.testbit (N.shiftl 1 bit) j = bool_decide (j = bit).
Proof.
  rewrite N.shiftl_1_l. case_bool_decide; subst.
  - apply N.pow2_bits_true.
  - by apply N.pow2_bits_false.
Qed.

Lemma shiftl_1_limb bit : bit < 64 → N.shiftl 1 bit < 2 ^ 64.
Proof. intros. rewrite N.shiftl_1_l. apply N.pow_lt_mono_r; lia. Qed.

Lemma testbit_mask used j :
  N.testbit (N.shiftl 1 used - 1) j = bool_decide (j < used).
Proof.
  rewrite N.shiftl_1_l, N.sub_1_r, <- N.ones_equiv.
  case_bool_decide.
  - by apply N.ones_spec_low.
  - apply N.ones_spec_high. lia.
Qed.

(** ** Lemmas on limb vectors *)

Lemma limb_in_bounds n idx :
  idx < n → (N.to_nat (idx / 64) < limbs_for n)%nat.
Proof. unfold limbs_for, div_ceil, BITS_PER_LIMB. intros. divmod_lia. Qed.

Lemma limbs_ext ls1 ls2 :
  length ls1 = length ls2 →
  Forall (λ w, w < 2 ^ 64) ls1 → Forall (λ w, w < 2 ^ 64) ls2 →
  (∀ i, limb_testbit ls1 i = limb_testbit ls2 i) → ls1 = ls2.
Proof.
  intros Hlen H1 H2 Heq. apply list_eq_same_length with (length ls2); [done..|].
  intros k w1 w2 Hk Hw1 Hw2.
  apply limb_eq; [exact (Forall_lookup_1 _ _ _ _ H1 Hw1)|exact (Forall_lookup_1 _ _ _ _ H2 Hw2)|].
  intros j Hj. specialize (Heq (64 * N.of_nat k + j)). unfold limb_testbit in Heq.
  replace ((64 * N.of_nat k + j) / 64) with (N.of_nat k) in Heq by divmod_lia.
  replace ((64 * N.of_nat k + j) mod 64) with j in Heq by divmod_lia.
  by rewrite Nat2N.id, Hw1, Hw2 in Heq.
Qed.

Lemma limb_testbit_alter f ls limb i :
  limb_testbit (alter f limb ls) i =
  match ls !! N.to_nat (i / 64) with
  | Some w => N.testbit (if decide (N.to_nat (i / 64) = limb) then f w else w) (i mod 64)
  | None => false
  end.
Proof.
  unfold limb_testbit. case_decide as Hl; subst.
  - rewrite list_lookup_alter_eq. by destruct (ls !! _).
  - rewrite list_lookup_alter_ne by done. by destruct (ls !! _).
Qed.

Lemma get_eq b i :
  get b i = bool_decide (i < bm_n b) && limb_testbit (bits b) i.
Proof.
  unfold get, limb_testbit, limb_bit, BITS_PER_LIMB. case_decide; case_bool_decide;
    try lia; simpl.
  rewrite land_shiftr_1. destruct (bits b !! _); [done|]. apply N.bits_0.
Qed.

Lemma get_wf b i : wf b → get b i = limb_testbit (bits b) i.
Proof.
  intros Hwf. rewrite get_eq. case_bool_decide; [done|].
  symmetry. apply (wf_canonical _ Hwf). lia.
Qed.

Lemma wf_ext b1 b2 :
  wf b1 → wf b2 → bm_n b1 = bm_n b2 → (∀ i, get b1 i = get b2 i) → b1 = b2.
Proof.
  intros W1 W2 Hn Hget. destruct b1 as [ls1 n1], b2 as [ls2 n2]; simpl in *; subst.
  f_equal. apply limbs_ext; [|apply W1|apply W2|].
  - pose proof (wf_length _ W1). pose proof (wf_length _ W2). simpl in *. congruence.
  - intros i. specialize (Hget i). by rewrite !get_wf in Hget.
Qed.

Lemma with_capacity_wf n : wf (with_capacity n).
Proof.
  split; simpl.
  - apply length_replicate.
  - apply Forall_replicate. lia.
  - intros i _. unfold limb_testbit. destruct (replicate _ _ !! _) eqn:E; [|done].
    apply lookup_replicate in E as [-> _]. apply N.bits_0.
Qed.

Lemma get_with_capacity n i : get (with_capacity n) i = false.
Proof.
  rewrite get_wf by apply with_capacity_wf. unfold limb_testbit; simpl.
  destruct (replicate _ _ !! _) eqn:E; [|done].
  apply lookup_replicate in E as [-> _]. apply N.bits_0.
Qed.

(** ** Setting, merging and counting bits *)

Lemma set_Ok b idx b' :
  set b idx = Ok b' → wf b →
  wf b' ∧ bm_n b' = bm_n b ∧ idx < bm_n b ∧
  ∀ j, get b' j = bool_decide (j = idx) || get b j.
Proof.
  unfold set, limb_bit, BITS_PER_LIMB. intros Hset Hwf. case_decide as Hi; [done|].
  simplify_eq. assert (idx < bm_n b) as Hlt by lia.
  set (ls' := alter _ _ _). assert (wf (mkBitMap ls' (bm_n b))) as Hwf'.
  { split; simpl.
    - unfold ls'. rewrite length_alter. apply Hwf.
    - unfold ls'. apply Forall_alter; [apply Hwf|]. intros w _ Hw.
      apply lor_limb; [done|]. apply shiftl_1_limb. divmod_lia.
    - intros i Hin. unfold ls'. rewrite limb_testbit_alter.
      pose proof (wf_canonical _ Hwf i Hin) as Hc. unfold limb_testbit in Hc.
      destruct (bits b !! _); [|done]. case_decide; [|done].
      rewrite N.lor_spec, Hc, testbit_shiftl_1. simpl.
      apply bool_decide_eq_false. intros ?. divmod_lia. }
  split; [done|]. split; [done|]. split; [done|]. intros j.
  rewrite !get_wf by done. simpl. unfold ls'. rewrite limb_testbit_alter.
  unfold limb_testbit. destruct (bits b !! N.to_nat (j / 64)) as [w|] eqn:Hw.
  - case_decide as Hd.
    + rewrite N.lor_spec, testbit_shiftl_1, orb_comm. f_equal.
      apply bool_decide_ext. divmod_lia.
    + rewrite bool_decide_false; [done|]. intros ->. done.
  - rewrite bool_decide_false; [done|]. intros ->.
    apply lookup_ge_None in Hw. rewrite (wf_length _ Hwf) in Hw.
    pose proof (limb_in_bounds (bm_n b) idx Hlt). lia.
Qed.

Lemma or_limbs_lookup xs ys i :
  length xs = length ys → or_limbs xs ys !! i = zip_with N.lor xs ys !! i.
Proof.
  revert ys i; induction xs as [|x xs IH]; intros [|y ys] i Hlen; try done.
  destruct i; simpl; [done|]. apply IH. simpl in Hlen. lia.
Qed.

Lemma limb_testbit_or xs ys i :
  length xs = length ys →
  limb_testbit (or_limbs xs ys) i = limb_testbit xs i || limb_testbit ys i.
Proof.
  intros Hlen. unfold limb_testbit. rewrite or_limbs_lookup by done.
  rewrite lookup_zip_with.
  destruct (xs !! _) eqn:Hx; simpl.
  - assert (is_Some (ys !! N.to_nat (i / 64))) as [y ->]; [|apply N.lor_spec].
    apply lookup_lt_is_Some. rewrite <- Hlen. by eapply lookup_lt_Some.
  - apply lookup_ge_None in Hx. rewrite Hlen in Hx.
    by apply lookup_ge_None in Hx as ->.
Qed.

Lemma or_limbs_length xs ys : length (or_limbs xs ys) = length xs.
Proof. revert ys; induction xs; intros [|??]; simpl; auto. Qed.

Lemma or_limbs_bound xs ys :
  Forall (λ w, w < 2 ^ 64) xs → Forall (λ w, w < 2 ^ 64) ys →
  Forall (λ w, w < 2 ^ 64) (or_limbs xs ys).
Proof.
  intros Hx; revert ys; induction Hx as [|x xs ?? IH]; intros ys Hys; simpl; [done|].
  destruct Hys as [|y ys]; [by constructor|].
  constructor; [by apply lor_limb|by apply IH].
Qed.

Lemma or_merge_Ok b o b' :
  or_merge b o = Ok b' → wf b → wf o →
  wf b' ∧ bm_n b' = bm_n b ∧ ∀ j, get b' j = get b j || get o j.
Proof.
  unfold or_merge. intros Hm Wb Wo. case_decide as Hn; [|done]. simplify_eq.
  assert (length (bits b) = length (bits o)) as Hlen.
  { rewrite (wf_length _ Wb), (wf_length _ Wo). by rewrite Hn. }
  assert (wf (mkBitMap (or_limbs (bits b) (bits o)) (bm_n b))) as Wb'.
  { split; simpl.
    - rewrite or_limbs_length. apply Wb.
    - apply or_limbs_bound; [apply Wb|apply Wo].
    - intros i Hi. rewrite limb_testbit_or by done.
      rewrite (wf_canonical _ Wb), (wf_canonical _ Wo); [done|lia..]. }
  split; [done|]. split; [done|]. intros j. rewrite !get_wf by done.
  by apply limb_testbit_or.
Qed.

Lemma count_ones_limbs ls :
  foldr (λ w acc, u64_count_ones w + acc) 0 ls =
  N.of_nat (countb (λ i, limb_testbit ls (N.of_nat i)) (64 * length ls)).
Proof.
  induction ls as [|w ls IH]; [done|]. cbn [foldr length].
  replace (64 * S (length ls))%nat with (64 + 64 * length ls)%nat by lia.
  rewrite countb_add, IH, Nat2N.inj_add. unfold u64_count_ones. f_equal.
  f_equal. apply countb_ext. intros i Hi. unfold limb_testbit.
  replace (N.of_nat (64 + i)) with (N.of_nat i + 1 * 64) by lia.
  rewrite N.div_add, N.Div0.mod_add, N.add_1_r, N2Nat.inj_succ by done. done.
Qed.

Lemma count_ones_eq b :
  wf b →
  count_ones b = N.of_nat (countb (λ i, get b (N.of_nat i)) (N.to_nat (bm_n b))).
Proof.
  intros Hwf. unfold count_ones. rewrite count_ones_limbs, (wf_length _ Hwf).
  pose proof (div_ceil_spec (bm_n b) 64 ltac:(lia)) as [Hle _].
  replace (64 * limbs_for (bm_n b))%nat
    with (N.to_nat (bm_n b) + (64 * limbs_for (bm_n b) - N.to_nat (bm_n b)))%nat
    by (unfold limbs_for, BITS_PER_LIMB; lia).
  rewrite countb_add. f_equal. rewrite <- (Nat.add_0_r (countb (λ i, get _ _) _)).
  f_equal.
  - apply countb_ext. intros i Hi. by rewrite get_wf.
  - apply countb_false. intros i Hi. apply (wf_canonical _ Hwf). lia.
Qed.

(** ** Packed bytes *)

(** The little-endian bytes of a limb vector. *)
Definition flat (ls : list N) : bytes := concat (to_le_bytes 8 <$> ls).

Lemma length_flat ls : length (flat ls) = (8 * length ls)%nat.
Proof.
  unfold flat. induction ls as [|w ls IH]; [done|]. rewrite fmap_cons, List.concat_cons.
  rewrite length_app, length_to_le_bytes, IH. simpl length. lia.
Qed.

Lemma bytes_testbit_app bs1 bs2 i :
  bytes_testbit (bs1 ++ bs2) i =
  if decide (i < 8 * N.of_nat (length bs1)) then bytes_testbit bs1 i
  else bytes_testbit bs2 (i - 8 * N.of_nat (length bs1)).
Proof.
  unfold bytes_testbit. case_decide.
  - rewrite lookup_app_l; [done|]. divmod_lia.
  - rewrite lookup_app_r by divmod_lia.
    replace (N.to_nat (i / 8) - length bs1)%nat
      with (N.to_nat ((i - 8 * N.of_nat (length bs1)) / 8)) by divmod_lia.
    by replace ((i - 8 * N.of_nat (length bs1)) mod 8) with (i mod 8) by divmod_lia.
Qed.

Lemma bytes_testbit_le bs i : bytes_testbit bs i = N.testbit (from_le_bytes bs) i.
Proof. by rewrite testbit_from_le_bytes. Qed.

Lemma bytes_testbit_flat ls i :
  Forall (λ w, w < 2 ^ 64) ls → bytes_testbit (flat ls) i = limb_testbit ls i.
Proof.
  intros Hls; revert i; induction Hls as [|w ls Hw Hls IH]; intros i; [done|].
  unfold flat in *. rewrite fmap_cons, List.concat_cons.
  rewrite bytes_testbit_app, length_to_le_bytes.
  change (8 * N.of_nat 8) with 64. unfold limb_testbit. case_decide.
  - rewrite N.div_small, N.mod_small by done.
    rewrite bytes_testbit_le, from_to_le_bytes, N.mod_small by done. done.
  - rewrite IH. unfold limb_testbit.
    replace (N.to_nat (i / 64)) with (S (N.to_nat ((i - 64) / 64))) by divmod_lia.
    by replace ((i - 64) mod 64) with (i mod 64) by divmod_lia.
Qed.

Lemma bytes_testbit_take k bs i :
  bytes_testbit (take k bs) i =
  if decide (i < 8 * N.of_nat k) then bytes_testbit bs i else false.
Proof.
  unfold bytes_testbit. rewrite lookup_take.
  repeat case_decide; try done; divmod_lia.
Qed.

(** What the loop of [as_bytes] computes: the little-endian bytes of the limbs,
    cut to [nbytes].  The hypotheses on [nbytes] hold for [bytes_for] and rule
    out the underflow of [nbytes - written]. *)
Lemma as_bytes_loop_eq nbytes nlimbs idx ls out :
  (idx + length ls = nlimbs)%nat → length out = (8 * idx)%nat → ls ≠ [] →
  (8 * (nlimbs - 1) ≤ nbytes ≤ 8 * nlimbs)%nat →
  as_bytes_loop nbytes nlimbs idx ls out = take nbytes (out ++ flat ls).
Proof.
  revert idx out; induction ls as [|w ls IH]; intros idx out Hlen Hout Hne Hnb;
    [done|].
  cbn [as_bytes_loop]. unfold flat. rewrite fmap_cons, List.concat_cons.
  destruct ls as [|w' ls]; simpl in Hlen.
  - rewrite decide_True by lia. cbn [as_bytes_loop]. rewrite fmap_nil. simpl List.concat.
    rewrite app_nil_r, take_app, (take_ge out) by lia. done.
  - rewrite decide_False by lia.
    rewrite IH; [|simpl; lia| |done|done].
    + by rewrite <- app_assoc.
    + rewrite length_app, length_to_le_bytes. lia.
Qed.

Lemma bytes_for_bounds n :
  (8 * (limbs_for n - 1) ≤ bytes_for n ≤ 8 * limbs_for n)%nat.
Proof. unfold bytes_for, limbs_for, div_ceil, BITS_PER_LIMB. divmod_lia. Qed.

Lemma as_bytes_eq b : wf b → as_bytes b = take (bytes_for (bm_n b)) (flat (bits b)).
Proof.
  intros Hwf. unfold as_bytes. pose proof (bytes_for_bounds (bm_n b)).
  destruct (bits b) as [|w ls] eqn:E; [by destruct (bytes_for _)|].
  rewrite as_bytes_loop_eq; [done|done|done|done|].
  rewrite <- E, (wf_length _ Hwf). done.
Qed.

Lemma bytes_testbit_as_bytes b i : wf b → bytes_testbit (as_bytes b) i = get b i.
Proof.
  intros Hwf. rewrite as_bytes_eq, bytes_testbit_take, bytes_testbit_flat, get_wf
    by (done || apply Hwf).
  case_decide as Hi; [done|]. symmetry. apply (wf_canonical _ Hwf).
  unfold bytes_for, div_ceil in Hi. divmod_lia.
Qed.

Lemma length_as_bytes b : wf b → length (as_bytes b) = bytes_for (bm_n b).
Proof.
  intros Hwf. rewrite as_bytes_eq, length_take, length_flat, (wf_length _ Hwf)
    by done.
  pose proof (bytes_for_bounds (bm_n b)). lia.
Qed.

Lemma from_le_bytes_pad c k :
  from_le_bytes (c ++ replicate k Byte.x00) = from_le_bytes c.
Proof.
  induction c as [|x c IH]; simpl; [|by rewrite IH].
  induction k as [|k IH]; simpl; [done|]. rewrite IH. done.
Qed.

Lemma length_write_limbs i cs out : length (write_limbs i cs out) = length out.
Proof.
  revert i out; induction cs; intros; simpl; [done|].
  by rewrite IHcs, length_insert.
Qed.

Lemma lookup_write_limbs i cs out k :
  (i + length cs ≤ length out)%nat →
  write_limbs i cs out !! k =
  if decide (i ≤ k)%nat
  then match cs !! (k - i)%nat with
       | Some c => Some (from_le_bytes c)
       | None => out !! k
       end
  else out !! k.
Proof.
  revert i out; induction cs as [|c cs IH]; intros i out Hlen.
  { simpl. by case_decide. }
  cbn [write_limbs]. simpl in Hlen.
  rewrite IH by (rewrite length_insert; lia). rewrite from_le_bytes_pad.
  destruct (decide (i = k)) as [->|Hne].
  - rewrite decide_False, decide_True, Nat.sub_diag by lia.
    apply list_lookup_insert_eq. lia.
  - rewrite list_lookup_insert_ne by done.
    repeat case_decide; try lia; try done.
    replace (k - i)%nat with (S (k - S i)) by lia. done.
Qed.

Lemma bytes_testbit_drop k bs i :
  bytes_testbit (drop k bs) i = bytes_testbit bs (i + N.of_nat k * 8).
Proof.
  unfold bytes_testbit. rewrite lookup_drop, N.div_add, N.Div0.mod_add by done.
  replace (N.to_nat (i / 8 + N.of_nat k)) with (k + N.to_nat (i / 8))%nat by lia.
  done.
Qed.

Lemma bytes_testbit_ge bs i :
  8 * N.of_nat (length bs) ≤ i → bytes_testbit bs i = false.
Proof.
  intros Hi. unfold bytes_testbit.
  assert (bs !! N.to_nat (i / 8) = None) as ->; [|done].
  apply lookup_ge_None. divmod_lia.
Qed.

Lemma lookup_from_bytes_limbs bs n k :
  length bs = bytes_for n →
  write_limbs 0 (chunks 8 bs) (replicate (limbs_for n) 0) !! k =
  if decide (k * 8 < length bs)%nat
  then Some (from_le_bytes (take 8 (drop (k * 8) bs)))
  else replicate (limbs_for n) 0 !! k.
Proof.
  intros Hlen. pose proof (bytes_for_bounds n) as Hb.
  rewrite lookup_write_limbs.
  - rewrite decide_True, Nat.sub_0_r, lookup_chunks by lia. by case_decide.
  - rewrite length_replicate. change (0 + ?x)%nat with x.
    apply length_chunks_le; lia.
Qed.

(** The limbs [from_bytes] builds before masking hold the bits of the bytes. *)
Lemma limb_testbit_write bs n i :
  length bs = bytes_for n →
  limb_testbit (write_limbs 0 (chunks 8 bs) (replicate (limbs_for n) 0)) i =
  bytes_testbit bs i.
Proof.
  intros Hlen. unfold limb_testbit. rewrite lookup_from_bytes_limbs by done.
  case_decide as Hi.
  - rewrite <- bytes_testbit_le, bytes_testbit_take, bytes_testbit_drop.
    rewrite decide_True by divmod_lia. f_equal. divmod_lia.
  - rewrite bytes_testbit_ge by divmod_lia.
    destruct (replicate _ _ !! _) eqn:E; [|done].
    apply lookup_replicate in E as [-> _]. apply N.bits_0.
Qed.

Lemma from_le_bytes_limb c : (length c ≤ 8)%nat → from_le_bytes c < 2 ^ 64.
Proof.
  intros Hc. eapply N.lt_le_trans; [apply from_le_bytes_bound|].
  change (2 ^ 64) with (256 ^ 8). apply N.pow_le_mono_r; lia.
Qed.

Lemma write_limbs_bound bs n :
  length bs = bytes_for n →
  Forall (λ w, w < 2 ^ 64) (write_limbs 0 (chunks 8 bs) (replicate (limbs_for n) 0)).
Proof.
  intros Hlen. apply Forall_lookup_2. intros k w.
  rewrite lookup_from_bytes_limbs by done. case_decide.
  - intros [= <-]. apply from_le_bytes_limb. rewrite length_take. lia.
  - intros [-> _]%lookup_replicate. done.
Qed.

(** The mask on the last limb clears exactly the bits at and above [n]. *)
Lemma limb_testbit_masked out n i :
  length out = limbs_for n →
  limb_testbit (if decide (0 < n mod 64)
                then alter (λ w, N.land w (N.shiftl 1 (n mod 64) - 1))
                           (length out - 1)%nat out
                else out) i =
  bool_decide (i < n) && limb_testbit out i.
Proof.
  intros Hout. destruct (decide (i < n)) as [Hi|Hi].
  - rewrite bool_decide_true by done.
    destruct (decide (0 < n mod 64)) as [Hu|]; [|done].
    rewrite limb_testbit_alter. unfold limb_testbit.
    destruct (out !! N.to_nat (i / 64)); [|done]. case_decide as Hl; [|done].
    rewrite N.land_spec, testbit_mask, bool_decide_true, andb_true_r; [done|].
    rewrite Hout in Hl. unfold limbs_for, div_ceil, BITS_PER_LIMB in Hl. divmod_lia.
  - rewrite bool_decide_false by done. simpl.
    destruct (out !! N.to_nat (i / 64)) as [w|] eqn:Hw.
    + apply lookup_lt_Some in Hw as Hlt. rewrite Hout in Hlt.
      unfold limbs_for, div_ceil, BITS_PER_LIMB in *.
      rewrite decide_True by divmod_lia. rewrite limb_testbit_alter, Hw.
      rewrite decide_True by divmod_lia.
      rewrite N.land_spec, testbit_mask, bool_decide_false by divmod_lia.
      by rewrite andb_false_r.
    + destruct (decide (0 < n mod 64)); [rewrite limb_testbit_alter|unfold limb_testbit];
        by rewrite Hw.
Qed.

Lemma from_bytes_Ok bs n b :
  from_bytes bs n = Ok b →
  length bs = bytes_for n ∧ wf b ∧ bm_n b = n ∧
  ∀ i, get b i = bool_decide (i < n) && bytes_testbit bs i.
Proof.
  unfold from_bytes, BITS_PER_LIMB. case_decide as Hlen; [|done].
  set (out := write_limbs _ _ _).
  assert (length out = limbs_for n) as Hout.
  { unfold out. by rewrite length_write_limbs, length_replicate. }
  assert (Forall (λ w, w < 2 ^ 64) out) as Hbd by by apply write_limbs_bound.
  pose proof (λ i, limb_testbit_masked out n i Hout) as Hbit.
  set (out' := if decide (0 < n mod 64) then _ else _) in *. intros [= <-].
  assert (wf (mkBitMap out' n)) as Hwf.
  { split; simpl.
    - unfold out'. destruct (decide (0 < _)); [rewrite length_alter|]; done.
    - unfold out'. destruct (decide (0 < _)); [|done].
      apply Forall_alter; [done|]. intros w _ Hw. by apply land_limb.
    - intros i Hi. rewrite Hbit, bool_decide_false by lia. done. }
  split; [done|]. split; [done|]. split; [done|].
  intros i. rewrite get_wf by done. simpl. rewrite Hbit. f_equal.
  by apply limb_testbit_write.
Qed.

(** ** Properties *)

(** The set of shard indices a bitmap stands for. *)
Definition to_set (b : BitMap) : gset N :=
  list_to_set (filter (λ i, get b i = true) (range (bm_n b))).

Lemma elem_of_to_set b i : wf b → i ∈ to_set b ↔ get b i = true.
Proof.
  intros Hwf. unfold to_set.
  rewrite elem_of_list_to_set, list_elem_of_filter, elem_of_range.
  split; [tauto|]. intros Hg. split; [done|]. unfold get in Hg. by case_decide; [|lia].
Qed.

Lemma size_to_set b : wf b → N.of_nat (size (to_set b)) = count_ones b.
Proof.
  intros Hwf. rewrite count_ones_eq by done. f_equal. unfold to_set.
  rewrite size_list_to_set by apply NoDup_filter, NoDup_range.
  unfold range. generalize (N.to_nat (bm_n b)) as k. induction k as [|k IH]; [done|].
  rewrite seq_S, fmap_app, filter_app, length_app, IH. simpl.
  destruct (get b (N.of_nat k)) eqn:E;
    [rewrite filter_cons_True by done|rewrite filter_cons_False by congruence]; simpl; lia.
Qed.

(** The 16-bit havelists holding shard [i] only, for the examples. *)
Definition single (i : N) : BitMap :=
  match set (with_capacity 16) i with Ok b => b | Err _ => with_capacity 16 end.

Lemma single_wf i : wf (single i).
Proof.
  unfold single. destruct (set _ i) eqn:E; [|apply with_capacity_wf].
  apply set_Ok in E as [? _]; [done|apply with_capacity_wf].
Qed.

(** C36: bitmaps implement finite sets of shard indices: [with_capacity] is the
    empty set, [get] membership, [count_ones] the size, [set] adds one index
    below [n] and fails with [OutOfRange] exactly from [n] on, and [or_merge] is
    the union and fails exactly on a size mismatch; the results are well-formed
    again. *)
Theorem bitmap_refines_sets b o idx :
  wf b → wf o →
  wf (with_capacity (bm_n b)) ∧ to_set (with_capacity (bm_n b)) = ∅ ∧
  (∀ i, get b i = bool_decide (i ∈ to_set b)) ∧
  (∀ i, i ∈ to_set b → i < bm_n b) ∧
  count_ones b = N.of_nat (size (to_set b)) ∧
  match set b idx with
  | Ok b' => idx < bm_n b ∧ wf b' ∧ bm_n b' = bm_n b ∧ to_set b' = {[idx]} ∪ to_set b
  | Err e => bm_n b ≤ idx ∧ e = OutOfRange idx (bm_n b)
  end ∧
  match or_merge b o with
  | Ok b' => bm_n b = bm_n o ∧ wf b' ∧ bm_n b' = bm_n b ∧ to_set b' = to_set b ∪ to_set o
  | Err e => bm_n b ≠ bm_n o ∧ e = SizeMismatch (bm_n b) (bm_n o)
  end.
Proof.
  intros Hb Ho. split; [apply with_capacity_wf|]. split; [|split; [|split; [|split; [|split]]]].
  - apply elem_of_equiv_empty_L. intros i.
    rewrite elem_of_to_set by apply with_capacity_wf. by rewrite get_with_capacity.
  - intros i. apply eq_bool_prop_intro. rewrite bool_decide_spec, elem_of_to_set by done.
    by rewrite Is_true_true.
  - intros i. rewrite elem_of_to_set by done. unfold get. case_decide; [done|lia].
  - by rewrite size_to_set.
  - destruct (set b idx) as [b'|e] eqn:E.
    + apply set_Ok in E as (Hwf & Hn & Hi & Hg); [|done]. split_and!; [done..|].
      apply set_eq. intros i. rewrite elem_of_union, elem_of_singleton, !elem_of_to_set by done.
      rewrite Hg, orb_true_iff, bool_decide_eq_true. done.
    + unfold set in E. destruct (decide (bm_n b ≤ idx)); [|by destruct (limb_bit idx)].
      by simplify_eq.
  - destruct (or_merge b o) as [b'|e] eqn:E.
    + pose proof E as E'. apply or_merge_Ok in E as (Hwf & Hn & Hg); [|done..].
      unfold or_merge in E'. case_decide as Hne; [|done].
      split_and!; [done..|].
      apply set_eq. intros i. rewrite elem_of_union, !elem_of_to_set by done.
      by rewrite Hg, orb_true_iff.
    + unfold or_merge in E. case_decide; by simplify_eq.
Qed.

Lemma bitmap_refines_sets_witness :
  let b := single 3 in let o := single 5 in
  wf (with_capacity (bm_n b)) ∧ to_set (with_capacity (bm_n b)) = ∅ ∧
  (∀ i, get b i = bool_decide (i ∈ to_set b)) ∧
  (∀ i, i ∈ to_set b → i < bm_n b) ∧
  count_ones b = N.of_nat (size (to_set b)) ∧
  match set b 15 with
  | Ok b' => 15 < bm_n b ∧ wf b' ∧ bm_n b' = bm_n b ∧ to_set b' = {[15]} ∪ to_set b
  | Err e => bm_n b ≤ 15 ∧ e = OutOfRange 15 (bm_n b)
  end ∧
  match or_merge b o with
  | Ok b' => bm_n b = bm_n o ∧ wf b' ∧ bm_n b' = bm_n b ∧ to_set b' = to_set b ∪ to_set o
  | Err e => bm_n b ≠ bm_n o ∧ e = SizeMismatch (bm_n b) (bm_n o)
  end.
Proof. apply (bitmap_refines_sets (single 3) (single 5) 15); apply single_wf. Defined.

(** C37: a well-formed bitmap survives serialization: parsing the bytes
    [as_bytes] wrote, with the same [n], gives back the bitmap, and
    the byte string has exactly [ceil(n / 8)] bytes. *)
Theorem as_bytes_roundtrip b :
  wf b →
  length (as_bytes b) = bytes_for (bm_n b) ∧
  from_bytes (as_bytes b) (bm_n b) = Ok b.
Proof.
  intros Hwf. split; [by apply length_as_bytes|].
  destruct (from_bytes (as_bytes b) (bm_n b)) as [b'|e] eqn:E.
  - apply from_bytes_Ok in E as (_ & Hwf' & Hn & Hget). f_equal.
    apply wf_ext; [done..|]. intros i.
    rewrite Hget, bytes_testbit_as_bytes, get_eq by done.
    by case_bool_decide.
  - unfold from_bytes in E. by rewrite decide_True in E by by apply length_as_bytes.
Qed.

Lemma as_bytes_roundtrip_witness :
  length (as_bytes (single 9)) = bytes_for (bm_n (single 9)) ∧
  from_bytes (as_bytes (single 9)) (bm_n (single 9)) = Ok (single 9).
Proof. apply (as_bytes_roundtrip (single 9)), single_wf. Defined.

(** [from_bytes] accepts exactly the byte strings of length [ceil(n / 8)];
    the result is well-formed and bit [i] is bit [i mod 8] of byte [i / 8],
    with the bits a malformed sender sets at or above [n] cleared. *)
Theorem from_bytes_spec bs n :
  match from_bytes bs n with
  | Ok b => length bs = bytes_for n ∧ wf b ∧ bm_n b = n ∧
            ∀ i, get b i = bool_decide (i < n) && bytes_testbit bs i
  | Err e => length bs ≠ bytes_for n ∧
             e = InvalidByteLength (length bs) (bytes_for n)
  end.
Proof.
  destruct (from_bytes bs n) as [b|e] eqn:E.
  - by apply from_bytes_Ok.
  - unfold from_bytes in E. case_decide; by simplify_eq.
Qed.

End BitMap.
