(* ===== verification/Wire.v ===== *)
(** The wire codec of [ethp2p-broadcast]: stream selector ([selector.rs]),
    length-prefixed frames ([wire.rs]) and the CHUNK stream layout
    ([chunk.rs]).

    The [AsyncRead]/[AsyncWrite] traits become the classes below; an [async]
    function is the state-passing function that runs it to completion.  The
    protobuf bodies are produced by code that prost generates at build time, so
    the message codec is the parameter [Message], with the laws the codec
    documents in [MessageLaws]. *)
From stdpp Require Import base countable list option strings.
From Stdlib Require Import NArith Lia.
From S2P Require Import Prelude.

(** * Streams and messages *)

(** [io::ErrorKind], as far as the codec produces or forwards it. *)
Inductive ErrorKind :=
  | UnexpectedEof
  | InvalidData
  | InvalidInput
  | OtherKind (code : N).

#[export] Instance ErrorKind_eq_dec : EqDecision ErrorKind.
Proof. solve_decision. Defined.

(** [AsyncReadExt::read_exact] and [AsyncWriteExt::write_all]. *)
Class AsyncRead (R : Type) := read_exact : nat → SM R ErrorKind bytes.
Class AsyncWrite (W : Type) := write_all : bytes → SM W ErrorKind unit.

(** A byte buffer read from its front until it ends: a missing byte is
    [UnexpectedEof], and what was there has been consumed. *)
#[export] Instance AsyncRead_bytes : AsyncRead bytes := λ n r,
  if decide (n ≤ length r) then (Ok (take n r), drop n r)
  else (Err UnexpectedEof, []).

(** A [Vec<u8>] written at its end. *)
#[export] Instance AsyncWrite_bytes : AsyncWrite bytes := λ bs w,
  (Ok (), w ++ bs).

(** [prost::Message], and the text of the error of bytes that do not decode. *)
Class Message (M : Type) := {
  encoded_len : M → nat;
  encode_to_vec : M → bytes;
  decode_msg : bytes → option M;
  decode_error_text : bytes → string
}.

(** Documented behaviour of prost: [encoded_len] is the length of the encoding
    and decoding an encoding gives back the message. *)
Class MessageLaws (M : Type) `{Message M} : Prop := {
  encoded_len_spec : ∀ m, encoded_len m = length (encode_to_vec m);
  decode_msg_encode : ∀ m, decode_msg (encode_to_vec m) = Some m
}.

(** * [selector.rs] *)

(** The [Protocol] enum of [protocol.proto] and its discriminants. *)
Inductive Protocol := Unspecified | Bcast | Sess | Chunk.

#[export] Instance Protocol_eq_dec : EqDecision Protocol.
Proof. solve_decision. Defined.

Definition protocol_discriminant (p : Protocol) : N :=
  match p with Unspecified => 0 | Bcast => 1 | Sess => 2 | Chunk => 3 end.

Definition protocol_try_from (n : N) : option Protocol :=
  match n with
  | 0%N => Some Unspecified
  | 1%N => Some Bcast
  | 2%N => Some Sess
  | 3%N => Some Chunk
  | _ => None
  end.

Definition open_stream `{AsyncWrite W} (protocol : Protocol) : SM W ErrorKind unit :=
  write_all [byte_of_N (protocol_discriminant protocol)].

Definition read_selector `{AsyncRead R} : SM R ErrorKind Protocol := λ r,
  match read_exact 1 r with
  | (Err e, r) => (Err e, r)
  | (Ok bs, r) =>
      match bs with
      | [b] =>
          match protocol_try_from (Byte.to_N b) with
          | None => (Err InvalidData, r)
          | Some protocol =>
              if decide (protocol = Unspecified) then (Err InvalidData, r)
              else (Ok protocol, r)
          end
      | _ => (Err UnexpectedEof, r)
      end
  end.

(** * [wire.rs] *)

Definition MAX_FRAME_BYTES : N := 1024 * 1024.

Definition write_framed `{AsyncWrite W, Message M} (message : M)
    : SM W ErrorKind unit := λ w,
  let len := encoded_len message in
  if decide (MAX_FRAME_BYTES < N.of_nat len)%N then (Err InvalidInput, w)
  else if decide (2 ^ 32 ≤ N.of_nat len)%N then (Err InvalidInput, w)
  else write_all (to_be_bytes 4 (N.of_nat len) ++ encode_to_vec message) w.

Definition read_framed `{AsyncRead R, Message M} : SM R ErrorKind M := λ r,
  match read_exact 4 r with
  | (Err e, r) => (Err e, r)
  | (Ok len_buf, r) =>
      let len := from_be_bytes len_buf in
      if decide (MAX_FRAME_BYTES < len)%N then (Err InvalidData, r)
      else
        match read_exact (N.to_nat len) r with
        | (Err e, r) => (Err e, r)
        | (Ok buf, r) =>
            match decode_msg buf with
            | Some m => (Ok m, r)
            | None => (Err InvalidData, r)
            end
        end
  end.

(** * [chunk.rs] *)

(** [Chunk.Header] of [broadcast.proto]. *)
Record Header := mkHeader {
  h_channel : string;
  h_message_id : string;
  h_chunk_id : bytes;
  h_data_length : N
}.

#[export] Instance Header_eq_dec : EqDecision Header.
Proof. solve_decision. Defined.

Definition MAX_CHUNK_DATA_BYTES : N := 1024 * 1024.

Definition write_chunk `{AsyncWrite W, Message Header} (header : Header)
    (payload : bytes) : SM W ErrorKind unit := λ w,
  if decide (MAX_CHUNK_DATA_BYTES < h_data_length header)%N
  then (Err InvalidInput, w)
  else if decide (length payload ≠ N.to_nat (h_data_length header))
  then (Err InvalidInput, w)
  else (open_stream Chunk ≫= λ _, write_framed header ≫= λ _, write_all payload) w.

(** [ChunkPayloadReader]: the inner reader and the bytes still expected. *)
Record ChunkPayloadReader (R : Type) := mkPayloadReader {
  reader : R;
  remaining : N
}.
Arguments mkPayloadReader {R} reader remaining.
Arguments reader {R} _.
Arguments remaining {R} _.

Definition read_chunk_stream `{AsyncRead R, Message Header} (r : R)
    : result ErrorKind (Header * ChunkPayloadReader R) :=
  match read_framed r with
  | (Err e, _) => Err e
  | (Ok header, r) =>
      if decide (MAX_CHUNK_DATA_BYTES < h_data_length header)%N
      then Err InvalidData
      else Ok (header, mkPayloadReader r (h_data_length header))
  end.

(** [Poll<io::Result<()>>] together with the bytes put into the buffer. *)
Inductive Poll :=
  | Pending
  | Ready (r : result ErrorKind bytes).

(** [AsyncRead::poll_read] with a buffer of the given capacity; it fills at
    most the capacity, and filling nothing means end of stream. *)
Class PollRead (R : Type) := poll_read : nat → R → Poll * R.

(** [<ChunkPayloadReader as AsyncRead>::poll_read]. *)
Definition payload_poll_read `{PollRead R} (cap : nat) (r : ChunkPayloadReader R)
    : Poll * ChunkPayloadReader R :=
  if decide (remaining r = 0%N) then (Ready (Ok []), r)
  else
    let want := N.to_nat (N.min (remaining r) (N.of_nat cap)) in
    match poll_read want (reader r) with
    | (Ready (Ok bs), inner) =>
        let n := length bs in
        if decide (n = 0)
        then (Ready (Err UnexpectedEof), mkPayloadReader inner (remaining r))
        else (Ready (Ok bs), mkPayloadReader inner (remaining r - N.of_nat n)%N)
    | (other, inner) => (other, mkPayloadReader inner (remaining r))
    end.

(** A stream as a script of what its successive polls find: not ready yet, or a
    non-empty fragment.  The end of the script is the end of the stream. *)
Inductive PollEvent :=
  | NotReady
  | Fragment (b : byte) (bs : bytes).

#[export] Instance PollEvent_eq_dec : EqDecision PollEvent.
Proof. solve_decision. Defined.

#[export] Instance PollRead_script : PollRead (list PollEvent) := λ want s,
  match s with
  | [] => (Ready (Ok []), [])
  | NotReady :: s => (Pending, s)
  | Fragment b bs :: s =>
      (Ready (Ok (take want (b :: bs))),
       match drop want (b :: bs) with
       | [] => s
       | b' :: bs' => Fragment b' bs' :: s
       end)
  end.

(** The bytes a script carries. *)
Definition script_bytes (s : list PollEvent) : bytes :=
  concat ((λ e, match e with NotReady => [] | Fragment b bs => b :: bs end) <$> s).

(** Polling with buffers of the given capacities until the list is used up or a
    poll fails: the bytes delivered, the error if any, and the reader left. *)
Fixpoint payload_read `{PollRead R} (caps : list nat) (r : ChunkPayloadReader R)
    : bytes * option ErrorKind * ChunkPayloadReader R :=
  match caps with
  | [] => ([], None, r)
  | cap :: caps =>
      match payload_poll_read cap r with
      | (Pending, r) => payload_read caps r
      | (Ready (Ok bs), r) =>
          let '(out, e, r) := payload_read caps r in (bs ++ out, e, r)
      | (Ready (Err e), r) => ([], Some e, r)
      end
  end.

(** * A concrete codec

    Any countable message type has a codec that satisfies the laws; the
    examples of the development run on it. *)
#[export] Instance byte_countable : Countable byte.
Proof.
  apply (inj_countable Byte.to_N Byte.of_N). intros b. apply Byte.of_to_N.
Defined.

#[export] Instance Header_countable : Countable Header.
Proof.
  apply (inj_countable'
    (λ h, (h_channel h, h_message_id h, h_chunk_id h, h_data_length h))
    (λ '(c, m, i, n), mkHeader c m i n)). by intros [].
Defined.

Definition countable_encode `{Countable M} (m : M) : bytes :=
  let n := Npos (encode m) in to_le_bytes (N.to_nat (N.size n / 8 + 1)) n.

Definition Message_countable (M : Type) `{Countable M} : Message M := {|
  encoded_len m := length (countable_encode m);
  encode_to_vec := countable_encode;
  decode_msg bs :=
    match from_le_bytes bs with N0 => None | Npos p => decode p end;
  decode_error_text _ := "not a code"
|}.

Lemma MessageLaws_countable (M : Type) `{Countable M} :
  @MessageLaws M (Message_countable M).
Proof.
  split; [done|]. intros m. simpl. unfold countable_encode.
  rewrite from_to_le_bytes, N.mod_small; [apply decode_encode|].
  rewrite N2Nat.id. pose proof (N.size_gt (Npos (encode m))) as Hs.
  eapply N.lt_le_trans; [exact Hs|]. change 256%N with (2 ^ 8)%N.
  rewrite <- N.pow_mul_r. apply N.pow_le_mono_r; [done|].
  pose proof (N.div_mod (N.size (Npos (encode m))) 8 ltac:(done)).
  pose proof (N.mod_lt (N.size (Npos (encode m))) 8 ltac:(done)). lia.
Qed.

(** * Lemmas *)

Lemma read_exact_app n (l r : bytes) :
  length l = n → read_exact n (l ++ r) = (Ok l, r).
Proof.
  intros <-. unfold read_exact, AsyncRead_bytes.
  rewrite decide_True by (rewrite length_app; lia).
  by rewrite take_app_length, drop_app_length.
Qed.

Lemma read_exact_short n (r : bytes) :
  length r < n → read_exact n r = (Err UnexpectedEof, []).
Proof. intros. unfold read_exact, AsyncRead_bytes. by rewrite decide_False by lia. Qed.

Section framing.
Context `{Message M, !MessageLaws M}.

(** The bytes of a frame. *)
Definition frame (m : M) : bytes :=
  to_be_bytes 4 (N.of_nat (encoded_len m)) ++ encode_to_vec m.

Lemma length_frame m : length (frame m) = 4 + encoded_len m.
Proof.
  unfold frame. by rewrite length_app, length_to_be_bytes, encoded_len_spec.
Qed.

Lemma write_framed_small m (w : bytes) :
  (N.of_nat (encoded_len m) ≤ MAX_FRAME_BYTES)%N →
  write_framed m w = (Ok (), w ++ frame m).
Proof.
  unfold write_framed, MAX_FRAME_BYTES. intros.
  rewrite !decide_False by lia. done.
Qed.

Lemma write_framed_large m (w : bytes) :
  (MAX_FRAME_BYTES < N.of_nat (encoded_len m))%N →
  write_framed m w = (Err InvalidInput, w).
Proof. unfold write_framed. intros. by rewrite decide_True. Qed.

Lemma from_be_frame_len m :
  (N.of_nat (encoded_len m) ≤ MAX_FRAME_BYTES)%N →
  from_be_bytes (to_be_bytes 4 (N.of_nat (encoded_len m))) = N.of_nat (encoded_len m).
Proof.
  unfold MAX_FRAME_BYTES. intros. apply from_to_be_bytes.
  change (256 ^ N.of_nat 4)%N with (2 ^ 32)%N. lia.
Qed.

Lemma read_framed_frame m rest :
  (N.of_nat (encoded_len m) ≤ MAX_FRAME_BYTES)%N →
  read_framed (frame m ++ rest) = (Ok m, rest).
Proof.
  intros Hm. unfold read_framed, frame. rewrite <- app_assoc.
  rewrite read_exact_app by apply length_to_be_bytes.
  rewrite from_be_frame_len by done. cbv zeta. rewrite decide_False by lia.
  rewrite Nat2N.id, read_exact_app by (by rewrite encoded_len_spec).
  by rewrite decode_msg_encode.
Qed.
End framing.

(** ** The payload reader *)

Lemma payload_poll_read_cases cap (s : list PollEvent) rem :
  0 < cap → (0 < rem)%N →
  match payload_poll_read cap (mkPayloadReader s rem) with
  | (Pending, r) => remaining r = rem ∧ s = NotReady :: reader r
  | (Ready (Ok bs), r) =>
      0 < length bs ∧ (N.of_nat (length bs) ≤ rem)%N ∧
      remaining r = (rem - N.of_nat (length bs))%N ∧
      script_bytes s = bs ++ script_bytes (reader r) ∧
      length (filter (.= NotReady) (reader r)) = length (filter (.= NotReady) s)
  | (Ready (Err e), r) => s = [] ∧ e = UnexpectedEof ∧ r = mkPayloadReader [] rem
  end.
Proof.
  intros Hcap Hrem. unfold payload_poll_read. simpl.
  rewrite decide_False by lia.
  assert (0 < N.to_nat (N.min rem (N.of_nat cap))) as Hw by lia.
  assert (N.to_nat (N.min rem (N.of_nat cap)) ≤ N.to_nat rem) as Hw' by lia.
  revert Hw Hw'. generalize (N.to_nat (N.min rem (N.of_nat cap))) as want. intros want Hw Hw'.
  destruct s as [|[|b bs] s]; [done..|]. unfold poll_read, PollRead_script.
  pose proof (length_take (b :: bs) want) as Hl.
  assert (0 < length (b :: bs)) as Hb by (simpl; lia).
  pose proof (take_drop want (b :: bs)) as Htd.
  rewrite decide_False by lia. simpl remaining. simpl reader.
  split; [lia|]. split; [lia|]. split; [done|].
  unfold script_bytes. rewrite fmap_cons, List.concat_cons.
  destruct (drop want (b :: bs)) as [|b' bs'] eqn:Ed.
  - rewrite app_nil_r in Htd. rewrite Htd. done.
  - rewrite fmap_cons, List.concat_cons, app_assoc, Htd. done.
Qed.

(** What is left to do: the unready polls of the script and the bytes owed. *)
Definition script_work (s : list PollEvent) (rem : N) : nat :=
  length (filter (.= NotReady) s) + N.to_nat rem.

Lemma payload_read_done caps (s : list PollEvent) :
  payload_read caps (mkPayloadReader s 0) = ([], None, mkPayloadReader s 0).
Proof. induction caps as [|cap caps IH]; simpl; [done|]. by rewrite IH. Qed.

Lemma payload_read_complete caps (s : list PollEvent) rem :
  Forall (λ c, 0 < c) caps → script_work s rem < length caps →
  ∃ out e r, payload_read caps (mkPayloadReader s rem) = (out, e, r) ∧
    out = take (N.to_nat rem) (script_bytes s) ∧
    remaining r = (rem - N.of_nat (length out))%N ∧
    script_bytes s = out ++ script_bytes (reader r) ∧
    e = if decide (N.to_nat rem ≤ length (script_bytes s)) then None
        else Some UnexpectedEof.
Proof.
  intros Hcaps. revert s rem.
  induction Hcaps as [|cap caps Hcap Hcaps IH]; intros s rem Hw; [simpl in Hw; lia|].
  destruct (decide (rem = 0)%N) as [->|Hrem].
  { rewrite payload_read_done. eexists [], None, _. split; [done|].
    by split_and!. }
  pose proof (payload_poll_read_cases cap s rem Hcap ltac:(lia)) as Hp.
  cbn [payload_read].
  destruct (payload_poll_read cap (mkPayloadReader s rem)) as [[|[bs|e]] [s' rem']];
    cbn [reader remaining] in Hp.
  - destruct Hp as [-> ->]. destruct (IH s' rem) as (out & e & r & -> & Hr).
    { unfold script_work in *. simpl in Hw. lia. }
    exists out, e, r. split; [done|]. exact Hr.
  - destruct Hp as (Hb & Hb' & -> & Hs & Hf).
    destruct (IH s' (rem - N.of_nat (length bs))%N) as (out & e & r & -> & Ho & Hr & Hs1 & He).
    { unfold script_work in *. rewrite Hf. simpl in Hw. lia. }
    exists (bs ++ out), e, r. split; [done|].
    replace (N.to_nat (rem - N.of_nat (length bs)))
      with (N.to_nat rem - length bs) in * by lia.
    rewrite Hs, take_app, length_app, (take_ge bs) by lia.
    split; [by rewrite Ho|]. split; [rewrite Hr; lia|].
    split; [rewrite <- app_assoc; congruence|].
    rewrite length_app, He. do 2 case_decide; done || lia.
  - destruct Hp as (-> & -> & [= -> ->]). eexists [], _, _. split; [done|]. simpl.
    destruct (N.to_nat rem) eqn:?; [lia|]. simpl. split_and!; [done|lia|done|done].
Qed.

(** * Properties *)

Lemma read_selector_cons b r :
  read_selector (b :: r) =
  (match protocol_try_from (Byte.to_N b) with
   | None | Some Unspecified => Err InvalidData
   | Some p => Ok p
   end, r).
Proof. by destruct b. Qed.

(** a stream opens with one byte: [read_selector] accepts exactly what
    [open_stream] writes for one of the three specified protocols, consumes
    that byte only, and refuses every other byte. *)
Theorem read_selector_spec (r r' : bytes) (p : Protocol) :
  read_selector r = (Ok p, r') ↔
  p ≠ Unspecified ∧ r = snd (open_stream p []) ++ r'.
Proof.
  split.
  - destruct r as [|b r]; [done|]. rewrite read_selector_cons. intros [= E ->].
    destruct b, p; simplify_eq/=; done.
  - intros [Hp ->]. destruct p; done.
Qed.

(** what [write_framed] accepts, [read_framed] gives back, leaving the
    bytes behind the frame in the stream; a message longer than
    [MAX_FRAME_BYTES] is refused before anything is written. *)
Theorem framed_roundtrip `{Message M, !MessageLaws M} (m : M) (w : bytes) :
  match write_framed m w with
  | (Ok _, w') => ∃ fr, w' = w ++ fr ∧ length fr = 4 + encoded_len m ∧
                  ∀ rest : bytes, read_framed (fr ++ rest) = (Ok m, rest)
  | (Err e, w') => (MAX_FRAME_BYTES < N.of_nat (encoded_len m))%N ∧
                   e = InvalidInput ∧ w' = w
  end.
Proof.
  destruct (decide (MAX_FRAME_BYTES < N.of_nat (encoded_len m))%N).
  - by rewrite write_framed_large.
  - rewrite write_framed_small by lia. exists (frame m).
    split; [done|]. split; [apply length_frame|]. intros rest.
    apply read_framed_frame. lia.
Qed.

Lemma framed_roundtrip_witness :
  match @write_framed _ _ _ (Message_countable N) 77%N [] with
  | (Ok _, w') => ∃ fr, w' = [] ++ fr ∧
      length fr = 4 + @encoded_len _ (Message_countable N) 77%N ∧
      ∀ rest : bytes, @read_framed _ _ _ (Message_countable N) (fr ++ rest) = (Ok 77%N, rest)
  | (Err e, w') =>
      (MAX_FRAME_BYTES < N.of_nat (@encoded_len _ (Message_countable N) 77%N))%N ∧
      e = InvalidInput ∧ w' = []
  end.
Proof.
  apply (@framed_roundtrip N (Message_countable N) (MessageLaws_countable N) 77%N []).
Defined.

(** [read_framed] on any stream whatever: it fails with [UnexpectedEof]
    exactly when the stream ends inside the prefix or inside the declared body,
    with [InvalidData] when the declared length exceeds [MAX_FRAME_BYTES], after
    the prefix and before any of the body, or when the body does not decode; and
    otherwise it returns the message the declared body decodes to and leaves
    what follows the frame. *)
Theorem read_framed_spec `{Message M} (r : bytes) :
  let len := N.to_nat (from_be_bytes (take 4 r)) in
  match read_framed r : result ErrorKind M * bytes with
  | (Ok m, r') =>
      4 + len <= length r ∧ (N.of_nat len <= MAX_FRAME_BYTES)%N ∧
      decode_msg (take len (drop 4 r)) = Some m ∧ r' = drop (4 + len) r
  | (Err UnexpectedEof, _) =>
      length r < 4 ∨ (N.of_nat len <= MAX_FRAME_BYTES)%N ∧ length r < 4 + len
  | (Err InvalidData, r') =>
      4 <= length r ∧
      ((MAX_FRAME_BYTES < N.of_nat len)%N ∧ r' = drop 4 r ∨
       (N.of_nat len <= MAX_FRAME_BYTES)%N ∧ 4 + len <= length r ∧
       decode_msg (take len (drop 4 r)) = None (A:=M) ∧ r' = drop (4 + len) r)
  | (Err _, _) => False
  end.
Proof.
  cbv zeta. unfold read_framed, read_exact, AsyncRead_bytes. case_decide as H4; [|by left; lia].
  cbv zeta. rewrite N2Nat.id. case_decide as Hmax; [split; [done|by left]|].
  rewrite length_drop. case_decide as Hlen; [|right; lia].
  rewrite drop_drop. destruct (decode_msg _) as [m|] eqn:Hd; split_and!; try lia; try done.
  right. split_and!; try lia; done.
Qed.

(** a CHUNK stream round-trips: when [write_chunk] succeeds the payload
    has the declared length, and reading the selector and the header back
    yields the same header and a payload reader placed on the payload with
    exactly its bytes outstanding.  A refused chunk leaves no payload on the
    stream: nothing at all, or the selector byte alone. *)
Theorem write_chunk_spec `{Message Header, !MessageLaws Header}
    (hdr : Header) (payload : bytes) :
  match write_chunk hdr payload [] with
  | (Ok _, w) =>
      length payload = N.to_nat (h_data_length hdr) ∧
      ∀ rest, ∃ r, read_selector (w ++ rest) = (Ok Chunk, r) ∧
        read_chunk_stream r =
          Ok (hdr, mkPayloadReader (payload ++ rest) (h_data_length hdr))
  | (Err e, w) =>
      e = InvalidInput ∧
      ((w = [] ∧ (MAX_CHUNK_DATA_BYTES < h_data_length hdr)%N) ∨
       (w = [] ∧ length payload ≠ N.to_nat (h_data_length hdr)) ∨
       (w = [Byte.x03] ∧ (MAX_FRAME_BYTES < N.of_nat (encoded_len hdr))%N))
  end.
Proof.
  unfold write_chunk. case_decide as Hmax; [by auto|].
  case_decide as Hlen; [by auto|].
  unfold mbind, SM_bind, open_stream, write_all, AsyncWrite_bytes.
  destruct (decide (MAX_FRAME_BYTES < N.of_nat (encoded_len hdr))%N) as [Hf|Hf].
  { rewrite write_framed_large by done. split; [done|]. auto. }
  rewrite write_framed_small by lia. split; [lia|]. intros rest.
  exists (frame hdr ++ payload ++ rest). split.
  { rewrite app_nil_l, <- !app_assoc. apply read_selector_cons. }
  unfold read_chunk_stream. rewrite read_framed_frame by lia. by rewrite decide_False.
Qed.

Definition example_header : Header := mkHeader "c" "m" [Byte.x01] 2.

Lemma write_chunk_spec_witness :
  match @write_chunk _ _ (Message_countable Header) example_header [Byte.x41; Byte.x42] [] with
  | (Ok _, w) =>
      length [Byte.x41; Byte.x42] = N.to_nat (h_data_length example_header) ∧
      ∀ rest, ∃ r, read_selector (w ++ rest) = (Ok Chunk, r) ∧
        @read_chunk_stream _ _ (Message_countable Header) r =
          Ok (example_header,
              mkPayloadReader ([Byte.x41; Byte.x42] ++ rest) (h_data_length example_header))
  | (Err e, w) =>
      e = InvalidInput ∧
      ((w = [] ∧ (MAX_CHUNK_DATA_BYTES < h_data_length example_header)%N) ∨
       (w = [] ∧ length [Byte.x41; Byte.x42] ≠ N.to_nat (h_data_length example_header)) ∨
       (w = [Byte.x03] ∧ (MAX_FRAME_BYTES < N.of_nat
          (@encoded_len _ (Message_countable Header) example_header))%N))
  end.
Proof.
  apply (@write_chunk_spec (Message_countable Header) (MessageLaws_countable Header)
           example_header [Byte.x41; Byte.x42]).
Defined.

(** C38: the payload reader delivers exactly the declared bytes, however the
    stream fragments them and whatever buffers the caller offers: polled often
    enough it returns the first [data_length] bytes of the stream and leaves
    the rest, and it fails with [UnexpectedEof] exactly when the stream ends
    early, having delivered what was there. *)
Theorem payload_read_exact caps (s : list PollEvent) rem :
  Forall (λ c, 0 < c) caps → script_work s rem < length caps →
  ∃ out e r, payload_read caps (mkPayloadReader s rem) = (out, e, r) ∧
    out = take (N.to_nat rem) (script_bytes s) ∧
    script_bytes s = out ++ script_bytes (reader r) ∧
    e = if decide (N.to_nat rem ≤ length (script_bytes s)) then None
        else Some UnexpectedEof.
Proof.
  intros Hc Hw. destruct (payload_read_complete caps s rem Hc Hw)
    as (out & e & r & ? & ? & _ & ? & ?). by exists out, e, r.
Qed.

Lemma payload_read_exact_witness :
  let s := [Fragment Byte.x41 [Byte.x42]; NotReady; Fragment Byte.x43 [Byte.x44]] in
  ∃ out e r, payload_read [1; 5; 1; 1; 1] (mkPayloadReader s 3) = (out, e, r) ∧
    out = take 3 (script_bytes s) ∧ script_bytes s = out ++ script_bytes (reader r) ∧
    e = if decide (3 ≤ length (script_bytes s)) then None else Some UnexpectedEof.
Proof.
  apply (payload_read_exact [1; 5; 1; 1; 1]
    [Fragment Byte.x41 [Byte.x42]; NotReady; Fragment Byte.x43 [Byte.x44]] 3).
  - repeat constructor.
  - vm_compute. lia.
Defined.
