(* ===== verification/Config.v ===== *)
(** The Reed-Solomon strategy configuration: [strategy/config.rs].  [u8] and
    [u32] fields are [N]. *)
From stdpp Require Import base option strings list.
From Stdlib Require Import NArith Lia.
From S2P Require Import Prelude.

Open Scope N_scope.

(** [RsConfig]. *)
Record RsConfig := mkRsConfig {
  data_shards : N;
  parity_shards : N;
  chunk_len : N;
  bitmap_threshold : N;
  forward_multiplier : N;
  disable_bitmap : bool
}.

#[export] Instance RsConfig_eq_dec : EqDecision RsConfig.
Proof. solve_decision. Defined.

(** [ConfigError]. *)
Inductive ConfigError :=
  | BitmapThresholdOutOfRange (v : N)
  | DataShardsZero.

#[export] Instance ConfigError_eq_dec : EqDecision ConfigError.
Proof. solve_decision. Defined.

#[export] Instance Display_ConfigError : Display ConfigError := λ e,
  match e with
  | BitmapThresholdOutOfRange v =>
      "bitmap_threshold " +:+ to_string v +:+ " out of range (expected 0..=100)"
  | DataShardsZero => "data_shards must be >= 1"
  end%string.

Module RsConfig.

(** [Default::default]. *)
Definition default : RsConfig := mkRsConfig 16 16 0 50 4 false.

(** [RsConfig::new]. *)
Definition new (data_shards parity_shards chunk_len bitmap_threshold
                forward_multiplier : N) (disable_bitmap : bool)
    : result ConfigError RsConfig :=
  if decide (data_shards = 0) then Err DataShardsZero
  else if decide (100 < bitmap_threshold)
  then Err (BitmapThresholdOutOfRange bitmap_threshold)
  else Ok (mkRsConfig data_shards parity_shards chunk_len bitmap_threshold
             forward_multiplier disable_bitmap).

(** [RsConfig::total_shards]: a [u32] addition. *)
Definition total_shards (c : RsConfig) : N :=
  u32_add (data_shards c) (parity_shards c).

(** What [new] establishes; the fields are public, so a configuration need not
    come from it. *)
Definition valid (c : RsConfig) : Prop :=
  0 < data_shards c ∧ bitmap_threshold c ≤ 100.

Lemma default_valid : valid default.
Proof. done. Qed.

Lemma new_valid d p l t m b c : new d p l t m b = Ok c → valid c.
Proof.
  unfold new, valid. intros H. repeat case_decide; simplify_eq/=. lia.
Qed.
End RsConfig.
