(* ===== verification/Strategy.v ===== *)
(** The engine-facing interface of a broadcast coding scheme:
    [strategy/mod.rs] and [strategy/dispatch.rs]. *)
From stdpp Require Import base countable option strings list.
From Stdlib Require Import NArith Lia.
From S2P Require Import Prelude.

Open Scope N_scope.

(** [PeerId] and [DispatchHandle] are both [u64]. *)
Abbreviation PeerId := N (only parsing).
Abbreviation DispatchHandle := N (only parsing).

(** [Verdict]. *)
Module Verdict.
Inductive t := Accepted | Redundant | Decoding | Surplus | Invalid | Pending.
#[export] Instance eq_dec : EqDecision t.
Proof. solve_decision. Defined.

#[export] Instance Debug_Verdict : Debug t := λ v,
  match v with
  | Accepted => "Accepted"
  | Redundant => "Redundant"
  | Decoding => "Decoding"
  | Surplus => "Surplus"
  | Invalid => "Invalid"
  | Pending => "Pending"
  end%string.
End Verdict.
Export (hints) Verdict.
Abbreviation Verdict := Verdict.t (only parsing).

(** [TakeOutcome]. *)
Record TakeOutcome := mkTakeOutcome {
  verdict : Verdict.t;
  complete : bool
}.

#[export] Instance TakeOutcome_eq_dec : EqDecision TakeOutcome.
Proof. solve_decision. Defined.

(** [TakeError]; [idx] and [total] are [u64]. *)
Inductive TakeError := OutOfRange (idx total : N).

#[export] Instance TakeError_eq_dec : EqDecision TakeError.
Proof. solve_decision. Defined.

#[export] Instance Display_TakeError : Display TakeError := λ e,
  match e with
  | OutOfRange idx total =>
      "chunk index " +:+ to_string idx +:+ " out of range (total = " +:+ to_string total +:+ ")"
  end%string.

(** [ChunkDispatch<CI>]. *)
Record ChunkDispatch (CI : Type) := mkChunkDispatch {
  d_peer : N;
  d_chunk_id : CI;
  d_handle : N;
  d_payload : bytes
}.
Arguments mkChunkDispatch {CI} _ _ _ _.
Arguments d_peer {CI} _.
Arguments d_chunk_id {CI} _.
Arguments d_handle {CI} _.
Arguments d_payload {CI} _.

(** The [Strategy] trait: the associated types are parameters of the class,
    [&mut self] methods return the new state. *)
Class Strategy (S ChunkId RoutingUpdate DecodeError : Type) := {
  have_chunk : S → ChunkId → bool;
  verify_chunk : S → ChunkId → bytes → Verdict.t;
  take_chunk : S → ChunkId → bytes → result TakeError TakeOutcome * S;
  attach_peer : S → N → S;
  detach_peer : S → N → bool → S;
  routing_update : S → N → RoutingUpdate → list N * S;
  poll_chunks : S → list (ChunkDispatch ChunkId) * S;
  poll_routing : S → bool → option RoutingUpdate * S;
  chunk_sent : S → N → N → bool → S;
  progress : S → N * N;
  decode : S → result DecodeError bytes
}.

(** An invariant of a strategy, as the engine's calls see it. *)
Class StrategyInv {S RU DE : Type} `{!Strategy S N RU DE} (P : S → Prop) : Prop := {
  si_take s i d : P s → P (snd (take_chunk s i d));
  si_attach s p : P s → P (attach_peer s p);
  si_detach s p b : P s → P (detach_peer s p b);
  si_sent s p h ok : P s → P (chunk_sent s p h ok);
  si_poll_routing s f : P s → P (snd (poll_routing s f));
  si_poll_chunks s : P s → P (snd (poll_chunks s))
}.

(** [y] is reached from [x] by such calls, as far as invariants can tell. *)
Definition leads {S RU DE : Type} `{!Strategy S N RU DE} (x y : S) : Prop :=
  ∀ P : S → Prop, StrategyInv P → P x → P y.

#[export] Instance leads_po {S RU DE : Type} `{!Strategy S N RU DE} : PreOrder leads.
Proof. split; [by intros x P|]. intros x y z Hx Hy P HP ?. by apply Hy, Hx. Qed.
