(* ===== verification/RsCodec.v ===== *)
(** Reed-Solomon encoding, verification and reconstruction:
    [strategy/rs/encode.rs], [strategy/rs/verify.rs] and
    [strategy/rs/decode.rs].

    SHA-256 and the Reed-Solomon code come from the crates [sha2] and
    [reed_solomon_erasure]; they are the parameters [Sha256] and [ReedSolomon]
    below, and what the code relies on is stated in [Sha256Laws] and
    [ReedSolomonLaws].  A computation that panics is [None]. *)
From Stdlib Require Import NArith ZArith Lia.
From stdpp Require Import base option strings list.
From S2P Require Import Prelude Config Strategy.

Open Scope N_scope.

(** * External code *)

(** [sha2::Sha256]. *)
Class Sha256 := sha256_digest : bytes → bytes.

(** SHA-256 digests have 32 bytes. *)
Class Sha256Laws `{Sha256} : Prop :=
  length_sha256_digest : ∀ bs, length (sha256_digest bs) = 32%nat.

(** [reed_solomon_erasure::galois_8::ReedSolomon], and the texts of its errors. *)
Class ReedSolomon := {
  RsError : Type;
  RsError_display : Display RsError;
  RsError_debug : Debug RsError;
  TooFewShards : RsError;
  RsCode : Type;
  rs_new : N → N → result RsError RsCode;
  rs_encode : RsCode → list bytes → result RsError (list bytes);
  rs_reconstruct_data :
    RsCode → list (option bytes) → result RsError (list (option bytes))
}.

#[export] Existing Instances RsError_display RsError_debug.

(** Documented behaviour of [reed_solomon_erasure]:
    - a code has at least one data and one parity shard and at most 256 shards;
    - encoding takes as many shards as the code has, all of one non-zero
      length, keeps the data shards and fills in the parity shards;
    - reconstruction restores every data shard from any [k] shards of an
      encoded message. *)
Class ReedSolomonLaws `{ReedSolomon} : Prop := {
  rs_new_Ok k m rs : rs_new k m = Ok rs → 0 < k ∧ 0 < m ∧ k + m ≤ 256;
  rs_encode_total k m rs shards len :
    rs_new k m = Ok rs →
    length shards = N.to_nat (k + m) → (0 < len)%nat →
    Forall (λ s, length s = len) shards →
    ∃ shards', rs_encode rs shards = Ok shards';
  rs_encode_Ok k m rs shards shards' len :
    rs_new k m = Ok rs → rs_encode rs shards = Ok shards' →
    Forall (λ s, length s = len) shards →
    length shards' = length shards ∧
    Forall (λ s, length s = len) shards' ∧
    take (N.to_nat k) shards' = take (N.to_nat k) shards;
  rs_reconstruct_Ok k m rs shards shards' slots :
    rs_new k m = Ok rs → rs_encode rs shards = Ok shards' →
    length slots = length shards' →
    (∀ i s, slots !! i = Some (Some s) → shards' !! i = Some s) →
    k ≤ N.of_nat (length (filter is_Some slots)) →
    ∃ slots', rs_reconstruct_data rs slots = Ok slots' ∧
      length slots' = length slots ∧
      ∀ i, (i < N.to_nat k)%nat → slots' !! i = Some (shards' !! i)
}.

(** [HASH_LEN]. *)
Definition HASH_LEN : nat := 32.

(** [Preamble] of [rs.proto]; the counts and the length are [i32]. *)
Record Preamble := mkPreamble {
  num_data : Z;
  num_parity : Z;
  p_length : Z;
  hashes : list bytes;
  hash : bytes
}.

#[export] Instance Preamble_eq_dec : EqDecision Preamble.
Proof. solve_decision. Defined.

(** * [encode.rs] *)
Module Encode.
Section encode.
Context `{Sha256, ReedSolomon}.

Inductive EncodeError :=
  | Rs (e : RsError)
  | EmptyPayload
  | ShardCountOverflow.

#[export] Instance Display_EncodeError : Display EncodeError := λ e,
  match e with
  | Rs e => "reed-solomon-erasure error: " +:+ to_string e
  | EmptyPayload => "cannot encode an empty payload"
  | ShardCountOverflow => "resolved shard count exceeds i32::MAX"
  end%string.

#[export] Instance Debug_EncodeError : Debug EncodeError := λ e,
  match e with
  | Rs e => debug_tuple "Rs" (debug_string e)
  | EmptyPayload => "EmptyPayload"
  | ShardCountOverflow => "ShardCountOverflow"
  end%string.

(** [resolve_shape]; dividing by zero panics. *)
Definition resolve_shape (payload_len : N) (config : RsConfig)
    : option (N * N * N) :=
  if decide (0 < chunk_len config) then
    let data_shards := div_ceil payload_len (chunk_len config) in
    Some (data_shards, data_shards, chunk_len config)
  else if decide (data_shards config = 0) then None
  else Some (data_shards config, parity_shards config,
             div_ceil payload_len (data_shards config)).

(** [shards[i][..chunk.len()].copy_from_slice(chunk)] for the chunks from index
    [i] on; an index out of range panics. *)
Fixpoint copy_chunks (shards : list bytes) (i : nat) (cs : list bytes)
    : option (list bytes) :=
  match cs with
  | [] => Some shards
  | c :: cs =>
      match shards !! i with
      | None => None
      | Some s =>
          if decide (length c ≤ length s)%nat
          then copy_chunks (<[i := c ++ drop (length c) s]> shards) (S i) cs
          else None
      end
  end.

Definition i32_or_overflow (n : nat) : result EncodeError Z :=
  ok_or ShardCountOverflow (i32_try_from_usize n).

Definition encode (payload : bytes) (config : RsConfig)
    : option (result EncodeError (Preamble * list bytes)) :=
  if decide (payload = []) then Some (Err EmptyPayload)
  else
    '(data_shards, parity_shards, chunk_len) ←
      resolve_shape (N.of_nat (length payload)) config;
    let total := data_shards + parity_shards in
    match rs_new data_shards parity_shards with
    | Err e => Some (Err (Rs e))
    | Ok rs =>
        let shards :=
          replicate (N.to_nat total) (replicate (N.to_nat chunk_len) Byte.x00) in
        shards ← copy_chunks shards 0 (chunks (N.to_nat chunk_len) payload);
        Some (
          shards ← map_err Rs (rs_encode rs shards);
          let hashes := sha256_digest <$> shards in
          let message_hash := sha256_digest payload in
          num_data ← i32_or_overflow (N.to_nat data_shards);
          num_parity ← i32_or_overflow (N.to_nat parity_shards);
          length ← i32_or_overflow (length payload);
          Ok (mkPreamble num_data num_parity length hashes message_hash, shards))
    end.
End encode.
End Encode.
Export (hints) Encode.

(** * [verify.rs] *)
Module Verify.

Inductive PreambleError :=
  | NegativeShardCount (num_data num_parity : Z)
  | ShardCountOverflow
  | HashCountMismatch (hashes : nat) (expected : N)
  | HashLengthInvalid (idx len : nat)
  | MessageHashLengthInvalid (len : nat)
  | NegativeLength (length : Z).

#[export] Instance PreambleError_eq_dec : EqDecision PreambleError.
Proof. solve_decision. Defined.

#[export] Instance Display_PreambleError : Display PreambleError := λ e,
  match e with
  | NegativeShardCount num_data num_parity =>
      "negative shard counts: num_data=" +:+ to_string num_data +:+
      ", num_parity=" +:+ to_string num_parity
  | ShardCountOverflow => "num_data + num_parity overflows u32"
  | HashCountMismatch hashes expected =>
      "preamble has " +:+ to_string hashes +:+ " hashes, expected " +:+ to_string expected
  | HashLengthInvalid idx len =>
      "preamble.hashes[" +:+ to_string idx +:+ "] is " +:+ to_string len +:+ " bytes, expected 32"
  | MessageHashLengthInvalid len =>
      "preamble.hash is " +:+ to_string len +:+ " bytes, expected 32"
  | NegativeLength length => "preamble.length is negative (" +:+ to_string length +:+ ")"
  end%string.

#[export] Instance Debug_PreambleError : Debug PreambleError := λ e,
  match e with
  | NegativeShardCount num_data num_parity =>
      debug_struct "NegativeShardCount"
        [("num_data", debug_string num_data); ("num_parity", debug_string num_parity)]
  | ShardCountOverflow => "ShardCountOverflow"
  | HashCountMismatch hashes expected =>
      debug_struct "HashCountMismatch"
        [("hashes", debug_string hashes); ("expected", debug_string expected)]
  | HashLengthInvalid idx len =>
      debug_struct "HashLengthInvalid" [("idx", debug_string idx); ("len", debug_string len)]
  | MessageHashLengthInvalid len =>
      debug_struct "MessageHashLengthInvalid" [("len", debug_string len)]
  | NegativeLength length => debug_struct "NegativeLength" [("length", debug_string length)]
  end%string.

(** The checked sum of the two shard counts as a [u32]. *)
Definition checked_total (p : Preamble) : option N :=
  d ← u32_try_from_i32 (num_data p);
  pp ← u32_try_from_i32 (num_parity p);
  u32_checked_add d pp.

(** The first hash whose length is not 32, with its index. *)
Fixpoint bad_hash (i : nat) (hs : list bytes) : option (nat * nat) :=
  match hs with
  | [] => None
  | h :: hs => if decide (length h ≠ HASH_LEN) then Some (i, length h)
               else bad_hash (S i) hs
  end.

Definition validate_preamble (p : Preamble) : result PreambleError unit :=
  if decide (num_data p < 0 ∨ num_parity p < 0)%Z
  then Err (NegativeShardCount (num_data p) (num_parity p))
  else if decide (p_length p < 0)%Z then Err (NegativeLength (p_length p))
  else
    total ← ok_or ShardCountOverflow (checked_total p);
    if decide (N.of_nat (length (hashes p)) ≠ total)
    then Err (HashCountMismatch (length (hashes p)) total)
    else
      match bad_hash 0 (hashes p) with
      | Some (i, len) => Err (HashLengthInvalid i len)
      | None =>
          if decide (length (hash p) ≠ HASH_LEN)
          then Err (MessageHashLengthInvalid (length (hash p)))
          else Ok ()
      end.

Definition verify_chunk `{Sha256} (preamble : Preamble) (idx : N) (data : bytes)
    : Verdict.t :=
  match checked_total preamble with
  | None => Verdict.Invalid
  | Some total =>
      if decide (total ≤ idx) then Verdict.Invalid
      else
        match hashes preamble !! N.to_nat idx with
        | Some h =>
            if decide (length h = HASH_LEN) then
              if decide (sha256_digest data = h)
              then Verdict.Accepted else Verdict.Invalid
            else Verdict.Invalid
        | None => Verdict.Invalid
        end
  end.
End Verify.
Export (hints) Verify.

(** * [decode.rs] *)
Module Decode.
Section decode.
Context `{Sha256, ReedSolomon}.

Inductive DecodeError :=
  | PreambleInvalid (e : Verify.PreambleError)
  | Rs (e : RsError)
  | ShardIndexOutOfRange (idx total : N)
  | DuplicateShardIndex (idx : N)
  | InconsistentShardLength (expected got : N)
  | MessageHashMismatch.

#[export] Instance Display_DecodeError : Display DecodeError := λ e,
  match e with
  | PreambleInvalid e => "preamble: " +:+ to_string e
  | Rs e => "reed-solomon-erasure: " +:+ to_string e
  | ShardIndexOutOfRange idx total =>
      "shard index " +:+ to_string idx +:+ " out of range (total = " +:+ to_string total +:+ ")"
  | DuplicateShardIndex idx => "duplicate shard at index " +:+ to_string idx
  | InconsistentShardLength expected got =>
      "shard length " +:+ to_string got +:+ " differs from expected " +:+ to_string expected
  | MessageHashMismatch => "reconstructed message hash does not match preamble.hash"
  end%string.

(** The loop that sorts the input shards into their buckets. *)
Fixpoint fill_buckets (total : N) (shard_len : nat)
    (buckets : list (option bytes)) (shards_in : list (N * bytes))
    : result DecodeError (list (option bytes)) :=
  match shards_in with
  | [] => Ok buckets
  | (idx, data) :: shards_in =>
      if decide (total ≤ idx)
      then Err (ShardIndexOutOfRange idx (total mod 2 ^ 32))
      else if decide (length data ≠ shard_len)
      then Err (InconsistentShardLength (N.of_nat shard_len)
                                        (N.of_nat (length data)))
      else
        match buckets !! N.to_nat idx with
        | Some None =>
            fill_buckets total shard_len
              (<[N.to_nat idx := Some data]> buckets) shards_in
        | _ => Err (DuplicateShardIndex idx)
        end
  end.

(** The concatenation of the reconstructed data shards. *)
Fixpoint concat_slots (slots : list (option bytes)) : result DecodeError bytes :=
  match slots with
  | [] => Ok []
  | Some s :: slots => rest ← concat_slots slots; Ok (s ++ rest)
  | None :: _ => Err (Rs TooFewShards)
  end.

Definition decode (preamble : Preamble) (shards_in : list (N * bytes))
    : result DecodeError bytes :=
  _ ← map_err PreambleInvalid (Verify.validate_preamble preamble);
  let data_shards := i32_as_usize (num_data preamble) in
  let parity_shards := i32_as_usize (num_parity preamble) in
  let total := data_shards + parity_shards in
  shard_len ← match head shards_in with
              | Some (_, s) => Ok (length s)
              | None => Err (Rs TooFewShards)
              end;
  buckets ← fill_buckets total shard_len (replicate (N.to_nat total) None) shards_in;
  rs ← map_err Rs (rs_new data_shards parity_shards);
  buckets ← map_err Rs (rs_reconstruct_data rs buckets);
  out ← concat_slots (take (N.to_nat data_shards) buckets);
  let length := i32_as_usize (p_length preamble) in
  if decide (N.of_nat (List.length out) < length)
  then Err (InconsistentShardLength length (N.of_nat (List.length out)))
  else
    let out := take (N.to_nat length) out in
    if decide (sha256_digest out ≠ hash preamble) then Err MessageHashMismatch
    else Ok out.
End decode.
End Decode.
Export (hints) Decode.

(** * Lemmas *)

(** What [validate_preamble] accepts. *)
Record valid_preamble (p : Preamble) : Prop := {
  vp_data : (0 ≤ num_data p)%Z;
  vp_parity : (0 ≤ num_parity p)%Z;
  vp_length : (0 ≤ p_length p)%Z;
  vp_total : (num_data p + num_parity p < 2 ^ 32)%Z;
  vp_hashes : Z.of_nat (length (hashes p)) = (num_data p + num_parity p)%Z;
  vp_hash_len : Forall (λ h, length h = HASH_LEN) (hashes p);
  vp_hash : length (hash p) = HASH_LEN
}.

(** [num_data + num_parity] as the shard count of a valid preamble. *)
Definition shard_total (p : Preamble) : N := Z.to_N (num_data p + num_parity p).

Module VerifyLemmas.
Import Verify.

Lemma checked_total_Some p t :
  checked_total p = Some t ↔
  (0 ≤ num_data p)%Z ∧ (0 ≤ num_parity p)%Z ∧
  (num_data p + num_parity p < 2 ^ 32)%Z ∧ t = shard_total p.
Proof.
  unfold checked_total, u32_try_from_i32, u32_checked_add, shard_total.
  destruct (decide (0 ≤ num_data p)%Z); simpl;
    [|split; [done|intros (?&?&?&?); lia]].
  destruct (decide (0 ≤ num_parity p)%Z); simpl;
    [|split; [done|intros (?&?&?&?); lia]].
  case_decide; split; intros; simplify_eq; intuition (subst; f_equal; lia).
Qed.

Lemma bad_hash_None i hs :
  bad_hash i hs = None ↔ Forall (λ h, length h = HASH_LEN) hs.
Proof.
  revert i; induction hs as [|h hs IH]; intros i; simpl.
  { split; auto. }
  case_decide as Hh; split; intros Hb; [done| |by apply IH in Hb; auto|].
  - by inversion Hb.
  - inversion Hb. by apply IH.
Qed.

Lemma validate_preamble_Ok p : validate_preamble p = Ok () ↔ valid_preamble p.
Proof.
  unfold validate_preamble, mbind, result_bind, ok_or.
  split.
  - intros Hv. do 2 (case_decide; [done|]).
    destruct (checked_total p) as [t|] eqn:Ht; [|done].
    apply checked_total_Some in Ht as (? & ? & ? & ->). unfold shard_total in *.
    case_decide; [done|]. destruct (bad_hash 0 (hashes p)) as [[]|] eqn:Hb; [done|].
    apply bad_hash_None in Hb. case_decide; [done|].
    split; done || lia || by apply dec_stable.
  - intros [].
    rewrite decide_False by lia. rewrite decide_False by lia.
    assert (checked_total p = Some (shard_total p)) as -> by
      (apply checked_total_Some; auto).
    assert (bad_hash 0 (hashes p) = None) as -> by by apply bad_hash_None.
    unfold shard_total. rewrite !decide_False; [done|lia..].
Qed.

Lemma valid_checked_total p :
  valid_preamble p → checked_total p = Some (shard_total p).
Proof. intros []. apply checked_total_Some. auto. Qed.

Lemma verify_chunk_Accepted `{Sha256} p idx data :
  verify_chunk p idx data = Verdict.Accepted ↔
  (∃ t, checked_total p = Some t ∧ idx < t) ∧
  length (sha256_digest data) = HASH_LEN ∧
  hashes p !! N.to_nat idx = Some (sha256_digest data).
Proof.
  unfold verify_chunk. destruct (checked_total p) as [t|]; [|naive_solver].
  case_decide as Ht.
  { split; [done|]. intros [(? & [= <-] & ?) _]. lia. }
  destruct (hashes p !! N.to_nat idx) as [h|]; [|naive_solver].
  case_decide; [case_decide|]; split; intros; try done.
  - subst h. split; [|done]. exists t. split; [done|lia].
  - naive_solver.
  - naive_solver.
Qed.

Lemma verify_chunk_cases `{Sha256} p idx data :
  verify_chunk p idx data = Verdict.Accepted ∨
  verify_chunk p idx data = Verdict.Invalid.
Proof. unfold verify_chunk. repeat case_match; auto. Qed.
End VerifyLemmas.

Module EncodeLemmas.
Import Encode.

Definition zeros (n : nat) : bytes := replicate n Byte.x00.
Definition pad (n : nat) (c : bytes) : bytes := c ++ zeros (n - length c).

Lemma length_pad n c : (length c ≤ n)%nat → length (pad n c) = n.
Proof. intros. unfold pad, zeros. rewrite length_app, length_replicate. lia. Qed.

Lemma copy_chunks_zeros len pre cs m :
  (length cs ≤ m)%nat → Forall (λ c, length c ≤ len)%nat cs →
  copy_chunks (pre ++ replicate m (zeros len)) (length pre) cs =
  Some (pre ++ (pad len <$> cs) ++ replicate (m - length cs) (zeros len)).
Proof.
  revert pre m; induction cs as [|c cs IH]; intros pre m Hm Hcs; simpl.
  { by rewrite Nat.sub_0_r. }
  inversion Hcs; subst. simpl in Hm. destruct m as [|m]; [lia|].
  cbn [replicate]. rewrite list_lookup_middle by done.
  rewrite decide_True by (unfold zeros; rewrite length_replicate; lia).
  replace (length pre) with (length pre + 0)%nat at 1 by lia.
  rewrite insert_app_r. cbn [insert list_insert].
  assert (c ++ drop (length c) (zeros len) = pad len c) as ->.
  { unfold pad, zeros. by rewrite drop_replicate. }
  pose proof (IH (pre ++ [pad len c]) m ltac:(lia) ltac:(done)) as IH'.
  rewrite length_app, Nat.add_1_r, <- !app_assoc in IH'. exact IH'.
Qed.

Lemma chunks_fuel_length {A} fuel k (l : list A) :
  Forall (λ c, length c ≤ k)%nat (chunks_fuel fuel k l).
Proof.
  revert l; induction fuel as [|fuel IH]; intros l; simpl; [constructor|].
  destruct l; [constructor|]. constructor; [rewrite length_take; lia|apply IH].
Qed.

Lemma concat_pad_chunks fuel k (l rest : bytes) :
  (0 < k)%nat → (length l ≤ fuel)%nat →
  take (length l) (concat (pad k <$> chunks_fuel fuel k l) ++ rest) = l.
Proof.
  intros Hk. revert l; induction fuel as [|fuel IH]; intros l Hl.
  { by destruct l; [|simpl in Hl; lia]. }
  destruct l as [|x l]; [done|]. set (xl := x :: l) in *.
  assert (chunks_fuel (S fuel) k xl = take k xl :: chunks_fuel fuel k (drop k xl)) as ->
    by done.
  rewrite fmap_cons, List.concat_cons, <- app_assoc.
  assert (0 < length xl)%nat by (simpl; lia).
  destruct (decide (k ≤ length xl)%nat) as [Hkl|Hkl].
  - assert (pad k (take k xl) = take k xl) as ->.
    { unfold pad. rewrite length_take, Nat.min_l, Nat.sub_diag by done. apply app_nil_r. }
    rewrite take_app, length_take, Nat.min_l by done.
    rewrite take_take, Nat.min_r by done.
    replace (length xl - k)%nat with (length (drop k xl)) by apply length_drop.
    rewrite IH by (rewrite length_drop; lia). apply take_drop.
  - rewrite (take_ge xl) by lia. unfold pad. rewrite <- app_assoc.
    by rewrite take_app_length.
Qed.

Lemma resolve_shape_Some n config k m len :
  0 < n → resolve_shape n config = Some (k, m, len) → 0 < k → 0 < len ∧ n ≤ k * len.
Proof.
  intros Hn Hr Hk. unfold resolve_shape in Hr. repeat case_decide; simplify_eq.
  - split; [done|]. apply div_ceil_spec. done.
  - split; [by apply div_ceil_pos|]. pose proof (div_ceil_spec n (data_shards config) Hk).
    lia.
Qed.

Lemma resolve_shape_pos n config k m len :
  0 < n → resolve_shape n config = Some (k, m, len) → 0 < k.
Proof.
  intros Hn Hr. unfold resolve_shape in Hr. repeat case_decide; simplify_eq; [|lia].
  by apply div_ceil_pos.
Qed.

Lemma resolve_shape_None n config :
  resolve_shape n config = None ↔ chunk_len config = 0 ∧ data_shards config = 0.
Proof.
  unfold resolve_shape. repeat case_decide; split; intros; try done; lia.
Qed.

(** The shards [encode] hands to the Reed-Solomon encoder. *)
Lemma copy_chunks_payload (payload : bytes) k m len :
  0 < len → N.of_nat (length payload) ≤ k * len →
  ∃ shards,
    copy_chunks (replicate (N.to_nat (k + m)) (zeros (N.to_nat len))) 0
      (chunks (N.to_nat len) payload) = Some shards ∧
    length shards = N.to_nat (k + m) ∧
    Forall (λ s, length s = N.to_nat len) shards ∧
    take (length payload) (concat (take (N.to_nat k) shards)) = payload.
Proof.
  intros Hlen Hp. set (cs := chunks (N.to_nat len) payload).
  assert (length cs ≤ N.to_nat k)%nat as Hcs.
  { apply length_chunks_le; lia. }
  assert (Forall (λ c, length c ≤ N.to_nat len)%nat cs) as Hc
    by apply chunks_fuel_length.
  eexists. split.
  { apply (copy_chunks_zeros (N.to_nat len) [] cs); [lia|done]. }
  rewrite app_nil_l. split_and!.
  - rewrite length_app, length_fmap, length_replicate. lia.
  - apply Forall_app. split.
    + apply Forall_fmap. eapply Forall_impl; [exact Hc|]. intros c. apply length_pad.
    + apply Forall_replicate. unfold zeros. apply length_replicate.
  - rewrite take_app_ge, concat_app by (rewrite length_fmap; lia).
    apply concat_pad_chunks; lia.
Qed.

Lemma i32_or_overflow_Ok `{ReedSolomon} n z :
  i32_or_overflow n = Ok z ↔ z = Z.of_nat n ∧ (Z.of_nat n ≤ I32_MAX)%Z.
Proof.
  unfold i32_or_overflow, i32_try_from_usize. rewrite ok_or_Ok.
  case_decide; naive_solver.
Qed.
End EncodeLemmas.

Module DecodeLemmas.
Import Decode.

Lemma fill_buckets_Ok `{ReedSolomon} total len (slots : list (option bytes)) ins :
  N.of_nat (length slots) = total →
  NoDup ins.*1 →
  Forall (λ '(i, s), i < total ∧ length s = len ∧ slots !! N.to_nat i = Some None) ins →
  ∃ slots', fill_buckets total len slots ins = Ok slots' ∧
    length slots' = length slots ∧
    (length (filter is_Some slots') = length (filter is_Some slots) + length ins)%nat ∧
    ∀ i s, slots' !! i = Some (Some s) →
      slots !! i = Some (Some s) ∨ (N.of_nat i, s) ∈ ins.
Proof.
  intros Ht. revert slots Ht; induction ins as [|[i s] ins IH]; intros slots Ht Hnd Hins.
  { exists slots. split_and!; auto with lia. }
  apply Forall_cons in Hins as [(Hi & Hs & Hslot) Hins].
  cbn [fmap list_fmap fst] in Hnd. apply NoDup_cons in Hnd as [Hni Hnd].
  simpl. rewrite decide_False by lia. rewrite decide_False by auto.
  rewrite Hslot.
  destruct (IH (<[N.to_nat i := Some s]> slots)) as (slots' & -> & Hl & Hc & Hsl).
  - by rewrite length_insert.
  - done.
  - apply Forall_forall. intros [j t] Hj.
    rewrite Forall_forall in Hins. destruct (Hins _ Hj) as (? & ? & ?).
    split_and!; [done..|]. rewrite list_lookup_insert_ne; [done|].
    intros E. apply N2Nat.inj in E as ->. apply Hni.
    apply list_elem_of_fmap. by exists (j, t).
  - exists slots'. split; [done|]. rewrite Hl, length_insert. split; [done|].
    split.
    + rewrite Hc. clear -Hslot.
      rewrite (insert_take_drop slots (N.to_nat i)) by (by apply lookup_lt_Some in Hslot).
      rewrite <- (take_drop_middle slots (N.to_nat i) None Hslot) at 3.
      rewrite !filter_app, !length_app.
      rewrite filter_cons_True by eauto. rewrite filter_cons_False by (by intros []).
      simpl. lia.
    + intros j t Hj. destruct (Hsl j t Hj) as [Hj'|]; [|by right; right].
      destruct (decide (j = N.to_nat i)) as [->|].
      * rewrite list_lookup_insert_eq in Hj' by (by apply lookup_lt_Some in Hslot).
        simplify_eq. right. rewrite N2Nat.id. left.
      * rewrite list_lookup_insert_ne in Hj' by done. by left.
Qed.

Lemma concat_slots_Some `{ReedSolomon} shards :
  concat_slots (Some <$> shards) = Ok (concat shards).
Proof.
  induction shards as [|s shards IH]; [done|].
  rewrite fmap_cons, List.concat_cons. cbn [concat_slots]. by rewrite IH.
Qed.

Lemma slots_prefix (slots : list (option bytes)) (shards : list bytes) k :
  (k ≤ length shards)%nat → length slots = length shards →
  (∀ i, (i < k)%nat → slots !! i = Some (shards !! i)) →
  take k slots = Some <$> take k shards.
Proof.
  intros Hk Hl Hi. apply list_eq. intros i. rewrite list_lookup_fmap.
  destruct (decide (i < k)%nat).
  - rewrite !lookup_take_lt, Hi by done.
    destruct (lookup_lt_is_Some_2 shards i) as [s ->]; [lia|done].
  - rewrite !lookup_take_ge by lia. done.
Qed.
End DecodeLemmas.

Section laws.
Context `{Sha256, !Sha256Laws, ReedSolomon, !ReedSolomonLaws}.
Import Encode EncodeLemmas VerifyLemmas DecodeLemmas.

(** What a successful [encode] returns. *)
Record encoded (payload : bytes) (k m : N) (pre : Preamble) (shards : list bytes)
    : Prop := {
  en_rs : ∃ rs raw, rs_new k m = Ok rs ∧ rs_encode rs raw = Ok shards;
  en_num_data : num_data pre = Z.of_N k;
  en_num_parity : num_parity pre = Z.of_N m;
  en_length : p_length pre = Z.of_nat (length payload);
  en_small : (Z.of_nat (length payload) ≤ I32_MAX)%Z;
  en_hashes : hashes pre = sha256_digest <$> shards;
  en_hash : hash pre = sha256_digest payload;
  en_total : length shards = N.to_nat (k + m);
  en_shards : ∃ len, (0 < len)%nat ∧ Forall (λ s, length s = len) shards;
  en_payload : take (length payload) (concat (take (N.to_nat k) shards)) = payload
}.

(** [encode] of a payload that is not empty, once its shape is resolved. *)
Lemma encode_shaped payload config k m len :
  payload ≠ [] → resolve_shape (N.of_nat (length payload)) config = Some (k, m, len) →
  match rs_new k m with
  | Err e => encode payload config = Some (Err (Rs e))
  | Ok _ =>
      if decide (I32_MAX < Z.of_nat (length payload))%Z
      then encode payload config = Some (Err ShardCountOverflow)
      else ∃ pre shards, encode payload config = Some (Ok (pre, shards)) ∧
        encoded payload k m pre shards ∧ Forall (λ s, N.of_nat (length s) = len) shards
  end.
Proof.
  intros Hp Hr. unfold encode. rewrite Hr. rewrite !(decide_False (P := payload = [])) by done.
  cbn [mbind option_bind].
  assert (0 < N.of_nat (length payload)) as Hpos by (destruct payload; [done|simpl; lia]).
  pose proof (resolve_shape_pos _ _ _ _ _ Hpos Hr) as Hk.
  destruct (resolve_shape_Some _ _ _ _ _ Hpos Hr Hk) as [Hlen Hfit].
  destruct (rs_new k m) as [rs|e] eqn:Hrs; [|done].
  destruct (copy_chunks_payload payload k m len Hlen Hfit)
    as (raw & Hcp & Hraw & Hrawlen & Hrawp).
  fold (zeros (N.to_nat len)). rewrite Hcp. cbn [mbind option_bind].
  destruct (rs_encode_total k m rs raw (N.to_nat len) Hrs Hraw ltac:(lia) Hrawlen)
    as [shards Hen].
  destruct (rs_encode_Ok k m rs raw shards _ Hrs Hen Hrawlen) as (Hl & Hf & Htk).
  destruct (rs_new_Ok _ _ _ Hrs) as (_ & _ & H256).
  rewrite Hen. cbn [map_err mbind result_bind].
  assert (∀ n, n ≤ 256 → i32_or_overflow (N.to_nat n) = Ok (Z.of_N n)) as Hi.
  { intros n Hn. apply i32_or_overflow_Ok. lia. }
  rewrite !Hi by lia. unfold i32_or_overflow, ok_or, i32_try_from_usize.
  destruct (decide (I32_MAX < _)%Z) as [Hbig|Hsmall].
  - rewrite decide_False by lia. done.
  - rewrite decide_True by lia. cbn [mbind result_bind]. eexists _, shards. split; [done|]. split.
    + split; cbn; try done; [by exists rs, raw|lia|congruence| |by rewrite Htk].
      exists (N.to_nat len). split; [lia|done].
    + eapply Forall_impl; [exact Hf|]. intros sh Hsh. cbn in Hsh. lia.
Qed.

Lemma encode_cases payload config :
  payload ≠ [] →
  match encode payload config with
  | None => chunk_len config = 0 ∧ data_shards config = 0
  | Some r =>
      ∃ k m len, resolve_shape (N.of_nat (length payload)) config = Some (k, m, len) ∧
      match r with
      | Ok (pre, shards) => encoded payload k m pre shards
      | Err (Rs e) => rs_new k m = Err e
      | Err EmptyPayload => False
      | Err ShardCountOverflow => (I32_MAX < Z.of_nat (length payload))%Z
      end
  end.
Proof.
  intros Hp. destruct (resolve_shape (N.of_nat (length payload)) config) as [[[k m] len]|] eqn:Hr.
  - pose proof (encode_shaped payload config k m len Hp Hr) as Hs.
    destruct (rs_new k m) as [rs|e] eqn:Hrs; [|rewrite Hs; by exists k, m, len].
    case_decide; [rewrite Hs; by exists k, m, len|].
    destruct Hs as (pre & shards & -> & ? & _). by exists k, m, len.
  - unfold encode. rewrite decide_False, Hr by done. by apply resolve_shape_None in Hr.
Qed.

Lemma encoded_valid payload k m pre shards :
  encoded payload k m pre shards → valid_preamble pre ∧ shard_total pre = k + m.
Proof.
  intros []. destruct en_rs0 as (rs & raw & Hrs & _).
  apply rs_new_Ok in Hrs as (? & ? & ?). split; [|unfold shard_total; lia].
  split; try lia.
  - rewrite en_hashes0, length_fmap. lia.
  - rewrite en_hashes0. apply Forall_fmap, Forall_forall. intros s _.
    apply length_sha256_digest.
  - rewrite en_hash0. apply length_sha256_digest.
Qed.

Lemma encoded_verify payload k m pre shards i s :
  encoded payload k m pre shards → shards !! N.to_nat i = Some s →
  Verify.verify_chunk pre i s = Verdict.Accepted.
Proof.
  intros He Hs. pose proof (encoded_valid _ _ _ _ _ He) as [Hv Ht].
  apply verify_chunk_Accepted. split; [|split].
  - exists (k + m). rewrite <- Ht, valid_checked_total by done. split; [done|].
    apply lookup_lt_Some in Hs. rewrite (en_total _ _ _ _ _ He) in Hs. lia.
  - apply length_sha256_digest.
  - by rewrite (en_hashes _ _ _ _ _ He), list_lookup_fmap, Hs.
Qed.
(** Buckets filled from shards of a codeword reconstruct its data shards. *)
Lemma reconstruct_codeword k m rs raw shards len (ins : list (N * bytes)) :
  rs_new k m = Ok rs → rs_encode rs raw = Ok shards →
  length shards = N.to_nat (k + m) → Forall (λ s, length s = len) shards →
  NoDup ins.*1 → Forall (λ '(i, s), shards !! N.to_nat i = Some s) ins →
  (k ≤ N.of_nat (length ins)) →
  ∃ slots slots',
    Decode.fill_buckets (k + m) len (replicate (N.to_nat (k + m)) None) ins = Ok slots ∧
    rs_reconstruct_data rs slots = Ok slots' ∧
    take (N.to_nat k) slots' = Some <$> take (N.to_nat k) shards.
Proof.
  intros Hrs Hen Htot Hf Hnd Hins Hk.
  destruct (fill_buckets_Ok (k + m) len (replicate (N.to_nat (k + m)) None) ins)
    as (slots & Hfb & Hsn & Hsc & Hss); [|done| |].
  { rewrite length_replicate. lia. }
  { eapply Forall_impl; [exact Hins|]. intros [i s] Hs.
    apply lookup_lt_Some in Hs as Hi. rewrite Htot in Hi.
    split; [lia|]. split; [by eapply Forall_lookup_1 in Hf|].
    apply lookup_replicate. split; [done|lia]. }
  rewrite length_replicate in Hsn.
  destruct (rs_reconstruct_Ok k m rs raw shards slots Hrs Hen)
    as (slots' & Hrec & Hl' & Hsl').
  { congruence. }
  { intros i s Hi. destruct (Hss i s Hi) as [Hr|Hin].
    - apply lookup_replicate in Hr as [? _]. done.
    - rewrite Forall_forall in Hins. specialize (Hins _ Hin). simpl in Hins.
      by rewrite Nat2N.id in Hins. }
  { rewrite Hsc. lia. }
  exists slots, slots'. split; [done|]. split; [done|].
  apply slots_prefix; congruence || lia || done.
Qed.
(** Shards of an encoded payload decode to it. *)
Lemma decode_codeword payload k m pre shards (ins : list (N * bytes)) :
  encoded payload k m pre shards →
  NoDup ins.*1 → Forall (λ '(i, s), shards !! N.to_nat i = Some s) ins →
  k ≤ N.of_nat (length ins) →
  Decode.decode pre ins = Ok payload.
Proof.
  intros He Hnd Hins Hk.
  pose proof (encoded_valid _ _ _ _ _ He) as [Hv Ht]. destruct He.
  destruct en_rs0 as (rs & raw & Hrs & Hen).
  destruct (rs_new_Ok _ _ _ Hrs) as (Hk0 & Hm0 & H256).
  destruct en_shards0 as (len & Hlen & Hf).
  unfold Decode.decode. apply validate_preamble_Ok in Hv as ->.
  rewrite en_num_data0, en_num_parity0, en_length0, en_hash0 in *.
  cbn [map_err mbind result_bind].
  rewrite !i32_as_usize_nonneg by lia. rewrite !N2Z.id.
  destruct ins as [|[i0 s0] ins]; [simpl in Hk; lia|].
  assert (length s0 = len) as Hs0.
  { inversion Hins as [|?? Hx]; subst. exact (Forall_lookup_1 _ _ _ _ Hf Hx). }
  destruct (reconstruct_codeword k m rs raw shards len ((i0, s0) :: ins))
    as (slots & slots' & Hfb & Hrec & Htk); try done.
  cbn [head mbind result_bind]. rewrite Hs0, Hfb. cbn [mbind result_bind].
  rewrite Hrs. cbn [map_err mbind result_bind].
  rewrite Hrec. cbn [map_err mbind result_bind].
  rewrite Htk, concat_slots_Some. cbn [mbind result_bind].
  assert (Z.to_N (Z.of_nat (length payload))
    = N.of_nat (length payload)) as -> by lia.
  assert (length payload ≤ length (concat (take (N.to_nat k) shards)))%nat.
  { rewrite <- en_payload0 at 1. rewrite length_take. lia. }
  rewrite decide_False by lia. rewrite Nat2N.id, en_payload0.
  by rewrite decide_False by auto.
Qed.
End laws.

(** * A concrete instance

    A 32-byte digest and the single-parity code with two data shards, which
    satisfy the laws; the examples of the development run on them. *)
Module XorCode.

Definition digest : Sha256 := λ bs, to_le_bytes 32 (1 + from_le_bytes bs).

Definition byte_xor (a b : byte) : byte :=
  byte_of_N (N.lxor (Byte.to_N a) (Byte.to_N b)).

Definition xor_bytes (a b : bytes) : bytes := zip_with byte_xor a b.

Definition xor_encode (shards : list bytes) : result bool (list bytes) :=
  match shards with
  | [a; b; c] =>
      if decide (a ≠ [] ∧ length a = length b) then Ok [a; b; xor_bytes a b]
      else Err true
  | _ => Err true
  end.

Definition xor_reconstruct (slots : list (option bytes))
    : result bool (list (option bytes)) :=
  match slots with
  | [Some a; Some b; c] => Ok [Some a; Some b; c]
  | [Some a; None; Some c] => Ok [Some a; Some (xor_bytes a c); Some c]
  | [None; Some b; Some c] => Ok [Some (xor_bytes c b); Some b; Some c]
  | _ => Err false
  end.

(** The error is [false] for too few shards and [true] for the rest. *)
Definition code : ReedSolomon := {|
  RsError := bool;
  RsError_display e := if e then "shape" else "too few shards";
  RsError_debug e := if e then "Shape" else "TooFewShards";
  TooFewShards := false;
  RsCode := unit;
  rs_new k m := if decide (k = 2 ∧ m = 1) then Ok () else Err true;
  rs_encode _ := xor_encode;
  rs_reconstruct_data _ := xor_reconstruct
|}.

Lemma digest_laws : @Sha256Laws digest.
Proof. intros bs. apply length_to_le_bytes. Qed.

Lemma lxor_byte a b :
  N.lxor (Byte.to_N a) (Byte.to_N b) `mod` 256 = N.lxor (Byte.to_N a) (Byte.to_N b).
Proof.
  change 256 with (2 ^ 8). apply N.bits_inj. intros i.
  destruct (decide (i < 8)) as [Hi|Hi].
  - by rewrite N.mod_pow2_bits_low.
  - rewrite N.mod_pow2_bits_high by lia. rewrite N.lxor_spec.
    assert (∀ c, N.testbit (Byte.to_N c) i = false) as Hc; [|by rewrite !Hc].
    intros c. pose proof (byte_to_N_lt c).
    rewrite <- (N.mod_small (Byte.to_N c) (2 ^ 8)) by done.
    apply N.mod_pow2_bits_high. lia.
Qed.

Lemma byte_xor_cancel a b : byte_xor a (byte_xor a b) = b.
Proof.
  unfold byte_xor. rewrite to_N_byte_of_N, lxor_byte.
  rewrite <- N.lxor_assoc, N.lxor_nilpotent, N.lxor_0_l. apply byte_of_N_to_N.
Qed.

Lemma byte_xor_comm a b : byte_xor a b = byte_xor b a.
Proof. unfold byte_xor. by rewrite N.lxor_comm. Qed.

Lemma xor_bytes_cancel a b : length a = length b → xor_bytes a (xor_bytes a b) = b.
Proof.
  revert b; induction a as [|x a IH]; intros [|y b] Hl; simplify_eq/=; [done|].
  by rewrite byte_xor_cancel, IH.
Qed.

Lemma xor_bytes_comm a b : xor_bytes a b = xor_bytes b a.
Proof.
  revert b; induction a as [|x a IH]; intros [|y b]; try done. simpl.
  by rewrite byte_xor_comm, IH.
Qed.

Lemma xor_bytes_cancel' a b :
  length a = length b → xor_bytes (xor_bytes a b) b = a.
Proof.
  intros. rewrite (xor_bytes_comm _ b), (xor_bytes_comm a b).
  by apply xor_bytes_cancel.
Qed.

Lemma xor_encode_Ok shards shards' :
  xor_encode shards = Ok shards' →
  ∃ a b c, shards = [a; b; c] ∧ length a = length b ∧ shards' = [a; b; xor_bytes a b].
Proof.
  destruct shards as [|a [|b [|c []]]]; try done. simpl.
  case_decide as Hab; [|done]. intros [= <-]. exists a, b, c. naive_solver.
Qed.

Lemma xor_reconstruct_Ok a b slots :
  length a = length b → length slots = 3%nat →
  (∀ i s, slots !! i = Some (Some s) → [a; b; xor_bytes a b] !! i = Some s) →
  2 ≤ N.of_nat (length (filter is_Some slots)) →
  ∃ slot, xor_reconstruct slots = Ok [Some a; Some b; slot].
Proof.
  intros Hab Hl Hs Hc.
  destruct slots as [|x [|y [|z []]]]; try done.
  pose proof (λ s, Hs 0%nat s) as H0. pose proof (λ s, Hs 1%nat s) as H1.
  pose proof (λ s, Hs 2%nat s) as H2. simpl in H0, H1, H2. clear Hs Hl.
  destruct x as [x|], y as [y|], z as [z|]; simpl in Hc; try lia;
    repeat match goal with
    | H : ∀ s, Some (Some ?x) = Some (Some s) → _ |- _ => specialize (H x eq_refl)
    end; simplify_eq; simpl; eauto.
  - rewrite xor_bytes_cancel by done. eauto.
  - rewrite xor_bytes_cancel' by done. eauto.
Qed.

Lemma code_laws : @ReedSolomonLaws code.
Proof.
  split; simpl.
  - intros k m rs. case_decide; [intros _; lia|done].
  - intros k m rs shards len Hk Hl Hlen Hf. case_decide as Hkm; [|done].
    destruct Hkm as [-> ->]. change (N.to_nat (2 + 1)) with 3%nat in Hl.
    destruct shards as [|a [|b [|c []]]]; try done. simpl.
    rewrite decide_True; [eauto|].
    inversion Hf as [|?? Ha Hf']; subst. inversion Hf' as [|?? Hb _]; subst.
    split; [intros ->; simpl in *; lia|congruence].
  - intros k m rs shards shards' len Hk He Hf. case_decide as Hkm; [|done].
    destruct Hkm as [-> ->].
    apply xor_encode_Ok in He as (a & b & c & -> & Hab & ->).
    inversion Hf as [|?? Ha Hf']; subst. inversion Hf' as [|?? Hb _]; subst.
    split; [done|]. split; [|done]. repeat constructor; [done|].
    unfold xor_bytes. rewrite length_zip_with. lia.
  - intros k m rs shards shards' slots Hk He Hl Hs Hc.
    case_decide as Hkm; [|done]. destruct Hkm as [-> ->].
    apply xor_encode_Ok in He as (a & b & c & -> & Hab & ->).
    destruct (xor_reconstruct_Ok a b slots Hab Hl Hs Hc) as [slot Hr].
    exists [Some a; Some b; slot]. split; [done|]. split; [done|].
    intros [|[|i]] Hi; [done|done|]. change (N.to_nat 2) with 2%nat in Hi. lia.
Qed.
#[export] Existing Instances digest digest_laws code code_laws.

(** A configuration for the code and a four-byte message. *)
Definition config : RsConfig := mkRsConfig 2 1 0 50 2 false.
Definition payload : bytes := [Byte.x01; Byte.x02; Byte.x03].
Definition encoding : Preamble * list bytes :=
  match Encode.encode payload config with
  | Some (Ok r) => r
  | _ => (mkPreamble 0 0 0 [] [], [])
  end.
Definition preamble : Preamble := fst encoding.
Definition shard (i : nat) : bytes := default [] (snd encoding !! i).
End XorCode.

Section decode_lemmas.
Context `{Sha256, ReedSolomon}.
Import VerifyLemmas.

(** What [decode] returns fits the preamble. *)
Lemma decode_Ok pre ins out :
  Decode.decode pre ins = Ok out →
  valid_preamble pre ∧ sha256_digest out = hash pre ∧
  N.of_nat (length out) = i32_as_usize (p_length pre).
Proof.
  unfold Decode.decode. intros Hd.
  destruct (Verify.validate_preamble pre) as [[]|] eqn:Hv; [|done].
  apply validate_preamble_Ok in Hv. cbn [map_err mbind result_bind] in Hd.
  destruct (head ins) as [[]|]; [|done]. cbn [mbind result_bind] in Hd.
  destruct (Decode.fill_buckets _ _ _ _) as [b|]; [|done]. cbn [mbind result_bind] in Hd.
  destruct (rs_new _ _) as [rs|]; [|done]. cbn [map_err mbind result_bind] in Hd.
  destruct (rs_reconstruct_data rs b) as [b'|]; [|done].
  cbn [map_err mbind result_bind] in Hd.
  destruct (Decode.concat_slots _) as [o|]; [|done]. cbn [mbind result_bind] in Hd.
  destruct (decide (N.of_nat (length o) < _)) as [|Hlen]; [done|].
  destruct (decide (sha256_digest _ ≠ hash pre)) as [|Hh]; [done|].
  injection Hd as <-. split; [done|]. split; [apply dec_stable, Hh|].
  rewrite length_take. lia.
Qed.

End decode_lemmas.

(** * Properties *)
Section properties.
Context `{Sha256, !Sha256Laws, ReedSolomon, !ReedSolomonLaws}.
Import EncodeLemmas VerifyLemmas DecodeLemmas.

(** C33: [encode], exactly.  An empty payload is reported.  A configuration with
    neither a chunk length nor data shards makes it panic.  Otherwise the chunk
    length, or else the number of shards, decides the shape; when the Reed-Solomon
    library refuses that shape its error is returned; a payload longer than
    [i32::MAX] overflows the preamble; and in every other case [encode] succeeds,
    with a valid preamble of that shape and of the payload's length and digest, as
    many shards of the chunk length as the shape has, data shards that start with
    the payload, and each shard verifying under the preamble. *)
Theorem encode_spec payload config :
  let n := N.of_nat (length payload) in
  let '(k, m, len) :=
    if decide (0 < chunk_len config)
    then (div_ceil n (chunk_len config), div_ceil n (chunk_len config), chunk_len config)
    else (data_shards config, parity_shards config, div_ceil n (data_shards config)) in
  if decide (payload = []) then Encode.encode payload config = Some (Err Encode.EmptyPayload)
  else if decide (chunk_len config = 0 ∧ data_shards config = 0)
  then Encode.encode payload config = None
  else match rs_new k m with
  | Err e => Encode.encode payload config = Some (Err (Encode.Rs e))
  | Ok _ =>
      if decide (I32_MAX < Z.of_nat (length payload))%Z
      then Encode.encode payload config = Some (Err Encode.ShardCountOverflow)
      else ∃ pre shards, Encode.encode payload config = Some (Ok (pre, shards)) ∧
        valid_preamble pre ∧ num_data pre = Z.of_N k ∧ num_parity pre = Z.of_N m ∧
        p_length pre = Z.of_nat (length payload) ∧ hash pre = sha256_digest payload ∧
        N.of_nat (length shards) = k + m ∧ Forall (λ s, N.of_nat (length s) = len) shards ∧
        take (length payload) (concat (take (N.to_nat k) shards)) = payload ∧
        ∀ i s, shards !! N.to_nat i = Some s → Verify.verify_chunk pre i s = Verdict.Accepted
  end.
Proof.
  cbv zeta. destruct (if decide (0 < chunk_len config) then _ else _) as [[k m] len] eqn:Hshape.
  destruct (decide (payload = [])) as [->|Hp]; [done|].
  destruct (decide (chunk_len config = 0 ∧ data_shards config = 0)) as [Hz|Hz].
  { unfold Encode.encode. rewrite decide_False by done.
    by rewrite (proj2 (resolve_shape_None _ config) Hz). }
  assert (Encode.resolve_shape (N.of_nat (length payload)) config = Some (k, m, len)) as Hr.
  { unfold Encode.resolve_shape. case_decide; [by rewrite Hshape|].
    rewrite decide_False by lia. by rewrite Hshape. }
  pose proof (encode_shaped payload config k m len Hp Hr) as Hs.
  destruct (rs_new k m); [|exact Hs]. case_decide; [exact Hs|].
  destruct Hs as (pre & shards & -> & He & Hlen). exists pre, shards. split; [done|].
  destruct (encoded_valid _ _ _ _ _ He) as [Hv _]. split; [exact Hv|].
  pose proof (λ i s, encoded_verify _ _ _ _ _ i s He) as Hver.
  destruct He. split_and!; try done. lia.
Qed.

(** C9: any [k] distinct shards of an encoded payload reconstruct it exactly:
    whatever subset of at least [num_data] shards arrives, in whatever order,
    [decode] returns the original payload. *)
Theorem decode_encode payload config pre shards (ins : list (N * bytes)) :
  payload ≠ [] →
  Encode.encode payload config = Some (Ok (pre, shards)) →
  NoDup ins.*1 → Forall (λ '(i, s), shards !! N.to_nat i = Some s) ins →
  (num_data pre ≤ Z.of_nat (length ins))%Z →
  Decode.decode pre ins = Ok payload.
Proof.
  intros Hp Henc Hnd Hins Hk. pose proof (encode_cases payload config Hp) as He.
  rewrite Henc in He. destruct He as (k & m & len & _ & He).
  eapply decode_codeword; [done..|]. rewrite (en_num_data _ _ _ _ _ He) in Hk. lia.
Qed.

(** C34: [decode] never returns a wrong message: what it returns has the length
    the preamble declares and the SHA-256 digest the preamble declares,
    whatever shards it was given and whatever the Reed-Solomon library did. *)
Theorem decode_integrity pre ins out :
  Decode.decode pre ins = Ok out →
  valid_preamble pre ∧ sha256_digest out = hash pre ∧
  N.of_nat (length out) = i32_as_usize (p_length pre).
Proof. apply decode_Ok. Qed.

(** C35: [validate_preamble] accepts exactly the preambles of the wire
    contract: counts and length non-negative, as many 32-byte hashes as shards,
    and a 32-byte message hash. *)
Theorem validate_preamble_spec p :
  Verify.validate_preamble p = Ok () ↔
  (0 ≤ num_data p)%Z ∧ (0 ≤ num_parity p)%Z ∧ (0 ≤ p_length p)%Z ∧
  (num_data p + num_parity p < 2 ^ 32)%Z ∧
  Z.of_nat (length (hashes p)) = (num_data p + num_parity p)%Z ∧
  Forall (λ h, length h = 32%nat) (hashes p) ∧ length (hash p) = 32%nat.
Proof.
  rewrite validate_preamble_Ok. split; [by intros []|].
  intros (? & ? & ? & ? & ? & ? & ?). by split.
Qed.

(** a chunk verifies exactly when its index is a shard of a valid preamble
    and its SHA-256 digest is the one the preamble commits to; everything else
    is [Invalid]. *)
Theorem verify_chunk_spec p idx data :
  valid_preamble p →
  Verify.verify_chunk p idx data =
  if decide (hashes p !! N.to_nat idx = Some (sha256_digest data))
  then Verdict.Accepted else Verdict.Invalid.
Proof.
  intros Hv. case_decide as Hh.
  - apply verify_chunk_Accepted. split_and!; [|apply length_sha256_digest|done].
    exists (shard_total p). split; [by apply valid_checked_total|].
    apply lookup_lt_Some in Hh. unfold shard_total. destruct Hv. lia.
  - destruct (verify_chunk_cases p idx data) as [Ha|]; [|done].
    by apply verify_chunk_Accepted in Ha as (_ & _ & ?).
Qed.
End properties.

(** * Witnesses *)
Section witnesses.
Import XorCode.

Lemma encode_spec_witness :
  ∃ pre shards, Encode.encode payload config = Some (Ok (pre, shards)) ∧
    valid_preamble pre ∧ num_data pre = 2%Z ∧ Forall (λ s, N.of_nat (length s) = 2) shards ∧
    take 3 (concat (take 2 shards)) = payload.
Proof.
  destruct (encode_spec payload config)
    as (pre & shards & He & Hv & Hk & _ & _ & _ & _ & Hlen & Hp & _).
  exists pre, shards. by split_and!.
Defined.

Lemma decode_encode_witness :
  Decode.decode preamble [(2, shard 2); (0, shard 0)] = Ok payload.
Proof.
  apply (decode_encode payload config preamble (snd encoding)).
  - done.
  - reflexivity.
  - apply (bool_decide_unpack _). vm_compute. exact I.
  - repeat constructor.
  - vm_compute. discriminate.
Defined.

Lemma decode_integrity_witness :
  Decode.decode preamble [(2, shard 2); (0, shard 0)] = Ok payload ∧
  valid_preamble preamble ∧ sha256_digest payload = hash preamble ∧
  N.of_nat (length payload) = i32_as_usize (p_length preamble).
Proof.
  split; [vm_compute; reflexivity|].
  apply (decode_integrity preamble [(2, shard 2); (0, shard 0)] payload).
  vm_compute. reflexivity.
Defined.

Lemma preamble_valid : valid_preamble preamble.
Proof. apply VerifyLemmas.validate_preamble_Ok. vm_compute. reflexivity. Qed.

Lemma verify_chunk_spec_witness :
  Verify.verify_chunk preamble 1 (shard 1) =
  if decide (hashes preamble !! N.to_nat 1 = Some (sha256_digest (shard 1)))
  then Verdict.Accepted else Verdict.Invalid.
Proof. apply (verify_chunk_spec preamble 1 (shard 1)), preamble_valid. Defined.
End witnesses.
