(* ===== verification/Planner.v ===== *)
(** The emit planner, [strategy/rs/planner.rs]: which shard to send to a peer
    next.  Shards are ordered by how often they have been allocated, ties are
    broken by a seeded Fibonacci hash, and relays allocate each shard at most
    [forward_multiplier] times.

    [u32] and [u64] values are [N]; [BTreeMap]s and [BTreeSet]s are [gmap]s and
    [gset]s, listed in key order where the code iterates over them; the
    [BinaryHeap] of [Reverse<EmitEntry>] is the ordered list of [Heap]. *)
From Stdlib Require Import NArith Lia.
From stdpp Require Import base gmap option sorting list.
From S2P Require Import Prelude Heap BitMap.

Open Scope N_scope.

(** [FIBONACCI]. *)
Definition FIBONACCI : N := 0x9E3779B97F4A7C15.

(** [PlannerMode]. *)
Inductive PlannerMode :=
  | Origin
  | Relay (forward_multiplier : N).

#[export] Instance PlannerMode_eq_dec : EqDecision PlannerMode.
Proof. solve_decision. Defined.

(** [EmitEntry] and its [Ord] instance. *)
Record EmitEntry := mkEntry {
  allocation : N;
  fib : N;
  idx : N
}.

#[export] Instance EmitEntry_eq_dec : EqDecision EmitEntry.
Proof. solve_decision. Defined.

Definition entry_cmp (a b : EmitEntry) : comparison :=
  match allocation a ?= allocation b with
  | Eq => match fib a ?= fib b with
          | Eq => idx a ?= idx b
          | c => c
          end
  | c => c
  end.

Definition entry_le (a b : EmitEntry) : bool :=
  match entry_cmp a b with Gt => false | _ => true end.

(** [PeerState] and its [Default] instance. *)
Record PeerState := mkPeerState {
  in_flight : gset N;
  optimistic_havelist : option BitMap
}.

Definition PeerState_default : PeerState := mkPeerState ∅ None.

(** [EmitPlanner]; the second map of [sent_count] is kept apart from the
    allocation counts, as in the code. *)
Record EmitPlanner := mkPlanner {
  mode : PlannerMode;
  num_shards : N;
  seed : N;
  heap : list EmitEntry;
  allocations : gmap N N;
  sent_counts : gmap N N;
  peers : gmap N PeerState
}.

Module EmitPlanner.

(** [fib_priority]. *)
Definition fib_priority (seed idx : N) : N :=
  let mixed := u64_mul (N.lxor seed idx) FIBONACCI in
  N.shiftr mixed 32 mod 2 ^ 32.

Definition push (e : EmitEntry) (h : list EmitEntry) : list EmitEntry :=
  heap_push entry_le e h.

(** [EmitPlanner::new]. *)
Definition new (num_shards seed : N) (mode : PlannerMode) : EmitPlanner :=
  let heap := foldl (λ h i, push (mkEntry 0 (fib_priority seed i) i) h) []
                (range num_shards) in
  mkPlanner mode num_shards seed heap ∅ ∅ ∅.

(** [self.peers.entry(peer).or_default()]. *)
Definition peer_state (p : EmitPlanner) (peer : N) : PeerState :=
  default PeerState_default (peers p !! peer).

Definition with_peer (p : EmitPlanner) (peer : N) (s : PeerState) : EmitPlanner :=
  mkPlanner (mode p) (num_shards p) (seed p) (heap p) (allocations p)
    (sent_counts p) (<[peer := s]> (peers p)).

(** [EmitPlanner::allocation_count] and [EmitPlanner::sent_count]. *)
Definition allocation_count (p : EmitPlanner) (idx : N) : N :=
  default 0 (allocations p !! idx).
Definition sent_count (p : EmitPlanner) (idx : N) : N :=
  default 0 (sent_counts p !! idx).

Definition cap (p : EmitPlanner) : option N :=
  match mode p with
  | Origin => None
  | Relay forward_multiplier => Some forward_multiplier
  end.

(** The [while let] loop of [allocate]: the entry chosen, the entries skipped
    in the order they were met, and the heap that is left. *)
Fixpoint scan (authoritative : N → N) (cap : option N) (havelist : option BitMap)
    (in_flight : gset N) (heap skipped : list EmitEntry)
    : option EmitEntry * list EmitEntry * list EmitEntry :=
  match heap with
  | [] => (None, skipped, [])
  | entry :: heap =>
      if decide (allocation entry ≠ authoritative (idx entry))
      then scan authoritative cap havelist in_flight heap skipped
      else if (match cap with
               | Some cap => bool_decide (cap ≤ allocation entry)
               | None => false
               end)
      then scan authoritative cap havelist in_flight heap (skipped ++ [entry])
      else if (match havelist with
               | Some b => BitMap.get b (idx entry)
               | None => false
               end)
      then scan authoritative cap havelist in_flight heap (skipped ++ [entry])
      else if decide (idx entry ∈ in_flight)
      then scan authoritative cap havelist in_flight heap (skipped ++ [entry])
      else (Some entry, skipped, heap)
  end.

(** [EmitPlanner::allocate]. *)
Definition allocate (p : EmitPlanner) (peer : N) : option N * EmitPlanner :=
  let s := peer_state p peer in
  let p := with_peer p peer s in
  let '(chosen, skipped, rest) :=
    scan (allocation_count p) (cap p) (optimistic_havelist s) (in_flight s)
      (heap p) [] in
  let heap := heap_push_all entry_le skipped rest in
  match chosen with
  | Some e =>
      let s' := mkPeerState ({[idx e]} ∪ in_flight s) (optimistic_havelist s) in
      (Some (idx e),
       mkPlanner (mode p) (num_shards p) (seed p)
         (push (mkEntry (u32_add (allocation e) 1) (fib e) (idx e)) heap)
         (<[idx e := u32_add (allocation_count p (idx e)) 1]> (allocations p))
         (sent_counts p) (<[peer := s']> (peers p)))
  | None =>
      (None, mkPlanner (mode p) (num_shards p) (seed p) heap (allocations p)
               (sent_counts p) (peers p))
  end.

(** [EmitPlanner::record_sent]. *)
Definition record_sent (p : EmitPlanner) (peer idx : N) : EmitPlanner :=
  let s := peer_state p peer in
  let b := default (BitMap.with_capacity (num_shards p)) (optimistic_havelist s) in
  let b := match BitMap.set b idx with Ok b => b | Err _ => b end in
  let s := mkPeerState (in_flight s ∖ {[idx]}) (Some b) in
  mkPlanner (mode p) (num_shards p) (seed p) (heap p) (allocations p)
    (<[idx := u32_add (sent_count p idx) 1]> (sent_counts p))
    (<[peer := s]> (peers p)).

(** [EmitPlanner::cancel_in_flight]. *)
Definition cancel_in_flight (p : EmitPlanner) (peer idx : N) : EmitPlanner :=
  let s := peer_state p peer in
  with_peer p peer (mkPeerState (in_flight s ∖ {[idx]}) (optimistic_havelist s)).

(** [EmitPlanner::refund_allocation]. *)
Definition refund_allocation (p : EmitPlanner) (idx : N) : EmitPlanner :=
  match allocations p !! idx with
  | Some count =>
      if decide (0 < count) then
        let new_alloc := count - 1 in
        mkPlanner (mode p) (num_shards p) (seed p)
          (push (mkEntry new_alloc (fib_priority (seed p) idx) idx) (heap p))
          (if decide (new_alloc = 0) then delete idx (allocations p)
           else <[idx := new_alloc]> (allocations p))
          (sent_counts p) (peers p)
      else p
  | None => p
  end.

(** [EmitPlanner::remove_peer]. *)
Definition remove_peer (p : EmitPlanner) (peer : N) : EmitPlanner :=
  match peers p !! peer with
  | Some state =>
      let p := mkPlanner (mode p) (num_shards p) (seed p) (heap p) (allocations p)
                 (sent_counts p) (delete peer (peers p)) in
      foldl refund_allocation p (bt_elements (in_flight state))
  | None => p
  end.

(** [EmitPlanner::set_peer_havelist]. *)
Definition set_peer_havelist (p : EmitPlanner) (peer : N) (b : BitMap) : EmitPlanner :=
  with_peer p peer (mkPeerState (in_flight (peer_state p peer)) (Some b)).

(** [EmitPlanner::peer_in_flight]. *)
Definition peer_in_flight (p : EmitPlanner) (peer : N) : list N :=
  match peers p !! peer with
  | Some s => bt_elements (in_flight s)
  | None => []
  end.

(** [EmitPlanner::peer_havelist]. *)
Definition peer_havelist (p : EmitPlanner) (peer : N) : option BitMap :=
  s ← peers p !! peer; optimistic_havelist s.

End EmitPlanner.

(** * Lemmas *)

Lemma entry_le_spec a b :
  entry_le a b ↔
  allocation a < allocation b ∨ allocation a = allocation b ∧
  (fib a < fib b ∨ fib a = fib b ∧ idx a ≤ idx b).
Proof.
  unfold entry_le, entry_cmp.
  destruct (N.compare_spec (allocation a) (allocation b));
    [destruct (N.compare_spec (fib a) (fib b));
      [destruct (N.compare_spec (idx a) (idx b))|..]|..];
    simpl; split; intros; try done; lia.
Qed.

Lemma entry_le_trans a b c : entry_le a b → entry_le b c → entry_le a c.
Proof. rewrite !entry_le_spec. lia. Qed.

Lemma entry_le_total a b : entry_le a b ∨ entry_le b a.
Proof. rewrite !entry_le_spec. lia. Qed.

Lemma entry_le_refl a : entry_le a a.
Proof. rewrite entry_le_spec. lia. Qed.

#[export] Hint Resolve entry_le_trans entry_le_total entry_le_refl : rust.

Module PlannerLemmas.
Import EmitPlanner.

(** The entry of the heap that [allocate] acts on for shard [i]. *)
Definition live_entry (p : EmitPlanner) (i : N) : EmitEntry :=
  mkEntry (allocation_count p i) (fib_priority (seed p) i) i.

(** Whether the loop of [allocate] skips a live entry. *)
Definition blocked (cap : option N) (havelist : option BitMap) (in_flight : gset N)
    (e : EmitEntry) : bool :=
  (match cap with Some cap => bool_decide (cap ≤ allocation e) | None => false end) ||
  (match havelist with Some b => BitMap.get b (idx e) | None => false end) ||
  bool_decide (idx e ∈ in_flight).

(** Whether shard [i] may be sent to [peer] now. *)
Definition eligible (p : EmitPlanner) (peer i : N) : Prop :=
  i < num_shards p ∧
  blocked (cap p) (optimistic_havelist (peer_state p peer))
    (in_flight (peer_state p peer)) (live_entry p i) = false.

(** The planner's invariant. *)
Record wf (p : EmitPlanner) : Prop := {
  wf_sorted : heap_sorted entry_le (heap p);
  wf_entries : ∀ e, e ∈ heap p →
    idx e < num_shards p ∧ fib e = fib_priority (seed p) (idx e);
  wf_live : ∀ i, i < num_shards p → live_entry p i ∈ heap p;
  wf_allocations : ∀ i, num_shards p ≤ i → allocations p !! i = None;
  wf_in_flight : ∀ peer i, i ∈ in_flight (peer_state p peer) → i < num_shards p;
  wf_cap : ∀ c, cap p = Some c → c < 2 ^ 32 ∧ ∀ i, allocation_count p i ≤ c
}.

Lemma push_sorted e h : heap_sorted entry_le h → heap_sorted entry_le (push e h).
Proof. apply heap_push_sorted; eauto with rust. Qed.

Lemma elem_of_push e e' h : e' ∈ push e h ↔ e' = e ∨ e' ∈ h.
Proof. apply elem_of_heap_push. Qed.

(** ** The loop of [allocate] *)

Lemma scan_cons auth cap hl fl e h skipped :
  scan auth cap hl fl (e :: h) skipped =
  if decide (allocation e ≠ auth (idx e)) then scan auth cap hl fl h skipped
  else if blocked cap hl fl e then scan auth cap hl fl h (skipped ++ [e])
  else (Some e, skipped, h).
Proof.
  cbn [scan]. unfold blocked. destruct (decide (allocation e ≠ auth (idx e))); [done|].
  destruct (match cap with Some cap => bool_decide (cap ≤ allocation e) | None => false end);
    [done|].
  destruct (match hl with Some b => BitMap.get b (idx e) | None => false end); [done|].
  simpl. destruct (decide (idx e ∈ fl)); [rewrite bool_decide_true|rewrite bool_decide_false];
    done.
Qed.

Lemma scan_spec auth cap hl fl h skipped chosen skipped' rest :
  scan auth cap hl fl h skipped = (chosen, skipped', rest) →
  ∃ h1, h = h1 ++ match chosen with Some e => e :: rest | None => [] end ∧
    (chosen = None → rest = []) ∧
    skipped' = skipped ++ filter (λ e, allocation e = auth (idx e)) h1 ∧
    (∀ e, e ∈ h1 → allocation e = auth (idx e) → blocked cap hl fl e = true) ∧
    (∀ e, chosen = Some e → allocation e = auth (idx e) ∧ blocked cap hl fl e = false).
Proof.
  revert skipped; induction h as [|e h IH]; intros skipped.
  { simpl. intros [= <- <- <-]. exists []. split_and!; try done.
    - by rewrite filter_nil, app_nil_r.
    - intros e He. by apply elem_of_nil in He. }
  rewrite scan_cons. destruct (decide (allocation e ≠ auth (idx e))) as [Hst|Hlv];
    [|apply dec_stable in Hlv; destruct (blocked cap hl fl e) eqn:Hb].
  - intros (h1 & -> & Hr & -> & Hbl & Hc)%IH. exists (e :: h1).
    rewrite filter_cons_False by done. split_and!; try done.
    intros e' [->|He']%elem_of_cons ?; [done|auto].
  - intros (h1 & -> & Hr & -> & Hbl & Hc)%IH. exists (e :: h1).
    rewrite filter_cons_True, <- app_assoc by done. split_and!; try done.
    intros e' [->|He']%elem_of_cons ?; [done|auto].
  - intros [= <- <- <-]. exists []. rewrite filter_nil, app_nil_r. split_and!; try done.
    + intros e' He'. by apply elem_of_nil in He'.
    + by intros e' [= <-].
Qed.

(** ** Observing the state after an update *)

Lemma peer_state_insert p m n sd h al sc ps peer s q :
  ps = <[peer := s]> (peers p) →
  peer_state (mkPlanner m n sd h al sc ps) q =
  if decide (q = peer) then s else peer_state p q.
Proof.
  intros ->. unfold peer_state. simpl. case_decide as Hq; [subst q|].
  - by rewrite lookup_insert_eq.
  - by rewrite lookup_insert_ne.
Qed.

Lemma with_peer_self p peer q :
  peer_state (with_peer p peer (peer_state p peer)) q = peer_state p q.
Proof.
  unfold with_peer. rewrite (peer_state_insert p _ _ _ _ _ _ _ peer (peer_state p peer)) by done.
  case_decide; congruence.
Qed.

Lemma allocation_count_insert p m n sd h sc ps i c j :
  allocation_count (mkPlanner m n sd h (<[i := c]> (allocations p)) sc ps) j =
  if decide (j = i) then c else allocation_count p j.
Proof.
  unfold allocation_count. simpl. case_decide as Hj; [subst j|].
  - by rewrite lookup_insert_eq.
  - by rewrite lookup_insert_ne.
Qed.

(** The heap after the skipped entries are pushed back keeps every live entry
    but the chosen one, and gains none. *)
Lemma restore_elem p cap hl fl chosen skipped rest e :
  scan (allocation_count p) cap hl fl (heap p) [] = (chosen, skipped, rest) →
  (e ∈ heap_push_all entry_le skipped rest → e ∈ heap p) ∧
  (e ∈ heap p → allocation e = allocation_count p (idx e) → chosen ≠ Some e →
   e ∈ heap_push_all entry_le skipped rest).
Proof.
  intros (h1 & Hh & Hr & -> & _ & _)%scan_spec.
  rewrite elem_of_heap_push_all, app_nil_l, list_elem_of_filter, Hh, elem_of_app.
  destruct chosen as [c|].
  - rewrite elem_of_cons. naive_solver.
  - rewrite (Hr eq_refl). split; [intros [[]|[]%elem_of_nil]; auto|].
    intros [|[]%elem_of_nil]; auto.
Qed.

Lemma restore_sorted p cap hl fl chosen skipped rest :
  heap_sorted entry_le (heap p) →
  scan (allocation_count p) cap hl fl (heap p) [] = (chosen, skipped, rest) →
  heap_sorted entry_le (heap_push_all entry_le skipped rest).
Proof.
  intros Hs (h1 & Hh & Hr & _)%scan_spec.
  apply heap_push_all_sorted; [eauto with rust..|].
  rewrite Hh in Hs. destruct chosen; [|by rewrite Hr by done; constructor].
  unfold heap_sorted in *. apply StronglySorted_app in Hs as (_ & _ & Hs).
  by inversion Hs.
Qed.

(** The scan returns the least live entry that is not blocked. *)
Lemma scan_least p cap hl fl chosen skipped rest :
  wf p →
  scan (allocation_count p) cap hl fl (heap p) [] = (chosen, skipped, rest) →
  match chosen with
  | Some e => e ∈ heap p ∧ e = live_entry p (idx e) ∧ blocked cap hl fl e = false ∧
      ∀ j, j < num_shards p → blocked cap hl fl (live_entry p j) = false →
        entry_le e (live_entry p j)
  | None => ∀ j, j < num_shards p → blocked cap hl fl (live_entry p j) = true
  end.
Proof.
  intros Hwf (h1 & Hh & Hr & _ & Hbl & Hc)%scan_spec.
  assert (∀ j, j < num_shards p → live_entry p j ∈ h1 → blocked cap hl fl (live_entry p j) = true)
    as Hb by (intros j Hj Hin; by apply Hbl).
  destruct chosen as [e|].
  - destruct (Hc e eq_refl) as [Hlv He].
    assert (e ∈ heap p) as Hin by (rewrite Hh; set_solver).
    destruct (wf_entries p Hwf e Hin) as [_ Hf].
    split; [done|]. split; [|split; [done|]].
    { unfold live_entry. rewrite <- Hlv, <- Hf. by destruct e. }
    intros j Hj Hjb. pose proof (wf_live p Hwf j Hj) as Hjin.
    rewrite Hh in Hjin. apply elem_of_app in Hjin as [Hjin|Hjin].
    { rewrite (Hb j Hj Hjin) in Hjb. done. }
    apply elem_of_cons in Hjin as [->|Hjin]; [apply entry_le_refl|].
    pose proof (wf_sorted p Hwf) as Hs. rewrite Hh in Hs.
    apply StronglySorted_app in Hs as (_ & _ & Hs). inversion Hs as [|?? _ Hall]; subst.
    by eapply Forall_forall in Hall.
  - intros j Hj. apply Hb; [done|]. pose proof (wf_live p Hwf j Hj) as Hjin.
    rewrite Hh, app_nil_r in Hjin. done.
Qed.

(** What no operation changes. *)
Definition same_shape (p p' : EmitPlanner) : Prop :=
  mode p' = mode p ∧ num_shards p' = num_shards p ∧ seed p' = seed p.

Lemma same_shape_cap p p' : same_shape p p' → cap p' = cap p.
Proof. unfold cap. by intros (-> & _). Qed.

Lemma blocked_cap c cap hl fl e :
  cap = Some c → blocked cap hl fl e = false → allocation e < c.
Proof.
  intros ->. unfold blocked. case_bool_decide; [done|]. lia.
Qed.

Lemma new_heap sd (l : list N) h e :
  e ∈ foldl (λ h i, push (mkEntry 0 (fib_priority sd i) i) h) h l ↔
  e ∈ h ∨ ∃ i, i ∈ l ∧ e = mkEntry 0 (fib_priority sd i) i.
Proof.
  revert h; induction l as [|i l IH]; intros h; simpl.
  { split; [auto|]. intros [|(? & []%elem_of_nil & _)]; done. }
  rewrite IH, elem_of_push. setoid_rewrite elem_of_cons. naive_solver.
Qed.

Lemma new_heap_sorted sd (l : list N) h :
  heap_sorted entry_le h →
  heap_sorted entry_le (foldl (λ h i, push (mkEntry 0 (fib_priority sd i) i) h) h l).
Proof.
  revert h; induction l as [|i l IH]; intros h Hh; simpl; [done|].
  by apply IH, push_sorted.
Qed.

Lemma new_wf n sd m :
  (∀ c, m = Relay c → c < 2 ^ 32) → wf (new n sd m).
Proof.
  intros Hm. unfold new. split; simpl.
  - apply new_heap_sorted. constructor.
  - intros e [[]%elem_of_nil|(i & Hi%elem_of_range & ->)]%new_heap. done.
  - intros i Hi. apply new_heap. right. exists i. by rewrite elem_of_range.
  - done.
  - intros peer i. unfold peer_state. simpl. rewrite lookup_empty. simpl. set_solver.
  - intros c Hc. unfold cap in Hc. simpl in Hc. destruct m; simplify_eq.
    split; [by apply Hm|]. intros i. unfold allocation_count. simpl. rewrite lookup_empty. simpl. lia.
Qed.

Lemma allocate_Some p peer i p' :
  wf p → allocate p peer = (Some i, p') →
  wf p' ∧ same_shape p p' ∧ sent_counts p' = sent_counts p ∧
  eligible p peer i ∧
  (∀ j, eligible p peer j → entry_le (live_entry p i) (live_entry p j)) ∧
  (∀ j, allocation_count p' j =
        if decide (j = i) then u32_add (allocation_count p i) 1
        else allocation_count p j) ∧
  (∀ q, peer_state p' q =
        if decide (q = peer)
        then mkPeerState ({[i]} ∪ in_flight (peer_state p peer))
               (optimistic_havelist (peer_state p peer))
        else peer_state p q).
Proof.
  intros Hwf. unfold allocate.
  set (s := peer_state p peer). set (p0 := with_peer p peer s).
  destruct (scan _ _ _ _ _ []) as [[[e|] skipped] rest] eqn:Hscan; [|done].
  intros [= <- <-].
  change (allocation_count p0) with (allocation_count p) in *.
  change (heap p0) with (heap p) in *. change (cap p0) with (cap p) in *.
  destruct (scan_least p _ _ _ _ _ _ Hwf Hscan) as (Hin & He & Hbl & Hleast).
  destruct (wf_entries p Hwf e Hin) as [Hi Hf].
  match goal with |- wf ?q ∧ _ => set (p' := q) end.
  assert (∀ j, allocation_count p' j =
    if decide (j = idx e) then u32_add (allocation_count p (idx e)) 1
    else allocation_count p j) as Hcount.
  { intros j. exact (allocation_count_insert p0 _ _ _ _ _ _ _ _ j). }
  assert (∀ q, peer_state p' q =
    if decide (q = peer) then mkPeerState ({[idx e]} ∪ in_flight s) (optimistic_havelist s)
    else peer_state p q) as Hpeer.
  { intros q. rewrite <- (with_peer_self p peer q).
    exact (peer_state_insert p0 _ _ _ _ _ _ _ peer _ q eq_refl). }
  split; [|split; [done|]; split; [done|]; split; [by rewrite He in Hbl|];
           split; [|by split]].
  2: { intros j [Hj Hjb]. rewrite <- He. by apply Hleast. }
  split.
  - by eapply push_sorted, restore_sorted, Hscan; apply Hwf.
  - intros e' [->|He']%elem_of_push; [done|].
    eapply restore_elem in He'; [|done]. by apply (wf_entries p Hwf).
  - intros j Hj. apply elem_of_push. unfold live_entry. rewrite Hcount.
    case_decide as Hje; [subst j; left|right].
    + f_equal; [by rewrite He|by rewrite Hf].
    + apply (restore_elem p _ _ _ _ _ _ _ Hscan); [by apply (wf_live p Hwf)|done|].
      intros [= ->]. done.
  - intros j Hj. simpl. rewrite lookup_insert_ne; [by apply (wf_allocations p Hwf)|].
    simpl in Hj. intros <-. simpl in Hj. lia.
  - intros q j. rewrite Hpeer. simpl. case_decide as Hq; simpl.
    + rewrite elem_of_union, elem_of_singleton. intros [->|Hj]; [done|].
      by apply (wf_in_flight p Hwf peer).
    + apply (wf_in_flight p Hwf).
  - intros c Hc. destruct (wf_cap p Hwf c Hc) as [Hc32 Hle]. split; [done|].
    intros j. rewrite Hcount. case_decide; [|done].
    pose proof (blocked_cap c _ _ _ _ Hc Hbl) as Hlt. rewrite He in Hlt. simpl in Hlt.
    rewrite u32_add_small by lia. lia.
Qed.

Lemma allocate_None p peer p' :
  wf p → allocate p peer = (None, p') →
  wf p' ∧ same_shape p p' ∧ sent_counts p' = sent_counts p ∧
  allocations p' = allocations p ∧ (∀ j, ¬ eligible p peer j) ∧
  (∀ q, peer_state p' q = peer_state p q).
Proof.
  intros Hwf. unfold allocate.
  set (s := peer_state p peer). set (p0 := with_peer p peer s).
  destruct (scan _ _ _ _ _ []) as [[[e|] skipped] rest] eqn:Hscan; [done|].
  intros [= <-].
  change (allocation_count p0) with (allocation_count p) in *.
  change (heap p0) with (heap p) in *. change (cap p0) with (cap p) in *.
  pose proof (scan_least p _ _ _ _ _ _ Hwf Hscan) as Hall.
  assert (∀ q, peer_state p0 q = peer_state p q) as Hpeer by apply with_peer_self.
  split; [|split; [done|]; split; [done|]; split; [done|]; split; [|exact Hpeer]].
  2: { intros j [Hj Hjb]. fold s in Hjb. by rewrite Hall in Hjb. }
  split.
  - eapply restore_sorted, Hscan. apply Hwf.
  - intros e He. apply (restore_elem p _ _ _ _ _ _ _ Hscan) in He. by apply (wf_entries p Hwf).
  - intros j Hj. apply (restore_elem p _ _ _ _ _ _ _ Hscan); [by apply (wf_live p Hwf)|done..].
  - apply (wf_allocations p Hwf).
  - intros q j Hj. apply (wf_in_flight p Hwf q). rewrite <- Hpeer. exact Hj.
  - apply (wf_cap p Hwf).
Qed.

(** ** The other operations *)

(** Replacing the in-flight set of one peer by a smaller one, or its havelist,
    keeps the invariant. *)
Lemma with_peer_wf p peer s sc :
  wf p → in_flight s ⊆ in_flight (peer_state p peer) →
  wf (mkPlanner (mode p) (num_shards p) (seed p) (heap p) (allocations p) sc
        (<[peer := s]> (peers p))).
Proof.
  intros Hwf Hs. split.
  - apply (wf_sorted p Hwf).
  - apply (wf_entries p Hwf).
  - apply (wf_live p Hwf).
  - apply (wf_allocations p Hwf).
  - intros q j. rewrite (peer_state_insert p _ _ _ _ _ _ _ peer s) by done.
    case_decide; intros Hj; [|by apply (wf_in_flight p Hwf q)].
    apply (wf_in_flight p Hwf peer). by apply Hs.
  - apply (wf_cap p Hwf).
Qed.

Lemma record_sent_spec p peer i :
  wf p →
  wf (record_sent p peer i) ∧ same_shape p (record_sent p peer i) ∧
  allocations (record_sent p peer i) = allocations p ∧
  (∀ j, sent_count (record_sent p peer i) j =
        if decide (j = i) then u32_add (sent_count p i) 1 else sent_count p j) ∧
  (∀ q, in_flight (peer_state (record_sent p peer i) q) =
        if decide (q = peer) then in_flight (peer_state p q) ∖ {[i]}
        else in_flight (peer_state p q)).
Proof.
  intros Hwf. split; [|split; [done|split; [done|split]]].
  - apply with_peer_wf; [done|]. simpl. set_solver.
  - intros j. unfold record_sent, sent_count. simpl. case_decide as Hj.
    + subst j. by rewrite lookup_insert_eq.
    + by rewrite lookup_insert_ne.
  - intros q. unfold record_sent. erewrite peer_state_insert by done.
    case_decide; [by subst q|done].
Qed.

Lemma cancel_in_flight_spec p peer i :
  wf p →
  wf (cancel_in_flight p peer i) ∧ same_shape p (cancel_in_flight p peer i) ∧
  allocations (cancel_in_flight p peer i) = allocations p ∧
  sent_counts (cancel_in_flight p peer i) = sent_counts p ∧
  (∀ q, in_flight (peer_state (cancel_in_flight p peer i) q) =
        if decide (q = peer) then in_flight (peer_state p q) ∖ {[i]}
        else in_flight (peer_state p q)).
Proof.
  intros Hwf. split; [|split; [done|split; [done|split; [done|]]]].
  - apply with_peer_wf; [done|]. simpl. set_solver.
  - intros q. unfold cancel_in_flight, with_peer. erewrite peer_state_insert by done.
    case_decide; [by subst q|done].
Qed.

Lemma set_peer_havelist_spec p peer b :
  wf p →
  wf (set_peer_havelist p peer b) ∧ same_shape p (set_peer_havelist p peer b) ∧
  allocations (set_peer_havelist p peer b) = allocations p ∧
  sent_counts (set_peer_havelist p peer b) = sent_counts p ∧
  peer_havelist (set_peer_havelist p peer b) peer = Some b ∧
  (∀ q, in_flight (peer_state (set_peer_havelist p peer b) q) =
        in_flight (peer_state p q)).
Proof.
  intros Hwf. split; [|split; [done|split; [done|split; [done|split]]]].
  - apply with_peer_wf; [done|]. done.
  - unfold peer_havelist, set_peer_havelist, with_peer. simpl.
    by rewrite lookup_insert_eq.
  - intros q. unfold set_peer_havelist, with_peer. erewrite peer_state_insert by done.
    case_decide; [by subst q|done].
Qed.

Lemma refund_allocation_spec p i :
  wf p →
  wf (refund_allocation p i) ∧ same_shape p (refund_allocation p i) ∧
  peers (refund_allocation p i) = peers p ∧
  sent_counts (refund_allocation p i) = sent_counts p ∧
  (∀ j, allocation_count (refund_allocation p i) j =
        if decide (j = i) then allocation_count p i - 1 else allocation_count p j).
Proof.
  intros Hwf. unfold refund_allocation.
  destruct (allocations p !! i) as [c|] eqn:Hc; [destruct (decide (0 < c)) as [Hpos|Hz]|].
  2-3: split; [done|]; split; [done|]; split; [done|]; split; [done|]; intros j;
       unfold allocation_count; case_decide; subst; rewrite ?Hc; simpl; lia.
  assert (i < num_shards p) as Hi.
  { destruct (decide (i < num_shards p)); [done|].
    rewrite (wf_allocations p Hwf) in Hc by lia. done. }
  match goal with |- wf ?q ∧ _ => set (p' := q) end.
  assert (∀ j, allocation_count p' j =
    if decide (j = i) then c - 1 else allocation_count p j) as Hcount.
  { intros j. unfold p', allocation_count. simpl.
    destruct (decide (c - 1 = 0)) as [Hc1|], (decide (j = i)) as [->|].
    - rewrite lookup_delete_eq. simpl. lia.
    - by rewrite lookup_delete_ne.
    - by rewrite lookup_insert_eq.
    - by rewrite lookup_insert_ne. }
  assert (allocation_count p i = c) as Hci by (unfold allocation_count; by rewrite Hc).
  split; [|split; [done|]; split; [done|]; split; [done|]; by rewrite Hci].
  split.
  - apply push_sorted, Hwf.
  - intros e [->|He]%elem_of_push; [done|]. by apply (wf_entries p Hwf).
  - intros j Hj. apply elem_of_push. unfold live_entry. rewrite Hcount.
    case_decide; [subst j; by left|right]. by apply (wf_live p Hwf).
  - intros j Hj. simpl in *. pose proof (wf_allocations p Hwf j Hj) as Hn.
    assert (j ≠ i) by (intros ->; lia).
    case_decide; [rewrite lookup_delete_ne|rewrite lookup_insert_ne]; done.
  - apply (wf_in_flight p Hwf).
  - intros d Hd. destruct (wf_cap p Hwf d Hd) as [? Hle]. split; [done|].
    intros j. rewrite Hcount. pose proof (Hle j). pose proof (Hle i).
    case_decide; lia.
Qed.

Lemma refund_all_spec l p :
  wf p → NoDup l →
  wf (foldl refund_allocation p l) ∧ same_shape p (foldl refund_allocation p l) ∧
  peers (foldl refund_allocation p l) = peers p ∧
  sent_counts (foldl refund_allocation p l) = sent_counts p ∧
  (∀ j, allocation_count (foldl refund_allocation p l) j =
        allocation_count p j - if decide (j ∈ l) then 1 else 0).
Proof.
  revert p; induction l as [|i l IH]; intros p Hwf Hnd; cbn [foldl].
  { split; [done|]. split; [done|]. split; [done|]. split; [done|]. intros j.
    destruct (decide (j ∈ [])); [set_solver|lia]. }
  apply NoDup_cons in Hnd as [Hi Hnd].
  destruct (refund_allocation_spec p i Hwf) as (Hwf1 & (? & ? & ?) & Hps & Hsc & Hc).
  destruct (IH _ Hwf1 Hnd) as (Hwf2 & (? & ? & ?) & Hps2 & Hsc2 & Hc2).
  split; [done|]. split; [split_and!; congruence|]. split; [congruence|].
  split; [congruence|]. intros j. rewrite Hc2, Hc.
  destruct (decide (j = i)) as [->|Hji].
  - assert (i ∈ i :: l) by left. do 2 case_decide; done || lia.
  - assert (j ∈ i :: l ↔ j ∈ l) by (rewrite elem_of_cons; tauto).
    do 2 case_decide; tauto || lia.
Qed.

Lemma remove_peer_spec p peer :
  wf p →
  wf (remove_peer p peer) ∧ same_shape p (remove_peer p peer) ∧
  sent_counts (remove_peer p peer) = sent_counts p ∧
  (∀ j, allocation_count (remove_peer p peer) j =
        allocation_count p j -
        if decide (j ∈ in_flight (peer_state p peer)) then 1 else 0) ∧
  (∀ q, peer_state (remove_peer p peer) q =
        if decide (q = peer) then PeerState_default else peer_state p q).
Proof.
  intros Hwf. unfold remove_peer. destruct (peers p !! peer) as [s|] eqn:Hs.
  - match goal with |- wf (foldl _ ?q _) ∧ _ => set (p0 := q) end.
    assert (∀ q, peer_state p0 q =
      if decide (q = peer) then PeerState_default else peer_state p q) as Hp0.
    { intros q. unfold peer_state. simpl. case_decide; [subst q|].
      - by rewrite lookup_delete_eq.
      - by rewrite lookup_delete_ne. }
    assert (wf p0) as Hwf0.
    { split; try apply Hwf. intros q j. rewrite Hp0.
      case_decide; [simpl; set_solver|]. by apply (wf_in_flight p Hwf q). }
    destruct (refund_all_spec (bt_elements (in_flight s)) p0 Hwf0 (NoDup_bt_elements _))
      as (? & ? & Hps & Hsc & Hc).
    assert (peer_state p peer = s) as -> by (unfold peer_state; by rewrite Hs).
    split; [done|]. split; [done|]. split; [done|]. split.
    + intros j. rewrite Hc. change (allocation_count p0 j) with (allocation_count p j).
      pose proof (elem_of_bt_elements (in_flight s) j).
      do 2 case_decide; tauto || lia.
    + intros q. rewrite <- Hp0. unfold peer_state. by rewrite Hps.
  - assert (peer_state p peer = PeerState_default) as Hd
      by (unfold peer_state; by rewrite Hs).
    split; [done|]. split; [done|]. split; [done|]. split.
    + intros j. rewrite Hd. rewrite decide_False by (simpl; set_solver). lia.
    + intros q. case_decide; by subst.
Qed.
End PlannerLemmas.

(** * Traces of planner operations *)
Module PlannerTrace.
Import EmitPlanner PlannerLemmas.

(** The operations of the planner that change its state. *)
Inductive op :=
  | Allocate (peer : N)
  | RecordSent (peer idx : N)
  | CancelInFlight (peer idx : N)
  | RefundAllocation (idx : N)
  | RemovePeer (peer : N)
  | SetPeerHavelist (peer : N) (b : BitMap).

Definition step (p : EmitPlanner) (o : op) : EmitPlanner :=
  match o with
  | Allocate peer => snd (allocate p peer)
  | RecordSent peer idx => record_sent p peer idx
  | CancelInFlight peer idx => cancel_in_flight p peer idx
  | RefundAllocation idx => refund_allocation p idx
  | RemovePeer peer => remove_peer p peer
  | SetPeerHavelist peer b => set_peer_havelist p peer b
  end.

Definition run (p : EmitPlanner) (os : list op) : EmitPlanner := foldl step p os.

Lemma step_wf p o : wf p → wf (step p o) ∧ same_shape p (step p o).
Proof.
  intros Hwf. destruct o as [peer|peer j|peer j|j|peer|peer b]; simpl.
  - destruct (allocate p peer) as [[i|] p'] eqn:E.
    + by apply allocate_Some in E as (? & ? & _).
    + by apply allocate_None in E as (? & ? & _).
  - by destruct (record_sent_spec p peer j Hwf) as (? & ? & _).
  - by destruct (cancel_in_flight_spec p peer j Hwf) as (? & ? & _).
  - by destruct (refund_allocation_spec p j Hwf) as (? & ? & _).
  - by destruct (remove_peer_spec p peer Hwf) as (? & ? & _).
  - by destruct (set_peer_havelist_spec p peer b Hwf) as (? & ? & _).
Qed.

Lemma run_wf p os : wf p → wf (run p os) ∧ same_shape p (run p os).
Proof.
  revert p; induction os as [|o os IH]; intros p Hwf; [done|].
  destruct (step_wf p o Hwf) as (Hwf' & ? & ? & ?).
  destruct (IH _ Hwf') as (? & ? & ? & ?). split; [done|].
  unfold same_shape. simpl. split_and!; congruence.
Qed.

(** ** Serving one peer

    The origin's loop seen from the planner: allocate a shard for the peer,
    report it sent, until nothing is left to allocate. *)
Fixpoint serve (fuel : nat) (p : EmitPlanner) (peer : N)
    : list N * option EmitPlanner :=
  match fuel with
  | O => ([], None)
  | S fuel =>
      match allocate p peer with
      | (None, p) => ([], Some p)
      | (Some i, p) =>
          let '(l, r) := serve fuel (record_sent p peer i) peer in (i :: l, r)
      end
  end.

(** What [peer] is believed to hold. *)
Definition believed (p : EmitPlanner) (peer i : N) : bool :=
  match optimistic_havelist (peer_state p peer) with
  | Some b => BitMap.get b i
  | None => false
  end.

Definition havelist_wf (p : EmitPlanner) (peer : N) : Prop :=
  ∀ b, optimistic_havelist (peer_state p peer) = Some b →
    BitMap.wf b ∧ bm_n b = num_shards p.

Lemma eligible_origin p peer i :
  mode p = Origin → in_flight (peer_state p peer) = ∅ →
  eligible p peer i ↔ i < num_shards p ∧ believed p peer i = false.
Proof.
  intros Hm Hf. unfold eligible, blocked, believed, cap. rewrite Hm, Hf.
  rewrite (bool_decide_false (_ ∈ ∅)) by set_solver.
  rewrite orb_false_r. done.
Qed.

Lemma believed_record_sent p peer i j :
  i < num_shards p → havelist_wf p peer →
  havelist_wf (record_sent p peer i) peer ∧
  believed (record_sent p peer i) peer j = bool_decide (j = i) || believed p peer j.
Proof.
  intros Hi Hw. unfold havelist_wf, believed, record_sent.
  rewrite (peer_state_insert p _ _ _ _ _ _ _ peer _ _ eq_refl).
  rewrite decide_True by done. simpl.
  set (b := default (BitMap.with_capacity (num_shards p))
              (optimistic_havelist (peer_state p peer))).
  assert (BitMap.wf b ∧ bm_n b = num_shards p ∧
    ∀ j, BitMap.get b j = match optimistic_havelist (peer_state p peer) with
                          | Some b => BitMap.get b j | None => false end) as (Hb & Hn & Hg).
  { unfold b. destruct (optimistic_havelist _) eqn:E; simpl.
    - destruct (Hw _ E). done.
    - split; [apply BitMap.with_capacity_wf|]. split; [done|].
      intros. apply BitMap.get_with_capacity. }
  destruct (BitMap.set b i) as [b'|e] eqn:Hs.
  - apply BitMap.set_Ok in Hs as (? & ? & ? & Hset); [|done].
    split; [intros ? [= <-]; split; congruence|]. by rewrite Hset, Hg.
  - unfold BitMap.set in Hs. case_decide; [lia|done].
Qed.

(** The invariant of [serve]: each round sends a shard not believed present
    and marks it present. *)
Lemma serve_spec fuel p peer :
  wf p → mode p = Origin → in_flight (peer_state p peer) = ∅ →
  havelist_wf p peer →
  (countb (λ i, negb (believed p peer (N.of_nat i))) (N.to_nat (num_shards p)) < fuel)%nat →
  ∃ l p', serve fuel p peer = (l, Some p') ∧ NoDup l ∧
    ∀ i, i ∈ l ↔ i < num_shards p ∧ believed p peer i = false.
Proof.
  revert p; induction fuel as [|fuel IH]; intros p Hwf Hm Hf Hh Hfuel; [lia|]. simpl.
  destruct (allocate p peer) as [[i|] p1] eqn:Ha.
  - apply allocate_Some in Ha as (Hwf1 & (Hm1 & Hn1 & Hs1) & _ & Hel & _ & _ & Hps); [|done].
    apply eligible_origin in Hel as [Hi Hbi]; [|done..].
    pose proof (Hps peer) as Hp1. rewrite decide_True in Hp1 by done.
    assert (∀ j, believed p1 peer j = believed p peer j) as Hb1.
    { intros j. unfold believed. by rewrite Hp1. }
    assert (havelist_wf p1 peer) as Hh1.
    { unfold havelist_wf. rewrite Hp1, Hn1. exact Hh. }
    destruct (record_sent_spec p1 peer i Hwf1) as (Hwf2 & (Hm2 & Hn2 & Hs2) & _ & _ & Hf2).
    pose proof (λ j, believed_record_sent p1 peer i j ltac:(lia) Hh1) as Hb2.
    destruct (IH (record_sent p1 peer i)) as (l & p' & -> & Hnd & Hl).
    + done.
    + congruence.
    + rewrite Hf2, decide_True, Hp1, Hf by done. simpl. set_solver.
    + apply (Hb2 0).
    + rewrite Hn2, Hn1. apply Nat.succ_lt_mono. eapply Nat.le_lt_trans; [|exact Hfuel].
      erewrite <- (countb_set _ (λ i, negb (believed p peer (N.of_nat i)))
                     _ (N.to_nat i)); [done|lia|..].
      * destruct (Hb2 (N.of_nat (N.to_nat i))) as [_ ->].
        rewrite bool_decide_true by lia. done.
      * by rewrite N2Nat.id, Hbi.
      * intros j Hj. destruct (Hb2 (N.of_nat j)) as [_ ->].
        rewrite bool_decide_false by lia. by rewrite Hb1.
    + assert (∀ j, j ∈ l ↔ j < num_shards p ∧ j ≠ i ∧ believed p peer j = false) as Hl'.
      { intros j. rewrite Hl, Hn2, Hn1. destruct (Hb2 j) as [_ ->]. rewrite Hb1.
        case_bool_decide; simpl; naive_solver. }
      exists (i :: l), p'. split; [done|]. split.
      * constructor; [|done]. rewrite Hl'. tauto.
      * intros j. rewrite elem_of_cons, Hl'. destruct (decide (j = i)); naive_solver.
  - apply allocate_None in Ha as (_ & _ & _ & _ & Hno & _); [|done].
    exists [], p1. split; [done|]. split; [constructor|]. intros i.
    rewrite <- (eligible_origin p peer i) by done.
    split; [intros []%elem_of_nil|intros He; by destruct (Hno i)].
Qed.
End PlannerTrace.

(** * Properties *)
Section properties.
Import EmitPlanner PlannerLemmas PlannerTrace.

(** [allocate] hands out the least allocated shard that may be sent: among
    the shards the peer is not believed to have, that are not already on their
    way to it and, for a relay, that are below the budget, it returns the one
    that is first by (allocation count, Fibonacci priority, index), and it
    returns nothing exactly when there is none.  Its effect is one more
    allocation of that shard, now in flight to the peer. *)
Theorem allocate_spec p peer :
  wf p →
  match allocate p peer with
  | (Some i, p') =>
      eligible p peer i ∧
      (∀ j, eligible p peer j → entry_le (live_entry p i) (live_entry p j)) ∧
      in_flight (peer_state p' peer) = {[i]} ∪ in_flight (peer_state p peer) ∧
      (∀ j, allocation_count p' j =
        if decide (j = i) then u32_add (allocation_count p i) 1
        else allocation_count p j)
  | (None, p') =>
      (∀ j, ¬ eligible p peer j) ∧
      in_flight (peer_state p' peer) = in_flight (peer_state p peer) ∧
      ∀ j, allocation_count p' j = allocation_count p j
  end.
Proof.
  intros Hwf. destruct (allocate p peer) as [[i|] p'] eqn:Ha.
  - apply allocate_Some in Ha as (_ & _ & _ & He & Hl & Hc & Hp); [|done].
    split; [done|]. split; [done|]. split; [|done]. by rewrite Hp, decide_True.
  - apply allocate_None in Ha as (_ & _ & _ & Hal & Hno & Hp); [|done].
    split; [done|]. rewrite Hp. split; [done|]. intros j.
    unfold allocation_count. by rewrite Hal.
Qed.

Lemma allocate_spec_witness :
  let p := new 4 7 (Relay 2) in
  match allocate p 1 with
  | (Some i, p') =>
      eligible p 1 i ∧
      (∀ j, eligible p 1 j → entry_le (live_entry p i) (live_entry p j)) ∧
      in_flight (peer_state p' 1) = {[i]} ∪ in_flight (peer_state p 1) ∧
      (∀ j, allocation_count p' j =
        if decide (j = i) then u32_add (allocation_count p i) 1
        else allocation_count p j)
  | (None, p') =>
      (∀ j, ¬ eligible p 1 j) ∧
      in_flight (peer_state p' 1) = in_flight (peer_state p 1) ∧
      ∀ j, allocation_count p' j = allocation_count p j
  end.
Proof.
  apply (allocate_spec (new 4 7 (Relay 2)) 1). apply new_wf. by intros c [= <-].
Defined.

(** whatever sequence of operations a relay's planner goes through, no
    shard's allocation count exceeds [forward_multiplier], every entry of the
    heap is for an existing shard with the priority its seed gives it, and
    every shard still has an entry with its current allocation count, so that
    it can be allocated again when a peer becomes eligible for it. *)
Theorem planner_invariant n sd fm os :
  fm < 2 ^ 32 →
  let p := run (new n sd (Relay fm)) os in
  (∀ i, allocation_count p i ≤ fm) ∧
  (∀ e, e ∈ heap p → idx e < n ∧ fib e = fib_priority sd (idx e)) ∧
  (∀ i, i < n → mkEntry (allocation_count p i) (fib_priority sd i) i ∈ heap p).
Proof.
  intros Hfm p.
  destruct (run_wf (new n sd (Relay fm)) os) as (Hwf & Hm & Hn & Hs).
  { apply new_wf. by intros c [= <-]. }
  fold p in Hwf, Hm, Hn, Hs. simpl in Hm, Hn, Hs. split; [|split].
  - destruct (wf_cap p Hwf fm) as [_ Hc]; [|done]. unfold cap. by rewrite Hm.
  - intros e He. rewrite <- Hn, <- Hs. by apply (wf_entries p Hwf).
  - intros i Hi. rewrite <- Hs. apply (wf_live p Hwf). by rewrite Hn.
Qed.

Lemma planner_invariant_witness :
  let p := run (new 3 5 (Relay 1))
             [Allocate 1; RecordSent 1 0; Allocate 2; RefundAllocation 1; RemovePeer 2] in
  (∀ i, allocation_count p i ≤ 1) ∧
  (∀ e, e ∈ heap p → idx e < 3 ∧ fib e = fib_priority 5 (idx e)) ∧
  (∀ i, i < 3 → mkEntry (allocation_count p i) (fib_priority 5 i) i ∈ heap p).
Proof.
  apply (planner_invariant 3 5 1
    [Allocate 1; RecordSent 1 0; Allocate 2; RefundAllocation 1; RemovePeer 2]).
  reflexivity.
Defined.

(** an origin serves a peer completely and without repetition: allocating
    and reporting shards as sent stops by itself, after sending every shard the
    peer was not already believed to hold, each exactly once. *)
Theorem origin_serves_peer p peer :
  wf p → mode p = Origin → in_flight (peer_state p peer) = ∅ →
  havelist_wf p peer →
  ∃ l p', serve (S (N.to_nat (num_shards p))) p peer = (l, Some p') ∧ NoDup l ∧
    ∀ i, i ∈ l ↔ i < num_shards p ∧ believed p peer i = false.
Proof.
  intros Hwf Hm Hf Hh. apply serve_spec; [done..|].
  apply Nat.lt_succ_r, countb_le.
Qed.

Lemma origin_serves_peer_witness :
  ∃ l p', serve 5 (new 4 9 Origin) 3 = (l, Some p') ∧ NoDup l ∧
    ∀ i, i ∈ l ↔ i < 4 ∧ believed (new 4 9 Origin) 3 i = false.
Proof.
  apply (origin_serves_peer (new 4 9 Origin) 3).
  - by apply new_wf.
  - reflexivity.
  - reflexivity.
  - intros b. vm_compute. discriminate.
Defined.

(** One failed send of the only shard of a planner to peer 1, as [chunk_sent]
    reports it. *)
Definition failed_send (p : EmitPlanner) : EmitPlanner :=
  match allocate p 1 with
  | (Some i, p) => refund_allocation (cancel_in_flight p 1 i) i
  | (None, p) => p
  end.

(** A planner between two failed sends: nothing is allocated, the refunded entry
    is first, and the entries in [l] have accumulated behind it. *)
Definition idle (l : list EmitEntry) : EmitPlanner :=
  mkPlanner Origin 1 0 (mkEntry 0 0 0 :: l) ∅ ∅ {[1 := PeerState_default]}.

Lemma push_first h : push (mkEntry 0 0 0) h = mkEntry 0 0 0 :: h.
Proof.
  destruct h as [|e h]; [done|]. unfold push. cbn [heap_push].
  destruct (entry_le (mkEntry 0 0 0) e) eqn:E; [done|].
  apply not_true_iff_false in E. destruct E. apply Is_true_true.
  apply entry_le_spec. simpl. lia.
Qed.

Lemma failed_send_idle l : failed_send (idle l) = idle (push (mkEntry 1 0 0) l).
Proof.
  unfold failed_send, allocate. change (heap _) with (mkEntry 0 0 0 :: l).
  assert (peer_state (idle l) 1 = PeerState_default) as -> by reflexivity.
  rewrite scan_cons, decide_False by (intros Hs; by apply Hs).
  change (blocked _ _ _ _) with false. cbv iota.
  unfold refund_allocation. cbn [allocations cancel_in_flight with_peer idx].
  rewrite lookup_insert_eq. cbn -[push].
  rewrite push_first. unfold idle. by f_equal.
Qed.

Lemma failed_send_state k :
  Nat.iter (S k) failed_send (new 1 0 Origin) = idle (replicate (S k) (mkEntry 1 0 0)).
Proof.
  induction k as [|k IH]; [by vm_compute|].
  rewrite Nat.iter_succ, IH, failed_send_idle. done.
Qed.

(** each failed send of a shard leaves one more entry in the heap: after
    [k] failed sends of a single-shard planner the heap has [k + 1] entries.
    The heap of a planner is not bounded by its number of shards, and entries
    discarded as stale are live again once the count returns to theirs. *)
Theorem failed_sends_grow_heap k :
  length (heap (Nat.iter k failed_send (new 1 0 Origin))) = S k.
Proof.
  destruct k as [|k]; [done|].
  rewrite failed_send_state. simpl. by rewrite length_replicate.
Qed.
End properties.
