(* ===== verification/PlannerRef.v ===== *)
(** A reference planner, and that the emit planner behaves as it does.

    [strategy/rs/planner.rs] keeps its candidates in a heap of entries that are
    discarded lazily: an entry is acted on only while its count is the current
    one, and every change of a count pushes another.  The reference has no heap:
    it looks through all shards at every allocation.  [planner_equiv] shows that no
    caller can tell the two apart. *)
From Stdlib Require Import NArith Lia.
From stdpp Require Import base gmap option list.
From S2P Require Import Prelude Heap BitMap Planner.

Open Scope N_scope.

Module Ref.
Import EmitPlanner.

(** The planner without its heap. *)
Record t := mk {
  mode : PlannerMode;
  num_shards : N;
  seed : N;
  allocated : gmap N N;
  sent : gmap N N;
  peers : gmap N PeerState
}.

Definition count (m : gmap N N) (i : N) : N := default 0 (m !! i).
Definition peer (r : t) (p : N) : PeerState := default PeerState_default (peers r !! p).

Definition new (num_shards seed : N) (mode : PlannerMode) : t :=
  mk mode num_shards seed ∅ ∅ ∅.

(** Whether shard [i] may go to a peer. *)
Definition may_send (r : t) (s : PeerState) (i : N) : bool :=
  (match mode r with
   | Origin => true
   | Relay forward_multiplier => bool_decide (count (allocated r) i < forward_multiplier)
   end) &&
  (match optimistic_havelist s with Some b => negb (BitMap.get b i) | None => true end) &&
  negb (bool_decide (i ∈ in_flight s)).

(** How a shard ranks, and the first by that rank. *)
Definition rank (r : t) (i : N) : EmitEntry :=
  mkEntry (count (allocated r) i) (fib_priority (seed r) i) i.
Definition better (a b : option EmitEntry) : option EmitEntry :=
  match a, b with
  | Some x, Some y => if entry_le x y then Some x else Some y
  | Some x, None => Some x
  | None, _ => b
  end.
Definition best (r : t) (s : PeerState) : option N :=
  idx <$> foldr (λ i acc, better (if may_send r s i then Some (rank r i) else None) acc)
            None (range (num_shards r)).

Definition set_peer (p : N) (s : PeerState) (r : t) : t :=
  mk (mode r) (num_shards r) (seed r) (allocated r) (sent r) (<[p := s]> (peers r)).
Definition set_allocated (i n : N) (r : t) : t :=
  mk (mode r) (num_shards r) (seed r) (<[i := n]> (allocated r)) (sent r) (peers r).

Definition allocate (r : t) (p : N) : option N * t :=
  let s := peer r p in
  match best r s with
  | Some i =>
      (Some i, set_peer p (mkPeerState ({[i]} ∪ in_flight s) (optimistic_havelist s))
                 (set_allocated i (u32_add (count (allocated r) i) 1) r))
  | None => (None, r)
  end.

Definition record_sent (r : t) (p i : N) : t :=
  let s := peer r p in
  let b := default (BitMap.with_capacity (num_shards r)) (optimistic_havelist s) in
  let b := match BitMap.set b i with Ok b => b | Err _ => b end in
  set_peer p (mkPeerState (in_flight s ∖ {[i]}) (Some b))
    (mk (mode r) (num_shards r) (seed r) (allocated r)
       (<[i := u32_add (count (sent r) i) 1]> (sent r)) (peers r)).

Definition cancel_in_flight (r : t) (p i : N) : t :=
  let s := peer r p in
  set_peer p (mkPeerState (in_flight s ∖ {[i]}) (optimistic_havelist s)) r.

Definition refund_allocation (r : t) (i : N) : t :=
  set_allocated i (count (allocated r) i - 1) r.

(** Each shard under way to the peer is refunded. *)
Definition remove_peer (r : t) (p : N) : t :=
  let r' := foldl refund_allocation r (elements (in_flight (peer r p))) in
  mk (mode r') (num_shards r') (seed r') (allocated r') (sent r') (delete p (peers r')).

Definition set_peer_havelist (r : t) (p : N) (b : BitMap) : t :=
  set_peer p (mkPeerState (in_flight (peer r p)) (Some b)) r.

(** ** What a caller sees *)

(** The calls of a planner, the queries among them. *)
Inductive call :=
  | Change (o : PlannerTrace.op)
  | AllocationCount (idx : N)
  | SentCount (idx : N)
  | PeerInFlight (peer : N)
  | PeerHavelist (peer : N).

Inductive answer :=
  | Done
  | Shard (i : option N)
  | Number (n : N)
  | Shards (l : list N)
  | Bits (b : option BitMap).

Definition exec (o : call) (p : EmitPlanner) : answer * EmitPlanner :=
  match o with
  | Change (PlannerTrace.Allocate q) =>
      let '(i, p) := EmitPlanner.allocate p q in (Shard i, p)
  | Change o => (Done, PlannerTrace.step p o)
  | AllocationCount i => (Number (allocation_count p i), p)
  | SentCount i => (Number (sent_count p i), p)
  | PeerInFlight q => (Shards (peer_in_flight p q), p)
  | PeerHavelist q => (Bits (peer_havelist p q), p)
  end.

Definition exec_ref (o : call) (r : t) : answer * t :=
  match o with
  | Change (PlannerTrace.Allocate q) => let '(i, r) := allocate r q in (Shard i, r)
  | Change (PlannerTrace.RecordSent q i) => (Done, record_sent r q i)
  | Change (PlannerTrace.CancelInFlight q i) => (Done, cancel_in_flight r q i)
  | Change (PlannerTrace.RefundAllocation i) => (Done, refund_allocation r i)
  | Change (PlannerTrace.RemovePeer q) => (Done, remove_peer r q)
  | Change (PlannerTrace.SetPeerHavelist q b) => (Done, set_peer_havelist r q b)
  | AllocationCount i => (Number (count (allocated r) i), r)
  | SentCount i => (Number (count (sent r) i), r)
  | PeerInFlight q => (Shards (bt_elements (in_flight (peer r q))), r)
  | PeerHavelist q => (Bits (optimistic_havelist (peer r q)), r)
  end.

(** The answers to a sequence of calls. *)
Fixpoint answers {S} (f : call → S → answer * S) (os : list call) (s : S) : list answer :=
  match os with
  | [] => []
  | o :: os => let '(a, s) := f o s in a :: answers f os s
  end.
End Ref.

(** * The simulation *)
Module PlannerSim.
Import EmitPlanner PlannerLemmas.

(** A planner and a reference that record the same. *)
Record sim (p : EmitPlanner) (r : Ref.t) : Prop := {
  sim_wf : wf p;
  sim_mode : Ref.mode r = Planner.mode p;
  sim_num : Ref.num_shards r = Planner.num_shards p;
  sim_seed : Ref.seed r = Planner.seed p;
  sim_allocated i : Ref.count (Ref.allocated r) i = allocation_count p i;
  sim_sent i : Ref.count (Ref.sent r) i = sent_count p i;
  sim_peer q : Ref.peer r q = peer_state p q
}.

Lemma sim_new n sd m : (∀ c, m = Relay c → c < 2 ^ 32) → sim (new n sd m) (Ref.new n sd m).
Proof. intros Hm. split; try done. by apply new_wf. Qed.

(** ** Observing the reference *)

Lemma count_insert m i n j :
  Ref.count (<[i := n]> m) j = if decide (j = i) then n else Ref.count m j.
Proof.
  unfold Ref.count. case_decide; [subst; by rewrite lookup_insert_eq|by rewrite lookup_insert_ne].
Qed.

Lemma peer_set_peer p s r q :
  Ref.peer (Ref.set_peer p s r) q = if decide (q = p) then s else Ref.peer r q.
Proof.
  unfold Ref.peer, Ref.set_peer. simpl.
  case_decide; [subst; by rewrite lookup_insert_eq|by rewrite lookup_insert_ne].
Qed.

Lemma count_refunds l r j :
  NoDup l →
  let r' := foldl Ref.refund_allocation r l in
  Ref.count (Ref.allocated r') j = Ref.count (Ref.allocated r) j - (if decide (j ∈ l) then 1 else 0) ∧
  Ref.mode r' = Ref.mode r ∧ Ref.num_shards r' = Ref.num_shards r ∧ Ref.seed r' = Ref.seed r ∧
  Ref.sent r' = Ref.sent r ∧ Ref.peers r' = Ref.peers r.
Proof.
  cbv zeta. revert r. induction l as [|i l IH]; intros r Hnd; cbn [foldl].
  { split; [|done]. destruct (decide (j ∈ [])); [set_solver|lia]. }
  apply NoDup_cons in Hnd as [Hi Hnd].
  destruct (IH (Ref.refund_allocation r i) Hnd) as (-> & ? & ? & ? & ? & ?).
  split; [|done]. unfold Ref.refund_allocation, Ref.set_allocated. simpl. rewrite count_insert.
  destruct (decide (j = i)) as [->|Hji].
  - rewrite decide_False by done. rewrite decide_True by by left. lia.
  - assert (j ∈ i :: l ↔ j ∈ l) as Hin by (rewrite elem_of_cons; tauto).
    do 2 case_decide; tauto || lia.
Qed.

(** ** The search for the best shard *)

Lemma may_send_eligible p r q i :
  sim p r → i < num_shards p → Ref.may_send r (Ref.peer r q) i = true ↔ eligible p q i.
Proof.
  intros [Hwf Hm Hn Hs Ha Ht Hp] Hi. unfold eligible.
  assert (Ref.may_send r (Ref.peer r q) i =
    negb (blocked (cap p) (optimistic_havelist (peer_state p q)) (in_flight (peer_state p q))
            (live_entry p i))) as ->.
  { unfold Ref.may_send, blocked, cap. rewrite Hp, Hm, Ha. simpl. rewrite !negb_orb.
    f_equal. f_equal.
    - destruct (mode p) as [|c]; [reflexivity|]. do 2 case_bool_decide; simpl; done || lia.
    - by destruct (optimistic_havelist _). }
  rewrite negb_true_iff. tauto.
Qed.

(** The fold keeps the first entry of those it has seen. *)
Lemma best_fold r s l :
  match foldr (λ i acc, Ref.better (if Ref.may_send r s i then Some (Ref.rank r i) else None) acc)
          None l with
  | Some e => (∃ i, i ∈ l ∧ Ref.may_send r s i = true ∧ e = Ref.rank r i) ∧
              ∀ j, j ∈ l → Ref.may_send r s j = true → entry_le e (Ref.rank r j)
  | None => ∀ j, j ∈ l → Ref.may_send r s j = false
  end.
Proof.
  induction l as [|i l IH]; simpl; [by intros j ?%elem_of_nil|].
  destruct (foldr _ None l) as [e|]; destruct (Ref.may_send r s i) eqn:Hi; simpl.
  - destruct IH as [(k & Hk & Hks & ->) Hle].
    destruct (entry_le (Ref.rank r i) (Ref.rank r k)) eqn:Hcmp.
    + split; [exists i; split; [by left|done]|]. intros j [->|Hj]%elem_of_cons Hjs.
      * apply entry_le_refl.
      * eapply entry_le_trans; [by apply Is_true_true|]. by apply Hle.
    + split; [exists k; split; [by right|done]|]. intros j [->|Hj]%elem_of_cons Hjs; [|by apply Hle].
      destruct (entry_le_total (Ref.rank r i) (Ref.rank r k)) as [Hc|Hc]; [|exact Hc].
      apply Is_true_true in Hc. congruence.
  - destruct IH as [(k & Hk & Hks & ->) Hle]. split; [exists k; split; [by right|done]|].
    intros j [->|Hj]%elem_of_cons Hjs; [congruence|by apply Hle].
  - split; [exists i; split; [by left|done]|].
    intros j [->|Hj]%elem_of_cons Hjs; [apply entry_le_refl|]. by rewrite IH in Hjs.
  - intros j [->|Hj]%elem_of_cons; [done|by apply IH].
Qed.

Lemma entry_le_antisym a b : entry_le a b → entry_le b a → idx a = idx b.
Proof. rewrite !entry_le_spec. lia. Qed.

(** Both planners choose the same shard. *)
Lemma best_allocate p r q :
  sim p r → Ref.best r (Ref.peer r q) = fst (allocate p q).
Proof.
  intros Hsim. pose proof Hsim as [Hwf Hm Hn Hs Ha Ht Hp]. unfold Ref.best.
  pose proof (best_fold r (Ref.peer r q) (range (Ref.num_shards r))) as Hb.
  assert (∀ i, Ref.rank r i = live_entry p i) as Hrank.
  { intros i. unfold Ref.rank, live_entry. by rewrite Ha, Hs. }
  destruct (allocate p q) as [[i|] p'] eqn:Hal; simpl.
  - apply allocate_Some in Hal as (_ & _ & _ & He & Hle & _); [|done].
    destruct (foldr _ None _) as [e|]; simpl.
    + destruct Hb as [(k & Hk & Hks & ->) Hbest]. f_equal. rewrite Hrank in *.
      change (idx (live_entry p k) = idx (live_entry p i)). apply entry_le_antisym.
      * rewrite <- (Hrank i). apply Hbest.
        -- apply elem_of_range. rewrite Hn. apply He.
        -- by apply (may_send_eligible p r q i Hsim); [apply He|].
      * apply Hle. apply (may_send_eligible p r q k Hsim); [|done].
        rewrite <- Hn. by apply elem_of_range.
    + assert (Ref.may_send r (Ref.peer r q) i = true) as Hi
        by (by apply (may_send_eligible p r q i Hsim); [apply He|]).
      rewrite Hb in Hi; [done|]. apply elem_of_range. rewrite Hn. apply He.
  - apply allocate_None in Hal as (_ & _ & _ & _ & Hno & _); [|done].
    destruct (foldr _ None _) as [e|]; [|done]. destruct Hb as [(k & Hk & Hks & ->) _].
    destruct (Hno k). apply (may_send_eligible p r q k Hsim); [|done].
    rewrite <- Hn. by apply elem_of_range.
Qed.

(** ** Each operation *)

Lemma allocate_sim p r q :
  sim p r → fst (allocate p q) = fst (Ref.allocate r q) ∧
  sim (snd (allocate p q)) (snd (Ref.allocate r q)).
Proof.
  intros Hsim. pose proof (best_allocate p r q Hsim) as Hbest.
  pose proof Hsim as [Hwf Hm Hn Hs Ha Ht Hp]. unfold Ref.allocate. rewrite Hbest.
  destruct (allocate p q) as [[i|] p'] eqn:Hal; simpl; (split; [done|]).
  - apply allocate_Some in Hal as (Hwf' & (Hm' & Hn' & Hs') & Hsc & _ & _ & Hc & Hps); [|done].
    split; simpl; try congruence.
    + intros j. by rewrite count_insert, Hc, !Ha.
    + intros j. rewrite Ht. unfold sent_count. by rewrite Hsc.
    + intros j. rewrite peer_set_peer, Hps, Hp. case_decide; [done|apply Hp].
  - apply allocate_None in Hal as (Hwf' & (Hm' & Hn' & Hs') & Hsc & Hc & _ & Hps); [|done].
    split; simpl; try congruence.
    + intros j. rewrite Ha. unfold allocation_count. by rewrite Hc.
    + intros j. rewrite Ht. unfold sent_count. by rewrite Hsc.
Qed.

Lemma step_sim p r o :
  sim p r → (∀ q, o ≠ PlannerTrace.Allocate q) →
  sim (PlannerTrace.step p o) (snd (Ref.exec_ref (Ref.Change o) r)).
Proof.
  intros [Hwf Hm Hn Hs Ha Ht Hp] Ho. destruct o as [q|q i|q i|i|q|q b]; simpl; [by destruct (Ho q)|..].
  - destruct (record_sent_spec p q i Hwf) as (Hwf' & _ & _ & Hsc & _). split; try done.
    + intros j. unfold Ref.record_sent. simpl. by rewrite count_insert, Hsc, !Ht.
    + intros j. unfold Ref.record_sent, record_sent. rewrite peer_set_peer.
      erewrite peer_state_insert by reflexivity. rewrite Hp, Hn. case_decide; [done|apply Hp].
  - destruct (cancel_in_flight_spec p q i Hwf) as (Hwf' & _). split; try done.
    intros j. unfold Ref.cancel_in_flight, cancel_in_flight, with_peer. rewrite peer_set_peer.
    erewrite peer_state_insert by reflexivity. rewrite Hp. case_decide; [done|apply Hp].
  - destruct (refund_allocation_spec p i Hwf) as (Hwf' & (Hm' & Hn' & Hs') & Hps & Hsc & Hc).
    split; simpl; try congruence.
    + intros j. by rewrite count_insert, Hc, !Ha.
    + intros j. rewrite Ht. unfold sent_count. by rewrite Hsc.
    + intros j. change (Ref.peer r j = peer_state (refund_allocation p i) j).
      rewrite Hp. unfold peer_state. by rewrite Hps.
  - destruct (remove_peer_spec p q Hwf) as (Hwf' & (Hm' & Hn' & Hs') & Hsc & Hc & Hps).
    unfold Ref.remove_peer.
    pose proof (λ j, count_refunds (elements (in_flight (Ref.peer r q))) r j
      (NoDup_elements _)) as Hr.
    destruct (Hr 0) as (_ & Hr1 & Hr2 & Hr3 & Hr4 & Hr5). split; simpl; try congruence.
    + intros j. destruct (Hr j) as (-> & _). rewrite Hc, Ha, Hp.
      pose proof (elem_of_elements (in_flight (peer_state p q)) j) as Hel.
      do 2 case_decide; tauto || lia.
    + intros j. rewrite Hr4, Ht. unfold sent_count. by rewrite Hsc.
    + intros j. rewrite Hps. unfold Ref.peer at 1. cbn [Ref.peers]. rewrite Hr5.
      case_decide; [subst; by rewrite lookup_delete_eq|].
      rewrite lookup_delete_ne by done. apply Hp.
  - destruct (set_peer_havelist_spec p q b Hwf) as (Hwf' & _). split; try done.
    intros j. unfold Ref.set_peer_havelist, set_peer_havelist, with_peer. rewrite peer_set_peer.
    erewrite peer_state_insert by reflexivity. rewrite Hp. case_decide; [done|apply Hp].
Qed.

Lemma exec_sim o p r :
  sim p r →
  let '(a, p') := Ref.exec o p in let '(a', r') := Ref.exec_ref o r in a = a' ∧ sim p' r'.
Proof.
  intros Hsim. destruct o as [o|i|i|q|q].
  - pose proof (step_sim p r o Hsim) as Hstep.
    destruct o as [q|q i|q i|i|q|q b]; [|by (split; [done|apply Hstep])..].
    clear Hstep. simpl. destruct (allocate_sim p r q Hsim) as [Hf Hs].
    destruct (allocate p q) as [i p'], (Ref.allocate r q) as [i' r']. simpl in *. by subst.
  - simpl. split; [|done]. by rewrite (sim_allocated _ _ Hsim).
  - simpl. split; [|done]. by rewrite (sim_sent _ _ Hsim).
  - simpl. split; [|done]. rewrite (sim_peer _ _ Hsim). unfold peer_in_flight, peer_state.
    by destruct (peers p !! q).
  - simpl. split; [|done]. rewrite (sim_peer _ _ Hsim). unfold peer_havelist, peer_state.
    by destruct (peers p !! q).
Qed.
End PlannerSim.

(** C29: nobody can tell the planner from one that has no heap and looks through all
    shards at every allocation: started alike, both give the same answers to any
    sequence of calls, allocations and queries alike.  So the entries that are
    discarded lazily, pushed again by refunds or live again by chance never show. *)
Theorem planner_equiv n sd m os :
  (∀ c, m = Relay c → c < 2 ^ 32) →
  Ref.answers Ref.exec os (EmitPlanner.new n sd m) = Ref.answers Ref.exec_ref os (Ref.new n sd m).
Proof.
  intros Hm. pose proof (PlannerSim.sim_new n sd m Hm) as Hsim. revert Hsim.
  generalize (EmitPlanner.new n sd m) as p, (Ref.new n sd m) as r.
  induction os as [|o os IH]; intros p r Hsim; simpl; [done|].
  pose proof (PlannerSim.exec_sim o p r Hsim) as Hex.
  destruct (Ref.exec o p) as [a p'], (Ref.exec_ref o r) as [a' r'].
  destruct Hex as [-> Hsim']. f_equal. by apply IH.
Qed.

Lemma planner_equiv_witness :
  let os := Ref.Change <$> [PlannerTrace.Allocate 1; PlannerTrace.Allocate 2;
              PlannerTrace.CancelInFlight 1 0; PlannerTrace.RefundAllocation 0;
              PlannerTrace.Allocate 2; PlannerTrace.RemovePeer 2; PlannerTrace.Allocate 1;
              PlannerTrace.Allocate 1; PlannerTrace.Allocate 1] in
  Ref.answers Ref.exec os (EmitPlanner.new 3 5 (Relay 1)) =
  Ref.answers Ref.exec_ref os (Ref.new 3 5 (Relay 1)).
Proof.
  cbv zeta. apply (planner_equiv 3 5 (Relay 1)). intros c [= <-]. reflexivity.
Defined.
