(* ===== verification/RsStrategy.v ===== *)
(** The Reed-Solomon strategy of one session, [strategy/rs/state.rs], and its
    instance of the [Strategy] interface.

    [Vec] indexing out of range panics in the code; the definitions answer as
    for an empty slot there, and [wf_chunks] below shows the vector has a slot
    for every index that is used.  What [new_origin] and [new_relay] read from the
    system, the clock and the process id, are arguments. *)
From Stdlib Require Import NArith ZArith Lia.
From stdpp Require Import base gmap option sorting list.
From S2P Require Import Prelude Heap BitMap Config Strategy RsCodec Planner.

Open Scope N_scope.

Module Rs.

(** [RsStrategy]. *)
Record RsStrategy := mkRs {
  config : RsConfig;
  preamble : Preamble;
  chunks : list (option bytes);
  planner : EmitPlanner;
  attached_peers : gset N;
  in_flight : gmap N (N * N);
  next_handle : N;
  last_routing_emitted_count : N
}.

Definition with_planner (s : RsStrategy) (p : EmitPlanner) : RsStrategy :=
  mkRs (config s) (preamble s) (chunks s) p (attached_peers s) (in_flight s)
    (next_handle s) (last_routing_emitted_count s).

Section rs.
Context `{Sha256, ReedSolomon}.

(** [RsStrategy::with]. *)
Definition with_ (config : RsConfig) (preamble : Preamble)
    (chunks : list (option bytes)) (planner : EmitPlanner) : RsStrategy :=
  mkRs config preamble chunks planner ∅ ∅ 0 0.

(** [RsStrategy::new_origin_with_seed]; [None] is the panic of [encode]. *)
Definition new_origin_with_seed (payload : bytes) (config : RsConfig) (seed : N)
    : option (result Encode.EncodeError RsStrategy) :=
  r ← Encode.encode payload config;
  Some (
    '(preamble, shards) ← r;
    let total := usize_as_u32 (length shards) in
    let chunks := Some <$> shards in
    let planner := EmitPlanner.new total seed Origin in
    Ok (with_ config preamble chunks planner)).

(** The [i32] sum of the two counts, cast to [u32]. *)
Definition preamble_total (p : Preamble) : N :=
  i32_as_u32 (i32_add (num_data p) (num_parity p)).

(** [RsStrategy::new_relay_with_seed]. *)
Definition new_relay_with_seed (preamble : Preamble) (config : RsConfig) (seed : N)
    : result Verify.PreambleError RsStrategy :=
  _ ← Verify.validate_preamble preamble;
  let total := preamble_total preamble in
  let chunks := replicate (N.to_nat total) None in
  let planner := EmitPlanner.new total seed (Relay (forward_multiplier config)) in
  Ok (with_ config preamble chunks planner).

(** [planner_seed]: the nanoseconds within the second of the system clock, [None]
    before the epoch, and the process id. *)
Definition planner_seed (nanos : option N) (pid : N) : N :=
  N.lor (N.shiftl (default 0 nanos) 32) pid.

(** [RsStrategy::new_origin] and [RsStrategy::new_relay]. *)
Definition new_origin (payload : bytes) (config : RsConfig) (nanos : option N) (pid : N)
    : option (result Encode.EncodeError RsStrategy) :=
  new_origin_with_seed payload config (planner_seed nanos pid).
Definition new_relay (preamble : Preamble) (config : RsConfig) (nanos : option N) (pid : N)
    : result Verify.PreambleError RsStrategy :=
  new_relay_with_seed preamble config (planner_seed nanos pid).

(** [RsStrategy::accepted_count]. *)
Definition accepted_count (s : RsStrategy) : N :=
  usize_as_u32 (length (filter is_Some (chunks s))).

(** [RsStrategy::can_reconstruct]. *)
Definition can_reconstruct (s : RsStrategy) : bool :=
  bool_decide (i32_as_u32 (num_data (preamble s)) ≤ accepted_count s).

(** The accepted chunks with their indices. *)
Definition pairs (s : RsStrategy) : list (N * bytes) :=
  omap (λ '(i, c), (λ d, (usize_as_u32 i, d)) <$> c) (zip (seq 0 (length (chunks s))) (chunks s)).

(** [RsStrategy::reconstruct]. *)
Definition reconstruct (s : RsStrategy) : result Decode.DecodeError bytes :=
  Decode.decode (preamble s) (pairs s).

(** [RsStrategy::total_shards]. *)
Definition total_shards (s : RsStrategy) : N := preamble_total (preamble s).

(** [RsStrategy::local_havelist]. *)
Definition local_havelist (s : RsStrategy) : BitMap :=
  foldl (λ b '(i, slot),
      match slot with
      | Some _ => match BitMap.set b (usize_as_u32 i) with Ok b => b | Err _ => b end
      | None => b
      end)
    (BitMap.with_capacity (total_shards s))
    (zip (seq 0 (length (chunks s))) (chunks s)).

(** [RsStrategy::bitmap_threshold_reached]. *)
Definition bitmap_threshold_reached (s : RsStrategy) (count : N) : bool :=
  let total := total_shards s in
  if decide (total = 0) then true
  else bool_decide (bitmap_threshold (config s) ≤ count * 100 / total).

(** ** The [Strategy] implementation *)

(** [self.chunks[idx]]. *)
Definition slot (s : RsStrategy) (idx : N) : option bytes :=
  default None (chunks s !! N.to_nat idx).

Definition have_chunk (s : RsStrategy) (idx : N) : bool :=
  if decide (total_shards s ≤ idx) then false
  else bool_decide (is_Some (slot s idx)).

Definition verify_chunk (s : RsStrategy) (idx : N) (data : bytes) : Verdict.t :=
  Verify.verify_chunk (preamble s) idx data.

Definition take_chunk (s : RsStrategy) (idx : N) (data : bytes)
    : result TakeError TakeOutcome * RsStrategy :=
  let total := total_shards s in
  if decide (total ≤ idx) then (Err (OutOfRange idx total), s)
  else if decide (is_Some (slot s idx))
  then (Ok (mkTakeOutcome Verdict.Redundant (can_reconstruct s)), s)
  else
    match Verify.verify_chunk (preamble s) idx data with
    | Verdict.Accepted =>
        let s := mkRs (config s) (preamble s)
          (<[N.to_nat idx := Some data]> (chunks s)) (planner s) (attached_peers s)
          (in_flight s) (next_handle s) (last_routing_emitted_count s) in
        (Ok (mkTakeOutcome Verdict.Accepted (can_reconstruct s)), s)
    | other => (Ok (mkTakeOutcome other false), s)
    end.

Definition attach_peer (s : RsStrategy) (peer : N) : RsStrategy :=
  mkRs (config s) (preamble s) (chunks s) (planner s) ({[peer]} ∪ attached_peers s)
    (in_flight s) (next_handle s) (last_routing_emitted_count s).

Definition detach_peer (s : RsStrategy) (peer : N) (_completed : bool) : RsStrategy :=
  mkRs (config s) (preamble s) (chunks s) (EmitPlanner.remove_peer (planner s) peer)
    (attached_peers s ∖ {[peer]}) (filter (λ kv, kv.2.1 ≠ peer) (in_flight s))
    (next_handle s) (last_routing_emitted_count s).

Definition routing_update (s : RsStrategy) (peer : N) (update : BitMap)
    : list N * RsStrategy :=
  let merged :=
    match EmitPlanner.peer_havelist (planner s) peer with
    | Some existing =>
        match BitMap.or_merge existing update with Ok b => b | Err _ => existing end
    | None => update
    end in
  let s := with_planner s (EmitPlanner.set_peer_havelist (planner s) peer merged) in
  let in_flight_idxs := EmitPlanner.peer_in_flight (planner s) peer in
  (omap (λ '(handle, (p, idx)),
      if decide (p = peer ∧ idx ∈ in_flight_idxs ∧ BitMap.get merged idx = true)
      then Some handle else None) (bt_iter (in_flight s)),
   s).

(** [RsStrategy::issue_handle]. *)
Definition issue_handle (s : RsStrategy) : N * RsStrategy :=
  (next_handle s,
   mkRs (config s) (preamble s) (chunks s) (planner s) (attached_peers s) (in_flight s)
     (u64_add (next_handle s) 1) (last_routing_emitted_count s)).

(** The loop of [poll_chunks] over the attached peers. *)
Fixpoint poll_peers (s : RsStrategy) (peers : list N)
    : list (ChunkDispatch N) * RsStrategy :=
  match peers with
  | [] => ([], s)
  | peer :: peers =>
      match EmitPlanner.allocate (planner s) peer with
      | (Some idx, planner') =>
          let s := with_planner s planner' in
          match slot s idx with
          | Some payload =>
              let '(handle, s) := issue_handle s in
              let s := mkRs (config s) (preamble s) (chunks s) (planner s)
                (attached_peers s) (<[handle := (peer, idx)]> (in_flight s))
                (next_handle s) (last_routing_emitted_count s) in
              let '(ds, s) := poll_peers s peers in
              (mkChunkDispatch peer idx handle payload :: ds, s)
          | None =>
              poll_peers
                (with_planner s (EmitPlanner.cancel_in_flight (planner s) peer idx)) peers
          end
      | (None, planner') => poll_peers (with_planner s planner') peers
      end
  end.

Definition poll_chunks (s : RsStrategy) : list (ChunkDispatch N) * RsStrategy :=
  poll_peers s (bt_elements (attached_peers s)).

Definition poll_routing (s : RsStrategy) (force : bool) : option BitMap * RsStrategy :=
  if disable_bitmap (config s) && negb force then (None, s)
  else
    let local := local_havelist s in
    let count := BitMap.count_ones local in
    let crossed_threshold := bitmap_threshold_reached s count in
    let changed := bool_decide (count ≠ last_routing_emitted_count s) in
    if force || (crossed_threshold && changed) then
      (Some local,
       mkRs (config s) (preamble s) (chunks s) (planner s) (attached_peers s)
         (in_flight s) (next_handle s) count)
    else (None, s).

(** [chunk_sent]; the check that [peer] is the peer of the handle is a debug
    assertion, absent from release builds. *)
Definition chunk_sent (s : RsStrategy) (peer handle : N) (ok : bool) : RsStrategy :=
  match in_flight s !! handle with
  | Some (p, idx) =>
      let planner :=
        if ok then EmitPlanner.record_sent (planner s) peer idx
        else EmitPlanner.refund_allocation
               (EmitPlanner.cancel_in_flight (planner s) peer idx) idx in
      mkRs (config s) (preamble s) (chunks s) planner (attached_peers s)
        (delete handle (in_flight s)) (next_handle s) (last_routing_emitted_count s)
  | None => s
  end.

Definition progress (s : RsStrategy) : N * N :=
  (accepted_count s, i32_as_u32 (num_data (preamble s))).

Definition decode (s : RsStrategy) : result Decode.DecodeError bytes := reconstruct s.
End rs.

#[export] Instance RsStrategy_Strategy `{Sha256, ReedSolomon} :
  Strategy RsStrategy N BitMap Decode.DecodeError := {|
  Strategy.have_chunk := have_chunk;
  Strategy.verify_chunk := verify_chunk;
  Strategy.take_chunk := take_chunk;
  Strategy.attach_peer := attach_peer;
  Strategy.detach_peer := detach_peer;
  Strategy.routing_update := routing_update;
  Strategy.poll_chunks := poll_chunks;
  Strategy.poll_routing := poll_routing;
  Strategy.chunk_sent := chunk_sent;
  Strategy.progress := progress;
  Strategy.decode := decode
|}.
End Rs.

(** * The dispatch books

    The strategy's handle map and the planner's in-flight sets record the same
    sends: [books] states how they agree, and that a relay's allocation count
    covers the sends made and those under way. *)
Module Books.
Import EmitPlanner PlannerLemmas.

(** How many sends of shard [i] are under way. *)
Definition held_count (m : gmap N (N * N)) (i : N) : N :=
  N.of_nat (size (filter (λ kv : N * (N * N), kv.2.2 = i) m)).

Lemma held_count_insert m h p j i :
  m !! h = None →
  held_count (<[h := (p, j)]> m) i = held_count m i + if decide (j = i) then 1 else 0.
Proof.
  intros Hh. unfold held_count. case_decide as Hj.
  - rewrite map_filter_insert_True, map_size_insert_None; [lia| |done].
    by apply map_lookup_filter_None; left.
  - rewrite map_filter_insert_False, delete_id by done. lia.
Qed.

Lemma held_count_delete m h p j i :
  m !! h = Some (p, j) →
  held_count m i = held_count (delete h m) i + if decide (j = i) then 1 else 0.
Proof.
  intros Hh. rewrite <- (held_count_insert (delete h m) h p j i) by apply lookup_delete_eq.
  by rewrite insert_delete_id.
Qed.

Definition drop_peer (m : gmap N (N * N)) (peer : N) : gmap N (N * N) :=
  filter (λ kv, kv.2.1 ≠ peer) m.

Lemma lookup_drop_peer m peer h q j :
  drop_peer m peer !! h = Some (q, j) ↔ m !! h = Some (q, j) ∧ q ≠ peer.
Proof. unfold drop_peer. by rewrite map_lookup_filter_Some. Qed.

Lemma held_count_drop_peer m peer i :
  (∀ h h' v, m !! h = Some v → m !! h' = Some v → h = h') →
  ((∃ h, m !! h = Some (peer, i)) →
    held_count m i = held_count (drop_peer m peer) i + 1) ∧
  ((¬ ∃ h, m !! h = Some (peer, i)) →
    held_count m i = held_count (drop_peer m peer) i).
Proof.
  intros Hinj. unfold held_count. split.
  - intros [h Hh].
    assert (filter (λ kv : N * (N * N), kv.2.2 = i) m =
      <[h := (peer, i)]> (filter (λ kv : N * (N * N), kv.2.2 = i) (drop_peer m peer))) as ->.
    { apply map_eq. intros k. apply option_eq. intros [q j].
      rewrite lookup_insert_Some, !map_lookup_filter_Some, lookup_drop_peer. simpl. split.
      - intros [Hk ->]. destruct (decide (h = k)) as [->|Hne]; [left; naive_solver|right].
        split; [done|]. split; [|done]. split; [done|].
        intros ->. apply Hne. by eapply Hinj.
      - intros [[-> [= <- <-]]|(? & (? & ?) & ?)]; done. }
    rewrite map_size_insert_None; [lia|].
    apply map_lookup_filter_None. left. apply map_lookup_filter_None. right.
    intros [q j] Hq. rewrite Hh in Hq. injection Hq as <- <-. simpl. tauto.
  - intros Hno. f_equal. f_equal. apply map_eq. intros k. apply option_eq. intros [q j].
    rewrite !map_lookup_filter_Some, lookup_drop_peer. simpl. split; [|tauto].
    intros [Hk ->]. split; [|done]. split; [done|]. intros ->. apply Hno. eauto.
Qed.

Record books (p : EmitPlanner) (m : gmap N (N * N)) (next : N) : Prop := {
  bk_planner : wf p;
  bk_handle : ∀ h q i, m !! h = Some (q, i) →
    h < next ∧ i ∈ Planner.in_flight (peer_state p q);
  bk_inj : ∀ h h' v, m !! h = Some v → m !! h' = Some v → h = h';
  bk_all : ∀ q i, i ∈ Planner.in_flight (peer_state p q) → ∃ h, m !! h = Some (q, i);
  bk_budget : ∀ c, cap p = Some c → ∀ i,
    sent_count p i + held_count m i ≤ allocation_count p i
}.

Lemma books_new n sd md :
  (∀ c, md = Relay c → c < 2 ^ 32) → books (new n sd md) ∅ 0.
Proof.
  intros Hm. split.
  - by apply new_wf.
  - intros h q i. by rewrite lookup_empty.
  - intros h h' v. by rewrite lookup_empty.
  - intros q i. unfold peer_state. simpl. rewrite lookup_empty. simpl. set_solver.
  - intros c _ i. unfold sent_count, allocation_count, held_count. simpl.
    rewrite !lookup_empty, map_filter_empty, map_size_empty. simpl. lia.
Qed.

(** Changes of the planner that move no send. *)
Lemma books_same p p' m next :
  books p m next → wf p' → same_shape p p' →
  (∀ q, Planner.in_flight (peer_state p' q) = Planner.in_flight (peer_state p q)) →
  (∀ i, sent_count p' i = sent_count p i) →
  (∀ c, cap p = Some c → ∀ i, allocation_count p i ≤ allocation_count p' i) →
  books p' m next.
Proof.
  intros [] Hwf Hsh Hf Hsc Hal. split; [done|..].
  - intros h q i. rewrite Hf. auto.
  - done.
  - intros q i. rewrite Hf. auto.
  - intros c Hc i. rewrite (same_shape_cap _ _ Hsh) in Hc. rewrite Hsc.
    pose proof (bk_budget0 c Hc i). pose proof (Hal c Hc i). lia.
Qed.

Lemma sent_count_eq p p' i : sent_counts p' = sent_counts p → sent_count p' i = sent_count p i.
Proof. unfold sent_count. by intros ->. Qed.

Lemma allocation_count_eq p p' i :
  allocations p' = allocations p → allocation_count p' i = allocation_count p i.
Proof. unfold allocation_count. by intros ->. Qed.

Lemma books_allocate_None p m next peer p' :
  books p m next → allocate p peer = (None, p') → books p' m next.
Proof.
  intros Hb Ha. apply allocate_None in Ha as (? & Hsh & Hsc & Hal & _ & Hps);
    [|apply Hb].
  eapply books_same; try done.
  - intros q. by rewrite Hps.
  - intros i. by apply sent_count_eq.
  - intros c _ i. by rewrite (allocation_count_eq p p').
Qed.

(** The count of an allocated shard goes up by one, in a relay. *)
Lemma allocate_count p peer i p' c :
  wf p → allocate p peer = (Some i, p') → cap p = Some c →
  ∀ j, allocation_count p' j = allocation_count p j + if decide (i = j) then 1 else 0.
Proof.
  intros Hwf Ha Hc j. destruct (wf_cap p Hwf c Hc) as [Hc32 _].
  apply allocate_Some in Ha as (_ & _ & _ & [_ He] & _ & Hcnt & _); [|done].
  apply (blocked_cap c) in He as Hlt; [|done]. simpl in Hlt. rewrite Hcnt.
  destruct (decide (j = i)) as [->|].
  - rewrite decide_True, u32_add_small by lia. done.
  - rewrite decide_False by congruence. lia.
Qed.

Lemma eligible_not_in_flight p peer i :
  eligible p peer i → i ∉ Planner.in_flight (peer_state p peer).
Proof.
  intros [_ He]. unfold blocked in He. apply orb_false_iff in He as [_ He].
  by apply bool_decide_eq_false in He.
Qed.

(** A dispatched shard: the handle joins the books. *)
Lemma books_dispatch p m next peer i p' :
  books p m next → allocate p peer = (Some i, p') → next + 1 < 2 ^ 64 →
  books p' (<[next := (peer, i)]> m) (u64_add next 1).
Proof.
  intros Hb Ha Hn. pose proof (bk_planner _ _ _ Hb) as Hwf.
  pose proof (allocate_count p peer i p') as Hcnt.
  pose proof Ha as (Hwf' & Hsh & Hsc & He & _ & _ & Hps)%allocate_Some; [|done].
  apply eligible_not_in_flight in He. rewrite u64_add_small by done.
  assert (m !! next = None) as Hfresh.
  { destruct (m !! next) as [[q j]|] eqn:E; [|done].
    apply (bk_handle _ _ _ Hb) in E. lia. }
  assert (∀ h, m !! h ≠ Some (peer, i)) as Hno.
  { intros h Hh. by apply (bk_handle _ _ _ Hb) in Hh as [_ ?]. }
  split; [done|..].
  - intros h q j. rewrite lookup_insert_Some, Hps. intros [[<- [= <- <-]]|[_ Hh]].
    + split; [lia|]. rewrite decide_True by done. simpl. set_solver.
    + apply (bk_handle _ _ _ Hb) in Hh as [? ?]. split; [lia|].
      case_decide; [|done]. subst q. simpl. set_solver.
  - intros h h' v. rewrite !lookup_insert_Some.
    intros [[<- <-]|[? Hh]] [[<- Hv]|[? Hh']]; subst; try done; try by apply Hno in Hh || apply Hno in Hh'.
    by eapply (bk_inj _ _ _ Hb).
  - intros q j. rewrite Hps. case_decide as Hq; [subst q; simpl|].
    + rewrite elem_of_union, elem_of_singleton. intros [->|Hj].
      * exists next. by rewrite lookup_insert_eq.
      * apply (bk_all _ _ _ Hb) in Hj as [h Hh]. exists h.
        rewrite lookup_insert_ne; [done|]. intros ->. congruence.
    + intros Hj. apply (bk_all _ _ _ Hb) in Hj as [h Hh]. exists h.
      rewrite lookup_insert_ne; [done|]. intros ->. congruence.
  - intros c Hc j. rewrite (same_shape_cap _ _ Hsh) in Hc.
    rewrite (sent_count_eq p), held_count_insert, (Hcnt c) by done.
    pose proof (bk_budget _ _ _ Hb c Hc j). lia.
Qed.

(** A shard that was allocated and then cancelled: no send, but the allocation
    stays counted. *)
Lemma books_cancelled p m next peer i p' :
  books p m next → allocate p peer = (Some i, p') →
  books (cancel_in_flight p' peer i) m next.
Proof.
  intros Hb Ha. pose proof (bk_planner _ _ _ Hb) as Hwf.
  pose proof (allocate_count p peer i p') as Hcnt.
  pose proof Ha as (Hwf' & (? & ? & ?) & Hsc & He & _ & _ & Hps)%allocate_Some; [|done].
  apply eligible_not_in_flight in He.
  destruct (cancel_in_flight_spec p' peer i Hwf') as (Hwf2 & (? & ? & ?) & Hal2 & Hsc2 & Hf2).
  eapply books_same; [done|done|..].
  - split_and!; congruence.
  - intros q. rewrite Hf2, Hps. destruct (decide (q = peer)) as [->|]; [|done].
    simpl. set_solver.
  - intros j. apply sent_count_eq. congruence.
  - intros c Hc j. rewrite (allocation_count_eq p' (cancel_in_flight p' peer i)) by done.
    rewrite (Hcnt c) by done. lia.
Qed.

(** A completed send leaves the books. *)
Lemma books_delete p m next h peer i p' :
  books p m next → m !! h = Some (peer, i) →
  wf p' → same_shape p p' →
  (∀ q, Planner.in_flight (peer_state p' q) =
        if decide (q = peer) then Planner.in_flight (peer_state p q) ∖ {[i]}
        else Planner.in_flight (peer_state p q)) →
  (∀ c, cap p = Some c → ∀ j,
     sent_count p' j + held_count (delete h m) j ≤ allocation_count p' j) →
  books p' (delete h m) next.
Proof.
  intros Hb Hh Hwf Hsh Hf Hbud. split; [done|..].
  - intros h' q j [Hne Hq]%lookup_delete_Some. apply (bk_handle _ _ _ Hb) in Hq as Hq'.
    destruct Hq' as [? ?]. split; [done|]. rewrite Hf.
    case_decide; [|done]. subst q. apply elem_of_difference. split; [done|].
    rewrite elem_of_singleton. intros ->. apply Hne. by eapply (bk_inj _ _ _ Hb).
  - intros h1 h2 v [_ ?]%lookup_delete_Some [_ ?]%lookup_delete_Some.
    by eapply (bk_inj _ _ _ Hb).
  - intros q j Hj. assert (j ∈ Planner.in_flight (peer_state p q) ∧ ¬ (q = peer ∧ j = i))
      as [Hj' Hne].
    { rewrite Hf in Hj. case_decide; [|tauto].
      apply elem_of_difference in Hj as [? ?%not_elem_of_singleton]. tauto. }
    apply (bk_all _ _ _ Hb) in Hj' as [h' Hh']. exists h'.
    apply lookup_delete_Some. split; [|done]. intros ->. naive_solver.
  - intros c Hc. rewrite (same_shape_cap _ _ Hsh) in Hc. by apply Hbud with c.
Qed.

Lemma books_sent p m next h peer i :
  books p m next → m !! h = Some (peer, i) →
  books (record_sent p peer i) (delete h m) next.
Proof.
  intros Hb Hh. destruct (record_sent_spec p peer i (bk_planner _ _ _ Hb))
    as (Hwf & Hsh & Hal & Hsc & Hf).
  apply (books_delete p m next h peer i); try done.
  intros c Hc j. destruct (wf_cap _ (bk_planner _ _ _ Hb) c Hc) as [Hc32 Hle].
  pose proof (bk_budget _ _ _ Hb c Hc j) as Hbud. pose proof (Hle j).
  rewrite (held_count_delete m h peer i j Hh) in Hbud.
  rewrite (allocation_count_eq p) by done. rewrite Hsc.
  destruct (decide (j = i)) as [->|].
  - rewrite decide_True in Hbud by done. rewrite u32_add_small by lia. lia.
  - rewrite decide_False in Hbud by congruence. lia.
Qed.

Lemma books_failed p m next h peer i :
  books p m next → m !! h = Some (peer, i) →
  books (refund_allocation (cancel_in_flight p peer i) i) (delete h m) next.
Proof.
  intros Hb Hh. destruct (cancel_in_flight_spec p peer i (bk_planner _ _ _ Hb))
    as (Hwf & (? & ? & ?) & Hal & Hsc & Hf).
  destruct (refund_allocation_spec _ i Hwf) as (Hwf2 & (? & ? & ?) & Hps2 & Hsc2 & Hal2).
  apply (books_delete p m next h peer i); try done.
  - intros q. rewrite <- Hf. unfold peer_state. by rewrite Hps2.
  - intros c Hc j. pose proof (bk_budget _ _ _ Hb c Hc j) as Hbud.
    rewrite (held_count_delete m h peer i j Hh) in Hbud.
    rewrite Hal2, (sent_count_eq p) by congruence.
    rewrite !(allocation_count_eq p (cancel_in_flight p peer i)) by done.
    destruct (decide (j = i)) as [->|].
    + rewrite decide_True in Hbud by done. lia.
    + rewrite decide_False in Hbud by congruence. lia.
Qed.

Lemma books_drop_peer p m next peer :
  books p m next → books (remove_peer p peer) (drop_peer m peer) next.
Proof.
  intros Hb. pose proof (bk_planner _ _ _ Hb) as Hwf.
  destruct (remove_peer_spec p peer Hwf) as (Hwf2 & Hsh & Hsc & Hal & Hps).
  split; [done|..].
  - intros h q j [Hh Hne]%lookup_drop_peer. rewrite Hps, decide_False by done.
    by apply (bk_handle _ _ _ Hb).
  - intros h h' [q j] [? _]%lookup_drop_peer [? _]%lookup_drop_peer.
    by eapply (bk_inj _ _ _ Hb).
  - intros q j. rewrite Hps. case_decide; [simpl; set_solver|].
    intros [h Hh]%(bk_all _ _ _ Hb). exists h. by apply lookup_drop_peer.
  - intros c Hc j. rewrite (same_shape_cap _ _ Hsh) in Hc.
    pose proof (bk_budget _ _ _ Hb c Hc j) as Hbud.
    destruct (held_count_drop_peer m peer j (bk_inj _ _ _ Hb)) as [Hin Hout].
    rewrite (sent_count_eq p), Hal by done.
    destruct (decide (j ∈ Planner.in_flight (peer_state p peer))) as [Hj|Hj].
    + rewrite Hin in Hbud by by apply (bk_all _ _ _ Hb). lia.
    + rewrite Hout in Hbud; [lia|]. intros [h Hh].
      by apply (bk_handle _ _ _ Hb) in Hh as [_ ?].
Qed.
End Books.

(** * The strategy's invariant *)
Module RsLemmas.
Import Rs Books.
Section lemmas.
Context `{Sha256, ReedSolomon}.

(** The counts of a preamble are [i32]s. *)
Definition preamble_i32 (p : Preamble) : Prop :=
  (num_data p ≤ I32_MAX)%Z ∧ (num_parity p ≤ I32_MAX)%Z.

Lemma preamble_total_valid p :
  valid_preamble p → preamble_i32 p → preamble_total p = shard_total p.
Proof.
  intros [] [? ?]. unfold preamble_total, shard_total.
  apply i32_add_as_u32; lia.
Qed.

Record wf (s : RsStrategy) : Prop := {
  wf_preamble : valid_preamble (preamble s);
  wf_i32 : preamble_i32 (preamble s);
  wf_chunks : N.of_nat (length (chunks s)) = total_shards s;
  wf_verified : ∀ i d, slot s i = Some d →
    Verify.verify_chunk (preamble s) i d = Verdict.Accepted;
  wf_num : num_shards (planner s) = total_shards s;
  wf_books : books (planner s) (in_flight s) (next_handle s);
  wf_held : ∀ h q i, in_flight s !! h = Some (q, i) → is_Some (slot s i)
}.

Lemma total_shards_eq s : wf s → total_shards s = shard_total (preamble s).
Proof. intros Hwf. apply preamble_total_valid; apply Hwf. Qed.

Lemma shard_total_u32 p : valid_preamble p → shard_total p < 2 ^ 32.
Proof. intros []. unfold shard_total. lia. Qed.

(** What the operations never change. *)
Definition same_session (s s' : RsStrategy) : Prop :=
  config s' = config s ∧ preamble s' = preamble s ∧ mode (planner s') = mode (planner s).

#[export] Instance same_session_po : PreOrder same_session.
Proof.
  split; [by intros s|]. intros s1 s2 s3 (?&?&?) (?&?&?). split_and!; congruence.
Qed.

(** An update of the books alone. *)
Lemma wf_update s p m n at_ l :
  wf s → books p m n → num_shards p = num_shards (planner s) →
  (∀ h q i, m !! h = Some (q, i) → is_Some (slot s i)) →
  wf (mkRs (config s) (preamble s) (chunks s) p at_ m n l).
Proof. intros [] Hb Hn Hh. split; try done. simpl. by rewrite Hn. Qed.

(** ** [poll_chunks] *)

Lemma poll_peers_cons s peer peers :
  poll_peers s (peer :: peers) =
  match EmitPlanner.allocate (planner s) peer with
  | (Some idx, p) =>
      match slot (with_planner s p) idx with
      | Some payload =>
          let '(ds, s') := poll_peers
            (mkRs (config s) (preamble s) (chunks s) p (attached_peers s)
               (<[next_handle s := (peer, idx)]> (in_flight s)) (u64_add (next_handle s) 1)
               (last_routing_emitted_count s)) peers in
          (mkChunkDispatch peer idx (next_handle s) payload :: ds, s')
      | None => poll_peers (with_planner s (EmitPlanner.cancel_in_flight p peer idx)) peers
      end
  | (None, p) => poll_peers (with_planner s p) peers
  end.
Proof. reflexivity. Qed.

Lemma poll_peers_spec s l ds s' :
  wf s → NoDup l → next_handle s + N.of_nat (length l) < 2 ^ 64 →
  poll_peers s l = (ds, s') →
  wf s' ∧ same_session s s' ∧ chunks s' = chunks s ∧
  attached_peers s' = attached_peers s ∧
  next_handle s' = next_handle s + N.of_nat (length ds) ∧
  d_peer <$> ds `sublist_of` l ∧
  d_handle <$> ds = (λ k, next_handle s + N.of_nat k) <$> seq 0 (length ds) ∧
  (∀ d, d ∈ ds → slot s (d_chunk_id d) = Some (d_payload d)) ∧
  (∀ h v, in_flight s' !! h = Some v ↔
    in_flight s !! h = Some v ∨ ∃ d, d ∈ ds ∧ d_handle d = h ∧ v = (d_peer d, d_chunk_id d)).
Proof.
  revert s ds s'; induction l as [|peer l IH]; intros s ds s' Hwf Hnd Hn Hp.
  { simpl in Hp. simplify_eq. split_and!; try done.
    - simpl. lia.
    - intros d []%elem_of_nil.
    - intros h v. split; [auto|]. intros [|(d & []%elem_of_nil & _)]; done. }
  apply NoDup_cons in Hnd as [_ Hnd]. cbn [length] in Hn. rewrite poll_peers_cons in Hp.
  destruct (EmitPlanner.allocate (planner s) peer) as [[i|] p'] eqn:Ha.
  - pose proof (bk_planner _ _ _ (wf_books s Hwf)) as Hpw.
    pose proof Ha as (_ & (Hm & Hns & _) & _)%PlannerLemmas.allocate_Some; [|done].
    change (slot (with_planner s p') i) with (slot s i) in Hp.
    destruct (slot s i) as [d|] eqn:Hd.
    + set (s1 := mkRs _ _ _ _ _ _ _ _) in Hp.
      assert (wf s1) as Hwf1.
      { apply (wf_update s); [done| |done|].
        - eapply books_dispatch; [exact (wf_books s Hwf)|done|lia].
        - intros h q j. rewrite lookup_insert_Some.
          intros [[_ [= _ <-]]|[_ ?]]; [by rewrite Hd|by eapply (wf_held s Hwf)]. }
      assert (next_handle s1 = next_handle s + 1) as Hn1 by (apply u64_add_small; lia).
      destruct (poll_peers s1 l) as [ds1 s2] eqn:Hp1. injection Hp as <- <-.
      destruct (IH s1 ds1 s2) as (? & ? & ? & ? & Hn2 & Hsub & Hhs & Hpl & Hfl);
        [done|done|lia|done|].
      split; [done|]. split; [etrans; [|done]; done|]. split; [done|]. split; [done|].
      split; [rewrite Hn2, Hn1; cbn [length]; lia|]. split; [by apply sublist_skip|].
      split; [|split].
      * rewrite fmap_cons. cbn [length seq d_handle]. rewrite fmap_cons. f_equal; [lia|].
        rewrite Hhs, <- fmap_S_seq, <- list_fmap_compose.
        apply list_fmap_ext. intros ? k _. rewrite Hn1. unfold compose. lia.
      * intros d' [->|Hd']%elem_of_cons; [done|]. by apply Hpl in Hd'.
      * intros h v. rewrite Hfl. simpl. rewrite lookup_insert_Some.
        setoid_rewrite elem_of_cons. split.
        -- intros [[[<- <-]|[_ ?]]|(d' & ? & ? & ?)]; [right|by left|right; by exists d'; auto].
           eexists. split; [by left|done].
        -- intros [Hh|(d' & [->|?] & ? & ?)].
           ++ left. right. split; [|done]. intros <-. destruct v.
              apply (bk_handle _ _ _ (wf_books s Hwf)) in Hh as [? _]. lia.
           ++ left. left. done.
           ++ right. by exists d'.
    + set (s1 := with_planner _ _) in Hp.
      assert (wf s1) as Hwf1.
      { apply (wf_update s); [done| |by simpl; rewrite <- Hns|exact (wf_held s Hwf)].
        eapply books_cancelled, Ha. exact (wf_books s Hwf). }
      destruct (IH s1 ds s') as (? & ? & ? & ? & ? & ? & ? & ? & ?); [done|done|simpl; lia|done|].
      split; [done|]. split; [etrans; [|done]; done|]. split_and!; try done.
      by apply sublist_cons.
  - set (s1 := with_planner _ _) in Hp.
    pose proof Ha as (_ & (Hm & Hns & _) & _)%PlannerLemmas.allocate_None;
      [|apply (bk_planner _ _ _ (wf_books s Hwf))].
    assert (wf s1) as Hwf1.
    { apply (wf_update s); [done| |done|exact (wf_held s Hwf)].
      eapply books_allocate_None, Ha. exact (wf_books s Hwf). }
    destruct (IH s1 ds s') as (? & ? & ? & ? & ? & ? & ? & ? & ?); [done|done|simpl; lia|done|].
    split; [done|]. split; [etrans; [|done]; done|]. split_and!; try done.
    by apply sublist_cons.
Qed.

(** ** Constructors *)

Lemma slot_lookup s i d : slot s i = Some d ↔ chunks s !! N.to_nat i = Some (Some d).
Proof. unfold slot. destruct (chunks s !! N.to_nat i) as [[]|]; simpl; naive_solver. Qed.

Lemma with_wf cfg pre cs sd md :
  valid_preamble pre → preamble_i32 pre →
  N.of_nat (length cs) = preamble_total pre →
  (∀ i d, cs !! N.to_nat i = Some (Some d) →
     Verify.verify_chunk pre i d = Verdict.Accepted) →
  (∀ c, md = Relay c → c < 2 ^ 32) →
  wf (with_ cfg pre cs (EmitPlanner.new (preamble_total pre) sd md)).
Proof.
  intros Hv Hi Hc Hver Hm. split; try done.
  - intros i d Hs. apply Hver. by apply slot_lookup in Hs.
  - by apply books_new.
Qed.

Lemma new_relay_wf pre cfg sd s :
  preamble_i32 pre → forward_multiplier cfg < 2 ^ 32 →
  new_relay_with_seed pre cfg sd = Ok s →
  wf s ∧ preamble s = pre ∧ config s = cfg ∧
  mode (planner s) = Relay (forward_multiplier cfg) ∧
  attached_peers s = ∅ ∧ next_handle s = 0 ∧ ∀ i, slot s i = None.
Proof.
  intros Hi Hf. unfold new_relay_with_seed.
  destruct (Verify.validate_preamble pre) as [[]|] eqn:Hv; [|done].
  apply VerifyLemmas.validate_preamble_Ok in Hv. cbn [mbind result_bind].
  intros [= <-].
  assert (∀ i d, replicate (N.to_nat (preamble_total pre)) None !! i ≠ Some (Some d :> option bytes))
    as Hnone.
  { intros i d [? _]%lookup_replicate. done. }
  split; [|split_and!; try done].
  - apply with_wf; try done.
    + rewrite length_replicate. lia.
    + intros i d Hd. by apply Hnone in Hd.
    + intros c [= <-]. done.
  - intros i. destruct (slot _ i) as [d|] eqn:E; [|done].
    apply slot_lookup in E. by apply Hnone in E.
Qed.

(** ** The operations keep the invariant *)

Lemma slot_insert s i d j p at_ m n l :
  i < total_shards s → wf s →
  slot (mkRs (config s) (preamble s) (<[N.to_nat i := Some d]> (chunks s)) p at_ m n l) j =
  if decide (j = i) then Some d else slot s j.
Proof.
  intros Hi Hwf. unfold slot. simpl. pose proof (wf_chunks s Hwf).
  destruct (decide (j = i)) as [->|Hj].
  - by rewrite list_lookup_insert_eq by lia.
  - rewrite list_lookup_insert_ne; [done|]. intros E. by apply N2Nat.inj in E.
Qed.

Lemma take_chunk_wf s i d :
  wf s → wf (snd (take_chunk s i d)) ∧ same_session s (snd (take_chunk s i d)) ∧
  attached_peers (snd (take_chunk s i d)) = attached_peers s ∧
  next_handle (snd (take_chunk s i d)) = next_handle s.
Proof.
  intros Hwf. unfold take_chunk. case_decide as Hi; [done|].
  case_decide as Hs; [done|].
  destruct (VerifyLemmas.verify_chunk_cases (preamble s) i d) as [Hv|Hv]; rewrite Hv;
    [|done].
  cbv zeta. cbn [snd]. split; [|done].
  match goal with |- wf ?q => set (s' := q) end.
  assert (∀ j, slot s' j = if decide (j = i) then Some d else slot s j) as Hsl.
  { intros j. apply slot_insert; [lia|done]. }
  destruct Hwf. split; try done.
  - simpl. by rewrite length_insert.
  - intros j e. rewrite Hsl. case_decide; [subst j|by auto]. by intros [= <-].
  - intros h q j Hh. rewrite Hsl. case_decide; [done|]. by eapply wf_held0.
Qed.

Lemma detach_peer_wf s peer b :
  wf s → wf (detach_peer s peer b) ∧ same_session s (detach_peer s peer b).
Proof.
  intros Hwf.
  destruct (PlannerLemmas.remove_peer_spec (planner s) peer) as (_ & (Hm & Hn & _) & _);
    [apply (bk_planner _ _ _ (wf_books s Hwf))|].
  split; [|done]. apply (wf_update s); [done| |done|].
  - apply books_drop_peer, wf_books, Hwf.
  - intros h q i [Hh _]%lookup_drop_peer. by eapply (wf_held s Hwf).
Qed.

Lemma routing_update_wf s peer b :
  wf s → wf (snd (routing_update s peer b)) ∧ same_session s (snd (routing_update s peer b)).
Proof.
  intros Hwf. unfold routing_update. cbn [snd].
  set (merged := match EmitPlanner.peer_havelist _ _ with Some _ => _ | None => _ end).
  destruct (PlannerLemmas.set_peer_havelist_spec (planner s) peer merged)
    as (Hw & (? & ? & ?) & Hal & Hsc & _ & Hf);
    [apply (bk_planner _ _ _ (wf_books s Hwf))|].
  split; [|done]. apply (wf_update s); [done| |done|exact (wf_held s Hwf)].
  eapply books_same; [apply (wf_books s Hwf)|done|done|done|..].
  - intros i. by apply sent_count_eq.
  - intros c _ i. by rewrite (allocation_count_eq _ _ _ Hal).
Qed.

Lemma poll_routing_wf s f :
  wf s → wf (snd (poll_routing s f)) ∧ same_session s (snd (poll_routing s f)) ∧
  attached_peers (snd (poll_routing s f)) = attached_peers s ∧
  next_handle (snd (poll_routing s f)) = next_handle s.
Proof.
  intros Hwf. unfold poll_routing. destruct (_ && _); [done|]. cbv zeta.
  destruct (_ || _); [|done]. split; [|done].
  apply (wf_update s); [done|apply (wf_books s Hwf)|done|exact (wf_held s Hwf)].
Qed.

Lemma chunk_sent_wf s peer h ok :
  wf s → (∀ v, in_flight s !! h = Some v → v.1 = peer) →
  wf (chunk_sent s peer h ok) ∧ same_session s (chunk_sent s peer h ok).
Proof.
  intros Hwf Hpeer. unfold chunk_sent.
  destruct (in_flight s !! h) as [[p i]|] eqn:Hh; [|done].
  specialize (Hpeer _ eq_refl). simpl in Hpeer. subst p.
  pose proof (bk_planner _ _ _ (wf_books s Hwf)) as Hpw. cbv zeta.
  assert (PlannerLemmas.same_shape (planner s) (if ok
     then EmitPlanner.record_sent (planner s) peer i
     else EmitPlanner.refund_allocation
            (EmitPlanner.cancel_in_flight (planner s) peer i) i)) as (Hm & Hn & _).
  { destruct ok; [done|].
    destruct (PlannerLemmas.cancel_in_flight_spec _ peer i Hpw) as (Hw & (? & ? & ?) & _).
    destruct (PlannerLemmas.refund_allocation_spec _ i Hw) as (_ & (? & ? & ?) & _).
    split_and!; congruence. }
  split; [|done]. apply (wf_update s); [done| |done|].
  - destruct ok; [apply books_sent|apply books_failed]; by try apply (wf_books s Hwf).
  - intros h' q j [_ Hq]%lookup_delete_Some. by eapply (wf_held s Hwf).
Qed.

Lemma attach_peer_wf s peer : wf s → wf (attach_peer s peer) ∧ same_session s (attach_peer s peer).
Proof.
  intros Hwf. split; [|done].
  apply (wf_update s); [done|apply (wf_books s Hwf)|done|exact (wf_held s Hwf)].
Qed.
End lemmas.
End RsLemmas.

(** * Sessions as sequences of operations *)
Module RsTrace.
Import Rs Books RsLemmas.
Section trace.
Context `{Sha256, ReedSolomon}.

(** The calls the engine makes on a strategy. *)
Inductive op :=
  | TakeChunk (idx : N) (data : bytes)
  | AttachPeer (peer : N)
  | DetachPeer (peer : N) (completed : bool)
  | RoutingUpdate (peer : N) (update : BitMap)
  | PollChunks
  | PollRouting (force : bool)
  | ChunkSent (peer handle : N) (ok : bool).

Definition step (s : RsStrategy) (o : op) : RsStrategy :=
  match o with
  | TakeChunk idx data => snd (take_chunk s idx data)
  | AttachPeer peer => attach_peer s peer
  | DetachPeer peer completed => detach_peer s peer completed
  | RoutingUpdate peer update => snd (routing_update s peer update)
  | PollChunks => snd (poll_chunks s)
  | PollRouting force => snd (poll_routing s force)
  | ChunkSent peer handle ok => chunk_sent s peer handle ok
  end.

(** The contract of [chunk_sent], which the code asserts in debug builds: the
    peer is the one the handle was issued for. *)
Definition op_ok (s : RsStrategy) (o : op) : Prop :=
  match o with
  | ChunkSent peer handle _ => ∀ v, in_flight s !! handle = Some v → v.1 = peer
  | _ => True
  end.

(** [reach s0 k s]: [k] calls lead from [s0] to [s]. *)
Inductive reach (s0 : RsStrategy) : N → RsStrategy → Prop :=
  | reach_refl : reach s0 0 s0
  | reach_step k s o :
      reach s0 k s → op_ok s o → reach s0 (k + 1) (step s o).

(** The invariant after [k] calls; the bound on the handles keeps the [u64]
    handle counter from wrapping. *)
Record inv (s0 : RsStrategy) (k : N) (s : RsStrategy) : Prop := {
  inv_wf : wf s;
  inv_session : same_session s0 s;
  inv_peers : N.of_nat (size (attached_peers s)) ≤ k;
  inv_next : next_handle s ≤ k * k
}.

Lemma inv_poll_chunks s0 k s ds s' :
  inv s0 k s → k < 2 ^ 32 - 1 → poll_chunks s = (ds, s') →
  inv s0 (k + 1) s' ∧ chunks s' = chunks s ∧
  next_handle s' = next_handle s + N.of_nat (length ds) ∧
  d_peer <$> ds `sublist_of` bt_elements (attached_peers s) ∧
  d_handle <$> ds = (λ k, next_handle s + N.of_nat k) <$> seq 0 (length ds) ∧
  (∀ d, d ∈ ds → slot s (d_chunk_id d) = Some (d_payload d)) ∧
  (∀ h v, in_flight s' !! h = Some v ↔
    in_flight s !! h = Some v ∨ ∃ d, d ∈ ds ∧ d_handle d = h ∧ v = (d_peer d, d_chunk_id d)).
Proof.
  intros [Hwf Hss Hpe Hne] Hk Hp.
  pose proof (length_bt_elements (attached_peers s)) as Hl.
  assert (k * k ≤ k * 2 ^ 32) by (apply N.mul_le_mono_l; lia).
  apply poll_peers_spec in Hp as (? & ? & Hc & Ha & Hn & Hsub & ? & ? & ?);
    [|done|apply NoDup_bt_elements|lia].
  split; [|by split_and!]. split; [done|by etrans|rewrite Ha; lia|].
  apply sublist_length in Hsub. rewrite length_fmap, Hl in Hsub. lia.
Qed.

Lemma inv_step s0 k s o :
  inv s0 k s → k < 2 ^ 32 - 1 → op_ok s o → inv s0 (k + 1) (step s o).
Proof.
  intros Hi Hk Hok. pose proof Hi as [Hwf Hss Hpe Hne].
  destruct o as [i d|peer|peer b|peer b| |f|peer h ok]; cbn [step].
  - destruct (take_chunk_wf s i d Hwf) as (? & ? & Ha & Hn).
    split; [done|by etrans|rewrite Ha; lia|rewrite Hn; lia].
  - destruct (attach_peer_wf s peer Hwf). split; [done|by etrans| |simpl; lia].
    simpl. pose proof (size_union_alt {[peer]} (attached_peers s)) as Hs.
    pose proof (subseteq_size (attached_peers s ∖ {[peer]}) (attached_peers s)
                  ltac:(set_solver)).
    rewrite size_singleton in Hs. lia.
  - destruct (detach_peer_wf s peer b Hwf). split; [done|by etrans| |simpl; lia].
    simpl. pose proof (subseteq_size (attached_peers s ∖ {[peer]}) (attached_peers s)
                         ltac:(set_solver)). lia.
  - destruct (routing_update_wf s peer b Hwf). split; [done|by etrans|simpl; lia|simpl; lia].
  - destruct (poll_chunks s) as [ds s'] eqn:Hp.
    by eapply inv_poll_chunks in Hp as [? _].
  - destruct (poll_routing_wf s f Hwf) as (? & ? & Ha & Hn).
    split; [done|by etrans|rewrite Ha; lia|rewrite Hn; lia].
  - destruct (chunk_sent_wf s peer h ok Hwf Hok). split; [done|by etrans|..];
      unfold chunk_sent; destruct (in_flight s !! h) as [[]|]; simpl; lia.
Qed.

Lemma reach_inv s0 k s :
  wf s0 → attached_peers s0 = ∅ → next_handle s0 = 0 →
  k < 2 ^ 32 → reach s0 k s → inv s0 k s.
Proof.
  intros Hwf Ha Hn Hk. induction 1 as [|k s o Hr IH Hok].
  - split; [done|done|by rewrite Ha, size_empty|lia].
  - apply inv_step; [apply IH|..]; done || lia.
Qed.

(** ** Reconstruction from the accepted chunks *)

Lemma accepted_count_eq s :
  wf s → accepted_count s = N.of_nat (length (filter is_Some (chunks s))).
Proof.
  intros Hwf. unfold accepted_count. apply usize_as_u32_small.
  pose proof (length_filter is_Some (chunks s)). pose proof (wf_chunks s Hwf).
  rewrite (total_shards_eq s Hwf) in *.
  pose proof (shard_total_u32 _ (wf_preamble s Hwf)). lia.
Qed.

(** The pairs that [reconstruct] collects, from index [b] on. *)
Lemma pairs_spec (cs : list (option bytes)) b :
  let l := omap (λ '(i, c), (λ d, (usize_as_u32 i, d)) <$> c) (zip (seq b (length cs)) cs) in
  N.of_nat (b + length cs) < 2 ^ 32 →
  length l = length (filter is_Some cs) ∧ NoDup l.*1 ∧
  ∀ i d, (i, d) ∈ l → ∃ j, i = N.of_nat (b + j) ∧ cs !! j = Some (Some d).
Proof.
  cbv zeta. revert b; induction cs as [|c cs IH]; intros b Hb.
  { split; [done|]. split; [constructor|]. intros i d []%elem_of_nil. }
  cbn [length seq zip zip_with] in *. cbn [omap list_omap].
  destruct (IH (S b) ltac:(lia)) as (Hl & Hnd & Hin).
  set (l := omap _ _) in *.
  destruct c as [d|]; cbn [fmap option_fmap option_map].
  - rewrite filter_cons_True by eauto. cbn [length fmap list_fmap fst].
    split; [by rewrite Hl|]. split.
    + apply NoDup_cons. split; [|done]. intros (x & Hx & Hx')%list_elem_of_fmap.
      destruct x as [i e]. apply Hin in Hx' as (j & -> & _). simpl in Hx.
      rewrite usize_as_u32_small in Hx by lia. lia.
    + intros i e [[= -> ->]|Hx]%elem_of_cons.
      * exists 0%nat. rewrite Nat.add_0_r, usize_as_u32_small by lia. done.
      * apply Hin in Hx as (j & -> & Hj). exists (S j). split; [lia|done].
  - rewrite filter_cons_False by (by intros []). split; [done|]. split; [done|].
    intros i e Hx. apply Hin in Hx as (j & -> & Hj). exists (S j). split; [lia|done].
Qed.

Lemma pairs_wf s :
  wf s →
  N.of_nat (length (pairs s)) = accepted_count s ∧ NoDup (pairs s).*1 ∧
  ∀ i d, (i, d) ∈ pairs s → slot s i = Some d.
Proof.
  intros Hwf. pose proof (wf_chunks s Hwf) as Hc. rewrite (total_shards_eq s Hwf) in Hc.
  pose proof (shard_total_u32 _ (wf_preamble s Hwf)).
  destruct (pairs_spec (chunks s) 0) as (Hl & Hnd & Hin); [lia|].
  split; [by rewrite accepted_count_eq, <- Hl|]. split; [done|].
  intros i d (j & -> & Hj)%Hin. apply slot_lookup. by rewrite Nat2N.id.
Qed.
End trace.
End RsTrace.

(** * The local havelist *)
Module Havelist.
Import Rs RsLemmas RsTrace.
Section havelist.
Context `{Sha256, ReedSolomon}.

Lemma havelist_fold (cs : list (option bytes)) b (m : BitMap) :
  BitMap.wf m → N.of_nat (b + length cs) ≤ bm_n m → bm_n m < 2 ^ 32 →
  let m' := foldl (λ b '(i, slot),
      match slot with
      | Some _ => match BitMap.set b (usize_as_u32 i) with Ok b => b | Err _ => b end
      | None => b
      end) m (zip (seq b (length cs)) cs) in
  BitMap.wf m' ∧ bm_n m' = bm_n m ∧
  ∀ j, BitMap.get m' j = true ↔
    BitMap.get m j = true ∨ ∃ i d, cs !! i = Some (Some d) ∧ j = N.of_nat (b + i).
Proof.
  cbv zeta. revert b m; induction cs as [|c cs IH]; intros b m Hm Hb Hn.
  { cbn [length seq zip zip_with foldl]. split_and!; [done..|]. intros j.
    split; [auto|]. intros [|(i & d & Hi & _)]; [done|]. by rewrite lookup_nil in Hi. }
  cbn [length seq zip zip_with foldl] in *.
  assert (∃ m1, match c with
    | Some _ => match BitMap.set m (usize_as_u32 b) with Ok b => b | Err _ => m end
    | None => m end = m1 ∧ BitMap.wf m1 ∧ bm_n m1 = bm_n m ∧
    ∀ j, BitMap.get m1 j = true ↔
      BitMap.get m j = true ∨ ∃ d, c = Some d ∧ j = N.of_nat b) as (m1 & -> & Hw1 & Hn1 & Hg1).
  { eexists. split; [done|]. destruct c as [d|].
    - rewrite usize_as_u32_small by lia. destruct (BitMap.set m (N.of_nat b)) as [m1|e] eqn:E.
      + apply BitMap.set_Ok in E as (? & ? & _ & Hg); [|done]. split; [done|]. split; [done|].
        intros j. rewrite Hg, orb_true_iff, bool_decide_eq_true. naive_solver.
      + unfold BitMap.set in E. case_decide; [lia|done].
    - split; [done|]. split; [done|]. naive_solver. }
  destruct (IH (S b) m1 Hw1 ltac:(lia) ltac:(lia)) as (Hw & Hn' & Hg).
  split; [done|]. split; [by rewrite Hn'|]. intros j. rewrite Hg, Hg1. split.
  - intros [[?|(d & -> & ->)]|(i & d & Hi & ->)]; [by left|right|right].
    + exists 0%nat, d. split; [done|]. lia.
    + exists (S i), d. split; [done|]. lia.
  - intros [?|([|i] & d & Hi & ->)]; [auto| |].
    + left. right. exists d. simpl in Hi. split; [congruence|lia].
    + right. exists i, d. split; [done|]. lia.
Qed.

Lemma local_havelist_spec s :
  wf s →
  BitMap.wf (local_havelist s) ∧ bm_n (local_havelist s) = total_shards s ∧
  ∀ i, BitMap.get (local_havelist s) i = bool_decide (is_Some (slot s i)).
Proof.
  intros Hwf. pose proof (wf_chunks s Hwf) as Hc.
  pose proof (shard_total_u32 _ (wf_preamble s Hwf)) as Ht.
  rewrite <- (total_shards_eq s Hwf) in Ht.
  destruct (havelist_fold (chunks s) 0 (BitMap.with_capacity (total_shards s)))
    as (? & Hn & Hg); [apply BitMap.with_capacity_wf|simpl; lia|done|].
  split; [done|]. split; [done|]. intros i. apply eq_bool_prop_intro.
  rewrite bool_decide_spec. split.
  - intros [Hi|(j & d & Hj & ->)]%Is_true_true%Hg.
    + by rewrite BitMap.get_with_capacity in Hi.
    + exists d. apply slot_lookup. by rewrite Nat2N.id.
  - intros [d Hd%slot_lookup]. apply Is_true_true, Hg. right.
    exists (N.to_nat i), d. split; [done|]. lia.
Qed.

Lemma countb_filter (cs : list (option bytes)) :
  countb (λ i, bool_decide (is_Some (default None (cs !! i)))) (length cs) =
  length (filter is_Some cs).
Proof.
  induction cs as [|c cs IH] using rev_ind; [done|].
  rewrite filter_app, !length_app, Nat.add_comm. cbn [length Nat.add countb].
  rewrite lookup_app_r, Nat.sub_diag by lia. cbn [lookup list_lookup default].
  rewrite (countb_ext _ (λ i, bool_decide (is_Some (default None (cs !! i))))), IH.
  - destruct c; [rewrite filter_cons_True by eauto|rewrite filter_cons_False by (by intros [])];
      simpl; lia.
  - intros i Hi. by rewrite lookup_app_l.
Qed.

(** The set bits of the local havelist are the accepted chunks. *)
Lemma local_havelist_count s :
  wf s → BitMap.count_ones (local_havelist s) = accepted_count s.
Proof.
  intros Hwf. destruct (local_havelist_spec s Hwf) as (Hb & Hn & Hg).
  rewrite BitMap.count_ones_eq, accepted_count_eq, Hn, <- (wf_chunks s Hwf), Nat2N.id by done.
  rewrite <- countb_filter. f_equal. apply countb_ext. intros i _.
  rewrite Hg. unfold slot. by rewrite Nat2N.id.
Qed.
End havelist.
End Havelist.

(** * Properties *)
Section properties.
Context `{Sha256, !Sha256Laws, ReedSolomon, !ReedSolomonLaws}.
Import Rs Books RsLemmas RsTrace.

(** [d], sent as a certain shard, is not another string with the digest of that
    shard.  (That no two strings have the same digest is false; this is asked of
    the chunks at hand, each against the one shard it is compared with.) *)
Definition collision_free (shard : option bytes) (d : bytes) : Prop :=
  ∀ g, shard = Some g → sha256_digest d = sha256_digest g → d = g.

(** A chunk that verifies under an origin's preamble is the origin's shard. *)
Lemma verified_genuine payload kk m pre shards i d :
  encoded payload kk m pre shards → collision_free (shards !! N.to_nat i) d →
  Verify.verify_chunk pre i d = Verdict.Accepted → shards !! N.to_nat i = Some d.
Proof.
  intros He Hcf (_ & _ & Hh)%VerifyLemmas.verify_chunk_Accepted.
  rewrite (en_hashes _ _ _ _ _ He), list_lookup_fmap in Hh.
  destruct (shards !! N.to_nat i) as [g|]; [|done]. injection Hh as Hh.
  f_equal. symmetry. by apply Hcf.
Qed.

(** The counts of an encoding. *)
Lemma encoded_i32 payload k m pre shards :
  encoded payload k m pre shards → preamble_i32 pre.
Proof.
  intros He. destruct (en_rs _ _ _ _ _ He) as (rs & raw & Hrs & _).
  apply rs_new_Ok in Hrs as (? & ? & ?). split.
  - rewrite (en_num_data _ _ _ _ _ He). lia.
  - rewrite (en_num_parity _ _ _ _ _ He). lia.
Qed.

Lemma encoded_total payload k m pre shards :
  encoded payload k m pre shards → N.of_nat (length shards) = preamble_total pre.
Proof.
  intros He. destruct (encoded_valid _ _ _ _ _ He) as [Hv Ht].
  rewrite preamble_total_valid by (by try eapply encoded_i32).
  rewrite Ht, (en_total _ _ _ _ _ He). lia.
Qed.

(** A strategy under an origin's preamble that holds shards of the origin decodes
    the origin's payload once it can reconstruct. *)
Lemma decode_genuine payload kk m pre shards s :
  encoded payload kk m pre shards → preamble s = pre →
  length (chunks s) = length shards →
  (∀ i d, slot s i = Some d → shards !! N.to_nat i = Some d) →
  can_reconstruct s = true → Rs.decode s = Ok payload.
Proof.
  intros He Hps Hc Hgen Hcan.
  pose proof (en_rs _ _ _ _ _ He) as (rs & raw & Hrs & _). apply rs_new_Ok in Hrs as (? & ? & ?).
  pose proof (en_total _ _ _ _ _ He) as Htot.
  destruct (pairs_spec (chunks s) 0) as (Hlen & Hnd & Hin); [lia|].
  fold (pairs s) in Hlen, Hnd, Hin. unfold Rs.decode, reconstruct. rewrite Hps.
  apply (decode_codeword payload kk m pre shards); [done|done| |].
  - apply Forall_forall. intros [i d] (j & -> & Hj)%Hin. rewrite Nat.add_0_l in *.
    apply Hgen, slot_lookup. by rewrite Nat2N.id.
  - unfold can_reconstruct, accepted_count in Hcan. apply bool_decide_eq_true in Hcan.
    pose proof (length_filter is_Some (chunks s)). rewrite usize_as_u32_small in Hcan by lia.
    rewrite Hlen. rewrite Hps, (en_num_data _ _ _ _ _ He) in Hcan.
    unfold i32_as_u32 in Hcan. rewrite Z.mod_small in Hcan by lia. lia.
Qed.

(** C5: a relay that received an origin's preamble reconstructs the origin's
    message: after any sequence of calls, chunks from anyone included, once
    [can_reconstruct] holds [decode] succeeds and returns the payload the
    origin encoded.  It is enough that no chunk the relay holds then is another
    string with the SHA-256 digest of the origin's shard at its index. *)
Theorem relay_reconstructs payload cfg pre shards rcfg sd s0 k s :
  payload ≠ [] → Encode.encode payload cfg = Some (Ok (pre, shards)) →
  forward_multiplier rcfg < 2 ^ 32 →
  new_relay_with_seed pre rcfg sd = Ok s0 →
  reach s0 k s → k < 2 ^ 32 → can_reconstruct s = true →
  (∀ i d, slot s i = Some d → collision_free (shards !! N.to_nat i) d) →
  Rs.decode s = Ok payload.
Proof.
  intros Hp Henc Hfm Hnew Hr Hk Hcan Hcf.
  pose proof (encode_cases payload cfg Hp) as He. rewrite Henc in He.
  destruct He as (kk & m & len & _ & He). pose proof (en_rs _ _ _ _ _ He) as (rs & raw & Hrs & _).
  apply rs_new_Ok in Hrs as (? & ? & ?).
  apply new_relay_wf in Hnew as (Hwf0 & Hpre & _ & _ & Ha0 & Hn0 & _); [|split|done].
  2: rewrite (en_num_data _ _ _ _ _ He); lia.
  2: rewrite (en_num_parity _ _ _ _ _ He); lia.
  apply reach_inv in Hr as [Hwf (_ & Hps & _) _ _]; [|done..].
  rewrite Hpre in Hps. eapply decode_genuine; [done|done| | |done].
  - pose proof (wf_chunks s Hwf) as Hc. rewrite total_shards_eq, Hps in Hc by done.
    destruct (encoded_valid _ _ _ _ _ He) as [_ Ht].
    rewrite (en_total _ _ _ _ _ He). lia.
  - intros i d Hd. eapply verified_genuine; [exact He|by apply Hcf|].
    rewrite <- Hps. by apply (wf_verified s Hwf).
Qed.

(** C28: a relay never exceeds its forwarding budget: after any sequence of
    calls, the successful sends of a shard and its sends still under way number
    at most [forward_multiplier], over all peers together. *)
Theorem relay_forward_budget pre cfg sd s0 k s i :
  preamble_i32 pre → forward_multiplier cfg < 2 ^ 32 →
  new_relay_with_seed pre cfg sd = Ok s0 →
  reach s0 k s → k < 2 ^ 32 →
  EmitPlanner.sent_count (planner s) i + held_count (in_flight s) i
    ≤ forward_multiplier cfg.
Proof.
  intros Hi Hf Hnew Hr Hk.
  apply new_relay_wf in Hnew as (Hwf0 & _ & _ & Hm & Ha0 & Hn0 & _); [|done..].
  apply reach_inv in Hr as [Hwf (_ & _ & Hms) _ _]; [|done..].
  assert (EmitPlanner.cap (planner s) = Some (forward_multiplier cfg)) as Hcap.
  { unfold EmitPlanner.cap. by rewrite Hms, Hm. }
  pose proof (bk_budget _ _ _ (wf_books s Hwf) _ Hcap i).
  destruct (PlannerLemmas.wf_cap _ (bk_planner _ _ _ (wf_books s Hwf)) _ Hcap) as [_ Hle].
  pose proof (Hle i). lia.
Qed.

(** [poll_chunks] dispatches at most one chunk to each attached peer, each
    a chunk the strategy holds, under fresh consecutive handles, and records
    exactly these dispatches as under way, next to those that already were. *)
Theorem poll_chunks_spec s0 k s :
  wf s0 → attached_peers s0 = ∅ → next_handle s0 = 0 →
  reach s0 k s → k < 2 ^ 32 - 1 →
  let '(ds, s') := poll_chunks s in
  d_peer <$> ds `sublist_of` bt_elements (attached_peers s) ∧
  NoDup (d_peer <$> ds) ∧
  d_handle <$> ds = (λ k, next_handle s + N.of_nat k) <$> seq 0 (length ds) ∧
  (∀ d, d ∈ ds → slot s (d_chunk_id d) = Some (d_payload d) ∧
                 in_flight s !! d_handle d = None) ∧
  (∀ h v, in_flight s' !! h = Some v ↔
    in_flight s !! h = Some v ∨
    ∃ d, d ∈ ds ∧ d_handle d = h ∧ v = (d_peer d, d_chunk_id d)).
Proof.
  intros Hwf0 Ha Hn Hr Hk. apply reach_inv in Hr as Hi; [|done..|lia].
  destruct (poll_chunks s) as [ds s'] eqn:Hp.
  eapply inv_poll_chunks in Hp as (_ & _ & _ & Hsub & Hh & Hpl & Hfl); [|done..].
  split; [done|]. split; [eapply sublist_NoDup, Hsub; apply NoDup_bt_elements|].
  split; [done|]. split; [|done]. intros d Hd. split; [by apply Hpl|].
  destruct (in_flight s !! d_handle d) as [[q j]|] eqn:E; [|done].
  apply (bk_handle _ _ _ (wf_books s (inv_wf _ _ _ Hi))) in E as [Hlt _].
  apply (list_elem_of_fmap_2 d_handle) in Hd. rewrite Hh in Hd.
  apply list_elem_of_fmap in Hd as (j' & Hd & _). lia.
Qed.

(** [take_chunk] on a reachable state: an index that is no shard is an
    error; a held shard is [Redundant]; otherwise the chunk is stored exactly
    when its digest is the preamble's, and refused as [Invalid] without any
    effect when it is not.  [complete] says whether enough chunks are held. *)
Theorem take_chunk_spec s i d :
  wf s →
  let '(r, s') := take_chunk s i d in
  if decide (shard_total (preamble s) ≤ i)
  then r = Err (OutOfRange i (shard_total (preamble s))) ∧ s' = s
  else if decide (is_Some (slot s i))
  then r = Ok (mkTakeOutcome Verdict.Redundant (can_reconstruct s)) ∧ s' = s
  else if decide (hashes (preamble s) !! N.to_nat i = Some (sha256_digest d))
  then r = Ok (mkTakeOutcome Verdict.Accepted (can_reconstruct s')) ∧
       accepted_count s' = accepted_count s + 1 ∧
       ∀ j, slot s' j = if decide (j = i) then Some d else slot s j
  else r = Ok (mkTakeOutcome Verdict.Invalid false) ∧ s' = s.
Proof.
  intros Hwf. destruct (take_chunk s i d) as [r s'] eqn:Ht.
  pose proof (proj1 (take_chunk_wf s i d Hwf)) as Hwf'. rewrite Ht in Hwf'. simpl in Hwf'.
  unfold take_chunk in Ht. rewrite (total_shards_eq s Hwf) in Ht.
  destruct (decide (shard_total _ ≤ i)) as [|Hi]; [by simplify_eq|].
  destruct (decide (is_Some (slot s i))) as [|Hs]; [by simplify_eq|].
  destruct (decide (hashes _ !! _ = _)) as [Hh|Hh].
  - assert (Verify.verify_chunk (preamble s) i d = Verdict.Accepted) as Hv.
    { apply VerifyLemmas.verify_chunk_Accepted. split_and!; [|apply length_sha256_digest|done].
      exists (shard_total (preamble s)). split; [|lia].
      apply VerifyLemmas.valid_checked_total, Hwf. }
    rewrite Hv in Ht. injection Ht as <- <-. split; [done|].
    assert (i < total_shards s) as Hit by (rewrite total_shards_eq by done; lia).
    split; [|intros j; by apply slot_insert].
    rewrite !accepted_count_eq by done. simpl. pose proof (wf_chunks s Hwf) as Hc.
    assert (chunks s !! N.to_nat i = Some None) as Hlk.
    { destruct (lookup_lt_is_Some_2 (chunks s) (N.to_nat i)) as [[x|] Hx]; [lia| |done].
      destruct Hs. unfold slot. rewrite Hx. by eexists. }
    rewrite insert_take_drop by lia.
    rewrite <- (take_drop_middle (chunks s) (N.to_nat i) None Hlk) at 3.
    rewrite !filter_app, !length_app, filter_cons_True, filter_cons_False by (done || by intros []).
    simpl. lia.
  - destruct (VerifyLemmas.verify_chunk_cases (preamble s) i d) as [Hv|Hv].
    { by apply VerifyLemmas.verify_chunk_Accepted in Hv as (_ & _ & ?). }
    rewrite Hv in Ht. by injection Ht as <- <-.
Qed.

(** a routing update merges into what is believed of the peer, and the
    sends it makes redundant are exactly the ones under way to that peer whose
    shard the peer is now known to hold. *)
Theorem routing_update_spec s peer b :
  wf s →
  let '(hs, s') := routing_update s peer b in
  ∃ merged, EmitPlanner.peer_havelist (planner s') peer = Some merged ∧
  match EmitPlanner.peer_havelist (planner s) peer with
  | None => merged = b
  | Some old =>
      BitMap.wf old → BitMap.wf b →
      if decide (bm_n old = bm_n b)
      then ∀ i, BitMap.get merged i = BitMap.get old i || BitMap.get b i
      else merged = old
  end ∧
  ∀ h, h ∈ hs ↔ ∃ i, in_flight s !! h = Some (peer, i) ∧ BitMap.get merged i = true.
Proof.
  intros Hwf. unfold routing_update. cbv zeta.
  set (merged := match EmitPlanner.peer_havelist (planner s) peer with
                 | Some _ => _ | None => _ end).
  pose proof (bk_planner _ _ _ (wf_books s Hwf)) as Hp.
  destruct (PlannerLemmas.set_peer_havelist_spec (planner s) peer merged Hp)
    as (_ & _ & _ & _ & Hset & Hf).
  exists merged. split; [exact Hset|]. split.
  - unfold merged. destruct (EmitPlanner.peer_havelist (planner s) peer) as [old|]; [|done].
    intros Ho Hb. destruct (BitMap.or_merge old b) as [m|e] eqn:E.
    + pose proof E as E'. apply BitMap.or_merge_Ok in E as (_ & _ & Hg); [|done..].
      unfold BitMap.or_merge in E'. destruct (decide (bm_n old = bm_n b)); [done|].
      done.
    + unfold BitMap.or_merge in E. by case_decide.
  - intros h. rewrite list_elem_of_omap. split.
    + intros ([h' [q i]] & Hin & Heq). case_decide as Hc; [|done]. injection Heq as ->.
      destruct Hc as (-> & _ & Hg). apply elem_of_bt_iter in Hin. by exists i.
    + intros (i & Hin & Hg). exists (h, (peer, i)). split; [by apply elem_of_bt_iter|].
      rewrite decide_True; [done|]. split; [done|]. split; [|done].
      apply (bk_handle _ _ _ (wf_books s Hwf)) in Hin as [_ Hi].
      rewrite <- Hf in Hi. unfold with_planner, EmitPlanner.peer_in_flight. simpl.
      unfold EmitPlanner.peer_state in Hi. simpl in *.
      rewrite lookup_insert_eq in *. by apply elem_of_bt_elements.
Qed.

(** the routing bitmap [poll_routing] emits is exact: bit [i] is set
    exactly when chunk [i] is held.  Unforced, it is emitted only when enabled,
    when the percentage of accepted chunks has reached the threshold and when
    their number changed since the last one, and it is not emitted twice for
    the same state. *)
Theorem poll_routing_spec s force :
  wf s →
  match poll_routing s force with
  | (Some b, s') =>
      bm_n b = total_shards s ∧
      (∀ i, BitMap.get b i = bool_decide (is_Some (slot s i))) ∧
      (force = false →
        disable_bitmap (config s) = false ∧
        last_routing_emitted_count s ≠ accepted_count s ∧
        (bitmap_threshold (config s) * total_shards s ≤ accepted_count s * 100)) ∧
      last_routing_emitted_count s' = accepted_count s ∧
      fst (poll_routing s' false) = None
  | (None, s') => force = false ∧ s' = s
  end.
Proof.
  intros Hwf. destruct (Havelist.local_havelist_spec s Hwf) as (Hb & Hn & Hg).
  unfold poll_routing. rewrite (Havelist.local_havelist_count s Hwf).
  destruct (disable_bitmap (config s) && negb force) eqn:Hd.
  { apply andb_true_iff in Hd as [_ ?%negb_true_iff]. done. }
  cbv zeta. destruct (force || _) eqn:Hf.
  - split; [done|]. split; [done|]. split; [|split; [done|]].
    + intros ->. simpl in Hf. apply andb_true_iff in Hf as [Ht Hc%bool_decide_eq_true].
      rewrite andb_true_r in Hd. split; [done|]. split; [done|].
      unfold bitmap_threshold_reached in Ht. revert Ht. case_decide as Hz; [rewrite Hz; lia|].
      intros Ht%bool_decide_eq_true.
      pose proof (N.Div0.mul_div_le (accepted_count s * 100) (total_shards s)). nia.
    + cbn [config chunks preamble last_routing_emitted_count].
      match goal with |- context [local_havelist ?x] => set (s' := x) end.
      change (local_havelist s') with (local_havelist s).
      rewrite (Havelist.local_havelist_count s Hwf).
      rewrite (bool_decide_false (accepted_count s ≠ accepted_count s)) by tauto.
      rewrite andb_false_r. by destruct (disable_bitmap (config s)).
  - apply orb_false_iff in Hf as [-> _]. done.
Qed.
End properties.

(** * Concrete sessions *)
Module RsExample.
Import Rs RsTrace.
Import XorCode.

(** A relay for the example message, before any chunk arrives. *)
Definition relay : RsStrategy :=
  match new_relay_with_seed XorCode.preamble XorCode.config 7 with
  | Ok s => s
  | Err _ => with_ XorCode.config XorCode.preamble [] (EmitPlanner.new 0 0 Origin)
  end.

Definition run (s : RsStrategy) (os : list op) : RsStrategy := foldl step s os.

Lemma run_reach s0 os :
  Forall (λ o, ∀ s, op_ok s o) os → reach s0 (N.of_nat (length os)) (run s0 os).
Proof.
  induction os as [|o os IH] using rev_ind; intros Hos; [constructor|].
  apply Forall_app in Hos as [Hos Ho]. apply Forall_cons in Ho as [Ho _].
  unfold run. rewrite foldl_app, length_app. simpl.
  rewrite Nat2N.inj_add. change (N.of_nat 1) with 1. constructor; [by apply IH|apply Ho].
Qed.

(** The relay receives two of the three chunks. *)
Definition two_chunks : list op := [TakeChunk 2 (shard 2); AttachPeer 5; TakeChunk 0 (shard 0)].

(** The relay is polled six times while it has a peer but no chunk, and then
    receives every chunk. *)
Definition starved : list op :=
  AttachPeer 1 :: replicate 6 PollChunks ++
  [TakeChunk 0 (shard 0); TakeChunk 1 (shard 1); TakeChunk 2 (shard 2)].

Lemma relay_new : new_relay_with_seed XorCode.preamble XorCode.config 7 = Ok relay.
Proof. vm_compute. reflexivity. Qed.

Lemma example_i32 : RsLemmas.preamble_i32 XorCode.preamble.
Proof. by vm_compute. Qed.

Lemma relay_wf : RsLemmas.wf relay.
Proof.
  eapply RsLemmas.new_relay_wf, relay_new; [exact example_i32|done].
Qed.

Lemma starved_inv : inv relay 10 (run relay starved).
Proof.
  apply reach_inv; [exact relay_wf|done..|].
  apply (run_reach relay starved). by repeat constructor.
Qed.
End RsExample.

Section leak.
Import Rs RsTrace RsExample.

(** [poll_chunks] of a relay that holds no chunk yet consumes its
    forwarding budget.  After six polls that sent nothing, the example relay
    receives all its chunks and can reconstruct, but no shard can be allocated
    to any peer any more, although none was ever sent. *)
Theorem empty_polls_exhaust_budget :
  let s := run relay starved in
  can_reconstruct s = true ∧
  (∀ i, i < 3 → have_chunk s i = true ∧ EmitPlanner.sent_count (planner s) i = 0) ∧
  (∀ peer, fst (EmitPlanner.allocate (planner s) peer) = None) ∧
  fst (poll_chunks s) = [].
Proof.
  cbv zeta. split; [vm_compute; reflexivity|]. split; [|split; [|vm_compute; reflexivity]].
  - intros i Hi. destruct (decide (i = 0)) as [->|]; [by vm_compute|].
    destruct (decide (i = 1)) as [->|]; [by vm_compute|].
    assert (i = 2) as -> by lia. by vm_compute.
  - intros peer. pose proof (Books.bk_planner _ _ _ (RsLemmas.wf_books _ (inv_wf _ _ _ starved_inv))) as Hw.
    destruct (EmitPlanner.allocate _ peer) as [[i|] p'] eqn:Ha; [exfalso|done].
    apply PlannerLemmas.allocate_Some in Ha as (_ & _ & _ & [Hi Hb] & _); [|done].
    assert (EmitPlanner.cap (planner (run relay starved)) = Some 2) as Hcap
      by (vm_compute; reflexivity).
    apply (PlannerLemmas.blocked_cap 2) in Hb; [|done].
    assert (num_shards (planner (run relay starved)) = 3) as Hn by (vm_compute; reflexivity).
    rewrite Hn in Hi. revert Hb. apply N.le_ngt.
    destruct (decide (i = 0)) as [->|]; [by vm_compute|].
    destruct (decide (i = 1)) as [->|]; [by vm_compute|].
    assert (i = 2) as -> by lia. by vm_compute.
Qed.
End leak.

(** * Witnesses *)
Section witnesses.
Import Rs RsTrace RsExample XorCode.

(** The chunks held after [two_chunks] are the origin's shards. *)
Lemma two_chunks_genuine i d :
  slot (run relay two_chunks) i = Some d → snd encoding !! N.to_nat i = Some d.
Proof.
  intros Hd%RsLemmas.slot_lookup.
  assert (Rs.chunks (run relay two_chunks) = [Some (shard 0); None; Some (shard 2)]) as Hc
    by (vm_compute; reflexivity).
  assert (snd encoding = [shard 0; shard 1; shard 2]) as -> by (vm_compute; reflexivity).
  rewrite Hc in Hd.
  revert Hd. generalize (shard 0), (shard 1), (shard 2). intros a b c.
  destruct (N.to_nat i) as [|[|[|j]]]; [cbn; congruence..|].
  change ([] !! j = Some (Some d) → @nil bytes !! j = Some d). by rewrite lookup_nil.
Qed.

Lemma relay_reconstructs_witness :
  Rs.decode (run relay two_chunks) = Ok XorCode.payload.
Proof.
  apply (relay_reconstructs XorCode.payload XorCode.config XorCode.preamble
    (snd encoding) XorCode.config 7 relay 3 (run relay two_chunks)).
  - discriminate.
  - vm_compute. reflexivity.
  - reflexivity.
  - exact relay_new.
  - apply (run_reach relay two_chunks). by repeat constructor.
  - reflexivity.
  - vm_compute. reflexivity.
  - intros i d Hd g Hg _. apply two_chunks_genuine in Hd. congruence.
Defined.

Lemma relay_forward_budget_witness :
  EmitPlanner.sent_count (planner (run relay starved)) 1 +
  Books.held_count (Rs.in_flight (run relay starved)) 1 ≤ 2.
Proof.
  apply (relay_forward_budget XorCode.preamble XorCode.config 7 relay 10 (run relay starved) 1).
  - exact example_i32.
  - reflexivity.
  - exact relay_new.
  - apply (run_reach relay starved). by repeat constructor.
  - reflexivity.
Defined.

Lemma take_chunk_spec_witness :
  let '(r, s') := Rs.take_chunk relay 1 (shard 1) in
  if decide (shard_total (Rs.preamble relay) ≤ 1)
  then r = Err (OutOfRange 1 (shard_total (Rs.preamble relay))) ∧ s' = relay
  else if decide (is_Some (slot relay 1))
  then r = Ok (mkTakeOutcome Verdict.Redundant (can_reconstruct relay)) ∧ s' = relay
  else if decide (hashes (Rs.preamble relay) !! N.to_nat 1 = Some (sha256_digest (shard 1)))
  then r = Ok (mkTakeOutcome Verdict.Accepted (can_reconstruct s')) ∧
       accepted_count s' = accepted_count relay + 1 ∧
       ∀ j, slot s' j = if decide (j = 1) then Some (shard 1) else slot relay j
  else r = Ok (mkTakeOutcome Verdict.Invalid false) ∧ s' = relay.
Proof. apply (take_chunk_spec relay 1 (shard 1)), relay_wf. Defined.

Lemma routing_update_spec_witness :
  let '(hs, s') := Rs.routing_update relay 4 (BitMap.single 1) in
  ∃ merged, EmitPlanner.peer_havelist (planner s') 4 = Some merged ∧
  match EmitPlanner.peer_havelist (planner relay) 4 with
  | None => merged = BitMap.single 1
  | Some old =>
      BitMap.wf old → BitMap.wf (BitMap.single 1) →
      if decide (bm_n old = bm_n (BitMap.single 1))
      then ∀ i, BitMap.get merged i = BitMap.get old i || BitMap.get (BitMap.single 1) i
      else merged = old
  end ∧
  ∀ h, h ∈ hs ↔ ∃ i, Rs.in_flight relay !! h = Some (4, i) ∧ BitMap.get merged i = true.
Proof. apply (routing_update_spec relay 4 (BitMap.single 1)), relay_wf. Defined.

Lemma poll_routing_spec_witness :
  match Rs.poll_routing relay true with
  | (Some b, s') =>
      bm_n b = total_shards relay ∧
      (∀ i, BitMap.get b i = bool_decide (is_Some (slot relay i))) ∧
      (true = false →
        disable_bitmap (Rs.config relay) = false ∧
        last_routing_emitted_count relay ≠ accepted_count relay ∧
        (bitmap_threshold (Rs.config relay) * total_shards relay
          ≤ accepted_count relay * 100)) ∧
      last_routing_emitted_count s' = accepted_count relay ∧
      fst (Rs.poll_routing s' false) = None
  | (None, s') => true = false ∧ s' = relay
  end.
Proof. apply (poll_routing_spec relay true), relay_wf. Defined.
End witnesses.
