(* ===== verification/RsLink.v ===== *)
(** An origin and its relays over lossy links: the whole of the Reed-Solomon
    strategy from [encode] to [decode].

    The origin polls, and each dispatch goes over the link of its peer: a send
    fails some number of times, each failure being reported with [chunk_sent];
    the send that succeeds arrives or is lost, which the origin cannot tell.  The
    loop ends when a poll gives nothing. *)
From Stdlib Require Import NArith ZArith Lia.
From stdpp Require Import base gmap option functions list.
From S2P Require Import Prelude Heap BitMap Config Strategy RsCodec Planner RsStrategy.

Open Scope N_scope.

Module RsLink.
Import Rs.

(** The origin, a relay for each peer, and how often the send of a shard to a
    peer will still fail. *)
Record link := mkLink {
  sender : RsStrategy;
  receivers : N → RsStrategy;
  failures : N * N → nat
}.

Section link.
Context `{Sha256, ReedSolomon}.

(** Whether shard [i] that was sent to [p] arrives. *)
Variable arrives : N → N → bool.

(** One dispatch: reported to the sender, and taken by the relay if it
    arrives. *)
Definition transmit (l : link) (d : ChunkDispatch N) : link :=
  let p := d_peer d in
  let i := d_chunk_id d in
  match failures l (p, i) with
  | S n =>
      mkLink (chunk_sent (sender l) p (d_handle d) false) (receivers l)
        (<[(p, i) := n]> (failures l))
  | O =>
      mkLink (chunk_sent (sender l) p (d_handle d) true)
        (if arrives p i
         then <[p := snd (take_chunk (receivers l p) i (d_payload d))]> (receivers l)
         else receivers l)
        (failures l)
  end.

Fixpoint transfer (fuel : nat) (l : link) : option link :=
  match fuel with
  | O => None
  | S fuel =>
      let '(ds, s) := poll_chunks (sender l) in
      let l := mkLink s (receivers l) (failures l) in
      match ds with
      | [] => Some l
      | _ => transfer fuel (foldl transmit l ds)
      end
  end.

(** All sends of [n] shards to [peers], the failing ones counted. *)
Definition attempts (failures : N * N → nat) (peers : gset N) (n : N) : nat :=
  sum_list_with (λ x, S (failures x)) (list_prod (elements peers) (range n)).

(** How many of [n] shards are lost on the way to [p]. *)
Definition lost (p n : N) : nat :=
  countb (λ i, negb (arrives p (N.of_nat i))) (N.to_nat n).

Definition attach_all (s : RsStrategy) (peers : gset N) : RsStrategy :=
  foldl attach_peer s (elements peers).
End link.
End RsLink.

Module RsLinkLemmas.

(** A sum whose summand falls by one at a single place. *)
Lemma sum_list_one {A} (f g : A → nat) l x :
  NoDup l → x ∈ l → f x = S (g x) → (∀ y, y ≠ x → f y = g y) →
  sum_list_with f l = S (sum_list_with g l).
Proof.
  intros Hnd Hx Hfx Hf. induction Hnd as [|a l Ha Hnd IH]; [by apply elem_of_nil in Hx|].
  simpl. apply elem_of_cons in Hx as [<-|Hx].
  - rewrite Hfx. simpl. do 2 f_equal. clear IH Hnd. induction l as [|b l IH]; [done|].
    apply not_elem_of_cons in Ha as [Hb Ha]. simpl. rewrite (Hf b), IH by done. done.
  - rewrite (IH Hx), (Hf a); [apply Nat.add_succ_r|]. by intros ->.
Qed.

Lemma sum_list_ext {A} (f g : A → nat) l :
  (∀ x, f x = g x) → sum_list_with f l = sum_list_with g l.
Proof. intros Hf. induction l as [|x l IH]; [done|]. simpl. by rewrite Hf, IH. Qed.

Lemma NoDup_list_prod {A B} (l : list A) (k : list B) :
  NoDup l → NoDup k → NoDup (list_prod l k).
Proof.
  intros Hl Hk. induction Hl as [|a l Ha Hl IH]; [constructor|]. simpl.
  apply NoDup_app. split; [|split; [|done]].
  - apply NoDup_fmap_2; [|done]. by intros b c [= ->].
  - intros x (b & -> & _)%list_elem_of_fmap. rewrite <- list_cprod_list_prod.
    rewrite list_elem_of_cprod. simpl. tauto.
Qed.

Import EmitPlanner PlannerLemmas PlannerTrace.
Import Rs RsLemmas RsLink.

(** * What a planner believes of its peers *)

(** The beliefs of [p] and [p'] are the same, or differ for [peer] alone. *)
Definition same_view (p p' : EmitPlanner) : Prop :=
  ∀ q, optimistic_havelist (peer_state p' q) = optimistic_havelist (peer_state p q).
Definition views_ok (p : EmitPlanner) : Prop := ∀ q, havelist_wf p q.

Lemma same_view_believed p p' q i : same_view p p' → believed p' q i = believed p q i.
Proof. intros Hv. unfold believed. by rewrite Hv. Qed.

Lemma same_view_ok p p' :
  same_view p p' → num_shards p' = num_shards p → views_ok p → views_ok p'.
Proof. intros Hv Hn Hok q b. rewrite Hv, Hn. apply Hok. Qed.

#[export] Instance same_view_po : PreOrder same_view.
Proof. split; [by intros p q|]. intros p1 p2 p3 H1 H2 q. by rewrite H2, H1. Qed.

Lemma allocate_same_view p peer o p' :
  PlannerLemmas.wf p → allocate p peer = (o, p') → same_view p p'.
Proof.
  intros Hwf Ha q. destruct o as [i|].
  - apply allocate_Some in Ha as (_ & _ & _ & _ & _ & _ & Hps); [|done].
    rewrite Hps. case_decide; [by subst q|done].
  - apply allocate_None in Ha as (_ & _ & _ & _ & _ & Hps); [|done]. by rewrite Hps.
Qed.

Lemma failed_same_view p peer i :
  PlannerLemmas.wf p → same_view p (refund_allocation (cancel_in_flight p peer i) i).
Proof.
  intros Hwf q. destruct (cancel_in_flight_spec p peer i Hwf) as (Hwf2 & _).
  destruct (refund_allocation_spec _ i Hwf2) as (_ & _ & Hps & _).
  unfold peer_state at 1. rewrite Hps. fold (peer_state (cancel_in_flight p peer i) q).
  unfold cancel_in_flight, with_peer. erewrite peer_state_insert by done.
  case_decide; [by subst q|done].
Qed.

Lemma sent_view p peer i :
  i < num_shards p → views_ok p →
  views_ok (record_sent p peer i) ∧
  ∀ q j, believed (record_sent p peer i) q j =
         bool_decide (q = peer ∧ j = i) || believed p q j.
Proof.
  intros Hi Hok.
  assert (∀ q, q ≠ peer → optimistic_havelist (peer_state (record_sent p peer i) q) =
                          optimistic_havelist (peer_state p q)) as Hne.
  { intros q Hq. unfold record_sent. erewrite peer_state_insert by done.
    by rewrite decide_False. }
  pose proof (λ j, believed_record_sent p peer i j Hi (Hok peer)) as Hb. split.
  - intros q. destruct (decide (q = peer)) as [->|Hq]; [apply (Hb 0)|].
    intros b. rewrite Hne by done. apply Hok.
  - intros q j. destruct (decide (q = peer)) as [->|Hq].
    + destruct (Hb j) as [_ ->]. f_equal. apply bool_decide_ext. tauto.
    + rewrite (bool_decide_false (q = peer ∧ _)) by tauto. unfold believed. by rewrite Hne.
Qed.

Lemma eligible_origin_iff p peer i :
  mode p = Origin →
  eligible p peer i ↔
  i < num_shards p ∧ believed p peer i = false ∧ i ∉ Planner.in_flight (peer_state p peer).
Proof.
  intros Hm. unfold eligible, blocked, believed, cap. rewrite Hm. cbn [orb].
  rewrite orb_false_iff, bool_decide_eq_false. done.
Qed.

(** * One poll of an origin *)
Section poll.
Context `{Sha256, ReedSolomon}.

(** An origin that holds every chunk sends each peer a shard it may be sent, and
    skips a peer only when there is none. *)
Lemma poll_origin s l ds s' :
  wf s → mode (planner s) = Origin → (∀ i, i < total_shards s → is_Some (slot s i)) →
  NoDup l → next_handle s + N.of_nat (length l) < 2 ^ 64 →
  poll_peers s l = (ds, s') →
  same_view (planner s) (planner s') ∧
  (∀ d, d ∈ ds → eligible (planner s) (d_peer d) (d_chunk_id d)) ∧
  (∀ p i, p ∈ l → p ∉ d_peer <$> ds → ¬ eligible (planner s) p i) ∧
  (∀ p i, i ∈ Planner.in_flight (peer_state (planner s') p) ↔
     i ∈ Planner.in_flight (peer_state (planner s) p) ∨
     ∃ d, d ∈ ds ∧ d_peer d = p ∧ d_chunk_id d = i).
Proof.
  revert s ds s'; induction l as [|peer l IH]; intros s ds s' Hwf Hm Hall Hnd Hn Hp.
  { simpl in Hp. simplify_eq. split_and!; [done|set_solver|set_solver|set_solver]. }
  pose proof (Books.bk_planner _ _ _ (wf_books s Hwf)) as Hpw.
  apply NoDup_cons in Hnd as [Hpeer Hnd]. cbn [length] in Hn. rewrite poll_peers_cons in Hp.
  destruct (allocate (planner s) peer) as [o p'] eqn:Ha.
  pose proof (allocate_same_view _ _ _ _ Hpw Ha) as Hv.
  destruct o as [i|].
  - pose proof Ha as (_ & (Hm1 & Hns & _) & _ & Hel & _ & _ & Hps)%allocate_Some; [|done].
    pose proof (proj1 Hel) as Hi. rewrite (wf_num s Hwf) in Hi.
    change (slot (with_planner s p') i) with (slot s i) in Hp.
    destruct (Hall i Hi) as [d Hd]. rewrite Hd in Hp.
    set (s1 := mkRs _ _ _ _ _ _ _ _) in Hp.
    assert (wf s1) as Hwf1.
    { apply (wf_update s); [done| |done|].
      - eapply Books.books_dispatch; [exact (wf_books s Hwf)|done|].
        change (next_handle (with_planner s p')) with (next_handle s). lia.
      - intros h q j. rewrite lookup_insert_Some.
        intros [[_ [= _ <-]]|[_ ?]]; [by rewrite Hd|by eapply (wf_held s Hwf)]. }
    assert (next_handle s1 = next_handle s + 1) as Hn1 by (apply u64_add_small; lia).
    destruct (poll_peers s1 l) as [ds1 s2] eqn:Hp1. injection Hp as <- <-.
    pose proof Hp1 as (_ & _ & _ & _ & _ & Hsub & _)%poll_peers_spec; [|done|done|lia].
    destruct (IH s1 ds1 s2) as (Hv2 & Hds & Hskip & Hfl); try done; [simpl; congruence|lia|].
    change (planner s1) with p' in *.
    assert (∀ q j, q ≠ peer → eligible p' q j ↔ eligible (planner s) q j) as Hsame.
    { intros q j Hq. rewrite !eligible_origin_iff by congruence. rewrite Hns, Hps.
      rewrite decide_False by done. by rewrite (same_view_believed _ _ _ _ Hv). }
    assert (∀ d', d' ∈ ds1 → d_peer d' ≠ peer) as Hother.
    { intros d' Hd' Heq. apply Hpeer. rewrite <- Heq.
      eapply elem_of_sublist; [|exact Hsub]. by apply list_elem_of_fmap_2. }
    split; [by etrans|]. split; [|split].
    + intros d' [->|Hd']%elem_of_cons; [done|]. apply Hsame; [by apply Hother|by apply Hds].
    + intros p j Hpl Hno. rewrite fmap_cons, not_elem_of_cons in Hno. destruct Hno as [Hne Hno].
      apply elem_of_cons in Hpl as [->|Hpl]; [done|]. rewrite <- Hsame by done. by apply Hskip.
    + intros p j. rewrite Hfl, Hps. setoid_rewrite elem_of_cons. case_decide as Hq.
      * subst p. cbn [Planner.in_flight]. rewrite elem_of_union, elem_of_singleton. split.
        -- intros [[->|?]|(d' & ? & ? & ?)]; [right|by left|right; by exists d'; auto].
           eexists. split; [by left|done].
        -- intros [?|(d' & [->|?] & ? & ?)]; [by left; right|left; left; by symmetry|right; eauto].
      * split; [intros [?|(d' & ? & ? & ?)]; [by left|right; by exists d'; auto]|].
        intros [?|(d' & [->|?] & Hx & ?)]; [by left|by symmetry in Hx|right; eauto].
  - set (s1 := with_planner _ _) in Hp.
    pose proof Ha as (_ & (Hm1 & Hns & _) & _ & _ & Hnone & Hps)%allocate_None; [|done].
    assert (wf s1) as Hwf1.
    { apply (wf_update s); [done| |done|exact (wf_held s Hwf)].
      eapply Books.books_allocate_None, Ha. exact (wf_books s Hwf). }
    destruct (IH s1 ds s') as (Hv2 & Hds & Hskip & Hfl); try done; [simpl; congruence|simpl; lia|].
    change (planner s1) with p' in *.
    assert (∀ q j, eligible p' q j ↔ eligible (planner s) q j) as Hsame.
    { intros q j. rewrite !eligible_origin_iff by congruence.
      by rewrite Hns, Hps, (same_view_believed _ _ _ _ Hv). }
    split; [by etrans|]. split; [|split].
    + intros d Hd. by apply Hsame, Hds.
    + intros p j [->|Hpl]%elem_of_cons Hno; [done|]. rewrite <- Hsame. by apply Hskip.
    + intros p j. by rewrite Hfl, Hps.
Qed.
End poll.

(** * The loop *)
Section loop.
Context `{Sha256, ReedSolomon}.
Variable arrives : N → N → bool.
Variable pre : Preamble.
Variable shards : list bytes.
Variable peers : gset N.
Hypothesis shards_verify : ∀ i d,
  shards !! N.to_nat i = Some d → Verify.verify_chunk pre i d = Verdict.Accepted.
Hypothesis shards_total : N.of_nat (length shards) = preamble_total pre.

Lemma take_genuine s i d :
  wf s → preamble s = pre → slot s i = None → shards !! N.to_nat i = Some d →
  let s' := snd (take_chunk s i d) in
  wf s' ∧ preamble s' = pre ∧
  ∀ j, slot s' j = if decide (j = i) then Some d else slot s j.
Proof.
  intros Hwf Hpre Hs Hd s'. pose proof (take_chunk_wf s i d Hwf) as (Hwf' & (_ & Hp & _) & _).
  split; [done|]. split; [by rewrite <- Hpre|]. intros j.
  apply lookup_lt_Some in Hd as Hlt.
  assert (i < total_shards s) by (unfold total_shards; rewrite Hpre; lia).
  unfold s', take_chunk. rewrite decide_False by lia.
  rewrite decide_False by (rewrite Hs; by intros []).
  rewrite Hpre, (shards_verify i d Hd). cbv zeta. cbn [snd]. rewrite <- Hpre.
  by apply slot_insert.
Qed.

(** The sends that are still to be made. *)
Definition todo (l : link) (x : N * N) : nat :=
  if believed (planner (sender l)) x.1 x.2 then 0 else S (failures l x).
Definition pairs_of : list (N * N) := list_prod (elements peers) (range (preamble_total pre)).
Definition work (l : link) : nat := sum_list_with (todo l) pairs_of.

(** The link while the dispatches [ds] of a poll are under way. *)
Record ok (bound : N) (l : link) (ds : list (ChunkDispatch N)) : Prop := {
  ok_wf : wf (sender l);
  ok_pre : preamble (sender l) = pre;
  ok_mode : mode (planner (sender l)) = Origin;
  ok_chunks : chunks (sender l) = Some <$> shards;
  ok_attached : attached_peers (sender l) = peers;
  ok_views : views_ok (planner (sender l));
  ok_in_flight : ∀ h v, Rs.in_flight (sender l) !! h = Some v ↔
    ∃ d, d ∈ ds ∧ d_handle d = h ∧ v = (d_peer d, d_chunk_id d);
  ok_handles : NoDup (d_handle <$> ds);
  ok_peers : NoDup (d_peer <$> ds);
  ok_dispatched : ∀ d, d ∈ ds → d_peer d ∈ peers ∧
    believed (planner (sender l)) (d_peer d) (d_chunk_id d) = false ∧
    shards !! N.to_nat (d_chunk_id d) = Some (d_payload d);
  ok_receivers : ∀ p, p ∈ peers → wf (receivers l p) ∧ preamble (receivers l p) = pre ∧
    ∀ i, slot (receivers l p) i =
      if believed (planner (sender l)) p i && arrives p i
      then shards !! N.to_nat i else None;
  ok_work : next_handle (sender l) + N.of_nat (work l) ≤ bound + N.of_nat (length ds)
}.

Lemma slot_origin s i :
  chunks s = Some <$> shards → slot s i = shards !! N.to_nat i.
Proof.
  intros Hc. unfold slot. rewrite Hc, list_lookup_fmap.
  by destruct (shards !! N.to_nat i).
Qed.

Lemma elem_of_pairs_of p i :
  (p, i) ∈ pairs_of ↔ p ∈ peers ∧ i < preamble_total pre.
Proof.
  unfold pairs_of. rewrite list_elem_of_In, in_prod_iff, <- !list_elem_of_In.
  by rewrite elem_of_elements, elem_of_range.
Qed.

Lemma NoDup_pairs_of : NoDup pairs_of.
Proof.
  apply NoDup_list_prod; [apply NoDup_elements|apply NoDup_range].
Qed.

(** The effect of reporting a dispatch. *)
Lemma chunk_sent_eq s p i h b :
  Rs.in_flight s !! h = Some (p, i) →
  chunk_sent s p h b =
  mkRs (config s) (preamble s) (chunks s)
    (if b then record_sent (planner s) p i
     else refund_allocation (cancel_in_flight (planner s) p i) i)
    (attached_peers s) (delete h (Rs.in_flight s)) (next_handle s)
    (last_routing_emitted_count s).
Proof. unfold chunk_sent. by intros ->. Qed.

Lemma ok_report bound l d ds b :
  ok bound l (d :: ds) →
  let s' := chunk_sent (sender l) (d_peer d) (d_handle d) b in
  Rs.in_flight (sender l) !! d_handle d = Some (d_peer d, d_chunk_id d) ∧
  d_chunk_id d < num_shards (planner (sender l)) ∧
  wf s' ∧ preamble s' = pre ∧ mode (planner s') = Origin ∧
  (∀ h v, Rs.in_flight s' !! h = Some v ↔
    ∃ d, d ∈ ds ∧ d_handle d = h ∧ v = (d_peer d, d_chunk_id d)).
Proof.
  intros Hok s'. pose proof (ok_handles _ _ _ Hok) as Hnd.
  rewrite fmap_cons, NoDup_cons in Hnd. destruct Hnd as [Hno _].
  assert (Rs.in_flight (sender l) !! d_handle d = Some (d_peer d, d_chunk_id d)) as Hin.
  { apply (ok_in_flight _ _ _ Hok). exists d. split; [left|done]. }
  destruct (chunk_sent_wf (sender l) (d_peer d) (d_handle d) b) as (Hwf & _ & Hp & Hm);
    [apply Hok|intros v; rewrite Hin; by intros [= <-]|].
  split; [done|]. split.
  { rewrite (wf_num _ (ok_wf _ _ _ Hok)). unfold total_shards.
    rewrite (ok_pre _ _ _ Hok), <- shards_total.
    destruct (ok_dispatched _ _ _ Hok d) as (_ & _ & Hd%lookup_lt_Some); [left|lia]. }
  split; [done|]. split; [unfold s'; by rewrite Hp, (ok_pre _ _ _ Hok)|].
  split; [unfold s'; by rewrite Hm, (ok_mode _ _ _ Hok)|].
  intros h v. unfold s'. rewrite (chunk_sent_eq _ _ _ _ _ Hin). cbn [Rs.in_flight].
  rewrite lookup_delete_Some, (ok_in_flight _ _ _ Hok). split.
  - intros (Hne & d' & [->|Hd]%elem_of_cons & Hh & ->); [done|]. by exists d'.
  - intros (d' & Hd & <- & ->). split; [|exists d'; split; [by right|done]].
    intros Heq. apply Hno. rewrite Heq. by apply list_elem_of_fmap_2.
Qed.

(** The dispatch that is reported next, and the others. *)
Lemma ok_rest bound l d ds :
  ok bound l (d :: ds) →
  d_peer d ∈ peers ∧ believed (planner (sender l)) (d_peer d) (d_chunk_id d) = false ∧
  shards !! N.to_nat (d_chunk_id d) = Some (d_payload d) ∧
  d_chunk_id d < preamble_total pre ∧
  NoDup (d_peer <$> ds) ∧ NoDup (d_handle <$> ds) ∧
  (∀ d', d' ∈ ds → d_peer d' ≠ d_peer d) ∧
  (∀ d', d' ∈ ds → d_peer d' ∈ peers ∧
    believed (planner (sender l)) (d_peer d') (d_chunk_id d') = false ∧
    shards !! N.to_nat (d_chunk_id d') = Some (d_payload d')).
Proof.
  intros Hok. destruct (ok_dispatched _ _ _ Hok d) as (? & ? & Hd); [left|].
  pose proof (ok_peers _ _ _ Hok) as Hpn. rewrite fmap_cons, NoDup_cons in Hpn.
  pose proof (ok_handles _ _ _ Hok) as Hhn. rewrite fmap_cons, NoDup_cons in Hhn.
  destruct Hpn as [Hpn ?], Hhn as [_ ?]. apply lookup_lt_Some in Hd as Hlt.
  split_and!; try done; [lia| |].
  - intros d' Hd' Heq. apply Hpn. rewrite <- Heq. by apply list_elem_of_fmap_2.
  - intros d' Hd'. apply (ok_dispatched _ _ _ Hok). by right.
Qed.

(** The work goes down by one when [todo] does at the dispatched pair alone. *)
Lemma work_step l l' d :
  d_peer d ∈ peers → d_chunk_id d < preamble_total pre →
  todo l (d_peer d, d_chunk_id d) = S (todo l' (d_peer d, d_chunk_id d)) →
  (∀ x, x ≠ (d_peer d, d_chunk_id d) → todo l x = todo l' x) →
  work l = S (work l').
Proof.
  intros Hp Hi Hx Hne. eapply sum_list_one; [apply NoDup_pairs_of| |done..].
  by apply elem_of_pairs_of.
Qed.

(** A failed send leaves what is believed and held as it was. *)
Lemma transmit_failed_ok bound l d ds n :
  ok bound l (d :: ds) → failures l (d_peer d, d_chunk_id d) = S n →
  let l' := mkLink (chunk_sent (sender l) (d_peer d) (d_handle d) false) (receivers l)
              (<[(d_peer d, d_chunk_id d) := n]> (failures l)) in
  ok bound l' ds ∧ work l = S (work l').
Proof.
  intros Hok Hfail l'.
  pose proof (ok_report bound l d ds false Hok) as (Hin & Hi & Hwf & Hpre & Hmode & Hfl).
  destruct (ok_rest bound l d ds Hok) as (Hpeer & Hbel & Hd & Hit & Hpn & Hhn & _ & Hrest).
  pose proof (ok_work _ _ _ Hok) as Hwork. cbn [length] in Hwork.
  pose proof (Books.bk_planner _ _ _ (wf_books _ (ok_wf _ _ _ Hok))) as Hpw.
  pose proof (failed_same_view (planner (sender l)) (d_peer d) (d_chunk_id d) Hpw) as Hv.
  pose proof (λ q j, same_view_believed _ _ q j Hv) as Hb.
  subst l'. rewrite (chunk_sent_eq _ _ _ _ _ Hin) in *.
  match goal with |- ok _ ?x _ ∧ _ => set (l' := x) end.
  assert (work l = S (work l')) as Hw.
  { apply (work_step _ _ d); [done..| |].
    - unfold todo. cbn. rewrite Hb, Hbel, Hfail, fn_lookup_insert. done.
    - intros x Hx. unfold todo. cbn. rewrite Hb, fn_lookup_insert_ne; [done|congruence]. }
  split; [|done]. split; try done; cbn; try apply Hok.
  - eapply same_view_ok; [exact Hv| |apply Hok].
    apply wf_num in Hwf. cbn in Hwf. rewrite Hwf, (wf_num _ (ok_wf _ _ _ Hok)). done.
  - intros d' Hd'. rewrite Hb. by apply Hrest.
  - intros q Hq. destruct (ok_receivers _ _ _ Hok q Hq) as (Hrw & Hrp & Hrs).
    split; [done|]. split; [done|]. intros j. rewrite Hb. apply Hrs.
  - lia.
Qed.

(** A shard that was sent is believed, and held by the relay if it arrived. *)
Lemma receiver_ok bound l d ds q :
  ok bound l (d :: ds) → q ∈ peers →
  let r := (if arrives (d_peer d) (d_chunk_id d)
            then <[d_peer d := snd (take_chunk (receivers l (d_peer d)) (d_chunk_id d)
                                       (d_payload d))]> (receivers l)
            else receivers l) q in
  wf r ∧ preamble r = pre ∧
  ∀ i, slot r i =
    if (bool_decide (q = d_peer d ∧ i = d_chunk_id d) ||
        believed (planner (sender l)) q i) && arrives q i
    then shards !! N.to_nat i else None.
Proof.
  intros Hok Hq r. destruct (ok_receivers _ _ _ Hok q Hq) as (Hrw & Hrp & Hrs).
  destruct (ok_rest bound l d ds Hok) as (Hpeer & Hbel & Hd & _). subst r.
  destruct (decide (q = d_peer d)) as [->|Hne].
  2: { match goal with |- wf ?x ∧ _ => assert (x = receivers l q) as ->
         by (destruct (arrives _ _); [by apply fn_lookup_insert_ne|done]) end.
       split; [done|]. split; [done|]. intros j. rewrite bool_decide_false by tauto.
       apply Hrs. }
  destruct (arrives (d_peer d) (d_chunk_id d)) eqn:Harr.
  - rewrite fn_lookup_insert. pose proof (Hrs (d_chunk_id d)) as Hnone. rewrite Hbel in Hnone.
    destruct (take_genuine _ _ _ Hrw Hrp Hnone Hd) as (? & ? & Hsl).
    split; [done|]. split; [done|]. intros j. rewrite Hsl.
    case_decide as Hj; [subst j; by rewrite bool_decide_true, Harr, Hd by done|].
    rewrite bool_decide_false by tauto. apply Hrs.
  - split; [done|]. split; [done|]. intros j. rewrite Hrs.
    case_bool_decide as Hj; [|done]. destruct Hj as [_ ->]. by rewrite Hbel, Harr.
Qed.

Lemma transmit_sent_ok bound l d ds :
  ok bound l (d :: ds) → failures l (d_peer d, d_chunk_id d) = O →
  let l' := mkLink (chunk_sent (sender l) (d_peer d) (d_handle d) true)
              (if arrives (d_peer d) (d_chunk_id d)
               then <[d_peer d := snd (take_chunk (receivers l (d_peer d)) (d_chunk_id d)
                                          (d_payload d))]> (receivers l)
               else receivers l) (failures l) in
  ok bound l' ds ∧ work l = S (work l').
Proof.
  intros Hok Hfail l'.
  pose proof (ok_report bound l d ds true Hok) as (Hin & Hi & Hwf & Hpre & Hmode & Hfl).
  destruct (ok_rest bound l d ds Hok) as (Hpeer & Hbel & Hd & Hit & Hpn & Hhn & Hother & Hrest).
  pose proof (ok_work _ _ _ Hok) as Hwork. cbn [length] in Hwork.
  destruct (sent_view (planner (sender l)) (d_peer d) (d_chunk_id d) Hi) as [Hv Hb];
    [apply Hok|].
  subst l'. rewrite (chunk_sent_eq _ _ _ _ _ Hin) in *.
  match goal with |- ok _ ?x _ ∧ _ => set (l' := x) end.
  assert (work l = S (work l')) as Hw.
  { apply (work_step _ _ d); [done..| |].
    - unfold todo. cbn. rewrite Hb, bool_decide_true, Hbel, Hfail by done. done.
    - intros [q j] Hx. unfold todo. cbn. rewrite Hb, bool_decide_false; [done|].
      intros [-> ->]. by apply Hx. }
  split; [|done]. split; try done; cbn; try apply Hok.
  - intros d' Hd'. rewrite Hb, bool_decide_false by (intros [? _]; by apply (Hother d')).
    by apply Hrest.
  - intros q Hq. destruct (receiver_ok bound l d ds q Hok Hq) as (? & ? & Hrs).
    split; [done|]. split; [done|]. intros j. rewrite Hb. apply Hrs.
  - lia.
Qed.

Lemma transmit_ok bound l d ds :
  ok bound l (d :: ds) →
  ok bound (transmit arrives l d) ds ∧ work l = S (work (transmit arrives l d)).
Proof.
  intros Hok. unfold transmit. destruct (failures l _) eqn:Hfail.
  - by apply transmit_sent_ok.
  - by apply transmit_failed_ok.
Qed.

Lemma transmit_all_ok bound ds l :
  ok bound l ds →
  ok bound (foldl (transmit arrives) l ds) [] ∧
  (work l = length ds + work (foldl (transmit arrives) l ds))%nat.
Proof.
  revert l; induction ds as [|d ds IH]; intros l Hok; [done|].
  apply transmit_ok in Hok as [Hok Hw]. cbn [foldl length].
  destruct (IH _ Hok) as [? Hw2]. split; [done|]. lia.
Qed.

(** A poll between rounds. *)
Lemma poll_ok bound l ds s :
  ok bound l [] → bound + N.of_nat (size peers) < 2 ^ 64 →
  poll_chunks (sender l) = (ds, s) →
  let l' := mkLink s (receivers l) (failures l) in
  ok bound l' ds ∧ work l' = work l ∧
  (ds = [] → ∀ p i, p ∈ peers → i < preamble_total pre → believed (planner s) p i = true).
Proof.
  intros Hok Hbound Hp l'. pose proof (ok_wf _ _ _ Hok) as Hwf.
  pose proof (ok_work _ _ _ Hok) as Hwork. cbn [length] in Hwork.
  pose proof (length_bt_elements (attached_peers (sender l))) as Hlen.
  rewrite (ok_attached _ _ _ Hok) in Hlen.
  assert (total_shards (sender l) = preamble_total pre) as Ht.
  { unfold total_shards. by rewrite (ok_pre _ _ _ Hok). }
  unfold poll_chunks in Hp. rewrite (ok_attached _ _ _ Hok) in Hp.
  assert (∀ q i, eligible (planner (sender l)) q i ↔
    i < preamble_total pre ∧ believed (planner (sender l)) q i = false) as Hel.
  { intros q i. rewrite eligible_origin, (wf_num _ Hwf), Ht; [done|apply Hok|].
    apply set_eq. intros j. split; [|by intros ?%elem_of_empty].
    intros [h Hh]%(Books.bk_all _ _ _ (wf_books _ Hwf)).
    apply (ok_in_flight _ _ _ Hok) in Hh as (d & Hd & _). by apply elem_of_nil in Hd. }
  pose proof Hp as (Hv & Hds & Hskip & _)%poll_origin; [|done|apply Hok|..].
  - apply poll_peers_spec in Hp as (? & (_ & Hpr & Hmo) & Hch & Hat & Hnx & Hsub & Hhd & Hpl & Hfl);
      [|done|apply NoDup_bt_elements|lia].
    assert (∀ q i, believed (planner s) q i = believed (planner (sender l)) q i) as Hb
      by (intros; by apply same_view_believed).
    assert (work l' = work l) as Hwl.
    { apply sum_list_ext. intros x. unfold todo. cbn. by rewrite Hb. }
    split; [|split; [done|]].
    + split; cbn; try done.
      * by rewrite Hpr, (ok_pre _ _ _ Hok).
      * by rewrite Hmo, (ok_mode _ _ _ Hok).
      * by rewrite Hch, (ok_chunks _ _ _ Hok).
      * by rewrite Hat, (ok_attached _ _ _ Hok).
      * eapply same_view_ok; [exact Hv| |apply Hok].
        rewrite !wf_num by done. unfold total_shards. by rewrite Hpr.
      * intros h v. rewrite Hfl, (ok_in_flight _ _ _ Hok). set_solver.
      * rewrite Hhd. apply NoDup_fmap_2; [intros ???; lia|apply NoDup_seq].
      * eapply sublist_NoDup, Hsub. apply NoDup_bt_elements.
      * intros d Hd. rewrite Hb. split; [|split; [by destruct (proj1 (Hel _ _) (Hds d Hd))|]].
        -- apply elem_of_bt_elements. eapply elem_of_sublist; [|exact Hsub].
           by apply list_elem_of_fmap_2.
        -- rewrite <- (slot_origin (sender l)) by apply Hok. by apply Hpl.
      * intros q Hq. destruct (ok_receivers _ _ _ Hok q Hq) as (? & ? & Hrs).
        split; [done|]. split; [done|]. intros j. rewrite Hb. apply Hrs.
      * lia.
    + intros -> q i Hq Hi. rewrite Hb. apply not_false_iff_true. intros Hbel.
      apply (Hskip q i); [by apply elem_of_bt_elements|set_solver|by apply Hel].
  - intros i Hi. rewrite (slot_origin (sender l)) by apply Hok.
    apply lookup_lt_is_Some. lia.
  - apply NoDup_bt_elements.
  - lia.
Qed.

(** The loop ends, with every send made. *)
Lemma transfer_ok fuel bound l :
  ok bound l [] → bound + N.of_nat (size peers) < 2 ^ 64 → (work l < fuel)%nat →
  ∃ l', transfer arrives fuel l = Some l' ∧ ok bound l' [] ∧
    ∀ p i, p ∈ peers → i < preamble_total pre → believed (planner (sender l')) p i = true.
Proof.
  revert l; induction fuel as [|fuel IH]; intros l Hok Hb Hfuel; [lia|].
  cbn [transfer]. destruct (poll_chunks (sender l)) as [ds s] eqn:Hp.
  destruct (poll_ok bound l ds s Hok Hb Hp) as (Hok' & Hw & Hdone).
  destruct ds as [|d ds].
  { eexists. split; [done|]. split; [exact Hok'|by apply Hdone]. }
  apply transmit_all_ok in Hok' as [Hok' Hw']. cbn [length] in Hw'.
  apply IH; [done|done|lia].
Qed.
End loop.

(** * The start and the outcome *)
Section ends.
Context `{Sha256, !Sha256Laws, ReedSolomon, !ReedSolomonLaws}.

Lemma attach_list_eq s l :
  foldl attach_peer s l =
  mkRs (config s) (preamble s) (chunks s) (planner s) (list_to_set l ∪ attached_peers s)
    (Rs.in_flight s) (next_handle s) (last_routing_emitted_count s).
Proof.
  revert s; induction l as [|p l IH]; intros s.
  { destruct s. simpl. f_equal. set_solver. }
  simpl. rewrite IH. unfold attach_peer. simpl. f_equal. set_solver.
Qed.

(** A new origin holds every shard. *)
Lemma new_origin_wf payload cfg sd o :
  payload ≠ [] → new_origin_with_seed payload cfg sd = Some (Ok o) →
  ∃ k m shards, encoded payload k m (preamble o) shards ∧ wf o ∧
    o = with_ cfg (preamble o) (Some <$> shards)
          (EmitPlanner.new (preamble_total (preamble o)) sd Origin).
Proof.
  intros Hp. unfold new_origin_with_seed.
  pose proof (encode_cases payload cfg Hp) as He.
  destruct (Encode.encode payload cfg) as [[[pre shards]|]|]; [|done..].
  destruct He as (k & m & len & _ & He). cbn. intros [= <-]. cbn [preamble with_].
  pose proof (encoded_total _ _ _ _ _ He) as Ht.
  pose proof (encoded_valid _ _ _ _ _ He) as [Hv _].
  pose proof (encoded_i32 _ _ _ _ _ He) as Hi.
  pose proof (shard_total_u32 _ Hv) as H32. rewrite <- preamble_total_valid in H32 by done.
  rewrite usize_as_u32_small by lia. rewrite Ht.
  exists k, m, shards. split; [done|]. split; [|done].
  apply with_wf; [done|done|by rewrite length_fmap| |done].
  intros i d Hd. rewrite list_lookup_fmap in Hd.
  destruct (shards !! N.to_nat i) as [x|] eqn:E; [|done]. injection Hd as ->.
  by eapply encoded_verify.
Qed.

(** The round invariant when nothing was sent. *)
Lemma start_ok arrives payload k m shards cfg sd o peers rcfg seeds receivers failures :
  encoded payload k m (preamble o) shards → wf o →
  o = with_ cfg (preamble o) (Some <$> shards)
        (EmitPlanner.new (preamble_total (preamble o)) sd Origin) →
  (∀ p, p ∈ peers → forward_multiplier (rcfg p) < 2 ^ 32 ∧
     new_relay_with_seed (preamble o) (rcfg p) (seeds p) = Ok (receivers p)) →
  let l := mkLink (attach_all o peers) receivers failures in
  ok arrives (preamble o) shards peers
    (N.of_nat (attempts failures peers (preamble_total (preamble o)))) l [] ∧
  work (preamble o) peers l = attempts failures peers (preamble_total (preamble o)).
Proof.
  intros He Hwf Ho Hrel l.
  assert (∀ q i, believed (planner o) q i = false) as Hbel.
  { intros q i. rewrite Ho. unfold believed, peer_state. cbn. by rewrite lookup_empty. }
  assert (attach_all o peers = mkRs (config o) (preamble o) (chunks o) (planner o) peers
            (Rs.in_flight o) (next_handle o) (last_routing_emitted_count o)) as Ha.
  { unfold attach_all. rewrite attach_list_eq. f_equal. rewrite Ho. cbn. set_solver. }
  assert (work (preamble o) peers l =
          attempts failures peers (preamble_total (preamble o))) as Hw.
  { apply sum_list_ext. intros x. unfold todo, l. cbn. by rewrite Ha, Hbel. }
  split; [|done]. split; unfold l; cbn; rewrite ?Ha; cbn; try done.
  - apply (wf_update o); [done|apply (wf_books o Hwf)|done|exact (wf_held o Hwf)].
  - by rewrite Ho.
  - by rewrite Ho.
  - intros q b. rewrite Ho. unfold peer_state. cbn. by rewrite lookup_empty.
  - intros h v. rewrite Ho. cbn. rewrite lookup_empty. split; [done|].
    by intros (d & Hd%elem_of_nil & _).
  - constructor.
  - constructor.
  - by intros d Hd%elem_of_nil.
  - intros p Hp. destruct (Hrel p Hp) as [Hf Hnew].
    apply new_relay_wf in Hnew as (? & ? & _ & _ & _ & _ & Hs);
      [|by eapply encoded_i32|done].
    split; [done|]. split; [done|]. intros i. by rewrite Hs, Hbel.
  - unfold l in Hw. rewrite Ha in Hw. rewrite Hw, Ho. cbn. lia.
Qed.
End ends.
End RsLinkLemmas.

(** * Properties *)
Section properties.
Context `{Sha256, !Sha256Laws, ReedSolomon, !ReedSolomonLaws}.
Import Rs RsLemmas RsLink RsLinkLemmas.

Lemma countb_negb f n : (countb f n + countb (λ i, negb (f i)) n)%nat = n.
Proof. induction n as [|n IH]; [done|]. simpl. destruct (f n); simpl; lia. Qed.

(** What a relay that holds some of an origin's shards can do. *)
Lemma relay_outcome payload k m shards (arrives : N → N → bool) p s :
  encoded payload k m (preamble s) shards → wf s →
  (∀ i, slot s i = if arrives p i then shards !! N.to_nat i else None) →
  can_reconstruct s = bool_decide (N.of_nat (lost arrives p (preamble_total (preamble s))) ≤ m) ∧
  (can_reconstruct s = true → Rs.decode s = Ok payload).
Proof.
  intros He Hwf Hs. pose proof (encoded_total _ _ _ _ _ He) as Ht.
  pose proof (en_total _ _ _ _ _ He) as Hlen. pose proof (wf_chunks s Hwf) as Hc.
  unfold total_shards in Hc.
  assert (accepted_count s = k + m - N.of_nat (lost arrives p (preamble_total (preamble s))))
    as Hacc.
  { rewrite RsTrace.accepted_count_eq, <- Havelist.countb_filter by done. unfold lost.
    pose proof (countb_negb (λ i, arrives p (N.of_nat i))
                  (N.to_nat (preamble_total (preamble s)))) as Hn.
    assert (length (chunks s) = N.to_nat (preamble_total (preamble s))) as -> by lia.
    rewrite (countb_ext _ (λ i, arrives p (N.of_nat i))); [lia|].
    intros i Hi. specialize (Hs (N.of_nat i)). unfold slot in Hs. rewrite Nat2N.id in Hs.
    rewrite Hs. destruct (arrives _ _); [|done].
    destruct (lookup_lt_is_Some_2 shards i) as [d ->]; [lia|done]. }
  assert (can_reconstruct s = bool_decide (k ≤ accepted_count s)) as Hcan.
  { unfold can_reconstruct. rewrite (en_num_data _ _ _ _ _ He).
    pose proof (encoded_i32 _ _ _ _ _ He) as [Hi _]. rewrite (en_num_data _ _ _ _ _ He) in Hi.
    unfold i32_as_u32. rewrite Z.mod_small by lia. by rewrite N2Z.id. }
  split.
  - rewrite Hcan. apply bool_decide_ext. rewrite Hacc.
    pose proof (en_rs _ _ _ _ _ He) as (rs & raw & Hrs & _).
    apply rs_new_Ok in Hrs as (? & ? & _). lia.
  - rewrite Hcan. intros Hk%bool_decide_eq_true.
    destruct (RsTrace.pairs_wf s Hwf) as (Hl & Hnd & Hin).
    apply (decode_codeword payload k m (preamble s) shards); [done|done| |by rewrite Hl].
    apply Forall_forall. intros [i d] Hid%Hin. rewrite Hs in Hid. by destruct (arrives p i).
Qed.

(** C8: over lossy links every relay gets what its link lets through, and the
    message if that is enough.  The origin of a payload polls until nothing is
    left to send; a send may fail any number of times and a shard that was sent
    may be lost.  The loop ends within one round more than there are attempts,
    each relay then holds exactly the origin's shards that arrived at it, it can
    reconstruct exactly when no more than [num_parity] were lost, and then it
    decodes the payload. *)
Theorem lossy_links_deliver payload cfg sd o (peers : gset N) rcfg seeds relays
    (arrives : N → N → bool) (failing : N * N → nat) :
  payload ≠ [] → new_origin_with_seed payload cfg sd = Some (Ok o) →
  (∀ p, p ∈ peers → forward_multiplier (rcfg p) < 2 ^ 32 ∧
     new_relay_with_seed (preamble o) (rcfg p) (seeds p) = Ok (relays p)) →
  let n := preamble_total (preamble o) in
  N.of_nat (attempts failing peers n) + N.of_nat (size peers) < 2 ^ 64 →
  ∃ l, transfer arrives (S (attempts failing peers n))
         (mkLink (attach_all o peers) relays failing) = Some l ∧
  ∀ p, p ∈ peers →
    (∀ i, slot (receivers l p) i = if arrives p i then slot o i else None) ∧
    can_reconstruct (receivers l p) =
      bool_decide (Z.of_nat (lost arrives p n) ≤ num_parity (preamble o))%Z ∧
    (can_reconstruct (receivers l p) = true → Rs.decode (receivers l p) = Ok payload).
Proof.
  intros Hp Ho Hrel n Hb.
  apply new_origin_wf in Ho as (k & m & shards & He & Hwf & Ho); [|done].
  edestruct (start_ok arrives) as [Hok Hw]; [exact He|done|exact Ho|exact Hrel|].
  pose proof (encoded_total _ _ _ _ _ He) as Ht.
  eapply transfer_ok in Hok as (l & Hl & Hok & Hall);
    [|by intros i d; eapply encoded_verify|done|done|rewrite Hw; apply Nat.lt_succ_diag_r].
  exists l. split; [exact Hl|]. intros p Hin.
  destruct (ok_receivers _ _ _ _ _ _ _ Hok p Hin) as (Hrw & Hrp & Hrs).
  assert (∀ i, slot (receivers l p) i = if arrives p i then shards !! N.to_nat i else None)
    as Hsl.
  { intros i. rewrite Hrs. destruct (decide (i < n)) as [Hi|Hi].
    - by rewrite Hall.
    - rewrite lookup_ge_None_2 by lia. by repeat case_match. }
  split.
  { intros i. rewrite Hsl. rewrite (slot_origin shards o); [done|]. by rewrite Ho. }
  rewrite <- Hrp in He. destruct (relay_outcome _ _ _ _ _ p _ He Hrw Hsl) as [Hcan Hdec].
  split; [|done]. rewrite Hcan. apply bool_decide_ext.
  pose proof (en_num_parity _ _ _ _ _ He) as Hm. rewrite Hrp in *. fold n. lia.
Qed.
End properties.

(** * A transfer over two links *)
Section example.
Import Rs RsLink RsExample XorCode.

Definition example_origin : RsStrategy :=
  match new_origin_with_seed payload config 7 with Some (Ok o) => o | _ => relay end.

(** Peer 1 loses shard 0; peer 2 loses shards 0 and 2, and the send of shard 1 to
    it fails three times. *)
Definition example_arrives (p i : N) : bool :=
  negb (bool_decide ((p, i) ∈ ([(1, 0); (2, 0); (2, 2)] : list (N * N)))).
Definition example_failing (x : N * N) : nat := if decide (x = (2, 1)) then 3 else 0.

Lemma lossy_links_deliver_witness :
  ∃ l, transfer example_arrives 10
         (mkLink (attach_all example_origin {[1; 2]}) (λ _, relay) example_failing) = Some l ∧
  Rs.decode (receivers l 1) = Ok payload ∧ can_reconstruct (receivers l 2) = false.
Proof.
  destruct (lossy_links_deliver payload config 7 example_origin {[1; 2]} (λ _, config) (λ _, 7)
    (λ _, relay) example_arrives example_failing) as (l & Hl & Hall).
  - discriminate.
  - vm_compute. reflexivity.
  - intros p _. split; [reflexivity|]. vm_compute. reflexivity.
  - vm_compute. reflexivity.
  - exists l. split; [exact Hl|].
    destruct (Hall 1) as (_ & H1 & Hd); [set_solver|].
    destruct (Hall 2) as (_ & H2 & _); [set_solver|].
    split; [apply Hd; rewrite H1; vm_compute; reflexivity|rewrite H2; vm_compute; reflexivity].
Defined.
End example.
