(* ===== verification/Session.v ===== *)
(** The per-session state machine over a strategy: [session.rs]. *)
From Stdlib Require Import NArith Lia.
From stdpp Require Import base option strings list.
From S2P Require Import Prelude Strategy.

Open Scope N_scope.

(** [SessionState]. *)
Module SessionState.
Inductive t := Origin | Consuming | Decoding | Reconstructed | Failed.
#[export] Instance eq_dec : EqDecision t.
Proof. solve_decision. Defined.

#[export] Instance Debug_SessionState : Debug t := λ s,
  match s with
  | Origin => "Origin"
  | Consuming => "Consuming"
  | Decoding => "Decoding"
  | Reconstructed => "Reconstructed"
  | Failed => "Failed"
  end%string.
End SessionState.
Export (hints) SessionState.

(** [SessionError]. *)
Inductive SessionError :=
  | PostConsuming (v : Verdict.t)
  | NotDecoding (s : SessionState.t)
  | Take (e : TakeError).

#[export] Instance SessionError_eq_dec : EqDecision SessionError.
Proof. solve_decision. Defined.

#[export] Instance Display_SessionError : Display SessionError := λ e,
  match e with
  | PostConsuming v => "session not in Consuming (verdict=" +:+ debug_string v +:+ ")"
  | NotDecoding s => "session not in Decoding (state=" +:+ debug_string s +:+ ")"
  | Take e => "take_chunk: " +:+ to_string e
  end%string.

(** [Session<S>]. *)
Record Session (S : Type) := mkSession {
  strategy : S;
  state : SessionState.t
}.
Arguments mkSession {S} strategy state.
Arguments strategy {S} _.
Arguments state {S} _.

(** [SessionWork<S>]. *)
Record SessionWork (CI RU : Type) := mkSessionWork {
  routing : option RU;
  dispatches : list (ChunkDispatch CI)
}.
Arguments mkSessionWork {CI RU} routing dispatches.
Arguments routing {CI RU} _.
Arguments dispatches {CI RU} _.

Module Session.
Section session.
Context {S CI RU DE : Type} `{!Strategy S CI RU DE}.

Definition new_origin (strategy : S) : Session S :=
  mkSession strategy SessionState.Origin.

Definition new_relay (strategy : S) : Session S :=
  mkSession strategy SessionState.Consuming.

Definition attach_peer (s : Session S) (peer : N) : Session S :=
  mkSession (Strategy.attach_peer (strategy s) peer) (state s).

Definition detach_peer (s : Session S) (peer : N) (completed : bool) : Session S :=
  mkSession (Strategy.detach_peer (strategy s) peer completed) (state s).

Definition routing_update (s : Session S) (peer : N) (update : RU)
    : list N * Session S :=
  let '(hs, st) := Strategy.routing_update (strategy s) peer update in
  (hs, mkSession st (state s)).

Definition take_chunk (s : Session S) (idx : CI) (data : bytes)
    : result SessionError TakeOutcome * Session S :=
  match state s with
  | SessionState.Consuming =>
      match Strategy.take_chunk (strategy s) idx data with
      | (Err e, st) => (Err (Take e), mkSession st (state s))
      | (Ok outcome, st) =>
          if complete outcome && bool_decide (verdict outcome = Verdict.Accepted)
          then (Ok outcome, mkSession st SessionState.Decoding)
          else (Ok outcome, mkSession st (state s))
      end
  | SessionState.Decoding => (Err (PostConsuming Verdict.Decoding), s)
  | SessionState.Reconstructed => (Err (PostConsuming Verdict.Surplus), s)
  | SessionState.Origin | SessionState.Failed =>
      (Err (PostConsuming Verdict.Invalid), s)
  end.

Definition decode_and_finish (s : Session S) : result SessionError bytes * Session S :=
  if decide (state s ≠ SessionState.Decoding) then (Err (NotDecoding (state s)), s)
  else
    match Strategy.decode (strategy s) with
    | Ok payload => (Ok payload, mkSession (strategy s) SessionState.Reconstructed)
    | Err _ =>
        (Err (NotDecoding SessionState.Failed),
         mkSession (strategy s) SessionState.Failed)
    end.

Definition poll (s : Session S) : SessionWork CI RU * Session S :=
  let '(routing, st) := Strategy.poll_routing (strategy s) false in
  let '(dispatches, st) := Strategy.poll_chunks st in
  (mkSessionWork routing dispatches, mkSession st (state s)).

Definition chunk_sent (s : Session S) (peer handle : N) (ok : bool) : Session S :=
  mkSession (Strategy.chunk_sent (strategy s) peer handle ok) (state s).

Definition progress (s : Session S) : N * N := Strategy.progress (strategy s).

(** ** Runs of a session *)

(** The calls that change a session. *)
Inductive op :=
  | AttachPeer (peer : N)
  | DetachPeer (peer : N) (completed : bool)
  | RoutingUpdate (peer : N) (update : RU)
  | TakeChunk (idx : CI) (data : bytes)
  | DecodeAndFinish
  | Poll
  | ChunkSent (peer handle : N) (ok : bool).

(** The state after a call and the payload it delivered, if it did. *)
Definition step (s : Session S) (o : op) : option bytes * Session S :=
  match o with
  | AttachPeer peer => (None, attach_peer s peer)
  | DetachPeer peer completed => (None, detach_peer s peer completed)
  | RoutingUpdate peer update => (None, snd (routing_update s peer update))
  | TakeChunk idx data => (None, snd (take_chunk s idx data))
  | DecodeAndFinish =>
      let '(r, s) := decode_and_finish s in
      (match r with Ok p => Some p | Err _ => None end, s)
  | Poll => (None, snd (poll s))
  | ChunkSent peer handle ok => (None, chunk_sent s peer handle ok)
  end.

(** The payloads delivered by a sequence of calls. *)
Fixpoint run (s : Session S) (os : list op) : list bytes * Session S :=
  match os with
  | [] => ([], s)
  | o :: os =>
      let '(d, s) := step s o in
      let '(ds, s) := run s os in
      (option_list d ++ ds, s)
  end.

(** The edges of the documented state diagram. *)
Inductive edge : SessionState.t → SessionState.t → Prop :=
  | edge_stay st : edge st st
  | edge_complete : edge SessionState.Consuming SessionState.Decoding
  | edge_decode_ok : edge SessionState.Decoding SessionState.Reconstructed
  | edge_decode_err : edge SessionState.Decoding SessionState.Failed.

Definition rank (st : SessionState.t) : N :=
  match st with
  | SessionState.Consuming => 0
  | SessionState.Decoding => 1
  | _ => 2
  end.

(** ** Lemmas *)

Lemma step_state s o : edge (state s) (state (snd (step s o))).
Proof.
  destruct o as [p|p c|p u|i d| | |p h ok]; cbn [step snd]; try constructor.
  - unfold routing_update. destruct (Strategy.routing_update _ _ _). constructor.
  - unfold take_chunk. destruct (state s) eqn:Hs; try (simpl; rewrite Hs; constructor).
    destruct (Strategy.take_chunk _ _ _) as [[oc|e] st]; [|simpl; constructor].
    destruct (_ && _); simpl; constructor.
  - unfold decode_and_finish. case_decide as Hd; [constructor|].
    rewrite Hd.
    destruct (Strategy.decode _); simpl; constructor.
  - unfold poll. destruct (Strategy.poll_routing _ _) as [r st].
    destruct (Strategy.poll_chunks st). constructor.
Qed.

(** A payload is delivered by the transition to [Reconstructed]. *)
Lemma step_delivers s o p :
  fst (step s o) = Some p →
  state s = SessionState.Decoding ∧ state (snd (step s o)) = SessionState.Reconstructed ∧
  Strategy.decode (strategy s) = Ok p.
Proof.
  destruct o; try done. cbn [step]. unfold decode_and_finish. case_decide as Hd; [done|].
  destruct (Strategy.decode _); [|done].
  simpl. intros [= ->]. done.
Qed.

Lemma edge_rank a b : edge a b → rank a ≤ rank b ∧ (rank a = rank b → a = b).
Proof. destruct 1; simpl; split; intros; lia || done. Qed.

Lemma run_terminal s os :
  rank (state s) = 2 → fst (run s os) = [] ∧ state (snd (run s os)) = state s.
Proof.
  revert s; induction os as [|o os IH]; intros s Hs; [done|].
  cbn [run]. pose proof (step_state s o) as He. pose proof (step_delivers s o) as Hd.
  destruct (step s o) as [d s1] eqn:E. cbn [fst snd] in *.
  assert (state s1 = state s) as H1.
  { destruct (edge_rank _ _ He) as [Hle Heq]. symmetry. apply Heq.
    destruct (state s1); simpl in *; lia. }
  destruct (IH s1) as [Hf Hst]; [by rewrite H1|].
  destruct (run s1 os) as [ds s2]. cbn [fst snd] in *. subst ds.
  destruct d as [p|]; [|by rewrite Hst].
  destruct (Hd p eq_refl) as (Hdec & _). rewrite Hdec in Hs. done.
Qed.
End session.
End Session.

(** * Properties *)
Section properties.
Context {S CI RU DE : Type} `{!Strategy S CI RU DE}.
Import Session.

(** C32: the session follows its state diagram: every call takes one of the
    edges Consuming to Decoding to Reconstructed or Failed, or none; origin,
    reconstructed and failed sessions never change state; and whatever calls are
    made, at most one payload is ever delivered, namely what the strategy
    decoded on entering Reconstructed. *)
Theorem session_lifecycle (s : Session S) (os : list op) :
  (∀ o, edge (state s) (state (snd (step s o)))) ∧
  (rank (state s) = 2 → state (snd (run s os)) = state s) ∧
  match run s os with
  | ([], _) => True
  | ([p], s') => state s' = SessionState.Reconstructed ∧
      ∃ os1 os2, os = os1 ++ DecodeAndFinish :: os2 ∧
        state (snd (run s os1)) = SessionState.Decoding ∧
        Strategy.decode (strategy (snd (run s os1))) = Ok p
  | _ => False
  end.
Proof.
  split; [intros o; apply step_state|]. split; [apply run_terminal|].
  revert s; induction os as [|o os IH]; intros s; [done|]. cbn [run].
  pose proof (step_delivers s o) as Hd. destruct (step s o) as [d s1] eqn:E.
  cbn [fst snd] in *. destruct d as [p|].
  - destruct (Hd p eq_refl) as (Hs & Hs1 & Hp).
    destruct (run_terminal s1 os) as [Hf Hst]; [by rewrite Hs1|].
    destruct (run s1 os) as [ds s2]. cbn [fst snd] in *. subst ds. simpl.
    split; [by rewrite Hst|]. exists [], os. split; [|done].
    destruct o; simplify_eq/=. done.
  - specialize (IH s1). destruct (run s1 os) as [ds s2]. simpl.
    destruct ds as [|p [|]]; [done| |done].
    destruct IH as (Hst & os1 & os2 & -> & H1 & H2). split; [done|].
    exists (o :: os1), os2. split; [done|]. cbn [run]. rewrite E.
    by destruct (run s1 os1).
Qed.

(** outside [Consuming] a chunk never reaches the strategy and is answered
    with the verdict of the boundary it crossed; in [Consuming] the strategy's
    answer is passed on, and the session starts decoding exactly when the chunk
    was accepted and completed the message. *)
Theorem session_take_chunk (s : Session S) (i : CI) (d : bytes) :
  let '(r, s') := Session.take_chunk s i d in
  match state s with
  | SessionState.Consuming =>
      let '(r0, st) := Strategy.take_chunk (strategy s) i d in
      strategy s' = st ∧ r = map_err Take r0 ∧
      (state s' = SessionState.Decoding ↔
        r0 = Ok (mkTakeOutcome Verdict.Accepted true)) ∧
      (state s' ≠ SessionState.Decoding → state s' = SessionState.Consuming)
  | SessionState.Decoding => r = Err (PostConsuming Verdict.Decoding) ∧ s' = s
  | SessionState.Reconstructed => r = Err (PostConsuming Verdict.Surplus) ∧ s' = s
  | _ => r = Err (PostConsuming Verdict.Invalid) ∧ s' = s
  end.
Proof.
  unfold Session.take_chunk. destruct (state s) eqn:Hs; try done.
  destruct (Strategy.take_chunk (strategy s) i d) as [[[v c]|e] st]; simpl.
  - destruct c; simpl; [case_bool_decide as Hv|]; simpl.
    + subst v. done.
    + split_and!; try done. split; intros; simplify_eq; done.
    + split_and!; done.
  - split_and!; done.
Qed.
End properties.
