(* ===== verification/Channel.v ===== *)
(** The per-topic container of sessions: [channel.rs].

    A [StrategyFactory] is a closure; the factories of [engine.rs] draw the
    planner seed of the n-th strategy from a counter or from the system clock,
    so a factory is a function of a counter it advances and of the preamble
    bytes. *)
From Stdlib Require Import NArith Lia.
From stdpp Require Import base gmap option strings list.
From S2P Require Import Prelude Strategy Session.

Open Scope N_scope.

Abbreviation ChannelId := string (only parsing).
Abbreviation MessageId := string (only parsing).

(** [ChannelError]. *)
Inductive ChannelError :=
  | InvalidPreamble (msg : string)
  | SessionNotFound (m : string)
  | SessionErr (e : SessionError)
  | DuplicateSession (m : string).

#[export] Instance ChannelError_eq_dec : EqDecision ChannelError.
Proof. solve_decision. Defined.

#[export] Instance Display_ChannelError : Display ChannelError := λ e,
  match e with
  | InvalidPreamble s => "invalid preamble: " +:+ s
  | SessionNotFound m => "session not found: " +:+ m
  | SessionErr e => "session: " +:+ to_string e
  | DuplicateSession m => "duplicate session: " +:+ m
  end%string.

(** [StrategyFactory<S>]. *)
Record StrategyFactory (S : Type) := mkFactory {
  counter : N;
  build : N → bytes → result ChannelError S * N
}.
Arguments mkFactory {S} counter build.
Arguments counter {S} _.
Arguments build {S} _.

(** [(self.factory)(preamble_bytes)]. *)
Definition call_factory {S} (f : StrategyFactory S) (preamble : bytes)
    : result ChannelError S * StrategyFactory S :=
  let '(r, n) := build f (counter f) preamble in (r, mkFactory n (build f)).

(** [Channel<S>]. *)
Record Channel (S : Type) := mkChannel {
  channel_id : string;
  subscribers : gset N;
  sessions : gmap string (Session S);
  factory : StrategyFactory S
}.
Arguments mkChannel {S} channel_id subscribers sessions factory.
Arguments channel_id {S} _.
Arguments subscribers {S} _.
Arguments sessions {S} _.
Arguments factory {S} _.

Module Channel.
Section channel.
Context {S CI RU DE : Type} `{!Strategy S CI RU DE}.

Definition new (channel_id : string) (factory : StrategyFactory S) : Channel S :=
  mkChannel channel_id ∅ ∅ factory.

Definition with_sessions (c : Channel S) (m : gmap string (Session S)) : Channel S :=
  mkChannel (channel_id c) (subscribers c) m (factory c).

Definition subscribe_peer (c : Channel S) (peer : N) : Channel S :=
  if decide (peer ∈ subscribers c) then c
  else mkChannel (channel_id c) ({[peer]} ∪ subscribers c)
         ((λ s, Session.attach_peer s peer) <$> sessions c) (factory c).

Definition unsubscribe_peer (c : Channel S) (peer : N) : Channel S :=
  if decide (peer ∈ subscribers c)
  then mkChannel (channel_id c) (subscribers c ∖ {[peer]})
         ((λ s, Session.detach_peer s peer false) <$> sessions c) (factory c)
  else c.

(** Attaching all current subscribers to a new session. *)
Definition attach_all (c : Channel S) (s : Session S) : Session S :=
  foldl Session.attach_peer s (bt_elements (subscribers c)).

Definition open_session (message_id : string) (preamble_bytes : bytes)
    : SM (Channel S) ChannelError unit := λ c,
  if contains_key (sessions c) message_id then (Err (DuplicateSession message_id), c)
  else
    let '(r, f) := call_factory (factory c) preamble_bytes in
    let c := mkChannel (channel_id c) (subscribers c) (sessions c) f in
    match r with
    | Err e => (Err e, c)
    | Ok strategy =>
        let session := attach_all c (Session.new_relay strategy) in
        (Ok (), with_sessions c (<[message_id := session]> (sessions c)))
    end.

Definition start_origin_session (message_id : string) (strategy : S)
    : SM (Channel S) ChannelError unit := λ c,
  if contains_key (sessions c) message_id then (Err (DuplicateSession message_id), c)
  else
    let session := attach_all c (Session.new_origin strategy) in
    (Ok (), with_sessions c (<[message_id := session]> (sessions c))).

Definition take_chunk (message_id : string) (chunk_id : CI) (data : bytes)
    : SM (Channel S) ChannelError TakeOutcome := λ c,
  match sessions c !! message_id with
  | None => (Err (SessionNotFound message_id), c)
  | Some session =>
      let '(r, session) := Session.take_chunk session chunk_id data in
      (map_err SessionErr r, with_sessions c (<[message_id := session]> (sessions c)))
  end.

Definition remove_session (c : Channel S) (message_id : string) : Channel S :=
  with_sessions c (delete message_id (sessions c)).

Definition session_mut (c : Channel S) (message_id : string) : option (Session S) :=
  sessions c !! message_id.

(** ** Lemmas *)

Lemma open_session_cases m pre (c : Channel S) :
  let '(r, c') := open_session m pre c in
  subscribers c' = subscribers c ∧
  match r with
  | Err e => sessions c' = sessions c
  | Ok _ => sessions c !! m = None ∧
      ∃ st n, build (factory c) (counter (factory c)) pre = (Ok st, n) ∧
        sessions c' = <[m := attach_all c (Session.new_relay st)]> (sessions c)
  end.
Proof.
  unfold open_session, call_factory.
  destruct (contains_key (sessions c) m) eqn:Hk; [done|].
  apply contains_key_false in Hk.
  destruct (build _ _ _) as [[st|e] n] eqn:Hb; simpl; [|done].
  split; [done|]. split; [done|]. by exists st, n.
Qed.

Lemma start_origin_cases m st (c : Channel S) :
  let '(r, c') := start_origin_session m st c in
  subscribers c' = subscribers c ∧
  match r with
  | Err e => c' = c
  | Ok _ => sessions c !! m = None ∧
      sessions c' = <[m := attach_all c (Session.new_origin st)]> (sessions c)
  end.
Proof.
  unfold start_origin_session.
  destruct (contains_key (sessions c) m) eqn:Hk; [done|].
  apply contains_key_false in Hk. done.
Qed.

Lemma attach_all_state (c : Channel S) s : state (attach_all c s) = state s.
Proof.
  unfold attach_all. generalize (bt_elements (subscribers c)) as l. intros l.
  revert s; induction l as [|p l IH]; intros s; [done|]. simpl. by rewrite IH.
Qed.

(** [take_chunk] replaces at most the one session it is for. *)
Lemma take_chunk_cases m i d (c : Channel S) :
  let '(r, c') := take_chunk m i d c in
  subscribers c' = subscribers c ∧
  match sessions c !! m with
  | None => r = Err (SessionNotFound m) ∧ c' = c
  | Some s => r = map_err SessionErr (fst (Session.take_chunk s i d)) ∧
      sessions c' = <[m := snd (Session.take_chunk s i d)]> (sessions c)
  end.
Proof.
  unfold take_chunk. destruct (sessions c !! m) as [s|]; [|done].
  by destruct (Session.take_chunk s i d).
Qed.
End channel.
End Channel.
