(* ===== verification/Runtime.v ===== *)
(** The seams to the outside of the engine: [runtime/mod.rs].

    The network, the clock and the delivery channel are traits or library
    types; they are the parameters [Net], [Clock] and [DeliverySink] below.
    Their methods take [&self] and have interior state, so the model passes
    that state along: the engine owns one value of each. *)
From Stdlib Require Import NArith.
From stdpp Require Import base option strings list.
From S2P Require Import Prelude Strategy.

Open Scope N_scope.

(** [Duration] and [Instant], in nanoseconds. *)
Abbreviation Duration := N (only parsing).
Abbreviation Instant := N (only parsing).
Definition from_secs (s : N) : N := s * 1000000000.
(** [Instant::saturating_duration_since]. *)
Definition saturating_duration_since (now earlier : N) : N := now - earlier.

(** [NetSend]. *)
Inductive NetSend :=
  | SendHandshake (peer version : N) (channels : list string) (peer_id : string)
  | SendSubscribe (peer : N) (channel : string)
  | SendUnsubscribe (peer : N) (channel : string)
  | SendSessionOpen (peer : N) (channel message_id : string)
      (preamble initial_update : bytes)
  | SendRoutingUpdate (peer : N) (channel message_id : string) (payload : bytes)
  | SendChunk (peer : N) (channel message_id : string) (chunk_id : N)
      (payload : bytes) (token : N)
  | SendSessionReconstructed (channel message_id : string).

#[export] Instance NetSend_eq_dec : EqDecision NetSend.
Proof. solve_decision. Defined.

(** [NetEvent]. *)
Module NetEvent.
Inductive t :=
  | Handshake (peer version : N) (channels : list string) (peer_id : string)
  | Subscribe (peer : N) (channel : string)
  | Unsubscribe (peer : N) (channel : string)
  | SessionOpen (peer : N) (channel message_id : string)
      (preamble initial_update : bytes)
  | RoutingUpdate (peer : N) (channel message_id : string) (payload : bytes)
  | Chunk (peer : N) (channel message_id : string) (chunk_id : N) (payload : bytes)
  | PeerDisconnected (peer : N)
  | PeerConnected (peer : N)
  | ChunkSendResult (peer : N) (channel message_id : string) (token : N) (ok : bool)
  | PeerReconstructed (peer : N) (channel message_id : string)
  | SessionClosed (peer : N) (channel message_id : string).

#[export] Instance eq_dec : EqDecision t.
Proof. solve_decision. Defined.
End NetEvent.
Export (hints) NetEvent.

(** [NetError]. *)
Inductive NetError :=
  | PeerNotFound (p : N)
  | Closed
  | Backpressure (p : N).

#[export] Instance NetError_eq_dec : EqDecision NetError.
Proof. solve_decision. Defined.

#[export] Instance Display_NetError : Display NetError := λ e,
  match e with
  | PeerNotFound p => "peer " +:+ to_string p +:+ " not found"
  | Closed => "transport is closed"
  | Backpressure p => "peer " +:+ to_string p +:+ " outbound queue full"
  end%string.

(** [Net::send]. *)
Class Net (NT : Type) := net_send : NetSend → SM NT NetError unit.

(** [Clock::now]. *)
Class Clock (CT : Type) := clock_now : CT → N * CT.

(** [mpsc::Sender::try_send]: the message is queued, or given back because the
    channel is full or closed. *)
Class DeliverySink (M DT : Type) := try_send : M → SM DT unit unit.
