(* ===== verification/MemoryNet.v ===== *)
(** The in-process network of the tests and the simulator: [runtime/memory_net.rs].

    The hub and its endpoints share mutexed maps and unbounded queues; here all
    of it is one [Hub], and a queue is named by the number of the call of
    [endpoint] that made it.  A mutex is held for the whole of each map access,
    so the calls are modelled as atomic.  The sender half of a queue lives in
    the hub's map; the receiver half belongs to the endpoint, [Net::events] hands
    it out once, and [drop_stream] is the end of its owner. *)
From Stdlib Require Import NArith Lia.
From stdpp Require Import base gmap option strings list.
From S2P Require Import Prelude Runtime.

Open Scope N_scope.

Module MemoryNet.

(** The two halves of an unbounded channel: what is queued, and whether the
    receiver still exists. *)
Record Queue := mkQueue {
  q_events : list NetEvent.t;
  rx_open : bool
}.

(** [MemoryNetHub], with the queues and the endpoints' [inbound] slots. *)
Record Hub := mkHub {
  senders : gmap N nat;
  inbound_openers : gmap (N * string * string) (gset N);
  queues : gmap nat Queue;
  inbound : gset nat;
  next_queue : nat
}.

(** [MemoryNetEndpoint]. *)
Record Endpoint := mkEndpoint {
  peer_id : N;
  queue : nat
}.

Definition new : Hub := mkHub ∅ ∅ ∅ ∅ 0.

Definition endpoint (peer_id : N) (h : Hub) : Endpoint * Hub :=
  let q := next_queue h in
  (mkEndpoint peer_id q,
   mkHub (<[peer_id := q]> (senders h)) (inbound_openers h)
     (<[q := mkQueue [] true]> (queues h)) ({[q]} ∪ inbound h) (S q)).

Definition disconnect (peer_id : N) (h : Hub) : Hub :=
  mkHub (delete peer_id (senders h)) (inbound_openers h) (queues h) (inbound h)
    (next_queue h).

Definition set_openers v (h : Hub) : Hub :=
  mkHub (senders h) v (queues h) (inbound h) (next_queue h).

Definition set_queues v (h : Hub) : Hub :=
  mkHub (senders h) (inbound_openers h) v (inbound h) (next_queue h).

(** [tx.send(event)]: it fails when the receiver is gone. *)
Definition push_event (q : nat) (ev : NetEvent.t) (h : Hub) : bool * Hub :=
  match queues h !! q with
  | Some (mkQueue evs true) =>
      (true, set_queues (<[q := mkQueue (evs ++ [ev]) true]> (queues h)) h)
  | _ => (false, h)
  end.

(** The destination of a message. *)
Definition dst (msg : NetSend) : option N :=
  match msg with
  | SendHandshake peer _ _ _ | SendSubscribe peer _ | SendUnsubscribe peer _
  | SendSessionOpen peer _ _ _ _ | SendRoutingUpdate peer _ _ _
  | SendChunk peer _ _ _ _ _ => Some peer
  | SendSessionReconstructed _ _ => None
  end.

(** The event a message becomes at its destination. *)
Definition event_of (self : N) (msg : NetSend) : NetEvent.t :=
  match msg with
  | SendHandshake _ version channels peer_id =>
      NetEvent.Handshake self version channels peer_id
  | SendSubscribe _ channel => NetEvent.Subscribe self channel
  | SendUnsubscribe _ channel => NetEvent.Unsubscribe self channel
  | SendSessionOpen _ channel message_id preamble initial_update =>
      NetEvent.SessionOpen self channel message_id preamble initial_update
  | SendRoutingUpdate _ channel message_id payload =>
      NetEvent.RoutingUpdate self channel message_id payload
  | SendChunk _ channel message_id chunk_id payload _ =>
      NetEvent.Chunk self channel message_id chunk_id payload
  | SendSessionReconstructed channel message_id =>
      NetEvent.PeerReconstructed self channel message_id
  end.

(** The acknowledgement of a chunk to its sender. *)
Definition chunk_ack (msg : NetSend) : option NetEvent.t :=
  match msg with
  | SendChunk peer channel message_id _ _ token =>
      Some (NetEvent.ChunkSendResult peer channel message_id token true)
  | _ => None
  end.

(** Recording an opened session. *)
Definition record_opener (self : N) (msg : NetSend) (h : Hub) : Hub :=
  match msg with
  | SendSessionOpen peer channel message_id _ _ =>
      let k := (peer, channel, message_id) in
      set_openers
        (<[k := {[self]} ∪ default ∅ (inbound_openers h !! k)]> (inbound_openers h)) h
  | _ => h
  end.

(** Telling one opener. *)
Definition notify (ev : NetEvent.t) (h : Hub) (opener : N) : Hub :=
  match senders h !! opener with
  | Some q => snd (push_event q ev h)
  | None => h
  end.

Definition send (self : N) (msg : NetSend) : SM Hub NetError unit := λ h,
  match dst msg with
  | None =>
      match msg with
      | SendSessionReconstructed channel message_id =>
          let k := (self, channel, message_id) in
          let openers := default ∅ (inbound_openers h !! k) in
          let h := set_openers (delete k (inbound_openers h)) h in
          (Ok (), foldl (notify (event_of self msg)) h (bt_elements openers))
      | _ => (Ok (), h)
      end
  | Some d =>
      let h := record_opener self msg h in
      match senders h !! d with
      | None => (Err (PeerNotFound d), h)
      | Some q =>
          match push_event q (event_of self msg) h with
          | (false, h) => (Err Closed, h)
          | (true, h) =>
              (Ok (),
               match chunk_ack msg with
               | Some ack => notify ack h self
               | None => h
               end)
          end
      end
  end.

(** [Net::events]; a second call panics. *)
Definition events (ep : Endpoint) (h : Hub) : option (nat * Hub) :=
  if decide (queue ep ∈ inbound h)
  then Some (queue ep,
    mkHub (senders h) (inbound_openers h) (queues h) (inbound h ∖ {[queue ep]})
      (next_queue h))
  else None.

(** Polling a stream: an event, the end of the stream once every sender is gone
    and the queue is empty, or nothing yet. *)
Inductive Poll := Ready (ev : option NetEvent.t) | Pending.

Definition poll_next (q : nat) (h : Hub) : Poll * Hub :=
  match queues h !! q with
  | Some (mkQueue (ev :: evs) b) =>
      (Ready (Some ev), set_queues (<[q := mkQueue evs b]> (queues h)) h)
  | _ => (if decide (q ∈ (map_to_list (senders h)).*2) then Pending else Ready None, h)
  end.

Definition drop_stream (q : nat) (h : Hub) : Hub :=
  set_queues (alter (λ _, mkQueue [] false) q (queues h)) h.

(** An endpoint as the network of an engine. *)
#[export] Instance Net_MemoryNet : Net (N * Hub) := λ msg n,
  let '(r, h) := send (fst n) msg (snd n) in (r, (fst n, h)).

(** ** Runs of the network *)

Inductive op :=
  | NewEndpoint (p : N)
  | Disconnect (p : N)
  | Send (self : N) (msg : NetSend)
  | PollNext (q : nat)
  | DropStream (q : nat).

(** The state after a call and the event it took from a stream, if it did. *)
Definition step (o : op) (h : Hub) : option (nat * NetEvent.t) * Hub :=
  match o with
  | NewEndpoint p => (None, snd (endpoint p h))
  | Disconnect p => (None, disconnect p h)
  | Send self msg => (None, snd (send self msg h))
  | PollNext q =>
      let '(r, h) := poll_next q h in
      (match r with Ready (Some ev) => Some (q, ev) | _ => None end, h)
  | DropStream q => (None, drop_stream q h)
  end.

Fixpoint run (os : list op) (h : Hub) : list (nat * NetEvent.t) * Hub :=
  match os with
  | [] => ([], h)
  | o :: os =>
      let '(r, h) := step o h in
      let '(l, h) := run os h in
      (option_list r ++ l, h)
  end.

(** ** What a send does *)

(** What [send] adds to queue [q]: the message at its destination, the
    acknowledgement of a chunk at its sender, or the notification of an opener. *)
Definition arrivals (h : Hub) (q : nat) (self : N) (msg : NetSend) : list NetEvent.t :=
  let at_peer p ev := if decide (senders h !! p = Some q) then [ev] else [] in
  match dst msg with
  | Some d =>
      match senders h !! d ≫= λ q', queues h !! q' with
      | Some (mkQueue _ true) =>
          at_peer d (event_of self msg) ++
          match chunk_ack msg with Some ack => at_peer self ack | None => [] end
      | _ => []
      end
  | None =>
      match msg with
      | SendSessionReconstructed channel message_id =>
          bt_elements (default ∅ (inbound_openers h !! (self, channel, message_id)))
            ≫= λ p, at_peer p (event_of self msg)
      | _ => []
      end
  end.

(** The queues of [h'] are those of [h] with [f q] appended to every open one. *)
Definition grows (h h' : Hub) (f : nat → list NetEvent.t) : Prop :=
  senders h' = senders h ∧ next_queue h' = next_queue h ∧
  ∀ q, queues h' !! q =
    (λ '(mkQueue evs b), mkQueue (if b : bool then evs ++ f q else evs) b) <$> queues h !! q.

Lemma grows_refl h h' :
  senders h' = senders h → next_queue h' = next_queue h → queues h' = queues h →
  grows h h' (λ _, []).
Proof.
  intros Hs Hn Hq. split; [done|]. split; [done|]. intros q. rewrite Hq.
  destruct (queues h !! q) as [[evs []]|]; simpl; by rewrite ?app_nil_r.
Qed.

Lemma grows_trans h1 h2 h3 f g :
  grows h1 h2 f → grows h2 h3 g → grows h1 h3 (λ q, f q ++ g q).
Proof.
  intros (Hs & Hn & H1) (Hs' & Hn' & H2). split; [congruence|]. split; [congruence|].
  intros q. rewrite H2, H1. destruct (queues h1 !! q) as [[evs []]|]; simpl; [|done..].
  by rewrite app_assoc.
Qed.

Lemma grows_ext h h' f g : (∀ q, f q = g q) → grows h h' f → grows h h' g.
Proof.
  intros Hfg (Hs & Hn & Hq). split; [done|]. split; [done|]. intros q. rewrite Hq, Hfg. done.
Qed.

Lemma push_event_grows q ev h :
  grows h (snd (push_event q ev h)) (λ q', if decide (q' = q) then [ev] else []) ∧
  fst (push_event q ev h) = match queues h !! q with Some (mkQueue _ b) => b | None => false end.
Proof.
  unfold push_event. destruct (queues h !! q) as [[evs []]|] eqn:Hq; (split; [|done]).
  - split; [done|]. split; [done|]. intros q'. simpl. case_decide as Hd.
    + subst q'. by rewrite lookup_insert_eq, Hq.
    + rewrite lookup_insert_ne by done.
      destruct (queues h !! q') as [[evs' []]|]; simpl; by rewrite ?app_nil_r.
  - split; [done|]. split; [done|]. intros q'. simpl. case_decide as Hd; [subst q'; by rewrite Hq|].
    destruct (queues h !! q') as [[evs' []]|]; simpl; by rewrite ?app_nil_r.
  - split; [done|]. split; [done|]. intros q'. simpl. case_decide as Hd; [subst q'; by rewrite Hq|].
    destruct (queues h !! q') as [[evs' []]|]; simpl; by rewrite ?app_nil_r.
Qed.

Lemma notify_grows ev h p :
  grows h (notify ev h p) (λ q, if decide (senders h !! p = Some q) then [ev] else []).
Proof.
  unfold notify. destruct (senders h !! p) as [q|].
  - eapply grows_ext, push_event_grows. intros q'.
    repeat case_decide; congruence.
  - eapply grows_ext, grows_refl; done.
Qed.

Lemma notify_all_grows ev l h :
  grows h (foldl (notify ev) h l)
    (λ q, l ≫= λ p, if decide (senders h !! p = Some q) then [ev] else []).
Proof.
  revert h; induction l as [|p l IH]; intros h; simpl; [by apply grows_refl|].
  eapply grows_ext, grows_trans; [|apply notify_grows|apply IH]. intros q. simpl.
  f_equal. by rewrite (proj1 (notify_grows ev h p)).
Qed.

Lemma record_opener_same self msg h :
  senders (record_opener self msg h) = senders h ∧
  queues (record_opener self msg h) = queues h ∧
  next_queue (record_opener self msg h) = next_queue h ∧
  inbound (record_opener self msg h) = inbound h.
Proof. by destruct msg. Qed.

Lemma send_grows self msg h :
  grows h (snd (send self msg h)) (λ q, arrivals h q self msg).
Proof.
  unfold send, arrivals. destruct (dst msg) as [d|] eqn:Hd.
  - destruct (record_opener_same self msg h) as (Hs & Hq & Hn & _).
    set (h1 := record_opener self msg h) in *.
    rewrite Hs. destruct (senders h !! d) as [q|] eqn:Hsd; simpl.
    2: { by apply grows_refl. }
    pose proof (push_event_grows q (event_of self msg) h1) as [Hg Hb]. rewrite Hq in Hb.
    destruct (push_event q (event_of self msg) h1) as [b h2]. simpl in *.
    assert (grows h h2 (λ q', if decide (q' = q) then [event_of self msg] else [])) as Hg2.
    { eapply grows_ext, grows_trans; [|apply (grows_refl h h1); [exact Hs|exact Hn|exact Hq]|exact Hg]. done. }
    destruct (queues h !! q) as [[evs b']|] eqn:Hqq; subst b.
    2: { destruct Hg2 as (H1 & H2 & H3). split; [done|]. split; [done|]. intros q'.
         rewrite H3. destruct (decide (q' = q)) as [->|]; [by rewrite Hqq|done]. }
    destruct b'.
    2: { destruct Hg2 as (H1 & H2 & H3). split; [done|]. split; [done|]. intros q'.
         rewrite H3. destruct (decide (q' = q)) as [->|]; [by rewrite Hqq|done]. }
    destruct (chunk_ack msg) as [ack|]; simpl.
    + eapply grows_ext, grows_trans; [|exact Hg2|apply notify_grows]. intros q'.
      rewrite (proj1 Hg2). simpl. f_equal. repeat case_decide; congruence.
    + eapply grows_ext; [|exact Hg2]. intros q'. rewrite app_nil_r.
      repeat case_decide; congruence.
  - destruct msg; try done. cbn [snd].
    match goal with |- grows h (foldl ?f ?h1 ?l) _ =>
      pose proof (notify_all_grows (event_of self (SendSessionReconstructed channel message_id))
        l h1) as Hg end.
    exact Hg.
Qed.

Lemma push_event_openers q ev h :
  inbound_openers (snd (push_event q ev h)) = inbound_openers h.
Proof. unfold push_event. by destruct (queues h !! q) as [[evs []]|]. Qed.

Lemma notify_openers ev h p : inbound_openers (notify ev h p) = inbound_openers h.
Proof. unfold notify. destruct (senders h !! p); [apply push_event_openers|done]. Qed.

Lemma notify_all_openers ev l h :
  inbound_openers (foldl (notify ev) h l) = inbound_openers h.
Proof.
  revert h; induction l as [|p l IH]; intros h; [done|]. simpl. by rewrite IH, notify_openers.
Qed.

#[export] Instance op_eq_dec : EqDecision op.
Proof. solve_decision. Defined.

(** ** Delivery in order *)

(** The events taken from stream [q]. *)
Definition polled (q : nat) (l : list (nat * NetEvent.t)) : list NetEvent.t :=
  (filter (λ x, x.1 = q) l).*2.

(** Everything that is sent to queue [q] in a run, in the order of the sends. *)
Fixpoint arrived (q : nat) (os : list op) (h : Hub) : list NetEvent.t :=
  match os with
  | [] => []
  | o :: os =>
      match o with Send self msg => arrivals h q self msg | _ => [] end ++
      arrived q os (snd (step o h))
  end.

Lemma polled_app q l1 l2 : polled q (l1 ++ l2) = polled q l1 ++ polled q l2.
Proof. unfold polled. by rewrite filter_app, fmap_app. Qed.

(** One call: what was queued and what arrives is what is taken and what stays. *)
Lemma step_fifo q o h evs :
  o ≠ DropStream q → (q < next_queue h)%nat → queues h !! q = Some (mkQueue evs true) →
  let '(r, h') := step o h in
  (q < next_queue h')%nat ∧
  ∃ evs', queues h' !! q = Some (mkQueue evs' true) ∧
    polled q (option_list r) ++ evs' =
    evs ++ match o with Send self msg => arrivals h q self msg | _ => [] end.
Proof.
  intros Hne Hlt Hq. destruct o as [p|p|self msg|q'|q']; cbn [step].
  - split; [simpl; lia|]. exists evs. simpl. rewrite lookup_insert_ne by lia.
    by rewrite app_nil_r.
  - split; [done|]. exists evs. by rewrite app_nil_r.
  - destruct (send_grows self msg h) as (_ & Hn & Hs). split; [by rewrite Hn|].
    exists (evs ++ arrivals h q self msg). by rewrite Hs, Hq.
  - unfold poll_next. rewrite app_nil_r. destruct (decide (q' = q)) as [->|Hqq].
    + rewrite Hq. destruct evs as [|ev evs]; simpl.
      * split; [done|]. exists []. by case_decide.
      * split; [done|]. exists evs. unfold polled. simpl.
        rewrite lookup_insert_eq, filter_cons_True by done. done.
    + destruct (queues h !! q') as [[[|ev evs'] b]|]; simpl;
        (split; [by repeat case_decide|]); exists evs; try by case_decide.
      unfold polled. simpl. rewrite lookup_insert_ne, filter_cons_False by done. done.
  - split; [done|]. exists evs. simpl. rewrite lookup_alter_ne by congruence.
    by rewrite app_nil_r.
Qed.

Lemma run_fifo q os h evs :
  DropStream q ∉ os → (q < next_queue h)%nat → queues h !! q = Some (mkQueue evs true) →
  let '(l, h') := run os h in
  ∃ evs', queues h' !! q = Some (mkQueue evs' true) ∧
    polled q l ++ evs' = evs ++ arrived q os h.
Proof.
  revert h evs; induction os as [|o os IH]; intros h evs Hno Hlt Hq.
  { exists evs. by rewrite app_nil_r. }
  apply not_elem_of_cons in Hno as [Hne Hno]. cbn [run arrived].
  pose proof (step_fifo q o h evs (not_eq_sym Hne) Hlt Hq) as Hs.
  destruct (step o h) as [r h1]. destruct Hs as (Hlt1 & evs1 & Hq1 & He1).
  specialize (IH h1 evs1 Hno Hlt1 Hq1). destruct (run os h1) as [l h2].
  destruct IH as (evs2 & Hq2 & He2). exists evs2. split; [done|].
  by rewrite polled_app, <- app_assoc, He2, app_assoc, He1, <- app_assoc.
Qed.
End MemoryNet.

(** * Properties *)
Section properties.
Import MemoryNet.

(** [send] on every branch: a message to a registered peer whose stream
    exists becomes one event at the end of that peer's queue, a chunk also an
    acknowledgement at the sender's, and [SessionReconstructed] one
    [PeerReconstructed] for each peer that opened the session to the sender,
    who are then forgotten; no other queue changes.  An unknown peer and a
    dropped stream are reported, and reach nobody. *)
Theorem memory_send_spec self msg h :
  let '(r, h') := send self msg h in
  grows h h' (λ q, arrivals h q self msg) ∧
  r = match dst msg with
      | None => Ok ()
      | Some d =>
          match senders h !! d with
          | None => Err (PeerNotFound d)
          | Some q => match queues h !! q with
                      | Some (mkQueue _ true) => Ok ()
                      | _ => Err Closed
                      end
          end
      end ∧
  ∀ k, inbound_openers h' !! k =
    match msg with
    | SendSessionOpen p ch m _ _ =>
        if decide (k = (p, ch, m)) then Some ({[self]} ∪ default ∅ (inbound_openers h !! k))
        else inbound_openers h !! k
    | SendSessionReconstructed ch m =>
        if decide (k = (self, ch, m)) then None else inbound_openers h !! k
    | _ => inbound_openers h !! k
    end.
Proof.
  pose proof (send_grows self msg h) as Hg. destruct (send self msg h) as [r h'] eqn:Hsend.
  split; [done|]. clear Hg. unfold send in Hsend.
  destruct (dst msg) as [d|] eqn:Hd.
  - destruct (record_opener_same self msg h) as (Hs & Hq & _).
    assert (∀ k, inbound_openers (record_opener self msg h) !! k =
      match msg with
      | SendSessionOpen p ch m _ _ =>
          if decide (k = (p, ch, m)) then Some ({[self]} ∪ default ∅ (inbound_openers h !! k))
          else inbound_openers h !! k
      | _ => inbound_openers h !! k
      end) as Ho.
    { intros k. destruct msg; try done. simpl. case_decide as Hk.
      - subst k. by rewrite lookup_insert_eq.
      - by rewrite lookup_insert_ne. }
    set (h1 := record_opener self msg h) in *. rewrite Hs in Hsend.
    destruct (senders h !! d) as [q|].
    + pose proof (push_event_openers q (event_of self msg) h1) as Hpo.
      destruct (push_event_grows q (event_of self msg) h1) as [_ Hb]. rewrite Hq in Hb.
      destruct (push_event q (event_of self msg) h1) as [b h2]. simpl in Hb, Hpo.
      destruct (queues h !! q) as [[evs []]|]; subst b; injection Hsend as <- <-;
        (split; [done|]); intros k; [|rewrite Hpo, Ho; by destruct msg..].
      transitivity (inbound_openers h1 !! k); [|rewrite Ho; by destruct msg].
      destruct (chunk_ack msg); [rewrite notify_openers|]; by rewrite Hpo.
    + injection Hsend as <- <-. split; [done|]. intros k. rewrite Ho. by destruct msg.
  - destruct msg; try done. injection Hsend as <- <-. split; [done|]. intros k.
    rewrite notify_all_openers. simpl. case_decide as Hk.
    + subst k. by rewrite lookup_delete_eq.
    + by rewrite lookup_delete_ne.
Qed.

(** C20: streams are first in, first out, and lose nothing: in any run of the
    network that does not drop the stream, what was taken from it followed by
    what is still queued is what was queued at first followed by everything
    sent to it, in the order of the sends.  This includes runs that disconnect
    the peer: what was sent to it before stays queued. *)
Theorem memory_net_fifo q os h evs :
  DropStream q ∉ os → (q < next_queue h)%nat → queues h !! q = Some (mkQueue evs true) →
  let '(l, h') := run os h in
  ∃ evs', queues h' !! q = Some (mkQueue evs' true) ∧
    polled q l ++ evs' = evs ++ arrived q os h.
Proof. apply run_fifo. Qed.

Lemma memory_net_fifo_witness :
  let os := [Send 1 (SendSubscribe 2 "a"); Send 1 (SendSubscribe 2 "b");
             Disconnect 2; Send 1 (SendSubscribe 2 "c"); PollNext 1] in
  let '(l, h') := run os (snd (endpoint 2 (snd (endpoint 1 new)))) in
  ∃ evs', queues h' !! 1%nat = Some (mkQueue evs' true) ∧
    polled 1 l ++ evs' = [] ++ arrived 1 os (snd (endpoint 2 (snd (endpoint 1 new)))).
Proof.
  apply (memory_net_fifo 1 [Send 1 (SendSubscribe 2 "a");
    Send 1 (SendSubscribe 2 "b"); Disconnect 2; Send 1 (SendSubscribe 2 "c"); PollNext 1]
    (snd (endpoint 2 (snd (endpoint 1 new)))) []).
  - eapply bool_decide_eq_true_1. vm_compute. reflexivity.
  - apply Nat.ltb_lt. reflexivity.
  - reflexivity.
Defined.
End properties.
