(* ===== verification/Engine.v ===== *)
(** The top-level engine: [engine.rs].

    The engine is generic in the strategy, as in the code, with chunk ids that
    are [u32]s and routing updates that are bitmaps.  Its network, clock and
    delivery channel are the parameters of [Runtime].  Log output is not
    modelled.  [drain_session] loops until a poll yields no work; [drain_loop]
    is that loop with fuel, and [poll_bound], a bound on the rounds that each
    strategy instance supplies, is the fuel it is run with. *)
From Stdlib Require Import NArith Lia.
From stdpp Require Import base gmap option strings pretty list.
From S2P Require Import Prelude BitMap Strategy Session Channel Runtime.

Open Scope N_scope.

(** The key of a session: channel and message. *)
Abbreviation key := (string * string)%type (only parsing).

(** [EngineConfig] and its [Default]. *)
Record EngineConfig := mkEngineConfig {
  active_session_ttl : N;
  reconstructed_linger : N;
  tombstone_ttl : N;
  cleanup_interval : N
}.

Definition EngineConfig_default : EngineConfig :=
  mkEngineConfig (from_secs (5 * 60)) (from_secs 10) (from_secs (5 * 60)) (from_secs 30).

(** [SessionMeta]. *)
Record SessionMeta := mkMeta {
  created_at : N;
  terminal_at : option N
}.

Definition MAX_PARKED_CHUNKS_PER_MESSAGE : nat := 32.
Definition PARKED_CHUNK_TTL : N := from_secs 10.

(** [ParkedChunk]. *)
Record ParkedChunk := mkParked {
  pk_chunk_id : N;
  pk_payload : bytes;
  parked_at : N
}.

(** [DeliveredMessage]. *)
Record DeliveredMessage := mkDelivered {
  dm_channel_id : string;
  dm_message_id : string;
  dm_payload : bytes
}.

(** [StepResult]. *)
Inductive StepResult := Processed | StepClosed.

(** [EngineError]. *)
Inductive EngineError :=
  | NetErr (e : NetError)
  | ChannelErr (e : ChannelError)
  | UnknownChannel (c : string)
  | EmptyPayload.

#[export] Instance Display_EngineError : Display EngineError := λ e,
  match e with
  | NetErr e => "net: " +:+ to_string e
  | ChannelErr e => "channel: " +:+ to_string e
  | UnknownChannel c => "unknown channel: " +:+ c
  | EmptyPayload => "publish payload is empty"
  end%string.

Definition PROTOCOL_VERSION : N := 1.

(** [Engine<S, N>]; the stream of inbound events is the argument of
    [run_one_step]. *)
Record Engine (S NT CT DT : Type) := mkEngine {
  local_peer : N;
  local_peer_str : string;
  channels : gmap string (Channel S);
  connected : gset N;
  delivered : DT;
  net : NT;
  pending_sends : gmap (string * string * N) N;
  session_preambles : gmap (string * string) bytes;
  opened_to : gmap (string * string) (gset N);
  config : EngineConfig;
  clock : CT;
  session_meta : gmap (string * string) SessionMeta;
  tombstones : gmap (string * string) N;
  parked_chunks : gmap (string * string) (list ParkedChunk);
  next_cleanup : N
}.
Arguments mkEngine {S NT CT DT} _ _ _ _ _ _ _ _ _ _ _ _ _ _ _.
Arguments local_peer {S NT CT DT} _.
Arguments local_peer_str {S NT CT DT} _.
Arguments channels {S NT CT DT} _.
Arguments connected {S NT CT DT} _.
Arguments delivered {S NT CT DT} _.
Arguments net {S NT CT DT} _.
Arguments pending_sends {S NT CT DT} _.
Arguments session_preambles {S NT CT DT} _.
Arguments opened_to {S NT CT DT} _.
Arguments config {S NT CT DT} _.
Arguments clock {S NT CT DT} _.
Arguments session_meta {S NT CT DT} _.
Arguments tombstones {S NT CT DT} _.
Arguments parked_chunks {S NT CT DT} _.
Arguments next_cleanup {S NT CT DT} _.

(** Assignments to one field. *)
Section setters.
Context {S NT CT DT : Type}.
Implicit Type e : Engine S NT CT DT.

Definition set_channels v e : Engine S NT CT DT :=
  mkEngine (local_peer e) (local_peer_str e) v (connected e) (delivered e) (net e)
    (pending_sends e) (session_preambles e) (opened_to e) (config e) (clock e)
    (session_meta e) (tombstones e) (parked_chunks e) (next_cleanup e).
Definition set_connected v e : Engine S NT CT DT :=
  mkEngine (local_peer e) (local_peer_str e) (channels e) v (delivered e) (net e)
    (pending_sends e) (session_preambles e) (opened_to e) (config e) (clock e)
    (session_meta e) (tombstones e) (parked_chunks e) (next_cleanup e).
Definition set_delivered v e : Engine S NT CT DT :=
  mkEngine (local_peer e) (local_peer_str e) (channels e) (connected e) v (net e)
    (pending_sends e) (session_preambles e) (opened_to e) (config e) (clock e)
    (session_meta e) (tombstones e) (parked_chunks e) (next_cleanup e).
Definition set_net v e : Engine S NT CT DT :=
  mkEngine (local_peer e) (local_peer_str e) (channels e) (connected e) (delivered e) v
    (pending_sends e) (session_preambles e) (opened_to e) (config e) (clock e)
    (session_meta e) (tombstones e) (parked_chunks e) (next_cleanup e).
Definition set_pending_sends v e : Engine S NT CT DT :=
  mkEngine (local_peer e) (local_peer_str e) (channels e) (connected e) (delivered e)
    (net e) v (session_preambles e) (opened_to e) (config e) (clock e)
    (session_meta e) (tombstones e) (parked_chunks e) (next_cleanup e).
Definition set_session_preambles v e : Engine S NT CT DT :=
  mkEngine (local_peer e) (local_peer_str e) (channels e) (connected e) (delivered e)
    (net e) (pending_sends e) v (opened_to e) (config e) (clock e)
    (session_meta e) (tombstones e) (parked_chunks e) (next_cleanup e).
Definition set_opened_to v e : Engine S NT CT DT :=
  mkEngine (local_peer e) (local_peer_str e) (channels e) (connected e) (delivered e)
    (net e) (pending_sends e) (session_preambles e) v (config e) (clock e)
    (session_meta e) (tombstones e) (parked_chunks e) (next_cleanup e).
Definition set_clock v e : Engine S NT CT DT :=
  mkEngine (local_peer e) (local_peer_str e) (channels e) (connected e) (delivered e)
    (net e) (pending_sends e) (session_preambles e) (opened_to e) (config e) v
    (session_meta e) (tombstones e) (parked_chunks e) (next_cleanup e).
Definition set_session_meta v e : Engine S NT CT DT :=
  mkEngine (local_peer e) (local_peer_str e) (channels e) (connected e) (delivered e)
    (net e) (pending_sends e) (session_preambles e) (opened_to e) (config e) (clock e)
    v (tombstones e) (parked_chunks e) (next_cleanup e).
Definition set_tombstones v e : Engine S NT CT DT :=
  mkEngine (local_peer e) (local_peer_str e) (channels e) (connected e) (delivered e)
    (net e) (pending_sends e) (session_preambles e) (opened_to e) (config e) (clock e)
    (session_meta e) v (parked_chunks e) (next_cleanup e).
Definition set_parked_chunks v e : Engine S NT CT DT :=
  mkEngine (local_peer e) (local_peer_str e) (channels e) (connected e) (delivered e)
    (net e) (pending_sends e) (session_preambles e) (opened_to e) (config e) (clock e)
    (session_meta e) (tombstones e) v (next_cleanup e).
Definition set_next_cleanup v e : Engine S NT CT DT :=
  mkEngine (local_peer e) (local_peer_str e) (channels e) (connected e) (delivered e)
    (net e) (pending_sends e) (session_preambles e) (opened_to e) (config e) (clock e)
    (session_meta e) (tombstones e) (parked_chunks e) v.
End setters.

(** A bound on the rounds of a drain, supplied with each strategy. *)
Class DrainBound (S : Type) := poll_bound : S → nat.

Module Engine.
Section engine.
Context {S DE NT CT DT : Type}.
Context `{!Strategy S N BitMap DE, !DrainBound S}.
Context `{!Net NT, !Clock CT, !DeliverySink DeliveredMessage DT}.
Implicit Type e : Engine S NT CT DT.

(** [Engine::with_config]. *)
Definition with_config (local_peer : N) (net : NT) (delivered : DT)
    (config : EngineConfig) (clock : CT) : Engine S NT CT DT :=
  let '(now, clock) := clock_now clock in
  mkEngine local_peer ("peer-" +:+ pretty local_peer) ∅ ∅ delivered net ∅ ∅ ∅ config
    clock ∅ ∅ ∅ (now + cleanup_interval config).

(** [self.clock.now()]. *)
Definition now e : N * Engine S NT CT DT :=
  let '(t, c) := clock_now (clock e) in (t, set_clock c e).

(** [self.net.send(msg)]. *)
Definition send (msg : NetSend) : SM (Engine S NT CT DT) EngineError unit := λ e,
  let '(r, n) := net_send msg (net e) in (map_err NetErr r, set_net n e).

(** [self.channels.get_mut(channel).and_then(|c| c.session_mut(message_id))]. *)
Definition lookup_session e (channel message_id : string) : option (Session S) :=
  c ← channels e !! channel; Channel.session_mut c message_id.

(** Storing the session back through the mutable reference. *)
Definition update_session (channel message_id : string) (s : Session S) e
    : Engine S NT CT DT :=
  set_channels
    (alter (λ c, Channel.with_sessions c (<[message_id := s]> (sessions c)))
       channel (channels e)) e.

Definition active_session_count e : nat := size (session_meta e).

Definition subscribe (channel_id : string) (factory : StrategyFactory S)
    : SM (Engine S NT CT DT) EngineError unit := λ e,
  let e := if contains_key (channels e) channel_id then e
           else set_channels (<[channel_id := Channel.new channel_id factory]> (channels e)) e in
  sm_for (λ peer, send (SendSubscribe peer channel_id)) (bt_elements (connected e)) e.

Definition register_peer_and_handshake (peer : N)
    : SM (Engine S NT CT DT) EngineError unit := λ e,
  if decide (peer ∈ connected e) then (Ok (), e)
  else
    let e := set_connected ({[peer]} ∪ connected e) e in
    send (SendHandshake peer PROTOCOL_VERSION (bt_keys (channels e)) (local_peer_str e)) e.

Definition connect (peer : N) : SM (Engine S NT CT DT) EngineError unit :=
  register_peer_and_handshake peer.

(** ** Session bookkeeping *)

Definition record_session_created (channel message_id : string) e : Engine S NT CT DT :=
  if contains_key (session_meta e) (channel, message_id) then e
  else
    let '(t, e) := now e in
    set_session_meta (<[(channel, message_id) := mkMeta t None]> (session_meta e)) e.

Definition mark_session_terminal (channel message_id : string) e : Engine S NT CT DT :=
  match session_meta e !! (channel, message_id) with
  | Some m =>
      match terminal_at m with
      | Some _ => e
      | None =>
          let '(t, e) := now e in
          set_session_meta
            (<[(channel, message_id) := mkMeta (created_at m) (Some t)]> (session_meta e)) e
      end
  | None => e
  end.

Definition is_tombstoned e (channel message_id : string) : bool :=
  contains_key (tombstones e) (channel, message_id).

Definition is_opened_to e (channel message_id : string) (peer : N) : bool :=
  match opened_to e !! (channel, message_id) with
  | Some s => bool_decide (peer ∈ s)
  | None => false
  end.

Definition ensure_session_open (channel_id message_id : string) (peer : N)
    : SM (Engine S NT CT DT) EngineError unit := λ e,
  if is_opened_to e channel_id message_id peer then (Ok (), e)
  else
    match session_preambles e !! (channel_id, message_id) with
    | None => (Ok (), e)
    | Some preamble =>
        match send (SendSessionOpen peer channel_id message_id preamble []) e with
        | (Err err, e) => (Err err, e)
        | (Ok _, e) =>
            let s := default ∅ (opened_to e !! (channel_id, message_id)) in
            (Ok (), set_opened_to
                      (<[(channel_id, message_id) := {[peer]} ∪ s]> (opened_to e)) e)
        end
    end.

(** ** Draining *)

(** The routing update sent to the subscribers. *)
Definition send_routing (channel_id message_id : string) (payload : bytes)
    (subs : list N) : SM (Engine S NT CT DT) EngineError unit :=
  sm_for (λ peer,
    ensure_session_open channel_id message_id peer ≫= λ _,
    send (SendRoutingUpdate peer channel_id message_id payload)) subs.

(** The dispatches of one round; the result says whether a send failed
    ([stalled]). *)
Fixpoint send_dispatches (channel_id message_id : string)
    (ds : list (ChunkDispatch N)) (stalled : bool)
    : SM (Engine S NT CT DT) EngineError bool := λ e,
  match ds with
  | [] => (Ok stalled, e)
  | d :: ds =>
      match ensure_session_open channel_id message_id (d_peer d) e with
      | (Err err, e) => (Err err, e)
      | (Ok _, e) =>
          match send (SendChunk (d_peer d) channel_id message_id (d_chunk_id d)
                        (d_payload d) (d_handle d)) e with
          | (Ok _, e) =>
              let e := set_pending_sends
                (<[(channel_id, message_id, d_handle d) := d_peer d]> (pending_sends e)) e in
              send_dispatches channel_id message_id ds stalled e
          | (Err _, e) =>
              let e :=
                match lookup_session e channel_id message_id with
                | Some session =>
                    update_session channel_id message_id
                      (Session.chunk_sent session (d_peer d) (d_handle d) false) e
                | None => e
                end in
              send_dispatches channel_id message_id ds true e
          end
      end
  end.

(** One round of the drain: [None] when there is nothing (more) to do. *)
Definition drain_round (channel_id message_id : string)
    : SM (Engine S NT CT DT) EngineError bool := λ e,
  match lookup_session e channel_id message_id with
  | None => (Ok false, e)
  | Some session =>
      let '(work, session) := Session.poll session in
      let e := update_session channel_id message_id session e in
      match routing work, dispatches work with
      | None, [] => (Ok false, e)
      | _, _ =>
          let subs := match channels e !! channel_id with
                      | Some c => bt_elements (subscribers c)
                      | None => []
                      end in
          (match routing work with
           | Some r => send_routing channel_id message_id (BitMap.as_bytes r) subs
           | None => mret ()
           end ≫= λ _,
           send_dispatches channel_id message_id (dispatches work) false ≫= λ stalled,
           mret (negb stalled)) e
      end
  end.

(** The loop: [None] when the fuel runs out. *)
Fixpoint drain_loop (fuel : nat) (channel_id message_id : string) e
    : option (result EngineError unit * Engine S NT CT DT) :=
  match fuel with
  | O => None
  | Datatypes.S fuel =>
      match drain_round channel_id message_id e with
      | (Err err, e) => Some (Err err, e)
      | (Ok false, e) => Some (Ok (), e)
      | (Ok true, e) => drain_loop fuel channel_id message_id e
      end
  end.

Definition drain_fuel e (channel_id message_id : string) : nat :=
  match lookup_session e channel_id message_id with
  | Some s => Datatypes.S (poll_bound (strategy s))
  | None => 1
  end.

Definition drain_session (channel_id message_id : string)
    : SM (Engine S NT CT DT) EngineError unit := λ e,
  default (Ok (), e) (drain_loop (drain_fuel e channel_id message_id) channel_id message_id e).

Definition drain_channel (channel_id : string)
    : SM (Engine S NT CT DT) EngineError unit := λ e,
  match channels e !! channel_id with
  | Some c => sm_for (drain_session channel_id) (bt_keys (sessions c)) e
  | None => (Ok (), e)
  end.

Definition publish (channel_id message_id : string) (strategy : S) (preamble_bytes : bytes)
    : SM (Engine S NT CT DT) EngineError unit := λ e,
  match channels e !! channel_id with
  | None => (Err (UnknownChannel channel_id), e)
  | Some c =>
      let '(r, c) := Channel.start_origin_session message_id strategy c in
      let e := set_channels (<[channel_id := c]> (channels e)) e in
      match r with
      | Err err => (Err (ChannelErr err), e)
      | Ok _ =>
          let subscribers := bt_elements (subscribers c) in
          let e := set_session_preambles
            (<[(channel_id, message_id) := preamble_bytes]> (session_preambles e)) e in
          let e := record_session_created channel_id message_id e in
          (sm_for (ensure_session_open channel_id message_id) subscribers ≫= λ _,
           drain_session channel_id message_id) e
      end
  end.

(** ** Inbound events *)

Definition maybe_decode_and_deliver (channel_id message_id : string) e
    : Engine S NT CT DT :=
  match lookup_session e channel_id message_id with
  | None => e
  | Some session =>
      let '(decoded, session) := Session.decode_and_finish session in
      let e := update_session channel_id message_id session e in
      let e := mark_session_terminal channel_id message_id e in
      match decoded with
      | Ok payload =>
          let '(_, d) := try_send (mkDelivered channel_id message_id payload) (delivered e) in
          let e := set_delivered d e in
          sm_exec (send (SendSessionReconstructed channel_id message_id)) e
      | Err _ => e
      end
  end.

Definition detach_session_peer (channel message_id : string) (peer : N)
    (completed : bool) e : Engine S NT CT DT :=
  match lookup_session e channel message_id with
  | Some session =>
      update_session channel message_id (Session.detach_peer session peer completed) e
  | None => e
  end.

Definition park_chunk (channel message_id : string) (chunk_id : N) (payload : bytes) e
    : Engine S NT CT DT :=
  let '(parked_at, e) := now e in
  let buf := default [] (parked_chunks e !! (channel, message_id)) in
  let buf := if decide (MAX_PARKED_CHUNKS_PER_MESSAGE ≤ length buf)%nat
             then tail buf else buf in
  set_parked_chunks
    (<[(channel, message_id) := buf ++ [mkParked chunk_id payload parked_at]]>
       (parked_chunks e)) e.

(** [c.take_chunk(message_id, ..)] on the channel, if it exists: the [complete]
    flag of the outcome, [false] for an error. *)
Definition channel_take_chunk (channel message_id : string) (chunk_id : N)
    (payload : bytes) e : bool * Engine S NT CT DT :=
  match channels e !! channel with
  | None => (false, e)
  | Some c =>
      let '(r, c) := Channel.take_chunk message_id chunk_id payload c in
      (match r with Ok o => complete o | Err _ => false end,
       set_channels (<[channel := c]> (channels e)) e)
  end.

(** The loop over the parked chunks. *)
Fixpoint replay_chunks (channel message_id : string) (parked : list ParkedChunk)
    (any_complete : bool) e : bool * Engine S NT CT DT :=
  match parked with
  | [] => (any_complete, e)
  | chunk :: parked =>
      let '(b, e) :=
        channel_take_chunk channel message_id (pk_chunk_id chunk) (pk_payload chunk) e in
      replay_chunks channel message_id parked (any_complete || b) e
  end.

Definition replay_parked_chunks (channel message_id : string) e : Engine S NT CT DT :=
  match parked_chunks e !! (channel, message_id) with
  | None => e
  | Some parked =>
      let e := set_parked_chunks (delete (channel, message_id) (parked_chunks e)) e in
      let '(any_complete, e) := replay_chunks channel message_id parked false e in
      let e := sm_exec (drain_session channel message_id) e in
      if any_complete then maybe_decode_and_deliver channel message_id e else e
  end.

Definition resolve_chunk_send (peer : N) (channel message_id : string) (token : N)
    (ok : bool) e : Engine S NT CT DT :=
  match pending_sends e !! (channel, message_id, token) with
  | None => e
  | Some _ =>
      let e := set_pending_sends (delete (channel, message_id, token) (pending_sends e)) e in
      let e :=
        match lookup_session e channel message_id with
        | Some session =>
            update_session channel message_id
              (Session.chunk_sent session peer token ok) e
        | None => e
        end in
      sm_exec (drain_session channel message_id) e
  end.

(** [c.subscribe_peer(peer)] on a channel, if it exists. *)
Definition subscribe_to (channel : string) (peer : N) e : Engine S NT CT DT :=
  set_channels (alter (λ c, Channel.subscribe_peer c peer) channel (channels e)) e.

(** The event handlers, one per kind of event. *)
Definition on_handshake (peer version : N) (chans : list string) e : Engine S NT CT DT :=
  if decide (version = PROTOCOL_VERSION) then
    foldl (λ e ch, sm_exec (drain_channel ch) (subscribe_to ch peer e))
      (set_connected ({[peer]} ∪ connected e) e) chans
  else set_connected (connected e ∖ {[peer]}) e.

Definition on_session_open (channel message_id : string) (preamble : bytes) e
    : Engine S NT CT DT :=
  if is_tombstoned e channel message_id then e
  else
    match channels e !! channel with
    | None => e
    | Some c =>
        let '(r, c) := Channel.open_session message_id preamble c in
        let e := set_channels (<[channel := c]> (channels e)) e in
        match r with
        | Err _ => e
        | Ok _ =>
            let e := set_session_preambles
              (<[(channel, message_id) := preamble]> (session_preambles e)) e in
            let e := record_session_created channel message_id e in
            let e := sm_exec (drain_session channel message_id) e in
            replay_parked_chunks channel message_id e
        end
    end.

Definition on_chunk (channel message_id : string) (chunk_id : N) (payload : bytes) e
    : Engine S NT CT DT :=
  if is_tombstoned e channel message_id then e
  else
    match lookup_session e channel message_id with
    | None => park_chunk channel message_id chunk_id payload e
    | Some _ =>
        let '(outcome_complete, e) :=
          channel_take_chunk channel message_id chunk_id payload e in
        let e := sm_exec (drain_session channel message_id) e in
        if outcome_complete then maybe_decode_and_deliver channel message_id e else e
    end.

Definition on_disconnect (peer : N) e : Engine S NT CT DT :=
  let e := set_connected (connected e ∖ {[peer]}) e in
  let e := set_pending_sends (filter (λ kv, kv.2 ≠ peer) (pending_sends e)) e in
  let e := set_opened_to ((λ s, s ∖ {[peer]}) <$> opened_to e) e in
  set_channels ((λ c, Channel.unsubscribe_peer c peer) <$> channels e) e.

Definition handle_event (event : NetEvent.t) e : Engine S NT CT DT :=
  match event with
  | NetEvent.Handshake peer version chans _ => on_handshake peer version chans e
  | NetEvent.Subscribe peer channel =>
      sm_exec (drain_channel channel) (subscribe_to channel peer e)
  | NetEvent.Unsubscribe peer channel =>
      set_channels (alter (λ c, Channel.unsubscribe_peer c peer) channel (channels e)) e
  | NetEvent.SessionOpen _ channel message_id preamble _ =>
      on_session_open channel message_id preamble e
  | NetEvent.Chunk _ channel message_id chunk_id payload =>
      on_chunk channel message_id chunk_id payload e
  | NetEvent.RoutingUpdate _ _ _ _ => e
  | NetEvent.PeerDisconnected peer => on_disconnect peer e
  | NetEvent.PeerConnected peer => sm_exec (register_peer_and_handshake peer) e
  | NetEvent.ChunkSendResult peer channel message_id token ok =>
      resolve_chunk_send peer channel message_id token ok e
  | NetEvent.PeerReconstructed peer channel message_id =>
      detach_session_peer channel message_id peer true e
  | NetEvent.SessionClosed peer channel message_id =>
      detach_session_peer channel message_id peer false e
  end.

(** ** Cleanup *)

Definition dispose_session (channel message_id : string) (now : N) e : Engine S NT CT DT :=
  let k := (channel, message_id) in
  let e := set_channels
    (alter (λ c, Channel.remove_session c message_id) channel (channels e)) e in
  let e := set_session_meta (delete k (session_meta e)) e in
  let e := set_session_preambles (delete k (session_preambles e)) e in
  let e := set_opened_to (delete k (opened_to e)) e in
  let e := set_parked_chunks (delete k (parked_chunks e)) e in
  let e := set_pending_sends (filter (λ kv, kv.1.1 ≠ k) (pending_sends e)) e in
  set_tombstones (<[k := now]> (tombstones e)) e.

(** Whether a session is due for disposal at [now]. *)
Definition expired (cfg : EngineConfig) (now : N) (m : SessionMeta) : bool :=
  bool_decide (active_session_ttl cfg < saturating_duration_since now (created_at m)) ||
  match terminal_at m with
  | Some t => bool_decide (reconstructed_linger cfg < saturating_duration_since now t)
  | None => false
  end.

(** [run_cleanup]; disposing one session does not affect another, so the order
    in which the expired ones are taken does not matter. *)
Definition run_cleanup (now : N) e : Engine S NT CT DT :=
  let keys := fst <$> filter (λ km, expired (config e) now km.2) (map_to_list (session_meta e)) in
  let e := foldl (λ e k, dispose_session k.1 k.2 now e) e keys in
  let e := set_tombstones
    (filter (λ kv, saturating_duration_since now kv.2 ≤ tombstone_ttl (config e))
       (tombstones e)) e in
  let fresh (buf : list ParkedChunk) :=
    filter (λ c, saturating_duration_since now (parked_at c) ≤ PARKED_CHUNK_TTL) buf in
  set_parked_chunks
    (filter (λ kv, kv.2 ≠ []) (fresh <$> parked_chunks e)) e.

Definition maybe_run_cleanup e : Engine S NT CT DT :=
  let '(t, e) := now e in
  if decide (t < next_cleanup e) then e
  else run_cleanup t (set_next_cleanup (t + cleanup_interval (config e)) e).

(** [run_one_step]; [None] is the end of the event stream. *)
Definition run_one_step (event : option NetEvent.t) e
    : StepResult * Engine S NT CT DT :=
  match event with
  | None => (StepClosed, e)
  | Some event => (Processed, maybe_run_cleanup (handle_event event e))
  end.

(** ** Runs of an engine *)

(** The calls an application and the event loop make. *)
Inductive op :=
  | Subscribe (channel_id : string) (factory : StrategyFactory S)
  | Connect (peer : N)
  | Publish (channel_id message_id : string) (strategy : S) (preamble : bytes)
  | Step (event : NetEvent.t).

Definition exec (o : op) e : Engine S NT CT DT :=
  match o with
  | Subscribe channel_id factory => sm_exec (subscribe channel_id factory) e
  | Connect peer => sm_exec (connect peer) e
  | Publish channel_id message_id strategy preamble =>
      sm_exec (publish channel_id message_id strategy preamble) e
  | Step event => snd (run_one_step (Some event) e)
  end.

Definition run (os : list op) e : Engine S NT CT DT := foldl (λ e o, exec o e) e os.
End engine.
End Engine.
