(* ===== verification/EngineInv.v ===== *)
(** The engine's bookkeeping invariant: every map of the engine that is keyed by
    session speaks about live sessions only, no matter which calls and events
    arrive and which sends the network refuses. *)
From Stdlib Require Import NArith Lia.
From stdpp Require Import base gmap option strings list.
From S2P Require Import Prelude BitMap Strategy Session Channel Runtime Engine.

Open Scope N_scope.

Module EngineLemmas.
Import Engine.
Section lemmas.
Context {S DE NT CT DT : Type}.
Context `{!Strategy S N BitMap DE, !DrainBound S}.
Context `{!Net NT, !Clock CT, !DeliverySink DeliveredMessage DT}.
Implicit Type e : Engine S NT CT DT.

(** The session of [(ch, m)] is live. *)
Definition live e (ch m : string) : Prop := is_Some (lookup_session e ch m).

Definition subscribers_of e (ch : string) : option (gset N) :=
  subscribers <$> channels e !! ch.

(** What sending and polling do: sessions change inside, and opens and pending
    sends are recorded for sessions that are live. *)
Record evolves e e' : Prop := {
  ev_meta : session_meta e' = session_meta e;
  ev_preambles : session_preambles e' = session_preambles e;
  ev_tombstones : tombstones e' = tombstones e;
  ev_parked : parked_chunks e' = parked_chunks e;
  ev_config : config e' = config e;
  ev_connected : connected e' = connected e;
  ev_live : ∀ ch m, live e' ch m ↔ live e ch m;
  ev_subscribers : ∀ ch, subscribers_of e' ch = subscribers_of e ch;
  ev_opened : ∀ ch m, is_Some (opened_to e' !! (ch, m)) →
    is_Some (opened_to e !! (ch, m)) ∨ is_Some (session_preambles e !! (ch, m));
  ev_pending : ∀ ch m t, is_Some (pending_sends e' !! (ch, m, t)) →
    is_Some (pending_sends e !! (ch, m, t)) ∨ live e ch m
}.

#[export] Instance evolves_po : PreOrder evolves.
Proof.
  split.
  - intros e. by split; auto.
  - intros e1 e2 e3 [] []. split; try congruence.
    + intros. by rewrite ev_live1.
    + intros ch m [?|Hp]%ev_opened1; [auto|]. right. by rewrite <- ev_preambles0.
    + intros ch m t [?|Hp]%ev_pending1; [auto|]. right. by apply ev_live0.
Qed.

Lemma lookup_session_Some e ch m s :
  lookup_session e ch m = Some s ↔
  ∃ c, channels e !! ch = Some c ∧ sessions c !! m = Some s.
Proof. unfold lookup_session, Channel.session_mut. rewrite bind_Some. done. Qed.

Lemma lookup_update_session e ch m s0 s ch' m' :
  lookup_session e ch m = Some s0 →
  lookup_session (update_session ch m s e) ch' m' =
  if decide (ch' = ch ∧ m' = m) then Some s else lookup_session e ch' m'.
Proof.
  intros (c & Hc & Hs)%lookup_session_Some.
  unfold lookup_session, update_session, Channel.session_mut. simpl.
  destruct (decide (ch' = ch)) as [->|Hne].
  - rewrite lookup_alter_eq, Hc. simpl. destruct (decide (m' = m)) as [->|Hm].
    + rewrite decide_True by done. apply lookup_insert_eq.
    + rewrite decide_False by tauto. by apply lookup_insert_ne.
  - rewrite decide_False by tauto. by rewrite lookup_alter_ne.
Qed.

Lemma update_session_evolves e ch m s0 s :
  lookup_session e ch m = Some s0 → evolves e (update_session ch m s e).
Proof.
  intros Hl. split; try done; simpl; try tauto.
  - intros ch' m'. unfold live. rewrite (lookup_update_session e ch m s0) by done.
    case_decide as Hd; [|done]. destruct Hd as [-> ->]. rewrite Hl.
    split; intros _; eauto.
  - intros ch'. unfold subscribers_of. simpl.
    destruct (decide (ch' = ch)) as [->|]; [|by rewrite lookup_alter_ne].
    rewrite lookup_alter_eq. by destruct (channels e !! ch).
Qed.

Lemma send_evolves msg e : evolves e (sm_exec (send msg) e).
Proof.
  unfold sm_exec, send. destruct (net_send msg (net e)) as [r n]. simpl.
  split; try done; simpl; tauto.
Qed.

Lemma sm_for_evolves {A} (f : A → SM (Engine S NT CT DT) EngineError unit) l e :
  (∀ a e, a ∈ l → evolves e (sm_exec (f a) e)) → evolves e (sm_exec (sm_for f l) e).
Proof.
  unfold sm_exec. revert e; induction l as [|a l IH]; intros e Hf; [done|].
  cbn [sm_for]. unfold mbind, SM_bind. pose proof (Hf a e ltac:(by left)) as Ha.
  destruct (f a e) as [[[]|err] e1]; [|done]. simpl in Ha. etrans; [done|].
  apply IH. intros b e2 Hb. apply Hf. by right.
Qed.

Lemma now_evolves e : evolves e (snd (now e)).
Proof.
  unfold now. destruct (clock_now (clock e)). split; try done; simpl; tauto.
Qed.

Lemma ensure_session_open_evolves ch m p e :
  evolves e (sm_exec (ensure_session_open ch m p) e).
Proof.
  unfold sm_exec, ensure_session_open. destruct (is_opened_to e ch m p); [done|].
  destruct (session_preambles e !! (ch, m)) as [pre|] eqn:Hp; [|done].
  pose proof (send_evolves (SendSessionOpen p ch m pre []) e) as Hs.
  unfold sm_exec in Hs. destruct (send _ e) as [[[]|err] e1]; [|done]. simpl in *.
  destruct Hs. split; try done. simpl. intros ch' m'.
  destruct (decide ((ch', m') = (ch, m))) as [[= -> ->]|Hne].
  - right. by rewrite Hp.
  - rewrite lookup_insert_ne by congruence. auto.
Qed.

Lemma send_dispatches_evolves ch m ds b e :
  live e ch m → evolves e (sm_exec (send_dispatches ch m ds b) e).
Proof.
  unfold sm_exec. revert b e; induction ds as [|d ds IH]; intros b e Hl; [done|].
  cbn [send_dispatches]. pose proof (ensure_session_open_evolves ch m (d_peer d) e) as He.
  unfold sm_exec in He. destruct (ensure_session_open ch m (d_peer d) e) as [[[]|err] e1];
    [|done]. cbn [snd] in He.
  match goal with |- context [send ?msg e1] => pose proof (send_evolves msg e1) as Hs end.
  unfold sm_exec in Hs. destruct (send _ e1) as [[[]|err] e2]; cbn [snd] in Hs.
  - assert (live e2 ch m) as Hl2 by by apply (ev_live _ _ Hs), (ev_live _ _ He).
    etrans; [exact He|]. etrans; [exact Hs|]. etrans; [|apply IH].
    + split; try done; simpl; try tauto. intros ch' m' t'.
      destruct (decide ((ch', m', t') = (ch, m, d_handle d))) as [[= -> -> ->]|].
      * intros _. by right.
      * rewrite lookup_insert_ne by congruence. auto.
    + done.
  - assert (live e2 ch m) as Hl2 by by apply (ev_live _ _ Hs), (ev_live _ _ He).
    etrans; [exact He|]. etrans; [exact Hs|].
    destruct Hl2 as [s Hls]. rewrite Hls.
    match goal with |- context [update_session ch m ?s' e2] =>
      pose proof (update_session_evolves e2 ch m s s' Hls) as Hu end.
    etrans; [exact Hu|]. apply IH. apply (ev_live _ _ Hu). by exists s.
Qed.

Lemma send_routing_evolves ch m payload subs e :
  evolves e (sm_exec (send_routing ch m payload subs) e).
Proof.
  apply sm_for_evolves. intros p e1 _. unfold sm_exec, mbind, SM_bind.
  pose proof (ensure_session_open_evolves ch m p e1) as He. unfold sm_exec in He.
  destruct (ensure_session_open ch m p e1) as [[[]|err] e2]; [|done].
  etrans; [exact He|]. apply send_evolves.
Qed.

Lemma drain_round_evolves ch m e : evolves e (sm_exec (drain_round ch m) e).
Proof.
  unfold sm_exec, drain_round.
  destruct (lookup_session e ch m) as [s|] eqn:Hl; [|done].
  destruct (Session.poll s) as [work s'].
  pose proof (update_session_evolves e ch m s s' Hl) as Hu.
  set (e1 := update_session ch m s' e) in *.
  assert (live e1 ch m) as Hl1 by (apply (ev_live _ _ Hu); by exists s).
  set (subs := match channels e1 !! ch with Some _ => _ | None => _ end).
  assert (∀ payload, evolves e (snd ((match payload with
            | Some r => send_routing ch m (BitMap.as_bytes r) subs
            | None => mret () end ≫= λ _,
          send_dispatches ch m (dispatches work) false ≫= λ stalled,
          mret (negb stalled)) e1))) as Hall.
  { intros payload. etrans; [exact Hu|]. unfold mbind, SM_bind.
    assert (evolves e1 (snd ((match payload with
            | Some r => send_routing ch m (BitMap.as_bytes r) subs
            | None => mret () end) e1))) as Hr.
    { destruct payload; [apply send_routing_evolves|done]. }
    destruct (_ e1) as [[[]|err] e2]; [|done]. cbn [snd] in Hr.
    pose proof (send_dispatches_evolves ch m (dispatches work) false e2) as Hd.
    unfold sm_exec in Hd. destruct (send_dispatches _ _ _ _ e2) as [[b|err] e3];
      (etrans; [exact Hr|]); apply Hd, (ev_live _ _ Hr), Hl1. }
  destruct (routing work), (dispatches work) eqn:Hds; try exact (Hall _).
  - exact (Hall (Some b)).
  - exact (Hall (Some b)).
  - done.
  - exact (Hall None).
Qed.

Lemma drain_loop_evolves fuel ch m e r e' :
  drain_loop fuel ch m e = Some (r, e') → evolves e e'.
Proof.
  revert e; induction fuel as [|fuel IH]; intros e; [done|]. cbn [drain_loop].
  pose proof (drain_round_evolves ch m e) as Hr. unfold sm_exec in Hr.
  destruct (drain_round ch m e) as [[[]|err] e1]; cbn [snd] in Hr.
  - intros Hl. etrans; [done|]. by apply IH.
  - by intros [= _ <-].
  - by intros [= _ <-].
Qed.

Lemma drain_session_evolves ch m e : evolves e (sm_exec (drain_session ch m) e).
Proof.
  unfold sm_exec, drain_session.
  destruct (drain_loop _ ch m e) as [[r e']|] eqn:Hl; [|done].
  by apply drain_loop_evolves in Hl.
Qed.

Lemma drain_channel_evolves ch e : evolves e (sm_exec (drain_channel ch) e).
Proof.
  unfold sm_exec, drain_channel. destruct (channels e !! ch) as [c|]; [|done].
  apply sm_for_evolves. intros m e1 _. apply drain_session_evolves.
Qed.

(** ** The bookkeeping invariant *)

Record coherent e : Prop := {
  co_meta : ∀ ch m, is_Some (session_meta e !! (ch, m)) ↔ live e ch m;
  co_preambles : ∀ ch m, is_Some (session_preambles e !! (ch, m)) ↔ live e ch m;
  co_opened : ∀ ch m, is_Some (opened_to e !! (ch, m)) → live e ch m;
  co_pending : ∀ ch m t, is_Some (pending_sends e !! (ch, m, t)) → live e ch m;
  co_parked : ∀ ch m l, parked_chunks e !! (ch, m) = Some l →
    (0 < length l ≤ MAX_PARKED_CHUNKS_PER_MESSAGE)%nat ∧ tombstones e !! (ch, m) = None
}.

Lemma evolves_coherent e e' : coherent e → evolves e e' → coherent e'.
Proof.
  intros [] []. split.
  - intros. by rewrite ev_meta0, ev_live0.
  - intros. by rewrite ev_preambles0, ev_live0.
  - intros ch m [?|?]%ev_opened0; apply ev_live0; [auto|]. by apply co_preambles0.
  - intros ch m t [?|?]%ev_pending0; apply ev_live0; eauto.
  - intros ch m l. rewrite ev_parked0, ev_tombstones0. eauto.
Qed.

(** Replacing the channels by others with the same live sessions. *)
Lemma set_channels_live_coherent v e :
  coherent e → (∀ ch m, live (set_channels v e) ch m ↔ live e ch m) →
  coherent (set_channels v e).
Proof.
  intros [] Hl. split; simpl; intros.
  - by rewrite Hl.
  - by rewrite Hl.
  - apply Hl. auto.
  - apply Hl. eauto.
  - eauto.
Qed.

Lemma alter_channel_live (f : Channel S → Channel S) ch e :
  (∀ c m, is_Some (sessions (f c) !! m) ↔ is_Some (sessions c !! m)) →
  ∀ ch' m, live (set_channels (alter f ch (channels e)) e) ch' m ↔ live e ch' m.
Proof.
  intros Hf ch' m. unfold live, lookup_session, Channel.session_mut. simpl.
  destruct (decide (ch' = ch)) as [->|]; [|by rewrite lookup_alter_ne].
  rewrite lookup_alter_eq. destruct (channels e !! ch); [apply Hf|done].
Qed.

Lemma insert_channel_live c c0 ch e :
  channels e !! ch = Some c0 →
  (∀ m, is_Some (sessions c !! m) ↔ is_Some (sessions c0 !! m)) →
  ∀ ch' m, live (set_channels (<[ch := c]> (channels e)) e) ch' m ↔ live e ch' m.
Proof.
  intros Hc Hs ch' m. unfold live, lookup_session, Channel.session_mut. simpl.
  destruct (decide (ch' = ch)) as [->|]; [|by rewrite lookup_insert_ne].
  rewrite lookup_insert_eq, Hc. apply Hs.
Qed.

Lemma subscribe_peer_sessions (c : Channel S) p m :
  is_Some (sessions (Channel.subscribe_peer c p) !! m) ↔ is_Some (sessions c !! m).
Proof.
  unfold Channel.subscribe_peer. case_decide; [done|]. simpl.
  by rewrite lookup_fmap, fmap_is_Some.
Qed.

Lemma unsubscribe_peer_sessions (c : Channel S) p m :
  is_Some (sessions (Channel.unsubscribe_peer c p) !! m) ↔ is_Some (sessions c !! m).
Proof.
  unfold Channel.unsubscribe_peer. case_decide; [|done]. simpl.
  by rewrite lookup_fmap, fmap_is_Some.
Qed.

Lemma subscribe_to_coherent ch p e : coherent e → coherent (subscribe_to ch p e).
Proof.
  intros He. apply set_channels_live_coherent; [done|].
  apply alter_channel_live. intros. apply subscribe_peer_sessions.
Qed.

(** A new session with its preamble and creation time. *)
Lemma new_session_coherent ch m c c0 s pre e :
  coherent e → channels e !! ch = Some c0 → sessions c0 !! m = None →
  sessions c = <[m := s]> (sessions c0) →
  coherent (record_session_created ch m
    (set_session_preambles (<[(ch, m) := pre]> (session_preambles e))
      (set_channels (<[ch := c]> (channels e)) e))).
Proof.
  intros [] Hc Hm Hs.
  assert (¬ is_Some (session_meta e !! (ch, m))) as Hno.
  { intros [s' (c' & Hc' & Hs')%lookup_session_Some]%co_meta0. congruence. }
  unfold record_session_created.
  rewrite (proj2 (contains_key_false _ _)) by by apply eq_None_not_Some.
  unfold now. simpl. destruct (clock_now (clock e)) as [t ck].
  match goal with |- coherent ?x => set (e' := x) end.
  assert (∀ ch' m', live e' ch' m' ↔ (ch', m') = (ch, m) ∨ live e ch' m') as Hl.
  { intros ch' m'. unfold live, lookup_session, Channel.session_mut, e'. simpl.
    destruct (decide (ch' = ch)) as [->|Hne].
    - rewrite lookup_insert_eq, Hc. simpl. rewrite Hs, lookup_insert_is_Some.
      split; [intros [->|[_ ?]]; auto|]. intros [[= ->]|?]; [by left|].
      destruct (decide (m = m')) as [->|]; [by left|by right].
    - rewrite lookup_insert_ne by done. split; [by right|].
      intros [[= -> _]|?]; done. }
  split; intros ch' m'.
  - rewrite Hl. unfold e'. simpl. rewrite lookup_insert_is_Some', co_meta0.
    split; intros [?|?]; auto.
  - rewrite Hl. unfold e'. simpl. rewrite lookup_insert_is_Some', co_preambles0.
    split; intros [?|?]; auto.
  - rewrite Hl. intros ?%co_opened0. auto.
  - intros t'. rewrite Hl. intros ?%co_pending0. auto.
  - apply co_parked0.
Qed.

(** ** The operations keep the invariant

    [keeps] is what every operation but opening, publishing and cleaning up
    satisfies as well: the same sessions are live, the tombstones stand. *)
Definition keeps e e' : Prop :=
  coherent e' ∧ tombstones e' = tombstones e ∧ ∀ ch m, live e' ch m ↔ live e ch m.

Lemma keeps_refl e : coherent e → keeps e e.
Proof. done. Qed.

Lemma keeps_trans e1 e2 e3 : keeps e1 e2 → keeps e2 e3 → keeps e1 e3.
Proof.
  intros (? & ? & H1) (? & ? & H2). split; [done|]. split; [congruence|].
  intros. by rewrite H2.
Qed.

Lemma evolves_keeps e e' : coherent e → evolves e e' → keeps e e'.
Proof.
  intros He Hv. split; [by eapply evolves_coherent|]. by destruct Hv.
Qed.

Lemma set_channels_keeps v e :
  coherent e → (∀ ch m, live (set_channels v e) ch m ↔ live e ch m) →
  keeps e (set_channels v e).
Proof. intros He Hl. split; [by apply set_channels_live_coherent|]. done. Qed.

Lemma drain_session_keeps ch m e :
  coherent e → keeps e (sm_exec (drain_session ch m) e).
Proof. intros. apply evolves_keeps; [done|apply drain_session_evolves]. Qed.

Lemma set_meta_keeps ch m m0 m1 e :
  coherent e → session_meta e !! (ch, m) = Some m0 →
  keeps e (set_session_meta (<[(ch, m) := m1]> (session_meta e)) e).
Proof.
  intros [] Hm. split; [|done]. split; try done. intros ch' m'. simpl.
  rewrite lookup_insert_is_Some', co_meta0. split; [|by right].
  intros [[= <- <-]|?]; [|done]. apply co_meta0. by eexists.
Qed.

Lemma mark_session_terminal_keeps ch m e :
  coherent e → keeps e (mark_session_terminal ch m e).
Proof.
  intros He. unfold mark_session_terminal.
  destruct (session_meta e !! (ch, m)) as [[ca [ta|]]|] eqn:Hm; [done| |done]. simpl.
  pose proof (now_evolves e) as Hn. destruct (now e) as [t e1]. simpl in Hn.
  eapply keeps_trans; [by apply evolves_keeps|].
  eapply set_meta_keeps; [by eapply evolves_coherent|].
  by rewrite (ev_meta _ _ Hn).
Qed.

Lemma set_delivered_evolves v e : evolves e (set_delivered v e).
Proof. split; try done; simpl; tauto. Qed.

Lemma maybe_decode_keeps ch m e :
  coherent e → keeps e (maybe_decode_and_deliver ch m e).
Proof.
  intros He. unfold maybe_decode_and_deliver.
  destruct (lookup_session e ch m) as [s|] eqn:Hl; [|done].
  destruct (Session.decode_and_finish s) as [r s'].
  pose proof (evolves_keeps _ _ He (update_session_evolves e ch m s s' Hl)) as H1.
  pose proof (mark_session_terminal_keeps ch m _ (proj1 H1)) as H2.
  pose proof (keeps_trans _ _ _ H1 H2) as H3.
  destruct r as [p|err]; [|done].
  destruct (try_send _ _) as [r' d]. eapply keeps_trans; [exact H3|].
  apply evolves_keeps; [apply H3|]. etrans; [apply set_delivered_evolves|].
  apply send_evolves.
Qed.

Lemma detach_session_peer_keeps ch m p b e :
  coherent e → keeps e (detach_session_peer ch m p b e).
Proof.
  intros He. unfold detach_session_peer.
  destruct (lookup_session e ch m) as [s|] eqn:Hl; [|done].
  apply evolves_keeps; [done|]. by eapply update_session_evolves.
Qed.

Lemma channel_take_chunk_keeps ch m i d e :
  coherent e → keeps e (snd (channel_take_chunk ch m i d e)).
Proof.
  intros He. unfold channel_take_chunk.
  destruct (channels e !! ch) as [c|] eqn:Hc; [|done].
  pose proof (Channel.take_chunk_cases m i d c) as Ht.
  destruct (Channel.take_chunk m i d c) as [r c']. destruct Ht as [_ Ht]. simpl.
  apply set_channels_keeps; [done|]. eapply insert_channel_live; [done|]. intros m'.
  destruct (sessions c !! m) as [s|] eqn:Hm; [|by destruct Ht as [_ ->]].
  destruct Ht as [_ ->]. rewrite lookup_insert_is_Some'. split; [|by right].
  intros [<-|?]; [by eexists|done].
Qed.

Lemma replay_chunks_keeps ch m l b e :
  coherent e → keeps e (snd (replay_chunks ch m l b e)).
Proof.
  revert b e; induction l as [|c l IH]; intros b e He; [done|]. cbn [replay_chunks].
  pose proof (channel_take_chunk_keeps ch m (pk_chunk_id c) (pk_payload c) e He) as Ht.
  destruct (channel_take_chunk _ _ _ _ e) as [b1 e1]. simpl in Ht.
  eapply keeps_trans; [exact Ht|]. apply IH, Ht.
Qed.

Lemma replay_parked_keeps ch m e :
  coherent e → keeps e (replay_parked_chunks ch m e).
Proof.
  intros He. unfold replay_parked_chunks.
  destruct (parked_chunks e !! (ch, m)) as [l|]; [|done].
  set (e1 := set_parked_chunks _ e).
  assert (keeps e e1) as H1.
  { split; [|done]. destruct He. split; try done. intros ch' m' l'. simpl.
    rewrite lookup_delete_Some. intros [_ ?]. eauto. }
  pose proof (replay_chunks_keeps ch m l false e1 (proj1 H1)) as H2.
  destruct (replay_chunks ch m l false e1) as [b e2]. simpl in H2.
  pose proof (drain_session_keeps ch m e2 (proj1 H2)) as H3.
  assert (keeps e (sm_exec (drain_session ch m) e2)) as H4
    by (do 2 (eapply keeps_trans; [eassumption|]); by apply keeps_refl, H3).
  destruct b; [|done]. eapply keeps_trans; [exact H4|]. apply maybe_decode_keeps, H4.
Qed.

Lemma park_chunk_keeps ch m i d e :
  coherent e → tombstones e !! (ch, m) = None → keeps e (park_chunk ch m i d e).
Proof.
  intros He Ht. unfold park_chunk. pose proof (now_evolves e) as Hn.
  destruct (now e) as [t e1]. simpl in Hn.
  pose proof (evolves_keeps _ _ He Hn) as H1. eapply keeps_trans; [exact H1|].
  split; [|done]. destruct (proj1 H1) as [? ? ? ? Hp]. split; try done.
  intros ch' m' l. simpl. rewrite lookup_insert_Some.
  intros [[[= <- <-] <-]|[_ ?]]; [|eauto]. split; [|by rewrite (ev_tombstones _ _ Hn)].
  rewrite length_app. cbn [length]. unfold MAX_PARKED_CHUNKS_PER_MESSAGE in *.
  destruct (parked_chunks e1 !! (ch, m)) as [buf|] eqn:Hb; simpl.
  - apply Hp in Hb as [? _]. case_decide; [destruct buf; simpl in *|]; lia.
  - lia.
Qed.

Lemma resolve_chunk_send_keeps p ch m t b e :
  coherent e → keeps e (resolve_chunk_send p ch m t b e).
Proof.
  intros He. unfold resolve_chunk_send.
  destruct (pending_sends e !! (ch, m, t)) as [q|]; [|done].
  set (e1 := set_pending_sends _ e).
  assert (keeps e e1) as H1.
  { split; [|done]. destruct He. split; try done. intros ch' m' t'. simpl.
    intros [x [_ Hx]%lookup_delete_Some]. eauto. }
  set (e2 := match lookup_session e1 ch m with Some _ => _ | None => _ end).
  assert (keeps e1 e2) as H2.
  { unfold e2. destruct (lookup_session e1 ch m) as [s|] eqn:Hl; [|apply keeps_refl, H1].
    apply evolves_keeps; [apply H1|]. by eapply update_session_evolves. }
  eapply keeps_trans; [exact H1|]. eapply keeps_trans; [exact H2|].
  apply drain_session_keeps, H2.
Qed.

Lemma subscribe_to_keeps ch p e : coherent e → keeps e (subscribe_to ch p e).
Proof.
  intros He. apply set_channels_keeps; [done|].
  apply alter_channel_live. intros. apply subscribe_peer_sessions.
Qed.

Lemma set_connected_evolves_but v e :
  coherent e → keeps e (set_connected v e).
Proof. intros []. split; [|done]. by split. Qed.

Lemma subscribe_all_keeps p l e :
  coherent e →
  keeps e (foldl (λ e ch, sm_exec (drain_channel ch) (subscribe_to ch p e)) e l).
Proof.
  revert e; induction l as [|ch l IH]; intros e He; [done|]. simpl.
  pose proof (subscribe_to_keeps ch p e He) as H1.
  pose proof (evolves_keeps _ _ (proj1 H1) (drain_channel_evolves ch _)) as H2.
  eapply keeps_trans; [exact H1|]. eapply keeps_trans; [exact H2|]. apply IH, H2.
Qed.

Lemma on_handshake_keeps p v l e : coherent e → keeps e (on_handshake p v l e).
Proof.
  intros He. unfold on_handshake. case_decide; [|by apply set_connected_evolves_but].
  pose proof (set_connected_evolves_but ({[p]} ∪ connected e) e He) as H1.
  eapply keeps_trans; [exact H1|]. apply subscribe_all_keeps, H1.
Qed.

Lemma on_disconnect_keeps p e : coherent e → keeps e (on_disconnect p e).
Proof.
  intros He. unfold on_disconnect.
  set (e1 := set_opened_to _ _).
  assert (keeps e e1) as H1.
  { split; [|done]. destruct He. split; try done; unfold e1; simpl.
    - intros ch m. rewrite lookup_fmap, fmap_is_Some. apply co_opened0.
    - intros ch m t [x [Hx _]%map_lookup_filter_Some]. eapply co_pending0. by eexists. }
  eapply keeps_trans; [exact H1|]. apply set_channels_keeps; [apply H1|].
  intros ch m. unfold live, lookup_session, Channel.session_mut. simpl.
  rewrite lookup_fmap. destruct (channels e !! ch); [|done]. simpl.
  apply unsubscribe_peer_sessions.
Qed.

Lemma register_peer_keeps p e :
  coherent e → keeps e (sm_exec (register_peer_and_handshake p) e).
Proof.
  intros He. unfold sm_exec, register_peer_and_handshake. case_decide; [done|].
  pose proof (set_connected_evolves_but ({[p]} ∪ connected e) e He) as H1.
  eapply keeps_trans; [exact H1|]. apply evolves_keeps; [apply H1|]. apply send_evolves.
Qed.

Lemma on_chunk_keeps ch m i d e : coherent e → keeps e (on_chunk ch m i d e).
Proof.
  intros He. unfold on_chunk. destruct (is_tombstoned e ch m) eqn:Ht; [done|].
  apply contains_key_false in Ht.
  destruct (lookup_session e ch m); [|by apply park_chunk_keeps].
  pose proof (channel_take_chunk_keeps ch m i d e He) as H1.
  destruct (channel_take_chunk ch m i d e) as [b e1]. simpl in H1.
  pose proof (drain_session_keeps ch m e1 (proj1 H1)) as H2.
  pose proof (keeps_trans _ _ _ H1 H2) as H3.
  destruct b; [|done]. eapply keeps_trans; [exact H3|]. apply maybe_decode_keeps, H3.
Qed.

(** ** Opening and publishing *)

Lemma live_new_session ch m c c0 s pre e :
  channels e !! ch = Some c0 → sessions c = <[m := s]> (sessions c0) →
  ∀ ch' m', live (record_session_created ch m
    (set_session_preambles (<[(ch, m) := pre]> (session_preambles e))
      (set_channels (<[ch := c]> (channels e)) e))) ch' m' ↔
  (ch', m') = (ch, m) ∨ live e ch' m'.
Proof.
  intros Hc Hs ch' m'. unfold live, lookup_session, Channel.session_mut.
  assert (∀ e1, channels (record_session_created ch m e1) = channels e1) as Hch.
  { intros e1. unfold record_session_created. destruct (contains_key _ _); [done|].
    unfold now. by destruct (clock_now _). }
  rewrite Hch. simpl. destruct (decide (ch' = ch)) as [->|Hne].
  - rewrite lookup_insert_eq, Hc. simpl. rewrite Hs, lookup_insert_is_Some.
    split; [intros [->|[_ ?]]; auto|]. intros [[= ->]|?]; [by left|].
    destruct (decide (m = m')) as [->|]; [by left|by right].
  - rewrite lookup_insert_ne by done. split; [by right|]. intros [[= -> _]|?]; done.
Qed.

Lemma record_session_created_tombstones ch m e :
  tombstones (record_session_created ch m e) = tombstones e ∧
  channels (record_session_created ch m e) = channels e ∧
  session_preambles (record_session_created ch m e) = session_preambles e ∧
  opened_to (record_session_created ch m e) = opened_to e ∧
  net (record_session_created ch m e) = net e.
Proof.
  unfold record_session_created. destruct (contains_key _ _); [done|].
  unfold now. by destruct (clock_now _).
Qed.

(** Refused opens change nothing but the factory. *)
Lemma insert_same_keeps c c0 ch e :
  coherent e → channels e !! ch = Some c0 → sessions c = sessions c0 →
  keeps e (set_channels (<[ch := c]> (channels e)) e).
Proof.
  intros He Hc Hs. apply set_channels_keeps; [done|].
  eapply insert_channel_live; [done|]. intros m. by rewrite Hs.
Qed.

(** [opens e e' ch m]: at most the session [(ch, m)] was added. *)
Definition opens e e' (ch m : string) : Prop :=
  coherent e' ∧ tombstones e' = tombstones e ∧
  ∀ ch' m', (live e ch' m' → live e' ch' m') ∧
    (live e' ch' m' → live e ch' m' ∨ (ch', m') = (ch, m)).

Lemma keeps_opens e e' ch m : keeps e e' → opens e e' ch m.
Proof.
  intros (? & ? & Hl). split; [done|]. split; [done|]. intros. rewrite Hl. auto.
Qed.

Lemma opens_keeps e1 e2 e3 ch m : opens e1 e2 ch m → keeps e2 e3 → opens e1 e3 ch m.
Proof.
  intros (? & ? & H1) (? & ? & H2). split; [done|]. split; [congruence|].
  intros ch' m'. by rewrite H2.
Qed.

Lemma opens_new ch m c c0 s pre e :
  coherent e → channels e !! ch = Some c0 → sessions c0 !! m = None →
  sessions c = <[m := s]> (sessions c0) →
  opens e (record_session_created ch m
    (set_session_preambles (<[(ch, m) := pre]> (session_preambles e))
      (set_channels (<[ch := c]> (channels e)) e))) ch m.
Proof.
  intros He Hc Hm Hs. split; [by eapply new_session_coherent|].
  split; [by rewrite (proj1 (record_session_created_tombstones _ _ _))|].
  intros ch' m'. rewrite (live_new_session ch m c c0 s) by done. tauto.
Qed.

Lemma on_session_open_opens ch m pre e :
  coherent e →
  opens e (on_session_open ch m pre e) ch m ∧
  (is_Some (tombstones e !! (ch, m)) → on_session_open ch m pre e = e).
Proof.
  intros He. unfold on_session_open. destruct (is_tombstoned e ch m) eqn:Ht.
  { split; [by apply keeps_opens|done]. }
  split.
  2: { intros Hs. unfold is_tombstoned in Ht. apply contains_key_false in Ht.
       rewrite Ht in Hs. by destruct Hs. }
  destruct (channels e !! ch) as [c|] eqn:Hc; [|by apply keeps_opens].
  pose proof (Channel.open_session_cases m pre c) as Ho.
  destruct (Channel.open_session m pre c) as [[[]|err] c'].
  - destruct Ho as (_ & Hm & st & n & _ & Hs). cbv zeta.
    pose proof (opens_new ch m c' c _ pre e He Hc Hm Hs) as H1.
    pose proof (drain_session_keeps ch m _ (proj1 H1)) as H2.
    eapply opens_keeps; [exact H1|]. eapply keeps_trans; [exact H2|].
    apply replay_parked_keeps, H2.
  - destruct Ho as [_ Hs]. apply keeps_opens. by eapply insert_same_keeps.
Qed.

Lemma publish_opens ch m st pre e :
  coherent e → opens e (sm_exec (publish ch m st pre) e) ch m.
Proof.
  intros He. unfold sm_exec, publish.
  destruct (channels e !! ch) as [c|] eqn:Hc; [|by apply keeps_opens].
  pose proof (Channel.start_origin_cases m st c) as Ho.
  destruct (Channel.start_origin_session m st c) as [[[]|err] c'].
  - destruct Ho as (_ & Hm & Hs). cbv zeta.
    pose proof (opens_new ch m c' c _ pre e He Hc Hm Hs) as H1.
    eapply opens_keeps; [exact H1|]. apply evolves_keeps; [apply H1|].
    unfold mbind, SM_bind.
    match goal with |- context [sm_for ?f ?l ?x] =>
      pose proof (sm_for_evolves f l x (λ p e _, ensure_session_open_evolves ch m p e)) as H2;
      unfold sm_exec in H2; destruct (sm_for f l x) as [[[]|err] e2] end; [|done].
    etrans; [exact H2|]. apply drain_session_evolves.
  - destruct Ho as [_ ->]. apply keeps_opens. by eapply insert_same_keeps.
Qed.

Lemma subscribe_keeps ch f e : coherent e → keeps e (sm_exec (subscribe ch f) e).
Proof.
  intros He. unfold sm_exec, subscribe.
  match goal with |- context [sm_for ?g ?l ?x] => set (e1 := x); set (l1 := l) end.
  assert (keeps e e1) as H1.
  { unfold e1. destruct (contains_key (channels e) ch) eqn:Hk; [done|].
    apply contains_key_false in Hk. apply set_channels_keeps; [done|].
    intros ch' m. unfold live, lookup_session, Channel.session_mut. simpl.
    destruct (decide (ch' = ch)) as [->|]; [|by rewrite lookup_insert_ne].
    rewrite lookup_insert_eq, Hk. simpl. rewrite lookup_empty.
    split; intros []; done. }
  eapply keeps_trans; [exact H1|]. apply evolves_keeps; [apply H1|].
  apply sm_for_evolves. intros p e2 _. apply send_evolves.
Qed.

Lemma handle_event_coherent ev e : coherent e → coherent (handle_event ev e).
Proof.
  intros He. destruct ev as [p v l s|p ch|p ch|p ch m pre iu|p ch m pl|p ch m i pl|p|p|
    p ch m t ok|p ch m|p ch m]; cbn [handle_event].
  - by apply on_handshake_keeps.
  - pose proof (subscribe_to_keeps ch p e He) as H1.
    apply (evolves_keeps _ _ (proj1 H1) (drain_channel_evolves ch _)).
  - apply set_channels_live_coherent; [done|].
    apply alter_channel_live. intros. apply unsubscribe_peer_sessions.
  - by apply on_session_open_opens.
  - done.
  - by apply on_chunk_keeps.
  - by apply on_disconnect_keeps.
  - by apply register_peer_keeps.
  - by apply resolve_chunk_send_keeps.
  - by apply detach_session_peer_keeps.
  - by apply detach_session_peer_keeps.
Qed.

(** Only a [SessionOpen] for a session without a tombstone makes it live. *)
Lemma handle_event_live ev e ch m :
  coherent e → live (handle_event ev e) ch m →
  live e ch m ∨
  tombstones e !! (ch, m) = None ∧
  ∃ p pre iu, ev = NetEvent.SessionOpen p ch m pre iu.
Proof.
  intros He. destruct ev as [p v l s|p ch0|p ch0|p ch0 m0 pre iu|p ch0 m0 pl|p ch0 m0 i pl|
    p|p|p ch0 m0 t ok|p ch0 m0|p ch0 m0]; cbn [handle_event]; intros Hl; try (left; exact Hl).
  - left. by apply (on_handshake_keeps p v l e He).
  - left. pose proof (subscribe_to_keeps ch0 p e He) as H1.
    pose proof (evolves_keeps _ _ (proj1 H1) (drain_channel_evolves ch0 _)) as H2.
    by apply H1, H2.
  - left. eapply alter_channel_live, Hl. intros. apply unsubscribe_peer_sessions.
  - destruct (on_session_open_opens ch0 m0 pre e He) as [(_ & _ & Ho) Ht].
    destruct (Ho ch m) as [_ Ho']. destruct (Ho' Hl) as [?|[= -> ->]]; [by left|].
    destruct (tombstones e !! (ch0, m0)) as [x|] eqn:Hx.
    + left. rewrite Ht in Hl by eauto. done.
    + right. split; [done|]. by exists p, pre, iu.
  - left. by apply (on_chunk_keeps ch0 m0 i pl e He).
  - left. by apply (on_disconnect_keeps p e He).
  - left. by apply (register_peer_keeps p e He).
  - left. by apply (resolve_chunk_send_keeps p ch0 m0 t ok e He).
  - left. by apply (detach_session_peer_keeps ch0 m0 p true e He).
  - left. by apply (detach_session_peer_keeps ch0 m0 p false e He).
Qed.

Lemma handle_event_tombstones ev e :
  coherent e → tombstones (handle_event ev e) = tombstones e.
Proof.
  intros He. destruct ev as [p v l s|p ch|p ch|p ch m pre iu|p ch m pl|p ch m i pl|p|p|
    p ch m t ok|p ch m|p ch m]; cbn [handle_event].
  - by apply on_handshake_keeps.
  - pose proof (subscribe_to_keeps ch p e He) as H1.
    rewrite <- (proj1 (proj2 H1)).
    apply (evolves_keeps _ _ (proj1 H1) (drain_channel_evolves ch _)).
  - done.
  - by apply on_session_open_opens.
  - done.
  - by apply on_chunk_keeps.
  - by apply on_disconnect_keeps.
  - by apply register_peer_keeps.
  - by apply resolve_chunk_send_keeps.
  - by apply detach_session_peer_keeps.
  - by apply detach_session_peer_keeps.
Qed.

(** ** Cleanup *)

Lemma lookup_session_dispose ch m t e ch' m' :
  lookup_session (dispose_session ch m t e) ch' m' =
  if decide ((ch', m') = (ch, m)) then None else lookup_session e ch' m'.
Proof.
  unfold lookup_session, dispose_session, Channel.session_mut. simpl.
  destruct (decide (ch' = ch)) as [->|Hne].
  - rewrite lookup_alter_eq. destruct (channels e !! ch) as [c|]; simpl; [|by case_decide].
    destruct (decide (m' = m)) as [->|Hm].
    + rewrite lookup_delete_eq. by case_decide.
    + rewrite lookup_delete_ne by done. case_decide; [congruence|done].
  - rewrite lookup_alter_ne by done. case_decide; [congruence|done].
Qed.

Lemma dispose_coherent ch m t e : coherent e → coherent (dispose_session ch m t e).
Proof.
  intros He. pose proof He as [].
  assert (∀ ch' m', live (dispose_session ch m t e) ch' m' ↔
    live e ch' m' ∧ (ch', m') ≠ (ch, m)) as Hl.
  { intros ch' m'. unfold live. rewrite lookup_session_dispose. case_decide.
    - split; [by intros []|tauto].
    - tauto. }
  split; intros ch' m'.
  - rewrite Hl, <- co_meta0. simpl. rewrite lookup_delete_is_Some. split; intros []; auto.
  - rewrite Hl, <- co_preambles0. simpl. rewrite lookup_delete_is_Some. split; intros []; auto.
  - rewrite Hl. simpl. rewrite lookup_delete_is_Some. intros [? ?%co_opened0]; auto.
  - intros t'. rewrite Hl. simpl. intros [x [Hx Hne]%map_lookup_filter_Some]. simpl in Hne.
    split; [eapply co_pending0; by eexists|done].
  - intros l. simpl. intros [Hne Hp]%lookup_delete_Some.
    rewrite lookup_insert_ne by congruence. eauto.
Qed.

Definition dispose_all (keys : list (string * string)) (t : N) e : Engine S NT CT DT :=
  foldl (λ e k, dispose_session k.1 k.2 t e) e keys.

(** What disposing of a list of sessions leaves. *)
Lemma dispose_all_spec keys t e :
  coherent e →
  let e' := dispose_all keys t e in
  coherent e' ∧ config e' = config e ∧ next_cleanup e' = next_cleanup e ∧
  (∀ ch m, lookup_session e' ch m =
    if decide ((ch, m) ∈ keys) then None else lookup_session e ch m) ∧
  (∀ k, session_meta e' !! k = if decide (k ∈ keys) then None else session_meta e !! k) ∧
  (∀ k, tombstones e' !! k = if decide (k ∈ keys) then Some t else tombstones e !! k) ∧
  (∀ k, parked_chunks e' !! k =
    if decide (k ∈ keys) then None else parked_chunks e !! k).
Proof.
  cbv zeta. revert e; induction keys as [|[ch0 m0] keys IH]; intros e He.
  { unfold dispose_all. simpl. split_and!; try done. }
  destruct (IH (dispose_session ch0 m0 t e) (dispose_coherent ch0 m0 t e He))
    as (H1 & H2 & H3 & H4 & H5 & H6 & H7).
  change (dispose_all ((ch0, m0) :: keys) t e)
    with (dispose_all keys t (dispose_session ch0 m0 t e)).
  split; [done|]. split; [done|]. split; [done|].
  assert (∀ k : string * string, k ∈ (ch0, m0) :: keys ↔ k = (ch0, m0) ∨ k ∈ keys) as Hk
    by (intros; apply elem_of_cons).
  split_and!.
  - intros ch m. rewrite H4, lookup_session_dispose.
    repeat case_decide; try done; exfalso; rewrite Hk in *; tauto.
  - intros k. rewrite H5. simpl. pose proof (Hk k).
    destruct (decide (k = (ch0, m0))) as [->|Hne];
      [rewrite lookup_delete_eq|rewrite lookup_delete_ne by done];
      repeat case_decide; tauto || done.
  - intros k. rewrite H6. simpl. pose proof (Hk k).
    destruct (decide (k = (ch0, m0))) as [->|Hne];
      [rewrite lookup_insert_eq|rewrite lookup_insert_ne by done];
      repeat case_decide; tauto || done.
  - intros k. rewrite H7. simpl. pose proof (Hk k).
    destruct (decide (k = (ch0, m0))) as [->|Hne];
      [rewrite lookup_delete_eq|rewrite lookup_delete_ne by done];
      repeat case_decide; tauto || done.
Qed.

(** What no cleanup touches: all of the engine but the maps of its sessions. *)
Definition surroundings e :=
  (local_peer e, local_peer_str e, connected e, delivered e, net e, config e, clock e,
   next_cleanup e, (λ c, (channel_id c, subscribers c, factory c)) <$> channels e).

Lemma dispose_surroundings ch m t e : surroundings (dispose_session ch m t e) = surroundings e.
Proof.
  unfold surroundings. cbn. f_equal. apply map_eq. intros ch'. rewrite !lookup_fmap.
  destruct (decide (ch' = ch)) as [->|]; [rewrite lookup_alter_eq|by rewrite lookup_alter_ne].
  by destruct (channels e !! ch).
Qed.

(** The other maps after disposing of a list of sessions. *)
Lemma dispose_all_rest keys t e :
  let e' := dispose_all keys t e in
  surroundings e' = surroundings e ∧
  (∀ k, session_preambles e' !! k = if decide (k ∈ keys) then None else session_preambles e !! k) ∧
  (∀ k, opened_to e' !! k = if decide (k ∈ keys) then None else opened_to e !! k) ∧
  (∀ k h, pending_sends e' !! (k, h) =
     if decide (k ∈ keys) then None else pending_sends e !! (k, h)).
Proof.
  cbv zeta. revert e; induction keys as [|k0 keys IH]; intros e; [done|].
  change (dispose_all (k0 :: keys) t e) with (dispose_all keys t (dispose_session k0.1 k0.2 t e)).
  destruct (IH (dispose_session k0.1 k0.2 t e)) as (H1 & H2 & H3 & H4).
  split; [by rewrite H1, dispose_surroundings|]. destruct k0 as [ch0 m0].
  assert (∀ k : string * string, k ∈ (ch0, m0) :: keys ↔ k = (ch0, m0) ∨ k ∈ keys) as Hk
    by (intros; apply elem_of_cons).
  split_and!; intros k; [rewrite H2|rewrite H3|intros h; rewrite H4]; cbn; pose proof (Hk k).
  1,2: destruct (decide (k = (ch0, m0))) as [->|Hne];
      [rewrite lookup_delete_eq|rewrite lookup_delete_ne by done];
      repeat case_decide; tauto || done.
  rewrite map_lookup_filter. cbn.
  destruct (decide (k = (ch0, m0))) as [->|Hne];
    repeat case_decide; try done; try tauto;
    destruct (pending_sends e !! _); cbn; try done; by rewrite option_guard_True.
Qed.

Lemma expired_true cfg t mt :
  expired cfg t mt = true ↔
  active_session_ttl cfg < t - created_at mt ∨
  ∃ u, terminal_at mt = Some u ∧ reconstructed_linger cfg < t - u.
Proof.
  unfold expired, saturating_duration_since. rewrite orb_true_iff, bool_decide_eq_true.
  destruct (terminal_at mt) as [u|]; [|naive_solver].
  rewrite bool_decide_eq_true. naive_solver.
Qed.

(** The sessions [run_cleanup] disposes of. *)
Definition expired_keys (t : N) e : list (string * string) :=
  fst <$> filter (λ km, expired (config e) t km.2) (map_to_list (session_meta e)).

Lemma elem_of_expired_keys t e k :
  k ∈ expired_keys t e ↔
  ∃ mt, session_meta e !! k = Some mt ∧ expired (config e) t mt = true.
Proof.
  unfold expired_keys. rewrite list_elem_of_fmap. split.
  - intros ([k' mt] & -> & [Hx Hin]%list_elem_of_filter). exists mt.
    apply elem_of_map_to_list in Hin. simpl in *. split; [done|]. by apply Is_true_true.
  - intros (mt & Hm & Hx). exists (k, mt). split; [done|]. apply list_elem_of_filter.
    split; [by apply Is_true_true|]. by apply elem_of_map_to_list.
Qed.

Definition fresh (t : N) (buf : list ParkedChunk) : list ParkedChunk :=
  filter (λ c, saturating_duration_since t (parked_at c) ≤ PARKED_CHUNK_TTL) buf.

Lemma run_cleanup_spec t e :
  coherent e →
  let e' := run_cleanup t e in
  coherent e' ∧
  (∀ ch m, lookup_session e' ch m =
    if decide ((ch, m) ∈ expired_keys t e) then None else lookup_session e ch m) ∧
  (∀ k, session_meta e' !! k =
    if decide (k ∈ expired_keys t e) then None else session_meta e !! k) ∧
  (∀ k a, tombstones e' !! k = Some a ↔
    (if decide (k ∈ expired_keys t e) then a = t else tombstones e !! k = Some a) ∧
    saturating_duration_since t a ≤ tombstone_ttl (config e)) ∧
  (∀ k l, parked_chunks e' !! k = Some l ↔
    (k ∉ expired_keys t e) ∧ l ≠ [] ∧ ∃ l0, parked_chunks e !! k = Some l0 ∧ l = fresh t l0).
Proof.
  intros He. cbv zeta. unfold run_cleanup.
  fold (expired_keys t e). fold (dispose_all (expired_keys t e) t e).
  destruct (dispose_all_spec (expired_keys t e) t e He) as (H1 & H2 & _ & H4 & H5 & H6 & H7).
  set (e1 := dispose_all (expired_keys t e) t e) in *.
  assert (∀ k l, filter (λ kv : string * string * list ParkedChunk, kv.2 ≠ [])
    (fresh t <$> parked_chunks e1) !! k = Some l ↔
    (k ∉ expired_keys t e) ∧ l ≠ [] ∧ ∃ l0, parked_chunks e !! k = Some l0 ∧ l = fresh t l0)
    as Hp.
  { intros k l. rewrite map_lookup_filter_Some, lookup_fmap, fmap_Some. simpl.
    setoid_rewrite H7. case_decide; naive_solver. }
  split; [|split; [exact H4|split; [exact H5|split; [|exact Hp]]]].
  - destruct H1 as [C1 C2 C3 C4 C5]. split; [exact C1|exact C2|exact C3|exact C4|].
    intros ch m l Hl. apply Hp in Hl as (Hk & Hne & l0 & Hl0 & ->).
    assert (parked_chunks e1 !! (ch, m) = Some l0) as Hl1 by (rewrite H7; by case_decide).
    destruct (C5 ch m l0 Hl1) as [Hlen Ht]. split.
    + split; [destruct (fresh t l0); [done|simpl; lia]|].
      unfold fresh. pose proof (length_filter
        (λ c, saturating_duration_since t (parked_at c) ≤ PARKED_CHUNK_TTL) l0). lia.
    + simpl. apply map_lookup_filter_None. by left.
  - intros k a. simpl. rewrite map_lookup_filter_Some, H2, H6. simpl.
    case_decide; [|done]. naive_solver.
Qed.

(** The chunks that stay parked for a key that is not disposed of. *)
Lemma cleanup_parked t e k :
  coherent e → k ∉ expired_keys t e →
  default [] (parked_chunks (run_cleanup t e) !! k) = fresh t (default [] (parked_chunks e !! k)).
Proof.
  intros He Hk. destruct (run_cleanup_spec t e He) as (_ & _ & _ & _ & Hp). specialize (Hp k).
  destruct (parked_chunks (run_cleanup t e) !! k) as [l|].
  - destruct (proj1 (Hp l) eq_refl) as (_ & _ & l0 & -> & ->). done.
  - destruct (parked_chunks e !! k) as [l0|]; [|done]. cbn.
    destruct (fresh t l0) eqn:Hf; [done|]. enough (None = Some (fresh t l0)) by done.
    apply Hp. rewrite Hf. naive_solver.
Qed.

Lemma maybe_run_cleanup_coherent e : coherent e → coherent (maybe_run_cleanup e).
Proof.
  intros He. unfold maybe_run_cleanup. pose proof (now_evolves e) as Hn.
  destruct (now e) as [t e1]. simpl in Hn.
  pose proof (evolves_coherent _ _ He Hn) as He1. case_decide; [done|].
  apply run_cleanup_spec. by destruct He1; split.
Qed.

Lemma exec_coherent o e : coherent e → coherent (exec o e).
Proof.
  intros He. destruct o as [ch f|p|ch m st pre|ev]; cbn [exec].
  - by apply subscribe_keeps.
  - by apply register_peer_keeps.
  - by eapply publish_opens.
  - unfold run_one_step. simpl. by apply maybe_run_cleanup_coherent, handle_event_coherent.
Qed.

Lemma run_coherent os e : coherent e → coherent (run os e).
Proof.
  revert e; induction os as [|o os IH]; intros e He; [done|].
  apply IH. by apply exec_coherent.
Qed.

Lemma with_config_coherent p nt d cfg ck :
  coherent (with_config p nt d cfg ck : Engine S NT CT DT).
Proof.
  unfold with_config. destruct (clock_now ck) as [t c].
  split; simpl; intros ch m; unfold live, lookup_session; simpl; rewrite ?lookup_empty.
  - split; intros []; done.
  - split; intros []; done.
  - by intros [].
  - intros t'. by intros [].
  - done.
Qed.
End lemmas.
End EngineLemmas.

(** * Properties *)
Section properties.
Context {S DE NT CT DT : Type}.
Context `{!Strategy S N BitMap DE, !DrainBound S}.
Context `{!Net NT, !Clock CT, !DeliverySink DeliveredMessage DT}.
Import Engine EngineLemmas.

(** C10: the maps of the engine agree, after any sequence of calls and events on
    any network: lifecycle metadata and retained preambles exist exactly for the
    live sessions, opens and pending sends are recorded for live sessions only,
    at most 32 chunks are parked per message, and none for a session whose
    tombstone stands. *)
Theorem engine_coherent (p : N) (nt : NT) (d : DT) (cfg : EngineConfig) (ck : CT)
    (os : list (op (S:=S))) :
  let e := run os (with_config p nt d cfg ck) in
  (∀ ch m, is_Some (session_meta e !! (ch, m)) ↔ is_Some (lookup_session e ch m)) ∧
  (∀ ch m, is_Some (session_preambles e !! (ch, m)) ↔ is_Some (lookup_session e ch m)) ∧
  (∀ ch m, is_Some (opened_to e !! (ch, m)) → is_Some (lookup_session e ch m)) ∧
  (∀ ch m t, is_Some (pending_sends e !! (ch, m, t)) → is_Some (lookup_session e ch m)) ∧
  (∀ ch m l, parked_chunks e !! (ch, m) = Some l →
     (0 < length l ≤ 32)%nat ∧ tombstones e !! (ch, m) = None).
Proof.
  cbv zeta. pose proof (run_coherent os _ (with_config_coherent p nt d cfg ck)) as [].
  by split_and!.
Qed.

(** C30: no inbound event brings a session to life but a [SessionOpen] for it,
    and a disposed session whose tombstone stands is not resurrected even by
    that; events leave the tombstones alone. *)
Theorem tombstones_hold (p : N) (nt : NT) (d : DT) (cfg : EngineConfig) (ck : CT)
    (os : list (op (S:=S))) (ev : NetEvent.t) (ch m : string) :
  let e := run os (with_config p nt d cfg ck) in
  lookup_session e ch m = None →
  is_Some (lookup_session (handle_event ev e) ch m) →
  tombstones e !! (ch, m) = None ∧
  tombstones (handle_event ev e) = tombstones e ∧
  ∃ peer pre iu, ev = NetEvent.SessionOpen peer ch m pre iu.
Proof.
  cbv zeta. intros Hno Hl.
  pose proof (run_coherent os _ (with_config_coherent p nt d cfg ck)) as He.
  destruct (handle_event_live ev _ ch m He Hl) as [[s Hs]|[Ht Hev]]; [congruence|].
  split; [done|]. split; [by apply handle_event_tombstones|done].
Qed.

(** C31: a cleanup sweep at time [t] disposes of exactly the sessions that have
    outlived their time to live or their linger.  Of such a session nothing is
    left but a tombstone.  For every other key the session, its bookkeeping, its
    opens and its pending sends are as they were; its tombstone stands if it is
    within its time, and of its parked chunks precisely those stay, in their
    order, that are within theirs.  Nothing else of the engine changes. *)
Theorem run_cleanup_exact (p : N) (nt : NT) (d : DT) (cfg : EngineConfig) (ck : CT)
    (os : list (op (S:=S))) (t : N) :
  let e := run os (with_config p nt d cfg ck) in
  let e' := run_cleanup t e in
  surroundings e' = surroundings e ∧
  ∀ ch m,
    let k := (ch, m) in
    let overdue := ∃ mt, session_meta e !! k = Some mt ∧
      (active_session_ttl (config e) < t - created_at mt ∨
       ∃ u, terminal_at mt = Some u ∧ reconstructed_linger (config e) < t - u) in
    (overdue →
       lookup_session e' ch m = None ∧ session_meta e' !! k = None ∧
       session_preambles e' !! k = None ∧ opened_to e' !! k = None ∧
       (∀ h, pending_sends e' !! (k, h) = None) ∧ parked_chunks e' !! k = None ∧
       tombstones e' !! k = Some t) ∧
    (¬ overdue →
       lookup_session e' ch m = lookup_session e ch m ∧
       session_meta e' !! k = session_meta e !! k ∧
       session_preambles e' !! k = session_preambles e !! k ∧
       opened_to e' !! k = opened_to e !! k ∧
       (∀ h, pending_sends e' !! (k, h) = pending_sends e !! (k, h)) ∧
       default [] (parked_chunks e' !! k) =
         filter (λ c, t - parked_at c ≤ PARKED_CHUNK_TTL) (default [] (parked_chunks e !! k)) ∧
       parked_chunks e' !! k ≠ Some [] ∧
       ∀ a, tombstones e' !! k = Some a ↔
         tombstones e !! k = Some a ∧ t - a ≤ tombstone_ttl (config e)).
Proof.
  cbv zeta. set (e := run os _).
  assert (coherent e) as He by apply run_coherent, with_config_coherent.
  destruct (run_cleanup_spec t e He) as (_ & Hs & Hm & Ht & Hp).
  destruct (dispose_all_rest (expired_keys t e) t e) as (Hsur & Hpre & Hop & Hpend).
  split; [exact Hsur|]. intros ch m.
  assert ((ch, m) ∈ expired_keys t e ↔ ∃ mt, session_meta e !! (ch, m) = Some mt ∧
      (active_session_ttl (config e) < t - created_at mt ∨
       ∃ u, terminal_at mt = Some u ∧ reconstructed_linger (config e) < t - u)) as Hex
    by (rewrite elem_of_expired_keys; by setoid_rewrite expired_true).
  specialize (Hs ch m). specialize (Hm (ch, m)). specialize (Hpre (ch, m)).
  specialize (Hop (ch, m)). specialize (Hpend (ch, m)). rewrite <- Hex.
  destruct (decide ((ch, m) ∈ expired_keys t e)) as [Hin|Hin]; split; intros Hin'; try done.
  - split_and!; [exact Hs|exact Hm|exact Hpre|exact Hop|exact Hpend| |].
    + apply eq_None_not_Some. intros [l Hl]. by apply Hp in Hl as [? _].
    + apply Ht. rewrite decide_True by done. split; [done|]. unfold saturating_duration_since. lia.
  - split_and!; [exact Hs|exact Hm|exact Hpre|exact Hop|exact Hpend| | |].
    + by apply cleanup_parked.
    + intros [_ [? _]]%Hp. done.
    + intros a. rewrite Ht. by rewrite decide_False.
Qed.

(** [connect] after the peer's own handshake sends nothing: the handshake
    event already marks the peer connected, and a connected peer is never sent
    our handshake, so it does not learn which channels we host. *)
Theorem connect_after_handshake (e : Engine S NT CT DT) (p : N)
    (chans : list string) (name : string) :
  let e' := handle_event (NetEvent.Handshake p PROTOCOL_VERSION chans name) e in
  connect p e' = (Ok (), e').
Proof.
  cbv zeta. cbn [handle_event]. unfold on_handshake. rewrite decide_True by done.
  set (e1 := set_connected _ e). unfold connect, register_peer_and_handshake.
  rewrite decide_True; [done|].
  assert (p ∈ connected e1) as Hp by (simpl; set_solver). revert Hp. generalize e1.
  clear. induction chans as [|ch l IH]; intros e Hp; [done|]. simpl. apply IH.
  rewrite (ev_connected _ _ (drain_channel_evolves ch _)). done.
Qed.
End properties.
