(* ===== verification/EngineRel.v ===== *)
(** Relations between engine states that every operation respects.

    Most invariants of the engine need one fact per elementary effect (a send,
    a change of some sessions, a new session, a delivery, bookkeeping) and the
    same walk through drains, handlers and cleanup.  [DrainRel] and [EngineRel]
    are the interfaces that state the elementary facts; the walk is made once,
    in [handle_event_rel] and [exec_rel]. *)
From Stdlib Require Import NArith Lia.
From stdpp Require Import base gmap option strings list.
From S2P Require Import Prelude BitMap Strategy Session Channel Runtime Engine EngineInv.

Open Scope N_scope.

Module DrainRel.
Import Engine.
Section drain_rel.
Context {S DE NT CT DT : Type}.
Context `{!Strategy S N BitMap DE, !DrainBound S}.
Context `{!Net NT, !Clock CT, !DeliverySink DeliveredMessage DT}.
Implicit Type e : Engine S NT CT DT.

(** A relation that the elementary effects of a drain respect: sends, which open
    a session with its preamble, and polls and send results of a session. *)
Class DrainRel (R : Engine S NT CT DT → Engine S NT CT DT → Prop) : Prop := {
  dr_po :: PreOrder R;
  dr_send msg e :
    (∀ p ch m pre iu, msg = SendSessionOpen p ch m pre iu →
       session_preambles e !! (ch, m) = Some pre) → R e (snd (send msg e));
  dr_opened v e : R e (set_opened_to v e);
  dr_pending v e : R e (set_pending_sends v e);
  dr_poll ch m s e : lookup_session e ch m = Some s →
    R e (update_session ch m (snd (Session.poll s)) e);
  dr_sent ch m s p h ok e : lookup_session e ch m = Some s →
    R e (update_session ch m (Session.chunk_sent s p h ok) e)
}.

Context (R : Engine S NT CT DT → Engine S NT CT DT → Prop) `{!DrainRel R}.

Lemma sm_for_rel {A} (f : A → SM (Engine S NT CT DT) EngineError unit) l e :
  (∀ a e, R e (snd (f a e))) → R e (snd (sm_for f l e)).
Proof.
  intros Hf. revert e; induction l as [|a l IH]; intros e; [done|].
  cbn [sm_for]. unfold mbind, SM_bind. pose proof (Hf a e) as Ha.
  destruct (f a e) as [[[]|err] e1]; [|done]. simpl in Ha. by etrans.
Qed.

Lemma ensure_rel ch m p e : R e (snd (ensure_session_open ch m p e)).
Proof.
  unfold ensure_session_open. destruct (is_opened_to e ch m p); [done|].
  destruct (session_preambles e !! (ch, m)) as [pre|] eqn:Hpre; [|done].
  assert (R e (snd (send (SendSessionOpen p ch m pre []) e))) as Hs
    by (apply dr_send; by intros ????? [= <- <- <- <- <-]).
  destruct (send _ e) as [[[]|err] e1]; [|done]. simpl in *. etrans; [done|]. apply dr_opened.
Qed.

Lemma send_routing_rel ch m payload subs e : R e (snd (send_routing ch m payload subs e)).
Proof.
  apply sm_for_rel. intros p e1. unfold mbind, SM_bind.
  pose proof (ensure_rel ch m p e1) as He.
  destruct (ensure_session_open ch m p e1) as [[[]|err] e2]; [|done].
  etrans; [exact He|]. by apply dr_send.
Qed.

Lemma send_dispatches_rel ch m ds b e : R e (snd (send_dispatches ch m ds b e)).
Proof.
  revert b e; induction ds as [|d ds IH]; intros b e; [done|]. cbn [send_dispatches].
  pose proof (ensure_rel ch m (d_peer d) e) as He.
  destruct (ensure_session_open ch m (d_peer d) e) as [[[]|err] e1]; [|done].
  match goal with |- context [send ?msg e1] => assert (R e1 (snd (send msg e1))) as Hs by (by apply dr_send) end.
  destruct (send _ e1) as [[[]|err] e2]; cbn [snd] in *; (etrans; [exact He|]);
    (etrans; [exact Hs|]).
  - etrans; [|apply IH]. apply dr_pending.
  - destruct (lookup_session e2 ch m) as [s|] eqn:Hl; [|apply IH].
    etrans; [|apply IH]. by apply dr_sent.
Qed.

Lemma drain_round_rel ch m e : R e (snd (drain_round ch m e)).
Proof.
  unfold drain_round. destruct (lookup_session e ch m) as [s|] eqn:Hl; [|done].
  pose proof (dr_poll ch m s e Hl) as Hp. destruct (Session.poll s) as [work s'].
  cbn [snd] in Hp. set (e1 := update_session ch m s' e) in *.
  set (subs := match channels e1 !! ch with Some _ => _ | None => _ end).
  assert (∀ payload, R e (snd ((match payload with
            | Some r => send_routing ch m (BitMap.as_bytes r) subs
            | None => mret () end ≫= λ _,
          send_dispatches ch m (dispatches work) false ≫= λ stalled,
          mret (negb stalled)) e1))) as Hall.
  { intros payload. etrans; [exact Hp|]. unfold mbind, SM_bind.
    assert (R e1 (snd ((match payload with
            | Some r => send_routing ch m (BitMap.as_bytes r) subs
            | None => mret () end) e1))) as Hr by (destruct payload; [apply send_routing_rel|done]).
    destruct (_ e1) as [[[]|err] e2]; [|done]. cbn [snd] in Hr.
    pose proof (send_dispatches_rel ch m (dispatches work) false e2) as Hd.
    destruct (send_dispatches _ _ _ _ e2) as [[b|err] e3]; by etrans. }
  destruct (routing work) as [r|], (dispatches work) as [|d ds] eqn:Hds.
  - exact (Hall (Some r)).
  - exact (Hall (Some r)).
  - exact Hp.
  - exact (Hall None).
Qed.

Lemma drain_session_rel ch m e : R e (snd (drain_session ch m e)).
Proof.
  unfold drain_session. destruct (drain_loop _ ch m e) as [[r e']|] eqn:Hl; [|done].
  cbn [default]. generalize dependent (drain_fuel e ch m). intros fuel.
  revert e; induction fuel as [|fuel IH]; intros e; [done|]. cbn [drain_loop].
  pose proof (drain_round_rel ch m e) as Hr.
  destruct (drain_round ch m e) as [[[]|err] e1]; cbn [snd] in Hr.
  - intros Hl. etrans; [done|]. by apply IH.
  - by intros [= _ <-].
  - by intros [= _ <-].
Qed.

Lemma drain_channel_rel ch e : R e (snd (drain_channel ch e)).
Proof.
  unfold drain_channel. destruct (channels e !! ch); [|done].
  apply sm_for_rel. intros m e1. apply drain_session_rel.
Qed.
End drain_rel.
End DrainRel.

Module EngineRel.
Import Engine EngineLemmas DrainRel.

(** ** How calls change the sessions of a channel *)
Section leads.
Context {S CI RU DE : Type} `{!Strategy S N RU DE}.
Implicit Type s : Session S.

(** The sessions of [c'] come from those of [c], and the factory builds the same
    strategies. *)
Definition chan_leads (c c' : Channel S) : Prop :=
  build (factory c') = build (factory c) ∧
  ∀ m s', sessions c' !! m = Some s' →
    ∃ s, sessions c !! m = Some s ∧ leads (strategy s) (strategy s').

#[export] Instance chan_leads_refl : Reflexive chan_leads.
Proof. intros c. split; [done|]. intros m s Hs. by exists s. Qed.

Lemma take_leads s i d : leads (strategy s) (strategy (snd (Session.take_chunk s i d))).
Proof.
  intros P HP Hs. unfold Session.take_chunk. destruct (state s); try done.
  pose proof (si_take (strategy s) i d Hs).
  destruct (take_chunk (strategy s) i d) as [[oc|err] st]; [|done].
  by destruct (_ && _).
Qed.

Lemma poll_leads s : leads (strategy s) (strategy (snd (Session.poll s))).
Proof.
  intros P HP Hs. unfold Session.poll.
  pose proof (si_poll_routing (strategy s) false Hs) as H1.
  destruct (poll_routing _ _) as [r st]. simpl in H1. pose proof (si_poll_chunks st H1).
  by destruct (poll_chunks st).
Qed.

Lemma sent_leads s p h ok : leads (strategy s) (strategy (Session.chunk_sent s p h ok)).
Proof. intros P HP Hs. by apply si_sent. Qed.

Lemma detach_leads s p b : leads (strategy s) (strategy (Session.detach_peer s p b)).
Proof. intros P HP Hs. by apply si_detach. Qed.

Lemma decode_leads s : strategy (snd (Session.decode_and_finish s)) = strategy s.
Proof. unfold Session.decode_and_finish. case_decide; [done|]. by destruct (decode _). Qed.

Lemma attach_all_leads (c : Channel S) s :
  leads (strategy s) (strategy (Channel.attach_all c s)).
Proof.
  unfold Channel.attach_all. generalize (bt_elements (subscribers c)) as l. intros l.
  revert s; induction l as [|p l IH]; intros s; [done|]. simpl.
  etrans; [|apply IH]. intros P HP Hs. by apply si_attach.
Qed.

Lemma fmap_chan_leads (f : Session S → Session S) c c' :
  build (factory c') = build (factory c) → sessions c' = f <$> sessions c →
  (∀ s, leads (strategy s) (strategy (f s))) → chan_leads c c'.
Proof.
  intros Hb Hs Hf. split; [done|]. intros m s'. rewrite Hs, lookup_fmap, fmap_Some.
  intros (s & Hm & ->). eauto.
Qed.

Lemma subscribe_chan_leads c p : chan_leads c (Channel.subscribe_peer c p).
Proof.
  unfold Channel.subscribe_peer. case_decide; [done|].
  eapply fmap_chan_leads; [done|done|]. intros s P HP Hs. by apply si_attach.
Qed.

Lemma unsubscribe_chan_leads c p : chan_leads c (Channel.unsubscribe_peer c p).
Proof.
  unfold Channel.unsubscribe_peer. case_decide; [|done].
  eapply fmap_chan_leads; [done|done|]. intros s. apply detach_leads.
Qed.

Lemma remove_chan_leads c m : chan_leads c (Channel.remove_session c m).
Proof.
  split; [done|]. intros m' s. unfold Channel.remove_session. cbn [Channel.with_sessions sessions].
  intros [_ Hs]%lookup_delete_Some. by exists s.
Qed.

Lemma insert_chan_leads c m s s' :
  sessions c !! m = Some s → leads (strategy s) (strategy s') →
  chan_leads c (Channel.with_sessions c (<[m := s']> (sessions c))).
Proof.
  intros Hs Hl. split; [done|]. intros m' x. cbn [Channel.with_sessions sessions].
  rewrite lookup_insert_Some. intros [[<- <-]|[_ Hx]]; [eauto|by exists x].
Qed.

Lemma take_chan_leads c m i d : chan_leads c (snd (Channel.take_chunk m i d c)).
Proof.
  unfold Channel.take_chunk. destruct (sessions c !! m) as [s|] eqn:Hs; [|done].
  pose proof (take_leads s i d) as Ht. destruct (Session.take_chunk s i d) as [r s'].
  by eapply insert_chan_leads.
Qed.
End leads.

Section engine_rel.
Context {S DE NT CT DT : Type}.
Context `{!Strategy S N BitMap DE, !DrainBound S}.
Context `{!Net NT, !Clock CT, !DeliverySink DeliveredMessage DT}.
Implicit Type e : Engine S NT CT DT.

(** A relation that the elementary effects of the engine respect.  [Q ch m pre x]
    says that a session may start with strategy [x] under preamble [pre], and
    [F f] that a channel may have the factory [f]. *)
Class EngineRel (Q : string → string → bytes → S → Prop) (F : StrategyFactory S → Prop)
    (R : Engine S NT CT DT → Engine S NT CT DT → Prop) : Prop := {
  er_po :: PreOrder R;
  er_same e e' :
    channels e' = channels e → session_preambles e' = session_preambles e →
    net e' = net e → delivered e' = delivered e → R e e';
  er_send msg e :
    (∀ p ch m pre iu, msg = SendSessionOpen p ch m pre iu →
       session_preambles e !! (ch, m) = Some pre) → R e (snd (send msg e));
  er_deliver ch m s payload e :
    lookup_session e ch m = Some s → decode (strategy s) = Ok payload →
    R e (set_delivered (snd (try_send (mkDelivered ch m payload) (delivered e))) e);
  er_forget v e :
    (∀ k pre, v !! k = Some pre → session_preambles e !! k = Some pre) →
    R e (set_session_preambles v e);
  er_channels v e :
    (∀ ch c', v !! ch = Some c' → ∃ c, channels e !! ch = Some c ∧ chan_leads c c') →
    (∀ ch, is_Some (channels e !! ch) → is_Some (v !! ch)) →
    R e (set_channels v e);
  er_factory ch f e :
    F f → channels e !! ch = None →
    R e (set_channels (<[ch := Channel.new ch f]> (channels e)) e);
  er_new ch m pre x s c c' e :
    channels e !! ch = Some c → Q ch m pre x → leads x (strategy s) →
    build (factory c') = build (factory c) → sessions c' = <[m := s]> (sessions c) →
    R e (set_session_preambles (<[(ch, m) := pre]> (session_preambles e))
           (set_channels (<[ch := c']> (channels e)) e))
}.

Context (Q : string → string → bytes → S → Prop) (F : StrategyFactory S → Prop).
Context (R : Engine S NT CT DT → Engine S NT CT DT → Prop) `{!EngineRel Q F R}.

#[local] Instance R_po : PreOrder R := er_po.

Lemma same_l e e1 e2 :
  channels e1 = channels e → session_preambles e1 = session_preambles e →
  net e1 = net e → delivered e1 = delivered e → R e1 e2 → R e e2.
Proof. intros ???? H. etrans; [by apply er_same|done]. Qed.

Lemma alter_rel (f : Channel S → Channel S) ch e :
  (∀ c, channels e !! ch = Some c → chan_leads c (f c)) →
  R e (set_channels (alter f ch (channels e)) e).
Proof.
  intros Hf. apply er_channels; intros ch'; [intros c'|]; destruct (decide (ch' = ch)) as [->|].
  - rewrite lookup_alter_eq, fmap_Some. intros (c & Hc & ->). eauto.
  - rewrite lookup_alter_ne by done. intros Hc. by exists c'.
  - by rewrite lookup_alter_eq, fmap_is_Some.
  - by rewrite lookup_alter_ne.
Qed.

Lemma insert_rel ch c c' e :
  channels e !! ch = Some c → chan_leads c c' → R e (set_channels (<[ch := c']> (channels e)) e).
Proof.
  intros Hc Hl. apply er_channels; intros ch'.
  - intros x. rewrite lookup_insert_Some. intros [[<- <-]|[_ Hx]]; [eauto|by exists x].
  - rewrite lookup_insert_is_Some'. auto.
Qed.

Lemma update_rel ch m s s' e :
  lookup_session e ch m = Some s → leads (strategy s) (strategy s') →
  R e (update_session ch m s' e).
Proof.
  intros (c & Hc & Hs)%lookup_session_Some Hl. apply alter_rel. intros c0 Hc0.
  assert (c0 = c) as -> by congruence. by eapply insert_chan_leads.
Qed.

#[export] Instance engine_drain : DrainRel R.
Proof.
  split.
  - apply er_po.
  - intros msg e Hm. by apply er_send.
  - intros v e. by apply er_same.
  - intros v e. by apply er_same.
  - intros ch m s e Hl. eapply update_rel; [done|]. apply poll_leads.
  - intros ch m s p h ok e Hl. eapply update_rel; [done|]. apply sent_leads.
Qed.

(** ** Handlers *)

Lemma now_rel e : R e (snd (now e)).
Proof. unfold now. destruct (clock_now (clock e)). by apply er_same. Qed.

Lemma record_created_rel ch m e : R e (record_session_created ch m e).
Proof.
  unfold record_session_created. destruct (contains_key _ _); [done|].
  pose proof (now_rel e). destruct (now e). etrans; [done|]. by apply er_same.
Qed.

Lemma mark_terminal_rel ch m e : R e (mark_session_terminal ch m e).
Proof.
  unfold mark_session_terminal. destruct (session_meta e !! (ch, m)) as [[? []]|]; simpl; try done.
  pose proof (now_rel e). destruct (now e). etrans; [done|]. by apply er_same.
Qed.

Lemma mark_terminal_same ch m e :
  channels (mark_session_terminal ch m e) = channels e ∧
  delivered (mark_session_terminal ch m e) = delivered e.
Proof.
  unfold mark_session_terminal, now. destruct (session_meta e !! (ch, m)) as [[? []]|]; simpl;
    try done. by destruct (clock_now (clock e)).
Qed.

Lemma park_rel ch m i d e : R e (park_chunk ch m i d e).
Proof.
  unfold park_chunk. pose proof (now_rel e). destruct (now e). etrans; [done|]. by apply er_same.
Qed.

Lemma channel_take_rel ch m i d e : R e (snd (channel_take_chunk ch m i d e)).
Proof.
  unfold channel_take_chunk. destruct (channels e !! ch) as [c|] eqn:Hc; [|done].
  pose proof (take_chan_leads c m i d) as Ht.
  destruct (Channel.take_chunk m i d c) as [r c']. by eapply insert_rel.
Qed.

Lemma replay_chunks_rel ch m l b e : R e (snd (replay_chunks ch m l b e)).
Proof.
  revert b e; induction l as [|c l IH]; intros b e; [done|]. cbn [replay_chunks].
  pose proof (channel_take_rel ch m (pk_chunk_id c) (pk_payload c) e) as Hc.
  destruct (channel_take_chunk _ _ _ _ e) as [b1 e1]. etrans; [exact Hc|apply IH].
Qed.

Lemma decode_rel ch m e : R e (maybe_decode_and_deliver ch m e).
Proof.
  unfold maybe_decode_and_deliver. destruct (lookup_session e ch m) as [s|] eqn:Hl; [|done].
  pose proof (decode_leads s) as Hs. unfold Session.decode_and_finish in *.
  assert (∀ s', strategy s' = strategy s →
    R e (mark_session_terminal ch m (update_session ch m s' e)) ∧
    lookup_session (mark_session_terminal ch m (update_session ch m s' e)) ch m = Some s') as Hm.
  { intros s' Hs'. split.
    - etrans; [eapply update_rel; [exact Hl|by rewrite Hs']|apply mark_terminal_rel].
    - unfold lookup_session. rewrite (proj1 (mark_terminal_same ch m _)).
      fold (lookup_session (update_session ch m s' e) ch m).
      erewrite lookup_update_session by done. by rewrite decide_True. }
  case_decide; [by apply Hm|]. destruct (decode (strategy s)) as [p|err] eqn:Hd; [|by apply Hm].
  destruct (Hm _ Hs) as [Hr Hl']. cbn [snd] in *.
  set (e1 := mark_session_terminal _ _ _) in *.
  pose proof (er_deliver ch m _ p e1 Hl' Hd) as Hdel.
  destruct (try_send _ (delivered e1)) as [r d]. cbn [snd] in Hdel.
  etrans; [exact Hr|]. etrans; [exact Hdel|]. by apply er_send.
Qed.

Lemma register_rel p e : R e (sm_exec (register_peer_and_handshake p) e).
Proof.
  unfold sm_exec, register_peer_and_handshake. case_decide; [done|].
  eapply same_l; [..|by apply er_send]; done.
Qed.

(** A drain, and decoding if asked. *)
Lemma drain_decode_rel ch m (b : bool) e :
  let e1 := sm_exec (drain_session ch m) e in
  R e (if b then maybe_decode_and_deliver ch m e1 else e1).
Proof.
  cbv zeta. etrans; [apply (drain_session_rel R ch m)|]. destruct b; [apply decode_rel|done].
Qed.

Lemma replay_rel ch m e : R e (replay_parked_chunks ch m e).
Proof.
  unfold replay_parked_chunks. destruct (parked_chunks e !! (ch, m)) as [l|]; [|done].
  set (e1 := set_parked_chunks _ e). pose proof (replay_chunks_rel ch m l false e1) as Hr.
  destruct (replay_chunks ch m l false e1) as [b e2].
  eapply (same_l e e1); [done..|]. etrans; [exact Hr|]. apply drain_decode_rel.
Qed.

Lemma open_rel ch m pre e :
  (∀ c n x n', channels e !! ch = Some c → build (factory c) n pre = (Ok x, n') → Q ch m pre x) →
  R e (on_session_open ch m pre e).
Proof.
  intros HQ. unfold on_session_open. destruct (is_tombstoned e ch m); [done|].
  destruct (channels e !! ch) as [c|] eqn:Hc; [|done].
  unfold Channel.open_session, call_factory.
  destruct (contains_key (sessions c) m); [by eapply insert_rel|].
  destruct (build (factory c) _ pre) as [[x|err] n] eqn:Hb; cbn [fst snd].
  2: { eapply insert_rel; [done|]. split; [done|]. intros m' s Hs. by exists s. }
  set (c1 := mkChannel _ _ _ _). set (s := Channel.attach_all c1 _).
  assert (R e (set_session_preambles (<[(ch, m) := pre]> (session_preambles e))
    (set_channels (<[ch := Channel.with_sessions c1 (<[m := s]> (sessions c1))]> (channels e)) e)))
    as Hnew.
  { eapply (er_new ch m pre x s c); [done|by eapply HQ| |done|done].
    apply (attach_all_leads c1 (Session.new_relay x)). }
  etrans; [exact Hnew|]. etrans; [apply (record_created_rel ch m)|].
  etrans; [apply (drain_session_rel R ch m)|]. apply replay_rel.
Qed.

Lemma chunk_rel ch m i d e : R e (on_chunk ch m i d e).
Proof.
  unfold on_chunk. destruct (is_tombstoned e ch m); [done|].
  destruct (lookup_session e ch m); [|apply park_rel].
  pose proof (channel_take_rel ch m i d e) as Hc.
  destruct (channel_take_chunk ch m i d e) as [b e1].
  etrans; [exact Hc|]. apply drain_decode_rel.
Qed.

Lemma subscribe_rel ch p e : R e (sm_exec (drain_channel ch) (subscribe_to ch p e)).
Proof.
  etrans; [|apply (drain_channel_rel R)]. apply alter_rel. intros c _. apply subscribe_chan_leads.
Qed.

Lemma handshake_rel p v l e : R e (on_handshake p v l e).
Proof.
  unfold on_handshake. case_decide; [|by apply er_same].
  eapply (same_l _ (set_connected ({[p]} ∪ connected e) e)); [done..|].
  generalize (set_connected ({[p]} ∪ connected e) e). clear e.
  induction l as [|ch l IH]; intros e; [done|]. simpl.
  etrans; [apply (subscribe_rel ch p)|apply IH].
Qed.

Lemma disconnect_rel p e : R e (on_disconnect p e).
Proof.
  unfold on_disconnect. set (e1 := set_opened_to _ _).
  eapply (same_l e e1); [done..|]. apply er_channels; intros ch.
  - intros c'. rewrite lookup_fmap, fmap_Some. intros (c & Hc & ->). exists c. split; [done|].
    apply unsubscribe_chan_leads.
  - by rewrite lookup_fmap, fmap_is_Some.
Qed.

Lemma resolve_rel p ch m t b e : R e (resolve_chunk_send p ch m t b e).
Proof.
  unfold resolve_chunk_send. destruct (pending_sends e !! (ch, m, t)); [|done].
  set (e1 := set_pending_sends _ e). eapply (same_l e e1); [done..|].
  etrans; [|apply (drain_session_rel R ch m)].
  destruct (lookup_session e1 ch m) as [s|] eqn:Hl; [|done].
  eapply update_rel; [done|]. apply sent_leads.
Qed.

Lemma detach_rel ch m p b e : R e (detach_session_peer ch m p b e).
Proof.
  unfold detach_session_peer. destruct (lookup_session e ch m) as [s|] eqn:Hl; [|done].
  eapply update_rel; [done|]. apply detach_leads.
Qed.

(** What an event may bring. *)
Definition event_ok (ev : NetEvent.t) e : Prop :=
  match ev with
  | NetEvent.SessionOpen _ ch m pre _ => ∀ c n x n',
      channels e !! ch = Some c → build (factory c) n pre = (Ok x, n') → Q ch m pre x
  | _ => True
  end.

Lemma handle_event_rel ev e : event_ok ev e → R e (handle_event ev e).
Proof.
  intros Hev. destruct ev; cbn [handle_event event_ok] in *.
  - apply handshake_rel.
  - apply subscribe_rel.
  - apply alter_rel. intros c _. apply unsubscribe_chan_leads.
  - by apply open_rel.
  - done.
  - apply chunk_rel.
  - apply disconnect_rel.
  - apply register_rel.
  - apply resolve_rel.
  - apply detach_rel.
  - apply detach_rel.
Qed.

(** ** Cleanup and calls *)

Lemma dispose_rel ch m t e : R e (dispose_session ch m t e).
Proof.
  unfold dispose_session. cbv zeta.
  set (e1 := set_channels _ e).
  assert (R e e1) as H1 by (apply alter_rel; intros c _; apply remove_chan_leads).
  set (e2 := set_session_meta _ e1). set (v := delete _ (session_preambles e2)).
  assert (R e2 (set_session_preambles v e2)) as H2.
  { apply er_forget. intros k pre [_ Hk]%lookup_delete_Some. done. }
  etrans; [exact H1|]. eapply (same_l e1 e2); [done..|]. etrans; [exact H2|]. by apply er_same.
Qed.

Lemma run_cleanup_rel t e : R e (run_cleanup t e).
Proof.
  unfold run_cleanup. cbv zeta.
  generalize (fst <$> filter (λ km, expired (config e) t km.2) (map_to_list (session_meta e))).
  intros keys. set (f := λ e (k : string * string), dispose_session k.1 k.2 t e).
  assert (R e (foldl f e keys)) as H1; [|etrans; [exact H1|]; by apply er_same].
  revert e; induction keys as [|k keys IH]; intros e; [done|]. simpl.
  etrans; [apply dispose_rel|apply IH].
Qed.

Lemma maybe_cleanup_rel e : R e (maybe_run_cleanup e).
Proof.
  unfold maybe_run_cleanup. pose proof (now_rel e) as Hn. destruct (now e) as [t e1].
  case_decide; [done|]. etrans; [exact Hn|].
  eapply same_l; [..|apply run_cleanup_rel]; done.
Qed.

Lemma run_one_step_rel ev e :
  (∀ ev', ev = Some ev' → event_ok ev' e) → R e (snd (run_one_step ev e)).
Proof.
  intros Hev. destruct ev as [ev|]; [|done]. cbn [run_one_step snd].
  etrans; [apply (handle_event_rel ev), Hev; done|]. apply maybe_cleanup_rel.
Qed.

Lemma subscribe_op_rel ch f e : F f → R e (snd (subscribe ch f e)).
Proof.
  intros Hf. unfold subscribe. cbv zeta.
  assert (∀ e1, R e1 (snd (sm_for (λ p, send (SendSubscribe p ch)) (bt_elements (connected e1)) e1)))
    as Hs by (intros e1; apply (sm_for_rel R); intros p e2; by apply er_send).
  destruct (contains_key (channels e) ch) eqn:Hk; [apply Hs|]. apply contains_key_false in Hk.
  etrans; [by apply (er_factory ch f)|apply Hs].
Qed.

Lemma connect_all_rel l e : R e (snd (sm_for connect l e)).
Proof. apply (sm_for_rel R). intros p e1. apply register_rel. Qed.

Lemma publish_rel ch m x pre e : Q ch m pre x → R e (snd (publish ch m x pre e)).
Proof.
  intros HQ. unfold publish. destruct (channels e !! ch) as [c|] eqn:Hc; [|done].
  unfold Channel.start_origin_session.
  destruct (contains_key (sessions c) m); [by eapply insert_rel|].
  set (s := Channel.attach_all c _).
  set (c' := Channel.with_sessions c _).
  assert (R e (set_session_preambles (<[(ch, m) := pre]> (session_preambles e))
    (set_channels (<[ch := c']> (channels e)) e))) as Hnew.
  { eapply (er_new ch m pre x s c); [done|done| |done|done].
    apply (attach_all_leads c (Session.new_origin x)). }
  cbv zeta. set (e1 := record_session_created _ _ _).
  assert (R e e1) as H1 by (etrans; [exact Hnew|apply record_created_rel]).
  unfold mbind, SM_bind.
  pose proof (sm_for_rel R (ensure_session_open ch m) (bt_elements (subscribers c')) e1
    (ensure_rel R ch m)) as He.
  destruct (sm_for _ _ e1) as [[[]|err] e2]; [|by etrans].
  etrans; [exact H1|]. etrans; [exact He|]. apply (drain_session_rel R).
Qed.

(** What the application and the network may hand in. *)
Definition op_ok (o : op) e : Prop :=
  match o with
  | Subscribe _ f => F f
  | Publish ch m st pre => Q ch m pre st
  | Step ev => event_ok ev e
  | Connect _ => True
  end.

Lemma exec_rel o e : op_ok o e → R e (exec o e).
Proof.
  intros Ho. destruct o as [ch f|p|ch m st pre|ev]; cbn [exec op_ok] in *.
  - by apply subscribe_op_rel.
  - apply register_rel.
  - by apply publish_rel.
  - apply run_one_step_rel. by intros ? [= <-].
Qed.
End engine_rel.
End EngineRel.
