(* ===== verification/EnginePark.v ===== *)
(** Time in the engine: chunks that arrive before their session is announced, and
    sessions that are too young to be disposed of.

    [HandlerRel] is the interface for facts on the engine's books (clock, session
    metadata, tombstones and parked chunks): it states the effects that touch them,
    and the walk through every handler is made once, in [event_hrel] and the lemmas
    on the other operations.  [on_chunk] parks a chunk of an unknown session, and
    the [SessionOpen] replays what is parked; [waiting] is the state in between, and
    [waiting_run] says that it lasts through any operations but the opening of the
    session: the chunks that arrive are parked in order, as long as there are at most
    32 of them and the clock does not leave the time for which they are kept.
    [young_run] says that in that time no session is disposed of. *)
From Stdlib Require Import NArith Lia.
From stdpp Require Import base gmap option strings list.
From S2P Require Import Prelude BitMap Strategy Session Channel Runtime Engine.
From S2P Require Import EngineInv EngineRel.

Open Scope N_scope.

(** A clock that shows times from [t] to [t + w] while it is [held]. *)
Class Within {CT : Type} `{!Clock CT} (held : CT → Prop) (t w : N) : Prop :=
  within c : held c →
    t ≤ fst (clock_now c) ∧ fst (clock_now c) ≤ t + w ∧ held (snd (clock_now c)).

(** ** The effects on the books *)
Module HandlerRel.
Import Engine EngineLemmas DrainRel.
Section handler_rel.
Context {S DE NT CT DT : Type}.
Context `{!Strategy S N BitMap DE, !DrainBound S}.
Context `{!Net NT, !Clock CT, !DeliverySink DeliveredMessage DT}.
Implicit Type e : Engine S NT CT DT.

(** [Q ch m] says that session [m] on [ch] may be opened and have chunks parked. *)
Class HandlerRel (Q : string → string → Prop)
    (R : Engine S NT CT DT → Engine S NT CT DT → Prop) : Prop := {
  hr_po :: PreOrder R;
  hr_same e e' :
    clock e' = clock e → config e' = config e → session_meta e' = session_meta e →
    tombstones e' = tombstones e → parked_chunks e' = parked_chunks e → R e e';
  hr_created ch m e : R e (record_session_created ch m e);
  hr_mark ch m e : R e (mark_session_terminal ch m e);
  hr_park ch m i d e : Q ch m → R e (park_chunk ch m i d e);
  hr_unpark ch m e : Q ch m → R e (set_parked_chunks (delete (ch, m) (parked_chunks e)) e)
}.

Context (Q : string → string → Prop).
Context (R : Engine S NT CT DT → Engine S NT CT DT → Prop) `{!HandlerRel Q R}.

Lemma send_hrel msg e : R e (snd (send msg e)).
Proof. apply hr_same; unfold send; by destruct (net_send msg (net e)). Qed.

#[export] Instance hrel_drain : DrainRel R.
Proof. split; try (intros; by apply hr_same); [apply _|]. intros msg e _. apply send_hrel. Qed.

Lemma decode_hrel ch m e : R e (maybe_decode_and_deliver ch m e).
Proof.
  unfold maybe_decode_and_deliver. destruct (lookup_session e ch m) as [s|]; [|done].
  destruct (Session.decode_and_finish s) as [r s'].
  set (e1 := update_session ch m s' e).
  assert (R e (mark_session_terminal ch m e1)) as H1
    by (etrans; [|apply hr_mark]; by apply hr_same).
  destruct r as [p|err]; [|done]. destruct (try_send _ _) as [r d].
  etrans; [exact H1|]. etrans; [|apply send_hrel]. by apply hr_same.
Qed.

Lemma take_hrel ch m i d e : R e (snd (channel_take_chunk ch m i d e)).
Proof.
  unfold channel_take_chunk. destruct (channels e !! ch) as [c|]; [|done].
  destruct (Channel.take_chunk m i d c). by apply hr_same.
Qed.

Lemma replay_chunks_hrel ch m l b e : R e (snd (replay_chunks ch m l b e)).
Proof.
  revert b e; induction l as [|c l IH]; intros b e; [done|]. cbn [replay_chunks].
  pose proof (take_hrel ch m (pk_chunk_id c) (pk_payload c) e) as Ht.
  destruct (channel_take_chunk _ _ _ _ e) as [b1 e1]. etrans; [exact Ht|apply IH].
Qed.

Lemma finish_hrel ch m (b : bool) e :
  R e (let e1 := sm_exec (drain_session ch m) e in
       if b then maybe_decode_and_deliver ch m e1 else e1).
Proof.
  cbv zeta. etrans; [apply (drain_session_rel R ch m)|]. destruct b; [apply decode_hrel|done].
Qed.

Lemma replay_hrel ch m e : Q ch m → R e (replay_parked_chunks ch m e).
Proof.
  intros HQ. unfold replay_parked_chunks. destruct (parked_chunks e !! (ch, m)) as [l|]; [|done].
  etrans; [by apply (hr_unpark ch m)|]. set (e1 := set_parked_chunks _ e).
  pose proof (replay_chunks_hrel ch m l false e1) as H2.
  destruct (replay_chunks ch m l false e1) as [b e2]. etrans; [exact H2|]. apply finish_hrel.
Qed.

Lemma open_hrel ch m pre e : Q ch m → R e (on_session_open ch m pre e).
Proof.
  intros HQ. unfold on_session_open. destruct (is_tombstoned e ch m); [done|].
  destruct (channels e !! ch) as [c|]; [|done].
  destruct (Channel.open_session m pre c) as [[[]|err] c']; [|by apply hr_same]. cbv zeta.
  set (e1 := set_session_preambles _ _). assert (R e e1) as H1 by by apply hr_same.
  etrans; [exact H1|]. etrans; [apply (hr_created ch m)|].
  etrans; [apply (drain_session_rel R ch m)|]. by apply replay_hrel.
Qed.

Lemma chunk_hrel ch m i d e : Q ch m → R e (on_chunk ch m i d e).
Proof.
  intros HQ. unfold on_chunk. destruct (is_tombstoned e ch m); [done|].
  destruct (lookup_session e ch m); [|by apply hr_park].
  pose proof (take_hrel ch m i d e) as Ht.
  destruct (channel_take_chunk ch m i d e) as [b e1]. etrans; [exact Ht|]. apply finish_hrel.
Qed.

Lemma handshake_hrel p v l e : R e (on_handshake p v l e).
Proof.
  unfold on_handshake. case_decide; [|by apply hr_same].
  trans (set_connected ({[p]} ∪ connected e) e); [by apply hr_same|].
  generalize (set_connected ({[p]} ∪ connected e) e). clear e.
  induction l as [|ch l IH]; intros e; [done|]. simpl.
  trans (subscribe_to ch p e); [by apply hr_same|].
  etrans; [apply (drain_channel_rel R ch)|apply IH].
Qed.

Lemma register_hrel p e : R e (sm_exec (register_peer_and_handshake p) e).
Proof.
  unfold sm_exec, register_peer_and_handshake. case_decide; [done|].
  etrans; [|apply send_hrel]. by apply hr_same.
Qed.

Lemma resolve_hrel p ch m t b e : R e (resolve_chunk_send p ch m t b e).
Proof.
  unfold resolve_chunk_send. destruct (pending_sends e !! (ch, m, t)); [|done].
  etrans; [|apply (drain_session_rel R ch m)].
  set (e1 := set_pending_sends _ e). destruct (lookup_session e1 ch m); by apply hr_same.
Qed.

Lemma detach_hrel ch m p b e : R e (detach_session_peer ch m p b e).
Proof.
  unfold detach_session_peer. destruct (lookup_session e ch m); [|done]. by apply hr_same.
Qed.

(** The events that need [Q]. *)
Definition event_books (ev : NetEvent.t) : Prop :=
  match ev with
  | NetEvent.SessionOpen _ ch m _ _ | NetEvent.Chunk _ ch m _ _ => Q ch m
  | _ => True
  end.

Lemma event_hrel ev e : event_books ev → R e (handle_event ev e).
Proof.
  destruct ev as [p v l s|p ch|p ch|p ch m pre iu|p ch m pl|p ch m i d|p|p|
    p ch m t b|p ch m|p ch m]; cbn [handle_event event_books]; intros HQ.
  - apply handshake_hrel.
  - trans (subscribe_to ch p e); [by apply hr_same|]. apply (drain_channel_rel R ch).
  - by apply hr_same.
  - by apply open_hrel.
  - done.
  - by apply chunk_hrel.
  - by apply hr_same.
  - apply register_hrel.
  - apply resolve_hrel.
  - apply detach_hrel.
  - apply detach_hrel.
Qed.

Lemma subscribe_op_hrel ch f e : R e (sm_exec (subscribe ch f) e).
Proof.
  unfold sm_exec, subscribe. set (e1 := if contains_key (channels e) ch then _ else _).
  trans e1; [unfold e1; destruct (contains_key _ _); [done|by apply hr_same]|].
  apply (sm_for_rel R). intros p e2. apply send_hrel.
Qed.

Lemma publish_hrel ch m x pre e : R e (sm_exec (publish ch m x pre) e).
Proof.
  unfold sm_exec, publish. destruct (channels e !! ch) as [c|]; [|done].
  destruct (Channel.start_origin_session m x c) as [[[]|err] c']; [|by apply hr_same]. cbv zeta.
  set (e1 := record_session_created _ _ _).
  assert (R e e1) as H1 by (etrans; [|apply hr_created]; by apply hr_same).
  etrans; [exact H1|]. unfold mbind, SM_bind.
  pose proof (sm_for_rel R (ensure_session_open ch m) (bt_elements (subscribers c')) e1
    (ensure_rel R ch m)) as H2.
  destruct (sm_for _ _ e1) as [[[]|err] e2]; [|exact H2].
  etrans; [exact H2|]. apply (drain_session_rel R).
Qed.
End handler_rel.

(** The configuration of an engine stays. *)
Section config.
Context {S DE NT CT DT : Type}.
Context `{!Strategy S N BitMap DE, !DrainBound S}.
Context `{!Net NT, !Clock CT, !DeliverySink DeliveredMessage DT}.
Implicit Type e : Engine S NT CT DT.

Lemma run_cleanup_books t e :
  clock (run_cleanup t e) = clock e ∧ config (run_cleanup t e) = config e.
Proof.
  unfold run_cleanup. cbv zeta.
  generalize (fst <$> filter (λ km, expired (config e) t km.2) (map_to_list (session_meta e))).
  intros keys. cbn. revert e; induction keys as [|k keys IH]; intros e; [done|]. cbn.
  destruct (IH (dispose_session k.1 k.2 t e)) as [-> ->]. by split.
Qed.

#[local] Instance config_hrel : HandlerRel (λ _ _, True) (λ e e', config e' = config e).
Proof.
  split.
  - split; [by intros e|]. intros e1 e2 e3 H1 H2. by rewrite H2.
  - by intros e e' _ Hc _ _ _.
  - intros ch m e. unfold record_session_created, now.
    destruct (contains_key _ _); [done|]. by destruct (clock_now (clock e)).
  - intros ch m e. unfold mark_session_terminal, now.
    destruct (session_meta e !! (ch, m)) as [[? []]|]; simpl; try done.
    by destruct (clock_now (clock e)).
  - intros ch m i d e _. unfold park_chunk, now. by destruct (clock_now (clock e)).
  - done.
Qed.

Lemma run_config os e : config (run os e) = config e.
Proof.
  revert e; induction os as [|o os IH]; intros e; [done|].
  change (run (o :: os) e) with (run os (exec o e)). rewrite IH.
  destruct o as [ch' f|p|ch' m' x pre|ev]; cbn [exec].
  - apply (subscribe_op_hrel (λ _ _, True) (λ e e', config e' = config e)).
  - apply (register_hrel (λ _ _, True) (λ e e', config e' = config e)).
  - apply (publish_hrel (λ _ _, True) (λ e e', config e' = config e)).
  - cbn [run_one_step snd]. rewrite <- (event_hrel (λ _ _, True) (λ e e', config e' = config e) ev e)
      by by destruct ev.
    unfold maybe_run_cleanup, now. destruct (clock_now _). case_decide; [done|].
    by rewrite (proj2 (run_cleanup_books _ _)).
Qed.
End config.
End HandlerRel.

Module Parking.
Import Engine EngineLemmas HandlerRel.
Section parking.
Context {S DE NT CT DT : Type}.
Context `{!Strategy S N BitMap DE, !DrainBound S}.
Context `{!Net NT, !Clock CT, !DeliverySink DeliveredMessage DT}.
Context (ch m : string).
Implicit Type e : Engine S NT CT DT.

(** The chunks of the session that are parked. *)
Definition contents (buf : list ParkedChunk) : list (N * bytes) :=
  (λ c, (pk_chunk_id c, pk_payload c)) <$> buf.
Definition parked_of e : list (N * bytes) :=
  contents (default [] (parked_chunks e !! (ch, m))).

(** What an operation brings of the session's chunks, and whether it may open it. *)
Definition arrival (o : op (S:=S)) : option (N * bytes) :=
  match o with
  | Step (NetEvent.Chunk _ ch' m' i d) => if decide ((ch', m') = (ch, m)) then Some (i, d) else None
  | _ => None
  end.
Definition quiet (o : op (S:=S)) : Prop :=
  match o with
  | Step (NetEvent.SessionOpen _ ch' m' _ _) | Publish ch' m' _ _ => (ch', m') ≠ (ch, m)
  | _ => True
  end.

Context (held : CT → Prop) (time : N) `{!Within held time PARKED_CHUNK_TTL}.

Lemma now_held e :
  held (clock e) → let '(t, e') := now e in
  time ≤ t ∧ t ≤ time + PARKED_CHUNK_TTL ∧ held (clock e') ∧ e' = set_clock (clock e') e.
Proof.
  unfold now. intros Hh. pose proof (within (clock e) Hh) as (? & ? & ?).
  destruct (clock_now (clock e)). by split_and!.
Qed.

(** ** What the operations on other sessions leave alone *)

Record untouched e e' : Prop := {
  un_parked : parked_chunks e' !! (ch, m) = parked_chunks e !! (ch, m);
  un_clock : held (clock e) → held (clock e')
}.

Lemma now_untouched e : untouched e (snd (now e)).
Proof.
  unfold now. pose proof (within (clock e)) as Hw. destruct (clock_now (clock e)).
  split; [done|]. intros Hh. by apply Hw.
Qed.

#[export] Instance untouched_hrel : HandlerRel (λ ch' m', (ch', m') ≠ (ch, m)) untouched.
Proof.
  assert (PreOrder untouched) as Hpo
    by (split; [by split|]; intros ??? [??] [??]; split; [congruence|auto]).
  split; [done|..].
  - intros e e' Hc _ _ _ Hp. split; [by rewrite Hp|by rewrite Hc].
  - intros ch' m' e. unfold record_session_created. destruct (contains_key _ _); [done|].
    pose proof (now_untouched e). destruct (now e). etrans; [done|]. by split.
  - intros ch' m' e. unfold mark_session_terminal.
    destruct (session_meta e !! (ch', m')) as [[? []]|]; simpl; try done.
    pose proof (now_untouched e). destruct (now e). etrans; [done|]. by split.
  - intros ch' m' i d e Hne. unfold park_chunk. pose proof (now_untouched e).
    destruct (now e) as [t e1]. etrans; [done|]. split; [by apply lookup_insert_ne|done].
  - intros ch' m' e Hne. split; [by apply lookup_delete_ne|done].
Qed.

(** ** A session that is waited for *)

(** Every event, except an open or a chunk of the session. *)
Lemma event_untouched ev e :
  quiet (Step ev) → arrival (Step ev) = None → untouched e (handle_event ev e).
Proof.
  intros Hq Ha. apply (event_hrel (λ ch' m', (ch', m') ≠ (ch, m)) untouched).
  destruct ev; try done. cbn in *. by case_decide.
Qed.

(** The session is not there yet, and the chunks [l] of it are parked. *)
Record waiting (l : list (N * bytes)) e : Prop := {
  wa_session : lookup_session e ch m = None;
  wa_parked : parked_of e = l;
  wa_since c : c ∈ default [] (parked_chunks e !! (ch, m)) → time ≤ parked_at c;
  wa_clock : held (clock e)
}.

Lemma waiting_untouched l e e' :
  waiting l e → untouched e e' → lookup_session e' ch m = None → waiting l e'.
Proof.
  intros [_ Hp Hs Hc] [Hu Hk] Hl. split; [done|unfold parked_of; by rewrite Hu|by rewrite Hu|auto].
Qed.

(** A chunk joins those that are parked. *)
Lemma waiting_chunk l p i d e :
  waiting l e → tombstones e !! (ch, m) = None →
  (length l < MAX_PARKED_CHUNKS_PER_MESSAGE)%nat →
  waiting (l ++ [(i, d)]) (handle_event (NetEvent.Chunk p ch m i d) e).
Proof.
  intros [Hl Hp Hs Hc] Ht Hlen. cbn [handle_event]. unfold on_chunk, is_tombstoned.
  rewrite (proj2 (contains_key_false _ _)), Hl by done. unfold park_chunk, now.
  destruct (within (clock e) Hc) as (Hlo & _ & Hc'). destruct (clock_now (clock e)) as [t ck].
  cbn [fst snd] in *. rewrite <- Hp in *. unfold parked_of, contents in *.
  rewrite length_fmap in Hlen. cbn [set_clock parked_chunks].
  rewrite decide_False by lia. split; [exact Hl| | |exact Hc'].
  - unfold parked_of, contents. cbn [set_parked_chunks parked_chunks]. rewrite lookup_insert_eq.
    cbn [default from_option id]. by rewrite fmap_app.
  - cbn [set_parked_chunks parked_chunks]. rewrite lookup_insert_eq. cbn [default from_option id].
    intros c [Hin|Hin]%elem_of_app; [by apply Hs|].
    apply list_elem_of_singleton in Hin. by subst c.
Qed.

(** Nothing that was parked since [time] is old enough for a sweep. *)
Lemma fresh_all t (buf : list ParkedChunk) :
  (∀ c, c ∈ buf → time ≤ parked_at c) → t ≤ time + PARKED_CHUNK_TTL → fresh t buf = buf.
Proof.
  intros Hs Ht. unfold fresh. induction buf as [|c buf IH]; [done|].
  rewrite filter_cons_True, IH; [done|intros x Hx; apply Hs; by right|].
  assert (time ≤ parked_at c) by (apply Hs; left). unfold saturating_duration_since. lia.
Qed.

(** A sweep keeps what is parked. *)
Lemma cleanup_waiting l e : coherent e → waiting l e → waiting l (maybe_run_cleanup e).
Proof.
  intros Hco [Hl Hp Hs Hc]. unfold maybe_run_cleanup.
  pose proof (now_untouched e) as [Hu _]. pose proof (now_evolves e) as Hev. unfold now in *.
  destruct (within (clock e) Hc) as (_ & Hhi & Hc'). destruct (clock_now (clock e)) as [t ck].
  cbn [fst snd] in *. set (e1 := set_clock ck e) in *.
  case_decide; [by split|]. set (e2 := set_next_cleanup _ e1).
  assert (coherent e2) as Hco2 by (pose proof (evolves_coherent _ _ Hco Hev) as []; by split).
  destruct (run_cleanup_spec t e2 Hco2) as (_ & Hls & _ & _ & Hpk).
  assert (parked_chunks (run_cleanup t e2) !! (ch, m) = parked_chunks e !! (ch, m)) as Hsame.
  { apply option_eq. intros buf. rewrite Hpk. change (parked_chunks e2) with (parked_chunks e).
    split.
    - intros (_ & _ & l0 & Hl0 & ->). rewrite Hl0 in *. by rewrite (fresh_all t l0 Hs Hhi).
    - intros Hb. rewrite Hb in Hs. destruct (co_parked e Hco ch m buf Hb) as [[Hlen _] _].
      split; [|split; [destruct buf; simpl in Hlen; [lia|done]|exists buf; split; [done|]]].
      + intros (mt & Hmt & _)%elem_of_expired_keys.
        assert (live e ch m) as [s Hlv] by (apply (co_meta e Hco); by exists mt). congruence.
      + by rewrite (fresh_all t buf Hs Hhi). }
  split.
  - rewrite Hls. by case_decide.
  - unfold parked_of. by rewrite Hsame.
  - by rewrite Hsame.
  - by rewrite (proj1 (run_cleanup_books t e2)).
Qed.

Lemma waiting_exec o l e :
  coherent e → tombstones e !! (ch, m) = None → quiet o → waiting l e →
  (length l + length (option_list (arrival o)) ≤ MAX_PARKED_CHUNKS_PER_MESSAGE)%nat →
  waiting (l ++ option_list (arrival o)) (exec o e).
Proof.
  intros Hco Ht Hq Hw Hlen.
  assert (∀ e', ¬ live e' ch m → lookup_session e' ch m = None) as Hnot.
  { intros e' He'. apply eq_None_not_Some. exact He'. }
  assert (¬ live e ch m) as Hdead by (unfold live; rewrite (wa_session _ _ Hw); by intros []).
  destruct o as [ch' f|p|ch' m' x pre|ev]; cbn [exec].
  - rewrite app_nil_r. eapply waiting_untouched; [done|apply (subscribe_op_hrel _ untouched)|].
    apply Hnot. by rewrite (proj2 (proj2 (subscribe_keeps ch' f e Hco))).
  - rewrite app_nil_r. eapply waiting_untouched; [done|apply (register_hrel _ untouched)|].
    apply Hnot. by rewrite (proj2 (proj2 (register_peer_keeps p e Hco))).
  - rewrite app_nil_r. eapply waiting_untouched; [done|apply (publish_hrel _ untouched)|].
    apply Hnot. intros Hl'. destruct (publish_opens ch' m' x pre e Hco) as (_ & _ & Ho).
    destruct (proj2 (Ho ch m) Hl') as [|Heq]; [done|]. by apply Hq.
  - cbn [run_one_step snd]. apply cleanup_waiting; [by apply handle_event_coherent|].
    destruct (arrival (Step ev)) as [[i d]|] eqn:Ha.
    + destruct ev; try done. cbn [arrival] in Ha. case_decide as Hd; [|done].
      injection Hd as -> ->. injection Ha as -> ->. apply waiting_chunk; [done..|simpl in Hlen; lia].
    + rewrite app_nil_r. eapply waiting_untouched; [done|by apply event_untouched|].
      apply Hnot. intros Hl'. destruct (handle_event_live ev e ch m Hco Hl') as [|(_ & q & pre & iu & ->)];
        [done|]. by apply Hq.
Qed.

(** The chunks that arrive before the open are parked, in order. *)
Lemma waiting_run os l e :
  coherent e → (∀ os1, os1 `prefix_of` os → tombstones (run os1 e) !! (ch, m) = None) →
  Forall quiet os → waiting l e →
  (length l + length (omap arrival os) ≤ MAX_PARKED_CHUNKS_PER_MESSAGE)%nat →
  waiting (l ++ omap arrival os) (run os e).
Proof.
  revert l e; induction os as [|o os IH]; intros l e Hco Ht Hq Hw Hlen.
  { by rewrite app_nil_r. }
  inversion_clear Hq as [|? ? Ho Hos].
  assert (omap arrival (o :: os) = option_list (arrival o) ++ omap arrival os) as Heq
    by (cbn; by destruct (arrival o)).
  rewrite Heq in *. rewrite length_app in Hlen. rewrite app_assoc.
  apply IH; [by apply exec_coherent| |done| |rewrite length_app; lia].
  - intros os1 Hp. apply (Ht (o :: os1)). by apply prefix_cons.
  - apply waiting_exec; [done|apply (Ht []); apply prefix_nil|done|done|lia].
Qed.

(** ** A session that is too young to be disposed of *)

Context (cfg : EngineConfig).

Record young e : Prop := {
  yo_clock : held (clock e);
  yo_config : config e = cfg;
  yo_tombstone : tombstones e !! (ch, m) = None;
  yo_meta mt : session_meta e !! (ch, m) = Some mt →
    time ≤ created_at mt ∧ ∀ t, terminal_at mt = Some t → time ≤ t
}.

#[export] Instance young_hrel : HandlerRel (λ _ _, True) (λ e e', young e → young e').
Proof.
  split.
  - split; [by intros e|]. intros e1 e2 e3 H1 H2 ?. by apply H2, H1.
  - intros e e' Hc Hf Hm Ht _ []. split; rewrite ?Hc, ?Hf, ?Hm, ?Ht; done.
  - intros ch' m' e [Hc Hf Ht Hm]. unfold record_session_created.
    destruct (contains_key _ _); [done|]. pose proof (now_held e Hc) as Hn.
    destruct (now e) as [t e1]. destruct Hn as (Hlo & _ & Hc1 & ->). split; try done.
    intros mt. cbn. intros [[_ <-]|[_ Hmt]]%lookup_insert_Some; [by split|by apply Hm].
  - intros ch' m' e [Hc Hf Ht Hm]. unfold mark_session_terminal.
    destruct (session_meta e !! (ch', m')) as [[cr [te|]]|] eqn:Hmt; simpl; try done.
    pose proof (now_held e Hc) as Hn.
    destruct (now e) as [t e1]. destruct Hn as (Hlo & _ & Hc1 & ->). split; try done.
    intros mt. cbn. intros [[Hk <-]|[_ Hmt']]%lookup_insert_Some; [|by apply Hm]. rewrite Hk in Hmt.
    destruct (Hm _ Hmt) as [Hcr _]. split; [exact Hcr|]. by intros u [= <-].
  - intros ch' m' i d e _ [Hc Hf Ht Hm]. unfold park_chunk. pose proof (now_held e Hc) as Hn.
    destruct (now e) as [t e1]. by destruct Hn as (_ & _ & Hc1 & ->).
  - by intros ch' m' e _ [].
Qed.

Hypothesis slow : PARKED_CHUNK_TTL ≤ active_session_ttl cfg ∧ PARKED_CHUNK_TTL ≤ reconstructed_linger cfg.

Lemma cleanup_young e : coherent e → young e → young (maybe_run_cleanup e).
Proof.
  intros Hco [Hc Hf Ht Hm]. unfold maybe_run_cleanup.
  pose proof (now_held e Hc) as Hn. pose proof (now_evolves e) as Hev.
  destruct (now e) as [t e1]. cbn [snd] in Hev. destruct Hn as (Hlo & Hhi & Hc1 & He1).
  rewrite He1 in *. case_decide; [done|]. set (e2 := set_next_cleanup _ _).
  assert (coherent e2) as Hco2 by (pose proof (evolves_coherent _ _ Hco Hev) as []; by split).
  destruct (run_cleanup_spec t e2 Hco2) as (_ & _ & Hmeta & Htomb & _).
  destruct (run_cleanup_books t e2) as [Hck Hcfg].
  assert ((ch, m) ∉ expired_keys t e2) as Hno.
  { intros (mt & Hmt & Hx)%elem_of_expired_keys. apply expired_true in Hx.
    change (config e2) with (config e) in Hx. rewrite Hf in Hx.
    destruct (Hm mt Hmt) as [Hcr Hte]. destruct Hx as [Hx|(u & Hu & Hx)]; [lia|].
    specialize (Hte u Hu). lia. }
  split; [by rewrite Hck|by rewrite Hcfg| |].
  - apply eq_None_not_Some. intros [a Ha]. apply Htomb in Ha as [Ha _].
    rewrite decide_False in Ha by done. change (tombstones e2) with (tombstones e) in Ha. congruence.
  - intros mt. rewrite Hmeta, decide_False by done. apply Hm.
Qed.

(** For as long as that no session is disposed of. *)
Lemma young_run os e : coherent e → young e → young (run os e).
Proof.
  revert e; induction os as [|o os IH]; intros e Hco Hy; [done|].
  apply IH; [by apply exec_coherent|]. destruct o as [ch' f|p|ch' m' x pre|ev]; cbn [exec].
  - revert Hy. apply (subscribe_op_hrel (λ _ _, True) (λ e e', young e → young e')).
  - revert Hy. apply (register_hrel (λ _ _, True) (λ e e', young e → young e')).
  - revert Hy. apply (publish_hrel (λ _ _, True) (λ e e', young e → young e')).
  - cbn [run_one_step snd]. apply cleanup_young; [by apply handle_event_coherent|].
    revert Hy. apply (event_hrel (λ _ _, True) (λ e e', young e → young e')). by destruct ev.
Qed.

Lemma young_start e :
  coherent e → held (clock e) → config e = cfg → tombstones e !! (ch, m) = None →
  lookup_session e ch m = None → young e.
Proof.
  intros Hco Hc Hf Ht Hl. split; try done. intros mt Hmt.
  assert (live e ch m) as [s Hs] by (apply (co_meta e Hco); by exists mt). congruence.
Qed.
End parking.
End Parking.
