(* ===== verification/EngineSend.v ===== *)
(** What the engine sends: on every session, to every peer, one [SessionOpen]
    comes first, is never repeated while it stands, and precedes every routing
    update and every chunk.

    The network is an arbitrary one with a log of the sends and of whether they
    were accepted; [sess_check] replays a log against the set of peers that
    have been sent an open. *)
From Stdlib Require Import NArith Lia.
From stdpp Require Import base gmap option strings list.
From S2P Require Import Prelude BitMap Strategy Session Channel Runtime Engine EngineInv.

Open Scope N_scope.

(** A network with a log. *)
Record Logged (NT : Type) := mkLogged {
  inner : NT;
  log : list (NetSend * bool)
}.
Arguments mkLogged {NT} inner log.
Arguments inner {NT} _.
Arguments log {NT} _.

#[export] Instance Net_Logged `{Net NT} : Net (Logged NT) := λ msg n,
  let '(r, i) := net_send msg (inner n) in (r, mkLogged i (log n ++ [(msg, is_ok r)])).

Module SessProtocol.
Import Engine EngineLemmas.

(** The peers that have been sent a [SessionOpen], per session. *)
Abbreviation Opens := (gmap (string * string) (gset N)) (only parsing).

Definition opened (o : Opens) (ch m : string) (p : N) : bool :=
  match o !! (ch, m) with Some s => bool_decide (p ∈ s) | None => false end.

Definition sess_step (o : Opens) (msg : NetSend) (ok : bool) : option Opens :=
  match msg with
  | SendSessionOpen p ch m _ _ =>
      if opened o ch m p then None
      else Some (if ok then <[(ch, m) := {[p]} ∪ default ∅ (o !! (ch, m))]> o else o)
  | SendRoutingUpdate p ch m _ => if opened o ch m p then Some o else None
  | SendChunk p ch m _ _ _ => if opened o ch m p then Some o else None
  | _ => Some o
  end.

Fixpoint sess_check (o : Opens) (l : list (NetSend * bool)) : option Opens :=
  match l with
  | [] => Some o
  | (msg, ok) :: l => o ← sess_step o msg ok; sess_check o l
  end.

Lemma sess_check_app o l1 l2 :
  sess_check o (l1 ++ l2) = (sess_check o l1 ≫= λ o, sess_check o l2).
Proof.
  revert o; induction l1 as [|[msg ok] l1 IH]; intros o; [done|]. simpl.
  destruct (sess_step o msg ok); simpl; [apply IH|done].
Qed.

Section lemmas.
Context {S DE NT CT DT : Type}.
Context `{!Strategy S N BitMap DE, !DrainBound S}.
Context `{!Net NT, !Clock CT, !DeliverySink DeliveredMessage DT}.
Implicit Type e : Engine S (Logged NT) CT DT.

(** The sends made on the way from [e] to [e'] obey the protocol. *)
Definition emits e e' : Prop :=
  ∃ l, log (net e') = log (net e) ++ l ∧
    sess_check (opened_to e) l = Some (opened_to e').

#[export] Instance emits_po : PreOrder emits.
Proof.
  split.
  - intros e. exists []. by rewrite app_nil_r.
  - intros e1 e2 e3 (l1 & H1 & C1) (l2 & H2 & C2). exists (l1 ++ l2).
    rewrite H2, H1, app_assoc, sess_check_app, C1. done.
Qed.

Lemma emits_silent e e' :
  net e' = net e → opened_to e' = opened_to e → emits e e'.
Proof. intros H1 H2. exists []. by rewrite H1, H2, app_nil_r. Qed.

Lemma send_log msg e :
  ∃ r, send msg e = (map_err NetErr r, set_net (net (sm_exec (send msg) e)) e) ∧
    log (net (sm_exec (send msg) e)) = log (net e) ++ [(msg, is_ok r)].
Proof.
  unfold sm_exec, send, net_send, Net_Logged. cbn [snd].
  destruct (net_send msg (inner (net e))) as [r n]. by exists r.
Qed.

(** A send the protocol allows. *)
Lemma send_emits msg e :
  (∀ ok, sess_step (opened_to e) msg ok = Some (opened_to e)) →
  emits e (sm_exec (send msg) e).
Proof.
  intros Hs. destruct (send_log msg e) as (r & Heq & Hlog).
  exists [(msg, is_ok r)]. split; [done|]. cbn [sess_check]. rewrite Hs.
  unfold sm_exec at 1. by rewrite Heq.
Qed.

Lemma is_opened_to_opened e ch m p :
  is_opened_to e ch m p = opened (opened_to e) ch m p.
Proof. done. Qed.

(** After a successful [ensure_session_open] the peer is opened. *)
Lemma ensure_session_open_emits ch m p e :
  let '(r, e') := ensure_session_open ch m p e in
  emits e e' ∧
  (is_Some (session_preambles e !! (ch, m)) → r = Ok () →
   opened (opened_to e') ch m p = true).
Proof.
  unfold ensure_session_open. rewrite is_opened_to_opened.
  destruct (opened (opened_to e) ch m p) eqn:Ho; [done|].
  destruct (session_preambles e !! (ch, m)) as [pre|]; [|by split; [|intros []]].
  set (msg := SendSessionOpen p ch m pre []).
  destruct (send_log msg e) as (r & Heq & Hlog). rewrite Heq.
  destruct r as [[]|err]; cbn [map_err is_ok] in *.
  - split.
    + exists [(msg, true)]. split; [done|]. unfold msg.
      cbn [sess_check sess_step]. by rewrite Ho.
    + intros _ _. unfold opened. cbn [set_opened_to set_net opened_to]. rewrite lookup_insert_eq.
      apply bool_decide_eq_true. set_solver.
  - split; [|done]. exists [(msg, false)]. split; [done|]. unfold msg.
    cbn [sess_check sess_step]. by rewrite Ho.
Qed.

Lemma sm_for_emits {A} (f : A → SM (Engine S (Logged NT) CT DT) EngineError unit) l
    (P : Engine S (Logged NT) CT DT → Prop) e :
  (∀ a e, P e → emits e (sm_exec (f a) e) ∧ P (sm_exec (f a) e)) →
  P e → emits e (sm_exec (sm_for f l) e) ∧ P (sm_exec (sm_for f l) e).
Proof.
  unfold sm_exec. intros Hf. revert e; induction l as [|a l IH]; intros e HP; [done|].
  cbn [sm_for]. unfold mbind, SM_bind. pose proof (Hf a e HP) as [Ha HPa].
  destruct (f a e) as [[[]|err] e1]; [|done]. cbn [snd] in *.
  destruct (IH e1 HPa) as [H1 H2]. split; [by etrans|done].
Qed.

Lemma send_dispatches_emits ch m ds b e :
  live e ch m → is_Some (session_preambles e !! (ch, m)) →
  emits e (sm_exec (send_dispatches ch m ds b) e).
Proof.
  unfold sm_exec. revert b e; induction ds as [|d ds IH]; intros b e Hl Hp; [done|].
  cbn [send_dispatches]. pose proof (ensure_session_open_emits ch m (d_peer d) e) as He.
  pose proof (ensure_session_open_evolves ch m (d_peer d) e) as Hv. unfold sm_exec in Hv.
  destruct (ensure_session_open ch m (d_peer d) e) as [[[]|err] e1]; [|by destruct He].
  destruct He as [He Ho]. specialize (Ho Hp eq_refl). cbn [snd] in Hv.
  set (msg := SendChunk _ _ _ _ _ _).
  pose proof (send_evolves msg e1) as Hv2.
  assert (emits e1 (sm_exec (send msg) e1)) as Hm.
  { apply send_emits. intros ok. unfold msg. cbn [sess_step]. by rewrite Ho. }
  unfold sm_exec in Hv2, Hm. destruct (send msg e1) as [r e2]. cbn [snd] in Hv2, Hm.
  assert (live e2 ch m) as Hl2 by by apply (ev_live _ _ Hv2), (ev_live _ _ Hv).
  assert (is_Some (session_preambles e2 !! (ch, m))) as Hp2.
  { rewrite (ev_preambles _ _ Hv2), (ev_preambles _ _ Hv). done. }
  etrans; [exact He|]. etrans; [exact Hm|]. destruct r as [[]|err].
  - etrans; [|by apply IH]. by apply emits_silent.
  - destruct Hl2 as [s Hls]. rewrite Hls.
    match goal with |- context [update_session ch m ?s' e2] =>
      pose proof (update_session_evolves e2 ch m s s' Hls) as Hu end.
    etrans; [|apply IH]; [by apply emits_silent| |by rewrite (ev_preambles _ _ Hu)].
    apply (ev_live _ _ Hu). by exists s.
Qed.

Lemma send_routing_emits ch m payload subs e :
  is_Some (session_preambles e !! (ch, m)) →
  emits e (sm_exec (send_routing ch m payload subs) e).
Proof.
  intros Hp. apply (sm_for_emits _ _ (λ e, is_Some (session_preambles e !! (ch, m)))); [|done].
  clear e Hp. intros p e Hp. unfold sm_exec, mbind, SM_bind.
  pose proof (ensure_session_open_emits ch m p e) as He.
  pose proof (ensure_session_open_evolves ch m p e) as Hv. unfold sm_exec in Hv.
  destruct (ensure_session_open ch m p e) as [[[]|err] e1]; cbn [snd] in Hv.
  - destruct He as [He Ho]. specialize (Ho Hp eq_refl).
    set (msg := SendRoutingUpdate p ch m payload).
    pose proof (send_evolves msg e1) as Hv2. unfold sm_exec in Hv2.
    split; [|by rewrite (ev_preambles _ _ Hv2), (ev_preambles _ _ Hv)].
    etrans; [exact He|]. apply send_emits. intros ok. unfold msg. cbn [sess_step]. by rewrite Ho.
  - split; [apply He|]. cbn [snd]. by rewrite (ev_preambles _ _ Hv).
Qed.

Lemma drain_round_emits ch m e :
  coherent e → emits e (sm_exec (drain_round ch m) e).
Proof.
  intros He. unfold sm_exec, drain_round.
  destruct (lookup_session e ch m) as [s|] eqn:Hl; [|done].
  destruct (Session.poll s) as [work s'].
  pose proof (update_session_evolves e ch m s s' Hl) as Hu.
  set (e1 := update_session ch m s' e) in *.
  assert (live e1 ch m) as Hl1 by (apply (ev_live _ _ Hu); by exists s).
  assert (is_Some (session_preambles e1 !! (ch, m))) as Hp1.
  { rewrite (ev_preambles _ _ Hu). apply (co_preambles _ He). by exists s. }
  assert (emits e e1) as Hs by by apply emits_silent.
  set (subs := match channels e1 !! ch with Some _ => _ | None => _ end).
  assert (∀ payload, emits e (snd ((match payload with
            | Some r => send_routing ch m (BitMap.as_bytes r) subs
            | None => mret () end ≫= λ _,
          send_dispatches ch m (dispatches work) false ≫= λ stalled,
          mret (negb stalled)) e1))) as Hall.
  { intros payload. etrans; [exact Hs|]. unfold mbind, SM_bind.
    set (f := match payload with
            | Some r => send_routing ch m (BitMap.as_bytes r) subs
            | None => mret () end).
    assert (emits e1 (snd (f e1)) ∧ evolves e1 (snd (f e1))) as [Hr Hv].
    { destruct payload; [|done]. split; [by apply send_routing_emits|apply send_routing_evolves]. }
    destruct (f e1) as [[[]|err] e2]; [|done]. cbn [snd] in Hr, Hv.
    pose proof (send_dispatches_emits ch m (dispatches work) false e2) as Hd.
    unfold sm_exec in Hd. rewrite (ev_live _ _ Hv), (ev_preambles _ _ Hv) in Hd.
    specialize (Hd Hl1 Hp1).
    destruct (send_dispatches _ _ _ _ e2) as [[b|err] e3]; (etrans; [exact Hr|]); exact Hd. }
  destruct (routing work) as [r|], (dispatches work) as [|d ds];
    [exact (Hall (Some r))|exact (Hall (Some r))|exact Hs|exact (Hall None)].
Qed.

Lemma drain_loop_emits fuel ch m e r e' :
  coherent e → drain_loop fuel ch m e = Some (r, e') → emits e e'.
Proof.
  revert e; induction fuel as [|fuel IH]; intros e He; [done|]. cbn [drain_loop].
  pose proof (drain_round_emits ch m e He) as Hr.
  pose proof (drain_round_evolves ch m e) as Hv. unfold sm_exec in Hr, Hv.
  destruct (drain_round ch m e) as [[[]|err] e1]; cbn [snd] in Hr, Hv.
  - intros Hl. etrans; [exact Hr|]. eapply IH, Hl. by eapply evolves_coherent.
  - by intros [= _ <-].
  - by intros [= _ <-].
Qed.

Lemma drain_session_emits ch m e :
  coherent e → emits e (sm_exec (drain_session ch m) e).
Proof.
  intros He. unfold sm_exec, drain_session.
  destruct (drain_loop _ ch m e) as [[r e']|] eqn:Hl; [|done].
  by apply drain_loop_emits in Hl.
Qed.

Lemma drain_channel_emits ch e :
  coherent e → emits e (sm_exec (drain_channel ch) e).
Proof.
  intros He. unfold sm_exec, drain_channel. destruct (channels e !! ch) as [c|]; [|done].
  apply (sm_for_emits _ _ coherent); [|done]. clear e He c. intros m e He.
  split; [by apply drain_session_emits|]. by apply drain_session_keeps.
Qed.

(** ** Events *)

Lemma mark_session_terminal_silent ch m e :
  net (mark_session_terminal ch m e) = net e ∧
  opened_to (mark_session_terminal ch m e) = opened_to e.
Proof.
  unfold mark_session_terminal. destruct (session_meta e !! (ch, m)) as [[ca [ta|]]|];
    [done| |done]. simpl. unfold now. by destruct (clock_now (clock e)).
Qed.

Lemma maybe_decode_emits ch m e : emits e (maybe_decode_and_deliver ch m e).
Proof.
  unfold maybe_decode_and_deliver. destruct (lookup_session e ch m) as [s|]; [|done].
  destruct (Session.decode_and_finish s) as [r s'].
  destruct (mark_session_terminal_silent ch m (update_session ch m s' e)) as [Hn Ho].
  set (e1 := mark_session_terminal ch m (update_session ch m s' e)) in *.
  assert (emits e e1) as H1 by by apply emits_silent.
  destruct r as [p|err]; [|done]. destruct (try_send _ _) as [r' d].
  etrans; [exact H1|]. etrans; [|by apply send_emits]. by apply emits_silent.
Qed.

Lemma channel_take_chunk_silent ch m i d e :
  net (snd (channel_take_chunk ch m i d e)) = net e ∧
  opened_to (snd (channel_take_chunk ch m i d e)) = opened_to e.
Proof.
  unfold channel_take_chunk. destruct (channels e !! ch); [|done].
  by destruct (Channel.take_chunk _ _ _ _).
Qed.

Lemma replay_chunks_silent ch m l b e :
  net (snd (replay_chunks ch m l b e)) = net e ∧
  opened_to (snd (replay_chunks ch m l b e)) = opened_to e.
Proof.
  revert b e; induction l as [|c l IH]; intros b e; [done|]. cbn [replay_chunks].
  destruct (channel_take_chunk_silent ch m (pk_chunk_id c) (pk_payload c) e) as [H1 H2].
  destruct (channel_take_chunk _ _ _ _ e) as [b1 e1]. cbn [snd] in *.
  destruct (IH (b || b1) e1) as [H3 H4]. by rewrite H3, H4.
Qed.

Lemma replay_parked_emits ch m e :
  coherent e → emits e (replay_parked_chunks ch m e).
Proof.
  intros He. unfold replay_parked_chunks.
  destruct (parked_chunks e !! (ch, m)) as [l|] eqn:Hl; [|done].
  set (e1 := set_parked_chunks _ e).
  assert (coherent e1) as H1.
  { destruct He. split; try done. intros ch' m' l'. simpl.
    rewrite lookup_delete_Some. intros [_ ?]. eauto. }
  pose proof (replay_chunks_keeps ch m l false e1 H1) as H2.
  destruct (replay_chunks_silent ch m l false e1) as [Hn Ho].
  destruct (replay_chunks ch m l false e1) as [b e2]. cbn [snd] in *.
  assert (emits e (sm_exec (drain_session ch m) e2)) as H3.
  { etrans; [|apply drain_session_emits, H2]. by apply emits_silent. }
  destruct b; [|done]. etrans; [exact H3|]. apply maybe_decode_emits.
Qed.

Lemma on_chunk_emits ch m i d e : coherent e → emits e (on_chunk ch m i d e).
Proof.
  intros He. unfold on_chunk. destruct (is_tombstoned e ch m); [done|].
  destruct (lookup_session e ch m).
  - pose proof (channel_take_chunk_keeps ch m i d e He) as H1.
    destruct (channel_take_chunk_silent ch m i d e) as [Hn Ho].
    destruct (channel_take_chunk ch m i d e) as [b e1]. cbn [snd] in *.
    assert (emits e (sm_exec (drain_session ch m) e1)) as H3.
    { etrans; [|apply drain_session_emits, H1]. by apply emits_silent. }
    destruct b; [|done]. etrans; [exact H3|]. apply maybe_decode_emits.
  - unfold park_chunk, now. destruct (clock_now (clock e)). by apply emits_silent.
Qed.

Lemma resolve_chunk_send_emits p ch m t b e :
  coherent e → emits e (resolve_chunk_send p ch m t b e).
Proof.
  intros He. unfold resolve_chunk_send.
  destruct (pending_sends e !! (ch, m, t)) as [q|]; [|done].
  set (e1 := set_pending_sends _ e).
  assert (coherent e1) as H1.
  { destruct He. split; try done. intros ch' m' t'. simpl.
    intros [x [_ Hx]%lookup_delete_Some]. eauto. }
  set (e2 := match lookup_session e1 ch m with Some _ => _ | None => _ end).
  assert (coherent e2 ∧ emits e e2) as [H2 H3].
  { unfold e2. destruct (lookup_session e1 ch m) as [s|] eqn:Hl.
    - split; [|by apply emits_silent]. eapply evolves_coherent; [exact H1|].
      by eapply update_session_evolves.
    - split; [done|]. by apply emits_silent. }
  etrans; [exact H3|]. by apply drain_session_emits.
Qed.

Lemma subscribe_all_emits p l e :
  coherent e →
  emits e (foldl (λ e ch, sm_exec (drain_channel ch) (subscribe_to ch p e)) e l).
Proof.
  revert e; induction l as [|ch l IH]; intros e He; [done|]. simpl.
  pose proof (subscribe_to_keeps ch p e He) as H1.
  pose proof (evolves_keeps _ _ (proj1 H1) (drain_channel_evolves ch _)) as H2.
  etrans; [|apply IH, H2]. etrans; [|apply drain_channel_emits, H1]. by apply emits_silent.
Qed.

Lemma on_session_open_emits ch m pre e :
  coherent e → emits e (on_session_open ch m pre e).
Proof.
  intros He. unfold on_session_open. destruct (is_tombstoned e ch m) eqn:Ht; [done|].
  destruct (channels e !! ch) as [c|] eqn:Hc; [|done].
  pose proof (Channel.open_session_cases m pre c) as Ho.
  destruct (Channel.open_session m pre c) as [[[]|err] c']; [|by apply emits_silent].
  destruct Ho as (_ & Hm & st & n & _ & Hs). cbv zeta.
  pose proof (opens_new ch m c' c _ pre e He Hc Hm Hs) as H1.
  set (e1 := record_session_created ch m _) in *.
  pose proof (drain_session_keeps ch m _ (proj1 H1)) as H2.
  etrans; [|apply replay_parked_emits, H2].
  etrans; [|apply drain_session_emits, H1].
  destruct (record_session_created_tombstones ch m
    (set_session_preambles (<[(ch, m):=pre]> (session_preambles e))
       (set_channels (<[ch:=c']> (channels e)) e))) as (_ & _ & _ & Hop & Hn).
  by apply emits_silent.
Qed.

Lemma publish_emits ch m st pre e :
  coherent e → emits e (sm_exec (publish ch m st pre) e).
Proof.
  intros He. unfold sm_exec, publish.
  destruct (channels e !! ch) as [c|] eqn:Hc; [|done].
  pose proof (Channel.start_origin_cases m st c) as Ho.
  destruct (Channel.start_origin_session m st c) as [[[]|err] c']; [|by apply emits_silent].
  destruct Ho as (_ & Hm & Hs). cbv zeta.
  pose proof (opens_new ch m c' c _ pre e He Hc Hm Hs) as H1.
  destruct (record_session_created_tombstones ch m
    (set_session_preambles (<[(ch, m):=pre]> (session_preambles e))
       (set_channels (<[ch:=c']> (channels e)) e))) as (_ & _ & _ & Hop & Hn).
  set (e1 := record_session_created ch m _) in *.
  etrans; [by apply (emits_silent e e1)|]. unfold mbind, SM_bind.
  destruct (sm_for_emits (ensure_session_open ch m) (bt_elements (subscribers c'))
    coherent e1) as [H2 H3]; [|apply H1|].
  { intros p e2 He2. pose proof (ensure_session_open_emits ch m p e2) as Hem.
    pose proof (ensure_session_open_evolves ch m p e2) as Hv. unfold sm_exec in *.
    destruct (ensure_session_open ch m p e2) as [r e3]. cbn [snd] in *.
    split; [apply Hem|]. by eapply evolves_coherent. }
  unfold sm_exec in H2, H3.
  destruct (sm_for (ensure_session_open ch m) _ e1) as [[[]|err] e2]; [|done].
  cbn [snd] in *. etrans; [exact H2|]. by apply drain_session_emits.
Qed.

Lemma handle_event_emits ev e :
  coherent e →
  ∃ l o, log (net (handle_event ev e)) = log (net e) ++ l ∧
    sess_check (opened_to e) l = Some o ∧
    opened_to (handle_event ev e) =
      match ev with
      | NetEvent.PeerDisconnected p => (λ s, s ∖ {[p]}) <$> o
      | _ => o
      end.
Proof.
  intros He.
  assert ((∃ p, ev = NetEvent.PeerDisconnected p) ∨
    (emits e (handle_event ev e) ∧ ∀ p, ev ≠ NetEvent.PeerDisconnected p)) as [[p ->]|[Hem Hne]].
  { destruct ev as [p v l s|p ch|p ch|p ch m pre iu|p ch m pl|p ch m i pl|p|p|
      p ch m t ok|p ch m|p ch m]; cbn [handle_event];
      try (right; split; [|done]); [..|by left; exists p| | | |].
    - unfold on_handshake. case_decide; [|by apply emits_silent].
      etrans; [by apply (emits_silent e (set_connected ({[p]} ∪ connected e) e))|].
      apply subscribe_all_emits. by apply set_connected_evolves_but.
    - etrans; [|apply drain_channel_emits, subscribe_to_coherent, He].
      by apply emits_silent.
    - by apply emits_silent.
    - by apply on_session_open_emits.
    - done.
    - by apply on_chunk_emits.
    - unfold sm_exec, register_peer_and_handshake. case_decide; [done|].
      etrans; [by apply (emits_silent e (set_connected ({[p]} ∪ connected e) e))|].
      by apply send_emits.
    - by apply resolve_chunk_send_emits.
    - unfold detach_session_peer. destruct (lookup_session e ch m); [|done].
      by apply emits_silent.
    - unfold detach_session_peer. destruct (lookup_session e ch m); [|done].
      by apply emits_silent. }
  - exists [], (opened_to e). split; [by rewrite app_nil_r|]. done.
  - destruct Hem as (l & H1 & H2). exists l, (opened_to (handle_event ev e)).
    split; [done|]. split; [done|]. destruct ev; try done. by destruct (Hne peer).
Qed.
End lemmas.
End SessProtocol.

(** * Properties *)
Section properties.
Context {S DE NT CT DT : Type}.
Context `{!Strategy S N BitMap DE, !DrainBound S}.
Context `{!Net NT, !Clock CT, !DeliverySink DeliveredMessage DT}.
Import Engine EngineLemmas SessProtocol.

(** C11: whatever the network accepts or refuses, the sends of an event or of a
    publication obey the session protocol: a peer is sent a [SessionOpen] of a
    session only while it has not been sent one, and a routing update or a chunk
    only after it has, and the engine's record of opened peers is the one the
    log of accepted sends gives; a disconnect forgets the peer. *)
Theorem sess_protocol (p : N) (nt : NT) (d : DT) (cfg : EngineConfig) (ck : CT)
    (os : list (op (S:=S))) :
  let e : Engine S (Logged NT) CT DT := run os (with_config p (mkLogged nt []) d cfg ck) in
  (∀ ev, ∃ l o, log (net (handle_event ev e)) = log (net e) ++ l ∧
    sess_check (opened_to e) l = Some o ∧
    opened_to (handle_event ev e) =
      match ev with
      | NetEvent.PeerDisconnected q => (λ s, s ∖ {[q]}) <$> o
      | _ => o
      end) ∧
  (∀ ch m st pre, ∃ l, let e' := sm_exec (publish ch m st pre) e in
    log (net e') = log (net e) ++ l ∧
    sess_check (opened_to e) l = Some (opened_to e')).
Proof.
  cbv zeta.
  assert (coherent (run os (with_config p (mkLogged nt []) d cfg ck) :
    Engine S (Logged NT) CT DT)) as He by apply run_coherent, with_config_coherent.
  split; [intros ev; by apply handle_event_emits|].
  intros ch m st pre. apply (publish_emits ch m st pre _ He).
Qed.
End properties.
