(* ===== verification/EngineDrain.v ===== *)
(** Draining terminates: the interface [DrainLaws] states what a strategy
    promises so that [drain_session] returns, and the engine keeps every session
    within it: [all_inv] lifts an invariant that the strategy operations preserve
    to all sessions, by the walk of [EngineRel]. *)
From Stdlib Require Import NArith Lia.
From stdpp Require Import base gmap option strings list.
From S2P Require Import Prelude BitMap Strategy Session Channel Runtime Engine EngineInv EngineRel.

Open Scope N_scope.

(** What a strategy promises about [poll]: a poll that yields work lowers its
    bound, so polling without further input yields nothing after at most
    [poll_bound] rounds. *)
Class DrainLaws {S RU DE : Type} `{!Strategy S N RU DE, !DrainBound S} (P : S → Prop)
    : Prop := {
  dl_inv :: StrategyInv P;
  dl_poll s r s1 ds s2 :
    P s → poll_routing s false = (r, s1) → poll_chunks s1 = (ds, s2) →
    r ≠ None ∨ ds ≠ [] → (poll_bound s2 < poll_bound s)%nat
}.

Module EngineSessions.
Import Engine EngineLemmas EngineRel.
Section sessions.
Context {S DE NT CT DT : Type}.
Context `{!Strategy S N BitMap DE, !DrainBound S}.
Context `{!Net NT, !Clock CT, !DeliverySink DeliveredMessage DT}.
Context (P : S → Prop) `{!StrategyInv P}.
Implicit Type e : Engine S NT CT DT.

(** [P] holds of every session's strategy and of every strategy the factory can
    build. *)
Definition chan_inv (c : Channel S) : Prop :=
  (∀ m s, sessions c !! m = Some s → P (strategy s)) ∧
  (∀ n pre st n', build (factory c) n pre = (Ok st, n') → P st).

Definition all_inv e : Prop := ∀ ch c, channels e !! ch = Some c → chan_inv c.

(** A session's strategy satisfies the invariant. *)
Lemma chan_inv_lookup e ch m s :
  all_inv e → lookup_session e ch m = Some s → P (strategy s).
Proof. intros He (c & Hc & Hs)%lookup_session_Some. exact (proj1 (He ch c Hc) m s Hs). Qed.

Lemma chan_leads_inv c c' : chan_leads c c' → chan_inv c → chan_inv c'.
Proof.
  intros [Hb Hs] [Hc Hf]. split; [|by rewrite Hb].
  intros m s' (s & Hm & Hl)%Hs. apply Hl; [done|]. by eapply Hc.
Qed.

(** The engine keeps the invariant, given strategies that have it. *)
Definition keeps_inv e e' : Prop := all_inv e → all_inv e'.

#[export] Instance keeps_inv_rel :
  EngineRel (λ _ _ _ x, P x) (λ f, ∀ n pre st n', build f n pre = (Ok st, n') → P st) keeps_inv.
Proof.
  unfold keeps_inv. split.
  - split; [by intros e|]. intros e1 e2 e3 H1 H2 ?. by apply H2, H1.
  - unfold all_inv. by intros e e' ->.
  - intros msg e _. unfold all_inv, send. by destruct (net_send msg (net e)).
  - done.
  - done.
  - intros v e Hv _ He ch c' (c & Hc & Hl)%Hv. eapply chan_leads_inv; [done|by eapply He].
  - intros ch f e Hf _ He ch' c'. cbn. rewrite lookup_insert_Some. intros [[_ <-]|[_ Hc]].
    + split; [|done]. intros m s. cbn. by rewrite lookup_empty.
    + by eapply He.
  - intros ch m pre x s c c' e Hc Hx Hl Hb Hs He ch' c2. cbn. rewrite lookup_insert_Some.
    intros [[_ <-]|[_ Hc2]]; [|by eapply He]. destruct (He ch c Hc) as [Hi Hf].
    split; [|by rewrite Hb]. intros k s2. rewrite Hs, lookup_insert_Some.
    intros [[_ <-]|[_ ?]]; [by apply Hl|by eapply Hi].
Qed.

(** What the application hands in: a factory for a new channel, a strategy for a
    publication. *)
Definition op_inv (o : op) : Prop :=
  match o with
  | Subscribe _ f => ∀ n pre st n', build f n pre = (Ok st, n') → P st
  | Publish _ _ st _ => P st
  | _ => True
  end.

Lemma exec_inv o e : op_inv o → all_inv e → all_inv (exec o e).
Proof.
  intros Ho He. apply (exec_rel _ _ keeps_inv o e); [|done].
  destruct o as [ch f|p|ch m st pre|ev]; try done. destruct ev; try done.
  intros c n x n' Hc. by apply (He _ _ Hc).
Qed.

Lemma run_inv os e : Forall op_inv os → all_inv e → all_inv (run os e).
Proof.
  intros Hos. revert e; induction Hos as [|o os Ho Hos IH]; intros e He; [done|].
  apply IH. by apply exec_inv.
Qed.

Lemma with_config_inv p nt d cfg ck : all_inv (with_config p nt d cfg ck).
Proof.
  unfold with_config. destruct (clock_now ck) as [t0 k0]. intros ch c. simpl. by rewrite lookup_empty.
Qed.

(** Sends leave the sessions alone. *)
Lemma send_channels msg e : channels (snd (send msg e)) = channels e.
Proof. unfold send. by destruct (net_send msg (net e)). Qed.

Lemma ensure_channels ch m p e : channels (snd (ensure_session_open ch m p e)) = channels e.
Proof.
  unfold ensure_session_open. destruct (is_opened_to e ch m p); [done|].
  destruct (session_preambles e !! (ch, m)) as [pre|]; [|done].
  pose proof (send_channels (SendSessionOpen p ch m pre []) e) as Hs.
  destruct (send _ e) as [[[]|err] e1]; done.
Qed.
End sessions.

(** ** Termination *)
Section termination.
Context {S DE NT CT DT : Type}.
Context `{!Strategy S N BitMap DE, !DrainBound S}.
Context `{!Net NT, !Clock CT, !DeliverySink DeliveredMessage DT}.
Context (P : S → Prop) `{!DrainLaws P}.
Implicit Type e : Engine S NT CT DT.

(** A round without a failed send leaves the sessions as polled. *)
Lemma send_dispatches_ok ch m ds b e e' :
  send_dispatches ch m ds b e = (Ok false, e') → b = false ∧ channels e' = channels e.
Proof.
  revert b e; induction ds as [|d ds IH]; intros b e.
  { cbn [send_dispatches]. by intros [= -> ->]. }
  cbn [send_dispatches]. pose proof (ensure_channels ch m (d_peer d) e) as H1.
  destruct (ensure_session_open ch m (d_peer d) e) as [[[]|err] e1]; cbn [snd] in H1; [|done].
  set (msg := SendChunk _ _ _ _ _ _). pose proof (send_channels msg e1) as H2.
  destruct (send msg e1) as [[[]|err] e2]; cbn [snd] in H2.
  - intros [-> Hc]%IH. split; [done|]. rewrite Hc. simpl. congruence.
  - by intros [? _]%IH.
Qed.

Lemma drain_round_true ch m e e' :
  drain_round ch m e = (Ok true, e') →
  ∃ s work s', lookup_session e ch m = Some s ∧ Session.poll s = (work, s') ∧
    (routing work ≠ None ∨ dispatches work ≠ []) ∧ lookup_session e' ch m = Some s'.
Proof.
  unfold drain_round. destruct (lookup_session e ch m) as [s|] eqn:Hl; [|done].
  destruct (Session.poll s) as [work s'] eqn:Hp. cbv zeta.
  set (e1 := update_session ch m s' e).
  set (subs := match channels e1 !! ch with Some _ => _ | None => _ end).
  assert (lookup_session e1 ch m = Some s') as H1.
  { unfold e1. erewrite lookup_update_session by done. by rewrite decide_True. }
  assert (∀ payload, (match payload with
            | Some r => send_routing ch m (BitMap.as_bytes r) subs
            | None => mret () end ≫= λ _,
          send_dispatches ch m (dispatches work) false ≫= λ stalled,
          mret (negb stalled)) e1 = (Ok true, e') → lookup_session e' ch m = Some s') as Hall.
  { intros payload. unfold mbind, SM_bind.
    set (f := match payload with
            | Some r => send_routing ch m (BitMap.as_bytes r) subs
            | None => mret () end).
    assert (channels (snd (f e1)) = channels e1) as Hf.
    { unfold f. destruct payload; [|done]. generalize e1. generalize subs as l. clear.
      induction l as [|p l IH]; intros e1; [done|]. unfold send_routing in *. cbn [sm_for].
      unfold mbind, SM_bind in *. pose proof (ensure_channels ch m p e1) as H1.
      destruct (ensure_session_open ch m p e1) as [[[]|err] e2]; cbn [snd] in H1; [|done].
      match goal with |- context [send ?msg e2] => pose proof (send_channels msg e2) as H2;
        destruct (send msg e2) as [[[]|err] e3] end; cbn [snd] in *; [|congruence].
      rewrite IH. congruence. }
    destruct (f e1) as [[[]|err] e2]; [|done]. cbn [snd] in Hf.
    destruct (send_dispatches ch m (dispatches work) false e2) as [[b|err] e3] eqn:Hd; [|done].
    intros [= Hb ->]. destruct b; [done|]. apply send_dispatches_ok in Hd as [_ Hc].
    unfold lookup_session in *. by rewrite Hc, Hf. }
  destruct (routing work) as [r|] eqn:Hr, (dispatches work) as [|d ds] eqn:Hd; intros H;
    [|..|done|].
  - exists s, work, s'. split_and!; [done|done|left; congruence|exact (Hall (Some r) H)].
  - exists s, work, s'. split_and!; [done|done|left; congruence|exact (Hall (Some r) H)].
  - exists s, work, s'. split_and!; [done|done|right; congruence|exact (Hall None H)].
Qed.

Lemma drain_loop_total fuel ch m e :
  (∀ s, lookup_session e ch m = Some s → P (strategy s) ∧ poll_bound (strategy s) < fuel)%nat →
  (0 < fuel)%nat → drain_loop fuel ch m e ≠ None.
Proof.
  revert e; induction fuel as [|fuel IH]; intros e Hs Hf; [lia|]. cbn [drain_loop].
  destruct (drain_round ch m e) as [[[]|err] e1] eqn:Hr; [|done..].
  apply drain_round_true in Hr as (s & work & s' & Hl & Hp & Hw & Hl').
  destruct (Hs s Hl) as [HP Hb]. unfold Session.poll in Hp.
  pose proof (si_poll_routing (strategy s) false HP) as HP1.
  destruct (poll_routing (strategy s) false) as [r st] eqn:E1. simpl in HP1.
  pose proof (si_poll_chunks st HP1) as HP2.
  destruct (poll_chunks st) as [ds st'] eqn:E2. simplify_eq/=.
  pose proof (dl_poll (strategy s) r st ds st' HP E1 E2 Hw).
  apply IH; [|lia]. intros s2. rewrite Hl'. intros [= <-]. simpl. split; [done|lia].
Qed.

Lemma drain_loop_more fuel fuel' ch m e r :
  drain_loop fuel ch m e = Some r → (fuel ≤ fuel')%nat → drain_loop fuel' ch m e = Some r.
Proof.
  revert fuel' e; induction fuel as [|fuel IH]; intros fuel' e; [done|]. cbn [drain_loop].
  intros Hl Hle. destruct fuel' as [|fuel']; [lia|]. cbn [drain_loop].
  destruct (drain_round ch m e) as [[[]|err] e1]; [|done..]. apply IH; [done|lia].
Qed.

Lemma drain_session_total e ch m :
  all_inv P e →
  ∃ r, drain_loop (drain_fuel e ch m) ch m e = Some r ∧ drain_session ch m e = r ∧
    ∀ fuel, (drain_fuel e ch m ≤ fuel)%nat → drain_loop fuel ch m e = Some r.
Proof.
  intros He. destruct (drain_loop (drain_fuel e ch m) ch m e) as [r|] eqn:Hl.
  - exists r. split; [done|]. split; [unfold drain_session; by rewrite Hl|].
    intros fuel. by apply drain_loop_more.
  - exfalso. eapply drain_loop_total; [| |exact Hl].
    + intros s Hs. split; [by eapply chan_inv_lookup|].
      unfold drain_fuel. rewrite Hs. lia.
    + unfold drain_fuel. destruct (lookup_session e ch m); lia.
Qed.

(** The same for the states an engine reaches. *)
Lemma drain_session_run p nt d cfg ck (os : list (op (S:=S))) ch m :
  Forall (op_inv P) os →
  let e := run os (with_config p nt d cfg ck : Engine S NT CT DT) in
  ∃ r, drain_loop (drain_fuel e ch m) ch m e = Some r ∧ drain_session ch m e = r ∧
    ∀ fuel, (drain_fuel e ch m ≤ fuel)%nat → drain_loop fuel ch m e = Some r.
Proof.
  intros Hos. apply drain_session_total. pose proof (dl_inv (P:=P)).
  by apply (run_inv P), with_config_inv.
Qed.
End termination.
End EngineSessions.

(** * Properties *)
Section properties.
Context {S DE NT CT DT : Type}.
Context `{!Strategy S N BitMap DE, !DrainBound S}.
Context `{!Net NT, !Clock CT, !DeliverySink DeliveredMessage DT}.
Import Engine EngineLemmas EngineSessions.

(** C13: the loop of [drain_session] ends: in every state of an engine whose
    strategies keep the promise of [DrainLaws], the fuel [drain_session] starts
    with is enough for the loop to return, and more fuel gives the same result. *)
Theorem drain_terminates (P : S → Prop) (HP : DrainLaws P) (p : N) (nt : NT) (d : DT)
    (cfg : EngineConfig) (ck : CT) (os : list (op (S:=S))) (ch m : string) :
  Forall (op_inv P) os →
  let e := run os (with_config p nt d cfg ck) in
  ∃ r, drain_loop (drain_fuel e ch m) ch m e = Some r ∧ drain_session ch m e = r ∧
    ∀ fuel, (drain_fuel e ch m ≤ fuel)%nat → drain_loop fuel ch m e = Some r.
Proof. by apply drain_session_run. Qed.
End properties.
