(* ===== verification/EngineFlights.v ===== *)
(** Every dispatch under way can be resolved.

    A strategy counts a chunk as under way from the poll that dispatched it until
    the result of its send; the engine keeps a pending send for each, by which the
    result finds its session.  [accounted] says that the two agree, and every
    operation keeps it when the network refuses nothing but chunks.  A network
    that refuses an open breaks it: [RsEngine.refused_open_leaks_dispatch]. *)
From Stdlib Require Import NArith Lia.
From stdpp Require Import base gmap option strings list.
From S2P Require Import Prelude BitMap Strategy Session Channel Runtime Engine EngineInv.

Open Scope N_scope.

(** A network that refuses nothing but chunks. *)
Class ControlPasses (NT : Type) `{!Net NT} : Prop :=
  control_passes msg n :
    (∀ p ch m i d h, msg ≠ SendChunk p ch m i d h) → fst (net_send msg n) = Ok ().

(** Dispatches entered under the keys of their handles. *)
Definition depart `{Countable K} (key : N → K) (ds : list (ChunkDispatch N)) (M : gmap K N)
    : gmap K N :=
  foldl (λ M d, <[key (d_handle d) := d_peer d]> M) M ds.

Section depart.
Context `{Countable K} (key : N → K).
Implicit Type M : gmap K N.

Lemma depart_cons d ds M :
  depart key (d :: ds) M = depart key ds (<[key (d_handle d) := d_peer d]> M).
Proof. done. Qed.

Lemma lookup_depart ds M k p :
  depart key ds M !! k = Some p → M !! k = Some p ∨ ∃ d, d ∈ ds ∧ d_peer d = p.
Proof.
  revert M; induction ds as [|d ds IH]; intros M; [by left|]. rewrite depart_cons.
  intros [Hl|(d' & ? & ?)]%IH; [|right; exists d'; split; [by right|done]].
  rewrite lookup_insert_Some in Hl. destruct Hl as [[_ <-]|[_ ?]]; [|by left].
  right. exists d. split; [by left|done].
Qed.

Lemma depart_other ds M k : (∀ h, key h ≠ k) → depart key ds M !! k = M !! k.
Proof.
  intros Hk. revert M; induction ds as [|d ds IH]; intros M; [done|].
  by rewrite depart_cons, IH, lookup_insert_ne.
Qed.

(** An entry below does not show under other keys. *)
Lemma depart_insert_ne ds M k p k' :
  k' ≠ k → depart key ds (<[k := p]> M) !! k' = depart key ds M !! k'.
Proof.
  intros Hne. revert M; induction ds as [|d ds IH]; intros M; [by apply lookup_insert_ne|].
  rewrite !depart_cons.
  destruct (decide (key (d_handle d) = k)) as [->|Hd].
  - by rewrite insert_insert_eq.
  - rewrite insert_insert_ne by done. apply IH.
Qed.

Lemma depart_keys `{!Inj eq eq key} ds (F : gmap N N) M :
  (∀ h p, F !! h = Some p → M !! key h = Some p) →
  ∀ h p, depart id ds F !! h = Some p → depart key ds M !! key h = Some p.
Proof.
  revert F M; induction ds as [|d ds IH]; intros F M HF; [exact HF|]. apply IH.
  intros h p. rewrite !lookup_insert_Some. intros [[<- <-]|[Hne Hh]]; [by left|right].
  split; [|by apply HF]. by intros ?%(inj key).
Qed.
End depart.

(** The dispatches under way in a strategy, by handle, with their peers. *)
Class Flights (S : Type) := {
  flights : S → gmap N N;
  flight_peers : S → gset N
}.

Class FlightLaws {S RU DE : Type} `{!Strategy S N RU DE, !Flights S} : Prop := {
  fl_take s i d : flights (snd (take_chunk s i d)) = flights s ∧
    flight_peers (snd (take_chunk s i d)) = flight_peers s;
  fl_attach s p : flights (attach_peer s p) = flights s ∧
    flight_peers (attach_peer s p) = {[p]} ∪ flight_peers s;
  fl_detach s p b : flights (detach_peer s p b) = filter (λ kv, kv.2 ≠ p) (flights s) ∧
    flight_peers (detach_peer s p b) = flight_peers s ∖ {[p]};
  fl_sent s p h ok : flights (chunk_sent s p h ok) = delete h (flights s) ∧
    flight_peers (chunk_sent s p h ok) = flight_peers s;
  fl_poll_routing s b : flights (snd (poll_routing s b)) = flights s ∧
    flight_peers (snd (poll_routing s b)) = flight_peers s;
  fl_poll_chunks s : flights (snd (poll_chunks s)) = depart id (fst (poll_chunks s)) (flights s) ∧
    flight_peers (snd (poll_chunks s)) = flight_peers s ∧
    ∀ d, d ∈ fst (poll_chunks s) → d_peer d ∈ flight_peers s
}.

Module Accounts.
Import Engine EngineLemmas.
Section accounts.
Context {S DE NT CT DT : Type}.
Context `{!Strategy S N BitMap DE, !DrainBound S, !Flights S, !FlightLaws}.
Context `{!Net NT, !Clock CT, !DeliverySink DeliveredMessage DT}.
Implicit Type e : Engine S NT CT DT.

(** Peers that are served subscribe to the channel, and dispatches under way are to
    such peers and pending. *)
Record sound (subs : gset N) (pend : N → option N) (x : S) : Prop := {
  sd_peers : flight_peers x ⊆ subs;
  sd_tidy h p : flights x !! h = Some p → p ∈ flight_peers x;
  sd_pending h p : flights x !! h = Some p → pend h = Some p
}.

Definition newborn (x : S) : Prop := flights x = ∅ ∧ flight_peers x = ∅.
Definition makes_newborns (f : StrategyFactory S) : Prop :=
  ∀ n pre x n', build f n pre = (Ok x, n') → newborn x.

Definition chan_sound (pend : string → N → option N) (c : Channel S) : Prop :=
  makes_newborns (factory c) ∧
  ∀ m s, sessions c !! m = Some s → sound (subscribers c) (pend m) (strategy s).

Definition sound_in (pend : gmap (string * string * N) N) (chans : gmap string (Channel S)) : Prop :=
  ∀ ch c, chans !! ch = Some c → chan_sound (λ m h, pend !! (ch, m, h)) c.

Definition accounted e : Prop := sound_in (pending_sends e) (channels e).

(** ** Calls of a strategy *)

Lemma sound_mono subs (pend pend' : N → option N) x :
  sound subs pend x → (∀ h p, pend h = Some p → pend' h = Some p) → sound subs pend' x.
Proof. intros [] Hp. split; eauto. Qed.

Lemma sound_same subs pend x y :
  flights y = flights x ∧ flight_peers y = flight_peers x → sound subs pend x → sound subs pend y.
Proof. intros [Hf Hp] []. split; rewrite ?Hf, ?Hp; done. Qed.

Lemma sound_attach subs pend x p :
  sound subs pend x → sound ({[p]} ∪ subs) pend (attach_peer x p).
Proof.
  intros []. destruct (fl_attach x p) as [Hf Hp]. split; rewrite ?Hf, ?Hp; [set_solver| |done].
  intros h q Hq%sd_tidy0. set_solver.
Qed.

(** A result: its own handle need not be pending any more. *)
Lemma sound_sent subs (pend pend' : N → option N) x p h ok :
  sound subs pend x → (∀ h' q, h' ≠ h → pend h' = Some q → pend' h' = Some q) →
  sound subs pend' (chunk_sent x p h ok).
Proof.
  intros [] Hd. destruct (fl_sent x p h ok) as [Hf Hp]. split; rewrite ?Hf, ?Hp; [done|..];
    intros h' q [Hne Hq]%lookup_delete_Some; eauto.
Qed.

(** A peer that goes need not be a subscriber, nor its sends pending. *)
Lemma sound_detach (subs subs' : gset N) (pend pend' : N → option N) x p b :
  sound subs pend x → subs ∖ {[p]} ⊆ subs' →
  (∀ h q, q ≠ p → pend h = Some q → pend' h = Some q) →
  sound subs' pend' (detach_peer x p b).
Proof.
  intros [] Hs Hd. destruct (fl_detach x p b) as [Hf Hp]. split; rewrite ?Hf, ?Hp; [set_solver|..];
    intros h q [Hq Hne]%map_lookup_filter_Some; cbn in Hne.
  - apply sd_tidy0 in Hq. set_solver.
  - eauto.
Qed.

(** What a poll dispatches is under way. *)
Lemma sound_poll subs (pend : N → option N) (pend' : N → option N) (s : Session S) :
  sound subs pend (strategy s) →
  (∀ h p, depart id (dispatches (fst (Session.poll s))) (flights (strategy s)) !! h = Some p →
     pend' h = Some p) →
  sound subs pend' (strategy (snd (Session.poll s))) ∧
  ∀ d, d ∈ dispatches (fst (Session.poll s)) → d_peer d ∈ subs.
Proof.
  intros [Hs Ht _]. unfold Session.poll.
  destruct (fl_poll_routing (strategy s) false) as [Hf1 Hp1].
  destruct (poll_routing (strategy s) false) as [r s1]. cbn [fst snd] in *.
  destruct (fl_poll_chunks s1) as (Hf2 & Hp2 & Hd).
  destruct (poll_chunks s1) as [ds s2]. cbn [fst snd dispatches strategy] in *. rewrite Hf1, Hp1 in *.
  intros Hpend. split; [|intros d Hin; apply Hs; auto].
  split; rewrite ?Hf2, ?Hp2, ?Hp1; [done| |done].
  intros h p [Hq|(d & Hin & <-)]%lookup_depart; eauto.
Qed.

Lemma take_strategy (s : Session S) i d :
  strategy (snd (Session.take_chunk s i d)) = strategy s ∨
  strategy (snd (Session.take_chunk s i d)) = snd (take_chunk (strategy s) i d).
Proof.
  unfold Session.take_chunk. destruct (state s); try (by left). right.
  destruct (take_chunk (strategy s) i d) as [[oc|err] st]; [by destruct (_ && _)|done].
Qed.

Lemma sound_take subs pend (s : Session S) i d :
  sound subs pend (strategy s) → sound subs pend (strategy (snd (Session.take_chunk s i d))).
Proof.
  intros Hs. destruct (take_strategy s i d) as [->| ->]; [done|].
  eapply sound_same; [apply fl_take|done].
Qed.

(** A new session serves the subscribers. *)
Lemma sound_new (c : Channel S) s pend :
  newborn (strategy s) → sound (subscribers c) pend (strategy (Channel.attach_all c s)).
Proof.
  intros [Hf Hp]. unfold Channel.attach_all.
  assert (∀ l (s : Session S) X, sound X pend (strategy s) → X ⊆ subscribers c →
    (∀ p, p ∈ l → p ∈ subscribers c) →
    sound (subscribers c) pend (strategy (foldl Session.attach_peer s l))) as Hall.
  { intros l. induction l as [|p l IH]; intros s0 X Hs HX Hl; cbn [foldl].
    - destruct Hs. split; [set_solver|done..].
    - apply (IH _ ({[p]} ∪ X)); [by apply sound_attach| |].
      + pose proof (Hl p (list_elem_of_here _ _)). set_solver.
      + intros q Hq. apply Hl. by right. }
  apply (Hall _ s ∅); [|set_solver|intros p; apply elem_of_bt_elements].
  split; rewrite ?Hf, ?Hp; [done|..]; intros h p; by rewrite lookup_empty.
Qed.

(** ** Parts of an engine *)

Implicit Types (pend : gmap (string * string * N) N) (chans : gmap string (Channel S)).

(** The key of a pending send. *)
Definition key_of (ch m : string) (h : N) : string * string * N := (ch, m, h).

#[export] Instance key_of_inj ch m : Inj eq eq (key_of ch m).
Proof. by intros h h' [= ->]. Qed.

(** Entries of other sessions stay. *)
Definition spares (ch m : string) pend pend' : Prop :=
  ∀ ch' m' h p, (ch', m') ≠ (ch, m) →
    pend !! (ch', m', h) = Some p → pend' !! (ch', m', h) = Some p.

Lemma spares_depart ch m ds pend : spares ch m pend (depart (key_of ch m) ds pend).
Proof.
  intros ch' m' h p Hne Hp. rewrite depart_other; [done|]. intros h'. unfold key_of. congruence.
Qed.

Lemma spares_depart_insert ch m ds pend h q :
  spares ch m (depart (key_of ch m) ds (<[key_of ch m h := q]> pend)) (depart (key_of ch m) ds pend).
Proof.
  intros ch' m' h' p Hne. rewrite depart_insert_ne; [done|]. unfold key_of. congruence.
Qed.

Lemma sound_in_insert pend chans ch c :
  sound_in pend chans → chan_sound (λ m h, pend !! (ch, m, h)) c →
  sound_in pend (<[ch := c]> chans).
Proof. intros Hs Hc ch' c'. rewrite lookup_insert_Some. intros [[<- <-]|[_ Hl]]; [done|by apply Hs]. Qed.

Lemma sound_in_alter pend chans (f : Channel S → Channel S) ch :
  sound_in pend chans →
  (∀ c, chan_sound (λ m h, pend !! (ch, m, h)) c → chan_sound (λ m h, pend !! (ch, m, h)) (f c)) →
  sound_in pend (alter f ch chans).
Proof.
  intros Hs Hf ch' c'. destruct (decide (ch' = ch)) as [->|].
  - rewrite lookup_alter_eq, fmap_Some. intros (c & Hc & ->). by apply Hf, Hs.
  - rewrite lookup_alter_ne by done. apply Hs.
Qed.

(** One session changes. *)
Lemma sound_in_session pend pend' ch m s s' e :
  sound_in pend (channels e) → lookup_session e ch m = Some s → spares ch m pend pend' →
  (∀ subs, sound subs (λ h, pend !! (ch, m, h)) (strategy s) →
     sound subs (λ h, pend' !! (ch, m, h)) (strategy s')) →
  sound_in pend' (channels (update_session ch m s' e)).
Proof.
  intros Hs (c & Hc & Hm)%lookup_session_Some Hsp Hf ch' c'.
  unfold update_session. cbn [channels set_channels]. destruct (decide (ch' = ch)) as [->|Hne].
  - rewrite lookup_alter_eq, Hc. intros [= <-]. destruct (Hs ch c Hc) as [Hfac Hses].
    split; [exact Hfac|]. intros m' s0. cbn [Channel.with_sessions sessions subscribers].
    rewrite lookup_insert_Some. intros [[<- <-]|[Hm' Hs0]]; [by apply Hf, Hses|].
    eapply sound_mono; [by apply Hses|]. intros h p. apply Hsp. congruence.
  - rewrite lookup_alter_ne by done. intros Hc'. destruct (Hs ch' c' Hc') as [Hfac Hses].
    split; [exact Hfac|]. intros m' s0 Hs0. eapply sound_mono; [by apply Hses|].
    intros h p. apply Hsp. congruence.
Qed.

(** Without the session, its entries do not matter. *)
Lemma sound_in_absent pend pend' ch m e :
  sound_in pend (channels e) → lookup_session e ch m = None → spares ch m pend pend' →
  sound_in pend' (channels e).
Proof.
  intros Hs Hl Hsp ch' c Hc. destruct (Hs ch' c Hc) as [Hfac Hses]. split; [exact Hfac|].
  intros m' s Hm. eapply sound_mono; [by apply Hses|]. intros h p. apply Hsp. intros [= -> ->].
  unfold lookup_session in Hl. rewrite Hc in Hl. cbn in Hl. unfold Channel.session_mut in Hl.
  congruence.
Qed.

(** ** Drains *)

Context `{!ControlPasses NT}.

(** Channels and pending sends stay. *)
Definition unmoved e e' : Prop :=
  channels e' = channels e ∧ pending_sends e' = pending_sends e.

#[export] Instance unmoved_po : PreOrder unmoved.
Proof. split; [by split|]. intros ??? [] []. split; congruence. Qed.

Lemma unmoved_accounted e e' : unmoved e e' → accounted e → accounted e'.
Proof. unfold accounted. by intros [-> ->]. Qed.

Lemma send_unmoved msg e : unmoved e (snd (send msg e)).
Proof. unfold send. by destruct (net_send msg (net e)). Qed.

Lemma send_control msg e :
  (∀ p ch m i d h, msg ≠ SendChunk p ch m i d h) → fst (send msg e) = Ok ().
Proof.
  intros Hm. unfold send. pose proof (control_passes msg (net e) Hm) as Hok.
  destruct (net_send msg (net e)) as [r n]. cbn in *. by rewrite Hok.
Qed.

Lemma ensure_unmoved ch m p e :
  fst (ensure_session_open ch m p e) = Ok () ∧ unmoved e (snd (ensure_session_open ch m p e)).
Proof.
  unfold ensure_session_open. destruct (is_opened_to e ch m p); [done|].
  destruct (session_preambles e !! (ch, m)) as [pre|]; [|done].
  pose proof (send_unmoved (SendSessionOpen p ch m pre []) e) as Hu.
  pose proof (send_control (SendSessionOpen p ch m pre []) e) as Hc.
  destruct (send _ e) as [[[]|err] e1]; [split; [done|exact Hu]|].
  exfalso. by specialize (Hc ltac:(done)).
Qed.

Lemma sm_for_unmoved {A} (f : A → SM (Engine S NT CT DT) EngineError unit) l e :
  (∀ a e, fst (f a e) = Ok () ∧ unmoved e (snd (f a e))) →
  fst (sm_for f l e) = Ok () ∧ unmoved e (snd (sm_for f l e)).
Proof.
  intros Hf. revert e; induction l as [|a l IH]; intros e; [done|].
  cbn [sm_for]. unfold mbind, SM_bind. destruct (Hf a e) as [Ho Hu].
  destruct (f a e) as [r e1]. cbn [fst snd] in *. subst r. destruct (IH e1) as [Ho1 Hu1].
  split; [exact Ho1|by etrans].
Qed.

Lemma send_routing_unmoved ch m payload subs e :
  fst (send_routing ch m payload subs e) = Ok () ∧
  unmoved e (snd (send_routing ch m payload subs e)).
Proof.
  apply sm_for_unmoved. intros p e1. unfold mbind, SM_bind.
  destruct (ensure_unmoved ch m p e1) as [Ho Hu].
  destruct (ensure_session_open ch m p e1) as [r e2]. cbn [fst snd] in *. subst r.
  split; [by apply send_control|]. etrans; [exact Hu|apply send_unmoved].
Qed.

(** The dispatches of a poll become pending, or come back as failed. *)
Lemma send_dispatches_accounted ch m ds b e :
  sound_in (depart (key_of ch m) ds (pending_sends e)) (channels e) →
  accounted (snd (send_dispatches ch m ds b e)).
Proof.
  revert b e; induction ds as [|d ds IH]; intros b e Hs; [exact Hs|].
  cbn [send_dispatches]. rewrite depart_cons in Hs.
  destruct (ensure_unmoved ch m (d_peer d) e) as [Ho [Hc1 Hp1]].
  destruct (ensure_session_open ch m (d_peer d) e) as [r e1]. cbn [fst snd] in *. subst r.
  match goal with |- context [send ?msg e1] => destruct (send_unmoved msg e1) as [Hc2 Hp2];
    destruct (send msg e1) as [[[]|err] e2] end; cbn [snd] in *.
  - apply IH. cbn [pending_sends set_pending_sends channels]. by rewrite Hc2, Hc1, Hp2, Hp1.
  - rewrite <- Hc1, <- Hc2, <- Hp1, <- Hp2 in Hs.
    destruct (lookup_session e2 ch m) as [s|] eqn:Hl; apply IH.
    + eapply sound_in_session; [exact Hs|exact Hl|apply spares_depart_insert|].
      intros subs Hsd. eapply sound_sent; [exact Hsd|]. intros h q Hne. cbn beta.
      rewrite (depart_insert_ne (key_of ch m)); [done|].
      by intros ?%(inj (key_of ch m)).
    + eapply sound_in_absent; [exact Hs|exact Hl|apply spares_depart_insert].
Qed.

Lemma drain_round_accounted ch m e : accounted e → accounted (snd (drain_round ch m e)).
Proof.
  intros He. unfold drain_round. destruct (lookup_session e ch m) as [s|] eqn:Hl; [|done].
  assert (sound_in (depart (key_of ch m) (dispatches (fst (Session.poll s))) (pending_sends e))
    (channels (update_session ch m (snd (Session.poll s)) e))) as Hs.
  { eapply sound_in_session; [exact He|exact Hl|apply spares_depart|].
    intros subs Hsd. pose proof (sd_pending _ _ _ Hsd) as Hp. eapply sound_poll; [exact Hsd|].
    apply (depart_keys (key_of ch m)). exact Hp. }
  destruct (Session.poll s) as [work s']. cbn [fst snd] in Hs.
  set (e1 := update_session ch m s' e) in *.
  set (subs := match channels e1 !! ch with Some _ => _ | None => _ end).
  assert (∀ o : option BitMap, accounted (snd ((match o with
            | Some r => send_routing ch m (BitMap.as_bytes r) subs
            | None => mret () end ≫= λ _,
          send_dispatches ch m (dispatches work) false ≫= λ stalled,
          mret (negb stalled)) e1))) as Hall.
  { intros o. unfold mbind, SM_bind.
    assert (∃ e2, (match o with
        | Some r => send_routing ch m (BitMap.as_bytes r) subs
        | None => mret () end) e1 = (Ok (), e2) ∧ unmoved e1 e2) as (e2 & -> & [Hc Hp]).
    { destruct o as [r|]; [|by exists e1].
      destruct (send_routing_unmoved ch m (BitMap.as_bytes r) subs e1) as [Ho Hu].
      destruct (send_routing _ _ _ _ e1) as [r' e2]. cbn in Ho. subst r'. by exists e2. }
    pose proof (send_dispatches_accounted ch m (dispatches work) false e2) as Hd.
    rewrite Hc, Hp in Hd. specialize (Hd Hs).
    by destruct (send_dispatches _ _ _ _ e2) as [[b|err] e3]. }
  destruct (routing work) as [r|], (dispatches work) as [|d ds] eqn:Hds;
    [exact (Hall (Some r))|exact (Hall (Some r))|exact Hs|exact (Hall None)].
Qed.

Lemma drain_session_accounted ch m e : accounted e → accounted (snd (drain_session ch m e)).
Proof.
  unfold drain_session. generalize (drain_fuel e ch m). intros fuel.
  destruct (drain_loop fuel ch m e) as [[r e']|] eqn:Hl; [cbn [default]|done].
  revert e Hl; induction fuel as [|fuel IH]; intros e Hl He; [done|]. cbn [drain_loop] in Hl.
  pose proof (drain_round_accounted ch m e He) as Hr.
  destruct (drain_round ch m e) as [[[]|err] e1]; cbn [snd] in Hr;
    [by eapply IH|by injection Hl as _ <-..].
Qed.

Lemma drain_channel_accounted ch e : accounted e → accounted (sm_exec (drain_channel ch) e).
Proof.
  unfold sm_exec, drain_channel. destruct (channels e !! ch) as [c|]; [|done].
  generalize (bt_keys (sessions c)). intros l. revert e; induction l as [|m l IH]; intros e He; [done|].
  cbn [sm_for]. unfold mbind, SM_bind. pose proof (drain_session_accounted ch m e He) as Hd.
  destruct (drain_session ch m e) as [[[]|err] e1]; [by apply IH|done].
Qed.

(** ** Handlers *)

Lemma now_unmoved e : unmoved e (snd (now e)).
Proof. unfold now. by destruct (clock_now _). Qed.

Lemma record_created_unmoved ch m e : unmoved e (record_session_created ch m e).
Proof.
  unfold record_session_created. destruct (contains_key _ _); [done|].
  unfold now. by destruct (clock_now _).
Qed.

Lemma mark_terminal_unmoved ch m e : unmoved e (mark_session_terminal ch m e).
Proof.
  unfold mark_session_terminal. destruct (session_meta e !! (ch, m)) as [[? []]|]; cbn; try done.
  unfold now. by destruct (clock_now _).
Qed.

Lemma spares_refl ch m pend : spares ch m pend pend.
Proof. by intros ????. Qed.

Lemma subscribe_to_accounted ch p e : accounted e → accounted (subscribe_to ch p e).
Proof.
  intros He. apply sound_in_alter; [exact He|]. intros c [Hf Hs].
  unfold Channel.subscribe_peer. case_decide; [by split|]. split; [exact Hf|].
  cbn [sessions subscribers]. intros m s. rewrite lookup_fmap, fmap_Some.
  intros (s0 & Hm & ->). by apply sound_attach, Hs.
Qed.

(** A peer leaves a channel; its sends need not be pending any more. *)
Lemma unsubscribe_sound (pend pend' : string → N → option N) c p :
  chan_sound pend c → (∀ m h q, q ≠ p → pend m h = Some q → pend' m h = Some q) →
  chan_sound pend' (Channel.unsubscribe_peer c p).
Proof.
  intros [Hf Hs] Hp. unfold Channel.unsubscribe_peer. case_decide as Hin.
  - split; [exact Hf|]. cbn [sessions subscribers]. intros m s. rewrite lookup_fmap, fmap_Some.
    intros (s0 & Hm & ->). eapply sound_detach; [by apply Hs|done|apply Hp].
  - split; [exact Hf|]. intros m s Hm. destruct (Hs m s Hm) as [H1 H2 H3]. split; [done..|].
    intros h q Hq. apply Hp; [|by apply H3]. intros ->. apply Hin, H1. by eapply H2.
Qed.

Lemma handshake_accounted p v l e : accounted e → accounted (on_handshake p v l e).
Proof.
  intros He. unfold on_handshake. case_decide; [|exact He].
  assert (accounted (set_connected ({[p]} ∪ connected e) e)) as He1 by exact He.
  revert He1. generalize (set_connected ({[p]} ∪ connected e) e). clear e He.
  induction l as [|ch l IH]; intros e He; [done|]. cbn [foldl].
  by apply IH, drain_channel_accounted, subscribe_to_accounted.
Qed.

Lemma channel_take_accounted ch m i d e :
  accounted e → accounted (snd (channel_take_chunk ch m i d e)).
Proof.
  intros He. unfold channel_take_chunk. destruct (channels e !! ch) as [c|] eqn:Hc; [|done].
  destruct (He ch c Hc) as [Hf Hs]. unfold Channel.take_chunk.
  destruct (sessions c !! m) as [s|] eqn:Hm.
  - pose proof (sound_take _ _ s i d (Hs m s Hm)) as Ht.
    destruct (Session.take_chunk s i d) as [r s']. apply sound_in_insert; [exact He|].
    split; [exact Hf|]. cbn [Channel.with_sessions sessions subscribers]. intros m' s0.
    rewrite lookup_insert_Some. intros [[<- <-]|[_ ?]]; [exact Ht|by apply Hs].
  - by apply sound_in_insert.
Qed.

Lemma replay_chunks_accounted ch m l b e :
  accounted e → accounted (snd (replay_chunks ch m l b e)).
Proof.
  revert b e; induction l as [|c l IH]; intros b e He; [done|]. cbn [replay_chunks].
  pose proof (channel_take_accounted ch m (pk_chunk_id c) (pk_payload c) e He) as Ht.
  destruct (channel_take_chunk _ _ _ _ e) as [b1 e1]. by apply IH.
Qed.

Lemma decode_accounted ch m e : accounted e → accounted (maybe_decode_and_deliver ch m e).
Proof.
  intros He. unfold maybe_decode_and_deliver.
  destruct (lookup_session e ch m) as [s|] eqn:Hl; [|done].
  destruct (Session.decode_and_finish s) as [r s'] eqn:Hd.
  assert (strategy s' = strategy s) as Hst.
  { unfold Session.decode_and_finish in Hd. case_decide; [by injection Hd as _ <-|].
    destruct (Strategy.decode (strategy s)); by injection Hd as _ <-. }
  assert (accounted (mark_session_terminal ch m (update_session ch m s' e))) as Hm.
  { eapply unmoved_accounted; [apply mark_terminal_unmoved|].
    eapply sound_in_session; [exact He|exact Hl|apply spares_refl|]. by rewrite Hst. }
  destruct r as [payload|err]; [|exact Hm]. destruct (try_send _ _) as [r d].
  eapply unmoved_accounted; [apply send_unmoved|exact Hm].
Qed.

Lemma finish_accounted ch m (b : bool) e :
  accounted e → let e1 := sm_exec (drain_session ch m) e in
  accounted (if b then maybe_decode_and_deliver ch m e1 else e1).
Proof.
  intros He. cbv zeta. pose proof (drain_session_accounted ch m e He) as Hd.
  destruct b; [by apply decode_accounted|exact Hd].
Qed.

Lemma replay_accounted ch m e : accounted e → accounted (replay_parked_chunks ch m e).
Proof.
  intros He. unfold replay_parked_chunks. destruct (parked_chunks e !! (ch, m)) as [l|]; [|done].
  set (e1 := set_parked_chunks _ e). assert (accounted e1) as He1 by exact He.
  pose proof (replay_chunks_accounted ch m l false e1 He1) as Hr.
  destruct (replay_chunks ch m l false e1) as [b e2]. by apply finish_accounted.
Qed.

(** A channel with a new session. *)
Lemma new_session_sound (pend : string → N → option N) (c : Channel S) m s :
  chan_sound pend c → newborn (strategy s) →
  chan_sound pend (Channel.with_sessions c (<[m := Channel.attach_all c s]> (sessions c))).
Proof.
  intros [Hf Hs] Hn. split; [exact Hf|]. cbn [Channel.with_sessions sessions subscribers].
  intros m' s0. rewrite lookup_insert_Some. intros [[<- <-]|[_ ?]]; [by apply sound_new|by apply Hs].
Qed.

Lemma open_accounted ch m pre e : accounted e → accounted (on_session_open ch m pre e).
Proof.
  intros He. unfold on_session_open. destruct (is_tombstoned e ch m); [done|].
  destruct (channels e !! ch) as [c|] eqn:Hc; [|done].
  pose proof (He ch c Hc) as Hcs. unfold Channel.open_session, call_factory.
  destruct (contains_key (sessions c) m); [by apply sound_in_insert|].
  destruct (build (factory c) (counter (factory c)) pre) as [[x|err] n] eqn:Hb; cbv zeta.
  - set (c1 := mkChannel _ _ _ _).
    assert (chan_sound (λ m h, pending_sends e !! (ch, m, h)) c1) as Hc1 by exact Hcs.
    apply replay_accounted, drain_session_accounted.
    eapply unmoved_accounted; [apply record_created_unmoved|].
    apply sound_in_insert; [exact He|]. apply (new_session_sound _ c1); [exact Hc1|].
    cbn. by eapply (proj1 Hcs).
  - by apply sound_in_insert.
Qed.

Lemma chunk_accounted ch m i d e : accounted e → accounted (on_chunk ch m i d e).
Proof.
  intros He. unfold on_chunk. destruct (is_tombstoned e ch m); [done|].
  destruct (lookup_session e ch m).
  - pose proof (channel_take_accounted ch m i d e He) as Ht.
    destruct (channel_take_chunk ch m i d e) as [b e1]. by apply finish_accounted.
  - unfold park_chunk. pose proof (unmoved_accounted _ _ (now_unmoved e) He) as Hn.
    by destruct (now e).
Qed.

Lemma disconnect_accounted p e : accounted e → accounted (on_disconnect p e).
Proof.
  intros He. unfold on_disconnect. intros ch c. cbn [channels set_channels].
  rewrite lookup_fmap, fmap_Some. intros (c0 & Hc & ->).
  eapply unsubscribe_sound; [by apply He|]. intros m h q Hq Hp.
  cbn [pending_sends set_opened_to set_pending_sends set_connected set_channels].
  by apply map_lookup_filter_Some.
Qed.

Lemma register_unmoved p e : unmoved e (sm_exec (register_peer_and_handshake p) e).
Proof.
  unfold sm_exec, register_peer_and_handshake. case_decide; [done|].
  set (e1 := set_connected _ e). transitivity e1; [done|]. apply send_unmoved.
Qed.

(** The result of a send: its entry goes with the dispatch. *)
Lemma resolve_accounted p ch m t b e : accounted e → accounted (resolve_chunk_send p ch m t b e).
Proof.
  intros He. unfold resolve_chunk_send. destruct (pending_sends e !! (ch, m, t)); [|done].
  set (e1 := set_pending_sends _ e). apply drain_session_accounted.
  assert (spares ch m (pending_sends e) (pending_sends e1)) as Hsp.
  { intros ch' m' h q Hne Hq. cbn. rewrite lookup_delete_ne; [done|congruence]. }
  destruct (lookup_session e1 ch m) as [s|] eqn:Hl.
  - eapply (sound_in_session _ _ ch m s _ e1); [exact He|exact Hl|exact Hsp|].
    intros subs Hs. eapply sound_sent; [exact Hs|]. intros h q Hne Hq. cbn.
    rewrite lookup_delete_ne; [done|congruence].
  - by eapply sound_in_absent.
Qed.

Lemma detach_accounted ch m p b e : accounted e → accounted (detach_session_peer ch m p b e).
Proof.
  intros He. unfold detach_session_peer. destruct (lookup_session e ch m) as [s|] eqn:Hl; [|done].
  eapply sound_in_session; [exact He|exact Hl|apply spares_refl|]. intros subs Hs.
  eapply sound_detach; [exact Hs|set_solver|done].
Qed.

Lemma event_accounted ev e : accounted e → accounted (handle_event ev e).
Proof.
  intros He. destruct ev; cbn [handle_event].
  - by apply handshake_accounted.
  - by apply drain_channel_accounted, subscribe_to_accounted.
  - apply sound_in_alter; [exact He|]. intros c Hc. by eapply unsubscribe_sound.
  - by apply open_accounted.
  - done.
  - by apply chunk_accounted.
  - by apply disconnect_accounted.
  - by eapply unmoved_accounted; [apply register_unmoved|].
  - by apply resolve_accounted.
  - by apply detach_accounted.
  - by apply detach_accounted.
Qed.

(** ** Cleanup and calls *)

Lemma dispose_accounted ch m t e : accounted e → accounted (dispose_session ch m t e).
Proof.
  intros He. unfold dispose_session. cbv zeta. set (e1 := set_channels _ e).
  assert (accounted e1) as He1.
  { apply sound_in_alter; [exact He|]. intros c [Hf Hs]. split; [exact Hf|]. intros m' s.
    cbn [Channel.remove_session Channel.with_sessions sessions subscribers].
    intros [_ Hl]%lookup_delete_Some. by apply Hs. }
  set (pend := filter (λ kv, kv.1.1 ≠ (ch, m)) (pending_sends e)).
  assert (sound_in pend (channels e1)) as Hend; [|exact Hend].
  apply (sound_in_absent (pending_sends e1) pend ch m e1); [exact He1| |].
  - unfold lookup_session. cbn [e1 channels set_channels]. rewrite lookup_alter_eq.
    destruct (channels e !! ch); [|done]. cbn. apply lookup_delete_eq.
  - intros ch' m' h q Hne Hq. apply map_lookup_filter_Some. split; [exact Hq|exact Hne].
Qed.

Lemma cleanup_accounted e : accounted e → accounted (maybe_run_cleanup e).
Proof.
  intros He. unfold maybe_run_cleanup. pose proof (unmoved_accounted _ _ (now_unmoved e) He) as Hn.
  destruct (now e) as [t e1]. cbn [snd] in Hn. case_decide; [done|]. unfold run_cleanup. cbv zeta.
  set (e2 := set_next_cleanup _ e1). assert (accounted e2) as He2 by exact Hn.
  generalize (fst <$> filter (λ km, expired (config e2) t km.2) (map_to_list (session_meta e2))).
  intros keys. assert (accounted (foldl (λ e k, dispose_session k.1 k.2 t e) e2 keys)) as Hf;
    [|exact Hf].
  clearbody e2. revert e2 He2. induction keys as [|k keys IH]; intros e3 He3; [done|].
  by apply IH, dispose_accounted.
Qed.

(** Factories and publications bring strategies without dispatches. *)
Definition op_newborn (o : op (S:=S)) : Prop :=
  match o with
  | Subscribe _ f => makes_newborns f
  | Publish _ _ x _ => newborn x
  | _ => True
  end.

Lemma subscribe_op_accounted ch f e :
  makes_newborns f → accounted e → accounted (sm_exec (subscribe ch f) e).
Proof.
  intros Hf He. unfold sm_exec, subscribe. cbv zeta.
  assert (∀ e1, accounted e1 →
    accounted (snd (sm_for (λ p, send (SendSubscribe p ch)) (bt_elements (connected e1)) e1))) as Hs.
  { intros e1 He1. eapply unmoved_accounted; [|exact He1]. apply sm_for_unmoved. intros p e2.
    split; [by apply send_control|apply send_unmoved]. }
  destruct (contains_key (channels e) ch); apply Hs; [done|].
  apply sound_in_insert; [exact He|]. split; [exact Hf|]. intros m s. cbn. by rewrite lookup_empty.
Qed.

Lemma publish_accounted ch m x pre e :
  newborn x → accounted e → accounted (sm_exec (publish ch m x pre) e).
Proof.
  intros Hx He. unfold sm_exec, publish. destruct (channels e !! ch) as [c|] eqn:Hc; [|done].
  unfold Channel.start_origin_session.
  destruct (contains_key (sessions c) m); [by apply sound_in_insert; [|apply He]|]. cbv zeta.
  set (e1 := record_session_created _ _ _). assert (accounted e1) as He1.
  { eapply unmoved_accounted; [apply record_created_unmoved|].
    apply sound_in_insert; [exact He|]. apply new_session_sound; [by apply He|exact Hx]. }
  unfold mbind, SM_bind.
  match goal with |- context [sm_for ?f ?l e1] =>
    destruct (sm_for_unmoved f l e1 (ensure_unmoved ch m)) as [Ho Hu];
    destruct (sm_for f l e1) as [r e2] end.
  cbn [fst snd] in Ho, Hu. subst r. apply drain_session_accounted. by eapply unmoved_accounted.
Qed.

Lemma exec_accounted o e : op_newborn o → accounted e → accounted (exec o e).
Proof.
  intros Ho He. destruct o as [ch f|p|ch m x pre|ev]; cbn [exec].
  - by apply subscribe_op_accounted.
  - by eapply unmoved_accounted; [apply register_unmoved|].
  - by apply publish_accounted.
  - cbn [run_one_step snd]. by apply cleanup_accounted, event_accounted.
Qed.

Lemma run_accounted os e : Forall op_newborn os → accounted e → accounted (run os e).
Proof.
  intros Hos. revert e; induction Hos as [|o os Ho _ IH]; intros e He; [done|].
  by apply IH, exec_accounted.
Qed.

Lemma with_config_accounted p nt d cfg ck : accounted (with_config p nt d cfg ck).
Proof.
  unfold with_config. destruct (clock_now ck). intros ch c1. cbn. by rewrite lookup_empty.
Qed.
End accounts.
End Accounts.
