(* ===== verification/EngineDeliver.v ===== *)
(** Delivery: a message reaches the application exactly when its session
    reconstructs it.

    The delivery channel is an arbitrary one with a log of what it was offered.
    [quiet] is the relation that drains respect ([DrainRel]): sessions keep their
    states and nothing is delivered. *)
From Stdlib Require Import NArith Lia.
From stdpp Require Import base gmap option strings list.
From S2P Require Import Prelude BitMap Strategy Session Channel Runtime Engine EngineInv EngineRel.

Open Scope N_scope.

(** A delivery channel with a log. *)
Record Recorded (M DT : Type) := mkRecorded {
  sink : DT;
  offered : list M
}.
Arguments mkRecorded {M DT} sink offered.
Arguments sink {M DT} _.
Arguments offered {M DT} _.

#[export] Instance DeliverySink_Recorded `{DeliverySink M DT} :
  DeliverySink M (Recorded M DT) := λ m d,
  let '(r, i) := try_send m (sink d) in (r, mkRecorded i (offered d ++ [m])).

Module DeliverLemmas.
Import Engine EngineLemmas DrainRel.
Section decoding.
Context {S DE NT CT DT : Type}.
Context `{!Strategy S N BitMap DE, !DrainBound S}.
Context `{!Net NT, !Clock CT, !DeliverySink DeliveredMessage DT}.
Implicit Type e : Engine S NT CT DT.

(** ** Decoding and delivering *)

Definition has_terminal e (ch m : string) : Prop :=
  ∃ mt t, session_meta e !! (ch, m) = Some mt ∧ terminal_at mt = Some t.

Lemma mark_terminal_spec ch m e :
  let e' := mark_session_terminal ch m e in
  channels e' = channels e ∧ delivered e' = delivered e ∧
  (∀ ch' m', has_terminal e ch' m' → has_terminal e' ch' m') ∧
  (is_Some (session_meta e !! (ch, m)) → has_terminal e' ch m).
Proof.
  cbv zeta. unfold mark_session_terminal, has_terminal.
  destruct (session_meta e !! (ch, m)) as [[ca [ta|]]|] eqn:Hm; simpl.
  - split_and!; [done..|]. intros _. by exists (mkMeta ca (Some ta)), ta.
  - unfold now. destruct (clock_now (clock e)) as [t ck]. simpl. split_and!; [done..| |].
    + intros ch' m' (mt & t' & Hmt & Ht'). destruct (decide ((ch', m') = (ch, m))) as [Heq|Hne].
      * rewrite Heq, Hm in Hmt. by simplify_eq/=.
      * exists mt, t'. by rewrite lookup_insert_ne.
    + intros _. eexists _, t. by rewrite lookup_insert_eq.
  - split_and!; [done..|]. by intros [].
Qed.

Lemma maybe_decode_cases ch m s e :
  lookup_session e ch m = Some s →
  let e' := maybe_decode_and_deliver ch m e in
  let '(r, s') := Session.decode_and_finish s in
  lookup_session e' ch m = Some s' ∧
  (∀ ch' m', (ch', m') ≠ (ch, m) → lookup_session e' ch' m' = lookup_session e ch' m') ∧
  delivered e' = match r with
                 | Ok p => snd (try_send (mkDelivered ch m p) (delivered e))
                 | Err _ => delivered e
                 end ∧
  (∀ ch' m', has_terminal e ch' m' → has_terminal e' ch' m') ∧
  (is_Some (session_meta e !! (ch, m)) → has_terminal e' ch m).
Proof.
  intros Hl. cbv zeta. unfold maybe_decode_and_deliver. rewrite Hl.
  destruct (Session.decode_and_finish s) as [r s'] eqn:Hd.
  set (e1 := update_session ch m s' e).
  destruct (mark_terminal_spec ch m e1) as (Hc & Hdel & Ht & Hm).
  set (e2 := mark_session_terminal ch m e1) in *.
  assert (∀ ch' m', lookup_session e2 ch' m' =
    if decide (ch' = ch ∧ m' = m) then Some s' else lookup_session e ch' m') as Hls.
  { intros ch' m'. rewrite <- (lookup_update_session e ch m s s' ch' m' Hl). fold e1.
    unfold lookup_session. by rewrite Hc. }
  assert (∀ e3, channels e3 = channels e2 → session_meta e3 = session_meta e2 →
    lookup_session e3 ch m = Some s' ∧
    (∀ ch' m', (ch', m') ≠ (ch, m) → lookup_session e3 ch' m' = lookup_session e ch' m') ∧
    (∀ ch' m', has_terminal e ch' m' → has_terminal e3 ch' m') ∧
    (is_Some (session_meta e !! (ch, m)) → has_terminal e3 ch m)) as Hall.
  { intros e3 Hc3 Hm3. unfold lookup_session, has_terminal. rewrite Hc3, Hm3.
    fold (lookup_session e2 ch m). split; [by rewrite Hls, decide_True|]. split; [|done].
    intros ch' m' Hne. fold (lookup_session e2 ch' m').
    rewrite Hls, decide_False; [done|]. intros [-> ->]. done. }
  destruct r as [p|err].
  - rewrite Hdel. change (delivered e1) with (delivered e).
    destruct (try_send _ (delivered e)) as [r' d].
    unfold sm_exec, send. match goal with |- context [net_send ?msg ?n] =>
      destruct (net_send msg n) as [r2 n2] end.
    match goal with |- context [set_net n2 ?x] =>
      destruct (Hall (set_net n2 x) eq_refl eq_refl) as (H1 & H2 & H3 & H4) end.
    split_and!; [exact H1|exact H2|done|exact H3|exact H4].
  - destruct (Hall e2 eq_refl eq_refl) as (H1 & H2 & H3 & H4).
    split_and!; [exact H1|exact H2| |exact H3|exact H4].
    by rewrite Hdel.
Qed.
End decoding.

Section lemmas.
Context {S DE NT CT DT : Type}.
Context `{!Strategy S N BitMap DE, !DrainBound S}.
Context `{!Net NT, !Clock CT, !DeliverySink DeliveredMessage DT}.
Implicit Type e : Engine S NT CT (Recorded DeliveredMessage DT).

(** The state of a session, if it is live. *)
Definition st e (ch m : string) : option SessionState.t := state <$> lookup_session e ch m.

(** Nothing is delivered and no session changes its state. *)
Record quiet e e' : Prop := {
  qt_offered : offered (delivered e') = offered (delivered e);
  qt_meta : session_meta e' = session_meta e;
  qt_st : ∀ ch m, st e' ch m = st e ch m
}.

#[export] Instance quiet_po : PreOrder quiet.
Proof.
  split; [by intros e; split|]. intros e1 e2 e3 [] []. split; congruence.
Qed.

Lemma quiet_update ch m s s' e :
  lookup_session e ch m = Some s → state s' = state s →
  quiet e (update_session ch m s' e).
Proof.
  intros Hl Hs. split; [done..|]. intros ch' m'. unfold st.
  erewrite lookup_update_session by done.
  case_decide as Hd; [|done]. destruct Hd as [-> ->]. rewrite Hl. simpl. congruence.
Qed.

Lemma session_poll_state (s : Session S) : state (snd (Session.poll s)) = state s.
Proof.
  unfold Session.poll. destruct (poll_routing _ _) as [r x].
  by destruct (poll_chunks x).
Qed.

#[export] Instance quiet_drain : DrainRel quiet.
Proof.
  split.
  - apply _.
  - intros msg e _. unfold send. by destruct (net_send msg (net e)).
  - done.
  - done.
  - intros ch m s e Hl. eapply quiet_update; [done|]. apply session_poll_state.
  - intros ch m s p h ok e Hl. by eapply quiet_update.
Qed.

Lemma quiet_now e : quiet e (snd (now e)).
Proof. unfold now. by destruct (clock_now (clock e)). Qed.

Lemma quiet_channels v e :
  (∀ ch m, st (set_channels v e) ch m = st e ch m) → quiet e (set_channels v e).
Proof. by split. Qed.

Lemma quiet_alter (f : Channel S → Channel S) ch e :
  (∀ c m, state <$> sessions (f c) !! m = state <$> sessions c !! m) →
  quiet e (set_channels (alter f ch (channels e)) e).
Proof.
  intros Hf. apply quiet_channels. intros ch' m. unfold st, lookup_session, Channel.session_mut.
  simpl. destruct (decide (ch' = ch)) as [->|]; [|by rewrite lookup_alter_ne].
  rewrite lookup_alter_eq. destruct (channels e !! ch); [apply Hf|done].
Qed.

Lemma subscribe_state (c : Channel S) p m :
  state <$> sessions (Channel.subscribe_peer c p) !! m = state <$> sessions c !! m.
Proof.
  unfold Channel.subscribe_peer. case_decide; [done|]. simpl. rewrite lookup_fmap.
  by destruct (sessions c !! m).
Qed.

Lemma unsubscribe_state (c : Channel S) p m :
  state <$> sessions (Channel.unsubscribe_peer c p) !! m = state <$> sessions c !! m.
Proof.
  unfold Channel.unsubscribe_peer. case_decide; [|done]. simpl. rewrite lookup_fmap.
  by destruct (sessions c !! m).
Qed.

Lemma quiet_subscribe_to ch p e : quiet e (subscribe_to ch p e).
Proof. apply quiet_alter. intros. apply subscribe_state. Qed.

Lemma quiet_subscribe_all p l e :
  quiet e (foldl (λ e ch, sm_exec (drain_channel ch) (subscribe_to ch p e)) e l).
Proof.
  revert e; induction l as [|ch l IH]; intros e; [done|]. simpl.
  etrans; [apply (quiet_subscribe_to ch p)|]. etrans; [|apply IH].
  apply (drain_channel_rel quiet).
Qed.

Lemma quiet_handshake p v l e : quiet e (on_handshake p v l e).
Proof.
  unfold on_handshake. case_decide; [|done].
  etrans; [|apply quiet_subscribe_all]. done.
Qed.

Lemma quiet_disconnect p e : quiet e (on_disconnect p e).
Proof.
  unfold on_disconnect. set (e1 := set_opened_to _ _). etrans; [by instantiate (1 := e1)|].
  apply quiet_channels. intros ch m. unfold st, lookup_session, Channel.session_mut. simpl.
  rewrite lookup_fmap. destruct (channels e !! ch) as [c|]; [|done]. apply unsubscribe_state.
Qed.

Lemma quiet_register p e : quiet e (sm_exec (register_peer_and_handshake p) e).
Proof.
  unfold sm_exec, register_peer_and_handshake. case_decide; [done|].
  etrans; [|by apply dr_send]. done.
Qed.

Lemma quiet_detach ch m p b e : quiet e (detach_session_peer ch m p b e).
Proof.
  unfold detach_session_peer. destruct (lookup_session e ch m) as [s|] eqn:Hl; [|done].
  by eapply quiet_update.
Qed.

Lemma quiet_park ch m i d e : quiet e (park_chunk ch m i d e).
Proof.
  unfold park_chunk. pose proof (quiet_now e). destruct (now e) as [t e1]. simpl in *.
  etrans; [done|]. done.
Qed.

Lemma quiet_resolve p ch m t b e : quiet e (resolve_chunk_send p ch m t b e).
Proof.
  unfold resolve_chunk_send. destruct (pending_sends e !! (ch, m, t)); [|done].
  set (e1 := set_pending_sends _ e). etrans; [by instantiate (1 := e1)|].
  etrans; [|apply (drain_session_rel quiet)].
  destruct (lookup_session e1 ch m) as [s|] eqn:Hl; [|done]. by eapply quiet_update.
Qed.

(** ** Chunks *)

(** What taking chunks for session [(ch, m)] does: at most, that session turns
    from consuming to decoding, and then [b] says so. *)
Record takes (ch m : string) (b : bool) e e' : Prop := {
  tk_offered : offered (delivered e') = offered (delivered e);
  tk_meta : session_meta e' = session_meta e;
  tk_other ch' m' : (ch', m') ≠ (ch, m) → st e' ch' m' = st e ch' m';
  tk_st : st e' ch m = st e ch m ∨
    st e ch m = Some SessionState.Consuming ∧ st e' ch m = Some SessionState.Decoding ∧
    b = true
}.

Lemma takes_quiet ch m b e1 e2 e3 : takes ch m b e1 e2 → quiet e2 e3 → takes ch m b e1 e3.
Proof.
  intros [] []. split; [congruence..| |].
  - intros ch' m' Hne. rewrite qt_st0. auto.
  - by rewrite qt_st0.
Qed.

Lemma quiet_takes ch m e1 e2 : quiet e1 e2 → takes ch m false e1 e2.
Proof. intros []. split; auto. Qed.

Lemma takes_trans ch m b b' e1 e2 e3 :
  takes ch m b e1 e2 → takes ch m b' e2 e3 → takes ch m (b || b') e1 e3.
Proof.
  intros [] []. split; [congruence..| |].
  - intros. rewrite tk_other1 by done. auto.
  - rewrite orb_true_iff. destruct tk_st0 as [?|(? & ? & ?)], tk_st1 as [?|(? & ? & ?)];
      [left|right|right|]; split_and?; try congruence; auto.
Qed.

Lemma channel_take_chunk_takes ch m i d e :
  let '(b, e') := channel_take_chunk ch m i d e in takes ch m b e e'.
Proof.
  unfold channel_take_chunk. destruct (channels e !! ch) as [c|] eqn:Hc; [|by apply quiet_takes].
  unfold Channel.take_chunk. destruct (sessions c !! m) as [s|] eqn:Hs.
  2: { apply quiet_takes, quiet_channels. intros ch' m'.
       unfold st, lookup_session. simpl. destruct (decide (ch' = ch)) as [->|];
         [by rewrite lookup_insert_eq, Hc|by rewrite lookup_insert_ne]. }
  destruct (Session.take_chunk s i d) as [r s'] eqn:Ht.
  assert (∀ ch' m', st (set_channels (<[ch := Channel.with_sessions c (<[m := s']> (sessions c))]>
    (channels e)) e) ch' m' = if decide ((ch', m') = (ch, m)) then Some (state s')
    else st e ch' m') as Hst.
  { intros ch' m'. unfold st, lookup_session, Channel.session_mut. simpl.
    destruct (decide (ch' = ch)) as [->|]; [|rewrite lookup_insert_ne by done;
      by rewrite decide_False by congruence].
    rewrite lookup_insert_eq, Hc. simpl. destruct (decide (m' = m)) as [->|].
    - by rewrite lookup_insert_eq, decide_True.
    - rewrite lookup_insert_ne by done. by rewrite decide_False by congruence. }
  split; [done..| |].
  - intros ch' m' Hne. by rewrite Hst, decide_False.
  - rewrite Hst, decide_True by done.
    assert (st e ch m = Some (state s)) as ->
      by (unfold st, lookup_session, Channel.session_mut; by rewrite Hc; simpl; rewrite Hs).
    unfold Session.take_chunk in Ht. destruct (state s) eqn:E; try (left; simplify_eq; congruence).
    destruct (take_chunk (strategy s) i d) as [[o|err] x]; [|left; by simplify_eq].
    destruct (complete o && _) eqn:Ho; simplify_eq; [right|left; done].
    apply andb_true_iff in Ho as [Ho _]. simpl. auto.
Qed.

Lemma replay_chunks_takes ch m l b e :
  let '(b', e') := replay_chunks ch m l b e in takes ch m b' e e' ∧ (b = true → b' = true).
Proof.
  revert b e; induction l as [|c l IH]; intros b e; cbn [replay_chunks].
  { split; [|done]. split; auto. }
  pose proof (channel_take_chunk_takes ch m (pk_chunk_id c) (pk_payload c) e) as H1.
  destruct (channel_take_chunk _ _ _ _ e) as [b1 e1]. specialize (IH (b || b1) e1).
  destruct (replay_chunks ch m l (b || b1) e1) as [b' e']. destruct IH as [H2 Hb].
  split; [|intros ->; by apply Hb]. pose proof (takes_trans _ _ _ _ _ _ _ H1 H2) as [].
  split; [done..|]. destruct tk_st0 as [?|(? & ? & Hbb)]; [by left|right].
  split; [done|]. split; [done|]. apply orb_true_iff in Hbb as [->|]; [|done].
  apply Hb, orb_true_r.
Qed.

(** ** Decoding and delivering *)

Lemma maybe_decode_spec ch m s e :
  lookup_session e ch m = Some s →
  let e' := maybe_decode_and_deliver ch m e in
  let '(r, s') := Session.decode_and_finish s in
  lookup_session e' ch m = Some s' ∧
  (∀ ch' m', (ch', m') ≠ (ch, m) → lookup_session e' ch' m' = lookup_session e ch' m') ∧
  offered (delivered e') = offered (delivered e) ++
    match r with Ok p => [mkDelivered ch m p] | Err _ => [] end ∧
  (∀ ch' m', has_terminal e ch' m' → has_terminal e' ch' m') ∧
  (is_Some (session_meta e !! (ch, m)) → has_terminal e' ch m).
Proof.
  intros Hl. pose proof (maybe_decode_cases ch m s e Hl) as Hd. cbv zeta in *.
  destruct (Session.decode_and_finish s) as [r s']. destruct Hd as (H1 & H2 & -> & H3 & H4).
  split_and!; [done..| |done|done]. destruct r as [p|err]; [|by rewrite app_nil_r].
  unfold try_send, DeliverySink_Recorded. by destruct (try_send _ (sink (delivered e))).
Qed.

(** ** The specification of an event *)

(** Between events no session is decoding, and the disposal clock of every
    finished one is running. *)
Definition settled e : Prop := ∀ ch m,
  st e ch m ≠ Some SessionState.Decoding ∧
  (st e ch m = Some SessionState.Reconstructed ∨ st e ch m = Some SessionState.Failed →
   has_terminal e ch m).

(** [l] is delivered on the way from [e] to [e']. *)
Definition delivers e e' (l : list DeliveredMessage) : Prop :=
  offered (delivered e') = offered (delivered e) ++ l ∧ (length l ≤ 1)%nat ∧
  (∀ ch m x, st e ch m = Some x → x ≠ SessionState.Consuming → st e' ch m = Some x) ∧
  (∀ ch m p, mkDelivered ch m p ∈ l ↔
    st e ch m ≠ Some SessionState.Reconstructed ∧
    ∃ s, lookup_session e' ch m = Some s ∧ state s = SessionState.Reconstructed ∧
      decode (strategy s) = Ok p).

Lemma st_Some e ch m x : st e ch m = Some x ↔ ∃ s, lookup_session e ch m = Some s ∧ state s = x.
Proof. unfold st. rewrite fmap_Some. naive_solver. Qed.

(** Nothing is delivered when no session becomes reconstructed. *)
Lemma delivers_nil e e' :
  offered (delivered e') = offered (delivered e) →
  (∀ ch m, st e' ch m = st e ch m ∨
     st e ch m = None ∧ st e' ch m ≠ Some SessionState.Reconstructed) →
  delivers e e' [].
Proof.
  intros Ho Hs. split; [by rewrite app_nil_r|]. split; [simpl; lia|]. split.
  - intros ch m x Hx _. destruct (Hs ch m) as [->|[? _]]; congruence.
  - intros ch m p. split; [by intros ?%elem_of_nil|]. intros (Hne & s & Hl & Hst & _).
    assert (st e' ch m = Some SessionState.Reconstructed) as H1 by (apply st_Some; eauto).
    destruct (Hs ch m) as [?|[_ ?]]; congruence.
Qed.

Lemma settled_quiet e e' : settled e → quiet e e' → settled e'.
Proof.
  intros He [_ Hm Hs] ch m. unfold has_terminal. rewrite Hs, Hm. apply He.
Qed.

Lemma quiet_delivers e e' : quiet e e' → delivers e e' [].
Proof. intros []. apply delivers_nil; [done|]. auto. Qed.

(** A step that delivers nothing and at most adds a session, in front. *)
Lemma delivers_after e e1 e2 l :
  offered (delivered e1) = offered (delivered e) →
  (∀ ch m, st e1 ch m = st e ch m ∨
     st e ch m = None ∧ st e1 ch m = Some SessionState.Consuming) →
  delivers e1 e2 l → delivers e e2 l.
Proof.
  intros Ho Hs (H1 & H2 & H3 & H4). split; [congruence|]. split; [done|]. split.
  - intros ch m x Hx. destruct (Hs ch m) as [E|[? _]]; [|congruence].
    apply H3. by rewrite E.
  - intros ch m p. rewrite H4. destruct (Hs ch m) as [->|[-> ->]]; [done|].
    split; intros [_ ?]; by split.
Qed.

(** Taking chunks and decoding when a session says it is complete. *)
Lemma finish_spec ch m b e e1 :
  settled e → is_Some (session_meta e !! (ch, m)) → takes ch m b e e1 →
  let e2 := if b then maybe_decode_and_deliver ch m e1 else e1 in
  settled e2 ∧ ∃ l, delivers e e2 l.
Proof.
  intros He Hmeta [Ho Hm Hoth Hst]. cbv zeta. destruct (He ch m) as [Hnd _].
  assert (∀ ch' m', has_terminal e ch' m' → has_terminal e1 ch' m') as Hterm.
  { unfold has_terminal. by rewrite Hm. }
  assert (st e1 ch m = st e ch m → quiet e e1) as Hq.
  { intros Heq. split; [done|done|]. intros ch' m'.
    destruct (decide ((ch', m') = (ch, m))) as [[= -> ->]|]; auto. }
  destruct b.
  2: { destruct Hst as [Hst|(_ & _ & ?)]; [|done]. specialize (Hq Hst).
       split; [by eapply settled_quiet|]. exists []. by apply quiet_delivers. }
  destruct (lookup_session e1 ch m) as [s|] eqn:Hl.
  2: { unfold maybe_decode_and_deliver. rewrite Hl.
       destruct Hst as [Hst|(_ & Hst & _)]; [|unfold st in Hst; by rewrite Hl in Hst].
       specialize (Hq Hst). split; [by eapply settled_quiet|].
       exists []. by apply quiet_delivers. }
  pose proof (maybe_decode_spec ch m s e1 Hl) as Hd. cbv zeta in Hd.
  set (e2 := maybe_decode_and_deliver ch m e1) in *.
  destruct (Session.decode_and_finish s) as [r s'] eqn:Hdf.
  destruct Hd as (Hl2 & Hoth2 & Ho2 & Ht2 & Htm). rewrite Hm in Htm. specialize (Htm Hmeta).
  assert (st e2 ch m = Some (state s')) as Hst2 by (unfold st; by rewrite Hl2).
  assert (∀ ch' m', (ch', m') ≠ (ch, m) → st e2 ch' m' = st e ch' m') as Hother.
  { intros ch' m' Hne. unfold st at 1. rewrite Hoth2 by done. by apply Hoth. }
  assert (settled e2 ↔ state s' ≠ SessionState.Decoding) as Hset.
  { split.
    - intros Hse. destruct (Hse ch m) as [Hx _]. congruence.
    - intros Hx ch' m'. destruct (decide ((ch', m') = (ch, m))) as [[= -> ->]|Hne].
      + split; [congruence|done].
      + rewrite Hother by done. destruct (He ch' m'). split; [done|]. eauto. }
  assert (st e1 ch m = Some (state s)) as Hst1 by (unfold st; by rewrite Hl).
  rewrite Hset. unfold Session.decode_and_finish in Hdf.
  destruct (decide (state s ≠ SessionState.Decoding)) as [Hdec|Hdec].
  { simplify_eq. split; [done|]. exists []. apply delivers_nil.
    - by rewrite Ho2, app_nil_r.
    - intros ch' m'. left. destruct (decide ((ch', m') = (ch, m))) as [[= -> ->]|Hne]; [|auto].
      rewrite Hst2. destruct Hst as [Hst|(_ & Hst & _)]; congruence. }
  apply dec_stable in Hdec.
  assert (st e ch m = Some SessionState.Consuming) as Hcons.
  { destruct Hst as [Hst|(Hst & _)]; [congruence|done]. }
  assert (∀ ch' m' x, st e ch' m' = Some x → x ≠ SessionState.Consuming →
    st e2 ch' m' = Some x) as Hkeep.
  { intros ch' m' x Hx Hne. rewrite Hother; [done|]. congruence. }
  destruct (decode (strategy s)) as [p|err] eqn:Hdecode; simplify_eq.
  - split; [done|]. exists [mkDelivered ch m p]. split; [by rewrite Ho2, Ho|].
    split; [simpl; lia|]. split; [done|]. intros ch' m' q. rewrite list_elem_of_singleton.
    destruct (decide ((ch', m') = (ch, m))) as [[= -> ->]|Hne].
    + rewrite Hl2, Hcons. split.
      * intros [= ->]. split; [done|]. eexists. split; [done|]. done.
      * intros (_ & s2 & [= <-] & _ & Hq2). simpl in Hq2. congruence.
    + split; [congruence|]. intros (Hr & s2 & Hs2 & Hst2' & _). destruct Hr.
      rewrite <- Hother by done. apply st_Some. eauto.
  - split; [done|]. exists []. split; [by rewrite Ho2, Ho, app_nil_r|].
    split; [simpl; lia|]. split; [done|]. intros ch' m' q.
    split; [by intros ?%elem_of_nil|]. intros (Hr & s2 & Hs2 & Hst2' & _).
    destruct (decide ((ch', m') = (ch, m))) as [[= -> ->]|Hne].
    + rewrite Hl2 in Hs2. simplify_eq.
    + destruct Hr. rewrite <- Hother by done. apply st_Some. eauto.
Qed.

(** The event neither delivers nor touches a session's state. *)
Lemma quiet_spec e e' : settled e → quiet e e' → settled e' ∧ ∃ l, delivers e e' l.
Proof.
  intros He Hq. split; [by eapply settled_quiet|]. exists []. by apply quiet_delivers.
Qed.

Lemma on_chunk_spec ch m i d e :
  coherent e → settled e →
  settled (on_chunk ch m i d e) ∧ ∃ l, delivers e (on_chunk ch m i d e) l.
Proof.
  intros Hco He. unfold on_chunk. destruct (is_tombstoned e ch m); [by apply quiet_spec|].
  destruct (lookup_session e ch m) as [s|] eqn:Hl;
    [|apply quiet_spec; [done|]; apply quiet_park].
  pose proof (channel_take_chunk_takes ch m i d e) as Ht.
  destruct (channel_take_chunk ch m i d e) as [b e1]. apply finish_spec; [done| |].
  - apply Hco. by exists s.
  - eapply takes_quiet; [exact Ht|]. apply (drain_session_rel quiet).
Qed.

Lemma replay_parked_spec ch m e :
  coherent e → settled e → live e ch m →
  settled (replay_parked_chunks ch m e) ∧ ∃ l, delivers e (replay_parked_chunks ch m e) l.
Proof.
  intros Hco He Hlive. unfold replay_parked_chunks.
  destruct (parked_chunks e !! (ch, m)) as [l|]; [|by apply quiet_spec].
  set (e1 := set_parked_chunks _ e).
  pose proof (replay_chunks_takes ch m l false e1) as Ht.
  destruct (replay_chunks ch m l false e1) as [b e2]. destruct Ht as [[Ho Hm Hoth Hst] _].
  apply (finish_spec ch m b e); [done|by apply Hco|].
  eapply takes_quiet; [|apply (drain_session_rel quiet)]. by split.
Qed.

(** A new session with its bookkeeping. *)
Lemma new_session_st ch m c c0 s pre e :
  let e1 := record_session_created ch m
    (set_session_preambles (<[(ch, m) := pre]> (session_preambles e))
      (set_channels (<[ch := c]> (channels e)) e)) in
  coherent e → settled e → channels e !! ch = Some c0 → sessions c0 !! m = None →
  sessions c = <[m := s]> (sessions c0) →
  state s = SessionState.Consuming ∨ state s = SessionState.Origin →
  settled e1 ∧ offered (delivered e1) = offered (delivered e) ∧
  ∀ ch' m', st e1 ch' m' = if decide ((ch', m') = (ch, m)) then Some (state s)
                          else st e ch' m'.
Proof.
  intros e1 Hco He Hc Hm Hs Hstate.
  assert (∀ ch' m', st e1 ch' m' = if decide ((ch', m') = (ch, m)) then Some (state s)
                          else st e ch' m') as Hst.
  { intros ch' m'. unfold st, lookup_session, Channel.session_mut, e1.
    destruct (record_session_created_tombstones ch m
      (set_session_preambles (<[(ch, m) := pre]> (session_preambles e))
        (set_channels (<[ch := c]> (channels e)) e))) as (_ & -> & _). simpl.
    destruct (decide (ch' = ch)) as [->|].
    - rewrite lookup_insert_eq, Hc. simpl. rewrite Hs.
      destruct (decide (m' = m)) as [->|]; [by rewrite lookup_insert_eq, decide_True|].
      rewrite lookup_insert_ne by done. rewrite decide_False by congruence. done.
    - rewrite lookup_insert_ne by done. rewrite decide_False by congruence. done. }
  assert (¬ is_Some (session_meta e !! (ch, m))) as Hno.
  { rewrite (co_meta e Hco). intros [s' (c' & Hc' & Hs')%lookup_session_Some]. congruence. }
  assert (delivered e1 = delivered e ∧ ∀ k, k ≠ (ch, m) →
    session_meta e1 !! k = session_meta e !! k) as [Hdel Hmeta].
  { unfold e1, record_session_created. simpl.
    rewrite (proj2 (contains_key_false _ _)) by by apply eq_None_not_Some.
    unfold now. simpl. destruct (clock_now (clock e)) as [t ck]. simpl. split; [done|].
    intros k Hk. by rewrite lookup_insert_ne. }
  split; [|by rewrite Hdel]. intros ch' m'. rewrite Hst. case_decide as Hk.
  - split; [destruct Hstate; congruence|]. intros [Hx|Hx]; destruct Hstate; congruence.
  - unfold has_terminal. rewrite Hmeta by done. apply He.
Qed.

Lemma on_session_open_spec ch m pre e :
  coherent e → settled e →
  settled (on_session_open ch m pre e) ∧ ∃ l, delivers e (on_session_open ch m pre e) l.
Proof.
  intros Hco He. unfold on_session_open.
  destruct (is_tombstoned e ch m); [by apply quiet_spec|].
  destruct (channels e !! ch) as [c|] eqn:Hc; [|by apply quiet_spec].
  pose proof (Channel.open_session_cases m pre c) as Ho.
  destruct (Channel.open_session m pre c) as [[[]|err] c'].
  - destruct Ho as (_ & Hm & x & n & _ & Hs). cbv zeta.
    set (s := Channel.attach_all c (Session.new_relay x)) in *.
    assert (state s = SessionState.Consuming) as Hcons
      by (unfold s; by rewrite Channel.attach_all_state).
    pose proof (opens_new ch m c' c s pre e Hco Hc Hm Hs) as (Hco1 & _ & _).
    destruct (new_session_st ch m c' c s pre e Hco He Hc Hm Hs (or_introl Hcons))
      as (He1 & Ho1 & Hst1).
    set (e1 := record_session_created _ _ _) in *.
    pose proof (drain_session_rel quiet ch m e1) as Hq.
    pose proof (drain_session_evolves ch m e1) as Hev.
    assert (live e1 ch m) as Hlive.
    { unfold live. specialize (Hst1 ch m). rewrite decide_True in Hst1 by done.
      apply st_Some in Hst1 as (s1 & Hl & _). by exists s1. }
    unfold sm_exec in *. set (e2 := snd (drain_session ch m e1)) in *.
    destruct (replay_parked_spec ch m e2) as [Hset [l Hl]];
      [by eapply evolves_coherent|by eapply settled_quiet|by apply (ev_live _ _ Hev)|].
    split; [done|]. exists l. eapply delivers_after; [| |exact Hl].
    + by rewrite (qt_offered _ _ Hq).
    + intros ch' m'. rewrite (qt_st _ _ Hq), Hst1. case_decide as Hk; [|by left].
      right. split; [|by rewrite Hcons]. injection Hk as -> ->.
      unfold st, lookup_session, Channel.session_mut. by rewrite Hc; simpl; rewrite Hm.
  - destruct Ho as [_ Hs]. apply quiet_spec; [done|]. apply quiet_channels.
    intros ch' m'. unfold st, lookup_session, Channel.session_mut. simpl.
    destruct (decide (ch' = ch)) as [->|]; [|by rewrite lookup_insert_ne].
    rewrite lookup_insert_eq, Hc. simpl. by rewrite Hs.
Qed.

Lemma handle_event_spec ev e :
  coherent e → settled e →
  settled (handle_event ev e) ∧ ∃ l, delivers e (handle_event ev e) l.
Proof.
  intros Hco He. destruct ev as [p v l s|p ch|p ch|p ch m pre iu|p ch m pl|p ch m i pl|p|p|
    p ch m t ok|p ch m|p ch m]; cbn [handle_event];
    try (apply on_session_open_spec; done); try (apply on_chunk_spec; done);
    apply quiet_spec; try done.
  - apply quiet_handshake.
  - etrans; [apply (quiet_subscribe_to ch p)|]. apply (drain_channel_rel quiet).
  - apply quiet_alter. intros. apply unsubscribe_state.
  - apply quiet_disconnect.
  - apply quiet_register.
  - apply quiet_resolve.
  - apply quiet_detach.
  - apply quiet_detach.
Qed.

(** ** All runs *)

Lemma settled_cleanup t e : coherent e → settled e → settled (run_cleanup t e).
Proof.
  intros Hco He. destruct (run_cleanup_spec t e Hco) as (_ & Hs & Hm & _).
  intros ch m. unfold has_terminal, st. rewrite Hs, Hm.
  case_decide; [by split; [|intros []]|]. apply He.
Qed.

Lemma settled_maybe_cleanup e : coherent e → settled e → settled (maybe_run_cleanup e).
Proof.
  intros Hco He. unfold maybe_run_cleanup. pose proof (quiet_now e) as Hq.
  pose proof (now_evolves e) as Hev. destruct (now e) as [t e1]. simpl in *.
  assert (settled e1) as He1 by by eapply settled_quiet.
  assert (coherent e1) as Hco1 by by eapply evolves_coherent.
  case_decide; [done|]. apply settled_cleanup; [|done]. by destruct Hco1; split.
Qed.

Lemma settled_publish ch m x pre e :
  coherent e → settled e → settled (sm_exec (publish ch m x pre) e).
Proof.
  intros Hco He. unfold sm_exec, publish.
  destruct (channels e !! ch) as [c|] eqn:Hc; [|done].
  pose proof (Channel.start_origin_cases m x c) as Ho.
  destruct (Channel.start_origin_session m x c) as [[[]|err] c'].
  - destruct Ho as (_ & Hm & Hs). cbv zeta.
    set (s := Channel.attach_all c (Session.new_origin x)) in *.
    assert (state s = SessionState.Origin) as Horigin
      by (unfold s; by rewrite Channel.attach_all_state).
    destruct (new_session_st ch m c' c s pre e Hco He Hc Hm Hs (or_intror Horigin))
      as (He1 & _).
    eapply settled_quiet; [exact He1|]. unfold mbind, SM_bind.
    match goal with |- context [sm_for ?f ?l ?y] =>
      pose proof (sm_for_rel quiet f l y (λ p e, ensure_rel quiet ch m p e)) as H2;
      destruct (sm_for f l y) as [[[]|err] e2] end; [|done].
    etrans; [exact H2|]. apply (drain_session_rel quiet).
  - destruct Ho as [_ ->]. eapply settled_quiet; [exact He|]. apply quiet_channels.
    intros ch' m'. unfold st, lookup_session, Channel.session_mut. simpl.
    destruct (decide (ch' = ch)) as [->|]; [|by rewrite lookup_insert_ne].
    by rewrite lookup_insert_eq, Hc.
Qed.

Lemma settled_exec o e : coherent e → settled e → settled (exec o e).
Proof.
  intros Hco He. destruct o as [ch f|p|ch m x pre|ev]; cbn [exec].
  - eapply settled_quiet; [exact He|]. unfold sm_exec, subscribe.
    etrans; [|apply (sm_for_rel quiet); intros; by apply dr_send].
    destruct (contains_key (channels e) ch) eqn:Hk; [done|].
    apply contains_key_false in Hk. apply quiet_channels. intros ch' m.
    unfold st, lookup_session, Channel.session_mut. simpl.
    destruct (decide (ch' = ch)) as [->|]; [|by rewrite lookup_insert_ne].
    by rewrite lookup_insert_eq, Hk.
  - eapply settled_quiet; [exact He|]. apply quiet_register.
  - by apply settled_publish.
  - unfold run_one_step. simpl. apply settled_maybe_cleanup;
      [by apply handle_event_coherent|by apply handle_event_spec].
Qed.

Lemma run_settled p nt d cfg ck os :
  settled (run os (with_config p nt d cfg ck : Engine S NT CT (Recorded DeliveredMessage DT))).
Proof.
  assert (∀ os e, coherent e → settled e → settled (run os e)) as Hrun.
  { clear. induction os as [|o os IH]; intros e Hco He; [done|].
    apply IH; [by apply exec_coherent|by apply settled_exec]. }
  apply Hrun; [apply with_config_coherent|]. unfold with_config.
  destruct (clock_now ck) as [t c]. intros ch m. unfold st, lookup_session. simpl.
  rewrite lookup_empty. split; [done|]. by intros [].
Qed.
End lemmas.
End DeliverLemmas.

(** * Properties *)
Section properties.
Context {S DE NT CT DT : Type}.
Context `{!Strategy S N BitMap DE, !DrainBound S}.
Context `{!Net NT, !Clock CT, !DeliverySink DeliveredMessage DT}.
Import Engine.

(** C15: delivery is exact: an event delivers at most one message, and it delivers
    the message of a session exactly when that session becomes reconstructed in
    the event, with the payload its strategy decodes.  A session that is an
    origin, reconstructed or failed stays so, between events no session is
    decoding, and every finished session has its disposal clock running. *)
Theorem delivery_exact (p : N) (nt : NT) (d : DT) (cfg : EngineConfig) (ck : CT)
    (os : list (op (S:=S))) (ev : NetEvent.t) :
  let e : Engine S NT CT (Recorded DeliveredMessage DT) :=
    run os (with_config p nt (mkRecorded d []) cfg ck) in
  let e' := handle_event ev e in
  let st e ch m := state <$> lookup_session e ch m in
  (∃ l, offered (delivered e') = offered (delivered e) ++ l ∧ (length l ≤ 1)%nat ∧
    ∀ ch m payload, mkDelivered ch m payload ∈ l ↔
      st e ch m ≠ Some SessionState.Reconstructed ∧
      ∃ s, lookup_session e' ch m = Some s ∧ state s = SessionState.Reconstructed ∧
        decode (strategy s) = Ok payload) ∧
  (∀ ch m x, st e ch m = Some x → x ≠ SessionState.Consuming → st e' ch m = Some x) ∧
  (∀ ch m, st e' ch m ≠ Some SessionState.Decoding) ∧
  (∀ ch m, st e' ch m = Some SessionState.Reconstructed ∨
           st e' ch m = Some SessionState.Failed →
     ∃ mt t, session_meta e' !! (ch, m) = Some mt ∧ terminal_at mt = Some t).
Proof.
  cbv zeta. set (e := run os _).
  assert (EngineLemmas.coherent e) as Hco
    by apply EngineLemmas.run_coherent, EngineLemmas.with_config_coherent.
  pose proof (DeliverLemmas.run_settled p nt (mkRecorded d []) cfg ck os) as He. fold e in He.
  destruct (DeliverLemmas.handle_event_spec ev e Hco He) as (Hset & l & Ho & Hlen & Hk & Hl).
  split; [by exists l|]. split; [exact Hk|].
  split; intros ch m; apply (Hset ch m).
Qed.
End properties.
