(* ===== verification/EngineObserve.v ===== *)
(** One session of an engine, seen through what only its chunks change.

    [kept] says that the session is still there, in the same state and with the
    same observation, and that no delivery is undone.  Every event keeps every
    session so, except a chunk of the session itself: [event_kept].  What such a
    chunk does is the business of the strategy; [take_step] and [finish_step]
    give the shape of it. *)
From Stdlib Require Import NArith Lia.
From stdpp Require Import base gmap option strings list.
From S2P Require Import Prelude BitMap Strategy Session Channel Runtime Engine.
From S2P Require Import EngineInv EngineRel EnginePark EngineDeliver.

Open Scope N_scope.

(** An observation of a strategy that only [take_chunk] changes. *)
Class Unmoved {S RU DE A : Type} `{!Strategy S N RU DE} (f : S → A) : Prop := {
  um_attach s p : f (attach_peer s p) = f s;
  um_detach s p b : f (detach_peer s p b) = f s;
  um_sent s p h ok : f (chunk_sent s p h ok) = f s;
  um_poll_routing s b : f (snd (poll_routing s b)) = f s;
  um_poll_chunks s : f (snd (poll_chunks s)) = f s
}.

(** A relation of delivery channels that every delivery respects. *)
Class Lasting {M DT : Type} `{!DeliverySink M DT} (Del : relation DT) : Prop :=
  lasting x d : Del d (snd (try_send x d)).

Module Observe.
Import Engine EngineLemmas DrainRel DeliverLemmas.
Section observe.
Context {S DE NT CT DT A : Type}.
Context `{!Strategy S N BitMap DE, !DrainBound S}.
Context `{!Net NT, !Clock CT, !DeliverySink DeliveredMessage DT}.
Context (f : S → A) `{!Unmoved f} (Del : relation DT) `{!PreOrder Del}.
Context (ch m : string).
Implicit Type e : Engine S NT CT DT.

(** Two sessions that look the same. *)
Definition alike (s s' : Session S) : Prop :=
  state s' = state s ∧ f (strategy s') = f (strategy s).

#[export] Instance alike_po : PreOrder alike.
Proof. split; [by intros s|]. intros s1 s2 s3 [] []. split; congruence. Qed.

Record kept e e' : Prop := {
  kp_delivered : Del (delivered e) (delivered e');
  kp_session s : lookup_session e ch m = Some s →
    ∃ s', lookup_session e' ch m = Some s' ∧ alike s s'
}.

#[export] Instance kept_po : PreOrder kept.
Proof.
  split; [intros e; split; [done|intros s Hs; by exists s]|]. intros e1 e2 e3 [Ho1 H1] [Ho2 H2].
  split; [by etrans|]. intros s (s2 & Hs2 & Ha2)%H1. apply H2 in Hs2 as (s3 & Hs3 & Ha3).
  exists s3. split; [done|]. by etrans.
Qed.

(** ** Sessions change only as observed *)

Lemma poll_alike s : alike s (snd (Session.poll s)).
Proof.
  unfold Session.poll. pose proof (um_poll_routing (strategy s) false) as H1.
  destruct (poll_routing _ _) as [r x]. simpl in H1. pose proof (um_poll_chunks x) as H2.
  destruct (poll_chunks x) as [ds y]. simpl in H2. split; [done|]. cbn. congruence.
Qed.

Lemma sent_alike s p h ok : alike s (Session.chunk_sent s p h ok).
Proof. split; [done|]. apply um_sent. Qed.
Lemma attach_alike s p : alike s (Session.attach_peer s p).
Proof. split; [done|]. apply um_attach. Qed.
Lemma detach_alike s p b : alike s (Session.detach_peer s p b).
Proof. split; [done|]. apply um_detach. Qed.

Lemma attach_all_alike (c : Channel S) s : alike s (Channel.attach_all c s).
Proof.
  unfold Channel.attach_all. generalize (bt_elements (subscribers c)) as l. intros l.
  revert s; induction l as [|p l IH]; intros s; [done|]. simpl.
  etrans; [apply attach_alike|apply IH].
Qed.

(** ** The elementary changes of an engine *)

Lemma kept_same e e' :
  channels e' = channels e → delivered e' = delivered e → kept e e'.
Proof. intros Hc Hd. split; [by rewrite Hd|]. unfold lookup_session. rewrite Hc. intros s Hs. by exists s. Qed.

Lemma kept_channels v e :
  (∀ s, lookup_session e ch m = Some s →
     ∃ s', lookup_session (set_channels v e) ch m = Some s' ∧ alike s s') →
  kept e (set_channels v e).
Proof. by split. Qed.

(** Replacing one session. *)
Lemma kept_update ch' m' s s' e :
  lookup_session e ch' m' = Some s → alike s s' ∨ (ch', m') ≠ (ch, m) →
  kept e (update_session ch' m' s' e).
Proof.
  intros Hl Ha. split; [done|]. intros s0 Hs0. erewrite lookup_update_session by done.
  case_decide as Hd; [|by exists s0]. destruct Hd as [-> ->].
  destruct Ha as [Ha|Hne]; [|done]. exists s'. split; [done|]. congruence.
Qed.

(** Replacing one channel. *)
Lemma kept_insert ch' c c' e :
  channels e !! ch' = Some c →
  (ch' = ch → ∀ s, sessions c !! m = Some s → ∃ s', sessions c' !! m = Some s' ∧ alike s s') →
  kept e (set_channels (<[ch' := c']> (channels e)) e).
Proof.
  intros Hc Hs. apply kept_channels. intros s (c0 & Hc0 & Hs0)%lookup_session_Some.
  setoid_rewrite lookup_session_Some. cbn. destruct (decide (ch' = ch)) as [->|Hne].
  - assert (c0 = c) as -> by congruence. destruct (Hs eq_refl s Hs0) as (s' & Hs' & Ha).
    exists s'. split; [|done]. exists c'. by rewrite lookup_insert_eq.
  - exists s. split; [|done]. exists c0. by rewrite lookup_insert_ne.
Qed.

Lemma kept_alter (g : Channel S → Channel S) ch' e :
  (∀ c s, sessions c !! m = Some s → ∃ s', sessions (g c) !! m = Some s' ∧ alike s s') →
  kept e (set_channels (alter g ch' (channels e)) e).
Proof.
  intros Hg. destruct (channels e !! ch') as [c|] eqn:Hc.
  - assert (alter g ch' (channels e) = <[ch' := g c]> (channels e)) as ->.
    { apply map_eq. intros k. destruct (decide (k = ch')) as [->|].
      - by rewrite lookup_alter_eq, lookup_insert_eq, Hc.
      - by rewrite lookup_alter_ne, lookup_insert_ne. }
    eapply kept_insert; [done|]. eauto.
  - apply kept_channels. intros s (c0 & Hc0 & Hs0)%lookup_session_Some.
    exists s. split; [|done]. apply lookup_session_Some. exists c0. cbn.
    rewrite lookup_alter_ne by congruence. done.
Qed.

Lemma send_kept msg e : kept e (snd (send msg e)).
Proof. unfold send. destruct (net_send msg (net e)). by apply kept_same. Qed.

#[export] Instance kept_drain : DrainRel kept.
Proof.
  split.
  - apply _.
  - intros msg e _. apply send_kept.
  - intros v e. by apply kept_same.
  - intros v e. by apply kept_same.
  - intros ch' m' s e Hl. eapply kept_update; [done|]. left. apply poll_alike.
  - intros ch' m' s p h ok e Hl. eapply kept_update; [done|]. left. apply sent_alike.
Qed.

Lemma now_kept e : kept e (snd (now e)).
Proof. unfold now. destruct (clock_now (clock e)). by apply kept_same. Qed.

(** ** The handlers *)

Lemma subscribe_to_kept ch' p e : kept e (subscribe_to ch' p e).
Proof.
  apply kept_alter. intros c s Hs. unfold Channel.subscribe_peer. case_decide; [by exists s|].
  cbn. rewrite lookup_fmap, Hs. eexists. split; [done|]. apply attach_alike.
Qed.

Lemma unsubscribe_sessions (c : Channel S) p s :
  sessions c !! m = Some s →
  ∃ s', sessions (Channel.unsubscribe_peer c p) !! m = Some s' ∧ alike s s'.
Proof.
  intros Hs. unfold Channel.unsubscribe_peer. case_decide; [|by exists s].
  cbn. rewrite lookup_fmap, Hs. eexists. split; [done|]. apply detach_alike.
Qed.

Lemma handshake_kept p v l e : kept e (on_handshake p v l e).
Proof.
  unfold on_handshake. case_decide; [|by apply kept_same].
  etrans; [by apply (kept_same _ (set_connected ({[p]} ∪ connected e) e))|].
  generalize (set_connected ({[p]} ∪ connected e) e). clear e.
  induction l as [|ch' l IH]; intros e; [done|]. simpl.
  etrans; [apply (subscribe_to_kept ch' p)|].
  etrans; [apply (drain_channel_rel kept ch')|apply IH].
Qed.

Lemma disconnect_kept p e : kept e (on_disconnect p e).
Proof.
  unfold on_disconnect. set (e1 := set_opened_to _ _).
  etrans; [by apply (kept_same e e1)|]. apply kept_channels.
  intros s (c & Hc & Hs)%lookup_session_Some.
  destruct (unsubscribe_sessions c p s Hs) as (s' & Hs' & Ha).
  exists s'. split; [|done]. apply lookup_session_Some.
  exists (Channel.unsubscribe_peer c p). split; [|exact Hs'].
  cbn [channels set_channels]. by rewrite lookup_fmap, Hc.
Qed.

Lemma register_kept p e : kept e (sm_exec (register_peer_and_handshake p) e).
Proof.
  unfold sm_exec, register_peer_and_handshake. case_decide; [done|].
  etrans; [|apply send_kept]. by apply kept_same.
Qed.

Lemma resolve_kept p ch' m' t b e : kept e (resolve_chunk_send p ch' m' t b e).
Proof.
  unfold resolve_chunk_send. destruct (pending_sends e !! (ch', m', t)); [|done].
  set (e1 := set_pending_sends _ e). etrans; [by apply (kept_same e e1)|].
  etrans; [|apply (drain_session_rel kept)].
  destruct (lookup_session e1 ch' m') as [s|] eqn:Hl; [|done].
  eapply kept_update; [done|]. left. apply sent_alike.
Qed.

Lemma detach_kept ch' m' p b e : kept e (detach_session_peer ch' m' p b e).
Proof.
  unfold detach_session_peer. destruct (lookup_session e ch' m') as [s|] eqn:Hl; [|done].
  eapply kept_update; [done|]. left. apply detach_alike.
Qed.

Lemma park_kept ch' m' i d e : kept e (park_chunk ch' m' i d e).
Proof.
  unfold park_chunk. pose proof (now_kept e). destruct (now e) as [t e1].
  etrans; [done|]. by apply kept_same.
Qed.

(** ** Chunks and opens of other sessions *)

(** A chunk reaches its session. *)
Lemma channel_take_at ch' m' i d s e :
  lookup_session e ch' m' = Some s →
  let '(b, e1) := channel_take_chunk ch' m' i d e in
  let '(r, s') := Session.take_chunk s i d in
  (∀ x y, lookup_session e1 x y =
     if decide ((x, y) = (ch', m')) then Some s' else lookup_session e x y) ∧
  delivered e1 = delivered e ∧
  b = match r with Ok o => complete o | Err _ => false end.
Proof.
  intros (c & Hc & Hs)%lookup_session_Some. unfold channel_take_chunk. rewrite Hc.
  unfold Channel.take_chunk. rewrite Hs.
  destruct (Session.take_chunk s i d) as [r s']. split; [|split; [done|by destruct r]].
  intros x y. unfold lookup_session, Channel.session_mut. cbn.
  destruct (decide (x = ch')) as [->|Hx].
  - rewrite lookup_insert_eq, Hc. cbn. destruct (decide (y = m')) as [->|Hy].
    + by rewrite lookup_insert_eq, decide_True.
    + rewrite lookup_insert_ne by done. by rewrite decide_False by congruence.
  - rewrite lookup_insert_ne by done. by rewrite decide_False by congruence.
Qed.

Lemma channel_take_kept ch' m' i d e :
  (ch', m') ≠ (ch, m) → kept e (snd (channel_take_chunk ch' m' i d e)).
Proof.
  intros Hne. destruct (lookup_session e ch' m') as [s|] eqn:Hl.
  - pose proof (channel_take_at ch' m' i d s e Hl) as Ht.
    destruct (channel_take_chunk ch' m' i d e) as [b e1].
    destruct (Session.take_chunk s i d) as [r s']. destruct Ht as (Ht & Hd & _).
    split; cbn; [by rewrite Hd|]. intros s0 Hs0. rewrite Ht, decide_False by done. by exists s0.
  - unfold channel_take_chunk. destruct (channels e !! ch') as [c|] eqn:Hc; [|done].
    unfold Channel.take_chunk.
    unfold lookup_session, Channel.session_mut in Hl. rewrite Hc in Hl. cbn in Hl. rewrite Hl.
    cbn. apply (kept_insert ch' c); [done|]. intros _ s Hs. by exists s.
Qed.

Lemma replay_chunks_kept ch' m' l b e :
  (ch', m') ≠ (ch, m) → kept e (snd (replay_chunks ch' m' l b e)).
Proof.
  intros Hne. revert b e; induction l as [|c l IH]; intros b e; [done|]. cbn [replay_chunks].
  pose proof (channel_take_kept ch' m' (pk_chunk_id c) (pk_payload c) e Hne) as Hc.
  destruct (channel_take_chunk _ _ _ _ e) as [b1 e1]. etrans; [exact Hc|apply IH].
Qed.

(** An open of a session that is there is refused. *)
Lemma open_live_kept pre e : live e ch m → kept e (on_session_open ch m pre e).
Proof.
  intros [s (c & Hc & Hs)%lookup_session_Some]. unfold on_session_open.
  destruct (is_tombstoned e ch m); [done|]. rewrite Hc. unfold Channel.open_session.
  rewrite (proj2 (contains_key_true _ _)) by by eexists.
  apply (kept_insert ch c c e Hc). intros _ s' Hs'. by exists s'.
Qed.

Context `{!Lasting Del}.

Lemma decode_kept ch' m' e :
  (ch', m') ≠ (ch, m) → kept e (maybe_decode_and_deliver ch' m' e).
Proof.
  intros Hne. destruct (lookup_session e ch' m') as [s'|] eqn:Hl.
  - pose proof (maybe_decode_cases ch' m' s' e Hl) as Hd. cbv zeta in Hd.
    destruct (Session.decode_and_finish s') as [r s2]. destruct Hd as (_ & Hoth & Hd & _).
    split; [rewrite Hd; destruct r; [apply lasting|done]|].
    intros s Hs. exists s. split; [by rewrite Hoth|done].
  - unfold maybe_decode_and_deliver. by rewrite Hl.
Qed.

(** A drain, and decoding if asked. *)
Lemma finish_kept ch' m' (b : bool) e :
  (ch', m') ≠ (ch, m) →
  let e1 := sm_exec (drain_session ch' m') e in
  kept e (if b then maybe_decode_and_deliver ch' m' e1 else e1).
Proof.
  intros Hne. cbv zeta. etrans; [apply (drain_session_rel kept ch' m')|].
  destruct b; [by apply decode_kept|done].
Qed.

Lemma replay_kept ch' m' e : (ch', m') ≠ (ch, m) → kept e (replay_parked_chunks ch' m' e).
Proof.
  intros Hne. unfold replay_parked_chunks.
  destruct (parked_chunks e !! (ch', m')) as [l|]; [|done].
  set (e1 := set_parked_chunks _ e). etrans; [by apply (kept_same e e1)|].
  pose proof (replay_chunks_kept ch' m' l false e1 Hne) as Hr.
  destruct (replay_chunks ch' m' l false e1) as [b e2].
  etrans; [exact Hr|]. by apply finish_kept.
Qed.

(** A session that is created, in its channel and with its bookkeeping. *)
Definition created e ch' m' c pre : Engine S NT CT DT :=
  record_session_created ch' m'
    (set_session_preambles (<[(ch', m') := pre]> (session_preambles e))
      (set_channels (<[ch' := c]> (channels e)) e)).

Lemma created_same e ch' m' c pre :
  channels (created e ch' m' c pre) = <[ch' := c]> (channels e) ∧
  delivered (created e ch' m' c pre) = delivered e.
Proof.
  unfold created, record_session_created. destruct (contains_key _ _); [done|].
  unfold now. by destruct (clock_now _).
Qed.

Lemma open_kept ch' m' pre e :
  (ch', m') ≠ (ch, m) ∨ live e ch m → kept e (on_session_open ch' m' pre e).
Proof.
  intros Hne. unfold on_session_open. destruct (is_tombstoned e ch' m'); [done|].
  destruct (channels e !! ch') as [c|] eqn:Hc; [|done].
  pose proof (Channel.open_session_cases m' pre c) as Ho.
  destruct (Channel.open_session m' pre c) as [[[]|err] c'].
  - destruct Ho as (_ & Hm & st & n & _ & Hs).
    assert ((ch', m') ≠ (ch, m)) as Hne'.
    { destruct Hne as [|[s (c0 & Hc0 & Hs0)%lookup_session_Some]]; [done|]. congruence. }
    cbv zeta. fold (created e ch' m' c' pre).
    destruct (created_same e ch' m' c' pre) as [Hch Hd].
    etrans; [|etrans; [apply (drain_session_rel kept ch' m')|by apply replay_kept]].
    etrans; [apply (kept_insert ch' c c' e Hc)|by apply kept_same].
    intros -> s Hs0. exists s. split; [|done]. rewrite Hs, lookup_insert_ne; [done|congruence].
  - destruct Ho as [_ Hs]. eapply kept_insert; [done|]. intros _ s. rewrite Hs. intros. by exists s.
Qed.

Lemma chunk_kept ch' m' i d e : (ch', m') ≠ (ch, m) → kept e (on_chunk ch' m' i d e).
Proof.
  intros Hne. unfold on_chunk. destruct (is_tombstoned e ch' m'); [done|].
  destruct (lookup_session e ch' m'); [|apply park_kept].
  pose proof (channel_take_kept ch' m' i d e Hne) as Hc.
  destruct (channel_take_chunk ch' m' i d e) as [b e1].
  etrans; [exact Hc|]. by apply finish_kept.
Qed.

(** Every event keeps a live session, except a chunk of its own. *)
Lemma event_kept ev e :
  live e ch m → (∀ p i d, ev ≠ NetEvent.Chunk p ch m i d) → kept e (handle_event ev e).
Proof.
  intros Hl Hne. destruct ev as [p v l s|p ch'|p ch'|p ch' m' pre iu|p ch' m' pl|p ch' m' i d|p|p|
    p ch' m' t b|p ch' m'|p ch' m']; cbn [handle_event].
  - apply handshake_kept.
  - etrans; [apply (subscribe_to_kept ch' p)|apply (drain_channel_rel kept)].
  - apply kept_alter. intros c s. apply unsubscribe_sessions.
  - apply open_kept. by right.
  - done.
  - apply chunk_kept. intros [= -> ->]. by apply (Hne p i d).
  - apply disconnect_kept.
  - apply register_kept.
  - apply resolve_kept.
  - apply detach_kept.
  - apply detach_kept.
Qed.

(** ** Operations of an engine *)

Lemma subscribe_op_kept ch' g e : kept e (sm_exec (subscribe ch' g) e).
Proof.
  unfold sm_exec, subscribe. etrans; [|apply (sm_for_rel kept); intros p e1; apply send_kept].
  destruct (contains_key (channels e) ch') eqn:Hk; [done|]. apply contains_key_false in Hk.
  apply kept_channels. intros s (c & Hc & Hs)%lookup_session_Some. exists s. split; [|done].
  apply lookup_session_Some. exists c. cbn. rewrite lookup_insert_ne; [done|congruence].
Qed.

Lemma publish_kept ch' m' x pre e :
  live e ch m → kept e (sm_exec (publish ch' m' x pre) e).
Proof.
  intros [s0 (c0 & Hc0 & Hs0)%lookup_session_Some]. unfold sm_exec, publish.
  destruct (channels e !! ch') as [c|] eqn:Hc; [|done].
  pose proof (Channel.start_origin_cases m' x c) as Ho.
  destruct (Channel.start_origin_session m' x c) as [[[]|err] c'].
  - destruct Ho as (_ & Hm & Hs). cbv zeta. fold (created e ch' m' c' pre).
    destruct (created_same e ch' m' c' pre) as [Hch Hd].
    assert (kept e (created e ch' m' c' pre)) as Hk.
    { etrans; [apply (kept_insert ch' c c' e Hc)|by apply kept_same].
      intros -> s Hs'. exists s. split; [|done]. rewrite Hs, lookup_insert_ne; [done|congruence]. }
    etrans; [exact Hk|]. unfold mbind, SM_bind.
    pose proof (sm_for_rel kept (ensure_session_open ch' m') (bt_elements (subscribers c'))
      (created e ch' m' c' pre) (ensure_rel kept ch' m')) as He.
    destruct (sm_for _ _ _) as [[[]|err] e1]; [|exact He].
    etrans; [exact He|apply (drain_session_rel kept)].
  - destruct Ho as [_ ->]. eapply kept_insert; [done|]. intros _ s Hs. by exists s.
Qed.

Lemma cleanup_kept e :
  coherent e → kept e (maybe_run_cleanup e) ∨ is_Some (tombstones (maybe_run_cleanup e) !! (ch, m)).
Proof.
  intros Hco. unfold maybe_run_cleanup. pose proof (now_kept e) as Hn.
  pose proof (now_evolves e) as Hev. destruct (now e) as [t e1]. cbn [snd] in *.
  pose proof (evolves_coherent _ _ Hco Hev) as Hco1. case_decide; [by left|].
  set (e2 := set_next_cleanup _ e1).
  assert (coherent e2) as Hco2 by by destruct Hco1.
  destruct (run_cleanup_spec t e2 Hco2) as (_ & Hs & _ & Ht & _).
  destruct (decide ((ch, m) ∈ expired_keys t e2)) as [Hin|Hout].
  - right. exists t. apply Ht. rewrite decide_True by done. split; [done|].
    unfold saturating_duration_since. lia.
  - left. etrans; [exact Hn|]. assert (delivered (run_cleanup t e2) = delivered e2) as Hd.
    { unfold run_cleanup. cbn [delivered set_parked_chunks set_tombstones].
      generalize (fst <$> filter (λ km, expired (config e2) t km.2) (map_to_list (session_meta e2))).
      intros l. generalize e2. induction l as [|[x y] l IH]; intros e0; [done|]. cbn [foldl].
      by rewrite IH. }
    split; [by rewrite Hd|]. intros s Hl. exists s. split; [|done].
    rewrite Hs. by rewrite decide_False.
Qed.

(** Every operation keeps a live session, except a chunk of its own, unless the
    session is disposed of, which leaves a tombstone. *)
Lemma step_kept e e' :
  coherent e' → kept e e' →
  kept e (maybe_run_cleanup e') ∨ is_Some (tombstones (maybe_run_cleanup e') !! (ch, m)).
Proof. intros Hco Hk. destruct (cleanup_kept e' Hco); [left; by etrans|by right]. Qed.

Lemma exec_kept o e :
  coherent e → live e ch m → (∀ p i d, o ≠ Step (NetEvent.Chunk p ch m i d)) →
  kept e (exec o e) ∨ is_Some (tombstones (exec o e) !! (ch, m)).
Proof.
  intros Hco Hl Hne. destruct o as [ch' g|p|ch' m' x pre|ev]; cbn [exec].
  - left. apply subscribe_op_kept.
  - left. apply register_kept.
  - left. by apply publish_kept.
  - apply step_kept; [by apply handle_event_coherent|]. apply event_kept; [done|].
    intros p i d ->. by apply (Hne p i d).
Qed.
End observe.
End Observe.

(** * Gathering a message

    [Gathers] states what a strategy promises to a session that consumes chunks:
    a genuine chunk that is taken is held from then on, [take_chunk] says
    [complete] just when the observation is [Full], enough chunks make it full,
    and then the strategy decodes the payload.  The promise is for chunks that
    are [Fair]: those the strategy can tell from the genuine ones. *)
Class Gathers {S RU DE A : Type} `{!Strategy S N RU DE} (f : S → A)
    (Good : A → Prop) (Have : A → N → Prop) (Full : A → bool)
    (genuine : N → option bytes) (Fair : N → bytes → Prop) (payload : bytes) (k : nat) : Prop := {
  ga_take s i d : Good (f s) → Full (f s) = false → Fair i d →
    let '(r, s') := take_chunk s i d in
    Good (f s') ∧ (∀ j, Have (f s) j → Have (f s') j) ∧
    (genuine i = Some d → Have (f s') i) ∧
    Full (f s') = match r with
                  | Ok o => complete o && bool_decide (verdict o = Verdict.Accepted)
                  | Err _ => false
                  end ∧
    (∀ o, r = Ok o → complete o = Full (f s'));
  ga_full a (D : list N) : Good a → NoDup D → (∀ i, i ∈ D → Have a i) → (k ≤ length D)%nat →
    Full a = true;
  ga_decode s : Good (f s) → Full (f s) = true → decode s = Ok payload
}.

Module Gather.
Import Engine EngineLemmas DrainRel DeliverLemmas Observe Parking.
Section gather.
Context {S DE NT CT DT A : Type}.
Context `{!Strategy S N BitMap DE, !DrainBound S}.
Context `{!Net NT, !Clock CT, !DeliverySink DeliveredMessage DT}.
Context (f : S → A) `{!Unmoved f}.
Context (Good : A → Prop) (Have : A → N → Prop) (Full : A → bool).
Context (genuine : N → option bytes) (Fair : N → bytes → Prop) (payload : bytes) (k : nat).
Context `{!Gathers f Good Have Full genuine Fair payload k}.
Context (ch m : string).
Context (Del : relation DT) `{!PreOrder Del} (Room Got : DT → Prop).
Context `{!Proper (Del ==> impl) Room, !Proper (Del ==> impl) Got}.
Hypothesis receives : ∀ d, Room d → Got (snd (try_send (mkDelivered ch m payload) d)).
Implicit Type e : Engine S NT CT DT.

(** The session while chunks are taken: it still consumes and holds [D], or it
    has just become full, which [b] says, or its message was delivered. *)
Definition gathering (b : bool) (D : list N) e (s : Session S) : Prop :=
  Good (f (strategy s)) ∧
  (Room (delivered e) ∧ state s = SessionState.Consuming ∧ Full (f (strategy s)) = false ∧
     b = false ∧ (∀ i, i ∈ D → Have (f (strategy s)) i) ∨
   Room (delivered e) ∧ state s = SessionState.Decoding ∧ Full (f (strategy s)) = true ∧ b = true ∨
   state s = SessionState.Reconstructed ∧ Got (delivered e)).

Definition gathers (b : bool) (D : list N) e : Prop :=
  ∃ s, lookup_session e ch m = Some s ∧ gathering b D e s.

Lemma gathers_kept b D e e' : gathers b D e → kept f Del ch m e e' → gathers b D e'.
Proof.
  intros (s & Hl & Hg & Hs) [Ho Hk]. destruct (Hk s Hl) as (s' & Hl' & Hst & Hf).
  exists s'. split; [done|]. unfold gathering. rewrite Hst, Hf. split; [done|].
  assert (Room (delivered e) → Room (delivered e')) as Hroom by by rewrite Ho.
  assert (Got (delivered e) → Got (delivered e')) as Hgot by by rewrite Ho.
  destruct Hs as [[? ?]|[[? ?]|[? ?]]]; auto.
Qed.

Definition learn (i : N) (d : bytes) (D : list N) : list N :=
  if decide (genuine i = Some d) then i :: D else D.

(** One chunk of the session. *)
Lemma gathers_take b D i d e :
  Fair i d → gathers b D e →
  let '(b', e') := channel_take_chunk ch m i d e in gathers (b || b') (learn i d D) e'.
Proof.
  intros HF (s & Hl & Hg & Hs). pose proof (channel_take_at ch m i d s e Hl) as Ht.
  destruct (channel_take_chunk ch m i d e) as [b' e'].
  destruct (Session.take_chunk s i d) as [r s'] eqn:Hts. destruct Ht as (Ht & Hd & ->).
  specialize (Ht ch m). rewrite decide_True in Ht by done. exists s'. split; [done|].
  unfold gathering. rewrite Hd. unfold Session.take_chunk in Hts.
  destruct Hs as [(HR & Hst & Hf & -> & HD)|[(HR & Hst & Hf & ->)|[Hst Hdel]]]; rewrite Hst in Hts.
  2: { injection Hts as <- <-. split; [done|]. by right; left. }
  2: { injection Hts as <- <-. split; [done|]. by right; right. }
  pose proof (ga_take (strategy s) i d Hg Hf HF) as Hga.
  destruct (take_chunk (strategy s) i d) as [[o|err] x].
  - destruct Hga as (Hg' & Hmono & Hgen & Hfull & Hco). specialize (Hco o eq_refl).
    destruct (complete o && bool_decide (verdict o = Verdict.Accepted)) eqn:Hb;
      injection Hts as <- <-; cbn; (split; [done|]).
    + right; left. by rewrite Hco, Hfull.
    + left. rewrite Hco, Hfull. split_and!; try done.
      unfold learn. destruct (decide (genuine i = Some d)); [|auto]. intros j [->|Hj]%elem_of_cons; auto.
  - destruct Hga as (Hg' & Hmono & Hgen & Hfull & _). injection Hts as <- <-. cbn.
    split; [done|]. left. split_and!; try done.
    unfold learn. destruct (decide (genuine i = Some d)); [|auto]. intros j [->|Hj]%elem_of_cons; auto.
Qed.

(** What a list of chunks teaches. *)
Definition learn_all (l : list (N * bytes)) (D : list N) : list N :=
  foldl (λ D c, learn c.1 c.2 D) D l.

Lemma elem_of_learn_all l D i :
  i ∈ learn_all l D ↔ i ∈ D ∨ ∃ d, genuine i = Some d ∧ (i, d) ∈ l.
Proof.
  revert D; induction l as [|[j x] l IH]; intros D; cbn [learn_all foldl fst snd].
  { split; [by left|]. intros [?|(d & _ & ?%elem_of_nil)]; done. }
  rewrite (IH (learn j x D)). setoid_rewrite elem_of_cons. unfold learn. split.
  - case_decide as Hj; [rewrite elem_of_cons|]; naive_solver.
  - intros [Hi|(d & Hd & [[= -> ->]|Hin])]; [left|left|eauto].
    + case_decide; [by right|done].
    + rewrite decide_True by done. by left.
Qed.

Lemma gathers_replay l b D e :
  (∀ i d, (i, d) ∈ contents l → Fair i d) → gathers b D e →
  let '(b', e') := replay_chunks ch m l b e in gathers b' (learn_all (contents l) D) e'.
Proof.
  revert b D e; induction l as [|c l IH]; intros b D e HF Hg; cbn [replay_chunks]; [done|].
  pose proof (gathers_take b D (pk_chunk_id c) (pk_payload c) e) as Ht.
  destruct (channel_take_chunk _ _ _ _ e) as [b1 e1]. apply IH.
  - intros i d Hin. apply HF. by right.
  - apply Ht; [|done]. apply HF. by left.
Qed.

Lemma gathers_fewer D e : gathers false D e → gathers false [] e.
Proof.
  intros (s & Hl & Hg & Hs). exists s. split; [done|]. split; [done|].
  destruct Hs as [(? & ? & ? & ? & _)|[(? & ? & ? & ?)|?]]; [left|done|by right; right].
  split_and!; try done. by intros i ?%elem_of_nil.
Qed.

(** The drain after a chunk, and decoding if the session is full. *)
Lemma gathers_finish b D e :
  gathers b D e →
  let e1 := sm_exec (drain_session ch m) e in
  gathers false D (if b then maybe_decode_and_deliver ch m e1 else e1).
Proof.
  intros Hg. cbv zeta.
  eapply gathers_kept in Hg; [|exact (drain_session_rel (kept f Del ch m) ch m e)].
  unfold sm_exec. set (e1 := snd _) in *. destruct b; [|done].
  destruct Hg as (s & Hl & Hg & Hs).
  pose proof (maybe_decode_cases ch m s e1 Hl) as Hd. cbv zeta in Hd.
  set (e2 := maybe_decode_and_deliver ch m e1) in *. unfold Session.decode_and_finish in Hd.
  destruct Hs as [(_ & _ & _ & ? & _)|[(HR & Hst & Hf & _)|[Hst Hdel]]]; [done|..]; rewrite Hst in Hd.
  - rewrite decide_False in Hd by (intros Hx; by apply Hx).
    rewrite (ga_decode (strategy s) Hg Hf) in Hd. destruct Hd as (Hl2 & _ & Ho & _).
    eexists. split; [exact Hl2|]. split; [done|]. right; right. split; [done|].
    rewrite Ho. by apply receives.
  - rewrite decide_True in Hd by done. destruct Hd as (Hl2 & _ & Ho & _).
    exists s. split; [done|]. split; [done|]. right; right. by rewrite Ho.
Qed.

(** ** Events *)

Lemma gathers_chunk D i d e :
  tombstones e !! (ch, m) = None → Fair i d → gathers false D e →
  gathers false (learn i d D) (on_chunk ch m i d e).
Proof.
  intros Ht HF Hg. unfold on_chunk, is_tombstoned.
  rewrite (proj2 (contains_key_false _ _)) by done.
  destruct Hg as (s & Hl & Hs). rewrite Hl.
  pose proof (gathers_take false D i d e HF (ex_intro _ s (conj Hl Hs))) as Htake.
  destruct (channel_take_chunk ch m i d e) as [b e1]. by apply gathers_finish.
Qed.

Context `{!Lasting Del}.

(** What an event teaches the session. *)
Definition learns (ev : NetEvent.t) (D : list N) : list N :=
  match ev with
  | NetEvent.Chunk _ ch' m' i d => if decide ((ch', m') = (ch, m)) then learn i d D else D
  | _ => D
  end.

Lemma gathers_event ev D e :
  tombstones e !! (ch, m) = None → (∀ p i d, ev = NetEvent.Chunk p ch m i d → Fair i d) →
  gathers false D e → gathers false (learns ev D) (handle_event ev e).
Proof.
  intros Ht HF Hg. assert (live e ch m) as Hlive by (destruct Hg as (s & ? & _); by exists s).
  assert ((∀ p i d, ev ≠ NetEvent.Chunk p ch m i d) → learns ev D = D →
          gathers false (learns ev D) (handle_event ev e)) as Hother.
  { intros Hne ->. eapply gathers_kept; [done|]. by apply event_kept. }
  destruct ev as [p v l s|p ch'|p ch'|p ch' m' pre iu|p ch' m' pl|p ch' m' i d|p|p|
    p ch' m' t b|p ch' m'|p ch' m']; try by apply Hother.
  cbn [learns] in *. destruct (decide ((ch', m') = (ch, m))) as [[= -> ->]|Hne].
  - cbn [handle_event]. apply gathers_chunk; [done|by eapply HF|done].
  - apply Hother; [|done]. intros q j x [= _ -> -> _ _]. by apply Hne.
Qed.

(** ** Runs *)

Definition teaches (o : op (S:=S)) (D : list N) : list N :=
  match o with
  | Step ev => learns ev D
  | _ => D
  end.

(** The session has not been disposed of. *)
Definition undisposed e : Prop := tombstones e !! (ch, m) = None.

Lemma gathers_exec o D e :
  coherent e → undisposed e → undisposed (exec o e) →
  (∀ p i d, o = Step (NetEvent.Chunk p ch m i d) → Fair i d) → gathers false D e →
  gathers false (teaches o D) (exec o e).
Proof.
  intros Hco Ht Ht' HF Hg. assert (live e ch m) as Hlive by (destruct Hg as (s & ? & _); by exists s).
  destruct o as [ch' g|p|ch' m' x pre|ev]; cbn [teaches].
  1-3: eapply gathers_kept; [exact Hg|].
  - apply (subscribe_op_kept f Del ch m ch' g e).
  - apply (register_kept f Del ch m p e).
  - by apply (publish_kept f Del ch m ch' m' x pre e).
  - assert (gathers false (learns ev D) (handle_event ev e)) as Hg1.
    { apply gathers_event; [done| |done]. intros p i d ->. by eapply HF. }
    cbn [exec run_one_step snd] in *.
    destruct (cleanup_kept f Del ch m (handle_event ev e)) as [Hk|Hx];
      [by apply handle_event_coherent|by eapply gathers_kept|].
    unfold undisposed in Ht'. rewrite Ht' in Hx. by destruct Hx.
Qed.

Lemma gathers_run os D e :
  coherent e → (∀ os1, os1 `prefix_of` os → undisposed (run os1 e)) →
  (∀ p i d, Step (NetEvent.Chunk p ch m i d) ∈ os → Fair i d) → gathers false D e →
  gathers false (foldl (λ D o, teaches o D) D os) (run os e).
Proof.
  revert D e; induction os as [|o os IH]; intros D e Hco Ht HF Hg; [done|].
  assert (undisposed e) as Ht0 by (apply (Ht []); apply prefix_nil).
  assert (undisposed (exec o e)) as Ht1 by (apply (Ht [o]); by exists os).
  assert (gathers false (teaches o D) (exec o e)) as Hg1.
  { apply gathers_exec; try done. intros p i d ->. apply (HF p). by left. }
  cbn [foldl]. apply IH; [by apply exec_coherent| | |done].
  - intros os1 Hp. apply (Ht (o :: os1)). by apply prefix_cons.
  - intros p i d Hin. apply (HF p). by right.
Qed.

(** A session that is opened for a new strategy starts with the parked chunks. *)
Lemma gathers_open pre c x n e :
  channels e !! ch = Some c → sessions c !! m = None → tombstones e !! (ch, m) = None →
  build (factory c) (counter (factory c)) pre = (Ok x, n) →
  Good (f x) → Full (f x) = false → Room (delivered e) →
  (∀ i d, (i, d) ∈ parked_of ch m e → Fair i d) →
  gathers false (learn_all (parked_of ch m e) []) (on_session_open ch m pre e).
Proof.
  intros Hc Hm Ht Hb Hg Hf HR HF. unfold on_session_open, is_tombstoned.
  rewrite (proj2 (contains_key_false _ _)) by done. rewrite Hc.
  unfold Channel.open_session, call_factory.
  rewrite (proj2 (contains_key_false _ _)) by done. rewrite Hb. cbv zeta.
  set (c1 := mkChannel _ _ _ _). set (s := Channel.attach_all c1 _).
  set (c' := Channel.with_sessions c1 _). fold (created e ch m c' pre).
  destruct (created_same e ch m c' pre) as [Hch Hdel].
  assert (gathers false [] (created e ch m c' pre)) as H1.
  { exists s. split.
    - apply lookup_session_Some. exists c'. rewrite Hch. split; apply lookup_insert_eq.
    - pose proof (attach_all_alike f c1 (Session.new_relay x)) as [Hst Hfx]. fold s in Hst, Hfx.
      unfold gathering. rewrite Hst, Hfx, Hdel. split; [done|]. left.
      split_and!; try done. by intros i ?%elem_of_nil. }
  assert (parked_chunks (created e ch m c' pre) = parked_chunks e) as Hpk.
  { unfold created, record_session_created, now. destruct (contains_key _ _); [done|].
    by destruct (clock_now _). }
  eapply gathers_kept in H1; [|exact (drain_session_rel (kept f Del ch m) ch m _)].
  rewrite <- (ev_parked _ _ (drain_session_evolves ch m _)) in Hpk.
  unfold parked_of in *. rewrite <- Hpk in *. unfold sm_exec, replay_parked_chunks in *.
  set (e2 := snd _) in *. destruct (parked_chunks e2 !! (ch, m)) as [l|]; [|done].
  set (e3 := set_parked_chunks _ e2).
  assert (gathers false [] e3) as H3 by (eapply gathers_kept; [exact H1|by apply kept_same]).
  pose proof (gathers_replay l false [] e3 HF H3) as Hr.
  destruct (replay_chunks ch m l false e3) as [b e4]. by apply gathers_finish.
Qed.

(** Enough genuine chunks, and the message was delivered. *)
Lemma gathers_enough D D' e :
  gathers false D e → NoDup D' → D' ⊆ D → (k ≤ length D')%nat → Got (delivered e).
Proof.
  intros (s & Hl & Hg & Hs) Hnd Hsub Hk.
  destruct Hs as [(_ & _ & Hf & _ & HD)|[(_ & _ & _ & ?)|[_ ?]]]; [|done..].
  rewrite (ga_full (f (strategy s)) D') in Hf; [done|done|done|auto|done].
Qed.

Lemma elem_of_teaches o D i :
  i ∈ teaches o D ↔
  i ∈ D ∨ ∃ p d, genuine i = Some d ∧ Step (NetEvent.Chunk p ch m i d) = o.
Proof.
  destruct o as [| | |ev]; cbn [teaches]; try (split; [by left|by intros [|(?&?&?&?)]]).
  destruct ev; cbn [learns]; try (split; [by left|by intros [|(?&?&?&?)]]).
  case_decide as Hd; [injection Hd as -> ->|].
  - unfold learn. case_decide as Hg; [rewrite elem_of_cons|]; split.
    + intros [->|?]; [right; eauto|by left].
    + intros [?|(q & d & Hgd & [= _ -> ->])]; [by right|by left].
    + by left.
    + intros [?|(q & d & Hgd & [= _ -> ->])]; done.
  - split; [by left|]. intros [|(q & d & _ & [= _ -> -> _ _])]; done.
Qed.

Lemma elem_of_taught os D i :
  i ∈ foldl (λ D o, teaches o D) D os ↔
  i ∈ D ∨ ∃ p d, genuine i = Some d ∧ Step (NetEvent.Chunk p ch m i d) ∈ os.
Proof.
  revert D; induction os as [|o os IH]; intros D; cbn [foldl].
  { split; [by left|]. intros [|(p & d & _ & ?%elem_of_nil)]; done. }
  rewrite IH, elem_of_teaches. setoid_rewrite elem_of_cons. split.
  - intros [[?|(p & d & ? & ?)]|(p & d & ? & ?)]; [by left|right..]; exists p, d; auto.
  - intros [?|(p & d & ? & [?|?])]; [by left; left|left; right|right]; eauto.
Qed.

(** A session is opened, and enough genuine chunks were parked or arrive later. *)
Lemma gathers_all pre q iu c x n os e D :
  let ops := Step (NetEvent.SessionOpen q ch m pre iu) :: os in
  coherent e → (∀ os1, os1 `prefix_of` ops → undisposed (run os1 e)) →
  channels e !! ch = Some c → sessions c !! m = None →
  build (factory c) (counter (factory c)) pre = (Ok x, n) → Good (f x) → Full (f x) = false →
  Room (delivered e) → NoDup D → (k ≤ length D)%nat →
  (∀ i, i ∈ D → ∃ d, genuine i = Some d ∧
     ((i, d) ∈ parked_of ch m e ∨ ∃ p, Step (NetEvent.Chunk p ch m i d) ∈ os)) →
  (∀ i d, (i, d) ∈ parked_of ch m e ∨ (∃ p, Step (NetEvent.Chunk p ch m i d) ∈ os) → Fair i d) →
  Got (delivered (run ops e)).
Proof.
  intros ops Hco Ht Hc Hm Hb Hx Hf HR Hnd Hk HD HF.
  assert (undisposed e) as Ht0 by (apply (Ht []); apply prefix_nil).
  set (e1 := exec (Step (NetEvent.SessionOpen q ch m pre iu)) e).
  assert (undisposed e1) as Ht1.
  { apply (Ht [Step (NetEvent.SessionOpen q ch m pre iu)]). by exists os. }
  assert (coherent e1) as Hco1 by by apply exec_coherent.
  set (D0 := learn_all (parked_of ch m e) []).
  assert (gathers false D0 e1) as Hg.
  { assert (gathers false D0 (on_session_open ch m pre e)) as Hg
      by (apply (gathers_open pre c x n); auto).
    destruct (cleanup_kept f Del ch m (on_session_open ch m pre e)) as [Hkk|[? Hd]];
      [exact (handle_event_coherent (NetEvent.SessionOpen q ch m pre iu) e Hco)
      |by eapply gathers_kept|].
    exfalso. unfold undisposed in Ht1. rewrite (Hd : tombstones e1 !! (ch, m) = _) in Ht1. done. }
  assert (gathers false (foldl (λ D o, teaches o D) D0 os) (run os e1)) as Hr.
  { apply gathers_run; [done| |eauto|done].
    intros os1 Hp. apply (Ht (Step (NetEvent.SessionOpen q ch m pre iu) :: os1)).
    by apply prefix_cons. }
  eapply gathers_enough; [exact Hr|exact Hnd| |exact Hk].
  intros i Hi. apply elem_of_taught. unfold D0. rewrite elem_of_learn_all.
  destruct (HD i Hi) as (d & Hd & [Hin|[p Hin]]); [left; right|right]; eauto.
Qed.
End gather.
End Gather.

(** ** On a delivery channel that records what it is offered *)
Module Offers.
Section offers.
Context {DT : Type} `{!DeliverySink DeliveredMessage DT}.

Definition grows (d d' : Recorded DeliveredMessage DT) : Prop := offered d ⊆ offered d'.

#[export] Instance grows_po : PreOrder grows.
Proof. unfold grows. split; [by intros d|]. intros d1 d2 d3 ??. by etrans. Qed.

Lemma offered_try_send x (d : Recorded DeliveredMessage DT) :
  offered (snd (try_send x d)) = offered d ++ [x].
Proof. unfold try_send, DeliverySink_Recorded. by destruct (try_send x (sink d)). Qed.

#[export] Instance grows_lasting : Lasting grows.
Proof. intros x d. unfold grows. rewrite offered_try_send. set_solver. Qed.

Lemma offered_receives x (d : Recorded DeliveredMessage DT) :
  True → x ∈ offered (snd (try_send x d)).
Proof. intros _. rewrite offered_try_send. set_solver. Qed.

#[export] Instance offered_proper x : Proper (grows ==> impl) (λ d, x ∈ offered d).
Proof. intros d d' Hd Hx. by apply Hd. Qed.
End offers.
End Offers.
