(* ===== verification/EngineNet.v ===== *)
(** The engine and its network: whatever an operation does, its network goes
    through a sequence of sends and nothing else.  A network that is shared with
    others, as in the simulator, then only has to say what a send does.  And a
    channel, once hosted, stays with what its factory builds. *)
From Stdlib Require Import NArith Lia.
From stdpp Require Import base gmap option strings list.
From S2P Require Import Prelude BitMap Strategy Session Channel Runtime Engine EngineRel.

Open Scope N_scope.

(** The sends of a list of messages, ignoring the results. *)
Definition net_sends `{Net NT} (msgs : list NetSend) (n : NT) : NT :=
  foldl (λ n msg, snd (net_send msg n)) n msgs.

Module NetOnly.
Import Engine EngineRel.
Section net_only.
Context {S DE NT CT DT : Type}.
Context `{!Strategy S N BitMap DE, !DrainBound S}.
Context `{!Net NT, !Clock CT, !DeliverySink DeliveredMessage DT}.
Implicit Type e : Engine S NT CT DT.

(** The network of [e'] is that of [e] after some sends. *)
Definition by_sends e e' : Prop := ∃ msgs, net e' = net_sends msgs (net e).

Lemma silent e e' : net e' = net e → by_sends e e'.
Proof. by exists []. Qed.

#[export] Instance by_sends_rel : EngineRel (λ _ _ _ _, True) (λ _, True) by_sends.
Proof.
  split; try (intros; by apply silent).
  - split; [by intros e; apply silent|]. intros e1 e2 e3 [l1 H1] [l2 H2]. exists (l1 ++ l2).
    unfold net_sends in *. by rewrite foldl_app, <- H1, <- H2.
  - intros msg e _. exists [msg]. unfold send, net_sends. simpl.
    by destruct (net_send msg (net e)).
Qed.

Lemma event_ok_True ev e : event_ok (λ _ _ _ _, True) ev e.
Proof. by destruct ev. Qed.
End net_only.
End NetOnly.

(** A channel that the engine hosts stays, with what its factory builds. *)
Module Hosting.
Import Engine EngineRel.
Section hosting.
Context {S DE NT CT DT : Type}.
Context `{!Strategy S N BitMap DE, !DrainBound S}.
Context `{!Net NT, !Clock CT, !DeliverySink DeliveredMessage DT}.
Implicit Type e : Engine S NT CT DT.

Definition hosts e e' : Prop := ∀ ch c, channels e !! ch = Some c →
  ∃ c', channels e' !! ch = Some c' ∧ build (factory c') = build (factory c).

#[export] Instance hosts_po : PreOrder hosts.
Proof.
  split; [intros e ch c Hc; eauto|]. intros e1 e2 e3 H1 H2 ch c (c2 & Hc2 & Hb2)%H1.
  destruct (H2 ch c2 Hc2) as (c3 & Hc3 & Hb3). exists c3. split; [done|congruence].
Qed.

#[export] Instance hosts_rel : EngineRel (λ _ _ _ _, True) (λ _, True) hosts.
Proof.
  split; try (intros; intros ch0 c0 Hc0; by exists c0); [apply _|..].
  - intros e e' Hc _ _ _ ch c. rewrite Hc. eauto.
  - intros msg e _ ch c Hc. exists c. unfold send. by destruct (net_send msg (net e)).
  - intros v e Hv Hd ch c Hc. destruct (Hd ch) as [c' Hc']; [by exists c|].
    exists c'. split; [done|]. destruct (Hv ch c' Hc') as (c0 & Hc0 & Hb & _). congruence.
  - intros ch f e _ Hn ch' c Hc. exists c. split; [|done]. cbn.
    rewrite lookup_insert_ne; [done|congruence].
  - intros ch m pre x s c c' e Hc _ _ Hb _ ch' c0 Hc0. cbn.
    destruct (decide (ch' = ch)) as [->|Hne].
    + exists c'. rewrite lookup_insert_eq. split; [done|congruence].
    + exists c0. by rewrite lookup_insert_ne.
Qed.

Lemma run_hosts (os : list op) e : hosts e (run os e).
Proof.
  revert e; induction os as [|o os IH]; intros e; [done|]. etrans; [|apply IH].
  apply (exec_rel _ _ hosts o e). by destruct o as [| | |[]].
Qed.
End hosting.
End Hosting.
