(* ===== verification/EngineFlow.v ===== *)
(** The engine over a network that accepts what it sends: what a drain puts on the
    network is what polling the session gives, and a publication opens the session
    at every subscriber first.

    [Accepts] is the network's side of it, for the peers it knows; [Polls] is the
    strategy's, for the peers it dispatches to. *)
From Stdlib Require Import NArith Lia.
From stdpp Require Import base gmap option strings list.
From S2P Require Import Prelude BitMap Strategy Session Channel Runtime MemoryNet Engine.
From S2P Require Import EngineInv EngineRel EngineSend EngineDrain EngineNet.

Open Scope N_scope.

(** A network that is [up] accepts messages for the peers of [R] and stays up. *)
Class Accepts {NT : Type} `{!Net NT} (up : NT → Prop) (R : N → Prop) : Prop :=
  accepts msg n : up n → (∀ p, MemoryNet.dst msg = Some p → R p) →
    fst (net_send msg n) = Ok () ∧ up (snd (net_send msg n)).

(** A network that accepts everything, and its log. *)
Class AcceptingNet (NT : Type) `{!Net NT} : Prop :=
  accepted msg n : fst (net_send msg n) = Ok ().

Section logged.
Context {NT : Type} `{!Net NT, !AcceptingNet NT}.

#[export] Instance logged_accepts R : Accepts (NT := Logged NT) (λ _, True) R.
Proof.
  intros msg n _ _. split; [|done]. unfold net_send, Net_Logged.
  pose proof (accepted msg (inner n)) as Ha. by destruct (net_send msg (inner n)).
Qed.

Lemma log_net_sends l (n : Logged NT) : log (net_sends l n) = log n ++ ((.,true) <$> l).
Proof.
  revert n; induction l as [|msg l IH]; intros n; [by rewrite app_nil_r|].
  unfold net_sends in *. cbn [foldl]. rewrite IH. unfold net_send, Net_Logged.
  pose proof (accepted msg (inner n)) as Ha. destruct (net_send msg (inner n)) as [r i].
  cbn in *. subst r. by rewrite <- app_assoc.
Qed.
End logged.

(** Polls of a strategy that satisfies [P] dispatch at most [K] chunks, each with
    its index a pair of [Q], to peers of [R], and lower the bound when they yield
    work. *)
Class Polls {S RU DE : Type} `{!Strategy S N RU DE, !DrainBound S}
    (P : S → Prop) (R : N → Prop) (Q : N → bytes → Prop) (K : nat) : Prop :=
  polls_step s r s1 ds s2 :
    P s → poll_routing s false = (r, s1) → poll_chunks s1 = (ds, s2) →
    P s2 ∧ (∀ d, d ∈ ds → R (d_peer d) ∧ Q (d_chunk_id d) (d_payload d)) ∧
    (length ds ≤ K)%nat ∧
    (poll_bound s2 ≤ poll_bound s)%nat ∧
    (r ≠ None ∨ ds ≠ [] → (poll_bound s2 < poll_bound s)%nat).

Module Flow.
Import Engine EngineLemmas EngineRel.

(** The chunk of a message, and the one of a dispatch. *)
Definition chunk_of (msg : NetSend) : option (N * string * string * N * bytes) :=
  match msg with
  | SendChunk p ch m i d _ => Some (p, ch, m, i, d)
  | _ => None
  end.
Definition dispatch_chunk (ch m : string) (d : ChunkDispatch N) : N * string * string * N * bytes :=
  (d_peer d, ch, m, d_chunk_id d, d_payload d).

(** A message of session [m] on [ch] with preamble [pre], to a peer of [R], with a
    chunk of [Q] if it carries one. *)
Definition of_session (R : N → Prop) (Q : N → bytes → Prop) (ch m : string) (pre : bytes) (msg : NetSend) : Prop :=
  match msg with
  | SendSessionOpen p ch' m' pre' iu => R p ∧ ch' = ch ∧ m' = m ∧ pre' = pre ∧ iu = []
  | SendRoutingUpdate p ch' m' _ => R p ∧ ch' = ch ∧ m' = m
  | SendChunk p ch' m' i d _ => R p ∧ ch' = ch ∧ m' = m ∧ Q i d
  | _ => False
  end.

Section flow.
Context {S DE NT CT DT : Type}.
Context `{!Strategy S N BitMap DE, !DrainBound S}.
Context `{!Net NT, !Clock CT, !DeliverySink DeliveredMessage DT}.
Context (up : NT → Prop) (R : N → Prop) (Q : N → bytes → Prop) `{!Accepts up R}.
Context (ch m : string) (pre : bytes).
Implicit Type e : Engine S NT CT DT.

(** Polling a session until it has nothing more: the work by round. *)
Fixpoint polls (fuel : nat) (s : Session S)
    : option (list (SessionWork N BitMap) * Session S) :=
  match fuel with
  | O => None
  | Datatypes.S fuel =>
      let '(work, s) := Session.poll s in
      match routing work, dispatches work with
      | None, [] => Some ([], s)
      | _, _ => '(ws, s) ← polls fuel s; Some (work :: ws, s)
      end
  end.

(** The messages of a round, when the session is open at all the peers. *)
Definition routing_msgs (payload : bytes) (l : list N) : list NetSend :=
  (λ p, SendRoutingUpdate p ch m payload) <$> l.
Definition chunk_msg (d : ChunkDispatch N) : NetSend :=
  SendChunk (d_peer d) ch m (d_chunk_id d) (d_payload d) (d_handle d).
Definition work_msgs (l : list N) (w : SessionWork N BitMap) : list NetSend :=
  match routing w with Some r => routing_msgs (BitMap.as_bytes r) l | None => [] end ++
  (chunk_msg <$> dispatches w).
Definition open_at e (l : list N) : Prop := ∀ p, p ∈ l → is_opened_to e ch m p = true.

(** The dispatches of the rounds. *)
Definition dispatched (ws : list (SessionWork N BitMap)) : list (ChunkDispatch N) :=
  ws ≫= dispatches.

(** What is not a chunk among the messages of the rounds: the routing updates. *)
Definition updates (ws : list (SessionWork N BitMap)) : list bytes :=
  BitMap.as_bytes <$> omap routing ws.

Lemma work_msgs_updates l ws :
  filter (λ msg, chunk_of msg = None) (ws ≫= work_msgs l) = updates ws ≫= λ b, routing_msgs b l.
Proof.
  unfold updates. induction ws as [|[r ds] ws IH]; [done|].
  rewrite bind_cons, filter_app, IH. unfold work_msgs. cbn [routing dispatches].
  rewrite filter_app.
  assert (filter (λ msg, chunk_of msg = None) (chunk_msg <$> ds) = []) as ->.
  { clear. induction ds as [|d ds IH]; [done|]. by rewrite fmap_cons, filter_cons_False. }
  rewrite app_nil_r. destruct r as [r|]; cbn; [|done]. f_equal.
  generalize (BitMap.as_bytes r). clear. intros b. unfold routing_msgs.
  induction l as [|p l IH]; [done|]. by rewrite fmap_cons, filter_cons_True, IH.
Qed.

(** A network that is up and the session's preamble. *)
Definition ready e : Prop := up (net e) ∧ session_preambles e !! (ch, m) = Some pre.

(** [e'] is [e] after the messages [l] of the session were sent. *)
Record flows e e' (l : list NetSend) : Prop := {
  fl_net : net e' = net_sends l (net e);
  fl_ready : ready e';
  fl_msgs : Forall (of_session R Q ch m pre) l;
  fl_opened q : is_opened_to e ch m q = true → is_opened_to e' ch m q = true
}.
(** And nothing else but [opened_to] and [pending_sends] changed. *)
Definition sends e e' (l : list NetSend) : Prop := flows e e' l ∧ channels e' = channels e.

Lemma flows_nil e e' : ready e → net e' = net e →
  session_preambles e' = session_preambles e → opened_to e' = opened_to e → flows e e' [].
Proof.
  intros [Hu Hp] Hn Hs Ho. split; [done| |constructor|by unfold is_opened_to; rewrite Ho].
  split; [by rewrite Hn|by rewrite Hs].
Qed.

Lemma flows_app e1 e2 e3 l1 l2 : flows e1 e2 l1 → flows e2 e3 l2 → flows e1 e3 (l1 ++ l2).
Proof.
  intros [Hn1 _ Hm1 Ho1] [Hn2 Hr2 Hm2 Ho2]. split; [|done|by apply Forall_app|by auto].
  rewrite Hn2, Hn1. unfold net_sends. by rewrite foldl_app.
Qed.

Lemma sends_nil e e' : ready e → net e' = net e →
  session_preambles e' = session_preambles e → opened_to e' = opened_to e →
  channels e' = channels e → sends e e' [].
Proof. intros. split; [by apply flows_nil|done]. Qed.

Lemma sends_app e1 e2 e3 l1 l2 : sends e1 e2 l1 → sends e2 e3 l2 → sends e1 e3 (l1 ++ l2).
Proof. intros [] []. split; [by eapply flows_app|congruence]. Qed.

Lemma sends_lookup e e' l : sends e e' l → lookup_session e' ch m = lookup_session e ch m.
Proof. intros [_ Hc]. unfold lookup_session. by rewrite Hc. Qed.

Lemma sends_ready e e' l : sends e e' l → ready e'.
Proof. by intros [[] _]. Qed.

Lemma flows_open_at e e' l ps : flows e e' l → open_at e ps → open_at e' ps.
Proof. intros [_ _ _ Ho] Hps p Hp. by apply Ho, Hps. Qed.
Lemma sends_open_at e e' l ps : sends e e' l → open_at e ps → open_at e' ps.
Proof. intros [Hf _]. by eapply flows_open_at. Qed.

Lemma send_flow msg e :
  ready e → of_session R Q ch m pre msg →
  ∃ e', send msg e = (Ok (), e') ∧ sends e e' [msg] ∧ opened_to e' = opened_to e.
Proof.
  intros [Hu Hp] Hm. unfold send.
  destruct (accepts msg (net e) Hu) as [Hok Hup].
  { intros p. destruct msg; try done; intros [= <-]; by destruct Hm. }
  destruct (net_send msg (net e)) as [r n] eqn:Hs. cbn in Hok, Hup. subst r.
  eexists. split; [done|]. split; [|done]. split; [|done].
  split; [unfold net_sends; cbn; by rewrite Hs|by split|by constructor|done].
Qed.

(** A peer is sent an open when it was not before. *)
Lemma ensure_flow p e :
  ready e → R p →
  ∃ e', ensure_session_open ch m p e = (Ok (), e') ∧
    sends e e' (if is_opened_to e ch m p then [] else [SendSessionOpen p ch m pre []]) ∧
    ∀ q, is_opened_to e' ch m q = is_opened_to e ch m q || bool_decide (q = p).
Proof.
  intros Hr Hp. unfold ensure_session_open. destruct (is_opened_to e ch m p) eqn:Ho.
  { exists e. split; [done|]. split; [by apply sends_nil|]. intros q.
    case_bool_decide; [subst q; by rewrite Ho|by rewrite orb_false_r]. }
  pose proof Hr as [_ Hpre]. rewrite Hpre.
  destruct (send_flow (SendSessionOpen p ch m pre []) e Hr) as (e1 & -> & Hs & He1); [done|].
  set (e2 := set_opened_to _ e1).
  assert (∀ q, is_opened_to e2 ch m q = is_opened_to e ch m q || bool_decide (q = p)) as Hq.
  { intros q. unfold is_opened_to. cbn.
    rewrite lookup_insert_eq, He1. destruct (opened_to e !! (ch, m)) as [X|]; cbn.
    - rewrite orb_comm, <- bool_decide_or. apply bool_decide_ext. set_solver.
    - apply bool_decide_ext. set_solver. }
  exists e2. split; [done|]. split; [|exact Hq]. destruct Hs as [[H1 H2 H3 _] H4].
  split; [|done]. split; [done..|]. intros q Ho'. by rewrite Hq, Ho'.
Qed.

Lemma ensure_all_flow l e :
  ready e → NoDup l → (∀ p, p ∈ l → R p ∧ is_opened_to e ch m p = false) →
  ∃ e', sm_for (ensure_session_open ch m) l e = (Ok (), e') ∧
    sends e e' ((λ p, SendSessionOpen p ch m pre []) <$> l) ∧ open_at e' l.
Proof.
  intros Hr Hnd. revert e Hr; induction Hnd as [|p l Hp Hnd IH]; intros e Hr Ho.
  { exists e. split; [done|]. split; [by apply sends_nil|]. by intros p ?%elem_of_nil. }
  cbn [sm_for]. unfold mbind, SM_bind. destruct (Ho p) as [HR Hop]; [by left|].
  destruct (ensure_flow p e Hr HR) as (e1 & -> & Hs & Ho1). rewrite Hop in Hs.
  destruct (IH e1) as (e2 & He2 & Hs2 & Hop2).
  - by eapply sends_ready.
  - intros q Hq. destruct (Ho q) as [HRq Hoq]; [by right|]. split; [done|].
    rewrite Ho1, Hoq. apply bool_decide_eq_false. by intros ->.
  - exists e2. split; [done|]. split; [exact (sends_app _ _ _ _ _ Hs Hs2)|].
    intros q [->|Hq]%elem_of_cons; [|by apply Hop2]. apply (sends_open_at _ _ _ [p] Hs2); [|left].
    intros q ->%list_elem_of_singleton. rewrite Ho1. apply orb_true_iff. right.
    by apply bool_decide_eq_true.
Qed.

Lemma send_routing_flow payload subs e :
  ready e → (∀ p, p ∈ subs → R p) →
  ∃ e' l, send_routing ch m payload subs e = (Ok (), e') ∧ sends e e' l ∧
    omap chunk_of l = [] ∧ (length l ≤ 2 * length subs)%nat ∧
    (open_at e subs → l = routing_msgs payload subs).
Proof.
  intros Hr HR. revert e Hr; induction subs as [|p subs IH]; intros e Hr.
  { exists e, []. split; [done|]. split; [by apply sends_nil|]. by split_and!; [|cbn; lia|]. }
  unfold send_routing in *. cbn [sm_for]. unfold mbind, SM_bind in *.
  assert (R p) as HRp by (apply HR; by left).
  destruct (ensure_flow p e Hr HRp) as (e1 & -> & Hs1 & _).
  destruct (send_flow (SendRoutingUpdate p ch m payload) e1) as (e2 & -> & Hs2 & _);
    [by eapply sends_ready|done|].
  pose proof (sends_app _ _ _ _ _ Hs1 Hs2) as Hs.
  destruct IH with (e := e2) as (e3 & l & -> & Hs3 & Hl & Hlen & Hex);
    [intros q Hq; apply HR; by right|by eapply sends_ready|].
  eexists _, _. split; [done|]. split; [exact (sends_app _ _ _ _ _ Hs Hs3)|].
  rewrite omap_app, Hl, app_nil_r, !length_app. cbn [length].
  split; [|split]; [by destruct (is_opened_to e ch m p)|destruct (is_opened_to e ch m p); cbn; lia|].
  intros Hop. rewrite (Hop p) by left. rewrite Hex; [done|].
  eapply sends_open_at; [exact Hs|]. intros q Hq. apply Hop. by right.
Qed.

Lemma send_dispatches_flow ds b e :
  ready e → (∀ d, d ∈ ds → R (d_peer d) ∧ Q (d_chunk_id d) (d_payload d)) →
  ∃ e' l, send_dispatches ch m ds b e = (Ok b, e') ∧ sends e e' l ∧
    omap chunk_of l = dispatch_chunk ch m <$> ds ∧ (length l ≤ 2 * length ds)%nat ∧
    (open_at e (d_peer <$> ds) → l = chunk_msg <$> ds).
Proof.
  intros Hr HR. revert e Hr; induction ds as [|d ds IH]; intros e Hr.
  { exists e, []. split; [done|]. split; [by apply sends_nil|]. by split_and!; [|cbn; lia|]. }
  cbn [send_dispatches].
  assert (R (d_peer d) ∧ Q (d_chunk_id d) (d_payload d)) as [HRd HQd] by (apply HR; by left).
  destruct (ensure_flow (d_peer d) e Hr HRd) as (e1 & -> & Hs1 & _).
  destruct (send_flow (SendChunk (d_peer d) ch m (d_chunk_id d) (d_payload d) (d_handle d)) e1)
    as (e2 & -> & Hs2 & _); [by eapply sends_ready|done|].
  set (e3 := set_pending_sends _ e2).
  assert (sends e2 e3 []) as Hs3 by (apply sends_nil; [by eapply sends_ready|done..]).
  pose proof (sends_app _ _ _ _ _ Hs1 (sends_app _ _ _ _ _ Hs2 Hs3)) as Hs.
  destruct IH with (e := e3) as (e4 & l & -> & Hs4 & Hl & Hlen & Hex);
    [intros x Hx; apply HR; by right|by eapply sends_ready|].
  eexists _, _. split; [done|]. split; [exact (sends_app _ _ _ _ _ Hs Hs4)|].
  rewrite omap_app, Hl, !length_app. cbn [length].
  split; [|split]; [by destruct (is_opened_to e ch m (d_peer d))
    |destruct (is_opened_to e ch m (d_peer d)); cbn; lia|].
  intros Hop. rewrite (Hop (d_peer d)) by left. rewrite Hex; [done|].
  eapply sends_open_at; [exact Hs|]. intros q Hq. apply Hop. by right.
Qed.

(** ** Drains *)

Context (P : S → Prop) (K : nat) `{!Polls P R Q K} (X : gset N).
Hypothesis known : ∀ p, p ∈ X → R p.

(** A session that is ready to be drained. *)
Record drainable e (s : Session S) : Prop := {
  dn_ready : ready e;
  dn_session : lookup_session e ch m = Some s;
  dn_strategy : P (strategy s);
  dn_subscribers : subscribers_of e ch = Some X
}.

(** A poll of a session is one of its strategy. *)
Lemma poll_step (s : Session S) :
  P (strategy s) →
  let '(work, s') := Session.poll s in
  P (strategy s') ∧
  (∀ d, d ∈ dispatches work → R (d_peer d) ∧ Q (d_chunk_id d) (d_payload d)) ∧
  (length (dispatches work) ≤ K)%nat ∧
  (poll_bound (strategy s') ≤ poll_bound (strategy s))%nat ∧
  (routing work ≠ None ∨ dispatches work ≠ [] →
     (poll_bound (strategy s') < poll_bound (strategy s))%nat).
Proof.
  intros HP. unfold Session.poll. destruct (poll_routing (strategy s) false) as [r s1] eqn:Hpr.
  destruct (poll_chunks s1) as [ds s2] eqn:Hpc. by eapply polls_step.
Qed.

(** Sending what a poll gave. *)
Lemma send_work_flow o ds subs e :
  ready e → (∀ p, p ∈ subs → R p) → (∀ d, d ∈ ds → R (d_peer d) ∧ Q (d_chunk_id d) (d_payload d)) →
  ∃ e' l,
    (match o with
     | Some r => send_routing ch m (BitMap.as_bytes r) subs
     | None => mret ()
     end ≫= λ _, send_dispatches ch m ds false ≫= λ stalled, mret (negb stalled)) e = (Ok true, e') ∧
    sends e e' l ∧ omap chunk_of l = dispatch_chunk ch m <$> ds ∧
    (length l ≤ 2 * length subs + 2 * length ds)%nat ∧
    (open_at e subs → open_at e (d_peer <$> ds) → l = work_msgs subs (mkSessionWork o ds)).
Proof.
  intros Hr HRs HRd. unfold mbind, SM_bind.
  assert (∃ e' l, (match o with
     | Some r => send_routing ch m (BitMap.as_bytes r) subs
     | None => mret () end) e = (Ok (), e') ∧ sends e e' l ∧ omap chunk_of l = [] ∧
     (length l ≤ 2 * length subs)%nat ∧
     (open_at e subs → l = match o with
        | Some r => routing_msgs (BitMap.as_bytes r) subs | None => [] end))
    as (e1 & l1 & -> & Hs1 & Hl1 & Hlen1 & Hex1).
  { destruct o; [by apply send_routing_flow|]. exists e, []. split; [done|].
    split; [by apply sends_nil|]. by split_and!; [|cbn; lia|]. }
  destruct (send_dispatches_flow ds false e1) as (e2 & l2 & -> & Hs2 & Hl2 & Hlen2 & Hex2);
    [by eapply sends_ready|done|].
  eexists _, _. split; [done|]. split; [exact (sends_app _ _ _ _ _ Hs1 Hs2)|].
  rewrite omap_app, Hl1, length_app. split; [done|]. split; [lia|].
  intros Hos Hod. rewrite Hex1, Hex2; [done|by eapply sends_open_at|done].
Qed.

(** A round sends what the poll gives. *)
Lemma drain_round_flow s e :
  drainable e s →
  let '(work, s') := Session.poll s in
  ∃ e' l, drain_round ch m e =
      (Ok (match routing work, dispatches work with None, [] => false | _, _ => true end), e') ∧
    drainable e' s' ∧ flows e e' l ∧
    omap chunk_of l = dispatch_chunk ch m <$> dispatches work ∧
    (open_at e (bt_elements X) → (∀ d, d ∈ dispatches work → d_peer d ∈ X) →
       l = work_msgs (bt_elements X) work) ∧
    match routing work, dispatches work with
    | None, [] => l = [] ∧ (poll_bound (strategy s') ≤ poll_bound (strategy s))%nat
    | _, _ => (length l ≤ 2 * size X + 2 * K)%nat ∧
        (poll_bound (strategy s') < poll_bound (strategy s))%nat
    end.
Proof.
  intros [Hr Hl HP HX]. pose proof (poll_step s HP) as Hpoll. unfold drain_round. rewrite Hl.
  destruct (Session.poll s) as [work s']. destruct Hpoll as (HP' & HR & HK & Hle & Hb).
  set (e1 := update_session ch m s' e).
  assert (ready e1) as Hr1 by done.
  assert (lookup_session e1 ch m = Some s') as Hl1.
  { unfold e1. erewrite lookup_update_session by done. by rewrite decide_True. }
  assert (subscribers_of e1 ch = Some X) as HX1.
  { unfold e1. rewrite <- HX. by apply (ev_subscribers _ _ (update_session_evolves e ch m s s' Hl)). }
  assert (flows e e1 []) as Hf1 by by apply flows_nil.
  set (subs := match channels e1 !! ch with Some _ => _ | None => _ end).
  assert (subs = bt_elements X) as Hsubs.
  { unfold subs. unfold subscribers_of in HX1. destruct (channels e1 !! ch); [|done].
    by injection HX1 as ->. }
  assert (∀ p, p ∈ subs → R p) as HRs.
  { intros p. rewrite Hsubs, elem_of_bt_elements. apply known. }
  assert (∀ e' l, sends e1 e' l → drainable e' s' ∧ flows e e' l) as Hend.
  { intros e' l Hs. split; [|by destruct Hs as [Hf _]; exact (flows_app _ _ _ _ _ Hf1 Hf)].
    split; [by eapply sends_ready|by rewrite (sends_lookup _ _ _ Hs)|done|].
    destruct Hs as [_ Hc]. unfold subscribers_of. by rewrite Hc. }
  destruct (send_work_flow (routing work) (dispatches work) subs e1 Hr1 HRs HR)
    as (e' & l & Hw & Hs & Ho & Hlen & Hex).
  assert (length l ≤ 2 * size X + 2 * K)%nat as Hlen'.
  { rewrite Hsubs, length_bt_elements in Hlen. lia. }
  assert (open_at e (bt_elements X) → (∀ d, d ∈ dispatches work → d_peer d ∈ X) →
    l = work_msgs (bt_elements X) work) as Hex'.
  { intros Hop Hin. rewrite Hsubs in Hex. destruct work as [r ds]. apply Hex; [done|].
    intros p (d & -> & Hd)%list_elem_of_fmap. apply Hop, elem_of_bt_elements, Hin, Hd. }
  destruct (Hend e' l Hs) as [Hd Hf]. unfold work_msgs in *.
  destruct (routing work) as [r|], (dispatches work) as [|d ds] eqn:Hds;
    try (exists e', l; split_and!; try done; apply Hb; by (left + right)).
  exists e1, []. by split_and!.
Qed.

(** What the polls [ws] of a session make a drain send. *)
Record drained e (s : Session S) e' (s' : Session S) (ws : list (SessionWork N BitMap))
    (l : list NetSend) : Prop := {
  dd_end : drainable e' s';
  dd_flows : flows e e' l;
  dd_chunks : omap chunk_of l = dispatch_chunk ch m <$> dispatched ws;
  dd_exact : open_at e (bt_elements X) → (∀ d, d ∈ dispatched ws → d_peer d ∈ X) →
    l = ws ≫= work_msgs (bt_elements X);
  dd_length : (length l ≤ (2 * size X + 2 * K) * length ws)%nat;
  dd_bound : (poll_bound (strategy s') + length ws ≤ poll_bound (strategy s))%nat
}.

(** The whole drain: it ends, and sends what the polls give. *)
Lemma drain_loop_flow fuel s e :
  drainable e s → (poll_bound (strategy s) < fuel)%nat →
  ∃ e' s' ws l, drain_loop fuel ch m e = Some (Ok (), e') ∧
    polls fuel s = Some (ws, s') ∧ drained e s e' s' ws l.
Proof.
  revert s e; induction fuel as [|fuel IH]; intros s e Hd Hfuel; [lia|].
  cbn [drain_loop polls]. pose proof (drain_round_flow s e Hd) as Hr.
  destruct (Session.poll s) as [work s1].
  destruct Hr as (e1 & l1 & -> & Hd1 & Hf1 & Ho1 & Hex1 & Hcase).
  assert ((length l1 ≤ 2 * size X + 2 * K)%nat →
    (poll_bound (strategy s1) < poll_bound (strategy s))%nat →
    ∃ e' s' ws l, drain_loop fuel ch m e1 = Some (Ok (), e') ∧
      ('(ws, s) ← polls fuel s1; Some (work :: ws, s)) = Some (ws, s') ∧
      drained e s e' s' ws l) as Hmore.
  { intros Hlen1 Hb1. destruct (IH s1 e1 Hd1) as (e2 & s2 & ws & l2 & -> & -> & [Hd2 Hf2 Ho2 Hex2 Hlen2 Hb2]);
      [lia|].
    exists e2, s2, (work :: ws), (l1 ++ l2). cbn [mbind option_bind].
    split; [done|]. split; [done|]. split; unfold dispatched in *; rewrite ?bind_cons.
    - done.
    - by eapply flows_app.
    - by rewrite omap_app, fmap_app, Ho1, Ho2.
    - intros Hop Hin. rewrite Hex1, Hex2; [done|by eapply flows_open_at|..|done|];
        intros d Hd'; apply Hin, elem_of_app; by (left + right).
    - rewrite length_app. cbn [length]. lia.
    - cbn [length]. lia. }
  unfold work_msgs in Hex1. unfold dispatched in *.
  destruct (routing work) as [rt|], (dispatches work) as [|d ds] eqn:Hds;
    try (destruct Hcase; by apply Hmore).
  destruct Hcase as [-> Hb]. exists e1, s1, [], []. split; [done|]. split; [done|].
  split; cbn [length]; try done; lia.
Qed.

(** A drain of the engine. *)
Lemma drain_session_flow s e :
  drainable e s →
  ∃ e' s' ws l, drain_session ch m e = (Ok (), e') ∧
    polls (drain_fuel e ch m) s = Some (ws, s') ∧ drained e s e' s' ws l.
Proof.
  intros Hd. unfold drain_session. destruct (drain_loop_flow (drain_fuel e ch m) s e Hd)
    as (e' & s' & ws & l & -> & ?).
  { unfold drain_fuel. rewrite (dn_session _ _ Hd). lia. }
  by exists e', s', ws, l.
Qed.

(** A publication: the opens, and then what polling the new session gives. *)
Lemma publish_flow x c e :
  coherent e → up (net e) → channels e !! ch = Some c → sessions c !! m = None →
  subscribers c = X →
  let s := Channel.attach_all c (Session.new_origin x) in
  P (strategy s) →
  ∃ e0 e' s' fuel ws l, publish ch m x pre e = (Ok (), e') ∧
    polls fuel s = Some (ws, s') ∧ drained e0 s e' s' ws l ∧ open_at e0 (bt_elements X) ∧
    net e' = net_sends (((λ p, SendSessionOpen p ch m pre []) <$> bt_elements X) ++ l) (net e).
Proof.
  intros Hco Hup Hc Hm HX s HP. unfold publish. rewrite Hc. unfold Channel.start_origin_session.
  rewrite (proj2 (contains_key_false _ _)) by done. cbv zeta. fold s.
  set (c' := Channel.with_sessions c _).
  set (e0 := set_session_preambles _ _).
  destruct (record_session_created_tombstones ch m e0) as (_ & Hch & Hpre & Hop & Hnet).
  set (e1 := record_session_created ch m e0) in *.
  assert (ready e1) as Hr1.
  { split; [by rewrite Hnet|]. rewrite Hpre. apply lookup_insert_eq. }
  assert (lookup_session e1 ch m = Some s) as Hl1.
  { apply lookup_session_Some. exists c'. rewrite Hch. split; apply lookup_insert_eq. }
  change (subscribers c') with (subscribers c). rewrite HX.
  destruct (ensure_all_flow (bt_elements X) e1 Hr1 (NoDup_bt_elements _)) as (e2 & He2 & Hs2 & Hop2).
  { intros p Hp%elem_of_bt_elements. split; [by apply known|].
    unfold is_opened_to. rewrite Hop. change (opened_to e0) with (opened_to e).
    destruct (opened_to e !! (ch, m)) as [Y|] eqn:HY; [exfalso|done].
    destruct (co_opened e Hco ch m) as [s0 (c0 & Hc0 & Hs0)%lookup_session_Some]; [by rewrite HY|].
    congruence. }
  unfold mbind, SM_bind. rewrite He2.
  assert (drainable e2 s) as Hd2.
  { split; [by eapply sends_ready|by rewrite (sends_lookup _ _ _ Hs2)|done|].
    destruct Hs2 as [_ Hc2]. unfold subscribers_of. rewrite Hc2, Hch. cbn.
    rewrite lookup_insert_eq. cbn. by rewrite HX. }
  destruct (drain_session_flow s e2 Hd2) as (e3 & s' & ws & l & -> & Hpolls & Hdr).
  exists e2, e3, s', (drain_fuel e2 ch m), ws, l. split_and!; try done.
  destruct Hs2 as [Hf2 _].
  rewrite (fl_net _ _ _ (dd_flows _ _ _ _ _ _ Hdr)), (fl_net _ _ _ Hf2), Hnet.
  unfold net_sends. by rewrite foldl_app.
Qed.
End flow.
End Flow.
