(* ===== verification/EngineSwap.v ===== *)
(** The engine over a network that may refuse: as long as the network takes what it
    is given, the engine does what it would do over one that takes everything.

    [Trusting] takes everything and notes whether the network below did; a
    publication over it that never met a refusal is the publication over the
    network itself ([publish_plain]).  So what is proved of networks that accept
    holds of a bounded network for every publication that fits its bounds. *)
From Stdlib Require Import NArith Lia.
From stdpp Require Import base gmap option strings list.
From S2P Require Import Prelude BitMap Strategy Session Channel Runtime Engine.
From S2P Require Import EngineInv EngineDrain EngineNet EngineFlow.

Open Scope N_scope.

(** A network, and whether it has taken all that it was given. *)
Record Trusting (NT : Type) := mkTrusting {
  real : NT;
  kept : bool
}.
Arguments mkTrusting {NT} _ _.
Arguments real {NT} _.
Arguments kept {NT} _.

#[export] Instance Net_Trusting `{!Net NT} : Net (Trusting NT) := λ msg n,
  let '(r, n') := net_send msg (real n) in
  (Ok (), mkTrusting n' (kept n && match r with Ok _ => true | Err _ => false end)).

#[export] Instance trusting_accepts `{!Net NT} R : Accepts (NT := Trusting NT) (λ _, True) R.
Proof. intros msg n _ _. unfold net_send, Net_Trusting. by destruct (net_send msg (real n)). Qed.

(** The messages of [l] are all taken, one after the other. *)
Fixpoint takes `{!Net NT} (l : list NetSend) (n : NT) : bool :=
  match l with
  | [] => true
  | msg :: l =>
      let '(r, n) := net_send msg n in
      match r with Ok _ => takes l n | Err _ => false end
  end.

Lemma trusting_sends `{!Net NT} l (n : NT) b :
  let n' := net_sends l (mkTrusting n b) in
  kept n' = b && takes l n ∧ real n' = net_sends l n.
Proof.
  revert n b; induction l as [|msg l IH]; intros n b; [by rewrite andb_true_r|].
  unfold net_sends in *. cbn [foldl takes].
  change (net_send msg (mkTrusting n b)) with (Net_Trusting msg (mkTrusting n b)).
  unfold Net_Trusting at 2 4. cbn [real kept].
  destruct (net_send msg n) as [[[]|err] n1] eqn:Hs; cbn [snd].
  - rewrite andb_true_r. destruct (IH n1 b) as [-> ->]. done.
  - rewrite andb_false_r. by destruct (IH n1 false) as [-> ->].
Qed.

Module Swap.
Import Engine EngineLemmas EngineSessions.
Section swap.
Context {S DE NT CT DT : Type}.
Context `{!Strategy S N BitMap DE, !DrainBound S}.
Context `{!Net NT, !Clock CT, !DeliverySink DeliveredMessage DT}.
Abbreviation Real := (Engine S NT CT DT).
Abbreviation Trusted := (Engine S (Trusting NT) CT DT).

(** An engine over another network. *)
Definition plug {NT1 NT2 : Type} (n : NT2) (e : Engine S NT1 CT DT) : Engine S NT2 CT DT :=
  mkEngine (local_peer e) (local_peer_str e) (channels e) (connected e) (delivered e) n
    (pending_sends e) (session_preambles e) (opened_to e) (config e) (clock e)
    (session_meta e) (tombstones e) (parked_chunks e) (next_cleanup e).
Definition trust (e : Real) : Trusted := plug (mkTrusting (net e) true) e.
Definition plain (e : Trusted) : Real := plug (real (net e)) e.

Lemma plain_trust e : plain (trust e) = e.
Proof. by destruct e. Qed.

Lemma plug_coherent {NT1 NT2} (n : NT2) (e : Engine S NT1 CT DT) : coherent e → coherent (plug n e).
Proof. intros []. by split. Qed.

(** [g] does over the network what [f] does over the trusting one, unless the
    network refuses something. *)
Record mirrors {A} (f : SM Trusted EngineError A) (g : SM Real EngineError A) : Prop := {
  mi_kept e : kept (net (snd (f e))) = true → kept (net e) = true;
  mi_run e : kept (net (snd (f e))) = true → g (plain e) = (fst (f e), plain (snd (f e)))
}.

Lemma mirrors_ret {A} (a : A) : mirrors (mret a) (mret a).
Proof. by split. Qed.

Lemma mirrors_bind {A B} f g (f' : A → SM Trusted EngineError B) g' :
  mirrors f g → (∀ a, mirrors (f' a) (g' a)) → mirrors (f ≫= f') (g ≫= g').
Proof.
  intros [Hk Hr] H'. split; intros e; unfold mbind, SM_bind; specialize (Hk e); specialize (Hr e);
    destruct (f e) as [[a|err] e1]; cbn [fst snd] in *.
  - intros ?%(mi_kept _ _ (H' a)). auto.
  - exact Hk.
  - intros He. rewrite Hr by by eapply mi_kept. by apply (mi_run _ _ (H' a)).
  - intros He. by rewrite Hr.
Qed.

Lemma mirrors_for {A} f g (l : list A) :
  (∀ a, mirrors (f a) (g a)) → mirrors (sm_for f l) (sm_for g l).
Proof.
  intros Hf. induction l as [|a l IH]; [apply mirrors_ret|].
  cbn [sm_for]. by apply mirrors_bind.
Qed.

Lemma send_mirrors msg : mirrors (send msg) (send msg).
Proof.
  assert (∀ e : Trusted, net_send msg (net e) = (Ok (), mkTrusting (snd (net_send msg (real (net e))))
    (kept (net e) && match fst (net_send msg (real (net e))) with Ok _ => true | Err _ => false end)))
    as Hs.
  { intros e. unfold net_send at 1, Net_Trusting. by destruct (net_send msg (real (net e))). }
  split; intros e; unfold send; rewrite Hs; cbn [fst snd net set_net kept].
  - by intros [? _]%andb_true_iff.
  - intros [_ Hr]%andb_true_iff. cbn [plain plug net].
    by destruct (net_send msg (real (net e))) as [[[]|err] n'].
Qed.

Lemma send_Ok msg (e : Trusted) : fst (send msg e) = Ok ().
Proof.
  unfold send, net_send, Net_Trusting. by destruct (net_send msg (real (net e))).
Qed.

Lemma ensure_mirrors ch m p :
  mirrors (ensure_session_open ch m p) (ensure_session_open ch m p).
Proof.
  split; intros e; unfold ensure_session_open; change (is_opened_to (plain e) ch m p)
    with (is_opened_to e ch m p); destruct (is_opened_to e ch m p); try done;
    change (session_preambles (plain e)) with (session_preambles e);
    destruct (session_preambles e !! (ch, m)) as [pre|]; try done.
  - pose proof (mi_kept _ _ (send_mirrors (SendSessionOpen p ch m pre [])) e) as Hk.
    by destruct (send _ e) as [[[]|err] e1].
  - pose proof (mi_run _ _ (send_mirrors (SendSessionOpen p ch m pre [])) e) as Hr.
    destruct (send _ e) as [[[]|err] e1]; cbn [fst snd] in *; intros He; by rewrite Hr.
Qed.

Lemma send_routing_mirrors ch m payload subs :
  mirrors (send_routing ch m payload subs) (send_routing ch m payload subs).
Proof.
  apply mirrors_for. intros p. apply mirrors_bind; [apply ensure_mirrors|intros _; apply send_mirrors].
Qed.

Lemma send_dispatches_mirrors ch m ds b :
  mirrors (send_dispatches ch m ds b) (send_dispatches ch m ds b).
Proof.
  revert b; induction ds as [|d ds IH]; intros b; [apply (mirrors_ret b)|].
  pose proof (ensure_mirrors ch m (d_peer d)) as [Hk1 Hr1].
  pose proof (send_mirrors
    (SendChunk (d_peer d) ch m (d_chunk_id d) (d_payload d) (d_handle d))) as [Hk2 Hr2].
  pose proof (send_Ok (SendChunk (d_peer d) ch m (d_chunk_id d) (d_payload d) (d_handle d))) as Hok.
  split; intros e; cbn [send_dispatches]; specialize (Hk1 e); specialize (Hr1 e);
    destruct (ensure_session_open ch m (d_peer d) e) as [[[]|err] e1]; cbn [fst snd] in *; try done.
  - specialize (Hk2 e1). specialize (Hok e1).
    destruct (send _ e1) as [r e2]; cbn [fst snd] in *. subst r.
    intros He%(mi_kept _ _ (IH b)). auto.
  - specialize (Hk2 e1). specialize (Hr2 e1). specialize (Hok e1).
    destruct (send _ e1) as [r e2]; cbn [fst snd] in *. subst r. intros He.
    pose proof (mi_kept _ _ (IH b) _ He) as He2. rewrite Hr1, Hr2 by auto.
    by apply (mi_run _ _ (IH b) (set_pending_sends _ e2)).
  - intros He. by rewrite Hr1.
Qed.

(** What a round sends. *)
Lemma send_work_mirrors ch m (r : option BitMap) ds subs :
  mirrors
    (match r with
     | Some r => send_routing ch m (BitMap.as_bytes r) subs
     | None => mret () end ≫= λ _, send_dispatches ch m ds false ≫= λ stalled, mret (negb stalled))
    (match r with
     | Some r => send_routing ch m (BitMap.as_bytes r) subs
     | None => mret () end ≫= λ _, send_dispatches ch m ds false ≫= λ stalled, mret (negb stalled)).
Proof.
  apply mirrors_bind; [destruct r; [apply send_routing_mirrors|apply mirrors_ret]|].
  intros _. apply mirrors_bind; [apply send_dispatches_mirrors|]. intros stalled. apply mirrors_ret.
Qed.

Lemma drain_round_mirrors ch m : mirrors (drain_round ch m) (drain_round ch m).
Proof.
  split; intros e; unfold drain_round;
    change (lookup_session (plain e) ch m) with (lookup_session e ch m);
    destruct (lookup_session e ch m) as [s|]; try done;
    destruct (Session.poll s) as [work s'];
    [set (e1 := update_session ch m s' e)|set (e1 := update_session ch m s' e);
     change (update_session ch m s' (plain e)) with (plain e1);
     change (channels (plain e1)) with (channels e1)];
    set (subs := match channels e1 !! ch with Some _ => _ | None => _ end);
    pose proof (send_work_mirrors ch m (routing work) (dispatches work) subs) as [Hk Hr];
    specialize (Hk e1); specialize (Hr e1);
    destruct (routing work), (dispatches work); done.
Qed.

Lemma drain_loop_mirrors fuel ch m e r e' :
  drain_loop fuel ch m e = Some (r, e') → kept (net e') = true →
  kept (net e) = true ∧ drain_loop fuel ch m (plain e) = Some (r, plain e').
Proof.
  revert e; induction fuel as [|fuel IH]; intros e; [done|]. cbn [drain_loop].
  destruct (drain_round_mirrors ch m) as [Hk Hr]. specialize (Hk e). specialize (Hr e).
  destruct (drain_round ch m e) as [[[]|err] e1]; cbn [fst snd] in *.
  - intros Hl He. destruct (IH e1 Hl He) as [He1 Hl1]. rewrite Hr by done. auto.
  - intros [= <- <-] He. rewrite Hr by done. auto.
  - intros [= <- <-] He. rewrite Hr by done. auto.
Qed.

(** A drain whose loop comes to an end. *)
Lemma drain_session_plain ch m e :
  drain_loop (drain_fuel e ch m) ch m e ≠ None →
  let '(r, e') := drain_session ch m e in
  kept (net e') = true → kept (net e) = true ∧ drain_session ch m (plain e) = (r, plain e').
Proof.
  unfold drain_session. change (drain_fuel (plain e) ch m) with (drain_fuel e ch m).
  destruct (drain_loop (drain_fuel e ch m) ch m e) as [[r e']|] eqn:Hl; [|done].
  intros _ He. by destruct (drain_loop_mirrors _ _ _ _ _ _ Hl He) as [? ->].
Qed.

Lemma ensure_all_channels ch m l (e : Trusted) :
  channels (snd (sm_for (ensure_session_open ch m) l e)) = channels e.
Proof.
  revert e; induction l as [|p l IH]; intros e; [done|]. cbn [sm_for].
  unfold mbind, SM_bind. pose proof (ensure_channels ch m p e) as H1.
  destruct (ensure_session_open ch m p e) as [[[]|err] e1]; cbn [snd] in *; [|done].
  by rewrite IH.
Qed.

(** A publication that the network takes is the one over a trusting network. *)
Lemma publish_plain (P : S → Prop) `{!DrainLaws P} ch m x pre c (e : Real) :
  channels e !! ch = Some c → sessions c !! m = None →
  P (strategy (Channel.attach_all c (Session.new_origin x))) →
  let '(r, e') := publish ch m x pre (trust e) in
  kept (net e') = true → publish ch m x pre e = (r, plain e').
Proof.
  intros Hc Hm HP.
  enough (let '(r, e') := publish ch m x pre (trust e) in
    kept (net e') = true → publish ch m x pre (plain (trust e)) = (r, plain e')) as Hall
    by by rewrite plain_trust in Hall.
  unfold publish.
  change (channels (plain (trust e))) with (channels (trust e)).
  change (channels (trust e)) with (channels e). rewrite Hc.
  unfold Channel.start_origin_session. rewrite (proj2 (contains_key_false _ _)) by done. cbv zeta.
  set (s := Channel.attach_all _ _) in *. set (c' := Channel.with_sessions c _).
  set (e1 := record_session_created ch m _). set (e1' := record_session_created ch m _).
  assert (e1' = plain e1 ∧ channels e1 = <[ch := c']> (channels e)) as [-> Hch].
  { unfold e1, e1', record_session_created. cbn.
    destruct (contains_key (session_meta e) (ch, m)); [done|]. unfold now. cbn.
    by destruct (clock_now (clock e)). }
  clearbody e1. unfold mbind, SM_bind.
  pose proof (ensure_all_channels ch m (bt_elements (subscribers c')) e1) as Hch2.
  destruct (mirrors_for _ _ (bt_elements (subscribers c')) (ensure_mirrors ch m)) as [Hk Hr].
  specialize (Hk e1). specialize (Hr e1).
  destruct (sm_for (ensure_session_open ch m) _ e1) as [[[]|err] e2]; cbn [fst snd] in *.
  - assert (lookup_session e2 ch m = Some s) as Hl.
    { apply lookup_session_Some. exists c'. rewrite Hch2, Hch. split; apply lookup_insert_eq. }
    pose proof (drain_session_plain ch m e2) as Hd.
    destruct (drain_session ch m e2) as [r e3]. intros He.
    destruct Hd as [He2 Hd]; [|done|by rewrite Hr].
    unfold drain_fuel. rewrite Hl. apply (drain_loop_total P); [|lia].
    intros s0. rewrite Hl. intros [= <-]. split; [done|lia].
  - intros He. by rewrite Hr.
Qed.
End swap.
End Swap.
