(* ===== verification/RsEngine.v ===== *)
(** The engine over the Reed-Solomon strategy: the relay factories at the end of
    [engine.rs], the strategy's discharge of the [DrainLaws] interface, and
    concrete engines for the examples. *)
From Stdlib Require Import NArith ZArith Lia.
From stdpp Require Import base gmap option strings list.
From S2P Require Import Prelude Heap BitMap Wire Config Strategy RsCodec Planner RsStrategy.
From S2P Require Import Session Channel Runtime Engine EngineInv EngineSend EngineDrain.

Open Scope N_scope.

(** * The relay factories *)
Section factories.
Context `{Sha256, ReedSolomon, Message Preamble}.

(** [rs_relay_factory_seeded]: the n-th preamble that decodes gets the seed
    [base_seed + n]. *)
Definition rs_relay_factory_seeded (config : RsConfig) (base_seed : N)
    : StrategyFactory Rs.RsStrategy :=
  mkFactory 0 (λ n preamble_bytes,
    match decode_msg preamble_bytes with
    | None => (Err (InvalidPreamble (decode_error_text preamble_bytes)), n)
    | Some preamble =>
        (map_err (λ e, InvalidPreamble (debug_string e))
           (Rs.new_relay_with_seed preamble config (u64_add base_seed n)),
         u64_add n 1)
    end).

(** [rs_relay_factory]: the seed is drawn from the system at each call; [nanos n] is
    what the clock says at the n-th, and [pid] the process. *)
Definition rs_relay_factory (config : RsConfig) (nanos : N → option N) (pid : N)
    : StrategyFactory Rs.RsStrategy :=
  mkFactory 0 (λ n preamble_bytes,
    match decode_msg preamble_bytes with
    | None => (Err (InvalidPreamble (decode_error_text preamble_bytes)), n)
    | Some preamble =>
        (map_err (λ e, InvalidPreamble (debug_string e))
           (Rs.new_relay preamble config (nanos n) pid),
         n + 1)
    end).

(** A factory that one of the two made. *)
Definition builds_relays (config : RsConfig) (f : StrategyFactory Rs.RsStrategy) : Prop :=
  (∃ base_seed, build f = build (rs_relay_factory_seeded config base_seed)) ∨
  (∃ nanos pid, build f = build (rs_relay_factory config nanos pid)).

Lemma builds_relays_eq config f n preamble_bytes :
  builds_relays config f →
  ∃ seed n', build f n preamble_bytes =
    match decode_msg preamble_bytes with
    | None => (Err (InvalidPreamble (decode_error_text preamble_bytes)), n)
    | Some preamble =>
        (map_err (λ e, InvalidPreamble (debug_string e))
           (Rs.new_relay_with_seed preamble config seed), n')
    end.
Proof.
  intros [(base_seed & ->)|(nanos & pid & ->)].
  - by exists (u64_add base_seed n), (u64_add n 1).
  - by exists (Rs.planner_seed (nanos n) pid), (n + 1).
Qed.

Lemma builds_relays_Ok config f n preamble_bytes x n' :
  builds_relays config f → build f n preamble_bytes = (Ok x, n') →
  ∃ preamble seed, decode_msg preamble_bytes = Some preamble ∧
    Rs.new_relay_with_seed preamble config seed = Ok x.
Proof.
  intros (seed & n2 & ->)%(builds_relays_eq _ _ n preamble_bytes).
  destruct (decode_msg preamble_bytes) as [preamble|]; [|done].
  destruct (Rs.new_relay_with_seed preamble config seed) eqn:Hn; [|done].
  intros [= <- _]. eauto.
Qed.
End factories.

(** * Draining terminates for Reed-Solomon *)
Module RsDrain.
Import Rs EmitPlanner PlannerLemmas.

(** The sends the planner can still start to the given peers. *)
Definition room (p : EmitPlanner) (l : list N) : nat :=
  sum_list_with
    (λ q, N.to_nat (num_shards p) - size (Planner.in_flight (peer_state p q)))%nat l.

(** Whether an unforced [poll_routing] sees a change. *)
Definition routing_due `{Sha256, ReedSolomon} (s : RsStrategy) : nat :=
  if decide (BitMap.count_ones (local_havelist s) = last_routing_emitted_count s)
  then 0 else 1.

#[export] Instance RsStrategy_bound `{Sha256, ReedSolomon} : DrainBound RsStrategy := λ s,
  (room (planner s) (bt_elements (attached_peers s)) + routing_due s)%nat.

Lemma in_flight_size p q :
  wf p → (size (Planner.in_flight (peer_state p q)) ≤ N.to_nat (num_shards p))%nat.
Proof.
  intros Hwf. etrans; [apply (subseteq_size _ (list_to_set (range (num_shards p))))|].
  - intros i Hi. apply elem_of_list_to_set, elem_of_range. by eapply wf_in_flight.
  - rewrite size_list_to_set by apply NoDup_range.
    unfold range. by rewrite length_fmap, length_seq.
Qed.

Lemma room_mono p p' l :
  num_shards p' = num_shards p →
  (∀ q, size (Planner.in_flight (peer_state p q))
      ≤ size (Planner.in_flight (peer_state p' q)))%nat →
  (room p' l ≤ room p l)%nat.
Proof.
  intros Hn Hq. unfold room. rewrite Hn. induction l as [|q l IH]; simpl; [done|].
  pose proof (Hq q). lia.
Qed.

Lemma room_less p p' l q :
  q ∈ l → num_shards p' = num_shards p → wf p' →
  (∀ q, size (Planner.in_flight (peer_state p q))
      ≤ size (Planner.in_flight (peer_state p' q)))%nat →
  (size (Planner.in_flight (peer_state p q))
      < size (Planner.in_flight (peer_state p' q)))%nat →
  (room p' l < room p l)%nat.
Proof.
  intros Hq Hn Hwf Hle Hlt. pose proof (in_flight_size p' q Hwf) as Hs.
  induction l as [|q' l IH]; [by apply elem_of_nil in Hq|].
  assert (room p' (q' :: l) = (N.to_nat (num_shards p) -
    size (Planner.in_flight (peer_state p' q')) + room p' l)%nat) as ->
    by (unfold room; simpl; by rewrite Hn).
  assert (room p (q' :: l) = (N.to_nat (num_shards p) -
    size (Planner.in_flight (peer_state p q')) + room p l)%nat) as -> by done.
  pose proof (room_mono p p' l Hn Hle). pose proof (Hle q').
  apply elem_of_cons in Hq as [<-|Hq]; [rewrite Hn in Hs; lia|].
  specialize (IH Hq). lia.
Qed.

Section laws.
Context `{Sha256, ReedSolomon}.

Definition planner_wf (s : RsStrategy) : Prop := wf (planner s).

(** A pass over the attached peers. *)
Lemma poll_peers_room l s ds s' L :
  planner_wf s → l ⊆ L → poll_peers s l = (ds, s') →
  planner_wf s' ∧ chunks s' = chunks s ∧ preamble s' = preamble s ∧
  attached_peers s' = attached_peers s ∧
  last_routing_emitted_count s' = last_routing_emitted_count s ∧
  (room (planner s') L ≤ room (planner s) L)%nat ∧
  (ds ≠ [] → room (planner s') L < room (planner s) L)%nat.
Proof.
  revert s ds s'; induction l as [|q l IH]; intros s ds s' Hwf HL.
  { simpl. intros [= <- <-]. done. }
  assert (q ∈ L ∧ l ⊆ L) as [HqL HlL] by set_solver. rewrite RsLemmas.poll_peers_cons.
  destruct (allocate (planner s) q) as [[i|] p'] eqn:Ha.
  - apply allocate_Some in Ha as (Hwf' & (_ & Hn & _) & _ & He & _ & _ & Hps); [|done].
    apply Books.eligible_not_in_flight in He.
    change (slot (with_planner s p') i) with (slot s i).
    destruct (slot s i) as [d|].
    + set (s1 := mkRs _ _ _ _ _ _ _ _).
      assert (room p' L < room (planner s) L)%nat as Hlt.
      { apply (room_less _ _ L q); [done..| |].
        - intros q'. rewrite Hps. case_decide; [subst q'|done].
          apply subseteq_size. simpl. set_solver.
        - rewrite Hps, decide_True by done. simpl. rewrite size_union by set_solver.
          rewrite size_singleton. lia. }
      destruct (poll_peers s1 l) as [ds1 s2] eqn:Hp. intros [= <- <-].
      destruct (IH s1 ds1 s2 Hwf' HlL Hp) as (? & ? & ? & ? & ? & Hle & _).
      change (planner s1) with p' in Hle. split_and!; try done; intros; lia.
    + destruct (cancel_in_flight_spec p' q i Hwf') as (Hwf2 & (_ & Hn2 & _) & _ & _ & Hf2).
      intros Hp.
      destruct (IH (with_planner s (cancel_in_flight p' q i)) ds s' Hwf2 HlL Hp)
        as (? & ? & ? & ? & ? & Hle & Hlt).
      assert (room (cancel_in_flight p' q i) L ≤ room (planner s) L)%nat as Hr.
      { apply room_mono; [congruence|]. intros q'. rewrite Hf2, Hps.
        apply subseteq_size. case_decide; [subst q'; simpl|]; set_solver. }
      simpl in Hle, Hlt. split_and!; try done; [lia|]. intros Hd. specialize (Hlt Hd). lia.
  - apply allocate_None in Ha as (Hwf' & (_ & Hn & _) & _ & _ & _ & Hps); [|done].
    intros Hp. destruct (IH (with_planner s p') ds s' Hwf' HlL Hp)
      as (? & ? & ? & ? & ? & Hle & Hlt).
    assert (room p' L ≤ room (planner s) L)%nat as Hr
      by (apply room_mono; [done|]; intros q'; by rewrite Hps).
    simpl in Hle, Hlt. split_and!; try done; [lia|]. intros Hd. specialize (Hlt Hd). lia.
Qed.

#[export] Instance planner_inv : StrategyInv planner_wf.
Proof.
  split; unfold planner_wf; intros s.
  - intros i d Hs. change (wf (planner (snd (take_chunk s i d)))).
    unfold take_chunk. case_decide; [done|]. case_decide; [done|].
    by destruct (Verify.verify_chunk _ _ _).
  - done.
  - intros p b Hs. apply (remove_peer_spec (planner s) p Hs).
  - intros p h ok Hs. change (wf (planner (chunk_sent s p h ok))).
    unfold chunk_sent. destruct (in_flight s !! h) as [[q i]|]; [|done].
    destruct ok; [apply (record_sent_spec (planner s) p i Hs)|].
    apply refund_allocation_spec, (cancel_in_flight_spec (planner s) p i Hs).
  - intros f Hs. change (wf (planner (snd (poll_routing s f)))).
    unfold poll_routing. destruct (_ && _); [done|]. cbv zeta.
    by destruct (_ || _).
  - intros Hs. change (wf (planner (snd (poll_chunks s)))). unfold poll_chunks.
    destruct (poll_peers s (bt_elements (attached_peers s))) as [ds s'] eqn:Hp.
    by apply (poll_peers_room _ _ _ _ (bt_elements (attached_peers s))) in Hp as [? _].
Qed.

#[export] Instance rs_drain_laws : DrainLaws planner_wf.
Proof.
  split; [apply _|]. intros s r s1 ds s2 Hs Hr Hc Hw.
  change (poll_routing s false = (r, s1)) in Hr. change (poll_chunks s1 = (ds, s2)) in Hc.
  assert (planner s1 = planner s ∧ chunks s1 = chunks s ∧ preamble s1 = preamble s ∧
    attached_peers s1 = attached_peers s ∧
    (routing_due s1 ≤ routing_due s)%nat ∧
    (r ≠ None → routing_due s1 < routing_due s)%nat) as (Hp1 & Hc1 & Hpre1 & Ha1 & Hd1 & Hd2).
  { unfold poll_routing in Hr. destruct (_ && _); [by injection Hr as <- <-|].
    cbv zeta in Hr. destruct (_ || _) eqn:Hb; [|by injection Hr as <- <-].
    simpl in Hb. apply andb_true_iff in Hb as [_ Hb%bool_decide_eq_true].
    injection Hr as <- <-. split_and!; try done; unfold routing_due; simpl.
    - rewrite decide_True by done. lia.
    - intros _. rewrite decide_True by done. rewrite decide_False by done. lia. }
  apply (poll_peers_room _ _ _ _ (bt_elements (attached_peers s1))) in Hc
    as (_ & Hc2 & Hpre2 & Ha2 & Hl2 & Hle & Hlt); [|by unfold planner_wf; rewrite Hp1|done].
  assert (routing_due s2 = routing_due s1) as Hd3.
  { unfold routing_due, local_havelist, total_shards. by rewrite Hc2, Hpre2, Hl2. }
  unfold poll_bound, RsStrategy_bound. rewrite Hd3, Ha2, Ha1, Hp1 in *.
  destruct Hw as [Hw|Hw]; [specialize (Hd2 Hw)|specialize (Hlt Hw)]; lia.
Qed.

(** What the constructors build satisfies the invariant. *)
Lemma new_relay_planner_wf pre cfg sd s :
  forward_multiplier cfg < 2 ^ 32 →
  new_relay_with_seed pre cfg sd = Ok s → planner_wf s.
Proof.
  intros Hf. unfold new_relay_with_seed.
  destruct (Verify.validate_preamble pre); [|done]. intros [= <-].
  apply new_wf. by intros c [= <-].
Qed.

Lemma new_origin_planner_wf payload cfg sd s :
  new_origin_with_seed payload cfg sd = Some (Ok s) → planner_wf s.
Proof.
  unfold new_origin_with_seed. destruct (Encode.encode payload cfg) as [[[pre shards]|]|];
    [|done..]. intros [= <-]. by apply new_wf.
Qed.
End laws.
End RsDrain.

(** * Concrete engines

    A network that answers from a script, accepting everything once the script
    is used up, and keeps what it was asked to send; a clock that steps through
    a list of instants; a delivery channel that keeps everything. *)
Module RsEngineExample.
Import Rs Engine RsDrain.

Record ScriptNet := mkScriptNet {
  answers : list (result NetError unit);
  sent : list NetSend
}.

#[export] Instance Net_ScriptNet : Net ScriptNet := λ msg n,
  match answers n with
  | [] => (Ok (), mkScriptNet [] (sent n ++ [msg]))
  | r :: rs => (r, mkScriptNet rs (sent n ++ [msg]))
  end.

#[export] Instance Clock_list : Clock (list N) := λ c,
  match c with
  | [] => (0, [])
  | [t] => (t, [t])
  | t :: c => (t, c)
  end.

#[export] Instance Sink_list : DeliverySink DeliveredMessage (list DeliveredMessage) :=
  λ m d, (Ok (), d ++ [m]).

Import XorCode.

(** A codec that knows the example preamble only. *)
#[export] Instance Message_Preamble : Message Preamble := {|
  encoded_len _ := 1%nat;
  encode_to_vec _ := [Byte.x01];
  decode_msg bs := if decide (bs = [Byte.x01]) then Some XorCode.preamble else None;
  decode_error_text _ := "invalid preamble bytes"
|}.

(** A relay configuration with budget for ten sends of a shard. *)
Definition relay_config : RsConfig := mkRsConfig 2 1 0 100 10 false.

Definition relay_factory : StrategyFactory Rs.RsStrategy :=
  rs_relay_factory_seeded relay_config 7.

Definition preamble_bytes : bytes := encode_to_vec XorCode.preamble.

Definition node (answers : list (result NetError unit)) (times : list N)
    : Engine Rs.RsStrategy ScriptNet (list N) (list DeliveredMessage) :=
  with_config 7 (mkScriptNet answers []) [] EngineConfig_default times.

Definition chunk_event (i : nat) : op (S:=Rs.RsStrategy) :=
  Step (NetEvent.Chunk 9 "c" "m" (N.of_nat i) (shard i)).

(** A relay of channel [c] with subscriber 1. *)
Definition relay_setup : list (op (S:=Rs.RsStrategy)) :=
  [ Subscribe "c" relay_factory;
    Step (NetEvent.Handshake 1 1 ["c"%string] "peer-1");
    Step (NetEvent.SessionOpen 9 "c" "m" preamble_bytes []) ].

(** The chunks 0, 2 and 1 arrive, each announced to the drain twice, at a relay
    whose first [SessionOpen] is refused. *)
Definition refused_relay : Engine Rs.RsStrategy ScriptNet (list N) (list DeliveredMessage) :=
  run (relay_setup ++ [chunk_event 0; chunk_event 0; chunk_event 2; chunk_event 2;
                       chunk_event 1; chunk_event 1])
    (node [Err (Backpressure 1)] [0]).

End RsEngineExample.

(** * Properties *)
Section properties.
Import Rs Engine EngineSessions RsDrain RsEngineExample XorCode.

(** C39: a refused [SessionOpen] in the middle of a drain loses the dispatches
    polled with it.  A relay holds chunks 0, 2 and 1 of a session; the network
    refuses its first [SessionOpen] to subscriber 1.  The strategy still counts
    chunk 0 as in flight under handle 0, but no pending send has that handle, so
    a result for it, from any peer, changes nothing, and chunk 0 was not sent to
    the subscriber when the others were. *)
Theorem refused_open_leaks_dispatch :
  let e := refused_relay in
  (∃ s, lookup_session e "c" "m" = Some s ∧ state s = SessionState.Reconstructed ∧
     Rs.in_flight (strategy s) !! 0 = Some (1, 0)) ∧
  pending_sends e !! ("c"%string, "m"%string, 0) = None ∧
  (∀ p b, handle_event (NetEvent.ChunkSendResult p "c" "m" 0 b) e = e) ∧
  sent (net e) =
    [ SendSessionOpen 1 "c" "m" preamble_bytes []; SendSessionOpen 1 "c" "m" preamble_bytes [];
      SendChunk 1 "c" "m" 2 (shard 2) 1; SendSessionReconstructed "c" "m" ].
Proof.
  cbv zeta. set (e := refused_relay).
  assert (option_map (λ s, (state s, Rs.in_flight (strategy s) !! 0))
    (lookup_session e "c" "m") = Some (SessionState.Reconstructed, Some (1, 0))) as Hs
    by (vm_compute; reflexivity).
  revert Hs. generalize (lookup_session e "c" "m"). intros o Hs.
  assert (pending_sends e !! ("c"%string, "m"%string, 0) = None) as Hp
    by (vm_compute; reflexivity).
  split; [|split; [exact Hp|split]].
  - destruct o as [s|]; [|discriminate Hs]. injection Hs as Hst Hf.
    exists s. split; [reflexivity|]. split; [exact Hst|exact Hf].
  - intros p b. cbn [handle_event]. unfold resolve_chunk_send. rewrite Hp. reflexivity.
  - vm_compute. reflexivity.
Qed.

(** C14: with Reed-Solomon sessions every drain of the engine ends, whatever the
    peers and the network do: the factories given to [subscribe] build with
    [new_relay_with_seed], the strategies given to [publish] come from
    [new_origin_with_seed], and the loop's fuel is enough. *)
Theorem rs_drain_terminates `{Sha256, ReedSolomon, Message Preamble}
    {NT CT DT : Type} `{Net NT, Clock CT, DeliverySink DeliveredMessage DT}
    (p : N) (nt : NT) (d : DT) (cfg : EngineConfig) (ck : CT)
    (os : list (op (S:=Rs.RsStrategy))) (ch m : string) :
  Forall (λ o,
    match o with
    | Subscribe _ f => ∃ rc, forward_multiplier rc < 2 ^ 32 ∧ builds_relays rc f
    | Publish _ _ st _ => ∃ payload rc seed,
        Rs.new_origin_with_seed payload rc seed = Some (Ok st)
    | _ => True
    end) os →
  let e := run os (with_config p nt d cfg ck) in
  ∃ r, drain_loop (drain_fuel e ch m) ch m e = Some r ∧ drain_session ch m e = r.
Proof.
  intros Hos. cbv zeta.
  destruct (drain_session_run planner_wf p nt d cfg ck os ch m) as (r & Hr & Hd & _);
    [|by exists r].
  eapply Forall_impl; [exact Hos|]. intros [c f|q|c m' st pre|ev]; cbn; try done.
  - intros (rc & Hrc & Hf) n pre st n' (pr & seed & _ & Hn)%(builds_relays_Ok _ _ _ _ _ _ Hf).
    by eapply new_relay_planner_wf.
  - intros (payload & rc & seed & Hn). by eapply new_origin_planner_wf.
Qed.

Lemma rs_drain_terminates_witness :
  let e := run relay_setup (node [] [0]) in
  ∃ r, drain_loop (drain_fuel e "c" "m") "c" "m" e = Some r ∧
    drain_session "c" "m" e = r.
Proof.
  apply (rs_drain_terminates 7 (mkScriptNet [] []) [] EngineConfig_default [0]
    relay_setup "c" "m").
  constructor; [|repeat constructor]. exists relay_config.
  split; [reflexivity|]. left. by exists 7.
Defined.

Lemma relay_setup_inv : Forall (op_inv planner_wf) relay_setup.
Proof.
  constructor; [|repeat constructor]. unfold relay_factory, rs_relay_factory_seeded.
  intros n pre st n'. cbn [build].
  destruct (decode_msg pre) as [pr|]; [|discriminate].
  destruct (new_relay_with_seed pr relay_config _) as [s|] eqn:Hn; [|discriminate].
  intros [= <- _]. eapply new_relay_planner_wf; [|exact Hn]. reflexivity.
Qed.

Lemma drain_terminates_witness :
  let e := run relay_setup (node [] [0]) in
  ∃ r, drain_loop (drain_fuel e "c" "m") "c" "m" e = Some r ∧
    drain_session "c" "m" e = r ∧
    ∀ fuel, (drain_fuel e "c" "m" ≤ fuel)%nat → drain_loop fuel "c" "m" e = Some r.
Proof.
  apply (drain_terminates planner_wf rs_drain_laws 7 (mkScriptNet [] []) []
    EngineConfig_default [0] relay_setup "c" "m").
  exact relay_setup_inv.
Defined.

Lemma tombstones_hold_witness :
  let e := run [Subscribe "c" relay_factory] (node [] [0]) in
  let ev := NetEvent.SessionOpen 9 "c" "m" preamble_bytes [] in
  tombstones e !! ("c"%string, "m"%string) = None ∧
  tombstones (handle_event ev e) = tombstones e ∧
  ∃ peer pre iu, ev = NetEvent.SessionOpen peer "c" "m" pre iu.
Proof.
  apply (tombstones_hold 7 (mkScriptNet [] []) [] EngineConfig_default [0]
    [Subscribe "c" relay_factory] _ "c" "m").
  - vm_compute. reflexivity.
  - apply is_Some_alt. vm_compute. exact I.
Defined.
End properties.
