(* ===== verification/RsFlights.v ===== *)
(** The dispatches of the Reed-Solomon strategy are accounted for: the instance of
    [EngineFlights] and what it gives for an engine. *)
From Stdlib Require Import NArith ZArith Lia.
From stdpp Require Import base gmap option strings list.
From S2P Require Import Prelude Heap BitMap Wire Config Strategy RsCodec Planner RsStrategy.
From S2P Require Import Session Channel Runtime Engine EngineInv EngineDrain EngineFlights RsEngine.

Open Scope N_scope.

Module RsFlights.
Import Rs RsDrain.
Section laws.
Context `{Sha256, ReedSolomon}.

#[export] Instance rs_flights : Flights RsStrategy := {|
  flights s := fst <$> in_flight s;
  flight_peers := attached_peers
|}.

Lemma poll_peers_flights l s :
  let '(ds, s') := poll_peers s l in
  flights s' = depart id ds (flights s) ∧ flight_peers s' = flight_peers s ∧
  ∀ d, d ∈ ds → d_peer d ∈ l.
Proof.
  revert s; induction l as [|q l IH]; intros s.
  { split; [done|]. split; [done|]. by intros d ?%elem_of_nil. }
  rewrite RsLemmas.poll_peers_cons.
  destruct (EmitPlanner.allocate (planner s) q) as [[i|] pl].
  - change (slot (with_planner s pl) i) with (slot s i). destruct (slot s i) as [payload|].
    + match goal with |- context [poll_peers ?s1 l] => specialize (IH s1);
        destruct (poll_peers s1 l) as [ds s2] end.
      destruct IH as (Hf & Hp & Hd). split; [|split; [exact Hp|]].
      * rewrite Hf, depart_cons. f_equal. cbn. by rewrite fmap_insert.
      * intros d [->|Hin]%elem_of_cons; [by left|right; by apply Hd].
    + match goal with |- context [poll_peers ?s1 l] => specialize (IH s1);
        destruct (poll_peers s1 l) as [ds s2] end.
      destruct IH as (Hf & Hp & Hd). split; [exact Hf|]. split; [exact Hp|].
      intros d Hin. right. by apply Hd.
  - specialize (IH (with_planner s pl)). destruct (poll_peers (with_planner s pl) l) as [ds s2].
    destruct IH as (Hf & Hp & Hd). split; [exact Hf|]. split; [exact Hp|].
    intros d Hin. right. by apply Hd.
Qed.

#[export] Instance rs_flight_laws : FlightLaws (S := RsStrategy).
Proof.
  split.
  - intros s i d. change (Strategy.take_chunk s i d) with (take_chunk s i d). unfold take_chunk.
    case_decide; [done|]. case_decide; [done|]. by destruct (Verify.verify_chunk _ _ _).
  - done.
  - intros s p b. split; [|done]. cbn. apply map_eq. intros h. apply option_eq. intros q.
    rewrite lookup_fmap, map_lookup_filter_Some, lookup_fmap, !fmap_Some. split.
    + intros ([q' i] & [Hl Hne]%map_lookup_filter_Some & ->). split; [by exists (q', i)|exact Hne].
    + intros [([q' i] & Hl & ->) Hne]. exists (q', i). split; [|done].
      by apply map_lookup_filter_Some.
  - intros s p h ok. change (Strategy.chunk_sent s p h ok) with (chunk_sent s p h ok).
    unfold chunk_sent. destruct (in_flight s !! h) as [[q i]|] eqn:Hh; cbn.
    + by rewrite fmap_delete.
    + split; [|done]. by rewrite delete_id by by rewrite lookup_fmap, Hh.
  - intros s b. change (Strategy.poll_routing s b) with (poll_routing s b). unfold poll_routing.
    destruct (_ && _); [done|]. cbv zeta. by destruct (_ || _).
  - intros s. change (Strategy.poll_chunks s) with (poll_chunks s). unfold poll_chunks.
    pose proof (poll_peers_flights (bt_elements (attached_peers s)) s) as Hp.
    destruct (poll_peers s _) as [ds s']. destruct Hp as (Hf & Hp & Hd). split; [exact Hf|].
    split; [exact Hp|]. intros d Hin. by apply elem_of_bt_elements, Hd.
Qed.

Lemma new_relay_newborn pr cfg sd s :
  new_relay_with_seed pr cfg sd = Ok s → Accounts.newborn s.
Proof.
  unfold new_relay_with_seed. destruct (Verify.validate_preamble pr); [|done]. by intros [= <-].
Qed.

Lemma new_origin_newborn payload cfg sd s :
  new_origin_with_seed payload cfg sd = Some (Ok s) → Accounts.newborn s.
Proof.
  unfold new_origin_with_seed. destruct (Encode.encode payload cfg) as [[[pre shards]|]|];
    [|done..]. by intros [= <-].
Qed.
End laws.
End RsFlights.

(** * Property *)
Section properties.
Import Rs Engine EngineLemmas Accounts RsDrain RsFlights.

(** C16: no dispatch is lost while opens and routing updates go through.  On a
    network that refuses nothing but chunks, whatever happens to an engine: each
    chunk that a live session counts as under way is a pending send of the engine
    to the same peer, a subscriber of the channel, and the result of that send ends
    it and lets the session go on.  ([refused_open_leaks_dispatch] is what a refused
    open does instead.) *)
Theorem dispatches_accounted `{Sha256, ReedSolomon, Message Preamble}
    {NT CT DT : Type} `{!Net NT, !ControlPasses NT, !Clock CT, !DeliverySink DeliveredMessage DT}
    (p : N) (nt : NT) (d : DT) (cfg : EngineConfig) (ck : CT)
    (os : list (op (S:=RsStrategy))) ch m c s h q i :
  Forall (λ o,
    match o with
    | Subscribe _ f => ∃ rc, builds_relays rc f
    | Publish _ _ st _ => ∃ payload rc seed, new_origin_with_seed payload rc seed = Some (Ok st)
    | _ => True
    end) os →
  let e := run os (with_config p nt d cfg ck) in
  channels e !! ch = Some c → sessions c !! m = Some s →
  in_flight (strategy s) !! h = Some (q, i) →
  q ∈ subscribers c ∧ pending_sends e !! (ch, m, h) = Some q ∧
  ∀ p ok, ∃ s', in_flight (strategy s') = delete h (in_flight (strategy s)) ∧
    handle_event (NetEvent.ChunkSendResult p ch m h ok) e =
      sm_exec (drain_session ch m)
        (update_session ch m s' (set_pending_sends (delete (ch, m, h) (pending_sends e)) e)).
Proof.
  intros Hos e Hc Hm Hh.
  assert (accounted e) as He.
  { apply run_accounted; [|apply with_config_accounted]. eapply Forall_impl; [exact Hos|].
    intros [ch' f|p'|ch' m' x pre|ev]; cbn; try done.
    - intros (rc & Hf) n pre x n' (pr & seed & _ & Hn)%(builds_relays_Ok _ _ _ _ _ _ Hf).
      by eapply new_relay_newborn.
    - intros (payload & rc & seed & Hn). by eapply new_origin_newborn. }
  assert (lookup_session e ch m = Some s) as Hl by (apply lookup_session_Some; eauto).
  assert (flights (strategy s) !! h = Some q) as Hf by (cbn; by rewrite lookup_fmap, Hh).
  destruct (proj2 (He ch c Hc) m s Hm) as [Hpeers Htidy Hpend].
  split; [by eapply Hpeers, Htidy|]. split; [by apply Hpend|]. intros p' ok.
  exists (Session.chunk_sent s p' h ok). split.
  - cbn [Session.chunk_sent strategy].
    change (Strategy.chunk_sent (strategy s) p' h ok) with (chunk_sent (strategy s) p' h ok).
    unfold chunk_sent. by rewrite Hh.
  - cbn [handle_event]. unfold resolve_chunk_send.
    rewrite (Hpend h q Hf). cbv zeta.
    change (lookup_session (set_pending_sends _ e) ch m) with (lookup_session e ch m).
    by rewrite Hl.
Qed.
End properties.

(** ** A network that refuses chunks from a script *)
Module FlightsExample.
Import Rs Engine RsDrain RsEngineExample XorCode RsFlights.

Record ChunkNet := mkChunkNet { taken : list bool }.

#[export] Instance Net_ChunkNet : Net ChunkNet := λ msg n,
  match msg, taken n with
  | SendChunk peer _ _ _ _ _, b :: bs =>
      (if b then Ok () else Err (Backpressure peer), mkChunkNet bs)
  | _, _ => (Ok (), n)
  end.

#[export] Instance chunk_net_passes : ControlPasses ChunkNet.
Proof. intros msg [[|b bs]] Hm; destruct msg; try done. exfalso. by eapply Hm. Qed.

(** The first send of chunk 0 is refused, the second is under way. *)
Definition flight_ops : list (op (S:=RsStrategy)) := relay_setup ++ [chunk_event 0; chunk_event 0].
Definition flying : Engine RsStrategy ChunkNet (list N) (list DeliveredMessage) :=
  run flight_ops (with_config 7 (mkChunkNet [false]) [] EngineConfig_default [0]).

Lemma dispatches_accounted_witness :
  ∃ c s, channels flying !! "c"%string = Some c ∧ sessions c !! "m"%string = Some s ∧
    in_flight (strategy s) !! 1 = Some (1, 0) ∧
    1 ∈ subscribers c ∧ pending_sends flying !! ("c"%string, "m"%string, 1) = Some 1.
Proof.
  assert ((c ← channels flying !! "c"%string; s ← sessions c !! "m"%string;
    in_flight (strategy s) !! 1) = Some (1, 0)) as Hin by (vm_compute; reflexivity).
  pose proof (dispatches_accounted 7 (mkChunkNet [false]) [] EngineConfig_default [0] flight_ops
    "c" "m") as Hall.
  cbv zeta in Hall. revert Hin Hall. unfold flying.
  generalize (run flight_ops
    (with_config 7 (mkChunkNet [false]) [] EngineConfig_default [0] :
       Engine RsStrategy ChunkNet (list N) (list DeliveredMessage))).
  intros e Hin Hall.
  destruct (channels e !! "c"%string) as [c|] eqn:Hc; [|discriminate Hin].
  cbn [mbind option_bind] in Hin.
  destruct (sessions c !! "m"%string) as [s|] eqn:Hm; [|discriminate Hin].
  cbn [mbind option_bind] in Hin. exists c, s.
  destruct (Hall c s 1 1 0) as (Hsub & Hpend & _); [|done..|].
  - constructor; [|repeat constructor]. exists relay_config. left. by exists 7.
  - done.
Defined.
End FlightsExample.
