(* ===== verification/EngineAuth.v ===== *)
(** Authenticity: a session only ever runs under a preamble that was published
    for it, and what the engine delivers fits such a preamble.

    [Auth ch m pre] says that [pre] are the bytes of a preamble published for
    message [m] on channel [ch].  An engine that is only given such preambles
    sends no others; how this is observed on the network and on the delivery
    channel is the interface [Observers]. *)
From Stdlib Require Import NArith ZArith Lia.
From stdpp Require Import base gmap option strings list.
From S2P Require Import Prelude BitMap Wire Config Strategy RsCodec Planner RsStrategy.
From S2P Require Import Session Channel Runtime Engine EngineInv EngineRel EngineSend EngineDeliver RsEngine.

Open Scope N_scope.

Module Auth.
Import Engine EngineLemmas EngineRel.
Section auth.
Context {S DE NT CT DT : Type}.
Context `{!Strategy S N BitMap DE, !DrainBound S}.
Context `{!Net NT, !Clock CT, !DeliverySink DeliveredMessage DT}.
Implicit Type e : Engine S NT CT DT.

Context (Auth : string → string → bytes → Prop).

(** [G pre x]: strategy [x] runs under the preamble [pre]. *)
Context (G : bytes → S → Prop) `{!∀ pre, StrategyInv (G pre)}.

(** [NI] and [DI]: what is true of a network that was only sent authentic opens
    and of a delivery channel that was only offered authentic messages. *)
Class Observers (NI : NT → Prop) (DI : DT → Prop) : Prop := {
  ob_send msg n :
    NI n → (∀ p ch m pre iu, msg = SendSessionOpen p ch m pre iu → Auth ch m pre) →
    NI (snd (net_send msg n));
  ob_deliver ch m pre x payload d :
    DI d → Auth ch m pre → G pre x → decode x = Ok payload →
    DI (snd (try_send (mkDelivered ch m payload) d))
}.

Context (NI : NT → Prop) (DI : DT → Prop) `{!Observers NI DI}.

(** The engine is authentic. *)
Record auth e : Prop := {
  au_sessions ch m s : lookup_session e ch m = Some s → ∃ pre, Auth ch m pre ∧ G pre (strategy s);
  au_preambles ch m pre : session_preambles e !! (ch, m) = Some pre → Auth ch m pre;
  au_factories ch c n pre x n' :
    channels e !! ch = Some c → build (factory c) n pre = (Ok x, n') → G pre x;
  au_net : NI (net e);
  au_delivered : DI (delivered e)
}.

Definition keeps_auth e e' : Prop := auth e → auth e'.

Lemma lookup_session_intro e ch m c s :
  channels e !! ch = Some c → sessions c !! m = Some s → lookup_session e ch m = Some s.
Proof. intros Hc Hs. apply lookup_session_Some. eauto. Qed.

#[export] Instance keeps_auth_rel :
  EngineRel (λ ch m pre x, Auth ch m pre ∧ G pre x)
    (λ f, ∀ n pre x n', build f n pre = (Ok x, n') → G pre x) keeps_auth.
Proof.
  unfold keeps_auth. split.
  - split; [by intros e|]. intros e1 e2 e3 H1 H2 ?. by apply H2, H1.
  - intros e e' Hc Hp Hn Hd []. split; unfold lookup_session in *; rewrite ?Hc, ?Hp, ?Hn, ?Hd; done.
  - intros msg e Hm []. pose proof (ob_send msg (net e) au_net0) as Hn. unfold send.
    destruct (net_send msg (net e)) as [r n]. split; try done. apply Hn. eauto.
  - intros ch m s payload e Hl Hd []. destruct (au_sessions0 ch m s Hl) as (pre & Ha & Hg).
    split; try done. by eapply ob_deliver.
  - intros v e Hv []. split; try done. cbn. eauto.
  - intros v e Hv _ []. split; try done; cbn.
    + intros ch m s' (c' & Hc' & Hs')%lookup_session_Some.
      destruct (Hv ch c' Hc') as (c & Hc & _ & Hl). destruct (Hl m s' Hs') as (s & Hs & Hls).
      destruct (au_sessions0 ch m s) as (pre & Ha & Hg); [by eapply lookup_session_intro|].
      exists pre. split; [done|]. by apply Hls.
    + intros ch c' n pre x n' Hc'. destruct (Hv ch c' Hc') as (c & Hc & -> & _). eauto.
  - intros ch f e Hf _ []. split; try done; cbn.
    + intros ch' m s (c & Hc & Hs)%lookup_session_Some. cbn in Hc.
      apply lookup_insert_Some in Hc as [[_ <-]|[_ Hc]]; [cbn in Hs; by rewrite lookup_empty in Hs|].
      eapply au_sessions0, lookup_session_intro; done.
    + intros ch' c n pre x n'. rewrite lookup_insert_Some. intros [[_ <-]|[_ Hc]]; [apply Hf|eauto].
  - intros ch m pre x s c c' e Hc [Ha Hg] Hl Hb Hs []. split; try done; cbn.
    + intros ch' m' s' (c2 & Hc2 & Hs2)%lookup_session_Some. cbn in Hc2.
      apply lookup_insert_Some in Hc2 as [[<- <-]|[_ Hc2]];
        [|eapply au_sessions0, lookup_session_intro; done].
      rewrite Hs in Hs2. apply lookup_insert_Some in Hs2 as [[<- <-]|[_ Hs2]].
      * exists pre. split; [done|]. by apply Hl.
      * eapply au_sessions0, lookup_session_intro; done.
    + intros ch' m' pre'. rewrite lookup_insert_Some. intros [[[= <- <-] <-]|[_ ?]]; eauto.
    + intros ch' c2 n pre' x' n'. rewrite lookup_insert_Some.
      intros [[_ <-]|[_ Hc2]]; [rewrite Hb; eauto|eauto].
Qed.

(** What the application and the network hand in is authentic. *)
Definition op_auth (o : op) : Prop :=
  match o with
  | Subscribe _ f => ∀ n pre x n', build f n pre = (Ok x, n') → G pre x
  | Publish ch m x pre => Auth ch m pre ∧ G pre x
  | Step (NetEvent.SessionOpen _ ch m pre _) => Auth ch m pre
  | _ => True
  end.

Definition event_auth (ev : NetEvent.t) : Prop :=
  match ev with NetEvent.SessionOpen _ ch m pre _ => Auth ch m pre | _ => True end.

Lemma event_auth_ok ev e :
  auth e → event_auth ev → event_ok (λ ch m pre x, Auth ch m pre ∧ G pre x) ev e.
Proof.
  intros He Hev. destruct ev; try done. intros c n x n' Hc Hb. split; [done|].
  by eapply au_factories.
Qed.

Lemma step_auth ev e :
  (∀ ev', ev = Some ev' → event_auth ev') → auth e → auth (snd (run_one_step ev e)).
Proof.
  intros Hev He. apply (run_one_step_rel _ _ keeps_auth); [|done].
  intros ev' ->. by apply event_auth_ok, Hev.
Qed.

Lemma exec_auth o e : op_auth o → auth e → auth (exec o e).
Proof.
  intros Ho He. apply (exec_rel _ _ keeps_auth o e); [|done].
  destruct o as [ch f|p|ch m st pre|ev]; try done.
  apply event_auth_ok; [done|]. by destruct ev.
Qed.

Lemma run_auth os e : Forall op_auth os → auth e → auth (run os e).
Proof.
  intros Hos. revert e; induction Hos as [|o os Ho Hos IH]; intros e He; [done|].
  apply IH. by apply exec_auth.
Qed.

Lemma with_config_auth p nt d cfg ck : NI nt → DI d → auth (with_config p nt d cfg ck).
Proof.
  intros Hn Hd. unfold with_config. destruct (clock_now ck) as [t k]. split; try done.
Qed.
End auth.
End Auth.

(** * Reed-Solomon sessions *)
Module RsAuth.
Import Engine Rs RsDrain Auth.
Section rs.
Context `{Sha256, ReedSolomon, Message Preamble}.

(** A strategy that runs under the preamble the bytes decode to. *)
Definition runs_under (pre : bytes) (x : Rs.RsStrategy) : Prop :=
  decode_msg pre = Some (Rs.preamble x).

#[export] Instance runs_under_inv pre : StrategyInv (runs_under pre).
Proof.
  assert (∀ l (s : Rs.RsStrategy), Rs.preamble (snd (Rs.poll_peers s l)) = Rs.preamble s) as Hp.
  { induction l as [|p l IH]; intros s; [done|]. rewrite RsLemmas.poll_peers_cons.
    destruct (EmitPlanner.allocate _ _) as [[i|] pl]; [|by rewrite IH].
    destruct (slot _ i); [|by rewrite IH].
    match goal with |- context [Rs.poll_peers ?s1 l] => pose proof (IH s1) as Hi;
      destruct (Rs.poll_peers s1 l) as [ds s2] end. exact Hi. }
  split; unfold runs_under; intros s.
  - intros i d ->. f_equal. change (preamble s = preamble (snd (take_chunk s i d))).
    unfold take_chunk. case_decide; [done|]. case_decide; [done|].
    by destruct (Verify.verify_chunk _ _ _).
  - done.
  - done.
  - intros p h ok ->. f_equal. change (preamble s = preamble (chunk_sent s p h ok)).
    unfold chunk_sent. destruct (in_flight s !! h) as [[q i]|]; [|done]. by destruct ok.
  - intros f ->. f_equal. change (preamble s = preamble (snd (poll_routing s f))).
    unfold poll_routing. destruct (_ && _); [done|]. cbv zeta. by destruct (_ || _).
  - intros ->. f_equal. symmetry. apply Hp.
Qed.

(** A payload of the length and digest that a preamble commits to. *)
Definition fits (pre : bytes) (payload : bytes) : Prop :=
  ∃ pr, decode_msg pre = Some pr ∧ sha256_digest payload = hash pr ∧
    N.of_nat (length payload) = i32_as_usize (p_length pr).

Lemma decode_fits pre x payload :
  runs_under pre x → decode x = Ok payload → fits pre payload.
Proof.
  intros Hr Hd. change (reconstruct x = Ok payload) in Hd. unfold reconstruct in Hd.
  apply decode_Ok in Hd as (_ & Hh & Hl). by exists (Rs.preamble x).
Qed.

(** The factories of [engine.rs] and the origins of [publish]. *)
Lemma relay_factory_under cfg f n pre x n' :
  builds_relays cfg f → build f n pre = (Ok x, n') → runs_under pre x.
Proof.
  intros Hf (pr & seed & Hd & Hn)%(builds_relays_Ok _ _ _ _ _ _ Hf). unfold runs_under. rewrite Hd.
  revert Hn. unfold Rs.new_relay_with_seed. destruct (Verify.validate_preamble pr); [|done].
  by intros [= <-].
Qed.

Lemma origin_under `{!MessageLaws Preamble} payload cfg seed pr shards x :
  Encode.encode payload cfg = Some (Ok (pr, shards)) →
  Rs.new_origin_with_seed payload cfg seed = Some (Ok x) →
  runs_under (encode_to_vec pr) x.
Proof.
  intros He. unfold Rs.new_origin_with_seed, runs_under. rewrite He, decode_msg_encode.
  by intros [= <-].
Qed.
End rs.
End RsAuth.

(** * Properties *)
Section properties.
Context `{Sha256, ReedSolomon, Message Preamble, !MessageLaws Preamble}.
Context {NT CT DT : Type} `{!Net NT, !Clock CT, !DeliverySink DeliveredMessage DT}.
Import Engine Rs RsDrain Auth RsAuth.

(** The log of a network and of a delivery channel. *)
Definition log_auth (Auth : string → string → bytes → Prop) (n : Logged NT) : Prop :=
  ∀ p ch m pre iu ok, (SendSessionOpen p ch m pre iu, ok) ∈ log n → Auth ch m pre.

Definition offers_fit (Auth : string → string → bytes → Prop)
    (d : Recorded DeliveredMessage DT) : Prop :=
  ∀ ch m payload, mkDelivered ch m payload ∈ offered d → ∃ pre, Auth ch m pre ∧ fits pre payload.

#[export] Instance log_observers Auth :
  Observers Auth runs_under (log_auth Auth) (offers_fit Auth).
Proof.
  split.
  - intros msg n Hn Hm. unfold net_send, Net_Logged.
    destruct (net_send msg (inner n)) as [r i]. intros p ch m pre iu ok.
    cbn [snd log]. intros [Hin|Hin%list_elem_of_singleton]%elem_of_app; [by eapply Hn|].
    injection Hin as <- _. eauto.
  - intros ch m pre x payload d Hd Ha Hr Hx. unfold try_send, DeliverySink_Recorded.
    destruct (try_send _ (sink d)) as [r i]. intros ch' m' payload'. cbn [snd offered].
    intros [Hin|Hin%list_elem_of_singleton]%elem_of_app; [by apply Hd|].
    injection Hin as -> -> ->. exists pre. split; [done|]. by eapply decode_fits.
Qed.

(** C12: nothing forged gets through an engine.  Say that [Auth ch m pre] holds of
    the preambles published for message [m] on channel [ch].  If the application
    publishes encodings under such preambles, its channels use the factories of
    the crate, and the sessions that peers open carry such preambles, then
    whatever else the peers send and whatever the network does, every session the
    engine opens at a peer carries such a preamble, and every message it delivers
    has the length and the SHA-256 digest of one. *)
Theorem engine_authentic (Auth : string → string → bytes → Prop) (p : N) (nt : NT) (d : DT)
    (cfg : EngineConfig) (ck : CT) (os : list (op (S:=Rs.RsStrategy))) :
  Forall (λ o,
    match o with
    | Subscribe _ f => ∃ rc, builds_relays rc f
    | Publish ch m x pre => Auth ch m pre ∧ ∃ payload rc seed pr shards,
        Encode.encode payload rc = Some (Ok (pr, shards)) ∧ pre = encode_to_vec pr ∧
        Rs.new_origin_with_seed payload rc seed = Some (Ok x)
    | Step (NetEvent.SessionOpen _ ch m pre _) => Auth ch m pre
    | _ => True
    end) os →
  let e := run os (with_config p (mkLogged nt []) (mkRecorded d []) cfg ck) in
  (∀ q ch m pre iu ok, (SendSessionOpen q ch m pre iu, ok) ∈ log (net e) → Auth ch m pre) ∧
  (∀ ch m payload, mkDelivered ch m payload ∈ offered (delivered e) →
     ∃ pre pr, Auth ch m pre ∧ decode_msg pre = Some pr ∧
       sha256_digest payload = hash pr ∧ N.of_nat (length payload) = i32_as_usize (p_length pr)).
Proof.
  intros Hos. cbv zeta.
  assert (auth Auth runs_under (log_auth Auth) (offers_fit Auth)
    (run os (with_config p (mkLogged nt []) (mkRecorded d []) cfg ck))) as [_ _ _ Hn Hd].
  { apply run_auth; [apply _|apply _| |].
    - eapply Forall_impl; [exact Hos|]. intros [ch f|q|ch m x pre|ev]; cbn; try done.
      + intros (rc & Hf) n pre x n'. by eapply relay_factory_under.
      + intros (Ha & payload & rc & seed & pr & shards & He & -> & Hx).
        split; [done|]. by eapply origin_under.
    - apply with_config_auth; [by intros ?????? ?%elem_of_nil|by intros ??? ?%elem_of_nil]. }
  split; [exact Hn|]. intros ch m payload Hin.
  destruct (Hd ch m payload Hin) as (pre & Ha & pr & Hpr). eauto.
Qed.
End properties.

(** ** A lawful codec, and a relay that delivers *)
Module AuthExample.
Import Engine Rs RsDrain Auth RsAuth XorCode.

#[export] Instance Preamble_countable : Countable Preamble.
Proof.
  apply (inj_countable'
    (λ p, (num_data p, num_parity p, p_length p, hashes p, hash p))
    (λ '(k, m, l, hs, h), mkPreamble k m l hs h)). by intros [].
Defined.

(** The example preamble has a short encoding of its own. *)
Definition short_encode (p : Preamble) : bytes :=
  if decide (p = XorCode.preamble) then [Byte.x01] else Byte.x02 :: countable_encode p.

Definition short_decode (bs : bytes) : option Preamble :=
  match bs with
  | [Byte.x01] => Some XorCode.preamble
  | Byte.x02 :: bs => @decode_msg Preamble (Message_countable Preamble) bs
  | _ => None
  end.

Definition Message_short : Message Preamble :=
  {| encoded_len p := length (short_encode p);
     encode_to_vec := short_encode;
     decode_msg := short_decode;
     decode_error_text _ := "too short" |}.

Lemma MessageLaws_short : @MessageLaws Preamble Message_short.
Proof.
  split; [done|]. intros p. cbn. unfold short_encode. case_decide as Hp; [by rewrite Hp|].
  apply (@decode_msg_encode _ (Message_countable Preamble)
    (MessageLaws_countable Preamble)).
Qed.
#[local] Existing Instances Message_short MessageLaws_short.
#[local] Existing Instances RsEngineExample.Net_ScriptNet RsEngineExample.Clock_list
  RsEngineExample.Sink_list.

(** A relay with one subscriber gets a session and two of its chunks. *)
Definition relay_ops : list (op (S:=Rs.RsStrategy)) :=
  [ Subscribe "c" (rs_relay_factory_seeded RsEngineExample.relay_config 7);
    Step (NetEvent.Handshake 1 1 ["c"%string] "peer-1");
    Step (NetEvent.SessionOpen 9 "c" "m" [Byte.x01] []);
    RsEngineExample.chunk_event 0; RsEngineExample.chunk_event 2 ].

Definition published (ch m : string) (pre : bytes) : Prop :=
  ch = "c"%string ∧ m = "m"%string ∧ pre = [Byte.x01].

Lemma engine_authentic_witness :
  let e := run relay_ops
    (with_config 7 (mkLogged (RsEngineExample.mkScriptNet [] []) []) (mkRecorded [] [])
       EngineConfig_default [0]) in
  offered (delivered e) = [mkDelivered "c" "m" payload] ∧
  (∀ q ch m pre iu ok, (SendSessionOpen q ch m pre iu, ok) ∈ log (net e) → published ch m pre) ∧
  (∀ ch m pl, mkDelivered ch m pl ∈ offered (delivered e) →
     ∃ pre pr, published ch m pre ∧ decode_msg pre = Some pr ∧
       sha256_digest pl = hash pr ∧ N.of_nat (length pl) = i32_as_usize (p_length pr)).
Proof.
  split; [vm_compute; reflexivity|].
  apply (engine_authentic published 7 (RsEngineExample.mkScriptNet [] []) []
    EngineConfig_default [0] relay_ops).
  constructor; [exists RsEngineExample.relay_config; left; by exists 7|].
  constructor; [exact I|]. constructor; [split; [reflexivity|split; reflexivity]|].
  constructor; [exact I|]. constructor; [exact I|]. constructor.
Defined.
End AuthExample.
