(* ===== verification/RsBroadcast.v ===== *)
(** A broadcast, from the origin's [publish] to the relays' applications.

    [publish_sends_all]: what an origin engine puts on a network that accepts it.
    [relay_delivers]: what a relay engine needs to deliver a message, whatever
    else happens to it.  [broadcast_delivers] puts the two together. *)
From Stdlib Require Import NArith ZArith Lia.
From stdpp Require Import base gmap option strings list.
From S2P Require Import Prelude Heap BitMap Wire Config Strategy RsCodec Planner RsStrategy RsLink.
From S2P Require Import Session Channel Runtime MemoryNet Engine EngineInv EnginePark EngineSend.
From S2P Require Import EngineDrain EngineDeliver EngineObserve EngineNet EngineFlow RsEngine EngineAuth.

Open Scope N_scope.

(** * What a Reed-Solomon session gathers *)
Module RsGather.
Import Rs RsLemmas RsTrace.
Section gather.
Context `{Sha256, !Sha256Laws, ReedSolomon, !ReedSolomonLaws}.

(** The preamble and the chunks, which only [take_chunk] changes. *)
Definition seen (s : RsStrategy) : Preamble * list (option bytes) := (preamble s, chunks s).

Lemma poll_peers_seen l s : seen (snd (poll_peers s l)) = seen s.
Proof.
  revert s; induction l as [|p l IH]; intros s; [done|]. rewrite RsLemmas.poll_peers_cons.
  destruct (EmitPlanner.allocate _ _) as [[i|] pl]; [|by rewrite IH].
  destruct (slot _ i); [|by rewrite IH].
  match goal with |- context [poll_peers ?s1 l] => pose proof (IH s1) as Hi;
    destruct (poll_peers s1 l) as [ds s2] end. exact Hi.
Qed.

#[export] Instance seen_unmoved : Unmoved seen.
Proof.
  split; intros s.
  - done.
  - done.
  - intros p h ok. change (seen (chunk_sent s p h ok) = seen s). unfold chunk_sent.
    by destruct (in_flight s !! h) as [[q i]|].
  - intros b. change (seen (snd (poll_routing s b)) = seen s). unfold poll_routing.
    destruct (_ && _); [done|]. cbv zeta. by destruct (_ || _).
  - apply poll_peers_seen.
Qed.

Context (payload : bytes) (kk m : N) (pre : Preamble) (shards : list bytes).
Hypothesis Hencoded : encoded payload kk m pre shards.

Definition good (a : Preamble * list (option bytes)) : Prop :=
  a.1 = pre ∧ length a.2 = length shards ∧
  ∀ j d, a.2 !! j = Some (Some d) → shards !! j = Some d.
Definition have (a : Preamble * list (option bytes)) (i : N) : Prop :=
  ∃ d, a.2 !! N.to_nat i = Some (Some d).
Definition full (a : Preamble * list (option bytes)) : bool :=
  bool_decide (i32_as_u32 (num_data a.1) ≤ usize_as_u32 (length (filter is_Some a.2))).
Definition genuine (i : N) : option bytes := shards !! N.to_nat i.
Definition fair (i : N) (d : bytes) : Prop := collision_free (shards !! N.to_nat i) d.

Lemma genuine_fair i d : shards !! N.to_nat i = Some d → fair i d.
Proof. intros Hd g Hg _. congruence. Qed.

Lemma length_shards_u32 : N.of_nat (length shards) < 2 ^ 32.
Proof.
  rewrite (encoded_total _ _ _ _ _ Hencoded).
  rewrite preamble_total_valid; [|by eapply encoded_valid|by eapply encoded_i32].
  apply shard_total_u32. by eapply encoded_valid.
Qed.

(** Distinct held chunks are counted. *)
Lemma held_count_le (cs : list (option bytes)) (D : list N) :
  NoDup D → (∀ i, i ∈ D → ∃ d, cs !! N.to_nat i = Some (Some d)) →
  (length D ≤ length (filter is_Some cs))%nat.
Proof.
  intros Hnd HD. rewrite <- Havelist.countb_filter.
  assert (∀ f n, countb f n = length (filter (λ i, f i = true) (seq 0 n))) as Hcount.
  { intros f n. induction n as [|n IH]; [done|].
    rewrite seq_S, filter_app, length_app, <- IH. cbn [countb filter list_filter Nat.add].
    destruct (f n); by case_decide. }
  rewrite Hcount, <- (length_fmap N.to_nat D). apply submseteq_length, NoDup_submseteq.
  - by apply NoDup_fmap_2; [intros ???; lia|].
  - intros j (i & -> & Hi)%list_elem_of_fmap. destruct (HD i Hi) as [d Hd].
    apply list_elem_of_filter. rewrite Hd. split; [by apply bool_decide_eq_true|].
    apply elem_of_seq. apply lookup_lt_Some in Hd. lia.
Qed.

(** A chunk that is not a collision is taken well. *)
Lemma rs_take s i d :
  good (seen s) → full (seen s) = false → fair i d →
  let '(r, s') := take_chunk s i d in good (seen s') ∧
    (∀ j, have (seen s) j → have (seen s') j) ∧ (genuine i = Some d → have (seen s') i) ∧
    full (seen s') = match r with
      | Ok o => complete o && bool_decide (verdict o = Verdict.Accepted)
      | Err _ => false end ∧
    (∀ o, r = Ok o → complete o = full (seen s')).
Proof.
  intros (Hpre & Hlen & Hver) Hfull Hfair. cbn [fst snd seen] in *.
  assert (total_shards s = N.of_nat (length shards)) as Ht.
  { unfold total_shards. rewrite Hpre. symmetry. by eapply encoded_total. }
  unfold take_chunk. rewrite Ht. case_decide as Hi.
  { split; [done|]. split; [done|]. split; [|by split].
    intros Hg%lookup_lt_Some. lia. }
  case_decide as Hs.
  { change (can_reconstruct s) with (full (seen s)). rewrite Hfull.
    split; [done|]. split; [done|]. split; [|by split; [|intros o [= <-]]].
    intros _. destruct Hs as [d' Hd']. exists d'. by apply slot_lookup. }
  destruct (VerifyLemmas.verify_chunk_cases (preamble s) i d) as [Hv|Hv]; rewrite Hv.
  - cbv zeta. match goal with |- context [can_reconstruct ?x] => set (s' := x) end.
    change (can_reconstruct s') with (full (seen s')).
    assert (∀ j, chunks s' !! j = if decide (j = N.to_nat i) then Some (Some d)
                                  else chunks s !! j) as Hlk.
    { intros j. cbn. case_decide as Hj; [subst j|by apply list_lookup_insert_ne].
      apply list_lookup_insert_eq. lia. }
    split; [|split; [|split; [|split; [|by intros o [= <-]]]]].
    + split; [done|]. split; [by cbn; rewrite length_insert|].
      intros j d'. cbn [snd seen]. rewrite Hlk. case_decide; [|apply Hver].
      intros [= <-]. subst j. rewrite Hpre in Hv. by eapply verified_genuine.
    + intros j [d' Hd']. unfold have. cbn [snd seen] in *. rewrite Hlk.
      case_decide; eauto.
    + intros _. exists d. cbn [snd seen]. by rewrite Hlk, decide_True.
    + cbn [complete verdict]. by rewrite bool_decide_true, andb_true_r.
  - split; [done|]. split; [done|]. split; [|by split; [|intros o [= <-]]].
    intros Hg. exfalso. pose proof (encoded_verify _ _ _ _ _ i d Hencoded Hg). congruence.
Qed.

#[export] Instance rs_gathers :
  Gathers seen good have full genuine fair payload (N.to_nat kk).
Proof.
  pose proof length_shards_u32 as H32. split.
  - exact rs_take.
  - intros [pr cs] D (Hpre & Hlen & Hver) Hnd HD Hk. cbn [fst snd] in *. subst pr.
    apply bool_decide_eq_true. cbn [fst snd].
    pose proof (held_count_le cs D Hnd HD). pose proof (length_filter is_Some cs).
    pose proof (encoded_i32 _ _ _ _ _ Hencoded) as [Hi _].
    rewrite (en_num_data _ _ _ _ _ Hencoded) in *. rewrite usize_as_u32_small by lia.
    unfold i32_as_u32. rewrite Z.mod_small by lia. lia.
  - intros s (Hpre & Hlen & Hver) Hfull. cbn [fst snd seen] in *.
    eapply decode_genuine; [exact Hencoded|done|done| |exact Hfull].
    intros i d Hd%slot_lookup. by apply Hver.
Qed.

(** A relay's strategy starts well. *)
Lemma new_relay_gathers cfg sd s :
  new_relay_with_seed pre cfg sd = Ok s → good (seen s) ∧ full (seen s) = false.
Proof.
  unfold new_relay_with_seed. destruct (Verify.validate_preamble pre); [|done].
  intros [= <-].
  match goal with |- good (seen ?x) ∧ _ => change (seen x) with
    (pre, replicate (N.to_nat (preamble_total pre)) (None : option bytes)) end.
  pose proof (encoded_total _ _ _ _ _ Hencoded) as Ht. split.
  - split; [done|]. cbn [snd]. split; [rewrite length_replicate; lia|].
    intros j d [? _]%lookup_replicate. done.
  - apply bool_decide_eq_false. cbn [fst snd].
    assert (filter is_Some (replicate (N.to_nat (preamble_total pre)) (None : option bytes)) = []) as ->.
    { generalize (N.to_nat (preamble_total pre)). intros n. induction n as [|n IH]; [done|].
      cbn [replicate]. rewrite filter_cons_False by (by intros []). done. }
    pose proof (en_rs _ _ _ _ _ Hencoded) as (rs & raw & Hrs & _).
    apply rs_new_Ok in Hrs as (? & ? & ?).
    pose proof (encoded_i32 _ _ _ _ _ Hencoded) as [Hi _].
    rewrite (en_num_data _ _ _ _ _ Hencoded) in *.
    unfold i32_as_u32. rewrite Z.mod_small by lia.
    change (usize_as_u32 (length (@nil (option bytes)))) with 0. lia.
Qed.
End gather.
End RsGather.

(** * What a Reed-Solomon session dispatches *)
Module RsPolls.
Import Rs RsDrain.
Section polls.
Context `{Sha256, ReedSolomon}.

Lemma poll_peers_sublist l s : (d_peer <$> fst (poll_peers s l)) `sublist_of` l.
Proof.
  revert s; induction l as [|p l IH]; intros s; [constructor|]. rewrite RsLemmas.poll_peers_cons.
  destruct (EmitPlanner.allocate _ _) as [[i|] pl]; [|by constructor].
  destruct (slot _ i); [|by constructor].
  match goal with |- context [poll_peers ?s1 l] => pose proof (IH s1) as Hi;
    destruct (poll_peers s1 l) as [ds s2] end. by constructor.
Qed.

(** A dispatch carries the chunk that is held at its index. *)
Lemma poll_peers_slot l s d :
  d ∈ fst (poll_peers s l) → slot s (d_chunk_id d) = Some (d_payload d).
Proof.
  revert s; induction l as [|p l IH]; intros s; [by intros ?%elem_of_nil|].
  rewrite RsLemmas.poll_peers_cons.
  destruct (EmitPlanner.allocate _ _) as [[i|] pl]; [|exact (IH _)].
  destruct (slot _ i) as [x|] eqn:Hx; [|exact (IH _)].
  match goal with |- context [poll_peers ?s1 l] => pose proof (IH s1) as Hi;
    destruct (poll_peers s1 l) as [ds s2] end. cbn [fst] in *.
  intros [->|Hin]%elem_of_cons; [exact Hx|by apply Hi].
Qed.

(** Drained with the peers [X] attached, and with chunks of [Q]. *)
Definition attached (Q : N → bytes → Prop) (X : gset N) (s : RsStrategy) : Prop :=
  planner_wf s ∧ attached_peers s = X ∧ ∀ i d, slot s i = Some d → Q i d.

Lemma seen_slot s s' i : RsGather.seen s' = RsGather.seen s → slot s' i = slot s i.
Proof. unfold slot. by intros [= _ ->]. Qed.

#[export] Instance rs_polls Q X : Polls (attached Q X) (λ p, p ∈ X) Q (size X).
Proof.
  intros s r s1 ds s2 (Hwf & HX & HQ) Hr Hc.
  change (poll_routing s false = (r, s1)) in Hr. change (poll_chunks s1 = (ds, s2)) in Hc.
  pose proof (si_poll_routing (StrategyInv := planner_inv) s false Hwf) as Hwf1.
  pose proof (dl_poll (DrainLaws := rs_drain_laws) s r s1 ds s2 Hwf Hr Hc) as Hlt.
  change (planner_wf (snd (poll_routing s false))) in Hwf1. rewrite Hr in Hwf1. cbn in Hwf1.
  assert (attached_peers s1 = X ∧ planner s1 = planner s ∧ (routing_due s1 ≤ routing_due s)%nat)
    as (HX1 & Hp1 & Hd1).
  { unfold poll_routing in Hr. destruct (_ && _); [by injection Hr as <- <-|]. cbv zeta in Hr.
    destruct (_ || _) eqn:Hb; injection Hr as <- <-; [|done]. split_and!; [done..|].
    unfold routing_due. cbn. rewrite decide_True by done. lia. }
  unfold poll_chunks in Hc. rewrite HX1 in Hc.
  pose proof (poll_peers_sublist (bt_elements X) s1) as Hsub. rewrite Hc in Hsub. cbn in Hsub.
  pose proof (um_poll_routing (Unmoved := RsGather.seen_unmoved) s false) as Hseen1.
  change (RsGather.seen (snd (poll_routing s false)) = RsGather.seen s) in Hseen1.
  rewrite Hr in Hseen1. cbn in Hseen1.
  pose proof (RsGather.poll_peers_seen (bt_elements X) s1) as Hseen2. rewrite Hc in Hseen2. cbn in Hseen2.
  pose proof (poll_peers_slot (bt_elements X) s1) as Hslot. rewrite Hc in Hslot. cbn in Hslot.
  pose proof (poll_peers_room _ _ _ _ (bt_elements X) Hwf1 (reflexivity _) Hc)
    as (Hwf2 & Hc2 & Hpre2 & Ha2 & Hl2 & Hle & _).
  assert (routing_due s2 = routing_due s1) as Hd2.
  { unfold routing_due, local_havelist, total_shards. by rewrite Hc2, Hpre2, Hl2. }
  split; [|split; [|split; [|split; [|exact Hlt]]]].
  - split; [done|]. split; [congruence|]. intros i d.
    rewrite (seen_slot _ _ _ Hseen2), (seen_slot _ _ _ Hseen1). apply HQ.
  - intros d Hd. split.
    + apply elem_of_bt_elements. eapply elem_of_sublist; [|exact Hsub].
      by apply list_elem_of_fmap_2.
    + apply HQ. rewrite <- (seen_slot _ _ _ Hseen1). by apply Hslot.
  - apply sublist_length in Hsub. by rewrite length_fmap, length_bt_elements in Hsub.
  - unfold poll_bound, RsStrategy_bound. rewrite Hd2, Ha2, HX1, HX. rewrite Hp1 in Hle. lia.
Qed.
End polls.
End RsPolls.

(** * What an origin sends *)
Module RsOrigin.
Import EmitPlanner PlannerLemmas PlannerTrace RsLinkLemmas Flow.
Import Rs RsLemmas RsTrace RsDrain.
Section origin.
Context `{Sha256, ReedSolomon}.
Context (pre : Preamble) (shards : list bytes) (peers : gset N).
Hypothesis shards_total : N.of_nat (length shards) = preamble_total pre.
Hypothesis few : N.of_nat (size peers * length shards + size peers) < 2 ^ 64.

Definition all_pairs : list (N * N) := list_prod (elements peers) (range (preamble_total pre)).
Definition pair_of (d : ChunkDispatch N) : N * N := (d_peer d, d_chunk_id d).

(** An origin whose sends under way are [L]. *)
Record origin (L : list (N * N)) (s : RsStrategy) : Prop := {
  or_wf : wf s;
  or_pre : preamble s = pre;
  or_mode : mode (planner s) = Origin;
  or_chunks : chunks s = Some <$> shards;
  or_attached : attached_peers s = peers;
  or_unbelieved q i : believed (planner s) q i = false;
  or_flight q i : i ∈ Planner.in_flight (peer_state (planner s) q) ↔ (q, i) ∈ L;
  or_nodup : NoDup L;
  or_pairs : L ⊆ all_pairs;
  or_next : next_handle s = N.of_nat (length L)
}.

Lemma NoDup_all_pairs : NoDup all_pairs.
Proof. apply NoDup_list_prod; [apply NoDup_elements|apply NoDup_range]. Qed.

Lemma length_all_pairs : length all_pairs = (size peers * length shards)%nat.
Proof.
  unfold all_pairs. rewrite length_prod. f_equal.
  unfold range. rewrite length_fmap, length_seq. lia.
Qed.

Lemma elem_of_all_pairs q i : (q, i) ∈ all_pairs ↔ q ∈ peers ∧ i < preamble_total pre.
Proof. apply elem_of_pairs_of. Qed.

Lemma origin_poll_routing L s b :
  origin L s → origin L (snd (poll_routing s b)).
Proof.
  intros []. destruct (poll_routing_wf s b or_wf0) as (Hwf & _).
  unfold poll_routing in *. destruct (_ && _); [done|]. cbv zeta in *.
  by destruct (_ || _).
Qed.

(** One poll: the dispatches are new, and none are left when there are none. *)
Lemma origin_poll L s ds s' :
  origin L s → poll_chunks s = (ds, s') →
  origin (L ++ (pair_of <$> ds)) s' ∧
  (∀ d, d ∈ ds → shards !! N.to_nat (d_chunk_id d) = Some (d_payload d)) ∧
  (ds = [] → L ≡ₚ all_pairs) ∧ routing_due s' = routing_due s.
Proof.
  intros [Hwf Hpre Hm Hc Ha Hbel Hfl Hnd Hsub Hn] Hp.
  pose proof (length_bt_elements (attached_peers s)) as Hl. rewrite Ha in Hl.
  assert (total_shards s = preamble_total pre) as Ht by (unfold total_shards; by rewrite Hpre).
  assert (length L ≤ length all_pairs)%nat as HL.
  { by apply submseteq_length, NoDup_submseteq. }
  rewrite length_all_pairs in HL.
  unfold poll_chunks in Hp. rewrite Ha in Hp.
  pose proof (poll_peers_room _ _ _ _ (bt_elements peers) (Books.bk_planner _ _ _ (wf_books s Hwf))
    (reflexivity _) Hp) as (_ & _ & _ & _ & Hlast & _).
  pose proof Hp as (Hwf' & (_ & Hpr & Hmo) & Hch & Hat & Hnx & Hsl & _ & Hpl & _)%poll_peers_spec;
    [|done|apply NoDup_bt_elements|lia].
  apply poll_origin in Hp as (Hv & Hds & Hskip & Hfl');
    [|done|done| |apply NoDup_bt_elements|lia].
  2: { intros i Hi. rewrite (slot_origin shards) by done. apply lookup_lt_is_Some. lia. }
  assert (∀ q i, eligible (planner s) q i ↔ i < preamble_total pre ∧ (q, i) ∉ L) as Hel.
  { intros q i. rewrite eligible_origin_iff, (wf_num s Hwf), Ht, Hfl, Hbel by done. tauto. }
  assert (∀ q i, (q, i) ∈ pair_of <$> ds ↔ ∃ d, d ∈ ds ∧ d_peer d = q ∧ d_chunk_id d = i) as Hpair.
  { intros q i. rewrite list_elem_of_fmap. unfold pair_of. split.
    - intros (d & [= -> ->] & ?). eauto.
    - intros (d & ? & <- & <-). eauto. }
  assert (∀ d, d ∈ ds → d_peer d ∈ peers) as Hin.
  { intros d Hd. apply elem_of_bt_elements. eapply elem_of_sublist; [|exact Hsl].
    by apply list_elem_of_fmap_2. }
  split; [|split].
  - split; try done.
    + by rewrite Hpr.
    + by rewrite Hmo.
    + by rewrite Hch.
    + by rewrite Hat.
    + intros q i. by rewrite (same_view_believed _ _ q i Hv).
    + intros q i. by rewrite Hfl', Hfl, elem_of_app, Hpair.
    + apply NoDup_app. split; [done|]. split.
      * intros [q i] HqL (d & Hd & <- & <-)%Hpair. by apply Hds, Hel in Hd as [_ ?].
      * assert (NoDup (d_peer <$> ds)) as Hnp by (eapply sublist_NoDup, Hsl; apply NoDup_bt_elements).
        apply (NoDup_fmap_1 fst). by rewrite <- list_fmap_compose.
    + intros [q i] [?|(d & Hd & <- & <-)%Hpair]%elem_of_app; [by apply Hsub|].
      apply elem_of_all_pairs. split; [by apply Hin|]. by apply Hds, Hel in Hd as [? _].
    + rewrite Hnx, Hn, length_app, length_fmap. lia.
  - intros d Hd. rewrite <- (slot_origin shards s) by done. by apply Hpl.
  - split.
    + intros ->. apply NoDup_Permutation; [done|apply NoDup_all_pairs|]. intros [q i].
      split; [apply Hsub|]. intros [Hq Hi]%elem_of_all_pairs.
      destruct (decide ((q, i) ∈ L)) as [|Hno]; [done|exfalso].
      apply (Hskip q i); [by apply elem_of_bt_elements|set_solver|by apply Hel].
    + unfold routing_due, local_havelist, total_shards. by rewrite Hch, Hpr, Hlast.
Qed.

(** A routing update is due once. *)
Lemma poll_routing_due s :
  let '(r, s') := poll_routing s false in
  (routing_due s' + match r with Some _ => 1 | None => 0 end ≤ routing_due s)%nat.
Proof.
  unfold poll_routing. destruct (_ && _); [lia|]. cbv zeta. rewrite orb_false_l.
  destruct (bool_decide _) eqn:Hc; [|rewrite andb_false_r; lia]. apply bool_decide_eq_true in Hc.
  destruct (bitmap_threshold_reached _ _); [|cbn [andb]; lia]. cbn [andb].
  unfold routing_due at 2. case_decide as Hd; [by destruct Hc|].
  unfold routing_due. cbn. rewrite decide_True by done. lia.
Qed.

(** Polling to the end sends every shard to every peer once. *)
Lemma origin_polls fuel L (s : Session RsStrategy) ws s' :
  origin L (strategy s) → polls fuel s = Some (ws, s') →
  L ++ (pair_of <$> dispatched ws) ≡ₚ all_pairs ∧
  (∀ d, d ∈ dispatched ws → shards !! N.to_nat (d_chunk_id d) = Some (d_payload d)) ∧
  (length (omap routing ws) ≤ routing_due (strategy s))%nat.
Proof.
  unfold dispatched. revert L s ws; induction fuel as [|fuel IH]; intros L s ws Ho; [done|]. cbn [polls].
  unfold Session.poll. pose proof (origin_poll_routing L (strategy s) false Ho) as Ho1.
  change (Strategy.poll_routing (strategy s) false) with (poll_routing (strategy s) false).
  pose proof (poll_routing_due (strategy s)) as Hdue.
  destruct (poll_routing (strategy s) false) as [r st1]. cbn [fst snd] in Ho1, Hdue.
  change (Strategy.poll_chunks st1) with (poll_chunks st1).
  destruct (poll_chunks st1) as [ds1 st2] eqn:Hp. cbn [routing dispatches].
  destruct (origin_poll L st1 ds1 st2 Ho1 Hp) as (Ho2 & Hpl & Hdone & Hdue2).
  assert (('(ws, s) ← polls fuel (mkSession st2 (state s)); Some (mkSessionWork r ds1 :: ws, s))
      = Some (ws, s') →
    L ++ (pair_of <$> (ws ≫= dispatches)) ≡ₚ all_pairs ∧
    (∀ d, d ∈ ws ≫= dispatches → shards !! N.to_nat (d_chunk_id d) = Some (d_payload d)) ∧
    (length (omap routing ws) ≤ routing_due (strategy s))%nat) as Hmore.
  { destruct (polls fuel _) as [[ws2 s2]|] eqn:Hps; [|done]. cbn. intros [= <- <-].
    destruct (IH _ (mkSession st2 (state s)) ws2 Ho2 Hps) as (Hperm & Hpl2 & Hr).
    rewrite bind_cons. cbn [dispatches routing strategy omap list_omap] in *. rewrite Hdue2 in Hr.
    rewrite fmap_app, app_assoc. split; [done|]. split.
    - intros d [?|?]%elem_of_app; [by apply Hpl|by apply Hpl2].
    - destruct r; cbn [length]; lia. }
  destruct r as [r|], ds1 as [|d ds1]; try exact Hmore.
  intros [= <- <-]. rewrite app_nil_r. split; [by apply Hdone|]. split; [by intros d ?%elem_of_nil|].
  cbn. lia.
Qed.
End origin.
End RsOrigin.

(** ** The publication of an origin *)
Module RsPublish.
Import Engine EngineLemmas EngineSessions EmitPlanner PlannerTrace RsLinkLemmas Flow RsOrigin.
Import Rs RsLemmas RsTrace RsDrain RsPolls RsGather Observe.
Section publish.
Context `{Sha256, !Sha256Laws, ReedSolomon, !ReedSolomonLaws}.
Context {NT CT DT : Type}.
Context `{!Net NT, !Clock CT, !DeliverySink DeliveredMessage DT}.

(** The sends of a whole message: shard [i] of [o] to every peer. *)
Definition deliveries (ch m : string) (o : RsStrategy) (peers : gset N)
    : list (N * string * string * N * bytes) :=
  (λ '(q, i), (q, ch, m, i, default [] (slot o i))) <$>
    list_prod (elements peers) (range (preamble_total (preamble o))).

Lemma attach_all_strategy (c : Channel RsStrategy) s :
  strategy (Channel.attach_all c s) = foldl attach_peer (strategy s) (bt_elements (subscribers c)).
Proof.
  unfold Channel.attach_all. generalize (bt_elements (subscribers c)) as l. intros l.
  revert s; induction l as [|p l IH]; intros s; [done|]. cbn [foldl]. by rewrite IH.
Qed.

(** A new origin with its peers attached has nothing under way. *)
Lemma new_origin_start payload cfg sd o (peers : gset N) l :
  payload ≠ [] → new_origin_with_seed payload cfg sd = Some (Ok o) → list_to_set l = peers →
  ∃ k m shards, encoded payload k m (preamble o) shards ∧
    (∀ i, slot o i = shards !! N.to_nat i) ∧
    origin (preamble o) shards peers [] (foldl attach_peer o l).
Proof.
  intros Hp (k & m & shards & He & Hwf & Ho)%new_origin_wf Hl; [|done].
  exists k, m, shards. split; [done|].
  assert (chunks o = Some <$> shards) as Hc by by rewrite Ho.
  split; [intros i; by apply slot_origin|]. rewrite attach_list_eq, Hl.
  assert (attached_peers o = ∅) as -> by by rewrite Ho.
  rewrite (right_id_L ∅ (∪)). split; cbn; try done.
  - apply (wf_update o); [done|apply (wf_books o Hwf)|done|exact (wf_held o Hwf)].
  - by rewrite Ho.
  - intros q i. rewrite Ho. unfold believed, peer_state. cbn. by rewrite lookup_empty.
  - intros q i. rewrite Ho. unfold peer_state. cbn. rewrite lookup_empty. cbn. set_solver.
  - constructor.
  - intros ? ?%elem_of_nil. done.
  - by rewrite Ho.
Qed.

Lemma elem_of_deliveries payload k pm o shards ch m X l q i d :
  encoded payload k pm (preamble o) shards → (∀ i, slot o i = shards !! N.to_nat i) →
  omap chunk_of l ≡ₚ deliveries ch m o X →
  (∃ h, SendChunk q ch m i d h ∈ l) ↔ q ∈ X ∧ shards !! N.to_nat i = Some d.
Proof.
  intros He Hslot Hperm. pose proof (encoded_total _ _ _ _ _ He) as Ht.
  transitivity ((q, ch, m, i, d) ∈ omap chunk_of l).
  - rewrite list_elem_of_omap. split; [intros [h ?]; by eexists|].
    intros ([] & Hin & Hch); try done. injection Hch as -> -> -> -> ->. eauto.
  - rewrite Hperm. unfold deliveries. rewrite list_elem_of_fmap. split.
    + intros ([q' j] & [= <- -> ->] & Hin). apply (elem_of_pairs_of (preamble o)) in Hin as [? Hj].
      split; [done|]. rewrite Hslot. destruct (shards !! N.to_nat j) eqn:E; [done|].
      apply lookup_ge_None_1 in E. lia.
    + intros [Hq Hs]. exists (q, i). rewrite Hslot, Hs. split; [done|].
      apply (elem_of_pairs_of (preamble o)). split; [done|]. apply lookup_lt_Some in Hs. lia.
Qed.

Lemma room_le p (l : list N) : (room p l ≤ N.to_nat (num_shards p) * length l)%nat.
Proof. unfold room. induction l as [|q l IH]; cbn; lia. Qed.

Lemma poll_bound_le Q X s :
  attached Q X s → (poll_bound s ≤ N.to_nat (num_shards (planner s)) * size X + 1)%nat.
Proof.
  intros (_ & HX & _). unfold poll_bound, RsStrategy_bound. rewrite HX.
  pose proof (room_le (planner s) (bt_elements X)) as Hr.
  rewrite length_bt_elements in Hr. unfold routing_due. case_decide; lia.
Qed.

(** Polling leaves the state and the chunks of a session. *)
Lemma polls_alike fuel (s : Session RsStrategy) ws s' :
  polls fuel s = Some (ws, s') → alike seen s s'.
Proof.
  revert s ws; induction fuel as [|fuel IH]; intros s ws; [done|]. cbn [polls].
  pose proof (poll_alike seen s) as Ha.
  destruct (Session.poll s) as [work s1]. cbn [snd] in Ha.
  assert (('(ws, s) ← polls fuel s1; Some (work :: ws, s)) = Some (ws, s') →
    alike seen s s') as Hmore.
  { destruct (polls fuel s1) as [[ws2 s2]|] eqn:Hps; [|done]. cbn. intros [= <- <-].
    etrans; [exact Ha|by eapply IH]. }
  destruct (routing work), (dispatches work); try exact Hmore. intros [= _ <-]. exact Ha.
Qed.

(** The messages a drain can send to [x] peers in the rounds of [n] shards. *)
Definition drain_messages (x n : nat) : nat := (4 * x * (n * x + 1))%nat.

(** What a publication puts on a network that is up for its subscribers. *)
Lemma publish_origin (up : NT → Prop) (Q : N → bytes → Prop) payload cfg sd o ch m pre c
    `{!Accepts up (λ p, p ∈ subscribers c)} (e : Engine RsStrategy NT CT DT) :
  let X := subscribers c in
  payload ≠ [] → new_origin_with_seed payload cfg sd = Some (Ok o) →
  coherent e → up (net e) → channels e !! ch = Some c → sessions c !! m = None →
  N.of_nat (size X) * (preamble_total (preamble o) + 1) < 2 ^ 64 →
  (∀ i d, slot o i = Some d → Q i d) →
  ∃ e' s' l, publish ch m o pre e = (Ok (), e') ∧
    drainable up ch m pre (attached Q X) X e' s' ∧
    alike seen (Session.new_origin o) s' ∧
    net e' = net_sends (((λ p, SendSessionOpen p ch m pre []) <$> bt_elements X) ++ l) (net e) ∧
    Forall (of_session (λ p, p ∈ X) Q ch m pre) l ∧
    omap chunk_of l ≡ₚ deliveries ch m o X ∧
    (∃ ws, l = ws ≫= work_msgs ch m (bt_elements X) ∧ (length (omap routing ws) ≤ 1)%nat) ∧
    (length l + 4 * size X * poll_bound (strategy s')
       ≤ drain_messages (size X) (N.to_nat (preamble_total (preamble o))))%nat.
Proof.
  intros X Hp Ho Hco Hup Hc Hm Hfew HQ.
  edestruct (new_origin_start payload cfg sd o X (bt_elements X))
    as (k & pm & shards & He & Hslot & Hst);
    [done..|apply set_eq; intros q; rewrite elem_of_list_to_set; apply elem_of_bt_elements|].
  pose proof (encoded_total _ _ _ _ _ He) as Ht.
  set (s := Channel.attach_all c (Session.new_origin o)).
  assert (strategy s = foldl attach_peer o (bt_elements X)) as Hs by apply attach_all_strategy.
  assert (attached Q X (strategy s)) as HP.
  { rewrite Hs. split; [|split; [exact (or_attached _ _ _ _ _ Hst)|]].
    - exact (Books.bk_planner _ _ _ (wf_books _ (or_wf _ _ _ _ _ Hst))).
    - intros i d Hd. apply HQ. rewrite Hslot. rewrite <- Hd. symmetry. eapply slot_origin, Hst. }
  destruct (publish_flow up (λ p, p ∈ X) Q ch m pre (attached Q X) (size X) X (λ p Hp, Hp) o c e)
    as (e0 & e' & s' & fuel & ws & l & Hpub & Hpolls & [Hd Hfl Hchunks Hex Hlen Hb] & Hop & Hnet);
    try done.
  edestruct (origin_polls (preamble o) shards X) with (L := @nil (N * N)) (4 := Hpolls)
    as (Hperm & Hpl & Hrt); [done|lia|fold s; by rewrite Hs|]. cbn [app] in Hperm.
  exists e', s', l. split_and!; try done.
  - etrans; [apply (attach_all_alike seen c)|by eapply polls_alike].
  - apply Hfl.
  - rewrite Hchunks. unfold deliveries. rewrite <- Hperm.
    rewrite <- list_fmap_compose. apply reflexive_eq, Forall_fmap_ext, Forall_forall.
    intros d Hd'. unfold dispatch_chunk, pair_of. cbn. by rewrite Hslot, (Hpl d Hd').
  - exists ws. split.
    + apply Hex; [done|]. intros d Hd'. assert (pair_of d ∈ all_pairs (preamble o) X) as Hin
        by (rewrite <- Hperm; by apply list_elem_of_fmap_2). by apply elem_of_all_pairs in Hin as [? _].
    + etrans; [exact Hrt|]. unfold routing_due. case_decide; lia.
  - pose proof (poll_bound_le Q X (strategy s) HP) as Hle.
    rewrite (wf_num (strategy s)) in Hle by (rewrite Hs; exact (or_wf _ _ _ _ _ Hst)).
    unfold total_shards in Hle. rewrite Hs, (or_pre _ _ _ _ _ Hst), <- Hs in Hle.
    fold s in Hb. unfold drain_messages. nia.
Qed.
End publish.
End RsPublish.

(** ** What a relay receives *)
Module RsReceive.
Import Engine EngineLemmas Parking Gather Offers RsGather.
Import Rs RsLemmas RsTrace RsDrain.
Section receive.
Context `{Sha256, !Sha256Laws, ReedSolomon, !ReedSolomonLaws}.
Context `{Message Preamble, !MessageLaws Preamble}.
Context {NT CT DT : Type} `{!Net NT, !Clock CT, !DeliverySink DeliveredMessage DT}.

(** The session of [m] on [ch] is not disposed of during the operations. *)
Definition never_disposed (ch m : string) (os : list (Engine.op (S:=RsStrategy)))
    (e : Engine RsStrategy NT CT (Recorded DeliveredMessage DT)) : Prop :=
  ∀ os1 : list (Engine.op (S:=RsStrategy)),
    os1 `prefix_of` os → tombstones (run os1 e) !! (ch, m) = None.

Lemma new_relay_Ok payload k pm pr shards cfg sd :
  encoded payload k pm pr shards → ∃ s, new_relay_with_seed pr cfg sd = Ok s.
Proof.
  intros He. apply encoded_valid in He as [Hv%VerifyLemmas.validate_preamble_Ok _].
  unfold new_relay_with_seed. rewrite Hv. by eexists.
Qed.

Lemma relay_receives payload k pm pr shards rc ch m q iu c os D
    (e : Engine RsStrategy NT CT (Recorded DeliveredMessage DT)) :
  let ops : list (Engine.op (S:=RsStrategy)) :=
    Step (NetEvent.SessionOpen q ch m (encode_to_vec pr) iu) :: os in
  encoded payload k pm pr shards → coherent e → never_disposed ch m ops e →
  channels e !! ch = Some c → sessions c !! m = None →
  builds_relays rc (factory c) →
  NoDup D → k ≤ N.of_nat (length D) →
  (∀ i, i ∈ D → ∃ d, shards !! N.to_nat i = Some d ∧
     ((i, d) ∈ parked_of ch m e ∨ ∃ p, Step (NetEvent.Chunk p ch m i d) ∈ os)) →
  (∀ i d, (i, d) ∈ parked_of ch m e ∨ (∃ p, Step (NetEvent.Chunk p ch m i d) ∈ os) →
     collision_free (shards !! N.to_nat i) d) →
  mkDelivered ch m payload ∈ offered (delivered (run ops e)).
Proof.
  intros ops He Hco Hnd Hc Hm Hf HND Hk HD Hcf.
  destruct (builds_relays_eq rc (factory c) (counter (factory c)) (encode_to_vec pr) Hf)
    as (seed & n' & Hb). rewrite decode_msg_encode in Hb.
  destruct (new_relay_Ok payload k pm pr shards rc seed He) as [x Hx]. rewrite Hx in Hb.
  destruct (new_relay_gathers payload k pm pr shards He _ _ _ Hx) as [Hg Hfull].
  pose proof (rs_gathers payload k pm pr shards He) as Hga.
  apply (gathers_all seen (good pr shards) have full (genuine shards) (fair shards) payload
    (N.to_nat k) ch m grows (λ _, True) (λ d, mkDelivered ch m payload ∈ offered d)
    (offered_receives _)
    (encode_to_vec pr) q iu c x n' os e D); try done. lia.
Qed.
End receive.
End RsReceive.

(** * Properties *)
Section properties.
Context `{Sha256, !Sha256Laws, ReedSolomon, !ReedSolomonLaws}.
Import Engine EngineLemmas Parking RsLinkLemmas Flow RsPublish RsReceive.
Import Rs RsLemmas RsTrace RsDrain.

(** C7: a publication sends everything to everyone, once.  On a network that
    accepts sends, publishing the origin of a payload as a new message succeeds,
    and what it sends is the session open for each subscriber of the channel,
    and then each shard of the message to each subscriber exactly once, and
    besides at most one routing update, for every subscriber. *)
Theorem publish_sends_all {NT CT DT : Type}
    `{!Net NT, !AcceptingNet NT, !Clock CT, !DeliverySink DeliveredMessage DT}
    (p : N) (nt : NT) (d : DT) (ecfg : EngineConfig) (ck : CT) (os : list (Engine.op (S:=RsStrategy)))
    payload cfg sd o ch m pre c :
  payload ≠ [] → new_origin_with_seed payload cfg sd = Some (Ok o) →
  let e := run os (with_config p (mkLogged nt []) d ecfg ck) in
  channels e !! ch = Some c → sessions c !! m = None →
  let n := preamble_total (preamble o) in
  N.of_nat (size (subscribers c)) * (n + 1) < 2 ^ 64 →
  let '(r, e') := publish ch m o pre e in
  r = Ok () ∧ ∃ msgs,
    log (net e') = log (net e) ++ ((.,true) <$>
      (((λ q, SendSessionOpen q ch m pre []) <$> bt_elements (subscribers c)) ++ msgs)) ∧
    omap chunk_of msgs ≡ₚ
      (λ '(q, i), (q, ch, m, i, default [] (slot o i))) <$>
        list_prod (elements (subscribers c)) (range n) ∧
    ∃ maps, (length maps ≤ 1)%nat ∧
      filter (λ msg, chunk_of msg = None) msgs =
        maps ≫= λ b, routing_msgs ch m b (bt_elements (subscribers c)).
Proof.
  intros Hp Ho e Hc Hm n Hfew.
  assert (coherent e) as Hco by apply run_coherent, with_config_coherent.
  destruct (publish_origin (λ _, True) (λ _ _, True) payload cfg sd o ch m pre c e)
    as (e' & s' & l & -> & _ & _ & Hnet & _ & Hperm & (ws & -> & Hle) & _); try done.
  split; [done|]. eexists. split; [by rewrite Hnet, log_net_sends|]. split; [exact Hperm|].
  exists (updates ws). split; [by unfold updates; rewrite length_fmap|apply work_msgs_updates].
Qed.

(** C6: a relay delivers what it is sent enough of.  A relay that hosts the
    channel is told of a message; [num_data] different shards of it are parked
    by then or come later, among whatever other operations and from any peers;
    unless the session is disposed of in between, the application is handed the
    payload, whatever the other peers send, the network refuses and the clock says.
    A chunk that is not genuine does no harm, as long as it is not another string
    with the SHA-256 digest of the shard it stands for.  The factory of the channel
    is either of the crate's. *)
Theorem relay_delivers `{Message Preamble, !MessageLaws Preamble} {NT CT DT : Type}
    `{!Net NT, !Clock CT, !DeliverySink DeliveredMessage DT}
    (p : N) (nt : NT) (d : DT) (ecfg : EngineConfig) (ck : CT)
    (os0 os : list (Engine.op (S:=RsStrategy)))
    payload cfg pr shards rc ch m q iu c (D : list N) :
  payload ≠ [] → Encode.encode payload cfg = Some (Ok (pr, shards)) →
  let e := run os0 (with_config p nt (mkRecorded d []) ecfg ck) in
  let ops := Step (NetEvent.SessionOpen q ch m (encode_to_vec pr) iu) :: os in
  channels e !! ch = Some c → sessions c !! m = None →
  builds_relays rc (factory c) →
  never_disposed ch m ops e →
  NoDup D → (num_data pr ≤ Z.of_nat (length D))%Z →
  (∀ i, i ∈ D → ∃ shard, shards !! N.to_nat i = Some shard ∧
     ((i, shard) ∈ parked_of ch m e ∨ ∃ s, Step (NetEvent.Chunk s ch m i shard) ∈ os)) →
  (∀ i d, (i, d) ∈ parked_of ch m e ∨ (∃ s, Step (NetEvent.Chunk s ch m i d) ∈ os) →
     collision_free (shards !! N.to_nat i) d) →
  mkDelivered ch m payload ∈ offered (delivered (run ops e)).
Proof.
  intros Hp He e ops Hc Hm Hf Hnd HND Hk HD Hcf.
  pose proof (encode_cases payload cfg Hp) as Henc. rewrite He in Henc.
  destruct Henc as (k & pm & len & _ & Henc).
  assert (coherent e) as Hco by apply run_coherent, with_config_coherent.
  apply (relay_receives payload k pm pr shards rc ch m q iu c os D e); try done.
  rewrite (en_num_data _ _ _ _ _ Henc) in Hk. lia.
Qed.

(** C2: a broadcast gets through.  An origin engine publishes a payload on a
    network that accepts its sends; a subscriber of the channel, an engine of its
    own over any network, gets the session open and some of the shards that the
    origin sent to it, in any order and among any other operations.  Every shard
    is among those sends, and as soon as [num_data] of them get through, the
    subscriber's application is handed the payload.  Other chunks, parked before
    or sent by anyone, do no harm, as long as none is another string with the
    SHA-256 digest of the origin's shard at its index. *)
Theorem broadcast_delivers `{Message Preamble, !MessageLaws Preamble} {NT CT DT NT' CT' DT' : Type}
    `{!Net NT, !AcceptingNet NT, !Clock CT, !DeliverySink DeliveredMessage DT}
    `{!Net NT', !Clock CT', !DeliverySink DeliveredMessage DT'}
    (p : N) (nt : NT) (d : DT) (ecfg : EngineConfig) (ck : CT)
    (p' : N) (nt' : NT') (d' : DT') (ecfg' : EngineConfig) (ck' : CT')
    (os os' : list (Engine.op (S:=RsStrategy)))
    payload cfg sd o ch m c c' rc :
  payload ≠ [] → new_origin_with_seed payload cfg sd = Some (Ok o) →
  let e := run os (with_config p (mkLogged nt []) d ecfg ck) in
  let e' := run os' (with_config p' nt' (mkRecorded d' []) ecfg' ck') in
  let n := preamble_total (preamble o) in
  channels e !! ch = Some c → sessions c !! m = None → p' ∈ subscribers c →
  N.of_nat (size (subscribers c)) * (n + 1) < 2 ^ 64 →
  channels e' !! ch = Some c' → sessions c' !! m = None →
  builds_relays rc (factory c') →
  ∃ msgs,
    log (net (snd (publish ch m o (encode_to_vec (preamble o)) e))) =
      log (net e) ++ ((.,true) <$> msgs) ∧
    let open := SendSessionOpen p' ch m (encode_to_vec (preamble o)) [] in
    open ∈ msgs ∧
    (∀ i, i < n → ∃ h, SendChunk p' ch m i (default [] (slot o i)) h ∈ msgs) ∧
    ∀ (got : list N) (rest : list (Engine.op (S:=RsStrategy))),
      let ops := Step (MemoryNet.event_of p open) :: rest in
      NoDup got → (num_data (preamble o) ≤ Z.of_nat (length got))%Z →
      (∀ i, i ∈ got → ∃ shard h, SendChunk p' ch m i shard h ∈ msgs ∧
         Step (MemoryNet.event_of p (SendChunk p' ch m i shard h)) ∈ rest) →
      (∀ i x, (i, x) ∈ parked_of ch m e' ∨ (∃ s, Step (NetEvent.Chunk s ch m i x) ∈ rest) →
         collision_free (slot o i) x) →
      never_disposed ch m ops e' →
      mkDelivered ch m payload ∈ offered (delivered (run ops e')).
Proof.
  intros Hp Ho e e' n Hc Hm Hp' Hfew Hc' Hm' Hf.
  assert (coherent e) as Hco by apply run_coherent, with_config_coherent.
  assert (coherent e') as Hco' by apply run_coherent, with_config_coherent.
  destruct (publish_origin (λ _, True) (λ _ _, True) payload cfg sd o ch m (encode_to_vec (preamble o)) c e)
    as (e1 & s1 & l & Hpub & _ & _ & Hlog & _ & Hperm & _); try done.
  rewrite Hpub. cbn [snd].
  destruct (new_origin_wf payload cfg sd o Hp Ho) as (k & pm & shards & He & _ & Heq).
  assert (∀ i, slot o i = shards !! N.to_nat i) as Hslot
    by (intros i; apply slot_origin; by rewrite Heq).
  pose proof (encoded_total _ _ _ _ _ He) as Ht.
  set (opens := _ <$> bt_elements _) in Hlog.
  assert (∀ i shard, (∃ h, SendChunk p' ch m i shard h ∈ opens ++ l) ↔
    p' ∈ subscribers c ∧ shards !! N.to_nat i = Some shard) as Hmsgs.
  { intros i shard. rewrite <- (elem_of_deliveries _ _ _ _ _ _ _ _ _ p' i shard He Hslot Hperm).
    setoid_rewrite elem_of_app. split; [|by intros [h ?]; exists h; right].
    intros [h [(q & ? & _)%list_elem_of_fmap|Hin]]; [done|by exists h]. }
  exists (opens ++ l). split; [by rewrite Hlog, log_net_sends|].
  split; [|split].
  - apply elem_of_app. left. apply list_elem_of_fmap. exists p'. split; [done|].
    by apply elem_of_bt_elements.
  - intros i Hi. apply Hmsgs. split; [done|]. rewrite Hslot.
    destruct (lookup_lt_is_Some_2 shards (N.to_nat i)) as [x ->]; [unfold n in *; lia|done].
  - intros got rest HND Hk Hgot Hcf Hnd.
    apply (relay_receives payload k pm (preamble o) shards rc ch m p [] c' rest got e');
      try done.
    + rewrite (en_num_data _ _ _ _ _ He) in Hk. lia.
    + intros i (shard & h & Hin & Hstep)%Hgot. exists shard. split; [|right; by exists p].
      by apply (Hmsgs i shard); exists h.
    + intros i x Hx. rewrite <- Hslot. by apply Hcf.
Qed.
End properties.

(** ** A broadcast of three shards to two peers *)
Module BroadcastExample.
Import Engine Flow RsReceive Rs RsDrain XorCode EngineAuth.AuthExample.
#[local] Existing Instances Message_short MessageLaws_short.
#[local] Existing Instances RsEngineExample.Net_ScriptNet RsEngineExample.Clock_list
  RsEngineExample.Sink_list.

(** A network that takes everything. *)
#[export] Instance Net_unit : Net () := λ _ n, (Ok (), n).
#[export] Instance accepting_unit : AcceptingNet ().
Proof. done. Qed.

Definition origin : RsStrategy :=
  match new_origin_with_seed payload config 7 with
  | Some (Ok o) => o
  | _ => RsExample.relay
  end.

Definition factory : StrategyFactory RsStrategy :=
  rs_relay_factory_seeded RsEngineExample.relay_config 7.

(** The origin is peer 9, with the subscribers 1 and 2; the relay is peer 1. *)
Definition origin_ops (f : StrategyFactory RsStrategy) : list (Engine.op (S:=RsStrategy)) :=
  [ Subscribe "c" f; Step (NetEvent.Subscribe 1 "c"); Step (NetEvent.Subscribe 2 "c") ].
Definition origin_channel (f : StrategyFactory RsStrategy) : Channel RsStrategy :=
  mkChannel "c" {[1; 2]} ∅ f.

Definition relay_ops (f : StrategyFactory RsStrategy) : list (Engine.op (S:=RsStrategy)) :=
  [ Subscribe "c" f; Step (NetEvent.Handshake 2 1 ["c"%string] "peer-2") ].
Definition relay_channel (f : StrategyFactory RsStrategy) : Channel RsStrategy :=
  mkChannel "c" {[2]} ∅ f.

(** What reaches the relay: shard 2 from the origin, a forged shard 1 and shard 0
    from peer 2, and shard 0 from the origin. *)
Definition received : list (Engine.op (S:=RsStrategy)) :=
  [ Step (NetEvent.Chunk 9 "c" "m" 2 (shard 2)); Step (NetEvent.Chunk 2 "c" "m" 1 (shard 0));
    Step (NetEvent.PeerDisconnected 2); Step (NetEvent.Chunk 9 "c" "m" 0 (shard 0)) ].

Definition origin_engine f : Engine RsStrategy (Logged ()) (list N) (list DeliveredMessage) :=
  run (origin_ops f) (with_config 9 (mkLogged () []) [] EngineConfig_default [0]).
Definition relay_engine f :
    Engine RsStrategy RsEngineExample.ScriptNet (list N) (Recorded DeliveredMessage (list DeliveredMessage)) :=
  run (relay_ops f) (with_config 1 (RsEngineExample.mkScriptNet [] []) (mkRecorded [] [])
    EngineConfig_default [0]).

Lemma origin_hosts f : channels (origin_engine f) !! "c"%string = Some (origin_channel f).
Proof. vm_compute. reflexivity. Qed.
Lemma factory_builds : builds_relays RsEngineExample.relay_config factory.
Proof. left. by exists 7. Qed.
Lemma relay_hosts f : channels (relay_engine f) !! "c"%string = Some (relay_channel f).
Proof. vm_compute. reflexivity. Qed.

Lemma received_undisposed :
  never_disposed "c" "m"
    (Step (NetEvent.SessionOpen 9 "c" "m" (encode_to_vec XorCode.preamble) []) :: received)
    (relay_engine factory).
Proof.
  intros os1 [os2 Heq]. unfold received in Heq.
  do 5 (destruct os1 as [|? os1]; [vm_compute; reflexivity|];
        cbn [app] in Heq; injection Heq as <- Heq).
  destruct os1 as [|? os1]; [vm_compute; reflexivity|discriminate].
Qed.

Lemma elem_of_received i :
  i = 2 ∨ i = 0 → Step (NetEvent.Chunk 9 "c" "m" i (shard (N.to_nat i))) ∈ received.
Proof. unfold received. intros [->| ->]; set_solver. Qed.

Lemma origin_slot i : slot origin i = [shard 0; shard 1; shard 2] !! N.to_nat i.
Proof. apply RsLinkLemmas.slot_origin. vm_compute. reflexivity. Qed.

(** The forged chunk does not have the digest of the shard that it stands for. *)
Lemma received_collision_free i d :
  (i, d) ∈ Parking.parked_of "c" "m" (relay_engine factory) ∨
    (∃ s, Step (NetEvent.Chunk s "c" "m" i d) ∈ received) →
  collision_free ([shard 0; shard 1; shard 2] !! N.to_nat i) d.
Proof.
  assert (Parking.parked_of "c" "m" (relay_engine factory) = []) as -> by (vm_compute; reflexivity).
  unfold received. intros [?%elem_of_nil|[s Hs]]; [done|]. rewrite !elem_of_cons, elem_of_nil in Hs.
  destruct Hs as [[= -> -> ->]|[[= -> -> ->]|[?|[[= -> -> ->]|?]]]]; try done;
    intros g [= <-]; [done| |done]. vm_compute. discriminate.
Qed.

Lemma two_shards : NoDup [0; 2].
Proof. repeat constructor; set_solver. Qed.

Lemma publish_sends_all_witness :
  let '(r, e') := publish "c" "m" origin [Byte.x01] (origin_engine factory) in
  r = Ok () ∧ ∃ msgs,
    log (net e') = log (net (origin_engine factory)) ++ ((.,true) <$>
      ([SendSessionOpen 1 "c" "m" [Byte.x01] []; SendSessionOpen 2 "c" "m" [Byte.x01] []] ++ msgs)) ∧
    length (omap chunk_of msgs) = 6%nat.
Proof.
  unfold origin_engine. pose proof (publish_sends_all 9 () [] EngineConfig_default [0] (origin_ops factory)
    payload config 7 origin "c" "m" [Byte.x01] (origin_channel factory)) as Hall.
  cbv zeta in Hall. revert Hall. generalize (publish "c" "m" origin [Byte.x01]
    (run (origin_ops factory) (with_config 9 (mkLogged () []) [] EngineConfig_default [0]))).
  intros [r e'] Hall. destruct Hall as (Hr & msgs & Hlog & Hperm & _).
  - discriminate.
  - vm_compute. reflexivity.
  - apply origin_hosts.
  - apply lookup_empty.
  - vm_compute. reflexivity.
  - split; [exact Hr|]. exists msgs. split; [exact Hlog|]. rewrite Hperm. vm_compute. reflexivity.
Defined.

Lemma relay_delivers_witness :
  mkDelivered "c" "m" payload ∈ offered (delivered (run
    (Step (NetEvent.SessionOpen 9 "c" "m" (encode_to_vec XorCode.preamble) []) :: received)
    (relay_engine factory))).
Proof.
  unfold relay_engine. pose proof (relay_delivers 1 (RsEngineExample.mkScriptNet [] []) [] EngineConfig_default [0]
    (relay_ops factory) received payload config XorCode.preamble [shard 0; shard 1; shard 2]
     RsEngineExample.relay_config "c" "m" 9 []
    (relay_channel factory) [0; 2]) as Hall.
  cbv zeta in Hall. apply Hall; clear Hall.
  - discriminate.
  - vm_compute. reflexivity.
  - apply relay_hosts.
  - apply lookup_empty.
  - exact factory_builds.
  - exact received_undisposed.
  - exact two_shards.
  - vm_compute. discriminate.
  - intros i [->|[->|[]%elem_of_nil]%elem_of_cons]%elem_of_cons.
    + exists (shard 0). split; [reflexivity|]. right. exists 9. unfold received. set_solver.
    + exists (shard 2). split; [reflexivity|]. right. exists 9. unfold received. set_solver.
  - exact received_collision_free.
Defined.

Lemma broadcast_delivers_witness :
  mkDelivered "c" "m" payload ∈ offered (delivered (run
    (Step (NetEvent.SessionOpen 9 "c" "m" (encode_to_vec XorCode.preamble) []) :: received)
    (relay_engine factory))).
Proof.
  unfold relay_engine. pose proof (broadcast_delivers 9 () [] EngineConfig_default [0]
    1 (RsEngineExample.mkScriptNet [] []) [] EngineConfig_default [0]
    (origin_ops factory) (relay_ops factory)
    payload config 7 origin "c" "m" (origin_channel factory) (relay_channel factory)
     RsEngineExample.relay_config) as Hb.
  cbv zeta in Hb. destruct Hb as (msgs & _ & _ & Hall & Hdel).
  - discriminate.
  - vm_compute. reflexivity.
  - apply origin_hosts.
  - apply lookup_empty.
  - set_solver.
  - vm_compute. reflexivity.
  - apply relay_hosts.
  - apply lookup_empty.
  - exact factory_builds.
  - assert (Rs.preamble origin = XorCode.preamble) as Hpre by (vm_compute; reflexivity).
    rewrite Hpre in *. cbn [MemoryNet.event_of] in Hdel.
    apply (Hdel [0; 2] received); clear Hdel.
    + exact two_shards.
    + vm_compute. discriminate.
    + intros i [->|[->|[]%elem_of_nil]%elem_of_cons]%elem_of_cons.
      * destruct (Hall 0) as [h Hh]; [vm_compute; reflexivity|]. exists (shard 0), h.
        split; [exact Hh|]. apply elem_of_received. by right.
      * destruct (Hall 2) as [h Hh]; [vm_compute; reflexivity|]. exists (shard 2), h.
        split; [exact Hh|]. apply elem_of_received. by left.
    + intros i x Hx. rewrite origin_slot. by apply received_collision_free.
    + exact received_undisposed.
Defined.
End BroadcastExample.
