(* ===== verification/RsMesh.v ===== *)
(** A member of a mesh: an engine that handles the events of one broadcast.

    On a network that accepts what it sends, each event leads to a bounded number
    of messages: the [potential] of the engine pays for them ([acts]), so a mesh
    of such engines comes to rest.  What a member gathers is the business of
    [EngineObserve]. *)
From Stdlib Require Import NArith ZArith Lia.
From stdpp Require Import base gmap option strings list.
From S2P Require Import Prelude Heap BitMap Wire Config Strategy RsCodec Planner RsStrategy RsLink.
From S2P Require Import Session Channel Runtime MemoryNet Engine EngineInv EngineRel EngineSend.
From S2P Require Import EnginePark EngineDrain EngineDeliver EngineObserve EngineNet EngineFlow RsEngine.
From S2P Require Import RsBroadcast.

Open Scope N_scope.

(** * What a session can still do *)
Module RsPotential.
Import Rs RsDrain RsPolls RsGather.
Section potential.
Context `{Sha256, ReedSolomon}.

Definition missing (s : RsStrategy) : nat := length (filter (λ o, ¬ is_Some o) (chunks s)).

(** The rounds of polling, and the chunks that can start more of them. *)
Definition potential (s : RsStrategy) : nat := (poll_bound s + missing s)%nat.

Lemma missing_insert (l : list (option bytes)) i d :
  l !! i = Some None →
  S (length (filter (λ o, ¬ is_Some o) (<[i := Some d]> l))) =
  length (filter (λ o, ¬ is_Some o) l).
Proof.
  revert i; induction l as [|o l IH]; intros [|i]; cbn [lookup list_lookup]; try done.
  - intros [= ->]. cbn [insert list_insert].
    rewrite filter_cons_False by (intros Hx; apply Hx; eauto).
    rewrite filter_cons_True by (by intros []). done.
  - intros Hl%IH. change (<[S i := Some d]> (o :: l)) with (o :: <[i := Some d]> l).
    rewrite !filter_cons. case_decide; cbn; lia.
Qed.

(** A chunk that is taken may be announced, but it is missing no more. *)
Lemma take_potential Q X s i d :
  Q i d → attached Q X s →
  attached Q X (snd (take_chunk s i d)) ∧ (potential (snd (take_chunk s i d)) ≤ potential s)%nat.
Proof.
  intros Hid HP. unfold take_chunk. case_decide; [done|]. case_decide as Hs; [done|].
  destruct (Verify.verify_chunk _ _ _); try done. cbv zeta. cbn [snd].
  match goal with |- attached Q X ?x ∧ _ => set (s' := x) end. split.
  { destruct HP as (Hwf & HX & HQ). split; [exact Hwf|]. split; [exact HX|].
    intros j x [(Hj & [= <-] & _)|[_ Hx]]%RsLemmas.slot_lookup%list_lookup_insert_Some.
    - by apply N2Nat.inj in Hj as <-.
    - by apply HQ, RsLemmas.slot_lookup. }
  destruct (chunks s !! N.to_nat i) as [o|] eqn:Ho.
  - assert (chunks s !! N.to_nat i = Some None) as Hn.
    { rewrite Ho. destruct o; [|done]. exfalso. apply Hs. unfold slot. rewrite Ho. by eexists. }
    pose proof (missing_insert (chunks s) (N.to_nat i) d Hn) as Hm.
    unfold potential, missing. change (chunks s') with (<[N.to_nat i := Some d]> (chunks s)).
    unfold poll_bound, RsStrategy_bound. change (planner s') with (planner s).
    change (attached_peers s') with (attached_peers s).
    unfold routing_due. repeat case_decide; lia.
  - assert (chunks s' = chunks s) as Hc by (cbn; by apply list_insert_ge, lookup_ge_None_1).
    unfold potential, missing, poll_bound, RsStrategy_bound, routing_due, local_havelist.
    rewrite Hc. done.
Qed.

Lemma seen_missing s s' : seen s' = seen s → missing s' = missing s.
Proof. unfold missing. by intros [= _ ->]. Qed.

Lemma missing_none s (l : list bytes) : chunks s = Some <$> l → missing s = 0%nat.
Proof.
  unfold missing. intros ->. induction l as [|d l IH]; [done|]. cbn [fmap list_fmap].
  by rewrite filter_cons_False by (intros Hx; apply Hx; eauto).
Qed.

(** The most a new session can have. *)
Definition full_potential (n x : nat) : nat := (n * x + n + 1)%nat.

Lemma attached_potential Q X s :
  attached Q X s →
  (potential s ≤ N.to_nat (num_shards (planner s)) * size X + 1 + length (chunks s))%nat.
Proof.
  intros HP. unfold potential, missing. pose proof (RsPublish.poll_bound_le Q X s HP).
  pose proof (length_filter (λ o, ¬ is_Some o) (chunks s)). lia.
Qed.

Context `{!Sha256Laws, !ReedSolomonLaws}.

(** A new relay with its peers attached. *)
Lemma new_relay_attached Q payload k pm pr shards cfg sd x l (X : gset N) :
  encoded payload k pm pr shards → forward_multiplier cfg < 2 ^ 32 →
  new_relay_with_seed pr cfg sd = Ok x → list_to_set l = X →
  attached Q X (foldl attach_peer x l) ∧
  (potential (foldl attach_peer x l) ≤ full_potential (length shards) (size X))%nat.
Proof.
  intros He Hf Hx Hl. pose proof (new_relay_planner_wf _ _ _ _ Hf Hx) as Hwf.
  unfold new_relay_with_seed in Hx. destruct (Verify.validate_preamble pr); [|done].
  rewrite RsLinkLemmas.attach_list_eq, Hl. injection Hx as <-.
  set (s := mkRs _ _ _ _ _ _ _ _). assert (attached Q X s) as HP.
  { split; [exact Hwf|]. split; [cbn; by rewrite (right_id_L ∅ (∪))|].
    intros i d [? _]%RsLemmas.slot_lookup%lookup_replicate. done. }
  split; [done|]. pose proof (attached_potential Q X s HP) as Hle.
  pose proof (encoded_total _ _ _ _ _ He) as Ht. unfold full_potential.
  assert (length (chunks s) = length shards ∧
    N.to_nat (num_shards (planner s)) = length shards) as [Hc Hn].
  { cbn. rewrite length_replicate. lia. }
  rewrite Hc, Hn in Hle. lia.
Qed.
End potential.
End RsPotential.

(** A clock that shows [t] for as long as it is [held]. *)
Class Shows {CT : Type} `{!Clock CT} (held : CT → Prop) (t : N) : Prop :=
  shows c : held c → fst (clock_now c) = t ∧ held (snd (clock_now c)).

(** * What an event leads to *)
Module Acts.
Import Engine EngineLemmas DrainRel DeliverLemmas Flow Observe Parking.
Import Rs RsDrain RsPolls RsGather RsPotential.
Section acts.
Context `{Sha256, ReedSolomon}.
Context {NT CT DT : Type} `{!Net NT, !Clock CT, !DeliverySink DeliveredMessage DT}.
Context (X : gset N) (up : NT → Prop) `{!Accepts up (λ p, p ∈ X)}.
Context (held : CT → Prop) (time : N) `{!Shows held time}.
Context (Q : N → bytes → Prop) (ch m : string) (pre : bytes) (most : nat).
Implicit Type e : Engine RsStrategy NT CT DT.

(** The subscribers are the peers of the mesh, the network is up, the clock stands
    still, a session is attached to them all and carries the preamble, and the
    chunks that it holds, or that wait for it, are of [Q]. *)
Record member e : Prop := {
  mb_subscribers : subscribers_of e ch = Some X;
  mb_up : up (net e);
  mb_clock : held (clock e);
  mb_session s : lookup_session e ch m = Some s →
    attached Q X (strategy s) ∧ session_preambles e !! (ch, m) = Some pre;
  mb_parked i d : (i, d) ∈ parked_of ch m e → Q i d
}.

(** An engine without the session can do what a new session can. *)
Definition engine_potential e : nat :=
  match lookup_session e ch m with
  | Some s => potential (strategy s)
  | None => most
  end.

(** A message of the session, or one that goes to nobody. *)
Definition fine (msg : NetSend) : Prop :=
  MemoryNet.dst msg = None ∨ of_session (λ p, p ∈ X) Q ch m pre msg.

(** From [e] to [e'], a member stays one, and what it sends is paid for. *)
Definition paid e e' : Prop := ∃ msgs, net e' = net_sends msgs (net e) ∧ Forall fine msgs ∧
  (length (omap MemoryNet.dst msgs) + 4 * size X * engine_potential e'
     ≤ 4 * size X * engine_potential e)%nat.

Record acts e e' : Prop := {
  ac_member : member e → member e' ∧ paid e e';
  ac_cleanup : next_cleanup e' = next_cleanup e;
  ac_tombstones : tombstones e' = tombstones e
}.

#[export] Instance acts_po : PreOrder acts.
Proof.
  split.
  - intros e. split; [|done..]. intros Hm. split; [done|]. exists []. split; [done|].
    split; [constructor|cbn; lia].
  - intros e1 e2 e3 [H1 ? ?] [H2 ? ?]. split; [|congruence..]. intros Hm.
    destruct (H1 Hm) as [Hm2 (l1 & Hn1 & Hf1 & Hp1)].
    destruct (H2 Hm2) as [Hm3 (l2 & Hn2 & Hf2 & Hp2)]. split; [done|]. exists (l1 ++ l2).
    rewrite Hn2, Hn1. unfold net_sends. rewrite foldl_app. split; [done|].
    split; [by apply Forall_app|]. rewrite omap_app, length_app. lia.
Qed.

(** ** Steps without messages *)

(** A chunk that is parked joins those that wait, or some of them. *)
Lemma park_adds i d e j x :
  (j, x) ∈ parked_of ch m (park_chunk ch m i d e) → (j, x) ∈ parked_of ch m e ∨ (j, x) = (i, d).
Proof.
  unfold park_chunk, now, parked_of. destruct (clock_now _).
  cbn [set_clock set_parked_chunks parked_chunks]. rewrite lookup_insert_eq. cbn [from_option id].
  unfold contents. rewrite fmap_app, elem_of_app, fmap_cons, list_elem_of_singleton. intros [Hin|?]; [left|by right].
  case_decide; [|exact Hin]. destruct (default [] _); [done|by right].
Qed.

Lemma created_parked c e : parked_chunks (created e ch m c pre) = parked_chunks e.
Proof.
  unfold created, record_session_created, now. destruct (contains_key _ _); [done|].
  by destruct (clock_now _).
Qed.

Lemma parked_same e e' : parked_chunks e' = parked_chunks e → parked_of ch m e' = parked_of ch m e.
Proof. unfold parked_of. by intros ->. Qed.

Lemma paid_still e e' :
  net e' = net e → (engine_potential e' ≤ engine_potential e)%nat → paid e e'.
Proof. intros Hn Hp. exists []. split; [done|]. split; [constructor|]. cbn. nia. Qed.

(** The time was read or not. *)
Definition ticks (c c' : CT) : Prop := held c → held c'.

#[local] Hint Extern 0 (ticks _ _) => exact (λ Hheld, Hheld) : core.

Lemma ticks_now c : ticks c (snd (clock_now c)).
Proof. intros Hc. exact (proj2 (shows (t:=time) c Hc)). Qed.

Lemma acts_same e e' :
  channels e' = channels e → net e' = net e → session_preambles e' = session_preambles e →
  ticks (clock e) (clock e') →
  next_cleanup e' = next_cleanup e → tombstones e' = tombstones e →
  (∀ i d, (i, d) ∈ parked_of ch m e' → (i, d) ∈ parked_of ch m e ∨ Q i d) → acts e e'.
Proof.
  intros Hc Hn Hp Hck Hcl Ht Hpk.
  assert (lookup_session e' ch m = lookup_session e ch m) as Hl
    by (unfold lookup_session; by rewrite Hc).
  split; [|done..]. intros []. split.
  - split; [unfold subscribers_of; by rewrite Hc|by rewrite Hn|by apply Hck| |].
    + rewrite Hl, Hp. done.
    + intros i d [?|?]%Hpk; auto.
  - apply paid_still; [done|]. unfold engine_potential. by rewrite Hl.
Qed.

(** The session changes, and has no more potential. *)
Lemma acts_session e e' s s' :
  lookup_session e ch m = Some s → lookup_session e' ch m = Some s' →
  (attached Q X (strategy s) → attached Q X (strategy s') ∧
     (potential (strategy s') ≤ potential (strategy s))%nat) →
  subscribers_of e' ch = subscribers_of e ch → net e' = net e → clock e' = clock e →
  session_preambles e' = session_preambles e →
  next_cleanup e' = next_cleanup e → tombstones e' = tombstones e →
  parked_chunks e' = parked_chunks e → acts e e'.
Proof.
  intros Hl Hl' Hs Hsub Hn Hck Hp Hcl Ht Hpk. split; [|done..]. intros [H1 H2 Hk H3 H4].
  destruct (H3 s Hl) as [Ha Hpre]. destruct (Hs Ha) as [Ha' Hle]. split.
  - split; [by rewrite Hsub|by rewrite Hn|by rewrite Hck| |by rewrite (parked_same _ _ Hpk)].
    rewrite Hl', Hp. by intros s0 [= <-].
  - apply paid_still; [done|]. unfold engine_potential. by rewrite Hl, Hl'.
Qed.

Lemma acts_take i d e : Q i d → acts e (snd (channel_take_chunk ch m i d e)).
Proof.
  intros Hid. destruct (lookup_session e ch m) as [s|] eqn:Hl.
  - pose proof (channel_take_at ch m i d s e Hl) as Ht. unfold channel_take_chunk in *.
    pose proof Hl as (c & Hc & Hs)%lookup_session_Some. rewrite Hc in *.
    pose proof (Channel.take_chunk_cases m i d c) as Hcase. rewrite Hs in Hcase.
    destruct (Channel.take_chunk m i d c) as [r c']. cbn [snd].
    destruct (Session.take_chunk s i d) as [r' s'] eqn:Hts. destruct Ht as (Ht & _ & _).
    specialize (Ht ch m). rewrite decide_True in Ht by done.
    eapply (acts_session e _ s s'); try done.
    + intros Ha. unfold Session.take_chunk in Hts.
      destruct (take_potential Q X (strategy s) i d Hid Ha) as [Ha' Hle].
      change (take_chunk (strategy s) i d) with (Strategy.take_chunk (strategy s) i d) in *.
      destruct (state s); try (injection Hts as <- <-; done).
      destruct (Strategy.take_chunk (strategy s) i d) as [[oc|err] st].
      * destruct (_ && _); by injection Hts as <- <-.
      * by injection Hts as <- <-.
    + unfold subscribers_of. cbn. rewrite lookup_insert_eq, Hc. cbn. f_equal. apply Hcase.
  - unfold channel_take_chunk. destruct (channels e !! ch) as [c|] eqn:Hc; [|done].
    unfold lookup_session in Hl. rewrite Hc in Hl. unfold Channel.session_mut in Hl. cbn in Hl.
    unfold Channel.take_chunk. rewrite Hl. cbn [snd]. apply acts_same; try done; [|by left].
    cbn. by apply insert_id.
Qed.

Lemma acts_replay_chunks l b e :
  (∀ i d, (i, d) ∈ contents l → Q i d) → acts e (snd (replay_chunks ch m l b e)).
Proof.
  revert b e; induction l as [|c l IH]; intros b e HQ; [done|]. cbn [replay_chunks].
  pose proof (acts_take (pk_chunk_id c) (pk_payload c) e) as Ha.
  destruct (channel_take_chunk _ _ _ _ e) as [b1 e1]. etrans; [apply Ha, HQ; by left|].
  apply IH. intros i d Hin. apply HQ. by right.
Qed.

Lemma acts_park i d e : Q i d → acts e (park_chunk ch m i d e).
Proof.
  intros Hid. pose proof (park_adds i d e) as Hadd.
  unfold park_chunk, now in *. pose proof (ticks_now (clock e)) as Hc. destruct (clock_now _).
  apply acts_same; try done. intros j x [?|[= -> ->]]%Hadd; [by left|by right].
Qed.

(** ** Drains and deliveries *)

(** What a drain leaves alone. *)
Record apart e e' : Prop := {
  ap_parked : parked_chunks e' = parked_chunks e;
  ap_cleanup : next_cleanup e' = next_cleanup e;
  ap_tombstones : tombstones e' = tombstones e;
  ap_delivered : delivered e' = delivered e;
  ap_clock : ticks (clock e) (clock e')
}.

#[export] Instance apart_po : PreOrder apart.
Proof.
  split; [by split|]. intros ??? [?????] [?????]. split; [congruence..|]. unfold ticks in *. auto.
Qed.

#[export] Instance apart_drain : DrainRel apart.
Proof.
  split; try (intros; by split); [apply _|].
  intros msg e _. unfold send. by destruct (net_send msg (net e)).
Qed.

(** Nor does a publication change it. *)
Lemma publish_apart x e : apart e (snd (publish ch m x pre e)).
Proof.
  unfold publish. destruct (channels e !! ch) as [c|]; [|done].
  destruct (Channel.start_origin_session m x c) as [[[]|err] c']; [|by split].
  cbv zeta. fold (Observe.created e ch m c' pre).
  assert (apart e (Observe.created e ch m c' pre)) as H1.
  { unfold Observe.created, record_session_created, now. destruct (contains_key _ _); [by split|].
    pose proof (ticks_now (clock e)). cbn [set_session_preambles set_channels clock].
    destruct (clock_now _). by split. }
  unfold mbind, SM_bind.
  pose proof (sm_for_rel apart (ensure_session_open ch m) (bt_elements (subscribers c'))
    (created e ch m c' pre) (ensure_rel apart ch m)) as H2.
  destruct (sm_for _ _ _) as [[[]|err] e2]; [|by etrans].
  etrans; [exact H1|]. etrans; [exact H2|]. apply (drain_session_rel apart).
Qed.

Lemma acts_drain e : acts e (sm_exec (drain_session ch m) e).
Proof.
  destruct (drain_session_rel apart ch m e) as [Hpk Hcl Ht _ Hck]. unfold sm_exec.
  split; [|done..]. intros Hmb.
  destruct (lookup_session e ch m) as [s|] eqn:Hl.
  - destruct (mb_session e Hmb s Hl) as [Ha Hpre].
    assert (drainable up ch m pre (attached Q X) X e s) as Hd
      by (split; [by split; [apply Hmb|]|done|done|apply Hmb]).
    pose proof (drain_session_rel (kept seen eq ch m) ch m e) as [_ Hk].
    destruct (drain_session_flow up (λ p, p ∈ X) Q ch m pre (attached Q X) (size X) X (λ p Hp, Hp) s e Hd)
      as (e' & s' & ws & l & Hdr & _ &
        [[[Hup' Hpre'] Hl' Ha' Hsub'] [Hnet _ Hmsgs _] _ _ Hlen Hb]).
    rewrite Hdr in *. cbn [snd] in *. split.
    + split; [done|done|by apply Hck, Hmb| |].
      * rewrite Hl'. by intros s0 [= <-].
      * rewrite (parked_same _ _ Hpk). apply Hmb.
    + exists l. split; [done|]. split; [eapply Forall_impl; [exact Hmsgs|by right]|].
      assert (length (omap MemoryNet.dst l) ≤ length l)%nat as Ho.
      { clear. induction l as [|msg l IH]; [done|]. cbn. destruct (MemoryNet.dst msg); cbn; lia. }
      unfold engine_potential. rewrite Hl, Hl'. destruct (Hk s Hl) as (s0 & Hl0 & _ & Hseen).
      assert (s0 = s') as -> by congruence. apply seen_missing in Hseen.
      unfold potential. rewrite Hseen. nia.
  - assert (drain_session ch m e = (Ok (), e)) as ->; [|split; [done|]].
    { unfold drain_session, drain_fuel. rewrite Hl. cbn [drain_loop].
      unfold drain_round. by rewrite Hl. }
    by apply paid_still.
Qed.

Lemma acts_mark e : acts e (mark_session_terminal ch m e).
Proof.
  unfold mark_session_terminal. destruct (session_meta e !! (ch, m)) as [[ca [t|]]|]; try done.
  cbn [terminal_at]. unfold now. pose proof (ticks_now (clock e)) as Hc.
  destruct (clock_now _). apply acts_same; try done. by left.
Qed.

(** A message that goes to nobody costs nothing. *)
Lemma acts_send_local msg e :
  MemoryNet.dst msg = None → acts e (sm_exec (send msg) e).
Proof.
  intros Hd. unfold sm_exec, send.
  destruct (net_send msg (net e)) as [r n] eqn:Hs. split; [|done..]. intros [H1 H2 Hk H3 H4].
  split; [split; [done| |done..]|].
  - cbn. destruct (accepts msg (net e) H2) as [_ Hu]; [by rewrite Hd|]. by rewrite Hs in Hu.
  - exists [msg]. split; [unfold net_sends; cbn; by rewrite Hs|].
    split; [constructor; [by left|constructor]|]. cbn. rewrite Hd.
    change (engine_potential (set_net n e)) with (engine_potential e). done.
Qed.

Lemma acts_decode e : acts e (maybe_decode_and_deliver ch m e).
Proof.
  unfold maybe_decode_and_deliver. destruct (lookup_session e ch m) as [s|] eqn:Hl; [|done].
  destruct (Session.decode_and_finish s) as [r s'] eqn:Hd.
  assert (strategy s' = strategy s) as Hs.
  { unfold Session.decode_and_finish in Hd. case_decide; [by injection Hd as _ <-|].
    destruct (Strategy.decode (strategy s)); by injection Hd as _ <-. }
  set (e1 := update_session ch m s' e).
  assert (acts e e1) as H1.
  { eapply (acts_session e e1 s s'); try done.
    - unfold e1. erewrite lookup_update_session by done. by rewrite decide_True.
    - by rewrite Hs.
    - apply (ev_subscribers _ _ (update_session_evolves e ch m s s' Hl)). }
  etrans; [exact H1|]. etrans; [apply acts_mark|].
  destruct r as [p|err]; [|done]. destruct (try_send _ _) as [r d].
  etrans; [|by apply acts_send_local]. apply acts_same; try done. by left.
Qed.

Lemma acts_finish (b : bool) e :
  let e1 := sm_exec (drain_session ch m) e in
  acts e (if b then maybe_decode_and_deliver ch m e1 else e1).
Proof.
  cbv zeta. etrans; [apply acts_drain|]. destruct b; [apply acts_decode|done].
Qed.

Lemma acts_replay e :
  (∀ i d, (i, d) ∈ parked_of ch m e → Q i d) → acts e (replay_parked_chunks ch m e).
Proof.
  unfold replay_parked_chunks, parked_of. intros HQ.
  destruct (parked_chunks e !! (ch, m)) as [l|]; [|done].
  set (e1 := set_parked_chunks _ e). etrans; [apply (acts_same e e1); try done|].
  { unfold parked_of. cbn. rewrite lookup_delete_eq. by intros i d ?%elem_of_nil. }
  pose proof (acts_replay_chunks l false e1 HQ) as Hr.
  destruct (replay_chunks ch m l false e1) as [b e2]. etrans; [exact Hr|]. apply acts_finish.
Qed.

(** ** Events *)

(** A session is opened with the preamble, for a strategy that can do no more than
    [most]. *)
Definition opens_well (c : Channel RsStrategy) : Prop := ∀ x n',
  build (factory c) (counter (factory c)) pre = (Ok x, n') →
  attached Q X (foldl attach_peer x (bt_elements X)) ∧
  (potential (foldl attach_peer x (bt_elements X)) ≤ most)%nat.

Lemma acts_open e :
  (∀ i d, (i, d) ∈ parked_of ch m e → Q i d) →
  (∀ c, channels e !! ch = Some c → sessions c !! m = None → opens_well c) →
  acts e (on_session_open ch m pre e).
Proof.
  intros HQ Hw. unfold on_session_open. destruct (is_tombstoned e ch m); [done|].
  destruct (channels e !! ch) as [c|] eqn:Hc; [|done].
  pose proof (Channel.open_session_cases m pre c) as Ho.
  destruct (Channel.open_session m pre c) as [[[]|err] c'].
  - destruct Ho as (Hsub & Hm & x & n & Hb & Hs).
    cbv zeta. fold (created e ch m c' pre).
    destruct (created_same e ch m c' pre) as [Hch _].
    etrans; [|etrans; [apply (acts_drain (created e ch m c' pre))|apply acts_replay]].
    2: { rewrite (parked_same (created e ch m c' pre)).
         - by rewrite (parked_same e) by apply created_parked.
         - apply (drain_session_rel apart ch m). }
    assert (net (created e ch m c' pre) = net e ∧
      session_preambles (created e ch m c' pre) = <[(ch, m) := pre]> (session_preambles e) ∧
      next_cleanup (created e ch m c' pre) = next_cleanup e ∧
      tombstones (created e ch m c' pre) = tombstones e ∧
      ticks (clock e) (clock (created e ch m c' pre)))
      as (Hn & Hpre & Hcl & Ht & Hck).
    { unfold created, record_session_created, now. destruct (contains_key _ _); [done|].
      pose proof (ticks_now (clock e)). cbn [set_session_preambles set_channels clock].
      by destruct (clock_now _). }
    split; [|done..]. intros [H1 H2 Hk H3 H4].
    assert (subscribers c = X) as HX by (unfold subscribers_of in H1; rewrite Hc in H1; by injection H1).
    destruct (Hw c eq_refl Hm x n Hb) as [Ha Hle].
    set (s := Channel.attach_all c (Session.new_relay x)) in *.
    assert (strategy s = foldl attach_peer x (bt_elements X)) as Hst.
    { unfold s. by rewrite RsPublish.attach_all_strategy, HX. }
    assert (lookup_session (created e ch m c' pre) ch m = Some s) as Hl.
    { apply lookup_session_Some. exists c'. rewrite Hch, Hs. split; apply lookup_insert_eq. }
    split.
    + split; [unfold subscribers_of; rewrite Hch, lookup_insert_eq; cbn; by rewrite Hsub, HX
             |by rewrite Hn|by apply Hck| |by rewrite (parked_same e) by apply created_parked].
      rewrite Hl, Hpre, lookup_insert_eq. intros s0 [= <-]. by rewrite Hst.
    + apply paid_still; [done|]. unfold engine_potential. rewrite Hl, Hst.
      unfold lookup_session. rewrite Hc. cbn. unfold Channel.session_mut. by rewrite Hm.
  - destruct Ho as [Hsub Hs].
    assert (lookup_session (set_channels (<[ch:=c']> (channels e)) e) ch m = lookup_session e ch m)
      as Hl.
    { unfold lookup_session. cbn. rewrite lookup_insert_eq, Hc. cbn. unfold Channel.session_mut.
      by rewrite Hs. }
    split; [|done..]. intros [H1 H2 Hk H3 H4]. split.
    + split; [|done..|by rewrite Hl|done]. unfold subscribers_of in *. cbn. rewrite lookup_insert_eq.
      rewrite Hc in H1. cbn in *. by rewrite Hsub.
    + apply paid_still; [done|]. unfold engine_potential. by rewrite Hl.
Qed.

Lemma acts_chunk i d e : Q i d → acts e (on_chunk ch m i d e).
Proof.
  intros Hid. unfold on_chunk. destruct (is_tombstoned e ch m); [done|].
  destruct (lookup_session e ch m) as [s|]; [|by apply acts_park].
  pose proof (acts_take i d e Hid) as Ht. destruct (channel_take_chunk ch m i d e) as [b e1].
  etrans; [exact Ht|]. apply acts_finish.
Qed.

(** The events of the broadcast. *)
Definition mesh_event (ev : NetEvent.t) : Prop :=
  match ev with
  | NetEvent.SessionOpen _ ch' m' pre' _ => ch' = ch ∧ m' = m ∧ pre' = pre
  | NetEvent.RoutingUpdate _ ch' m' _ => ch' = ch ∧ m' = m
  | NetEvent.Chunk _ ch' m' i d => ch' = ch ∧ m' = m ∧ Q i d
  | _ => False
  end.

(** A message of the session is an event of the broadcast. *)
Lemma fine_event src msg p :
  fine msg → MemoryNet.dst msg = Some p → p ∈ X ∧ mesh_event (MemoryNet.event_of src msg).
Proof. intros [Hn|Hs] Hd; [congruence|]. destruct msg; try done; injection Hd as ->; cbn in Hs |- *; naive_solver. Qed.

Lemma acts_event ev e :
  mesh_event ev → (∀ i d, (i, d) ∈ parked_of ch m e → Q i d) →
  (∀ c, channels e !! ch = Some c → sessions c !! m = None → opens_well c) →
  acts e (handle_event ev e).
Proof.
  intros Hev HQ Hw. destruct ev; try done; cbn [mesh_event handle_event] in *.
  - destruct Hev as (-> & -> & ->). by apply acts_open.
  - destruct Hev as (-> & -> & ?). by apply acts_chunk.
Qed.

(** One step of the engine before the next cleanup. *)
Lemma step_quiet ev e :
  mesh_event ev →
  (∀ c, channels e !! ch = Some c → sessions c !! m = None → opens_well c) →
  member e → time < next_cleanup e →
  run_one_step (Some ev) e =
    (Processed, set_clock (snd (clock_now (clock (handle_event ev e)))) (handle_event ev e)).
Proof.
  intros Hev Hw Hmb Ht. pose proof (acts_event ev e Hev (mb_parked _ Hmb) Hw) as Ha.
  destruct (ac_member _ _ Ha Hmb) as [Hmb' _]. cbn [run_one_step]. f_equal.
  unfold maybe_run_cleanup, now. destruct (shows _ (mb_clock _ Hmb')) as [Hnow _].
  destruct (clock_now (clock (handle_event ev e))) as [t c]. cbn [fst snd] in *. subst t.
  cbn [set_clock next_cleanup]. rewrite (ac_cleanup _ _ Ha). by rewrite decide_True.
Qed.

Lemma acts_step ev e :
  mesh_event ev →
  (∀ c, channels e !! ch = Some c → sessions c !! m = None → opens_well c) →
  member e → time < next_cleanup e → acts e (snd (run_one_step (Some ev) e)).
Proof.
  intros Hev Hw Hmb Ht. rewrite step_quiet by done. cbn [snd].
  etrans; [apply (acts_event ev); try done; apply Hmb|].
  apply acts_same; try done; [apply ticks_now|by left].
Qed.
End acts.
End Acts.

(** * How a relay gets the message *)
Module Hope.
Import Engine EngineLemmas DrainRel Observe Gather Parking.
Import Rs RsDrain RsGather Acts.

(** The chunk [d] is shard [i] of the message. *)
Definition shard_at (shards : list bytes) (i : N) (d : bytes) : Prop :=
  shards !! N.to_nat i = Some d.

Section hope.
Context `{Sha256, !Sha256Laws, ReedSolomon, !ReedSolomonLaws}.
Context `{Message Preamble, !MessageLaws Preamble}.
Context {NT CT DT : Type} `{!Net NT, !Clock CT, !DeliverySink DeliveredMessage DT}.
Context (payload : bytes) (k pm : N) (pr : Preamble) (shards : list bytes).
Context (Hencoded : encoded payload k pm pr shards).
Context (rc : RsConfig) (sd : N).
Context (ch m : string) (Room Got : DT → Prop).
Hypothesis receives : ∀ d, Room d → Got (snd (try_send (mkDelivered ch m payload) d)).
Implicit Type e : Engine RsStrategy NT CT DT.

Definition pre : bytes := encode_to_vec pr.

(** A relay that has not heard of the message. *)
Definition unaware e : Prop :=
  lookup_session e ch m = None ∧ Room (delivered e) ∧
  ∃ c, channels e !! ch = Some c ∧ sessions c !! m = None ∧
    build (factory c) = build (rs_relay_factory_seeded rc sd).

(** A relay that holds the shards [D] while it gathers, or has the message. *)
Definition holds (D : list N) e : Prop :=
  gathers seen (good pr shards) have full ch m Room Got false D e.

(** Each shard is held or among the events. *)
Definition covers (evs : list NetEvent.t) (D : list N) : Prop :=
  ∀ i d, shards !! N.to_nat i = Some d →
    i ∈ D ∨ ∃ q, NetEvent.Chunk q ch m i d ∈ evs.

(** A relay that will have the message after the events [evs]. *)
Definition hopeful (evs : list NetEvent.t) e : Prop :=
  (unaware e ∧ ∃ evs1 q iu evs2,
     evs = evs1 ++ NetEvent.SessionOpen q ch m pre iu :: evs2 ∧ covers evs2 []) ∨
  ∃ D, holds D e ∧ covers evs D.

Lemma covers_app evs l D : covers evs D → covers (evs ++ l) D.
Proof.
  intros Hc i d Hi. destruct (Hc i d Hi) as [?|[q ?]]; [by left|right].
  exists q. apply elem_of_app. by left.
Qed.

Lemma hopeful_app evs l e : hopeful evs e → hopeful (evs ++ l) e.
Proof.
  intros [(Hu & evs1 & q & iu & evs2 & -> & Hc)|(D & Hh & Hc)].
  - left. split; [done|]. exists evs1, q, iu, (evs2 ++ l). rewrite <- app_assoc.
    split; [done|by apply covers_app].
  - right. exists D. split; [done|by apply covers_app].
Qed.

(** Nothing more to come: the relay has the message. *)
Lemma hopeful_done e : hopeful [] e → Got (delivered e).
Proof.
  intros [(_ & evs1 & q & iu & evs2 & Heq & _)|(D & Hh & Hc)]; [by destruct evs1|].
  pose proof (rs_gathers payload k pm pr shards Hencoded) as Hga.
  apply (gathers_enough seen (good pr shards) have full (genuine shards) (fair shards) payload
    (N.to_nat k) ch m Room Got D (range (N.of_nat (length shards))) e Hh).
  - apply NoDup_range.
  - intros i Hi%elem_of_range.
    destruct (lookup_lt_is_Some_2 shards (N.to_nat i)) as [d Hd]; [lia|].
    destruct (Hc i d Hd) as [?|[q ?%elem_of_nil]]; done.
  - unfold range. rewrite length_fmap, length_seq.
    pose proof (en_total _ _ _ _ _ Hencoded). lia.
Qed.

(** ** Steps *)

Lemma unaware_open q iu e :
  unaware e → tombstones e !! (ch, m) = None →
  (∀ i d, (i, d) ∈ parked_of ch m e → shard_at shards i d) →
  holds [] (handle_event (NetEvent.SessionOpen q ch m pre iu) e).
Proof.
  intros (Hl & HR & c & Hc & Hm & Hb) Ht HQ.
  destruct (RsReceive.new_relay_Ok payload k pm pr shards rc (u64_add sd (counter (factory c)))
    Hencoded) as [x Hx].
  destruct (new_relay_gathers payload k pm pr shards Hencoded _ _ _ Hx) as [Hg Hf].
  pose proof (rs_gathers payload k pm pr shards Hencoded) as Hga.
  eapply gathers_fewer,
    (gathers_open seen (good pr shards) have full (genuine shards) (fair shards) payload (N.to_nat k)
      ch m eq Room Got receives pre c x (u64_add (counter (factory c)) 1) e); try done.
  - rewrite Hb. cbn [build rs_relay_factory_seeded]. unfold pre. by rewrite decode_msg_encode, Hx.
  - intros i d Hin. by apply genuine_fair, HQ.
Qed.

Lemma unaware_chunk i d e :
  unaware e → tombstones e !! (ch, m) = None → unaware (on_chunk ch m i d e).
Proof.
  intros (Hl & HR & c & Hc & Hm & Hb) Ht. unfold on_chunk, is_tombstoned.
  rewrite (proj2 (contains_key_false _ _)) by done. rewrite Hl.
  unfold park_chunk, now. destruct (clock_now _). split; [exact Hl|]. split; [exact HR|].
  by exists c.
Qed.

Lemma holds_kept D e e' : holds D e → kept seen eq ch m e e' → holds D e'.
Proof. apply gathers_kept; by intros d d' ->. Qed.

Lemma hopeful_event ev evs e :
  mesh_event (shard_at shards) ch m pre ev → tombstones e !! (ch, m) = None →
  (∀ i d, (i, d) ∈ parked_of ch m e → shard_at shards i d) → hopeful (ev :: evs) e →
  hopeful evs (handle_event ev e).
Proof.
  intros Hev Ht HQ Hh. pose proof (rs_gathers payload k pm pr shards Hencoded) as Hga.
  destruct Hh as [(Hu & evs1 & q & iu & evs2 & Heq & Hc)|(D & Hh & Hc)].
  - destruct ev as [| | |q' ch' m' pre' iu'|q' ch' m' pl|q' ch' m' i d| | | | |]; try done;
      cbn [mesh_event] in Hev.
    + destruct Hev as (-> & -> & ->).
      pose proof (unaware_open q' iu' e Hu Ht HQ) as Hd. right.
      exists []. split; [done|]. destruct evs1 as [|? evs1]; [by injection Heq as _ _ ->|].
      injection Heq as _ ->. intros i d Hi. destruct (Hc i d Hi) as [?|[q0 ?]]; [by left|right].
      exists q0. set_solver.
    + left. split; [exact Hu|]. destruct evs1 as [|? evs1]; [done|].
      injection Heq as <- ->. by exists evs1, q, iu, evs2.
    + destruct Hev as (-> & -> & _). left. split; [by apply unaware_chunk|].
      destruct evs1 as [|? evs1]; [done|]. injection Heq as <- ->. by exists evs1, q, iu, evs2.
  - destruct ev as [| | |q' ch' m' pre' iu'|q' ch' m' pl|q' ch' m' i d| | | | |]; try done;
      cbn [mesh_event] in Hev.
    + destruct Hev as (-> & -> & ->). right. exists D. split.
      * eapply holds_kept; [exact Hh|]. apply open_live_kept; [apply _|].
        destruct Hh as (s & Hl & _). by exists s.
      * intros i d Hi. destruct (Hc i d Hi) as [?|[q0 [?|?]%elem_of_cons]]; [by left|done|right].
        by exists q0.
    + right. exists D. split; [exact Hh|].
      intros i d Hi. destruct (Hc i d Hi) as [?|[q0 [?|?]%elem_of_cons]]; [by left|done|right].
      by exists q0.
    + destruct Hev as (-> & -> & Hd%genuine_fair).
      pose proof (gathers_chunk seen (good pr shards) have full (genuine shards) (fair shards)
        payload (N.to_nat k) ch m eq Room Got receives D i d e Ht Hd Hh) as Hg.
      right. exists (learn (genuine shards) i d D). split; [exact Hg|].
      intros j x Hj. unfold learn. destruct (Hc j x Hj) as [?|[q0 [Heq|?]%elem_of_cons]].
      * left. case_decide; set_solver.
      * left. injection Heq as _ -> ->. rewrite decide_True by done. by left.
      * right. by exists q0.
Qed.

(** ** The origin *)

(** A session that decodes nothing. *)
Definition published e : Prop :=
  Room (delivered e) ∧ ∃ s, lookup_session e ch m = Some s ∧ state s = SessionState.Origin.

Lemma published_kept e e' : published e → kept seen eq ch m e e' → published e'.
Proof.
  intros (HR & s & Hl & Hs) [Hd Hk]. split; [by rewrite <- Hd|].
  destruct (Hk s Hl) as (s' & Hl' & Hst & _). exists s'. split; [done|]. by rewrite Hst.
Qed.

Lemma published_event ev e :
  mesh_event (shard_at shards) ch m pre ev → tombstones e !! (ch, m) = None → published e →
  published (handle_event ev e).
Proof.
  intros Hev Ht Hp. destruct ev as [| | |q' ch' m' pre' iu'|q' ch' m' pl|q' ch' m' i d| | | | |];
    try done; cbn [mesh_event handle_event] in *.
  - destruct Hev as (-> & -> & ->). eapply published_kept; [exact Hp|].
    apply open_live_kept; [apply _|]. destruct Hp as (_ & s & Hl & _). by exists s.
  - destruct Hev as (-> & -> & _). unfold on_chunk, is_tombstoned.
    rewrite (proj2 (contains_key_false _ _)) by done.
    destruct Hp as (HR & s & Hl & Hs). rewrite Hl.
    pose proof (channel_take_at ch m i d s e Hl) as Htk.
    destruct (channel_take_chunk ch m i d e) as [b e1].
    unfold Session.take_chunk in Htk. rewrite Hs in Htk. destruct Htk as (Hl1 & Hd1 & ->).
    eapply published_kept; [|exact (drain_session_rel (kept seen eq ch m) ch m e1)].
    split; [by rewrite Hd1|]. exists s. split; [|done]. rewrite Hl1. by rewrite decide_True.
Qed.
End hope.
End Hope.

(** * A member until the message is everywhere *)
Module Mates.
Import Engine EngineLemmas Parking.
Import Rs RsDrain RsPolls RsPotential Acts Hope.
Section mates.
Context `{Sha256, !Sha256Laws, ReedSolomon, !ReedSolomonLaws}.
Context `{Message Preamble, !MessageLaws Preamble}.
Context {NT CT DT : Type} `{!Net NT, !Clock CT, !DeliverySink DeliveredMessage DT}.
Context (X : gset N) (up : NT → Prop) `{!Accepts up (λ p, p ∈ X)}.
Context (held : CT → Prop) (time : N) `{!Shows held time}.
Context (payload : bytes) (k pm : N) (pr : Preamble) (shards : list bytes).
Context (Hencoded : encoded payload k pm pr shards).
Context (rc : RsConfig) (sd : N).
Hypothesis fm : forward_multiplier rc < 2 ^ 32.
Context (ch m : string) (Room Got : DT → Prop).
Hypothesis receives : ∀ d, Room d → Got (snd (try_send (mkDelivered ch m payload) d)).
Implicit Type e : Engine RsStrategy NT CT DT.

Definition most : nat := full_potential (length shards) (size X).

(** The origin has published, a relay hopes for the events [evs]. *)
Record mate (origin : bool) (evs : list NetEvent.t) e : Prop := {
  mt_subscribers : subscribers_of e ch = Some X;
  mt_session s : lookup_session e ch m = Some s →
    attached (shard_at shards) X (strategy s) ∧ session_preambles e !! (ch, m) = Some (pre pr);
  mt_parked i d : (i, d) ∈ parked_of ch m e → shard_at shards i d;
  mt_tombstone : tombstones e !! (ch, m) = None;
  mt_cleanup : time < next_cleanup e;
  mt_message : if origin then published ch m Room e
               else hopeful pr shards rc sd ch m Room Got evs e
}.

Lemma mate_more o evs l e : mate o evs e → mate o (evs ++ l) e.
Proof. intros []. split; try done. destruct o; [done|by apply hopeful_app]. Qed.

Lemma mate_lend o evs n c e : mate o evs e → mate o evs (set_net n (set_clock c e)).
Proof. intros []. by split; [..|destruct o]. Qed.

Lemma mate_member o evs e :
  mate o evs e → up (net e) → held (clock e) → member X up held (shard_at shards) ch m (pre pr) e.
Proof. intros [] ??. by split. Qed.

(** A session that is not there yet will be a relay's. *)
Lemma mate_opens o evs e c :
  mate o evs e → channels e !! ch = Some c → sessions c !! m = None →
  opens_well X (shard_at shards) (pre pr) most c.
Proof.
  intros [_ _ _ _ _ Hmsg] Hc Hm.
  assert (lookup_session e ch m = None) as Hl
    by (unfold lookup_session; rewrite Hc; cbn; exact Hm).
  assert (build (factory c) = build (rs_relay_factory_seeded rc sd)) as Hb.
  { destruct o; [destruct Hmsg as (_ & s & Hl' & _); congruence|].
    destruct Hmsg as [((_ & _ & c' & Hc' & _ & Hb) & _)|(D & (s & Hl' & _) & _)]; congruence. }
  intros x n'. rewrite Hb. cbn [build rs_relay_factory_seeded]. unfold pre.
  rewrite decode_msg_encode.
  destruct (new_relay_with_seed pr rc _) as [x'|] eqn:Hx; [|done]. intros [= -> _].
  eapply new_relay_attached; [done|done|exact Hx|].
  apply set_eq. intros q. rewrite elem_of_list_to_set. apply elem_of_bt_elements.
Qed.

(** An event: the member stays one, and what it sends is paid for. *)
Lemma mate_event o ev evs e :
  mesh_event (shard_at shards) ch m (pre pr) ev → mate o (ev :: evs) e →
  up (net e) → held (clock e) →
  ∃ msgs e', run_one_step (Some ev) e = (Processed, e') ∧
    net e' = net_sends msgs (net e) ∧ Forall (fine X (shard_at shards) ch m (pre pr)) msgs ∧
    (length (omap MemoryNet.dst msgs) + 4 * size X * engine_potential ch m most e'
       ≤ 4 * size X * engine_potential ch m most e)%nat ∧
    mate o evs e'.
Proof.
  intros Hev Hmt Hup Hck. pose proof (mate_member _ _ _ Hmt Hup Hck) as Hmb.
  pose proof (mt_cleanup _ _ _ Hmt) as Hcl. pose proof (mt_tombstone _ _ _ Hmt) as Htb.
  assert (∀ c, channels e !! ch = Some c → sessions c !! m = None → opens_well X (shard_at shards) (pre pr) most c)
    as Hw by (intros c; by apply (mate_opens _ _ _ _ Hmt)).
  pose proof (acts_step X up held time (shard_at shards) ch m (pre pr) most ev e Hev Hw Hmb Hcl) as [Ha Hc Ht].
  pose proof (step_quiet X up held time (shard_at shards) ch m (pre pr) most ev e Hev Hw Hmb Hcl) as Hq.
  assert (if o then published ch m Room (handle_event ev e)
    else hopeful pr shards rc sd ch m Room Got evs (handle_event ev e)) as Hmsg.
  { pose proof (mt_message _ _ _ Hmt) as Hmsg. destruct o.
    - by eapply published_event.
    - eapply hopeful_event; [done..| |done]. apply Hmt. }
  rewrite Hq in Ha, Hc, Ht. cbn [snd] in Ha, Hc, Ht. destruct (Ha Hmb) as [[H1' _ _ H3' H4'] (msgs & Hn & Hf & Hp)].
  eexists msgs, _. split; [exact Hq|]. split; [exact Hn|]. split; [done|]. split; [exact Hp|].
  split; [done|done|done|by rewrite Ht|by rewrite Hc|]. by destruct o.
Qed.
End mates.
End Mates.
