(* ===== verification/Transport.v ===== *)
(** The QUIC transport, [ethp2p-transport/src/lib.rs]: what a peer's pump writes
    on its streams, and what the reader of an inbound stream makes of them.

    The connection and its streams belong to the crate [quinn]; [Quic] is what
    the pump uses of it, and an inbound stream is the bytes that arrive on it
    with the way it ends.  An [async] function is the state-passing function
    that runs it to completion; the one place where the code waits for two
    things at once, the [select!] of a SESS stream, takes the outcomes as an
    argument. *)
From Stdlib Require Import NArith ZArith Lia.
From stdpp Require Import base gmap option strings list.
From S2P Require Import Prelude Wire Runtime.

Open Scope N_scope.

(** * Constants *)

Definition ERR_RECONSTRUCTED : N := 0x01.
Definition PEER_ID_MISMATCH_CLOSE : N := 0x02.

(** * The protobuf messages of [broadcast.proto] and [rs.proto] *)

Inductive BcastMessage :=
  | PeerHandshake (version : N) (channels : list string) (peer_id : string)
  | ChannelSubscribe (channel : string)
  | ChannelUnsubscribe (channel : string).
Record BcastFrame := mkBcast { b_message : option BcastMessage }.

Inductive SessMessage :=
  | SessOpen (channel message_id : string) (preamble initial_update : bytes)
  | SessUpdate (data : bytes).
Record SessFrame := mkSess { s_frame : option SessMessage }.

Record ChunkIdent := mkIdent { index : Z }.

(** * Outbound *)

(** [Connection::open_uni], and writing and finishing a [SendStream], which is
    named by a number.  Dropping a [SendStream], which finishes it, has no effect
    on what was written. *)
Class Quic (C : Type) := {
  open_uni : SM C ErrorKind N;
  write_stream : N → bytes → SM C ErrorKind unit;
  finish_stream : N → SM C ErrorKind unit
}.

(** [PeerStreams]. *)
Record PeerStreams := mkStreams {
  ctrl : option N;
  sess : gmap (string * string) N
}.
Definition PeerStreams_default : PeerStreams := mkStreams None ∅.

(** The state of a pump: the connection, its streams, the events it reported
    and the SESS streams that are watched. *)
Record Pump (C : Type) := mkPump {
  conn : C;
  streams : PeerStreams;
  reported : list NetEvent.t;
  watched : list (N * (N * string * string))
}.
Arguments mkPump {C} conn streams reported watched.
Arguments conn {C} _.
Arguments streams {C} _.
Arguments reported {C} _.
Arguments watched {C} _.

(** What the watcher of an outbound SESS stream reports when the receiver stops
    it with a code. *)
Definition stop_event (peer : N) (channel message_id : string) (code : N) : NetEvent.t :=
  if decide (code = ERR_RECONSTRUCTED)
  then NetEvent.PeerReconstructed peer channel message_id
  else NetEvent.SessionClosed peer channel message_id.

Section outbound.
Context {C : Type} `{!Quic C}.
Context `{Message BcastFrame, Message SessFrame, Message Header, Message ChunkIdent}.

(** Running an operation of the connection, or a write to one of its streams. *)
Definition on_conn {A} (f : SM C ErrorKind A) : SM (Pump C) ErrorKind A := λ p,
  let '(r, c) := f (conn p) in (r, mkPump c (streams p) (reported p) (watched p)).

Definition on_stream {A} (f : ∀ W, AsyncWrite W → SM W ErrorKind A) (stream : N)
    : SM (Pump C) ErrorKind A :=
  on_conn (f C (write_stream stream)).

Definition set_streams (v : PeerStreams) (p : Pump C) : Pump C :=
  mkPump (conn p) v (reported p) (watched p).
Definition report (ev : NetEvent.t) (p : Pump C) : Pump C :=
  mkPump (conn p) (streams p) (reported p ++ [ev]) (watched p).
Definition watch (stream : N) (k : N * string * string) (p : Pump C) : Pump C :=
  mkPump (conn p) (streams p) (reported p) (watched p ++ [(stream, k)]).
Definition modify (f : Pump C → Pump C) : SM (Pump C) ErrorKind unit := λ p, (Ok (), f p).

Definition ensure_ctrl : SM (Pump C) ErrorKind N := λ p,
  match ctrl (streams p) with
  | Some stream => (Ok stream, p)
  | None =>
      (on_conn open_uni ≫= λ stream,
       on_stream (λ W _, open_stream Bcast) stream ≫= λ _,
       modify (λ p, set_streams (mkStreams (Some stream) (sess (streams p))) p) ≫= λ _,
       mret stream) p
  end.

(** A frame on the BCAST stream. *)
Definition write_ctrl (m : BcastMessage) : SM (Pump C) ErrorKind unit :=
  ensure_ctrl ≫= λ stream, on_stream (λ W _, write_framed (mkBcast (Some m))) stream.

Definition i32_index (chunk_id : N) : Z :=
  if decide (Z.of_N chunk_id ≤ I32_MAX)%Z then Z.of_N chunk_id else I32_MAX.
Definition u32_length (n : nat) : N :=
  if decide (N.of_nat n ≤ U32_MAX) then N.of_nat n else U32_MAX.

(** The header [send_chunk] builds. *)
Definition chunk_header (channel message_id : string) (chunk_id : N) (payload : bytes)
    : Header :=
  mkHeader channel message_id (encode_to_vec (mkIdent (i32_index chunk_id)))
    (u32_length (length payload)).

Definition send_chunk (channel message_id : string) (chunk_id : N) (payload : bytes)
    : SM (Pump C) ErrorKind unit :=
  let header := chunk_header channel message_id chunk_id payload in
  on_conn open_uni ≫= λ stream,
  on_stream (λ W _, write_chunk header payload) stream ≫= λ _,
  on_conn (finish_stream stream).

Definition write_outbound (msg : NetSend) : SM (Pump C) ErrorKind unit :=
  match msg with
  | SendHandshake _ version channels peer_id =>
      write_ctrl (PeerHandshake version channels peer_id)
  | SendSubscribe _ channel => write_ctrl (ChannelSubscribe channel)
  | SendUnsubscribe _ channel => write_ctrl (ChannelUnsubscribe channel)
  | SendSessionOpen peer channel message_id preamble initial_update =>
      on_conn open_uni ≫= λ stream,
      on_stream (λ W _, open_stream Sess) stream ≫= λ _,
      on_stream (λ W _, write_framed
        (mkSess (Some (SessOpen channel message_id preamble initial_update)))) stream ≫= λ _,
      modify (watch stream (peer, channel, message_id)) ≫= λ _,
      modify (λ p, set_streams
        (mkStreams (ctrl (streams p)) (<[(channel, message_id) := stream]> (sess (streams p)))) p)
  | SendRoutingUpdate _ channel message_id payload => λ p,
      match sess (streams p) !! (channel, message_id) with
      | Some stream =>
          on_stream (λ W _, write_framed (mkSess (Some (SessUpdate payload)))) stream p
      | None => (Ok (), p)
      end
  | SendChunk peer channel message_id chunk_id payload token => λ p,
      let '(r, p) := send_chunk channel message_id chunk_id payload p in
      (Ok (), report (NetEvent.ChunkSendResult peer channel message_id token (is_ok r)) p)
  | SendSessionReconstructed _ _ => mret ()
  end.

(** One message of [peer_pump], and the messages of its queue. *)
Definition pump_one (p : Pump C) (msg : NetSend) : Pump C :=
  match write_outbound msg p with
  | (Ok _, p) => p
  | (Err _, p) => set_streams PeerStreams_default p
  end.

Definition peer_pump (c : C) (msgs : list NetSend) : Pump C :=
  foldl pump_one (mkPump c PeerStreams_default [] []) msgs.
End outbound.

(** * Inbound *)

(** An inbound stream: its bytes, and an error when it does not end by being
    finished. *)
Record RecvStream := mkRecv {
  arriving : bytes;
  broken : option ErrorKind
}.

#[export] Instance AsyncRead_RecvStream : AsyncRead RecvStream := λ n r,
  if decide (n ≤ length (arriving r))%nat
  then (Ok (take n (arriving r)), mkRecv (drop n (arriving r)) (broken r))
  else (Err (default UnexpectedEof (broken r)), mkRecv [] (broken r)).

(** What reading a stream comes to: the events, what is done to the connection
    or the stream, and the result. *)
Inductive StreamAction := CloseConnection (code : N) | StopSending (code : N).

Record ReadOut := mkOut {
  events : list NetEvent.t;
  action : option StreamAction;
  res : result ErrorKind unit
}.

Definition emit (ev : NetEvent.t) (o : ReadOut) : ReadOut :=
  mkOut (ev :: events o) (action o) (res o).

Definition bcast_event (peer : N) (frame : BcastFrame) : option NetEvent.t :=
  m ← b_message frame;
  Some match m with
       | PeerHandshake version channels peer_id =>
           NetEvent.Handshake peer version channels peer_id
       | ChannelSubscribe channel => NetEvent.Subscribe peer channel
       | ChannelUnsubscribe channel => NetEvent.Unsubscribe peer channel
       end.

Definition sess_event (peer : N) (frame : SessFrame) : option NetEvent.t :=
  m ← s_frame frame;
  match m with
  | SessOpen channel message_id preamble initial_update =>
      Some (NetEvent.SessionOpen peer channel message_id preamble initial_update)
  | SessUpdate _ => None
  end.

(** [read_frame_opt]. *)
Definition read_frame_opt `{Message M} (r : RecvStream)
    : result ErrorKind (option M) * RecvStream :=
  match read_framed r with
  | (Ok m, r) => (Ok (Some m), r)
  | (Err UnexpectedEof, r) => (Ok None, r)
  | (Err e, r) => (Err e, r)
  end.

(** Whether a pinned peer asserts another identity. *)
Definition mismatch (expected : option string) (frame : BcastFrame) : bool :=
  match expected, b_message frame with
  | Some x, Some (PeerHandshake _ _ peer_id) => bool_decide (peer_id ≠ x)
  | _, _ => false
  end.

(** [u32::try_from] of an [i32]. *)
Definition u32_try_from (i : Z) : option N :=
  if decide (0 ≤ i ∧ i ≤ Z.of_N U32_MAX)%Z then Some (Z.to_N i) else None.

Section inbound.
Context `{Message BcastFrame, Message SessFrame, Message Header, Message ChunkIdent}.

(** [rx_open]: the engine still holds the receiving end of the events. *)
Context (peer : N) (rx_open : bool).

(** The loop of a BCAST stream; every round reads a frame, of at least four
    bytes, so one more than the length of the stream is enough fuel
    ([read_bcast_fuel], [read_sess_fuel]). *)
Fixpoint read_bcast (fuel : nat) (expected : option string) (r : RecvStream) : ReadOut :=
  match fuel with
  | O => mkOut [] None (Ok ())
  | S fuel =>
      match read_frame_opt r with
      | (Err e, _) => mkOut [] None (Err e)
      | (Ok None, _) => mkOut [] None (Ok ())
      | (Ok (Some frame), r) =>
          if mismatch expected frame
          then mkOut [] (Some (CloseConnection PEER_ID_MISMATCH_CLOSE)) (Ok ())
          else
            match bcast_event peer frame with
            | None => read_bcast fuel expected r
            | Some ev =>
                if rx_open then emit ev (read_bcast fuel expected r)
                else mkOut [] None (Ok ())
            end
      end
  end.

(** The loop of a SESS stream.  [stops] says, round by round, whether the
    [select!] finds the session of the stream reconstructed: its argument is the
    key, and the branch is disabled while no [Open] has been read. *)
Fixpoint read_sess (fuel : nat) (stops : list (string * string → bool))
    (key : option (string * string)) (r : RecvStream) : ReadOut :=
  match fuel with
  | O => mkOut [] None (Ok ())
  | S fuel =>
      if match key, head stops with Some k, Some stop => stop k | _, _ => false end
      then mkOut [] (Some (StopSending ERR_RECONSTRUCTED)) (Ok ())
      else
        match read_frame_opt r with
        | (Err e, _) => mkOut [] None (Err e)
        | (Ok None, _) => mkOut [] None (Ok ())
        | (Ok (Some frame), r) =>
            match sess_event peer frame with
            | None => read_sess fuel (tail stops) key r
            | Some ev =>
                let key := match ev with
                           | NetEvent.SessionOpen _ channel message_id _ _ =>
                               Some (channel, message_id)
                           | _ => key
                           end in
                if rx_open then emit ev (read_sess fuel (tail stops) key r)
                else mkOut [] None (Ok ())
            end
        end
  end.

(** [reader.read_to_end]: the outstanding bytes, or the error that the stream
    ends with before them. *)
Definition read_to_end (r : ChunkPayloadReader RecvStream) : result ErrorKind bytes :=
  fst (read_exact (N.to_nat (remaining r)) (reader r)).

Definition read_chunk (r : RecvStream) : result ErrorKind NetEvent.t :=
  '(header, reader) ← read_chunk_stream r;
  ident ← ok_or InvalidData (decode_msg (h_chunk_id header));
  chunk_id ← ok_or InvalidData (u32_try_from (index ident));
  payload ← read_to_end reader;
  Ok (NetEvent.Chunk peer (h_channel header) (h_message_id header) chunk_id payload).

Definition read_stream (stops : list (string * string → bool)) (expected : option string)
    (r : RecvStream) : ReadOut :=
  match read_selector r with
  | (Err e, _) => mkOut [] None (Err e)
  | (Ok Bcast, r) => read_bcast (S (length (arriving r))) expected r
  | (Ok Sess, r) => read_sess (S (length (arriving r))) stops None r
  | (Ok Chunk, r) =>
      match read_chunk r with
      | Err e => mkOut [] None (Err e)
      | Ok ev => mkOut (if rx_open then [ev] else []) None (Ok ())
      end
  | (Ok Unspecified, _) => mkOut [] None (Ok ())
  end.
End inbound.

(** * Reading: lemmas *)

Section reading.
Context `{Message M}.

(** Reading a frame of an inbound stream is reading it off the bytes, up to the
    error of a stream that breaks. *)
Lemma read_framed_recv bs b :
  read_framed (M:=M) (mkRecv bs b) =
  match read_framed bs with
  | (Ok m, r) => (Ok m, mkRecv r b)
  | (Err UnexpectedEof, _) => (Err (default UnexpectedEof b), mkRecv [] b)
  | (Err e, r) => (Err e, mkRecv r b)
  end.
Proof.
  unfold read_framed, read_exact, AsyncRead_RecvStream, AsyncRead_bytes. simpl.
  destruct (decide (4 ≤ length bs)%nat); [|reflexivity].
  destruct (decide (MAX_FRAME_BYTES < _)); [reflexivity|].
  destruct (decide (N.to_nat _ ≤ _)%nat); [|reflexivity].
  destruct (decode_msg _); reflexivity.
Qed.

(** A frame read off a stream was at its front. *)
Lemma read_framed_Ok (r r' : RecvStream) (m : M) :
  read_framed r = (Ok m, r') →
  (4 + length (arriving r') ≤ length (arriving r))%nat ∧ broken r' = broken r.
Proof.
  destruct r as [bs b]. unfold read_framed, read_exact, AsyncRead_RecvStream. simpl.
  destruct (decide (4 ≤ length bs)%nat); [|discriminate].
  destruct (decide (MAX_FRAME_BYTES < _)); [discriminate|].
  destruct (decide (N.to_nat _ ≤ _)%nat) as [Hl|]; [|discriminate].
  destruct (decode_msg _); [|discriminate]. intros [= _ <-]. simpl.
  rewrite !length_drop in *. split; [lia|reflexivity].
Qed.

Lemma read_frame_opt_Ok (r r' : RecvStream) (m : M) :
  read_frame_opt r = (Ok (Some m), r') →
  (length (arriving r') < length (arriving r))%nat.
Proof.
  unfold read_frame_opt. destruct (read_framed r) as [[m'|e] r1] eqn:Hr.
  - intros [= -> ->]. apply read_framed_Ok in Hr. lia.
  - destruct e; discriminate.
Qed.

(** A frame that was written is read back, and the end of the stream is seen. *)
Lemma read_frame_opt_frame `{!MessageLaws M} (m : M) rest b :
  N.of_nat (encoded_len m) ≤ MAX_FRAME_BYTES →
  read_frame_opt (mkRecv (frame m ++ rest) b) = (Ok (Some m), mkRecv rest b).
Proof.
  intros Hm. unfold read_frame_opt. by rewrite read_framed_recv, read_framed_frame.
Qed.

Lemma read_frame_opt_end : read_frame_opt (mkRecv [] None) = (Ok (None : option M), mkRecv [] None).
Proof. reflexivity. Qed.
End reading.

Section read_facts.
Context `{Message BcastFrame, Message SessFrame, Message Header, Message ChunkIdent}.

(** The fuel of the loops is enough: more of it changes nothing. *)
Lemma read_bcast_fuel peer rx_open fuel fuel' expected r :
  (length (arriving r) < fuel)%nat → (length (arriving r) < fuel')%nat →
  read_bcast peer rx_open fuel expected r = read_bcast peer rx_open fuel' expected r.
Proof.
  revert fuel' r. induction fuel as [|fuel IH]; intros [|fuel'] r Hf Hf'; [lia..|]. simpl.
  destruct (read_frame_opt r) as [[[fr|]|e] r'] eqn:Hr; [|reflexivity..].
  apply read_frame_opt_Ok in Hr. destruct (mismatch _ _); [reflexivity|].
  rewrite (IH fuel') by lia. reflexivity.
Qed.

Lemma read_sess_fuel peer rx_open fuel fuel' stops key r :
  (length (arriving r) < fuel)%nat → (length (arriving r) < fuel')%nat →
  read_sess peer rx_open fuel stops key r = read_sess peer rx_open fuel' stops key r.
Proof.
  revert fuel' stops key r. induction fuel as [|fuel IH]; intros [|fuel'] stops key r Hf Hf'; [lia..|].
  simpl. destruct (match key, head stops with Some k, Some stop => stop k | _, _ => false end);
    [reflexivity|].
  destruct (read_frame_opt r) as [[[fr|]|e] r'] eqn:Hr; [|reflexivity..].
  apply read_frame_opt_Ok in Hr. destruct (sess_event peer fr) as [ev|].
  - rewrite (IH fuel') by lia. reflexivity.
  - apply IH; lia.
Qed.
End read_facts.

(** * Whatever arrives *)

(** Documented behaviour of the codec of [ChunkIdent], whose index is an [i32]. *)
Class ChunkIdentLaws `{Message ChunkIdent} : Prop := {
  index_i32 bs ident : decode_msg bs = Some ident → (- 2 ^ 31 ≤ index ident ≤ I32_MAX)%Z;
  decode_ident i : (- 2 ^ 31 ≤ i ≤ I32_MAX)%Z →
    decode_msg (encode_to_vec (mkIdent i)) = Some (mkIdent i)
}.

(** What may be reported about the connection [peer] when [expected] is pinned:
    the six kinds of [NetEvent] that a remote peer causes, less the
    routing updates, which are not reported. *)
Definition confined (peer : N) (expected : option string) (ev : NetEvent.t) : Prop :=
  match ev with
  | NetEvent.Handshake p _ _ peer_id => p = peer ∧ ∀ x, expected = Some x → peer_id = x
  | NetEvent.Subscribe p _ | NetEvent.Unsubscribe p _ | NetEvent.SessionOpen p _ _ _ _ =>
      p = peer
  | NetEvent.Chunk p _ _ chunk_id payload =>
      p = peer ∧ chunk_id < 2 ^ 31 ∧ N.of_nat (length payload) ≤ MAX_CHUNK_DATA_BYTES
  | _ => False
  end.

(** The connection is closed only for a pinned peer, and a stream is stopped
    only for a session that was opened on it. *)
Definition action_justified (expected : option string)
    (stops : list (string * string → bool)) (o : ReadOut) : Prop :=
  match action o with
  | None => True
  | Some (CloseConnection code) => code = PEER_ID_MISMATCH_CLOSE ∧ is_Some expected
  | Some (StopSending code) =>
      code = ERR_RECONSTRUCTED ∧
      ∃ p channel message_id preamble initial_update stop,
        NetEvent.SessionOpen p channel message_id preamble initial_update ∈ events o ∧
        stop ∈ stops ∧ stop (channel, message_id) = true
  end.

Section confinement.
Context `{Message BcastFrame, Message SessFrame, Message Header, Message ChunkIdent}.

Lemma bcast_event_confined peer expected fr ev :
  mismatch expected fr = false → bcast_event peer fr = Some ev → confined peer expected ev.
Proof.
  unfold mismatch, bcast_event. destruct fr as [[[v cs id|c|c]|]]; simpl; intros Hm [= <-]; simpl;
    [|reflexivity..].
  split; [reflexivity|]. intros x ->. by apply bool_decide_eq_false, dec_stable in Hm.
Qed.

Lemma read_bcast_confined peer rx_open fuel expected r :
  let o := read_bcast peer rx_open fuel expected r in
  Forall (confined peer expected) (events o) ∧
  (action o = None ∨ action o = Some (CloseConnection PEER_ID_MISMATCH_CLOSE) ∧ is_Some expected).
Proof.
  cbv zeta. revert r. induction fuel as [|fuel IH]; intros r; simpl; [by auto|].
  destruct (read_frame_opt r) as [[[fr|]|e] r']; [|by auto..].
  destruct (mismatch expected fr) eqn:Hm.
  { simpl. split; [done|]. right. split; [done|]. by destruct expected. }
  destruct (bcast_event peer fr) as [ev|] eqn:Hev; [|apply IH].
  destruct rx_open; simpl; [|by auto]. split; [|apply IH].
  constructor; [by eapply bcast_event_confined|apply IH].
Qed.

(** The events of a SESS stream open sessions; a stop is for the last of them. *)
Lemma read_sess_opens peer rx_open fuel stops key r :
  let o := read_sess peer rx_open fuel stops key r in
  Forall (λ ev, ∃ c m pre init, ev = NetEvent.SessionOpen peer c m pre init) (events o) ∧
  match action o with
  | None => True
  | Some (CloseConnection _) => False
  | Some (StopSending code) => code = ERR_RECONSTRUCTED ∧
      ∃ k stop, stop ∈ stops ∧ stop k = true ∧
        (key = Some k ∨ ∃ pre init, NetEvent.SessionOpen peer k.1 k.2 pre init ∈ events o)
  end.
Proof.
  cbv zeta. revert stops key r. induction fuel as [|fuel IH]; intros stops key r; simpl; [by auto|].
  destruct (match key, head stops with Some k, Some stop => stop k | _, _ => false end) eqn:Hst.
  { simpl. split; [done|]. split; [done|]. destruct key as [k|]; [|done].
    destruct stops as [|stop stops]; [done|]. exists k, stop. simpl in Hst.
    split; [by left|]. auto. }
  clear Hst. destruct (read_frame_opt r) as [[[fr|]|e] r']; [|by auto..].
  assert (∀ stop, stop ∈ tail stops → stop ∈ stops) as Htl.
  { intros stop. destruct stops; simpl; [done|]. by right. }
  destruct (sess_event peer fr) as [ev|] eqn:Hev; [destruct rx_open; [|by auto]|].
  - unfold sess_event in Hev. destruct fr as [[[c m pre init|d]|]]; simplify_eq/=.
    destruct (IH (tail stops) (Some (c, m)) r') as [He Hac]. simpl. split.
    { constructor; [by exists c, m, pre, init|exact He]. }
    destruct (action _) as [[code|code]|]; [done| |done].
    destruct Hac as (-> & k & stop & Hs & Hk & [[= <-]|(pre' & init' & He')]);
      (split; [done|]; eexists _, stop; split; [by apply Htl|]; split; [exact Hk|]; right).
    + exists pre, init. by left.
    + exists pre', init'. by right.
  - destruct (IH (tail stops) key r') as [He Hac]. split; [exact He|].
    destruct (action _) as [[code|code]|]; [done| |done].
    destruct Hac as (-> & k & stop & Hs & Hk). eauto 8.
Qed.

(** Without a receiver the loops end at the first event. *)
Lemma read_bcast_silent peer fuel expected r :
  events (read_bcast peer false fuel expected r) = [].
Proof.
  revert r. induction fuel as [|fuel IH]; intros r; simpl; [reflexivity|].
  destruct (read_frame_opt r) as [[[fr|]|e] r']; [|reflexivity..].
  destruct (mismatch expected fr), (bcast_event peer fr); [reflexivity..|apply IH].
Qed.

Lemma read_sess_silent peer fuel stops key r :
  events (read_sess peer false fuel stops key r) = [].
Proof.
  revert stops key r. induction fuel as [|fuel IH]; intros stops key r; simpl; [reflexivity|].
  destruct (match key, head stops with Some k, Some stop => stop k | _, _ => false end);
    [reflexivity|].
  destruct (read_frame_opt r) as [[[fr|]|e] r']; [|reflexivity..].
  destruct (sess_event peer fr); [reflexivity|apply IH].
Qed.

Lemma read_chunk_confined `{!ChunkIdentLaws} peer expected r ev :
  read_chunk peer r = Ok ev → confined peer expected ev.
Proof.
  unfold read_chunk, read_chunk_stream.
  destruct (read_framed r) as [[hdr|e] r']; [|discriminate].
  destruct (decide (MAX_CHUNK_DATA_BYTES < h_data_length hdr)) as [|Hlen]; [discriminate|]. simpl.
  destruct (decode_msg (h_chunk_id hdr)) as [ident|] eqn:Hd; [|discriminate]. simpl.
  apply index_i32 in Hd. unfold u32_try_from. case_decide as Hi; [|discriminate]. simpl.
  unfold read_to_end, read_exact, AsyncRead_RecvStream. simpl.
  case_decide as Hl; [|discriminate]. simpl. intros [= <-]. simpl.
  split; [reflexivity|]. split; [lia|]. rewrite length_take. lia.
Qed.

End confinement.
