(* ===== verification/TransportLink.v ===== *)
(** One connection of the QUIC transport, end to end: the streams that a peer's
    pump writes are read as the events of the messages it was given, as over
    the in-memory network ([pump_refines_memory_net]); what a failed write does
    to later messages ([failed_write_mutes_sessions]); and runs on concrete
    codecs. *)
From Stdlib Require Import NArith ZArith Lia.
From stdpp Require Import base gmap option countable strings list.
From S2P Require Import Prelude Wire Runtime MemoryNet Transport.

Open Scope N_scope.

(** * What a pump writes *)

(** The messages that fit their frames; a message that does not is refused by
    [write_framed] or [write_chunk]. *)
Definition frame_fits `{Message M} (m : M) : Prop :=
  N.of_nat (encoded_len m) ≤ MAX_FRAME_BYTES.

Section sendable.
Context `{Message BcastFrame, Message SessFrame, Message Header, Message ChunkIdent}.

Definition sendable (msg : NetSend) : Prop :=
  match msg with
  | SendHandshake _ version channels peer_id =>
      frame_fits (mkBcast (Some (PeerHandshake version channels peer_id)))
  | SendSubscribe _ channel => frame_fits (mkBcast (Some (ChannelSubscribe channel)))
  | SendUnsubscribe _ channel => frame_fits (mkBcast (Some (ChannelUnsubscribe channel)))
  | SendSessionOpen _ channel message_id preamble initial_update =>
      frame_fits (mkSess (Some (SessOpen channel message_id preamble initial_update)))
  | SendRoutingUpdate _ _ _ payload => frame_fits (mkSess (Some (SessUpdate payload)))
  | SendChunk _ channel message_id chunk_id payload _ =>
      (Z.of_N chunk_id ≤ I32_MAX)%Z ∧ N.of_nat (length payload) ≤ MAX_CHUNK_DATA_BYTES ∧
      frame_fits (chunk_header channel message_id chunk_id payload)
  | SendSessionReconstructed _ _ => True
  end.

(** What a stream holds, and the bytes of it. *)
Inductive Content :=
  | Control (ms : list BcastMessage)
  | SessionOf (channel message_id : string) (preamble initial_update : bytes)
      (updates : list bytes)
  | ChunkOf (channel message_id : string) (chunk_id : N) (payload : bytes).

Definition image (c : Content) : bytes :=
  match c with
  | Control ms => Byte.x01 :: (ms ≫= λ m, frame (mkBcast (Some m)))
  | SessionOf channel message_id preamble initial_update us =>
      Byte.x02 :: frame (mkSess (Some (SessOpen channel message_id preamble initial_update))) ++
      (us ≫= λ u, frame (mkSess (Some (SessUpdate u))))
  | ChunkOf channel message_id chunk_id payload =>
      Byte.x03 :: frame (chunk_header channel message_id chunk_id payload) ++ payload
  end.

Definition fits (c : Content) : Prop :=
  match c with
  | Control ms => Forall (λ m, frame_fits (mkBcast (Some m))) ms
  | SessionOf channel message_id preamble initial_update us =>
      frame_fits (mkSess (Some (SessOpen channel message_id preamble initial_update))) ∧
      Forall (λ u, frame_fits (mkSess (Some (SessUpdate u)))) us
  | ChunkOf channel message_id chunk_id payload =>
      (Z.of_N chunk_id ≤ I32_MAX)%Z ∧ N.of_nat (length payload) ≤ MAX_CHUNK_DATA_BYTES ∧
      frame_fits (chunk_header channel message_id chunk_id payload)
  end.

(** The event of a control message, and what a reader makes of a content. *)
Definition control_event (peer : N) (m : BcastMessage) : NetEvent.t :=
  match m with
  | PeerHandshake version channels peer_id => NetEvent.Handshake peer version channels peer_id
  | ChannelSubscribe channel => NetEvent.Subscribe peer channel
  | ChannelUnsubscribe channel => NetEvent.Unsubscribe peer channel
  end.

Definition content_events (peer : N) (c : Content) : list NetEvent.t :=
  match c with
  | Control ms => control_event peer <$> ms
  | SessionOf channel message_id preamble initial_update _ =>
      [NetEvent.SessionOpen peer channel message_id preamble initial_update]
  | ChunkOf channel message_id chunk_id payload =>
      [NetEvent.Chunk peer channel message_id chunk_id payload]
  end.

(** No handshake asserts another identity than the pinned one. *)
Definition keeps_pin (expected : option string) (m : BcastMessage) : Prop :=
  mismatch expected (mkBcast (Some m)) = false.
Definition pin_kept (expected : option string) (c : Content) : Prop :=
  match c with Control ms => Forall (keeps_pin expected) ms | _ => True end.
End sendable.

(** ** Reading a content back *)

#[local] Opaque frame.

Section read_back.
Context `{Message BcastFrame, Message SessFrame, Message Header, Message ChunkIdent}.
Context `{!MessageLaws BcastFrame, !MessageLaws SessFrame, !MessageLaws Header, !ChunkIdentLaws}.

Lemma read_bcast_frames peer expected ms fuel :
  Forall (λ m, frame_fits (mkBcast (Some m))) ms → Forall (keeps_pin expected) ms →
  (length ms < fuel)%nat →
  read_bcast peer true fuel expected (mkRecv (ms ≫= λ m, frame (mkBcast (Some m))) None) =
  mkOut (control_event peer <$> ms) None (Ok ()).
Proof.
  intros Hf Hp. revert fuel. induction Hf as [|m ms Hm Hf IH]; intros [|fuel] Hl; simpl in Hl; [lia| |lia|].
  - reflexivity.
  - inversion_clear Hp as [|? ? Hk Hp']. simpl.
    rewrite read_frame_opt_frame by exact Hm. rewrite Hk.
    unfold bcast_event. simpl. rewrite IH by (assumption || lia). by destruct m.
Qed.

Lemma read_sess_updates peer us fuel key :
  Forall (λ u, frame_fits (mkSess (Some (SessUpdate u)))) us → (length us < fuel)%nat →
  read_sess peer true fuel [] key
    (mkRecv (us ≫= λ u, frame (mkSess (Some (SessUpdate u)))) None) = mkOut [] None (Ok ()).
Proof.
  intros Hf. revert fuel. induction Hf as [|u us Hu Hf IH]; intros [|fuel] Hl; simpl in Hl; [lia| |lia|].
  - by destruct key.
  - simpl. replace (match key with Some _ | _ => false end) with false by (by destruct key).
    rewrite read_frame_opt_frame by exact Hu. unfold sess_event. simpl.
    apply IH. lia.
Qed.

Lemma length_frames {M} `{Message M, !MessageLaws M} {A} (f : A → M) (l : list A) :
  (length l ≤ length (l ≫= λ x, frame (f x)))%nat.
Proof.
  induction l as [|x l IH]; [simpl; lia|].
  rewrite bind_cons, length_app, length_frame. simpl length. lia.
Qed.

(** Neither the index nor the length is clamped. *)
Lemma chunk_header_small channel message_id chunk_id payload :
  (Z.of_N chunk_id ≤ I32_MAX)%Z → N.of_nat (length payload) ≤ MAX_CHUNK_DATA_BYTES →
  chunk_header channel message_id chunk_id payload =
  mkHeader channel message_id (encode_to_vec (mkIdent (Z.of_N chunk_id)))
    (N.of_nat (length payload)).
Proof.
  intros Hi Hl. unfold MAX_CHUNK_DATA_BYTES in Hl. unfold chunk_header, i32_index, u32_length.
  by rewrite !decide_True by lia.
Qed.

Lemma read_chunk_back peer channel message_id chunk_id payload :
  fits (ChunkOf channel message_id chunk_id payload) →
  read_chunk peer (mkRecv (frame (chunk_header channel message_id chunk_id payload) ++ payload) None)
  = Ok (NetEvent.Chunk peer channel message_id chunk_id payload).
Proof.
  intros (Hi & Hl & Hf). unfold read_chunk, read_chunk_stream.
  rewrite read_framed_recv, read_framed_frame by exact Hf.
  rewrite chunk_header_small by assumption. simpl h_data_length. simpl h_chunk_id.
  rewrite decide_False by lia. simpl. rewrite decode_ident by lia. simpl.
  unfold u32_try_from. rewrite decide_True by lia. simpl. rewrite N2Z.id.
  unfold read_to_end, read_exact, AsyncRead_RecvStream. simpl.
  rewrite Nat2N.id, decide_True by lia. simpl. by rewrite take_ge by lia.
Qed.

Lemma read_selector_recv b bs e p :
  protocol_try_from (Byte.to_N b) = Some p → p ≠ Unspecified →
  read_selector (mkRecv (b :: bs) e) = (Ok p, mkRecv bs e).
Proof.
  intros Hb Hp. unfold read_selector, read_exact, AsyncRead_RecvStream.
  rewrite decide_True by (simpl; lia). simpl. rewrite Hb, drop_0. by rewrite decide_False.
Qed.

(** A reader makes of a stream exactly the events of its content. *)
Lemma read_stream_image peer expected c :
  fits c → pin_kept expected c →
  read_stream peer true [] expected (mkRecv (image c) None) =
  mkOut (content_events peer c) None (Ok ()).
Proof.
  destruct c as [ms|ch mid pre init us|ch mid id pl]; intros Hf Hp; unfold read_stream, image.
  - rewrite (read_selector_recv _ _ _ Bcast) by done. simpl arriving.
    apply read_bcast_frames; [exact Hf|exact Hp|].
    apply Nat.lt_succ_r, (length_frames (λ m, mkBcast (Some m))).
  - rewrite (read_selector_recv _ _ _ Sess) by done. simpl.
    rewrite read_frame_opt_frame by exact (proj1 Hf). unfold sess_event. simpl.
    rewrite read_sess_updates; [reflexivity|exact (proj2 Hf)|].
    rewrite length_app, length_frame.
    pose proof (length_frames (λ u, mkSess (Some (SessUpdate u))) us). lia.
  - rewrite (read_selector_recv _ _ _ Chunk) by done.
    rewrite read_chunk_back by exact Hf. reflexivity.
Qed.
End read_back.

(** ** Writing *)

(** A connection that takes everything: the bytes of its streams. *)
Definition put (i : N) (bs : bytes) : SM (list bytes) ErrorKind unit := λ c,
  (Ok (), alter (λ w, w ++ bs) (N.to_nat i) c).
#[export] Instance Quic_streams : Quic (list bytes) := {
  open_uni := λ c, (Ok (N.of_nat (length c)), c ++ [[]]);
  write_stream := put;
  finish_stream _ := λ c, (Ok (), c)
}.

(** The messages that a reader reports, those of the BCAST stream, and the
    events of the latter. *)
Definition carried (msg : NetSend) : Prop :=
  match msg with
  | SendRoutingUpdate _ _ _ _ | SendSessionReconstructed _ _ => False
  | _ => True
  end.
#[export] Instance carried_dec msg : Decision (carried msg).
Proof. destruct msg; simpl; apply _. Defined.

Definition is_control (ev : NetEvent.t) : Prop :=
  match ev with
  | NetEvent.Handshake _ _ _ _ | NetEvent.Subscribe _ _ | NetEvent.Unsubscribe _ _ => True
  | _ => False
  end.
#[export] Instance is_control_dec ev : Decision (is_control ev).
Proof. destruct ev; simpl; apply _. Defined.

(** The session a message opens. *)
Definition opens (msg : NetSend) : option (N * string * string) :=
  match msg with
  | SendSessionOpen peer channel message_id _ _ => Some (peer, channel, message_id)
  | _ => None
  end.

Definition is_session (channel message_id : string) (c : Content) : Prop :=
  match c with
  | SessionOf ch mid _ _ _ => ch = channel ∧ mid = message_id
  | _ => False
  end.
Definition is_bcast (c : Content) : Prop :=
  match c with Control _ => True | _ => False end.

(** What a content has become later on. *)
Definition grown (c c' : Content) : Prop :=
  (is_bcast c ↔ is_bcast c') ∧ ∀ ch mid, is_session ch mid c ↔ is_session ch mid c'.

Lemma grown_refl c : grown c c.
Proof. by split. Qed.
#[local] Hint Resolve grown_refl : core.

Lemma alter_middle {A} (f : A → A) l x r : alter f (length l) (l ++ x :: r) = l ++ f x :: r.
Proof. induction l as [|y l IH]; simpl; [reflexivity|]. exact (f_equal (cons y) IH). Qed.

Section writing.
Context `{Message BcastFrame, Message SessFrame, Message Header, Message ChunkIdent}.
Context `{!MessageLaws BcastFrame, !MessageLaws SessFrame, !MessageLaws Header, !ChunkIdentLaws}.
Context (peer : N).

(** A watched stream is that of its session. *)
Definition watch_ok (cs : list Content) (x : N * (N * string * string)) : Prop :=
  let '(n, (_, ch, mid)) := x in ∃ c, cs !! N.to_nat n = Some c ∧ is_session ch mid c.

(** The state of a pump that took [msgs], and the contents of its streams. *)
Record carries (msgs : list NetSend) (p : Pump (list bytes)) (cs : list Content) : Prop := {
  car_conn : conn p = image <$> cs;
  car_fits : Forall fits cs;
  car_ctrl i : (∃ c, cs !! i = Some c ∧ is_bcast c) ↔ ctrl (streams p) = Some (N.of_nat i);
  car_sess ch mid n : sess (streams p) !! (ch, mid) = Some n →
    ∃ c, cs !! N.to_nat n = Some c ∧ is_session ch mid c;
  car_reported : reported p = omap MemoryNet.chunk_ack msgs;
  car_events : cs ≫= content_events peer ≡ₚ MemoryNet.event_of peer <$> filter carried msgs;
  car_order : filter is_control (cs ≫= content_events peer) =
    filter is_control (MemoryNet.event_of peer <$> msgs);
  car_opened : (watched p).*2 = omap opens msgs;
  car_watched : Forall (watch_ok cs) (watched p)
}.

(** The pump on each kind of message. *)
Lemma write_framed_stream {M} `{Message M} (m : M) n (c : list bytes) :
  frame_fits m →
  @write_framed _ (put n) M _ m c = (Ok (), alter (λ b, b ++ frame m) (N.to_nat n) c).
Proof.
  unfold frame_fits, MAX_FRAME_BYTES. intros Hm. unfold write_framed.
  rewrite !decide_False by (unfold MAX_FRAME_BYTES; lia). reflexivity.
Qed.

Lemma alter_new {A} (f : A → A) (l : list A) x :
  alter f (N.to_nat (N.of_nat (length l))) (l ++ [x]) = l ++ [f x].
Proof. rewrite Nat2N.id. apply alter_middle. Qed.

Lemma write_ctrl_first m c st rep w :
  ctrl st = None → frame_fits (mkBcast (Some m)) →
  write_ctrl m (mkPump c st rep w) =
  (Ok (), mkPump (c ++ [image (Control [m])])
            (mkStreams (Some (N.of_nat (length c))) (sess st)) rep w).
Proof.
  intros Hc Hm. unfold write_ctrl, mbind, SM_bind, ensure_ctrl. simpl. rewrite Hc.
  unfold mbind, SM_bind, on_stream, on_conn. simpl. unfold on_conn. simpl.
  rewrite alter_new. simpl.
  rewrite write_framed_stream, alter_new by exact Hm. by rewrite app_nil_r.
Qed.

Lemma write_ctrl_next m n c st rep w :
  ctrl st = Some n → frame_fits (mkBcast (Some m)) →
  write_ctrl m (mkPump c st rep w) =
  (Ok (), mkPump (alter (λ b, b ++ frame (mkBcast (Some m))) (N.to_nat n) c) st rep w).
Proof.
  intros Hc Hm. unfold write_ctrl, mbind, SM_bind, ensure_ctrl. simpl. rewrite Hc.
  unfold on_stream, on_conn. simpl. by rewrite write_framed_stream by exact Hm.
Qed.

Lemma send_chunk_all channel message_id chunk_id payload c st rep w :
  fits (ChunkOf channel message_id chunk_id payload) →
  send_chunk channel message_id chunk_id payload (mkPump c st rep w) =
  (Ok (), mkPump (c ++ [image (ChunkOf channel message_id chunk_id payload)]) st rep w).
Proof.
  intros (Hi & Hl & Hf). unfold send_chunk. rewrite (chunk_header_small _ _ _ _ Hi Hl) in *.
  unfold mbind, SM_bind, on_stream, on_conn. simpl.
  unfold write_chunk. simpl h_data_length.
  rewrite !decide_False by (rewrite ?Nat2N.id; lia).
  unfold mbind, SM_bind, on_conn. simpl. rewrite alter_new.
  rewrite write_framed_stream by exact Hf.
  unfold write_all. simpl. rewrite !alter_new. simpl.
  by rewrite (chunk_header_small _ _ _ _ Hi Hl).
Qed.

Lemma session_open_all d channel message_id pre init c st rep w :
  fits (SessionOf channel message_id pre init []) →
  write_outbound (SendSessionOpen d channel message_id pre init) (mkPump c st rep w) =
  (Ok (), mkPump (c ++ [image (SessionOf channel message_id pre init [])])
    (mkStreams (ctrl st) (<[(channel, message_id) := N.of_nat (length c)]> (sess st))) rep
    (w ++ [(N.of_nat (length c), (d, channel, message_id))])).
Proof.
  intros [Hf _]. unfold write_outbound, mbind, SM_bind. simpl.
  unfold on_stream at 1, on_conn. simpl. rewrite alter_new.
  unfold on_stream, on_conn. simpl.
  rewrite write_framed_stream, alter_new by exact Hf. simpl. by rewrite app_nil_r.
Qed.
(** ** The step of a pump on contents *)

Definition event_part (msg : NetSend) : list NetEvent.t :=
  if decide (carried msg) then [MemoryNet.event_of peer msg] else [].

(** The contents move from [cs] to [cs'] and report [evs] more. *)
Record moves (cs cs' : list Content) (evs : list NetEvent.t) : Prop := {
  mv_grown i c : cs !! i = Some c → ∃ c', cs' !! i = Some c' ∧ grown c c';
  mv_events : cs' ≫= content_events peer ≡ₚ (cs ≫= content_events peer) ++ evs;
  mv_order : filter is_control (cs' ≫= content_events peer) =
    filter is_control (cs ≫= content_events peer) ++ filter is_control evs
}.

Lemma moves_refl cs : moves cs cs [].
Proof.
  split; [by eauto| |]; simpl; by rewrite app_nil_r.
Qed.

Lemma moves_new cs c : moves cs (cs ++ [c]) (content_events peer c).
Proof.
  split.
  - intros i c0 Hi. exists c0. split; [by apply lookup_app_l_Some|done].
  - by rewrite bind_app, bind_singleton.
  - by rewrite bind_app, bind_singleton, filter_app.
Qed.

Lemma moves_extend l c c' r evs :
  grown c c' → content_events peer c' = content_events peer c ++ evs →
  filter is_control evs = [] ∨ Forall (λ c, ¬ is_bcast c) r →
  moves (l ++ c :: r) (l ++ c' :: r) evs.
Proof.
  intros Hg He Hr. split.
  - intros i c0. rewrite !lookup_app. destruct (l !! i); [by eauto|].
    destruct (i - length l)%nat; simpl; [intros [= <-]|]; eauto.
  - rewrite !bind_app, !bind_cons, He. solve_Permutation.
  - rewrite !bind_app, !bind_cons, He, !filter_app, <- !app_assoc. do 2 f_equal.
    destruct Hr as [->|Hr]; [by rewrite app_nil_r|].
    enough (filter is_control (r ≫= content_events peer) = []) as -> by (by rewrite app_nil_r).
    clear -Hr. induction Hr as [|x r Hx Hr IH]; [done|].
    rewrite bind_cons, filter_app, IH, app_nil_r. by destruct x; simpl in Hx.
Qed.
Lemma carries_move msgs c st rep w cs msg c' st' cs' W :
  carries msgs (mkPump c st rep w) cs → moves cs cs' (event_part msg) →
  c' = image <$> cs' → Forall fits cs' →
  (∀ i, (∃ c, cs' !! i = Some c ∧ is_bcast c) ↔ ctrl st' = Some (N.of_nat i)) →
  (∀ ch mid n, sess st' !! (ch, mid) = Some n →
     sess st !! (ch, mid) = Some n ∨ ∃ c, cs' !! N.to_nat n = Some c ∧ is_session ch mid c) →
  W.*2 = option_list (opens msg) → Forall (watch_ok cs') W →
  carries (msgs ++ [msg])
    (mkPump c' st' (rep ++ option_list (MemoryNet.chunk_ack msg)) (w ++ W)) cs'.
Proof.
  intros [Hc Hf Hb Hs Hr He Ho Hw Hwo] [Hg Hev Hor] -> Hf' Hb' Hs' HW HWo. simpl in *.
  assert (∀ n ch mid, (∃ c, cs !! n = Some c ∧ is_session ch mid c) →
    ∃ c, cs' !! n = Some c ∧ is_session ch mid c) as Hkeep.
  { intros n ch mid (x & Hx & Hi). destruct (Hg n x Hx) as (x' & Hx' & _ & Hk).
    exists x'. split; [exact Hx'|]. by apply Hk. }
  split; simpl.
  - reflexivity.
  - exact Hf'.
  - exact Hb'.
  - intros ch mid n Hn. destruct (Hs' _ _ _ Hn) as [Hn'|Hn']; [|exact Hn'].
    apply Hkeep. by apply Hs.
  - by rewrite Hr, omap_app.
  - rewrite Hev, He, filter_app, fmap_app. apply Permutation_app; [done|].
    unfold event_part. rewrite filter_cons, filter_nil. by case_decide.
  - rewrite Hor, Ho, fmap_app, filter_app. f_equal. unfold event_part. simpl.
    case_decide; [done|]. by destruct msg.
  - by rewrite fmap_app, Hw, HW, omap_app.
  - apply Forall_app. split; [|exact HWo]. eapply Forall_impl; [exact Hwo|].
    intros [n [[d ch] mid]]. apply Hkeep.
Qed.

(** A new stream that is not the control stream. *)
Lemma bcast_new cs st x i :
  (∀ i, (∃ c, cs !! i = Some c ∧ is_bcast c) ↔ ctrl st = Some (N.of_nat i)) →
  ¬ is_bcast x →
  (∃ c, (cs ++ [x]) !! i = Some c ∧ is_bcast c) ↔ ctrl st = Some (N.of_nat i).
Proof.
  intros Hb Hx. rewrite <- Hb. split; intros (c & Hc & Hi).
  - apply lookup_app_Some in Hc as [Hc|[_ Hc]]; [by eauto|].
    apply list_lookup_singleton_Some in Hc as [_ <-]. done.
  - exists c. split; [by apply lookup_app_l_Some|done].
Qed.

(** A stream whose content grows. *)
Lemma bcast_extend l c c' r st i :
  (∀ i, (∃ x, (l ++ c :: r) !! i = Some x ∧ is_bcast x) ↔ ctrl st = Some (N.of_nat i)) →
  grown c c' →
  (∃ x, (l ++ c' :: r) !! i = Some x ∧ is_bcast x) ↔ ctrl st = Some (N.of_nat i).
Proof.
  intros Hb [Hg _]. rewrite <- Hb. rewrite !lookup_app.
  destruct (l !! i); [done|]. destruct (i - length l)%nat; [|done]. simpl.
  split; intros (x & [= <-] & Hx); eexists; (split; [reflexivity|]); by apply Hg.
Qed.

Lemma control_carries msgs c st rep w cs msg m :
  carries msgs (mkPump c st rep w) cs → frame_fits (mkBcast (Some m)) →
  write_outbound (C:=list bytes) msg = write_ctrl m → event_part msg = [control_event peer m] →
  MemoryNet.chunk_ack msg = None → opens msg = None →
  ∃ cs', carries (msgs ++ [msg]) (pump_one (mkPump c st rep w) msg) cs'.
Proof.
  intros Hcar Hm Hw He Ha Hop. pose proof Hcar as [Hc Hf Hb Hs _ _ _ _ _]. simpl in *.
  unfold pump_one. rewrite Hw.
  assert (∀ cs' c' st', moves cs cs' [control_event peer m] → c' = image <$> cs' → Forall fits cs' →
    (∀ i, (∃ c, cs' !! i = Some c ∧ is_bcast c) ↔ ctrl st' = Some (N.of_nat i)) →
    sess st' = sess st → carries (msgs ++ [msg]) (mkPump c' st' rep w) cs') as Hmove.
  { intros cs' c' st' Hmv Hc' Hf' Hb' Hs'.
    rewrite <- (app_nil_r rep), <- (app_nil_r w).
    replace ([] : list NetEvent.t) with (option_list (MemoryNet.chunk_ack msg)) by (by rewrite Ha).
    eapply carries_move; [exact Hcar|by rewrite He|exact Hc'|exact Hf'|exact Hb'| |by rewrite Hop|done].
    intros ch mid n. rewrite Hs'. auto. }
  destruct (ctrl st) as [n|] eqn:Hn.
  - rewrite write_ctrl_next with (n := n) by assumption.
    destruct (proj2 (Hb (N.to_nat n)) ltac:(by rewrite N2Nat.id)) as (x & Hx & Hi).
    destruct x as [ms| |]; [|done..].
    destruct (list_elem_of_split_length _ _ _ Hx) as (l & r & -> & Hl).
    exists (l ++ Control (ms ++ [m]) :: r). rewrite Forall_app, Forall_cons in Hf.
    destruct Hf as (Hf1 & Hf2 & Hf3). apply Hmove.
    + apply moves_extend; [by split|simpl; by rewrite fmap_app|]. right.
      apply Forall_lookup. intros i y Hy Hiy.
      assert (∃ x, (l ++ Control ms :: r) !! (length l + S i)%nat = Some x ∧ is_bcast x) as Hex.
      { exists y. split; [|exact Hiy]. by rewrite lookup_app_r, Nat.add_comm, Nat.add_sub by lia. }
      apply Hb in Hex. injection Hex as Hex. lia.
    + rewrite Hc, Hl, !fmap_app, !fmap_cons, <- (length_fmap image l), alter_middle.
      simpl. by rewrite bind_app, bind_singleton.
    + rewrite Forall_app, Forall_cons. split_and!; [exact Hf1| |exact Hf3].
      apply Forall_app. split; [exact Hf2|]. by constructor.
    + intros i. apply (bcast_extend l (Control ms) _ r st); [|by split]. by rewrite Hn.
    + reflexivity.
  - rewrite write_ctrl_first by assumption. exists (cs ++ [Control [m]]). apply Hmove.
    + apply (moves_new cs (Control [m])).
    + by rewrite Hc, fmap_app.
    + apply Forall_app. split; [exact Hf|]. constructor; [|constructor]. simpl. by constructor.
    + intros i. simpl. rewrite Hc, length_fmap. split.
      * intros (x & Hx & Hi). apply lookup_app_Some in Hx as [Hx|[Hge Hx]].
        { by pose proof (proj1 (Hb i) (ex_intro _ x (conj Hx Hi))). }
        apply list_lookup_singleton_Some in Hx as [Hx _]. f_equal. f_equal. lia.
      * intros [= Hi]. apply Nat2N.inj in Hi as <-. exists (Control [m]).
        by rewrite lookup_app_r, Nat.sub_diag by lia.
    + reflexivity.
Qed.
Lemma session_open_carries msgs c st rep w cs d ch mid pre init :
  carries msgs (mkPump c st rep w) cs → fits (SessionOf ch mid pre init []) →
  ∃ cs', carries (msgs ++ [SendSessionOpen d ch mid pre init])
    (pump_one (mkPump c st rep w) (SendSessionOpen d ch mid pre init)) cs'.
Proof.
  intros Hcar Hfit. pose proof Hcar as [Hc Hf Hb _ _ _ _ _ _]. simpl in Hc, Hb.
  unfold pump_one. rewrite session_open_all by exact Hfit.
  exists (cs ++ [SessionOf ch mid pre init []]). rewrite <- (app_nil_r rep).
  assert (∃ x, (cs ++ [SessionOf ch mid pre init []]) !! N.to_nat (N.of_nat (length c)) = Some x ∧
    is_session ch mid x) as Hnew.
  { eexists. rewrite Hc, length_fmap, Nat2N.id, lookup_app_r, Nat.sub_diag by lia. by split. }
  apply (carries_move _ _ _ _ _ _ (SendSessionOpen d ch mid pre init) _ _ _ _ Hcar).
  - apply (moves_new cs (SessionOf ch mid pre init [])).
  - by rewrite Hc, fmap_app.
  - apply Forall_app. split; [exact Hf|]. constructor; [exact Hfit|constructor].
  - intros i. apply (bcast_new _ st); [exact Hb|intros []].
  - intros ch' mid' n. simpl. rewrite lookup_insert_Some.
    intros [[[= <- <-] <-]|[_ Hn]]; [by right|by left].
  - reflexivity.
  - by constructor.
Qed.

Lemma update_carries msgs c st rep w cs d ch mid pl :
  carries msgs (mkPump c st rep w) cs → frame_fits (mkSess (Some (SessUpdate pl))) →
  ∃ cs', carries (msgs ++ [SendRoutingUpdate d ch mid pl])
    (pump_one (mkPump c st rep w) (SendRoutingUpdate d ch mid pl)) cs'.
Proof.
  intros Hcar Hfit. pose proof Hcar as [Hc Hf Hb Hs _ _ _ _ _]. simpl in Hc, Hb, Hs.
  unfold pump_one, write_outbound. simpl.
  assert (∀ cs' c', moves cs cs' [] → c' = image <$> cs' → Forall fits cs' →
    (∀ i, (∃ c, cs' !! i = Some c ∧ is_bcast c) ↔ ctrl st = Some (N.of_nat i)) →
    carries (msgs ++ [SendRoutingUpdate d ch mid pl]) (mkPump c' st rep w) cs') as Hmove.
  { intros cs' c' Hmv Hc' Hf' Hb'. rewrite <- (app_nil_r rep), <- (app_nil_r w).
    apply (carries_move _ _ _ _ _ _ (SendRoutingUpdate d ch mid pl) _ _ _ _ Hcar);
      [exact Hmv|exact Hc'|exact Hf'|exact Hb'|by auto|reflexivity|constructor]. }
  destruct (sess st !! (ch, mid)) as [n|] eqn:Hn.
  - unfold on_stream, on_conn. simpl. rewrite write_framed_stream by exact Hfit.
    destruct (Hs _ _ _ Hn) as (x & Hx & Hi). destruct x as [|ch' mid' pre init us|]; [done| |done].
    destruct (list_elem_of_split_length _ _ _ Hx) as (l & r & -> & Hl).
    exists (l ++ SessionOf ch' mid' pre init (us ++ [pl]) :: r).
    rewrite Forall_app, Forall_cons in Hf. destruct Hf as (Hf1 & [Hf2 Hf2'] & Hf3). apply Hmove.
    + apply moves_extend; [by split|by simpl|by left].
    + rewrite Hc, Hl, !fmap_app, !fmap_cons, <- (length_fmap image l), alter_middle.
      simpl. by rewrite bind_app, bind_singleton, <- app_assoc.
    + rewrite Forall_app, Forall_cons. split; [exact Hf1|]. split; [|exact Hf3].
      split; [exact Hf2|]. apply Forall_app. split; [exact Hf2'|]. by constructor.
    + intros i. by apply (bcast_extend l (SessionOf ch' mid' pre init us) _ r st).
  - exists cs. apply Hmove; [apply moves_refl|exact Hc|exact Hf|exact Hb].
Qed.

Lemma chunk_carries msgs c st rep w cs d ch mid id pl token :
  carries msgs (mkPump c st rep w) cs → fits (ChunkOf ch mid id pl) →
  ∃ cs', carries (msgs ++ [SendChunk d ch mid id pl token])
    (pump_one (mkPump c st rep w) (SendChunk d ch mid id pl token)) cs'.
Proof.
  intros Hcar Hfit. pose proof Hcar as [Hc Hf Hb _ _ _ _ _ _]. simpl in Hc, Hb.
  unfold pump_one, write_outbound. rewrite send_chunk_all by exact Hfit. simpl.
  exists (cs ++ [ChunkOf ch mid id pl]). unfold report. simpl. rewrite <- (app_nil_r w).
  apply (carries_move _ _ _ _ _ _ (SendChunk d ch mid id pl token) _ _ _ _ Hcar).
  - apply (moves_new cs (ChunkOf ch mid id pl)).
  - by rewrite Hc, fmap_app.
  - apply Forall_app. split; [exact Hf|]. constructor; [exact Hfit|constructor].
  - intros i. apply (bcast_new _ st); [exact Hb|intros []].
  - by auto.
  - reflexivity.
  - constructor.
Qed.

Lemma pump_one_carries msgs p cs msg :
  carries msgs p cs → sendable msg → ∃ cs', carries (msgs ++ [msg]) (pump_one p msg) cs'.
Proof.
  destruct p as [c st rep w]. intros Hcar Hs. destruct msg; simpl in Hs.
  - by eapply control_carries.
  - by eapply control_carries.
  - by eapply control_carries.
  - by apply session_open_carries with cs.
  - by apply update_carries with cs.
  - by apply chunk_carries with cs.
  - exists cs. unfold pump_one. simpl. rewrite <- (app_nil_r rep), <- (app_nil_r w).
    pose proof Hcar as [Hc Hf Hb _ _ _ _ _ _].
    apply (carries_move _ _ _ _ _ _ (SendSessionReconstructed channel message_id) _ _ _ _ Hcar);
      [apply moves_refl|exact Hc|exact Hf|exact Hb|by auto|reflexivity|constructor].
Qed.

(** Control events come from the BCAST stream. *)
Lemma control_bcast c : filter is_control (content_events peer c) ≠ [] → is_bcast c.
Proof. by destruct c. Qed.

(** A pin that the sent handshakes honour is honoured by the contents. *)
Lemma pin_kept_of msgs expected cs i c :
  (∀ x d version channels peer_id, expected = Some x →
     SendHandshake d version channels peer_id ∈ msgs → peer_id = x) →
  cs ≫= content_events peer ≡ₚ MemoryNet.event_of peer <$> filter carried msgs →
  cs !! i = Some c → pin_kept expected c.
Proof.
  intros Hpin He Hi. destruct c as [ms| |]; [|exact I..]. apply Forall_forall. intros m Hm.
  unfold keeps_pin, mismatch. destruct expected as [x|]; [|reflexivity].
  destruct m as [version channels peer_id| |]; [|reflexivity..]. simpl.
  apply bool_decide_eq_false. intros Hne. apply Hne.
  assert (NetEvent.Handshake peer version channels peer_id ∈ cs ≫= content_events peer) as Hin.
  { apply list_elem_of_bind. exists (Control ms). split; [|by eapply list_elem_of_lookup_2].
    apply (list_elem_of_fmap_2' _ _ (PeerHandshake version channels peer_id)); done. }
  rewrite He in Hin. apply list_elem_of_fmap in Hin as (msg & Hev & Hmsg).
  apply list_elem_of_filter in Hmsg as [_ Hmsg].
  destruct msg; simplify_eq/=. by eapply Hpin.
Qed.

Lemma peer_pump_carries msgs :
  Forall sendable msgs → ∃ cs, carries msgs (peer_pump [] msgs) cs.
Proof.
  unfold peer_pump. induction msgs as [|msg msgs IH] using rev_ind; intros Hs.
  - exists []. split; try done. intros i. split; [|discriminate].
    intros (x & Hx & _). by rewrite lookup_nil in Hx.
  - apply Forall_app in Hs as [Hs Hm]. rewrite Forall_singleton in Hm.
    destruct (IH Hs) as [cs Hcar]. rewrite foldl_app.
    apply (pump_one_carries _ _ cs); [exact Hcar|exact Hm].
Qed.

(** What the readers at the other end make of the streams of a pump. *)
Lemma pump_reads msgs expected :
  Forall sendable msgs →
  (∀ x d version channels peer_id, expected = Some x →
     SendHandshake d version channels peer_id ∈ msgs → peer_id = x) →
  ∃ cs, carries msgs (peer_pump [] msgs) cs ∧
    (λ bs, read_stream peer true [] expected (mkRecv bs None)) <$> conn (peer_pump [] msgs) =
      (λ c, mkOut (content_events peer c) None (Ok ())) <$> cs ∧
    (((λ c, mkOut (content_events peer c) None (Ok ())) <$> cs) ≫= events) =
      cs ≫= content_events peer.
Proof.
  intros Hs Hpin. destruct (peer_pump_carries msgs Hs) as [cs Hcar].
  exists cs. split; [done|]. destruct Hcar as [Hc Hf _ _ _ He _ _ _]. rewrite Hc. split.
  - rewrite <- list_fmap_compose. apply list_fmap_ext. intros i c Hi. simpl.
    apply read_stream_image; [by eapply (Forall_lookup_1 _ _ _ _ Hf)|].
    eapply pin_kept_of; [exact Hpin| |exact Hi]. by rewrite He.
  - clear. induction cs as [|c cs IH]; [reflexivity|].
    by rewrite fmap_cons, !bind_cons, IH.
Qed.

(** C21: what a pump writes on its streams, the reader at the other end turns into
    the events that the in-memory network would have delivered: for any
    messages that fit their frames, over a connection that takes everything, no
    stream is refused, the events of all streams are a permutation of the
    messages' events (routing updates are read and not reported), the control
    messages come on one stream, in the order in which they were sent, and every
    chunk is acknowledged once, in order.  A peer that is pinned to its identity
    is not cut off.  Each opened session has one watcher, on the stream that
    carries its [Open]. *)
Theorem pump_refines_memory_net msgs expected :
  Forall sendable msgs →
  (∀ x d version channels peer_id, expected = Some x →
     SendHandshake d version channels peer_id ∈ msgs → peer_id = x) →
  let p := peer_pump [] msgs in
  let outs := (λ bs, read_stream peer true [] expected (mkRecv bs None)) <$> conn p in
  Forall (λ o, action o = None ∧ res o = Ok ()) outs ∧
  (outs ≫= events) ≡ₚ MemoryNet.event_of peer <$> filter carried msgs ∧
  filter is_control (outs ≫= events) = filter is_control (MemoryNet.event_of peer <$> msgs) ∧
  (∀ i j o o', outs !! i = Some o → outs !! j = Some o' →
     filter is_control (events o) ≠ [] → filter is_control (events o') ≠ [] → i = j) ∧
  reported p = omap MemoryNet.chunk_ack msgs ∧
  (watched p).*2 = omap opens msgs ∧
  (∀ n d ch mid, (n, (d, ch, mid)) ∈ watched p → ∃ o pre init,
     outs !! N.to_nat n = Some o ∧ events o = [NetEvent.SessionOpen peer ch mid pre init]).
Proof.
  intros Hs Hpin. cbv zeta. destruct (pump_reads msgs expected Hs Hpin) as (cs & Hcar & -> & ->).
  destruct Hcar as [_ _ Hb _ Hr He Ho Hw Hwo].
  split; [by apply Forall_fmap, Forall_true|].
  split; [exact He|]. split; [exact Ho|]. split; [|split; [exact Hr|split; [exact Hw|]]].
  { intros i j o o'. rewrite !list_lookup_fmap.
    destruct (cs !! i) as [c|] eqn:Hi, (cs !! j) as [c'|] eqn:Hj; [|done..].
    intros [= <-] [= <-] Hic Hjc. simpl in Hic, Hjc. apply control_bcast in Hic, Hjc.
    pose proof (proj1 (Hb i) (ex_intro _ c (conj Hi Hic))) as H1'.
    rewrite (proj1 (Hb j) (ex_intro _ c' (conj Hj Hjc))) in H1'. injection H1' as H1'. lia. }
  intros n d ch mid Hn. rewrite Forall_forall in Hwo.
  destruct (Hwo _ Hn) as (c & Hl & Hi). destruct c as [|ch' mid' pre init us|]; [done| |done].
  destruct Hi as [-> ->]. eexists _, pre, init. rewrite list_lookup_fmap, Hl. by split.
Qed.
End writing.

(** * After a failed write *)

Create HintDb muted.

Section muted.
Context {C : Type} `{!Quic C}.
Context `{Message BcastFrame, Message SessFrame, Message Header, Message ChunkIdent}.
Context (k : string * string).

(** A routing update of session [k], and an [Open] of it. *)
Definition updates_session (msg : NetSend) : Prop :=
  match msg with
  | SendRoutingUpdate _ channel message_id _ => (channel, message_id) = k
  | _ => False
  end.
#[export] Instance updates_session_dec msg : Decision (updates_session msg).
Proof. destruct msg; simpl; apply _. Defined.

Definition opens_session (msg : NetSend) : Prop :=
  match msg with
  | SendSessionOpen _ channel message_id _ _ => (channel, message_id) = k
  | _ => False
  end.

(** An operation that leaves the table of SESS streams alone at [k]. *)
Definition keeps_muted {A} (f : SM (Pump C) ErrorKind A) : Prop :=
  ∀ p, sess (streams p) !! k = None → sess (streams (snd (f p))) !! k = None.

Lemma keeps_muted_ret {A} (a : A) : keeps_muted (mret a).
Proof. by intros p. Qed.

Lemma keeps_muted_conn {A} (f : SM C ErrorKind A) : keeps_muted (on_conn f).
Proof. intros p Hp. unfold on_conn. by destruct (f (conn p)). Qed.

Lemma keeps_muted_bind {A B} (f : SM (Pump C) ErrorKind A) (g : A → SM (Pump C) ErrorKind B) :
  keeps_muted f → (∀ a, keeps_muted (g a)) → keeps_muted (f ≫= g).
Proof.
  intros Hf Hg p Hp. unfold mbind, SM_bind. specialize (Hf p Hp).
  destruct (f p) as [[a|e] p']; [by apply Hg|exact Hf].
Qed.

Lemma keeps_muted_modify (f : Pump C → Pump C) :
  (∀ p, sess (streams p) !! k = None → sess (streams (f p)) !! k = None) →
  keeps_muted (modify f).
Proof. intros Hf p Hp. by apply Hf. Qed.

#[local] Hint Resolve keeps_muted_ret keeps_muted_conn keeps_muted_bind keeps_muted_modify : muted.

Lemma keeps_muted_ctrl m : keeps_muted (write_ctrl m).
Proof.
  apply keeps_muted_bind; [|intros stream; apply keeps_muted_conn].
  intros p Hp. unfold ensure_ctrl. destruct (ctrl (streams p)); [exact Hp|]. revert p Hp.
  change (keeps_muted (on_conn open_uni ≫= λ stream,
    on_stream (λ W _, open_stream Bcast) stream ≫= λ _,
    modify (λ p, set_streams (mkStreams (Some stream) (sess (streams p))) p) ≫= λ _,
    mret stream)).
  unfold on_stream. auto 10 with muted.
Qed.

Lemma keeps_muted_chunk channel message_id chunk_id payload :
  keeps_muted (send_chunk channel message_id chunk_id payload).
Proof. unfold send_chunk, on_stream. auto 10 with muted. Qed.

Lemma write_outbound_muted msg : ¬ opens_session msg → keeps_muted (write_outbound msg).
Proof.
  intros Ho. destruct msg; simpl; try apply keeps_muted_ctrl.
  - unfold on_stream. do 4 (apply keeps_muted_bind; [auto with muted|intros ?]).
    apply keeps_muted_modify. intros p Hp. simpl. rewrite lookup_insert_ne; [exact Hp|exact Ho].
  - intros p Hp. destruct (sess (streams p) !! (channel, message_id));
      [by apply keeps_muted_conn|exact Hp].
  - intros p Hp. pose proof (keeps_muted_chunk channel message_id chunk_id payload p Hp) as Hk.
    by destruct (send_chunk _ _ _ _ _).
  - apply keeps_muted_ret.
Qed.

(** C40: a write that fails forgets every stream of the peer, and a SESS stream
    is never reopened: until the session's next [Open], which the engine does
    not send twice, its routing updates go nowhere, on whatever connection and
    whatever else is sent.  Receivers that reconstruct stop their SESS stream,
    so one such stop silences the peer's other sessions too. *)
Theorem failed_write_mutes_sessions (p : Pump C) msg e msgs :
  fst (write_outbound msg p) = Err e → Forall (λ m, ¬ opens_session m) msgs →
  foldl pump_one (pump_one p msg) msgs =
  foldl pump_one (pump_one p msg) (filter (λ m, ¬ updates_session m) msgs).
Proof.
  intros He Hm. assert (sess (streams (pump_one p msg)) !! k = None) as Hp.
  { unfold pump_one. destruct (write_outbound msg p) as [[?|?] ?]; simplify_eq/=.
    apply lookup_empty. }
  clear He. revert Hp. generalize (pump_one p msg) as q.
  induction Hm as [|m msgs Ho Hm IH]; intros q Hq; [reflexivity|].
  assert (sess (streams (pump_one q m)) !! k = None) as Hq'.
  { pose proof (write_outbound_muted m Ho q Hq) as Hw. unfold pump_one.
    destruct (write_outbound m q) as [[?|?] ?]; [exact Hw|apply lookup_empty]. }
  destruct (decide (updates_session m)) as [Hu|Hu];
    [rewrite filter_cons_False by tauto|rewrite filter_cons_True by exact Hu; by apply IH].
  destruct m; simpl in Hu; try done.
  rewrite <- IH by exact Hq. simpl. f_equal. unfold pump_one, write_outbound.
  by rewrite Hu, Hq.
Qed.
End muted.

(** * A concrete codec and a run *)

#[local] Transparent frame.

#[export] Instance BcastMessage_eq_dec : EqDecision BcastMessage.
Proof. solve_decision. Defined.
#[export] Instance BcastFrame_eq_dec : EqDecision BcastFrame.
Proof. solve_decision. Defined.
#[export] Instance SessMessage_eq_dec : EqDecision SessMessage.
Proof. solve_decision. Defined.
#[export] Instance SessFrame_eq_dec : EqDecision SessFrame.
Proof. solve_decision. Defined.

#[export] Instance BcastFrame_countable : Countable BcastFrame.
Proof.
  apply (inj_countable'
    (λ f, match b_message f with
          | None => None
          | Some (PeerHandshake v cs id) => Some (inl (v, cs, id))
          | Some (ChannelSubscribe c) => Some (inr (inl c))
          | Some (ChannelUnsubscribe c) => Some (inr (inr c))
          end)
    (λ o : option (N * list string * string + (string + string)),
       mkBcast match o with
               | None => None
               | Some (inl (v, cs, id)) => Some (PeerHandshake v cs id)
               | Some (inr (inl c)) => Some (ChannelSubscribe c)
               | Some (inr (inr c)) => Some (ChannelUnsubscribe c)
               end)).
  by intros [[[]|]].
Defined.

#[export] Instance SessFrame_countable : Countable SessFrame.
Proof.
  apply (inj_countable'
    (λ f, match s_frame f with
          | None => None
          | Some (SessOpen c m pre init) => Some (inl (c, m, pre, init))
          | Some (SessUpdate u) => Some (inr u)
          end)
    (λ o : option (string * string * bytes * bytes + bytes),
       mkSess match o with
              | None => None
              | Some (inl (c, m, pre, init)) => Some (SessOpen c m pre init)
              | Some (inr u) => Some (SessUpdate u)
              end)).
  by intros [[[]|]].
Defined.

(** An index as the four bytes of its two's complement. *)
Definition Message_ident : Message ChunkIdent := {|
  encoded_len _ := 4%nat;
  encode_to_vec i := to_le_bytes 4 (Z.to_N (index i mod 2 ^ 32));
  decode_msg bs :=
    if decide (length bs = 4%nat) then
      let n := Z.of_N (from_le_bytes bs) in
      Some (mkIdent (if decide (n ≤ I32_MAX)%Z then n else n - 2 ^ 32)%Z)
    else None;
  decode_error_text _ := "not four bytes"
|}.

Lemma ChunkIdentLaws_ident : @ChunkIdentLaws Message_ident.
Proof.
  split; cbn [decode_msg encode_to_vec Message_ident index].
  - intros bs ident. case_decide as Hl; [|discriminate]. intros [= <-]. simpl.
    pose proof (from_le_bytes_bound bs) as Hb. rewrite Hl in Hb.
    change (256 ^ N.of_nat 4) with (2 ^ 32) in Hb. case_decide; lia.
  - intros i Hi. pose proof (Z.mod_pos_bound i (2 ^ 32) ltac:(lia)).
    rewrite decide_True by apply length_to_le_bytes. cbv zeta.
    rewrite from_to_le_bytes. change (256 ^ N.of_nat 4) with (2 ^ 32).
    rewrite N.mod_small, Z2N.id by lia. do 2 f_equal. destruct (decide (0 ≤ i)%Z).
    + rewrite Z.mod_small by lia. by rewrite decide_True by lia.
    + replace (i mod 2 ^ 32)%Z with (i + 2 ^ 32)%Z; [rewrite decide_False by lia; lia|].
      rewrite <- (Z_mod_plus_full i 1), Z.mod_small; lia.
Qed.

Module TransportExample.
#[local] Existing Instance Message_ident.
#[local] Existing Instance ChunkIdentLaws_ident.
#[local] Instance bcast_msg : Message BcastFrame := Message_countable BcastFrame.
#[local] Instance sess_msg : Message SessFrame := Message_countable SessFrame.
#[local] Instance header_msg : Message Header := Message_countable Header.
#[local] Instance bcast_laws : MessageLaws BcastFrame := MessageLaws_countable BcastFrame.
#[local] Instance sess_laws : MessageLaws SessFrame := MessageLaws_countable SessFrame.
#[local] Instance header_laws : MessageLaws Header := MessageLaws_countable Header.

Definition sends : list NetSend :=
  [SendHandshake 7 1 ["c"%string] "a"; SendSessionOpen 7 "c" "m" [Byte.x01] [];
   SendChunk 7 "c" "m" 2 [Byte.x41; Byte.x42] 5; SendRoutingUpdate 7 "c" "m" [Byte.x07];
   SendSubscribe 7 "d"].

(** The streams of the run, read at the other end by the peer numbered 3. *)
Example sends_read :
  events <$> ((λ bs, read_stream 3 true [] (Some "a"%string) (mkRecv bs None)) <$>
    conn (peer_pump [] sends)) =
  [[NetEvent.Handshake 3 1 ["c"%string] "a"; NetEvent.Subscribe 3 "d"];
   [NetEvent.SessionOpen 3 "c" "m" [Byte.x01] []];
   [NetEvent.Chunk 3 "c" "m" 2 [Byte.x41; Byte.x42]]].
Proof. vm_compute. reflexivity. Qed.

(** A peer that asserts another identity than the pinned one is cut off before
    its handshake is reported. *)
Example impostor_cut_off :
  events <$> ((λ bs, read_stream 3 true [] (Some "b"%string) (mkRecv bs None)) <$>
    take 1 (conn (peer_pump [] sends))) = [[]] ∧
  action <$> ((λ bs, read_stream 3 true [] (Some "b"%string) (mkRecv bs None)) <$>
    take 1 (conn (peer_pump [] sends))) = [Some (CloseConnection PEER_ID_MISMATCH_CLOSE)].
Proof. vm_compute. split; reflexivity. Qed.

Lemma pump_refines_memory_net_witness :
  let p := peer_pump [] sends in
  let outs := (λ bs, read_stream 3 true [] (Some "a"%string) (mkRecv bs None)) <$> conn p in
  Forall (λ o, action o = None ∧ res o = Ok ()) outs ∧
  (outs ≫= events) ≡ₚ MemoryNet.event_of 3 <$> filter carried sends ∧
  filter is_control (outs ≫= events) = filter is_control (MemoryNet.event_of 3 <$> sends) ∧
  (∀ i j o o', outs !! i = Some o → outs !! j = Some o' →
     filter is_control (events o) ≠ [] → filter is_control (events o') ≠ [] → i = j) ∧
  reported p = omap MemoryNet.chunk_ack sends ∧
  (watched p).*2 = omap opens sends ∧
  (∀ n d ch mid, (n, (d, ch, mid)) ∈ watched p → ∃ o pre init,
     outs !! N.to_nat n = Some o ∧ events o = [NetEvent.SessionOpen 3 ch mid pre init]).
Proof.
  apply (pump_refines_memory_net 3 sends (Some "a"%string)).
  - repeat constructor; vm_compute; discriminate.
  - intros x d v cs id [= <-] Hin. unfold sends in Hin.
    rewrite !elem_of_cons, elem_of_nil in Hin. by destruct_or? Hin; simplify_eq.
Defined.

(** A receiver that has stopped the stream it is asked about. *)
Definition stopped : Quic unit := {|
  open_uni := λ c, (Ok 0, c);
  write_stream _ _ := λ c, (Err (OtherKind 1), c);
  finish_stream _ := λ c, (Ok (), c)
|}.

Lemma failed_write_mutes_sessions_witness :
  let p := mkPump () (mkStreams (Some 0) {[("c", "m")%string := 1; ("c", "n")%string := 2]}) [] [] in
  let msg := SendRoutingUpdate 7 "c" "m" [] in
  let msgs := [SendRoutingUpdate 7 "c" "n" []; SendSubscribe 7 "d"; SendRoutingUpdate 7 "c" "n" []] in
  fst (@write_outbound _ stopped _ _ _ _ msg p) = Err (OtherKind 1) ∧
  foldl (@pump_one _ stopped _ _ _ _) (@pump_one _ stopped _ _ _ _ p msg) msgs =
  foldl (@pump_one _ stopped _ _ _ _) (@pump_one _ stopped _ _ _ _ p msg) [SendSubscribe 7 "d"].
Proof.
  split; [vm_compute; reflexivity|].
  apply (@failed_write_mutes_sessions _ stopped _ _ _ _ ("c", "n")%string _ _ (OtherKind 1)).
  - vm_compute. reflexivity.
  - repeat constructor; simpl; tauto.
Defined.
End TransportExample.
