(* ===== verification/QuicReset.v ===== *)
(** The reconstruct reset of the QUIC transport, [ResetState] of
    [ethp2p-transport/src/lib.rs]: the bounded tracker of reconstructed sessions
    and the wait of an inbound SESS reader for its session.

    The tracker is behind a mutex, so each access to it is one step.  The wake-ups
    go through [tokio::sync::Notify], which is the parameter [Notify]. *)
From Stdlib Require Import NArith Lia.
From stdpp Require Import base gmap strings list.
From S2P Require Import Prelude.

Open Scope N_scope.

(** * The tracker *)

Definition MAX_RECONSTRUCTED_TRACKED : N := 8192.

Abbreviation Key := (string * string)%type (only parsing).

(** [ReconstructedTracker]. *)
Record ReconstructedTracker := mkTracker {
  set : gset Key;
  order : list Key
}.
Definition ReconstructedTracker_default : ReconstructedTracker := mkTracker ∅ [].

Section tracker.
(** The bound, [MAX_RECONSTRUCTED_TRACKED] in the code. *)
Context (cap : N).

(** The eviction loop of [record]. *)
Fixpoint evict (s : gset Key) (o : list Key) : ReconstructedTracker :=
  match o with
  | [] => mkTracker s []
  | old :: rest =>
      if decide (cap < N.of_nat (length o)) then evict (s ∖ {[old]}) rest
      else mkTracker s o
  end.

(** [record], up to the wake-up. *)
Definition record (key : Key) (t : ReconstructedTracker) : ReconstructedTracker :=
  if decide (key ∈ set t) then t
  else evict ({[key]} ∪ set t) (order t ++ [key]).

Definition is_reconstructed (key : Key) (t : ReconstructedTracker) : bool :=
  bool_decide (key ∈ set t).

(** What keeps the tracker together. *)
Record tracker_ok (t : ReconstructedTracker) : Prop := {
  ok_set : set t = list_to_set (order t);
  ok_nodup : NoDup (order t);
  ok_bound : N.of_nat (length (order t)) ≤ cap
}.

(** How many keys the loop drops. *)
Definition excess (o : list Key) : nat := length o - N.to_nat cap.

Lemma evict_spec s o :
  s = list_to_set o → NoDup o →
  evict s o = mkTracker (list_to_set (drop (excess o) o)) (drop (excess o) o).
Proof.
  intros -> Hnd. induction Hnd as [|old rest Hold Hnd IH]; [reflexivity|].
  unfold excess in *. cbn [evict]. case_decide as Hc.
  - rewrite list_to_set_cons.
    replace (({[old]} ∪ list_to_set rest) ∖ {[old]} : gset Key)
      with (list_to_set rest : gset Key) by set_solver.
    rewrite IH. cbn [length].
    by replace (S (length rest) - N.to_nat cap)%nat with (S (length rest - N.to_nat cap))
      by (simpl in Hc; lia).
  - replace (length (old :: rest) - N.to_nat cap)%nat with 0%nat by lia. reflexivity.
Qed.

(** Recording: a key that is there changes nothing; a new one comes last, and the
    oldest key makes room for it. *)
Lemma record_order key t :
  tracker_ok t →
  order (record key t) =
    (if decide (key ∈ order t) then order t
     else drop (excess (order t ++ [key])) (order t ++ [key])) ∧
  tracker_ok (record key t).
Proof.
  intros Hok. pose proof Hok as [Hs Hnd Hb].
  assert (key ∈ set t ↔ key ∈ order t) as Hin by (rewrite Hs; apply elem_of_list_to_set).
  unfold record. destruct (decide (key ∈ set t)) as [Hk|Hk].
  { by rewrite decide_True by tauto. }
  rewrite decide_False by tauto.
  assert (NoDup (order t ++ [key])) as Hnd'.
  { apply NoDup_app. split; [exact Hnd|]. split; [|apply NoDup_singleton].
    intros x Hx Hx'. apply list_elem_of_singleton in Hx'. subst x. tauto. }
  rewrite evict_spec; [|rewrite list_to_set_app_L, Hs; set_solver|exact Hnd'].
  simpl. split; [reflexivity|]. split; simpl.
  - reflexivity.
  - eapply sublist_NoDup; [exact Hnd'|apply sublist_drop].
  - rewrite length_drop. unfold excess. lia.
Qed.

Lemma record_tracked key t : 0 < cap → tracker_ok t → key ∈ order (record key t).
Proof.
  intros Hcap Hok. destruct (record_order key t Hok) as [-> _].
  case_decide as Hk; [exact Hk|]. pose proof (ok_bound t Hok).
  unfold excess. rewrite length_app. simpl.
  rewrite drop_app_le by lia. apply elem_of_app. right. by apply list_elem_of_singleton.
Qed.

(** The sessions recorded, the tracker after them. *)
Definition records (ks : list Key) (t : ReconstructedTracker) : ReconstructedTracker :=
  foldl (λ t k, record k t) t ks.

Lemma tracker_ok_default : tracker_ok ReconstructedTracker_default.
Proof. split; simpl; [reflexivity|constructor|lia]. Qed.

Lemma records_ok ks t : tracker_ok t → tracker_ok (records ks t).
Proof.
  revert t. induction ks as [|k ks IH]; intros t Hok; [exact Hok|].
  apply IH, (record_order k t Hok).
Qed.

(** A key stands behind at least as many others as there is room for, less one
    for each key recorded after it. *)
Lemma records_keep key ks t n :
  tracker_ok t → (n + length ks < N.to_nat cap)%nat →
  (∃ l r, order t = l ++ key :: r ∧ (length r ≤ n)%nat) →
  key ∈ order (records ks t).
Proof.
  revert t n. induction ks as [|k ks IH]; intros t n Hok Hn (l & r & Ho & Hr).
  { simpl. rewrite Ho. apply elem_of_app. right. left. }
  simpl in Hn |- *. destruct (record_order k t Hok) as [Ho' Hok'].
  apply (IH _ (S n)); [exact Hok'|lia|]. rewrite Ho'. case_decide as Hk.
  { exists l, r. split; [exact Ho|lia]. }
  rewrite Ho. pose proof (ok_bound t Hok) as Hb. rewrite Ho, length_app in Hb. simpl in Hb.
  unfold excess. rewrite <- app_assoc, length_app. simpl.
  rewrite length_app. simpl. rewrite drop_app_le by lia.
  eexists _, (r ++ [k]). split; [reflexivity|]. rewrite length_app. simpl. lia.
Qed.
End tracker.

(** * The wait *)

(** [tokio::sync::Notify]: creating and enabling a [Notified] future, waking the
    ones that are enabled, and whether one has been woken. *)
Class Notify (NT W : Type) := {
  enable : NT → W * NT;
  notify_waiters : NT → NT;
  is_notified : NT → W → bool
}.

(** Documented behaviour of [Notify]: a future that was enabled stays registered
    until it is woken, and [notify_waiters] wakes every registered one. *)
Class NotifyLaws (NT W : Type) `{Notify NT W} := {
  registered : NT → W → Prop;
  enable_registers n w n' : enable n = (w, n') → registered n' w;
  enable_keeps n w n' w' : enable n = (w, n') → registered n w' → registered n' w';
  enable_notified n w n' w' :
    enable n = (w, n') → is_notified n w' = true → is_notified n' w' = true;
  notify_keeps n w : registered n w → registered (notify_waiters n) w;
  notify_wakes n w : registered n w → is_notified (notify_waiters n) w = true
}.

(** Where a reader is in the loop of [wait_reconstructed]. *)
Inductive Waiter (W : Type) :=
  | Looping
  | Enabled (w : W)
  | Awaiting (w : W)
  | Resolved.
Arguments Looping {W}.
Arguments Enabled {W} w.
Arguments Awaiting {W} w.
Arguments Resolved {W}.

(** [ResetState], a reader that waits for a key, and how many calls of [record]
    are between the mutex and the wake-up. *)
Record ResetState (NT W : Type) := mkReset {
  reconstructed : ReconstructedTracker;
  notify : NT;
  waiter : Waiter W;
  pending : nat
}.
Arguments mkReset {NT W} reconstructed notify waiter pending.
Arguments reconstructed {NT W} _.
Arguments notify {NT W} _.
Arguments waiter {NT W} _.
Arguments pending {NT W} _.

Section wait.
Context (cap : N) {NT W : Type} `{NotifyLaws NT W}.
Context (key : Key).

(** A step of the reader; [None] when it cannot go on: it has returned, or it
    awaits a future that has not been woken. *)
Definition wait_step (r : ResetState NT W) : option (ResetState NT W) :=
  match waiter r with
  | Looping =>
      let '(w, n) := enable (notify r) in
      Some (mkReset (reconstructed r) n (Enabled w) (pending r))
  | Enabled w =>
      Some (mkReset (reconstructed r) (notify r)
        (if is_reconstructed key (reconstructed r) then Resolved else Awaiting w) (pending r))
  | Awaiting w =>
      if is_notified (notify r) w
      then Some (mkReset (reconstructed r) (notify r) Looping (pending r))
      else None
  | Resolved => None
  end.

(** Steps of anything: the reader, another reader's [enable], and the two halves
    of a [record]. *)
Inductive step (r : ResetState NT W) : ResetState NT W → Prop :=
  | step_reader r' : wait_step r = Some r' → step r r'
  | step_other w n : enable (notify r) = (w, n) →
      step r (mkReset (reconstructed r) n (waiter r) (pending r))
  | step_record k :
      step r (mkReset (record cap k (reconstructed r)) (notify r) (waiter r) (S (pending r)))
  | step_notify p : pending r = S p →
      step r (mkReset (reconstructed r) (notify_waiters (notify r)) (waiter r) p).

(** A reader that awaits was enabled; if the key is there it has been woken, or a
    wake-up is under way. *)
Definition awake (r : ResetState NT W) : Prop :=
  tracker_ok cap (reconstructed r) ∧
  match waiter r with
  | Looping | Resolved => True
  | Enabled w => registered (notify r) w
  | Awaiting w =>
      registered (notify r) w ∧
      (is_reconstructed key (reconstructed r) = true →
       is_notified (notify r) w = true ∨ (0 < pending r)%nat)
  end.

Lemma wait_step_awake r r' : awake r → wait_step r = Some r' → awake r'.
Proof.
  unfold awake, wait_step. intros [Hok Hw]. destruct (waiter r) as [|w|w|]; [| | |discriminate].
  - destruct (enable (notify r)) as [w n] eqn:He. intros [= <-]. simpl.
    split; [exact Hok|]. by eapply enable_registers.
  - intros [= <-]. simpl. split; [exact Hok|].
    destruct (is_reconstructed key (reconstructed r)) eqn:Hk; [exact I|].
    split; [exact Hw|]. rewrite ?Hk. discriminate.
  - destruct (is_notified (notify r) w); [|discriminate]. intros [= <-]. by split.
Qed.

Lemma step_awake r r' : awake r → step r r' → awake r'.
Proof.
  intros Hr [r'' Hs|w n He|k|p Hp]; [by eapply wait_step_awake|..];
    destruct Hr as [Hok Hw]; unfold awake; simpl.
  - split; [exact Hok|]. destruct (waiter r) as [|w'|w'|]; [exact I| | |exact I].
    + by eapply enable_keeps.
    + destruct Hw as [Hreg Hn]. split; [by eapply enable_keeps|].
      intros Hk. destruct (Hn Hk); [left; by eapply enable_notified|by right].
  - split; [by apply record_order|]. destruct (waiter r) as [|w'|w'|]; [exact I|exact Hw| |exact I].
    split; [apply Hw|]. intros _. right. lia.
  - split; [exact Hok|]. destruct (waiter r) as [|w'|w'|]; [exact I| | |exact I].
    + by apply notify_keeps.
    + destruct Hw as [Hreg _]. split; [by apply notify_keeps|].
      intros _. left. by apply notify_wakes.
Qed.

(** A reader alone, for at most [n] steps. *)
Fixpoint wait_run (n : nat) (r : ResetState NT W) : ResetState NT W :=
  match n with
  | O => r
  | S n => match wait_step r with Some r' => wait_run n r' | None => r end
  end.

Definition initial (n : NT) : ResetState NT W :=
  mkReset ReconstructedTracker_default n Looping 0.

(** C23: no wake-up is lost.  Whatever records, wake-ups and other readers come
    between the steps of a reader that waits for [key], once the key is in the
    tracker and no [record] is half done, the reader returns, within three steps
    of its own; it never sleeps on a future that nobody wakes. *)
Theorem wait_reconstructed_wakes n r :
  rtc step (initial n) r →
  is_reconstructed key (reconstructed r) = true → pending r = 0%nat →
  waiter (wait_run 3 r) = Resolved.
Proof.
  intros Hr Hk Hp. assert (awake r) as [Hok Hw].
  { assert (awake (initial n)) as Hi by (split; [apply tracker_ok_default|exact I]).
    clear Hk Hp. induction Hr as [r|r1 r2 r3 Hs _ IH]; [exact Hi|].
    apply IH. by eapply step_awake. }
  assert (∀ m r, (2 ≤ m)%nat → waiter r = Looping →
    is_reconstructed key (reconstructed r) = true → waiter (wait_run m r) = Resolved) as Hloop.
  { clear. intros [|[|m]] r Hm Hw Hk; [lia..|]. simpl. unfold wait_step. rewrite Hw.
    destruct (enable (notify r)) as [w n]. simpl. rewrite Hk. by destruct m. }
  destruct (waiter r) as [|w|w|] eqn:Hwr.
  - by apply Hloop; [lia|..].
  - simpl. unfold wait_step. rewrite Hwr. simpl. by rewrite Hk.
  - destruct Hw as [_ Hn]. destruct (Hn Hk) as [Hn'|]; [|lia].
    change (waiter (match wait_step r with Some r' => wait_run 2 r' | None => r end) = Resolved).
    unfold wait_step. rewrite Hwr, Hn'. by apply Hloop; [lia|..].
  - simpl. unfold wait_step. by rewrite Hwr.
Qed.
End wait.

(** * Properties of the tracker *)

(** C27: the tracker holds each key once and never more than [cap] of them.  A key
    just recorded is found, and a key recorded for the first time is found until
    at least [cap] more have been recorded.  A key that is recorded again keeps its
    old place, though: if it is the oldest of a full tracker, the next new key
    evicts it. *)
Theorem tracker_fifo cap before key after :
  0 < cap →
  let t := records cap before ReconstructedTracker_default in
  tracker_ok cap t ∧
  is_reconstructed key (record cap key t) = true ∧
  (is_reconstructed key t = false → N.of_nat (length after) < cap →
   is_reconstructed key (records cap after (record cap key t)) = true) ∧
  (∀ rest new, order t = key :: rest → N.of_nat (length (order t)) = cap →
   is_reconstructed new t = false →
   is_reconstructed key (record cap new (record cap key t)) = false).
Proof.
  intros Hcap t. assert (tracker_ok cap t) as Hok by apply records_ok, tracker_ok_default.
  assert (∀ k t, tracker_ok cap t → is_reconstructed k t = bool_decide (k ∈ order t)) as Hin.
  { intros k u Hu. apply bool_decide_ext. rewrite (ok_set _ _ Hu). apply elem_of_list_to_set. }
  destruct (record_order cap key t Hok) as [Ho Hok'].
  split; [exact Hok|]. split.
  { rewrite Hin by exact Hok'. by apply bool_decide_eq_true_2, record_tracked. }
  split.
  - rewrite (Hin key t Hok), (Hin key (records cap after _)) by (by apply records_ok).
    intros Hk Hl. apply bool_decide_eq_false in Hk. apply bool_decide_eq_true_2.
    apply records_keep with (n := 0%nat); [exact Hok'|lia|]. rewrite Ho, decide_False by exact Hk.
    pose proof (ok_bound _ _ Hok). unfold excess. rewrite length_app. simpl.
    rewrite drop_app_le by lia. eexists _, []. split; [reflexivity|simpl; lia].
  - intros rest new Hord Hfull Hnew. rewrite Hin in Hnew by exact Hok.
    apply bool_decide_eq_false in Hnew.
    assert (record cap key t = t) as ->.
    { unfold record. rewrite decide_True; [reflexivity|].
      rewrite (ok_set _ _ Hok), elem_of_list_to_set, Hord. by left. }
    destruct (record_order cap new t Hok) as [Ho' Hok'']. rewrite Hin by exact Hok''.
    apply bool_decide_eq_false. rewrite Ho', decide_False by exact Hnew.
    unfold excess. rewrite length_app, Hord. simpl length.
    rewrite Hord in Hfull. simpl in Hfull.
    replace (S (length rest) + 1 - N.to_nat cap)%nat with 1%nat by lia. simpl.
    pose proof (ok_nodup _ _ Hok) as Hnd. rewrite Hord in Hnd, Hnew.
    apply NoDup_cons in Hnd as [Hnk _]. intros Hke. apply elem_of_app in Hke as [Hke|Hke]; [done|].
    apply list_elem_of_singleton in Hke. subst new. apply Hnew. by left.
Qed.

Lemma tracker_fifo_witness :
  let t := records 2 [("c", "1"); ("c", "2")]%string ReconstructedTracker_default in
  is_reconstructed ("c", "1")%string
    (record 2 ("c", "3")%string (record 2 ("c", "1")%string t)) = false.
Proof.
  apply (tracker_fifo 2 [("c", "1"); ("c", "2")]%string ("c", "1")%string [] ltac:(lia))
    with (rest := [("c", "2")]%string); vm_compute; reflexivity.
Defined.

(** ** Epochs implement [Notify] *)

Module Epochs.
(** The number of calls of [notify_waiters]; a future is the number it saw. *)
#[export] Instance Notify_epoch : Notify nat nat := {
  enable n := (n, n);
  notify_waiters n := S n;
  is_notified n w := (w <? n)%nat
}.

#[export] Instance NotifyLaws_epoch : NotifyLaws nat nat.
Proof.
  unshelve refine {| registered := λ n w : nat, (w ≤ n)%nat |}; simpl.
  - intros n w n' [= <- <-]. lia.
  - intros n w n' w' [= <- <-] Hw. exact Hw.
  - intros n w n' w' [= <- <-] Hw. exact Hw.
  - intros n w Hw. lia.
  - intros n w Hw. apply Nat.ltb_lt. lia.
Defined.

(** The record comes between the check and the await. *)
Lemma wait_reconstructed_wakes_witness :
  waiter (wait_run ("c", "m")%string 3
    (mkReset (record 8 ("c", "m")%string ReconstructedTracker_default) 1%nat (Awaiting 0%nat) 0%nat))
  = Resolved.
Proof.
  apply (wait_reconstructed_wakes 8 ("c", "m")%string 0%nat); [|vm_compute; reflexivity|reflexivity].
  eapply rtc_l. { apply step_reader. simpl. reflexivity. }
  eapply rtc_l. { apply step_reader. simpl. reflexivity. }
  eapply rtc_l. { apply (step_record 8 _ _ ("c", "m")%string). }
  eapply rtc_l. { eapply step_notify. reflexivity. }
  simpl. reflexivity.
Defined.
End Epochs.
