(* ===== verification/QuicNet.v ===== *)
(** The node of the QUIC transport, [QuicNet] of [ethp2p-transport/src/lib.rs]:
    the registry of connected peers, their bounded outbound queues, and the
    queue of events for the engine.

    The tasks of a node share its maps and channels: an accept loop or a caller of
    [dial] registers a connection, one pump per connection takes messages off its
    queue ([Transport.v] says what it does with them), and one reader per
    connection deregisters the peer when the connection is lost.  Every access to
    the shared state is a step, and the steps of the tasks interleave; a connection
    is named by the order in which it got its peer number, and what the endpoint and
    the connections of [quinn] do is the argument of the step.  Only [send], which
    looks up a queue and then puts the message on it, is one step: a removal of the
    peer in between has the effect of one right after. *)
From Stdlib Require Import NArith Lia.
From stdpp Require Import base gmap option strings list.
From S2P Require Import Prelude Wire Runtime QuicReset.

Open Scope N_scope.

Definition PER_PEER_OUTBOUND_QUEUE : nat := 256.

Module QuicNet.

(** The receiving half of a peer's outbound queue. *)
Record Outbound := mkOutbound {
  queued : list NetSend;
  receiving : bool
}.

(** How far the tasks of a connection are: it has a peer number; the peer is in the
    registry; it is announced and its reader runs; the reader has removed it; and
    has reported the loss. *)
Inductive Stage := Numbered | Inserted | Running | Removed | Gone.

#[export] Instance Stage_eq_dec : EqDecision Stage.
Proof. solve_decision. Defined.

Record Conn := mkConn {
  peer : N;
  expected_peer_id : option string;
  stage : Stage
}.

(** [QuicNet], with the halves of the channels that its tasks hold: the events for
    the engine, the outbound queues, and the connections. *)
Record Node := mkNode {
  peer_senders : gmap N nat;
  next_peer_id : N;
  reset : ReconstructedTracker;
  inbound_rx : bool;
  inbound : list NetEvent.t;
  inbound_open : bool;
  outbound : gmap nat Outbound;
  conns : gmap nat Conn;
  next_conn : nat
}.

Definition bind : Node := mkNode ∅ 1 ReconstructedTracker_default true [] true ∅ ∅ 0.

Definition set_peer_senders v (n : Node) : Node :=
  mkNode v (next_peer_id n) (reset n) (inbound_rx n) (inbound n) (inbound_open n)
    (outbound n) (conns n) (next_conn n).
Definition set_reset v (n : Node) : Node :=
  mkNode (peer_senders n) (next_peer_id n) v (inbound_rx n) (inbound n) (inbound_open n)
    (outbound n) (conns n) (next_conn n).
Definition set_inbound v (n : Node) : Node :=
  mkNode (peer_senders n) (next_peer_id n) (reset n) (inbound_rx n) v (inbound_open n)
    (outbound n) (conns n) (next_conn n).
Definition set_outbound v (n : Node) : Node :=
  mkNode (peer_senders n) (next_peer_id n) (reset n) (inbound_rx n) (inbound n) (inbound_open n)
    v (conns n) (next_conn n).
Definition set_conns v (n : Node) : Node :=
  mkNode (peer_senders n) (next_peer_id n) (reset n) (inbound_rx n) (inbound n) (inbound_open n)
    (outbound n) v (next_conn n).

(** [inbound_tx.send], whose failure is ignored: the channel is unbounded and
    loses what is sent when the engine no longer listens. *)
Definition inbound_send (ev : NetEvent.t) (n : Node) : Node :=
  if inbound_open n then set_inbound (inbound n ++ [ev]) n else n.

(** [dest_peer]. *)
Definition dest_peer (msg : NetSend) : option N :=
  match msg with
  | SendHandshake peer _ _ _ | SendSubscribe peer _ | SendUnsubscribe peer _
  | SendSessionOpen peer _ _ _ _ | SendRoutingUpdate peer _ _ _
  | SendChunk peer _ _ _ _ _ => Some peer
  | SendSessionReconstructed _ _ => None
  end.

(** [TrySendError] of a bounded channel. *)
Inductive TrySendError := Full | ChannelClosed.

(** [Sender::try_send] on the queue of connection [c]. *)
Definition try_send (c : nat) (msg : NetSend) (n : Node) : result TrySendError unit * Node :=
  match outbound n !! c with
  | Some (mkOutbound q true) =>
      if decide (length q < PER_PEER_OUTBOUND_QUEUE)%nat
      then (Ok (), set_outbound (<[c := mkOutbound (q ++ [msg]) true]> (outbound n)) n)
      else (Err Full, n)
  | _ => (Err ChannelClosed, n)
  end.

(** [<QuicNet as Net>::send]. *)
Definition send (msg : NetSend) : SM Node NetError unit := λ n,
  match msg with
  | SendSessionReconstructed channel message_id =>
      (Ok (), set_reset (record MAX_RECONSTRUCTED_TRACKED (channel, message_id) (reset n)) n)
  | _ =>
      match dest_peer msg with
      | None => (Ok (), n)
      | Some dst =>
          match peer_senders n !! dst with
          | None => (Err (PeerNotFound dst), n)
          | Some c =>
              match try_send c msg n with
              | (Ok _, n) => (Ok (), n)
              | (Err Full, n) => (Err (Backpressure dst), n)
              | (Err ChannelClosed, n) => (Err (PeerNotFound dst), n)
              end
          end
      end
  end.

#[export] Instance Net_QuicNet : Net Node := send.

(** The accesses of connection [c]'s tasks, each from one stage to the next. *)
Definition advance (c : nat) (from to : Stage) (f : N → Node → Node) (n : Node) : Node :=
  match conns n !! c with
  | Some (mkConn p x s) =>
      if decide (s = from) then f p (set_conns (<[c := mkConn p x to]> (conns n)) n) else n
  | None => n
  end.

(** [next_peer_id.fetch_add(1)], for a connection with the given pinned identity. *)
Definition fetch_add (expected : option string) (n : Node) : N * Node :=
  let p := next_peer_id n in
  let c := next_conn n in
  (p, mkNode (peer_senders n) (u64_add p 1) (reset n) (inbound_rx n) (inbound n)
        (inbound_open n) (outbound n) (<[c := mkConn p expected Numbered]> (conns n)) (S c)).

(** The two accesses of [register_peer]: the sender of a fresh queue is put in the
    registry; the peer is announced, and its pump and its reader are spawned. *)
Definition insert_sender (c : nat) : Node → Node :=
  advance c Numbered Inserted (λ p n,
    set_outbound (<[c := mkOutbound [] true]> (outbound n))
      (set_peer_senders (<[p := c]> (peer_senders n)) n)).
Definition announce (c : nat) : Node → Node :=
  advance c Inserted Running (λ p n, inbound_send (NetEvent.PeerConnected p) n).
Definition register_peer (c : nat) (n : Node) : Node := announce c (insert_sender c n).

(** One turn of the accept loop, by whether the handshake succeeds. *)
Definition accept (incoming : result ErrorKind unit) (n : Node) : Node :=
  match incoming with
  | Ok _ => let '(_, n') := fetch_add None n in register_peer (next_conn n) n'
  | Err _ => n
  end.

(** [dial], by how connecting ends; [connect] and [connect_expecting]. *)
Definition dial (connecting : result ErrorKind unit) (expected : option string)
    : SM Node ErrorKind N := λ n,
  match connecting with
  | Ok _ =>
      let '(p, n') := fetch_add expected n in (Ok p, register_peer (next_conn n) n')
  | Err e => (Err e, n)
  end.
Definition connect (connecting : result ErrorKind unit) : SM Node ErrorKind N :=
  dial connecting None.
Definition connect_expecting (connecting : result ErrorKind unit) (expected_peer_id : string)
    : SM Node ErrorKind N :=
  dial connecting (Some expected_peer_id).

(** The end of the loop of [spawn_conn_reader], when the connection is lost: the peer
    is removed from the registry, and the loss is reported. *)
Definition remove_sender (c : nat) : Node → Node :=
  advance c Running Removed (λ p n, set_peer_senders (delete p (peer_senders n)) n).
Definition report_lost (c : nat) : Node → Node :=
  advance c Removed Gone (λ p n, inbound_send (NetEvent.PeerDisconnected p) n).
Definition conn_lost (c : nat) (n : Node) : Node := report_lost c (remove_sender c n).

(** [rx.recv()] of a pump: a message, the end of the queue once it is empty and
    its sender is gone, or nothing yet. *)
Inductive Recv := Message (msg : NetSend) | QueueEnd | Waiting.

Definition recv (c : nat) (n : Node) : Recv * Node :=
  match outbound n !! c with
  | Some (mkOutbound (msg :: q) b) =>
      (Message msg, set_outbound (<[c := mkOutbound q b]> (outbound n)) n)
  | _ => (if decide (c ∈ (map_to_list (peer_senders n)).*2) then Waiting else QueueEnd, n)
  end.

(** The pump of a connection ends, and its receiver with it. *)
Definition pump_exit (c : nat) (n : Node) : Node :=
  set_outbound (alter (λ _, mkOutbound [] false) c (outbound n)) n.

(** [Net::events]; a second call panics. *)
Definition events (n : Node) : option Node :=
  if inbound_rx n then
    Some (mkNode (peer_senders n) (next_peer_id n) (reset n) false (inbound n)
            (inbound_open n) (outbound n) (conns n) (next_conn n))
  else None.

(** Polling the stream of events, and dropping it. *)
Definition poll_next (n : Node) : option NetEvent.t * Node :=
  match inbound n with
  | ev :: evs => (Some ev, set_inbound evs n)
  | [] => (None, n)
  end.
Definition drop_events (n : Node) : Node :=
  mkNode (peer_senders n) (next_peer_id n) (reset n) (inbound_rx n) [] false
    (outbound n) (conns n) (next_conn n).

(** ** Runs of a node *)

Inductive op :=
  | FetchAdd (expected : option string)
  | InsertSender (c : nat)
  | Announce (c : nat)
  | RemoveSender (c : nat)
  | ReportLost (c : nat)
  | Send (msg : NetSend)
  | PumpRecv (c : nat)
  | PumpExit (c : nat)
  | Report (ev : NetEvent.t)
  | PollNext
  | DropEvents.

(** What a step did that its state does not show: a message it put on a queue, a
    message it took off one, an event the engine received. *)
Inductive note :=
  | Accepted (c : nat) (msg : NetSend)
  | Taken (c : nat) (msg : NetSend)
  | Polled (ev : NetEvent.t).

(** The connection a message is for. *)
Definition route (msg : NetSend) (n : Node) : option nat :=
  dst ← dest_peer msg; peer_senders n !! dst.

Definition step (o : op) (n : Node) : list note * Node :=
  match o with
  | FetchAdd expected => ([], snd (fetch_add expected n))
  | InsertSender c => ([], insert_sender c n)
  | Announce c => ([], announce c n)
  | RemoveSender c => ([], remove_sender c n)
  | ReportLost c => ([], report_lost c n)
  | Send msg =>
      let '(r, n') := send msg n in
      (match r, route msg n with Ok _, Some c => [Accepted c msg] | _, _ => [] end, n')
  | PumpRecv c =>
      let '(r, n) := recv c n in
      (match r with Message msg => [Taken c msg] | _ => [] end, n)
  | PumpExit c => ([], pump_exit c n)
  | Report ev => ([], inbound_send ev n)
  | PollNext =>
      let '(r, n) := poll_next n in
      (match r with Some ev => [Polled ev] | None => [] end, n)
  | DropEvents => ([], drop_events n)
  end.

Fixpoint run (os : list op) (n : Node) : list note * Node :=
  match os with
  | [] => ([], n)
  | o :: os => let '(l, n) := step o n in let '(l', n) := run os n in (l ++ l', n)
  end.

Definition accepted (c : nat) (l : list note) : list NetSend :=
  omap (λ x, match x with Accepted c' msg => if decide (c' = c) then Some msg else None
                        | _ => None end) l.
Definition taken (c : nat) (l : list note) : list NetSend :=
  omap (λ x, match x with Taken c' msg => if decide (c' = c) then Some msg else None
                        | _ => None end) l.
Definition polled (l : list note) : list NetEvent.t :=
  omap (λ x, match x with Polled ev => Some ev | _ => None end) l.

(** ** The outbound queues *)

(** The queue of [c] after it accepted [acc] and gave out [out]. *)
Definition fifo (n : Node) (c : nat) (acc out : list NetSend) : Prop :=
  match outbound n !! c with
  | Some (mkOutbound q b) =>
      (c < next_conn n)%nat ∧ (∀ t, conns n !! c = Some t → stage t ≠ Numbered) ∧
      (length q ≤ PER_PEER_OUTBOUND_QUEUE)%nat ∧
      if b then acc = out ++ q else q = [] ∧ out `prefix_of` acc
  | None => acc = [] ∧ out = []
  end.

Lemma fifo_same n n' c acc out :
  outbound n' = outbound n → next_conn n' = next_conn n → conns n' = conns n →
  fifo n c acc out → fifo n' c (acc ++ []) (out ++ []).
Proof. intros Ho Hc Ht. unfold fifo. by rewrite Ho, Hc, Ht, !app_nil_r. Qed.

Lemma inbound_send_frame ev n :
  outbound (inbound_send ev n) = outbound n ∧ next_conn (inbound_send ev n) = next_conn n ∧
  peer_senders (inbound_send ev n) = peer_senders n ∧ conns (inbound_send ev n) = conns n ∧
  next_peer_id (inbound_send ev n) = next_peer_id n ∧
  inbound_open (inbound_send ev n) = inbound_open n.
Proof. unfold inbound_send. by destruct (inbound_open n) eqn:Ho. Qed.

(** The stages of a connection leave the queues alone, but for the one that makes
    the queue. *)
Lemma advance_fifo d from to f n c acc out :
  to ≠ Numbered →
  (∀ p n, outbound (f p n) = outbound n ∧ next_conn (f p n) = next_conn n ∧ conns (f p n) = conns n) →
  fifo n c acc out → fifo (advance d from to f n) c (acc ++ []) (out ++ []).
Proof.
  intros Hto Hf Hn. rewrite !app_nil_r. unfold advance.
  destruct (conns n !! d) as [[p x s]|]; [|exact Hn]. case_decide; [|exact Hn].
  unfold fifo in *. destruct (Hf p (set_conns (<[d := mkConn p x to]> (conns n)) n)) as (-> & -> & ->).
  simpl. destruct (outbound n !! c) as [[q b]|]; [|exact Hn]. destruct Hn as (Hc & Ht & Hq).
  split; [exact Hc|]. split; [|exact Hq].
  intros t Hl. apply lookup_insert_Some in Hl as [[_ <-]|[_ Hl]]; [exact Hto|by apply Ht].
Qed.

Lemma insert_sender_fifo d n c acc out :
  (∀ t, conns n !! d = Some t → (d < next_conn n)%nat) →
  fifo n c acc out → fifo (insert_sender d n) c (acc ++ []) (out ++ []).
Proof.
  intros Hd Hn. rewrite !app_nil_r. unfold insert_sender, advance.
  destruct (conns n !! d) as [[p x s]|] eqn:Hl; [|exact Hn]. case_decide as Hs; [|exact Hn]. subst s.
  unfold fifo in *. simpl. destruct (decide (c = d)) as [->|Hne].
  - rewrite lookup_insert_eq. destruct (outbound n !! d) as [[q b]|].
    { destruct Hn as (_ & Ht & _). by destruct (Ht _ Hl). }
    destruct Hn as [-> ->]. split; [by eapply Hd|]. split; [|split; [simpl; lia|reflexivity]].
    intros t. rewrite lookup_insert_eq. by intros [= <-].
  - rewrite lookup_insert_ne by done. destruct (outbound n !! c) as [[q b]|]; [|exact Hn].
    destruct Hn as (Hc & Ht & Hq). split; [exact Hc|]. split; [|exact Hq].
    intros t. rewrite lookup_insert_ne by done. apply Ht.
Qed.

Lemma try_send_fifo d msg n c acc out :
  fifo n c acc out →
  let '(r, n') := try_send d msg n in
  fifo n' c (acc ++ match r with Ok _ => if decide (d = c) then [msg] else [] | Err _ => [] end) out.
Proof.
  intros Hf. unfold try_send. destruct (outbound n !! d) as [[q []]|] eqn:Hd.
  2,3: by rewrite app_nil_r.
  case_decide as Hl; [|by rewrite app_nil_r]. unfold fifo in *. simpl.
  case_decide as Hdc; [subst d; rewrite lookup_insert_eq|rewrite lookup_insert_ne by done].
  - rewrite Hd in Hf. destruct Hf as (Hc & Ht & _ & ->). rewrite length_app. simpl.
    split; [exact Hc|]. split; [exact Ht|]. split; [lia|]. by rewrite app_assoc.
  - by rewrite app_nil_r.
Qed.

(** A message with a destination. *)
Lemma send_routed msg n dst :
  dest_peer msg = Some dst →
  send msg n =
  match peer_senders n !! dst with
  | None => (Err (PeerNotFound dst), n)
  | Some c =>
      match try_send c msg n with
      | (Ok _, n) => (Ok (), n)
      | (Err Full, n) => (Err (Backpressure dst), n)
      | (Err ChannelClosed, n) => (Err (PeerNotFound dst), n)
      end
  end.
Proof. by destruct msg; intros [= ->]. Qed.

Lemma send_frame msg n :
  let n' := snd (send msg n) in
  next_peer_id n' = next_peer_id n ∧ next_conn n' = next_conn n ∧ conns n' = conns n ∧
  peer_senders n' = peer_senders n ∧ inbound n' = inbound n ∧ inbound_open n' = inbound_open n.
Proof.
  cbv zeta. destruct (dest_peer msg) as [dst|] eqn:Hd; [|by destruct msg].
  rewrite (send_routed _ _ _ Hd). destruct (peer_senders n !! dst) as [c|]; [|by split_and!].
  unfold try_send. destruct (outbound n !! c) as [[q []]|]; [|by split_and!..].
  by case_decide; split_and!.
Qed.

Lemma send_fifo msg n c acc out :
  fifo n c acc out →
  let '(l, n') := step (Send msg) n in fifo n' c (acc ++ accepted c l) (out ++ taken c l).
Proof.
  intros Hf. cbn [step]. unfold route.
  destruct (dest_peer msg) as [dst|] eqn:Hd; simpl.
  - rewrite (send_routed _ _ _ Hd).
    destruct (peer_senders n !! dst) as [d|]; [|by apply fifo_same with n].
    pose proof (try_send_fifo d msg n c acc out Hf) as Ht.
    destruct (try_send d msg n) as [[[]|[]] n']; simpl; rewrite ?app_nil_r in *; try exact Ht.
    by case_decide; rewrite ?app_nil_r in *.
  - destruct msg; try discriminate. simpl. by apply fifo_same with n.
Qed.

Lemma recv_fifo d n c acc out :
  fifo n c acc out →
  let '(l, n') := step (PumpRecv d) n in fifo n' c (acc ++ accepted c l) (out ++ taken c l).
Proof.
  intros Hf. cbn [step]. unfold recv.
  destruct (outbound n !! d) as [[[|msg q] b]|] eqn:Hd;
    try (case_decide; by apply fifo_same with n).
  unfold fifo in *. simpl. rewrite app_nil_r.
  case_decide as Hdc; [subst d; rewrite lookup_insert_eq|rewrite lookup_insert_ne by done].
  - rewrite Hd in Hf. simpl in Hf. destruct Hf as (Hc & Ht & Hl & Hq).
    split; [exact Hc|]. split; [exact Ht|]. split; [lia|]. destruct b; [|by destruct Hq].
    rewrite Hq, <- app_assoc. reflexivity.
  - by rewrite app_nil_r.
Qed.

(** Connections are numbered in order. *)
Definition numbered (n : Node) : Prop := ∀ c t, conns n !! c = Some t → (c < next_conn n)%nat.

Lemma advance_numbered d from to f n :
  (∀ p n, next_conn (f p n) = next_conn n ∧ conns (f p n) = conns n) →
  numbered n → numbered (advance d from to f n).
Proof.
  intros Hf Hn c t. unfold advance. destruct (conns n !! d) as [[p x s]|] eqn:Hd; [|apply Hn].
  case_decide; [|apply Hn]. destruct (Hf p (set_conns (<[d := mkConn p x to]> (conns n)) n)) as [-> ->].
  simpl. intros Hl. apply lookup_insert_Some in Hl as [[<- _]|[_ Hl]]; by eapply Hn.
Qed.

Lemma inbound_send_conns ev n :
  next_conn (inbound_send ev n) = next_conn n ∧ conns (inbound_send ev n) = conns n.
Proof. by destruct (inbound_send_frame ev n) as (_ & -> & _ & -> & _). Qed.

Lemma step_numbered o n : numbered n → numbered (snd (step o n)).
Proof.
  intros Hn. destruct o; simpl.
  - intros c t. simpl. intros Hl. apply lookup_insert_Some in Hl as [[<- _]|[_ Hl]]; [lia|].
    apply Hn in Hl. lia.
  - by apply advance_numbered.
  - apply advance_numbered; [intros; apply inbound_send_conns|exact Hn].
  - by apply advance_numbered.
  - apply advance_numbered; [intros; apply inbound_send_conns|exact Hn].
  - pose proof (send_frame msg n) as (_ & Hc & Ht & _). destruct (send msg n) as [r n'].
    simpl in *. unfold numbered. by rewrite Hc, Ht.
  - unfold recv. destruct (outbound n !! c) as [[[|] ?]|]; exact Hn.
  - exact Hn.
  - unfold numbered. by destruct (inbound_send_conns ev n) as [-> ->].
  - unfold poll_next. destruct (inbound n); exact Hn.
  - exact Hn.
Qed.

Lemma node_step_fifo o n c acc out :
  numbered n → fifo n c acc out →
  let '(l, n') := step o n in fifo n' c (acc ++ accepted c l) (out ++ taken c l).
Proof.
  intros Hnum Hf. destruct o; try (by apply send_fifo); try (by apply recv_fifo); simpl.
  - unfold fifo in *. simpl. rewrite !app_nil_r.
    destruct (outbound n !! c) as [[q b]|]; [|exact Hf]. destruct Hf as (Hc & Ht & Hq).
    split; [lia|]. split; [|exact Hq]. intros t. rewrite lookup_insert_ne by lia. apply Ht.
  - apply insert_sender_fifo; [apply Hnum|exact Hf].
  - apply advance_fifo; [done| |exact Hf]. intros p m.
    by destruct (inbound_send_frame (NetEvent.PeerConnected p) m) as (-> & -> & _ & -> & _).
  - by apply advance_fifo.
  - apply advance_fifo; [done| |exact Hf]. intros p m.
    by destruct (inbound_send_frame (NetEvent.PeerDisconnected p) m) as (-> & -> & _ & -> & _).
  - unfold fifo, pump_exit in *. simpl. rewrite !app_nil_r, lookup_alter.
    case_decide as Hc; [subst c0|exact Hf].
    destruct (outbound n !! c) as [[q b]|]; simpl; [|exact Hf].
    destruct Hf as (? & ? & ? & Hq). split; [done|]. split; [done|]. split; [simpl; lia|].
    split; [reflexivity|]. destruct b; [exists q; exact Hq|by destruct Hq].
  - destruct (inbound_send_frame ev n) as (Ho & Hc & _ & Ht & _). by apply fifo_same with n.
  - unfold poll_next. destruct (inbound n) as [|ev evs]; simpl; by apply fifo_same with n.
  - by apply fifo_same with n.
Qed.

(** C26: whatever happens to a node, each connection's pump takes exactly the
    messages that [send] accepted for it, once and in order, and at most 256 of
    them wait; a pump that is gone has taken a prefix of them.  Nothing is ever
    queued for a connection that was not registered. *)
Theorem outbound_fifo os c :
  let '(l, n) := run os bind in
  match outbound n !! c with
  | Some (mkOutbound q true) =>
      (length q ≤ PER_PEER_OUTBOUND_QUEUE)%nat ∧ accepted c l = taken c l ++ q
  | Some (mkOutbound q false) => q = [] ∧ taken c l `prefix_of` accepted c l
  | None => accepted c l = [] ∧ taken c l = []
  end.
Proof.
  assert (∀ n acc out, numbered n → fifo n c acc out →
    let '(l, n') := run os n in fifo n' c (acc ++ accepted c l) (out ++ taken c l)) as Hrun.
  { induction os as [|o os IH]; intros n acc out Hn Hf; simpl; [by apply fifo_same with n|].
    pose proof (node_step_fifo o n c acc out Hn Hf) as Hs. pose proof (step_numbered o n Hn) as Hn'.
    destruct (step o n) as [l n']. simpl in Hn'. specialize (IH _ _ _ Hn' Hs). destruct (run os n') as [l' n''].
    unfold accepted, taken in *. by rewrite !omap_app, !app_assoc. }
  specialize (Hrun bind [] [] ltac:(done) ltac:(done)).
  destruct (run os bind) as [l n]. simpl in Hrun. unfold fifo in Hrun.
  destruct (outbound n !! c) as [[q []]|]; [| |exact Hrun]; by destruct Hrun as (_ & _ & ? & ?).
Qed.

(** ** The registry of peers *)

Definition connected (ev : NetEvent.t) : option N :=
  match ev with NetEvent.PeerConnected p => Some p | _ => None end.
Definition disconnected (ev : NetEvent.t) : option N :=
  match ev with NetEvent.PeerDisconnected p => Some p | _ => None end.

(** The readers of streams, the pumps and the watchers report neither. *)
Definition reports (o : op) : Prop :=
  match o with Report ev => connected ev = None ∧ disconnected ev = None | _ => True end.

(** The peer of the connection numbered [c]th. *)
Definition peer_of (c : nat) : N := N.of_nat c + 1.

Definition registered (s : Stage) : bool :=
  match s with Inserted | Running => true | _ => false end.
Definition announced (s : Stage) : bool :=
  match s with Numbered | Inserted => false | _ => true end.
Definition gone (s : Stage) : bool := bool_decide (s = Gone).

(** A peer has a connection at a stage of some kind. *)
Definition at_stage (f : Stage → bool) (cs : gmap nat Conn) (p : N) : Prop :=
  ∃ c t, cs !! c = Some t ∧ peer t = p ∧ f (stage t) = true.

(** The registry and the stages agree with the events that the engine gets, [evs]. *)
Record registry (evs : list NetEvent.t) (n : Node) : Prop := {
  rg_next : next_peer_id n = peer_of (next_conn n);
  rg_peer c t : conns n !! c = Some t → peer t = peer_of c ∧ (c < next_conn n)%nat;
  rg_own p c : peer_senders n !! p = Some c → p = peer_of c;
  rg_senders p : is_Some (peer_senders n !! p) ↔ at_stage registered (conns n) p;
  rg_connected p : p ∈ omap connected evs ↔ at_stage announced (conns n) p;
  rg_disconnected p : p ∈ omap disconnected evs ↔ at_stage gone (conns n) p;
  rg_once : NoDup (omap connected evs);
  rg_nodup : NoDup (omap disconnected evs);
  rg_order l r p : evs = l ++ NetEvent.PeerDisconnected p :: r → NetEvent.PeerConnected p ∈ l
}.

Lemma registry_same evs n n' :
  next_peer_id n' = next_peer_id n → next_conn n' = next_conn n → conns n' = conns n →
  peer_senders n' = peer_senders n → registry evs n → registry evs n'.
Proof. intros H1 H2 H3 H4 []. split; rewrite ?H1, ?H2, ?H3, ?H4; assumption. Qed.

(** The stage of one connection, and of its peer. *)
Lemma at_stage_insert f cs c p x s q :
  (∀ c t, cs !! c = Some t → peer t = peer_of c) → p = peer_of c →
  at_stage f (<[c := mkConn p x s]> cs) q ↔ if decide (q = p) then f s = true else at_stage f cs q.
Proof.
  intros Hp ->. split.
  - intros (c' & t & Hl & <- & Ht). apply lookup_insert_Some in Hl as [[<- <-]|[Hne Hl]].
    { by rewrite decide_True. }
    rewrite decide_False; [by exists c', t|]. rewrite (Hp _ _ Hl). unfold peer_of. lia.
  - case_decide as Hq.
    + intros Hs. exists c, (mkConn (peer_of c) x s). by rewrite lookup_insert_eq.
    + intros (c' & t & Hl & <- & Ht). exists c', t. split; [|done].
      rewrite lookup_insert_ne; [exact Hl|]. intros <-. by apply Hq, Hp.
Qed.

Lemma at_stage_lookup f cs c t :
  (∀ c t, cs !! c = Some t → peer t = peer_of c) → cs !! c = Some t →
  at_stage f cs (peer t) ↔ f (stage t) = true.
Proof.
  intros Hp Hl. split; [|by exists c, t].
  intros (c' & t' & Hl' & Hpp & Ht). rewrite (Hp _ _ Hl), (Hp _ _ Hl') in Hpp.
  unfold peer_of in Hpp. assert (c' = c) as -> by lia. congruence.
Qed.

(** Another event, of a kind that is not the registry's. *)
Lemma order_snoc evs ev :
  (∀ l r p, evs = l ++ NetEvent.PeerDisconnected p :: r → NetEvent.PeerConnected p ∈ l) →
  (∀ p, disconnected ev = Some p → NetEvent.PeerConnected p ∈ evs) →
  ∀ l r p, evs ++ [ev] = l ++ NetEvent.PeerDisconnected p :: r → NetEvent.PeerConnected p ∈ l.
Proof.
  intros Ho Hev l r p He. destruct r as [|x r _] using rev_ind.
  - apply app_inj_tail in He as [-> ->]. by apply Hev.
  - rewrite app_comm_cons, app_assoc in He. apply app_inj_tail in He as [He _]. by eapply Ho.
Qed.

Lemma registry_report evs n ev :
  connected ev = None → disconnected ev = None → registry evs n → registry (evs ++ [ev]) n.
Proof.
  intros Hc Hd [H1 H2 H3 H4 H5 H6 H7 H8 H9].
  split; try assumption; rewrite ?omap_app; simpl; rewrite ?Hc, ?Hd, ?app_nil_r; try assumption.
  apply order_snoc; [assumption|]. rewrite Hd. discriminate.
Qed.

(** A new number. *)
Lemma registry_number evs n x :
  registry evs n → N.of_nat (next_conn n) + 2 < 2 ^ 64 → registry evs (snd (fetch_add x n)).
Proof.
  intros [H1 H2 H3 H4 H5 H6 H7 H8 H9] Hlt.
  assert (∀ f q, f Numbered = false →
    at_stage f (<[next_conn n := mkConn (next_peer_id n) x Numbered]> (conns n)) q ↔
    at_stage f (conns n) q) as Hat.
  { intros f q Hf. rewrite at_stage_insert by (exact H1 || intros; by apply H2).
    case_decide as Hq; [|done]. rewrite Hf. split; [done|]. intros (c & t & Hl & Hp & _).
    destruct (H2 _ _ Hl) as [Hpt Hc]. rewrite H1 in Hq. unfold peer_of in *. lia. }
  split; simpl; try assumption.
  - rewrite H1. unfold peer_of. rewrite u64_add_small by lia. lia.
  - intros c t Hl. apply lookup_insert_Some in Hl as [[<- <-]|[_ Hl]]; [split; [exact H1|lia]|].
    apply H2 in Hl. split; [apply Hl|lia].
  - intros p. by rewrite H4, Hat.
  - intros p. by rewrite H5, Hat.
  - intros p. by rewrite H6, Hat.
Qed.

(** A connection moves on from stage [from] to [to] and reports [evl]. *)
Lemma registry_move evs n n' c x from to evl :
  registry evs n → conns n !! c = Some (mkConn (peer_of c) x from) →
  conns n' = <[c := mkConn (peer_of c) x to]> (conns n) →
  next_peer_id n' = next_peer_id n → next_conn n' = next_conn n →
  (∀ q d, peer_senders n' !! q = Some d → q = peer_of d) →
  (∀ q, is_Some (peer_senders n' !! q) ↔
    if decide (q = peer_of c) then registered to = true else is_Some (peer_senders n !! q)) →
  omap connected evl = (if announced to && negb (announced from) then [peer_of c] else []) →
  omap disconnected evl = (if gone to && negb (gone from) then [peer_of c] else []) →
  (announced from = true → announced to = true) → (gone from = true → gone to = true) →
  (∀ l r p, evs ++ evl = l ++ NetEvent.PeerDisconnected p :: r → NetEvent.PeerConnected p ∈ l) →
  registry (evs ++ evl) n'.
Proof.
  intros [H1 H2 H3 H4 H5 H6 H7 H8 H9] Hl Ec En Ex Hown Hreg Hcon Hdis Hann Hgon Hord.
  assert (∀ c t, conns n !! c = Some t → peer t = peer_of c) as Hp by (intros; by apply H2).
  pose proof (λ f, at_stage_lookup f _ _ _ Hp Hl) as Hat. simpl in Hat.
  assert (∀ ev f evl, (∀ p, p ∈ omap ev evs ↔ at_stage f (conns n) p) → NoDup (omap ev evs) →
    omap ev evl = (if f to && negb (f from) then [peer_of c] else []) →
    (f from = true → f to = true) →
    NoDup (omap ev (evs ++ evl)) ∧
    ∀ p : N, p ∈ omap ev (evs ++ evl) ↔ at_stage f (conns n') p) as Hlist.
  { clear -Hp Hl Ec Hat. intros ev f evl Hev Hnd He Hf. rewrite omap_app, He. split.
    - apply NoDup_app. split; [exact Hnd|].
      destruct (f to && negb (f from)) eqn:Hb; [|split; [by intros ? ? ?%elem_of_nil|constructor]].
      split; [|apply NoDup_singleton]. intros q Hq Hq'. apply list_elem_of_singleton in Hq'. subst q.
      apply Hev, Hat in Hq. rewrite Hq in Hb. by destruct (f to).
    - intros q. rewrite Ec, at_stage_insert by done. rewrite elem_of_app, Hev.
      case_decide as Hq; [subst q; rewrite Hat|].
      + destruct (f to), (f from); simpl; rewrite ?list_elem_of_singleton, ?elem_of_nil; naive_solver.
      + destruct (f to && negb (f from)); rewrite ?list_elem_of_singleton, ?elem_of_nil; tauto. }
  destruct (Hlist connected announced evl H5 H7 Hcon Hann) as [Hnc Hec].
  destruct (Hlist disconnected gone evl H6 H8 Hdis Hgon) as [Hnd Hed].
  split; try assumption.
  - by rewrite En, Ex.
  - rewrite Ec, Ex. intros d t Hd. apply lookup_insert_Some in Hd as [[<- <-]|[_ Hd]]; [|by apply H2].
    split; [reflexivity|]. by apply (H2 _ _ Hl).
  - intros q. rewrite Hreg, Ec, at_stage_insert by done. case_decide; [done|]. apply H4.
Qed.
(** The receiver does not come back, and connections are only added. *)
Definition mono (n n' : Node) : Prop :=
  (inbound_open n' = true → inbound_open n = true) ∧ (next_conn n ≤ next_conn n')%nat.

Lemma advance_mono c from to f n :
  (∀ p n, inbound_open (f p n) = inbound_open n ∧ next_conn (f p n) = next_conn n) →
  mono n (advance c from to f n).
Proof.
  intros Hf. unfold mono, advance. destruct (conns n !! c) as [[p x s]|]; [|by auto].
  case_decide; [|by auto].
  destruct (Hf p (set_conns (<[c := mkConn p x to]> (conns n)) n)) as [-> ->]. by auto.
Qed.

Lemma inbound_send_mono ev n :
  inbound_open (inbound_send ev n) = inbound_open n ∧ next_conn (inbound_send ev n) = next_conn n.
Proof. by destruct (inbound_send_frame ev n) as (_ & -> & _ & _ & _ & ->). Qed.

Lemma step_mono o n : mono n (snd (step o n)).
Proof.
  destruct o; simpl.
  - unfold mono. simpl. by auto.
  - by apply advance_mono.
  - apply advance_mono. intros. apply inbound_send_mono.
  - by apply advance_mono.
  - apply advance_mono. intros. apply inbound_send_mono.
  - pose proof (send_frame msg n) as (_ & Hc & _ & _ & _ & Ho).
    destruct (send msg n) as [r n']. unfold mono. simpl in *. by rewrite Hc, Ho.
  - unfold recv, mono. destruct (outbound n !! c) as [[[|] ?]|]; simpl; auto.
  - unfold mono. by auto.
  - unfold mono. by destruct (inbound_send_mono ev n) as [-> ->].
  - unfold poll_next, mono. destruct (inbound n); simpl; auto.
  - by split.
Qed.

(** The four accesses that move a connection on. *)
Lemma inbound_send_registry h ev n :
  inbound_open n = true → registry (h ++ inbound n ++ [ev]) n →
  registry (h ++ inbound (inbound_send ev n)) (inbound_send ev n).
Proof.
  intros Ho Hr. destruct (inbound_send_frame ev n) as (_ & H2 & H3 & H4 & H5 & _).
  assert (inbound (inbound_send ev n) = inbound n ++ [ev]) as ->
    by (unfold inbound_send; by rewrite Ho).
  by apply registry_same with n.
Qed.

Lemma insert_sender_registry evs c n :
  registry evs n → registry evs (insert_sender c n).
Proof.
  intros Hr. unfold insert_sender, advance. destruct (conns n !! c) as [[p x s]|] eqn:Hl; [|exact Hr].
  case_decide as Hs; [|exact Hr]. subst s. destruct (rg_peer _ _ Hr _ _ Hl) as [Hp Hc].
  simpl in Hp. subst p. rewrite <- (app_nil_r evs).
  apply (registry_move _ _ _ _ _ _ Inserted [] Hr Hl); try done; simpl.
  - intros q d Hd. apply lookup_insert_Some in Hd as [[<- <-]|[_ Hd]]; [done|by eapply rg_own].
  - intros q. destruct (decide (q = peer_of c)) as [->|Hq]; [by rewrite lookup_insert_eq|].
    by rewrite lookup_insert_ne by done.
  - rewrite app_nil_r. apply Hr.
Qed.

Lemma remove_sender_registry evs c n :
  registry evs n → registry evs (remove_sender c n).
Proof.
  intros Hr. unfold remove_sender, advance. destruct (conns n !! c) as [[p x s]|] eqn:Hl; [|exact Hr].
  case_decide as Hs; [|exact Hr]. subst s. destruct (rg_peer _ _ Hr _ _ Hl) as [Hp Hc].
  simpl in Hp. subst p. rewrite <- (app_nil_r evs).
  apply (registry_move _ _ _ _ _ _ Removed [] Hr Hl); try done; simpl.
  - intros q d Hd. apply lookup_delete_Some in Hd as [_ Hd]. by eapply rg_own.
  - intros q. destruct (decide (q = peer_of c)) as [->|Hq].
    + rewrite lookup_delete_eq. split; [by intros [? ?]|done].
    + by rewrite lookup_delete_ne by done.
  - rewrite app_nil_r. apply Hr.
Qed.

Lemma announce_registry h c n :
  inbound_open n = true → registry (h ++ inbound n) n →
  registry (h ++ inbound (announce c n)) (announce c n).
Proof.
  intros Ho Hr. unfold announce, advance. destruct (conns n !! c) as [[p x s]|] eqn:Hl; [|exact Hr].
  case_decide as Hs; [|exact Hr]. subst s. destruct (rg_peer _ _ Hr _ _ Hl) as [Hp Hc].
  simpl in Hp. subst p. apply inbound_send_registry; [exact Ho|]. rewrite app_assoc.
  apply (registry_move _ _ _ _ _ _ Running _ Hr Hl); try done; simpl.
  - intros q d. apply (rg_own _ _ Hr).
  - intros q. case_decide as Hq; [subst q|done]. rewrite (rg_senders _ _ Hr).
    split; [done|]. intros _. by exists c, (mkConn (peer_of c) x Inserted).
  - apply order_snoc; [apply Hr|done].
Qed.

Lemma report_lost_registry h c n :
  inbound_open n = true → registry (h ++ inbound n) n →
  registry (h ++ inbound (report_lost c n)) (report_lost c n).
Proof.
  intros Ho Hr. unfold report_lost, advance. destruct (conns n !! c) as [[p x s]|] eqn:Hl; [|exact Hr].
  case_decide as Hs; [|exact Hr]. subst s. destruct (rg_peer _ _ Hr _ _ Hl) as [Hp Hc].
  simpl in Hp. subst p. apply inbound_send_registry; [exact Ho|]. rewrite app_assoc.
  assert (∀ f, at_stage f (conns n) (peer_of c) ↔ f Removed = true) as Hat.
  { intros f. apply (at_stage_lookup f _ _ _ (λ c t Hct, proj1 (rg_peer _ _ Hr c t Hct)) Hl). }
  apply (registry_move _ _ _ _ _ _ Gone _ Hr Hl); try done; simpl.
  - intros q d. apply (rg_own _ _ Hr).
  - intros q. case_decide as Hq; [subst q|done]. by rewrite (rg_senders _ _ Hr), Hat.
  - apply order_snoc; [apply Hr|]. intros q [= <-].
    assert (peer_of c ∈ omap connected (h ++ inbound n)) as Hin
      by (by apply (rg_connected _ _ Hr), Hat).
    apply list_elem_of_omap in Hin as (ev & Hev & Hq). by destruct ev; simplify_eq/=.
Qed.

Lemma registry_step h o n :
  reports o → inbound_open (snd (step o n)) = true →
  N.of_nat (next_conn (snd (step o n))) + 1 < 2 ^ 64 →
  registry (h ++ inbound n) n →
  let '(l, n') := step o n in registry (h ++ polled l ++ inbound n') n'.
Proof.
  intros Hrep Hopen Hlt Hr. destruct (step_mono o n) as [Ho _]. specialize (Ho Hopen).
  destruct o; simpl in *.
  - apply (registry_number _ _ expected Hr). lia.
  - assert (inbound (insert_sender c n) = inbound n) as ->.
    { unfold insert_sender, advance. destruct (conns n !! c) as [[]|]; [|done]. by case_decide. }
    by apply insert_sender_registry.
  - by apply announce_registry.
  - assert (inbound (remove_sender c n) = inbound n) as ->.
    { unfold remove_sender, advance. destruct (conns n !! c) as [[]|]; [|done]. by case_decide. }
    by apply remove_sender_registry.
  - by apply report_lost_registry.
  - pose proof (send_frame msg n) as (H1 & H2 & H3 & H4 & H5 & _).
    destruct (send msg n) as [r n']. simpl in *.
    assert (polled match r with
                   | Ok _ => match route msg n with Some c => [Accepted c msg] | None => [] end
                   | Err _ => [] end = []) as -> by (by destruct r, (route msg n)).
    simpl. rewrite H5. by apply registry_same with n.
  - unfold recv. destruct (outbound n !! c) as [[[|msg q] b]|]; simpl;
      try (case_decide; exact Hr). by apply registry_same with n.
  - by apply registry_same with n.
  - destruct Hrep as [Hc Hd]. apply inbound_send_registry; [exact Ho|]. rewrite app_assoc.
    by apply registry_report.
  - unfold poll_next. destruct (inbound n) as [|ev evs] eqn:Hi; simpl; [by rewrite Hi|].
    by apply registry_same with n.
  - discriminate.
Qed.

Lemma run_mono os n : mono n (snd (run os n)).
Proof.
  unfold mono. revert n. induction os as [|o os IH]; intros n; simpl; [by auto|].
  destruct (step_mono o n) as [Ho Hc]. destruct (step o n) as [l n1]. simpl in *.
  destruct (IH n1) as [Ho' Hc']. destruct (run os n1) as [l' n2]. simpl in *.
  split; [by auto|lia].
Qed.

Lemma registry_run h os n :
  let '(l, n') := run os n in
  Forall reports os → inbound_open n' = true → N.of_nat (next_conn n') + 1 < 2 ^ 64 →
  registry (h ++ inbound n) n → registry (h ++ polled l ++ inbound n') n'.
Proof.
  revert h n. induction os as [|o os IH]; intros h n; simpl; [by auto|].
  pose proof (registry_step h o n) as Hstep. destruct (step o n) as [l n1].
  destruct (run_mono os n1) as [Ho Hc]. specialize (IH (h ++ polled l) n1).
  destruct (run os n1) as [l' n2]. simpl in *. intros Hrep Hopen Hlt Hr.
  inversion_clear Hrep as [|? ? Hor Hos]. unfold polled in *.
  rewrite omap_app, <- app_assoc, app_assoc. apply IH; [exact Hos|exact Hopen|exact Hlt|].
  rewrite <- app_assoc. apply Hstep; [exact Hor|by apply Ho|lia|exact Hr].
Qed.

Lemma registry_bind : registry [] bind.
Proof.
  split; simpl; try done; try constructor; try (by intros [? ?]); try (by intros (? & ? & ? & ?)).
  - by intros ?%elem_of_nil.
  - by intros ?%elem_of_nil.
  - intros l r p He. by destruct l.
Qed.

(** No task is between the two accesses of a registration or of a removal. *)
Definition settled (n : Node) : Prop :=
  ∀ c t, conns n !! c = Some t → stage t ≠ Inserted ∧ stage t ≠ Removed.

(** C25: the engine and the registry agree on who is connected.  However the tasks of a
    node interleave, as long as the engine listens and peer numbers have not run
    out, a connection is announced at most once, under a number of its own; its
    loss is reported at most once, and after it was announced; a peer that is
    reported lost cannot be sent to; messages for a peer go to the queue of its own
    connection; and whenever no registration or removal is half done, a peer can be
    sent to exactly if it is announced and not reported lost. *)
Theorem registry_agrees os :
  let '(l, n) := run os bind in
  let evs := polled l ++ inbound n in
  Forall reports os → inbound_open n = true → N.of_nat (next_conn n) + 1 < 2 ^ 64 →
  NoDup (omap connected evs) ∧ NoDup (omap disconnected evs) ∧
  (∀ l r p, evs = l ++ NetEvent.PeerDisconnected p :: r → NetEvent.PeerConnected p ∈ l) ∧
  (∀ p c, peer_senders n !! p = Some c → p = peer_of c ∧ p ∉ omap disconnected evs) ∧
  (settled n → ∀ p, is_Some (peer_senders n !! p) ↔
     p ∈ omap connected evs ∧ p ∉ omap disconnected evs).
Proof.
  pose proof (registry_run [] os bind) as Hrun. destruct (run os bind) as [l n]. cbv zeta.
  intros Hrep Hopen Hlt. pose proof (Hrun Hrep Hopen Hlt registry_bind) as Hr. clear Hrun.
  simpl in Hr. pose proof Hr as [H1 H2 H3 H4 H5 H6 H7 H8 H9].
  assert (∀ p f g, at_stage f (conns n) p → at_stage g (conns n) p →
    ∃ c t, conns n !! c = Some t ∧ peer t = p ∧ f (stage t) = true ∧ g (stage t) = true) as Hboth.
  { intros p f g (c & t & Hl & <- & Hf) Hg. exists c, t. split; [done|]. split; [done|].
    split; [done|]. eapply at_stage_lookup; [|exact Hl|exact Hg]. intros; by apply H2. }
  assert (∀ p, is_Some (peer_senders n !! p) → p ∉ omap disconnected (polled l ++ inbound n)) as Hout.
  { intros p Hs Hd. apply H4 in Hs. apply H6 in Hd.
    destruct (Hboth _ _ _ Hs Hd) as (c & t & _ & _ & Hf & Hg). by destruct (stage t). }
  split; [exact H7|]. split; [exact H8|]. split; [exact H9|]. split.
  - intros p c Hs. split; [by apply H3|]. apply Hout. by exists c.
  - intros Hset p. split.
    + intros Hs. split; [|by apply Hout]. apply H5. apply H4 in Hs as (c & t & Hl & Hp & Hs).
      exists c, t. split; [done|]. split; [done|]. destruct (Hset _ _ Hl).
      by destruct (stage t).
    + intros [Hc Hd]. apply H4. apply H5 in Hc as (c & t & Hl & Hp & Hs).
      exists c, t. split; [done|]. split; [done|]. destruct (Hset _ _ Hl).
      rewrite H6 in Hd. destruct (stage t) eqn:Ht; try done. destruct Hd. by exists c, t; rewrite Ht.
Qed.

(** [accept] and [dial] are such steps. *)
Lemma dial_run x n :
  snd (dial (Ok ()) x n) =
  snd (run [FetchAdd x; InsertSender (next_conn n); Announce (next_conn n)] n).
Proof. reflexivity. Qed.

Lemma conn_lost_run c n : conn_lost c n = snd (run [RemoveSender c; ReportLost c] n).
Proof. reflexivity. Qed.

(** ** A run *)

(** Two connections are registered at the same time, the second one first; the first
    is lost while the second waits. *)
Definition example_run : list op :=
  [FetchAdd None; FetchAdd (Some "b"%string); InsertSender 1; Announce 1; InsertSender 0;
   Announce 0; Send (SendSubscribe 1 "c"); Send (SendSubscribe 2 "c"); RemoveSender 0;
   Send (SendUnsubscribe 1 "c"); PumpRecv 0; ReportLost 0; PollNext;
   Report (NetEvent.Subscribe 2 "d"); Send (SendSessionReconstructed "c" "m")].

(** The message for the peer that is lost is still taken; the next one is refused. *)
Example example_run_notes :
  fst (run example_run bind) =
  [Accepted 0 (SendSubscribe 1 "c"); Accepted 1 (SendSubscribe 2 "c");
   Taken 0 (SendSubscribe 1 "c"); Polled (NetEvent.PeerConnected 2)].
Proof. vm_compute. reflexivity. Qed.

Lemma registry_agrees_witness :
  let '(l, n) := run example_run bind in
  let evs := polled l ++ inbound n in
  omap connected evs = [2; 1] ∧ omap disconnected evs = [1] ∧
  (settled n → ∀ p, is_Some (peer_senders n !! p) ↔
     p ∈ omap connected evs ∧ p ∉ omap disconnected evs).
Proof.
  pose proof (registry_agrees example_run) as Hrun.
  destruct (run example_run bind) as [l n] eqn:E. cbv zeta in Hrun |- *.
  assert (l = fst (run example_run bind)) as -> by (by rewrite E).
  assert (n = snd (run example_run bind)) as -> by (by rewrite E). clear E.
  destruct Hrun as (_ & _ & _ & _ & Hs);
    [repeat constructor|vm_compute; reflexivity|vm_compute; reflexivity|].
  split; [vm_compute; reflexivity|]. split; [vm_compute; reflexivity|exact Hs].
Defined.
End QuicNet.
