(* ===== verification/QuicBroadcast.v ===== *)
(** A broadcast over QUIC, from the origin's [publish] to the relay's delivery.

    The origin's engine runs over a node of the QUIC transport, whose queues are
    bounded; what it publishes waits in the queue of each subscriber's connection
    until the pump of that connection writes it on streams; the readers at the
    other end make events of the streams, in any order; and the relay's engine
    handles those events among all others, parking the chunks that come before
    the open. *)
From Stdlib Require Import NArith ZArith Lia.
From stdpp Require Import base gmap option strings list.
From S2P Require Import Prelude BitMap Wire Config Strategy RsCodec Planner RsStrategy RsLink.
From S2P Require Import Session Channel Runtime MemoryNet Engine EngineInv EngineRel EnginePark.
From S2P Require Import EngineSend EngineDrain EngineDeliver EngineObserve EngineNet EngineFlow.
From S2P Require Import EngineSwap RsEngine EngineAuth RsBroadcast Transport TransportLink.
From S2P Require Import QuicReset QuicNet.

Open Scope N_scope.

(** ** What a node takes *)
Module QuicTakes.
Import QuicNet.

(** The messages that wait for the pump of a peer's connection. *)
Definition queue_of (n : Node) (p : N) : option (list NetSend) :=
  c ← peer_senders n !! p;
  o ← outbound n !! c;
  if receiving o then Some (queued o) else None.

(** Every peer has its own connection. *)
Definition distinct (n : Node) : Prop :=
  ∀ p p' c, peer_senders n !! p = Some c → peer_senders n !! p' = Some c → p = p'.

(** The messages for peer [p]. *)
Definition for_peer (p : N) (l : list NetSend) : list NetSend :=
  filter (λ msg, dest_peer msg = Some p) l.

Lemma for_peer_app p l1 l2 : for_peer p (l1 ++ l2) = for_peer p l1 ++ for_peer p l2.
Proof. apply filter_app. Qed.

Lemma run_distinct os :
  let n := snd (run os bind) in
  Forall reports os → inbound_open n = true → N.of_nat (next_conn n) + 1 < 2 ^ 64 → distinct n.
Proof.
  intros n Hr Ho Hlt. pose proof (registry_run [] os bind) as H. unfold n in *.
  destruct (run os bind) as [l n']. specialize (H Hr Ho Hlt registry_bind).
  intros p p' c Hp Hp'. by rewrite (rg_own _ _ H _ _ Hp), (rg_own _ _ H _ _ Hp').
Qed.

(** A send to a peer whose queue has room. *)
Lemma send_room msg p q n :
  dest_peer msg = Some p → queue_of n p = Some q → (length q < PER_PEER_OUTBOUND_QUEUE)%nat →
  distinct n →
  fst (net_send msg n) = Ok () ∧
  let n' := snd (net_send msg n) in
  distinct n' ∧ ∀ p', queue_of n' p' =
    if decide (p' = p) then Some (q ++ [msg]) else queue_of n p'.
Proof.
  intros Hd Hq Hlt Hn. unfold queue_of in Hq.
  destruct (peer_senders n !! p) as [c|] eqn:Hc; [|done].
  destruct (outbound n !! c) as [[q' []]|] eqn:Ho; simpl in Hq; rewrite ?Ho in Hq; [|done..].
  injection Hq as ->.
  assert (net_send msg n =
    (Ok (), set_outbound (<[c := mkOutbound (q ++ [msg]) true]> (outbound n)) n)) as ->.
  { unfold net_send, Net_QuicNet, send, try_send.
    destruct msg; simplify_eq/=; by rewrite Hc, Ho, decide_True. }
  split; [done|]. split; [exact Hn|]. intros p'. unfold queue_of. cbn.
  destruct (peer_senders n !! p') as [c'|] eqn:Hc'; cbn.
  - case_decide as Hp; [subst p'; replace c' with c by congruence; by rewrite lookup_insert_eq|].
    rewrite lookup_insert_ne; [done|]. intros ->. by apply Hp, (Hn _ _ c').
  - case_decide; [congruence|done].
Qed.

(** Messages for which there is room are all taken, and wait in their queues. *)
Lemma node_takes l n :
  distinct n →
  (∀ msg, msg ∈ l → ∃ p q, dest_peer msg = Some p ∧ queue_of n p = Some q ∧
     (length q + length (for_peer p l) ≤ PER_PEER_OUTBOUND_QUEUE)%nat) →
  takes l n = true ∧
  ∀ p q, queue_of n p = Some q → queue_of (net_sends l n) p = Some (q ++ for_peer p l).
Proof.
  revert n; induction l as [|msg l IH]; intros n Hn Hl.
  { split; [done|]. intros p q Hq. by rewrite app_nil_r. }
  destruct (Hl msg) as (p & q & Hd & Hq & Hlen); [left|].
  assert (∀ p', for_peer p' (msg :: l) = (if decide (p' = p) then [msg] else []) ++ for_peer p' l)
    as Hfor.
  { intros p'. unfold for_peer. rewrite filter_cons, Hd. by repeat case_decide; simplify_eq. }
  rewrite Hfor, decide_True, length_app in Hlen by done. cbn [length] in Hlen.
  destruct (send_room msg p q n Hd Hq) as (Hok & Hn' & Hq'); [lia|done|].
  unfold net_sends in *. cbn [takes foldl].
  destruct (net_send msg n) as [r n1]. cbn [fst snd] in *. subst r.
  destruct (IH n1 Hn') as [Ht Hqs].
  - intros msg' Hin. destruct (Hl msg') as (p' & q0 & Hd' & Hq0 & Hlen'); [by right|].
    exists p'. rewrite Hq', Hfor, length_app in *. case_decide as Hp.
    + subst p'. exists (q ++ [msg]). split; [done|]. split; [done|].
      rewrite length_app. cbn [length]. lia.
    + exists q0. by split_and!.
  - split; [done|]. intros p' q0 Hq0. rewrite Hfor.
    specialize (Hqs p'). rewrite Hq' in Hqs. case_decide as Hp.
    + subst p'. replace q0 with q by congruence. rewrite app_assoc. by apply Hqs.
    + by apply Hqs.
Qed.
End QuicTakes.

(** ** What a publication sends to one peer *)
Module QuicCount.
Import QuicNet QuicTakes Flow RsPublish Rs.

(** The peer of a chunk that is sent. *)
Definition target (x : N * string * string * N * bytes) : N := let '(p, _, _, _, _) := x in p.

Lemma for_peer_split p l :
  length (for_peer p l) =
  (length (for_peer p (filter (λ msg, chunk_of msg = None) l)) +
   length (filter (λ x, target x = p) (omap chunk_of l)))%nat.
Proof.
  unfold for_peer. induction l as [|msg l IH]; [done|].
  destruct msg; cbn [omap list_omap chunk_of];
    rewrite !filter_cons; cbn [chunk_of target dest_peer];
    repeat case_decide; simplify_eq/=; rewrite ?filter_cons; cbn [dest_peer];
    rewrite ?decide_True, ?decide_False by congruence; cbn [length]; lia.
Qed.

Lemma length_filter_fmap {A B} (f : A → B) (P : B → Prop) (Q : A → Prop)
    `{!∀ x, Decision (P x), !∀ x, Decision (Q x)} l :
  (∀ x, P (f x) ↔ Q x) → length (filter P (f <$> l)) = length (filter Q l).
Proof.
  intros Hpq. induction l as [|x l IH]; [done|]. rewrite fmap_cons, !filter_cons.
  specialize (Hpq x). by repeat case_decide; cbn [length]; rewrite ?IH; try tauto.
Qed.

(** One message for each peer. *)
Lemma for_peer_each p (f : N → NetSend) l :
  (∀ q, dest_peer (f q) = Some q) → NoDup l → (length (for_peer p (f <$> l)) ≤ 1)%nat.
Proof.
  intros Hf. assert (∀ l, p ∉ l → for_peer p (f <$> l) = []) as Hno.
  { clear l. intros l. induction l as [|q l IH]; [done|]. intros [Hq Hl]%not_elem_of_cons.
    unfold for_peer in *. rewrite fmap_cons, filter_cons_False, IH; [done..|]. rewrite Hf. congruence. }
  induction 1 as [|q l Hq Hnd IH]; [cbn; lia|].
  unfold for_peer in *. rewrite fmap_cons, filter_cons, Hf. case_decide as Hp; [|done].
  injection Hp as ->. rewrite Hno by done. cbn. lia.
Qed.

Lemma for_peer_updates p ch m (maps : list bytes) l :
  (length maps ≤ 1)%nat → NoDup l →
  (length (for_peer p (maps ≫= λ b, routing_msgs ch m b l)) ≤ 1)%nat.
Proof.
  intros Hle Hnd. destruct maps as [|b [|]]; cbn in Hle; [cbn; lia| |lia].
  rewrite bind_singleton. by apply for_peer_each.
Qed.

Lemma pairs_of_peer p (ps : list N) (ids : list N) :
  NoDup ps → (length (filter (λ x : N * N, x.1 = p) (list_prod ps ids)) ≤ length ids)%nat.
Proof.
  intros Hnd. assert (∀ q l, filter (λ x : N * N, x.1 = p) (map (pair q) l) =
    if decide (q = p) then map (pair q) l else []) as Hmap.
  { intros q l. induction l as [|i l IH]; [by case_decide|]. cbn [map].
    rewrite filter_cons, IH. cbn. by case_decide. }
  assert (∀ qs, p ∉ qs → filter (λ x : N * N, x.1 = p) (list_prod qs ids) = []) as Hno.
  { intros qs. induction qs as [|q qs IH]; [done|]. intros [Hq Hqs]%not_elem_of_cons.
    cbn [list_prod]. by rewrite filter_app, Hmap, decide_False, IH by congruence. }
  induction Hnd as [|q qs Hq Hnd IH]; [cbn; lia|]. cbn [list_prod].
  rewrite filter_app, Hmap, length_app. case_decide as Hp; [|cbn; lia].
  subst q. rewrite Hno by done. rewrite length_map. cbn. lia.
Qed.

Section count.
Context `{Sha256, ReedSolomon}.

Lemma deliveries_of_peer p ch m (o : RsStrategy) X l :
  omap chunk_of l ≡ₚ deliveries ch m o X →
  (length (filter (λ x, target x = p) (omap chunk_of l)) ≤ N.to_nat (preamble_total (preamble o)))%nat.
Proof.
  intros ->. unfold deliveries. rewrite (length_filter_fmap _ _ (λ x : N * N, x.1 = p)) by by intros [].
  etrans; [apply pairs_of_peer, NoDup_elements|]. unfold range. by rewrite length_fmap, length_seq.
Qed.

(** A publication sends a peer an open, an update and the shards. *)
Lemma publication_of_peer p ch m pre (o : RsStrategy) X ws :
  let l := ws ≫= work_msgs ch m (bt_elements X) in
  omap chunk_of l ≡ₚ deliveries ch m o X → (length (omap routing ws) ≤ 1)%nat →
  (length (for_peer p (((λ q, SendSessionOpen q ch m pre []) <$> bt_elements X) ++ l)) ≤
    N.to_nat (preamble_total (preamble o)) + 2)%nat.
Proof.
  intros l Hl Hws. rewrite for_peer_app, length_app, (for_peer_split p l).
  pose proof (for_peer_each p (λ q, SendSessionOpen q ch m pre []) (bt_elements X)
    (λ _, eq_refl) (NoDup_bt_elements _)).
  pose proof (deliveries_of_peer p ch m o X l Hl).
  pose proof (for_peer_updates p ch m (updates ws) (bt_elements X)) as Hup.
  pose proof (work_msgs_updates ch m (bt_elements X) ws) as Hnot. fold l in Hnot. rewrite Hnot.
  unfold updates in Hup. rewrite length_fmap in Hup. specialize (Hup Hws (NoDup_bt_elements _)).
  unfold updates. lia.
Qed.
End count.
End QuicCount.

(** ** A publication over a node *)
Module QuicPublish.
Import QuicNet QuicTakes QuicCount Engine EngineLemmas EngineRel EngineSessions Flow RsPublish Swap.
Import RsLinkLemmas Rs RsLemmas RsTrace RsDrain.
Section publish.
Context `{Sha256, !Sha256Laws, ReedSolomon, !ReedSolomonLaws}.
Context {CT DT : Type} `{!Clock CT, !DeliverySink DeliveredMessage DT}.

(** There is room for the message in the queue of each subscriber. *)
Definition roomy (o : RsStrategy) (X : gset N) (n : Node) : Prop :=
  ∀ x, x ∈ X → ∃ q, queue_of n x = Some q ∧
    (length q + N.to_nat (preamble_total (preamble o)) + 2 ≤ PER_PEER_OUTBOUND_QUEUE)%nat.

(** A publication for which there is room is queued for every subscriber. *)
Lemma publish_queues payload cfg sd o ch m pre c (e : Engine RsStrategy Node CT DT) :
  let X := subscribers c in
  payload ≠ [] → new_origin_with_seed payload cfg sd = Some (Ok o) →
  coherent e → channels e !! ch = Some c → sessions c !! m = None →
  N.of_nat (size X) * (preamble_total (preamble o) + 1) < 2 ^ 64 →
  distinct (net e) → roomy o X (net e) →
  ∃ e' l, publish ch m o pre e = (Ok (), e') ∧
    (∀ x q, queue_of (net e) x = Some q → queue_of (net e') x = Some (q ++ for_peer x l)) ∧
    ∀ x, x ∈ X → SendSessionOpen x ch m pre [] ∈ for_peer x l ∧
      ∀ i, i < preamble_total (preamble o) →
        ∃ h, SendChunk x ch m i (default [] (slot o i)) h ∈ for_peer x l.
Proof.
  intros X Hp Ho Hco Hc Hm Hfew Hdi Hroom.
  destruct (publish_origin (λ _, True) (λ _ _, True) payload cfg sd o ch m pre c (trust e))
    as (e1 & s1 & work & Hpub & _ & _ & Hnet & Hof & Hperm & (ws & Hws & Hups) & _);
    [done|done|by apply plug_coherent|done..|].
  fold X in Hnet, Hof, Hperm, Hws, Hfew. set (opens := _ <$> bt_elements X) in Hnet.
  pose proof (publish_plain planner_wf ch m o pre c e Hc Hm) as Hplain. rewrite Hpub in Hplain.
  destruct (trusting_sends (opens ++ work) (net e) true) as [Hkept Hreal].
  change (mkTrusting (net e) true) with (net (trust e)) in Hkept, Hreal. rewrite <- Hnet in Hkept, Hreal.
  destruct (node_takes (opens ++ work) (net e) Hdi) as [Htakes Hq].
  { intros msg Hin. assert (∃ x, x ∈ X ∧ dest_peer msg = Some x) as (x & Hx & Hd).
    { apply elem_of_app in Hin as [(x & -> & Hx%elem_of_bt_elements)%list_elem_of_fmap|Hin]; [eauto|].
      rewrite Forall_forall in Hof. specialize (Hof _ Hin).
      destruct msg; try done; destruct Hof as [? _]; by eexists. }
    destruct (Hroom x Hx) as (q & Hqx & Hlen). exists x, q. split; [done|]. split; [done|].
    subst work. pose proof (publication_of_peer x ch m pre o X ws Hperm Hups) as Hcount.
    fold opens in Hcount. lia. }
  exists (plain e1), (opens ++ work). split; [|split].
  - apply Hplain; [|by rewrite Hkept, Htakes].
    apply (attach_all_leads c (Session.new_origin o)); [apply planner_inv|].
    by eapply new_origin_planner_wf.
  - intros x q Hx. change (net (plain e1)) with (real (net e1)). rewrite Hreal. by apply Hq.
  - intros x Hx. unfold for_peer. split.
    + apply list_elem_of_filter. split; [done|]. apply elem_of_app. left.
      apply list_elem_of_fmap. exists x. split; [done|]. by apply elem_of_bt_elements.
    + intros i Hi. destruct (new_origin_wf payload cfg sd o Hp Ho) as (k & pm & shards & He & _ & Heq).
      assert (∀ i, slot o i = shards !! N.to_nat i) as Hslot
        by (intros j; apply slot_origin; by rewrite Heq).
      pose proof (encoded_total _ _ _ _ _ He) as Ht.
      destruct (lookup_lt_is_Some_2 shards (N.to_nat i)) as [d Hd]; [lia|].
      destruct (proj2 (elem_of_deliveries _ _ _ _ _ _ _ _ _ x i d He Hslot Hperm)) as [h Hh]; [done|].
      exists h. rewrite Hslot, Hd. apply list_elem_of_filter. split; [done|].
      apply elem_of_app. by right.
Qed.
End publish.
End QuicPublish.

(** ** A relay that is sent chunks before the open *)
Module QuicReceive.
Import Engine EngineLemmas Hosting Parking RsReceive.
Import Rs RsLemmas RsTrace RsDrain.
Section receive.
Context `{Sha256, !Sha256Laws, ReedSolomon, !ReedSolomonLaws}.
Context `{Message Preamble, !MessageLaws Preamble}.
Context {NT CT DT : Type} `{!Net NT, !Clock CT, !DeliverySink DeliveredMessage DT}.
Context (held : CT → Prop) (time : N) `{!Within held time PARKED_CHUNK_TTL}.

Lemma run_app (os1 os2 : list (Engine.op (S:=RsStrategy)))
    (e : Engine RsStrategy NT CT (Recorded DeliveredMessage DT)) :
  run (os1 ++ os2) e = run os2 (run os1 e).
Proof. apply foldl_app. Qed.

(** No session is disposed of within [PARKED_CHUNK_TTL]. *)
Definition patient (cfg : EngineConfig) : Prop :=
  PARKED_CHUNK_TTL ≤ active_session_ttl cfg ∧ PARKED_CHUNK_TTL ≤ reconstructed_linger cfg.

Lemma patient_keeps ch m os (e : Engine RsStrategy NT CT (Recorded DeliveredMessage DT)) :
  coherent e → patient (Engine.config e) → held (clock e) → tombstones e !! (ch, m) = None →
  lookup_session e ch m = None → never_disposed ch m os e.
Proof.
  intros Hco Hp Hc Ht Hl os1 _.
  apply (yo_tombstone ch m held time (Engine.config e)), (young_run ch m held time); [done..|].
  by apply young_start.
Qed.

(** The chunks of a message count, whether they come before its open or after. *)
Lemma relay_catches_up payload k pm pr shards rc ch m q iu c os1 os2 D
    (e : Engine RsStrategy NT CT (Recorded DeliveredMessage DT)) :
  let ops : list (Engine.op (S:=RsStrategy)) :=
    os1 ++ Step (NetEvent.SessionOpen q ch m (encode_to_vec pr) iu) :: os2 in
  encoded payload k pm pr shards → coherent e → patient (Engine.config e) →
  tombstones e !! (ch, m) = None →
  channels e !! ch = Some c → sessions c !! m = None → parked_chunks e !! (ch, m) = None →
  builds_relays rc (factory c) →
  held (clock e) → Forall (quiet ch m) os1 →
  (length (omap (arrival ch m) os1) ≤ MAX_PARKED_CHUNKS_PER_MESSAGE)%nat →
  NoDup D → k ≤ N.of_nat (length D) →
  (∀ i, i ∈ D → ∃ d p, shards !! N.to_nat i = Some d ∧ Step (NetEvent.Chunk p ch m i d) ∈ ops) →
  (∀ i d p, Step (NetEvent.Chunk p ch m i d) ∈ ops → collision_free (shards !! N.to_nat i) d) →
  mkDelivered ch m payload ∈ offered (delivered (run ops e)).
Proof.
  intros ops He Hco Hpat Ht Hc Hm Hpk Hf Hheld Hquiet Hfew HND Hk HD Hcf.
  assert (never_disposed ch m ops e) as Hnd.
  { apply patient_keeps; try done. unfold lookup_session. by rewrite Hc. }
  assert (waiting ch m held time [] e) as Hw.
  { split; [|unfold parked_of; by rewrite Hpk|rewrite Hpk; by intros ? ?%elem_of_nil|done].
    unfold lookup_session. by rewrite Hc. }
  assert (waiting ch m held time (omap (arrival ch m) os1) (run os1 e)) as [Hl Hp _ _].
  { apply (waiting_run ch m held time os1 []); try done. intros os0 Hos0. apply Hnd.
    unfold ops. by apply prefix_app_r. }
  destruct (run_hosts os1 e ch c Hc) as (c1 & Hc1 & Hb1).
  unfold ops. rewrite run_app.
  eapply (relay_receives payload k pm pr shards rc ch m q iu c1 os2 D); try done.
  - by apply run_coherent.
  - intros os0 Hos0. rewrite <- run_app. apply Hnd. by apply prefix_app.
  - unfold lookup_session in Hl. by rewrite Hc1 in Hl.
  - unfold builds_relays in *. by rewrite Hb1.
  - intros i (d & p & Hd & Hin)%HD. exists d. split; [done|]. rewrite Hp.
    unfold ops in Hin. apply elem_of_app in Hin as [Hin|[Hin|Hin]%elem_of_cons]; [left|done|right; eauto].
    apply list_elem_of_omap. eexists. split; [exact Hin|]. cbn. by rewrite decide_True.
  - intros i d. rewrite Hp. intros [(a & Hin & Ha)%list_elem_of_omap|[p Hin]].
    + destruct a as [| | |[]]; try done. cbn in Ha. case_decide as Heq; [|done].
      injection Ha as -> ->. injection Heq as -> ->. eapply Hcf, elem_of_app. by left.
    + eapply Hcf, elem_of_app. right. by right.
Qed.
End receive.
End QuicReceive.

(** * Properties *)
Section properties.
Context `{Sha256, !Sha256Laws, ReedSolomon, !ReedSolomonLaws}.
Context `{Message Preamble, !MessageLaws Preamble}.
Context `{Message BcastFrame, Message SessFrame, Message Header, Message ChunkIdent}.
Context `{!MessageLaws BcastFrame, !MessageLaws SessFrame, !MessageLaws Header, !ChunkIdentLaws}.
Import Engine EngineLemmas HandlerRel Parking RsLinkLemmas RsReceive.
Import (hints) QuicNet.
Import Rs RsLemmas RsTrace RsDrain QuicTakes QuicPublish QuicReceive.

(** C3: a broadcast gets through over QUIC.  The origin's engine publishes a payload
    over a node on which every subscriber's queue has room for the message's
    shards and two messages more.  Then the publication succeeds, and it joins
    each subscriber's queue.  When the pump of the subscriber's connection has
    written the queue, and what it wrote before, on streams that take everything,
    and the subscriber's engine has handled every event that the readers of the
    streams made, in any order and among any other operations, its application is
    handed the payload.  Chunks from others do no harm, as long as none is another
    string with the SHA-256 digest of the shard it stands for.  All this takes at most
    [PARKED_CHUNK_TTL] on the subscriber's clock, for which it keeps its sessions; the
    chunks that arrive before the first open are parked, so there must be at most
    [MAX_PARKED_CHUNKS_PER_MESSAGE] of them. *)
Theorem quic_broadcast_delivers {CT DT NT' CT' DT' : Type}
    `{!Clock CT, !DeliverySink DeliveredMessage DT}
    `{!Net NT', !Clock CT', !DeliverySink DeliveredMessage DT'}
    (held : CT' → Prop) (time : N) `{!Within held time PARKED_CHUNK_TTL}
    (nos : list QuicNet.op) (p : N) (n0 : QuicNet.Node) (d : DT) (ecfg : EngineConfig) (ck : CT)
    (p' : N) (nt' : NT') (d' : DT') (ecfg' : EngineConfig) (ck' : CT')
    (os os' : list (Engine.op (S:=RsStrategy)))
    (payload : bytes) (cfg : RsConfig) (sd : N) (o : RsStrategy) (ch m : string)
    (c c' : Channel RsStrategy) (rc : RsConfig)
    (x s : N) (expected : option string) (past : list NetSend) :
  let n := snd (QuicNet.run nos QuicNet.bind) in
  let e := set_net n (run os (with_config p n0 d ecfg ck)) in
  let e' := run os' (with_config p' nt' (mkRecorded d' []) ecfg' ck') in
  let pre := encode_to_vec (preamble o) in
  Forall QuicNet.reports nos → QuicNet.inbound_open n = true →
  N.of_nat (QuicNet.next_conn n) + 1 < 2 ^ 64 →
  payload ≠ [] → new_origin_with_seed payload cfg sd = Some (Ok o) →
  channels e !! ch = Some c → sessions c !! m = None → x ∈ subscribers c →
  N.of_nat (size (subscribers c)) * (preamble_total (preamble o) + 1) < 2 ^ 64 →
  roomy o (subscribers c) n →
  channels e' !! ch = Some c' → sessions c' !! m = None → parked_chunks e' !! (ch, m) = None →
  tombstones e' !! (ch, m) = None → builds_relays rc (factory c') →
  patient ecfg' → held (clock e') →
  ∃ e1 q msgs, publish ch m o pre e = (Ok (), e1) ∧
    queue_of n x = Some q ∧ queue_of (net e1) x = Some (q ++ msgs) ∧
    let written := past ++ q ++ msgs in
    let outs := (λ bs, read_stream s true [] expected (mkRecv bs None)) <$>
      conn (peer_pump [] written) in
    Forall sendable written →
    (∀ y v l i r, expected = Some y → SendHandshake v l i r ∈ written → r = y) →
    ∀ s0 iu (os1 os2 : list (Engine.op (S:=RsStrategy))),
      let ops := os1 ++ Step (NetEvent.SessionOpen s0 ch m pre iu) :: os2 in
      Forall (quiet ch m) os1 →
      (length (omap (arrival ch m) os1) ≤ MAX_PARKED_CHUNKS_PER_MESSAGE)%nat →
      (∀ ev, ev ∈ outs ≫= events → Step ev ∈ ops) →
      (∀ i y s1, Step (NetEvent.Chunk s1 ch m i y) ∈ ops → collision_free (slot o i) y) →
      mkDelivered ch m payload ∈ offered (delivered (run ops e')).
Proof.
  intros n e e' pre Hrep Hopen Hconn Hp Ho Hc Hm Hx Hfew Hroom Hc' Hm' Hpk Htb Hf Hpat Hheld.
  assert (coherent e') as Hco' by apply run_coherent, with_config_coherent.
  assert (Engine.config e' = ecfg') as Hcfg.
  { unfold e'. rewrite run_config. unfold with_config. by destruct (clock_now ck'). }
  assert (coherent e) as Hco.
  { assert (coherent (run os (with_config p n0 d ecfg ck))) as [] by
      apply run_coherent, with_config_coherent. by split. }
  destruct (publish_queues payload cfg sd o ch m pre c e) as (e1 & l & Hpub & Hq & Hin);
    [done..|by apply run_distinct|done|].
  destruct (Hroom x Hx) as (q & Hqx & _). exists e1, q, (for_peer x l).
  split; [done|]. split; [done|]. split; [by apply Hq|].
  intros written outs Hs Hpin s0 iu os1 os2 ops Hquiet Hparked Hevs Hcf.
  destruct (pump_reads s written expected Hs Hpin) as (cs & Hcar & Houts & Hbind).
  assert (∀ msg, msg ∈ for_peer x l → carried msg → Step (MemoryNet.event_of s msg) ∈ ops) as Hstep.
  { intros msg Hmsg Hcarr. apply Hevs. unfold outs. rewrite Houts, Hbind, (car_events _ _ _ _ Hcar).
    apply list_elem_of_fmap_2, list_elem_of_filter. split; [done|].
    unfold written. rewrite !elem_of_app. auto. }
  destruct (Hin x Hx) as [_ Hchunks].
  destruct (new_origin_wf payload cfg sd o Hp Ho) as (k & pm & shards & He & _ & Heq).
  assert (∀ i, slot o i = shards !! N.to_nat i) as Hslot
    by (intros i; apply slot_origin; by rewrite Heq).
  pose proof (encoded_total _ _ _ _ _ He) as Ht.
  apply (relay_catches_up held time payload k pm (preamble o) shards rc ch m s0 iu c' os1 os2
    (range (preamble_total (preamble o))) e'); try done.
  - by rewrite Hcfg.
  - apply NoDup_range.
  - unfold range. rewrite length_fmap, length_seq. pose proof (en_total _ _ _ _ _ He). lia.
  - intros i Hi%elem_of_range. destruct (Hchunks i Hi) as [h Hh].
    destruct (lookup_lt_is_Some_2 shards (N.to_nat i)) as [y Hy]; [lia|].
    exists y, s. split; [done|]. specialize (Hstep _ Hh I). cbn in Hstep.
    by rewrite Hslot, Hy in Hstep.
  - intros i y s1 Hev. rewrite <- Hslot. by eapply Hcf.
Qed.
End properties.

(** ** A broadcast over a node with two connections *)
Module QuicBroadcastExample.
Import Engine Parking RsReceive Rs RsDrain QuicTakes QuicPublish XorCode.
Import EngineAuth.AuthExample BroadcastExample.
Import (hints) QuicNet.
#[local] Existing Instances Message_short MessageLaws_short.
#[local] Existing Instances RsEngineExample.Net_ScriptNet RsEngineExample.Clock_list
  RsEngineExample.Sink_list.
#[local] Existing Instances Message_ident ChunkIdentLaws_ident.
#[local] Existing Instances TransportExample.bcast_msg TransportExample.sess_msg
  TransportExample.header_msg TransportExample.bcast_laws TransportExample.sess_laws
  TransportExample.header_laws.

(** The factory that is not seeded. *)
Definition clocked : StrategyFactory RsStrategy :=
  rs_relay_factory RsEngineExample.relay_config (λ n, Some (123456789 + n)) 321.
Lemma clocked_builds : builds_relays RsEngineExample.relay_config clocked.
Proof. right. by eexists _, _. Qed.

(** A clock that stands still. *)
Definition still (c : list N) : Prop := c = [0].
#[local] Instance within_still : Within still 0 PARKED_CHUNK_TTL.
Proof. intros c ->. vm_compute. split_and!; [discriminate|discriminate|reflexivity]. Qed.

(** Peers 1 and 2 are connected; the queue of peer 1 holds a subscription. *)
Definition connections : list QuicNet.op :=
  [ QuicNet.FetchAdd None; QuicNet.FetchAdd None; QuicNet.InsertSender 1; QuicNet.Announce 1;
    QuicNet.InsertSender 0; QuicNet.Announce 0; QuicNet.Send (SendSubscribe 1 "c") ].
Definition node : QuicNet.Node := snd (QuicNet.run connections QuicNet.bind).
Definition origin_node : Engine RsStrategy QuicNet.Node (list N) (list DeliveredMessage) :=
  set_net node (run (origin_ops clocked)
    (with_config 9 QuicNet.bind [] EngineConfig_default [0])).

Lemma origin_node_hosts f :
  channels (set_net node (run (origin_ops f)
    (with_config 9 QuicNet.bind [] EngineConfig_default [0] : Engine RsStrategy QuicNet.Node (list N)
       (list DeliveredMessage)))) !! "c"%string = Some (origin_channel f).
Proof. vm_compute. reflexivity. Qed.
Lemma relay_parks_nothing f : parked_chunks (relay_engine f) !! ("c", "m")%string = None.
Proof. vm_compute. reflexivity. Qed.
Lemma relay_buries_nothing f : tombstones (relay_engine f) !! ("c", "m")%string = None.
Proof. vm_compute. reflexivity. Qed.
Lemma relay_still f : still (clock (relay_engine f)).
Proof. vm_compute. reflexivity. Qed.

(** Two chunks come before the open, and one of them again after it. *)
Definition early : list (Engine.op (S:=RsStrategy)) :=
  [ Step (NetEvent.Chunk 9 "c" "m" 1 (shard 1)); Step (NetEvent.PeerConnected 3);
    Step (NetEvent.Chunk 9 "c" "m" 2 (shard 2)) ].
Definition late : list (Engine.op (S:=RsStrategy)) :=
  [ Step (NetEvent.Subscribe 9 "c"); Step (NetEvent.Chunk 2 "c" "m" 2 (shard 2));
    Step (NetEvent.Chunk 9 "c" "m" 0 (shard 0)) ].
Definition handled : list (Engine.op (S:=RsStrategy)) :=
  early ++ Step (NetEvent.SessionOpen 9 "c" "m" [Byte.x01] []) :: late.

(** What is queued for peer 1. *)
Definition queued : list NetSend :=
  [ SendSubscribe 1 "c"; SendSessionOpen 1 "c" "m" [Byte.x01] [];
    SendRoutingUpdate 1 "c" "m" [Byte.x07]; SendChunk 1 "c" "m" 2 (shard 2) 0;
    SendChunk 1 "c" "m" 1 (shard 1) 2; SendChunk 1 "c" "m" 0 (shard 0) 4 ].

Lemma queued_published :
  queue_of (net (snd (publish "c" "m" origin [Byte.x01] origin_node))) 1 = Some queued.
Proof. vm_compute. reflexivity. Qed.

Lemma queued_events :
  ((λ bs, read_stream 9 true [] None (mkRecv bs None)) <$> conn (peer_pump [] queued)) ≫= events =
  [ NetEvent.Subscribe 9 "c"; NetEvent.SessionOpen 9 "c" "m" [Byte.x01] [];
    NetEvent.Chunk 9 "c" "m" 2 (shard 2); NetEvent.Chunk 9 "c" "m" 1 (shard 1);
    NetEvent.Chunk 9 "c" "m" 0 (shard 0) ].
Proof. vm_compute. reflexivity. Qed.

Lemma queued_sendable : Forall sendable queued.
Proof. repeat constructor; vm_compute; discriminate. Qed.

Lemma node_roomy : roomy origin {[1; 2]} node.
Proof.
  intros x [Hx%elem_of_singleton|Hx%elem_of_singleton]%elem_of_union; subst x;
    eexists; (split; [vm_compute; reflexivity|vm_compute; lia]).
Qed.

Lemma handled_collision_free i d s :
  Step (NetEvent.Chunk s "c" "m" i d) ∈ handled →
  collision_free ([shard 0; shard 1; shard 2] !! N.to_nat i) d.
Proof.
  unfold handled, early, late. cbn [app]. rewrite !elem_of_cons, elem_of_nil.
  intros Hs g Hg _. destruct_or? Hs; simplify_eq; try done; by injection Hg as <-.
Qed.

Lemma quic_broadcast_delivers_witness :
  mkDelivered "c" "m" payload ∈ offered (delivered (run handled (relay_engine clocked))).
Proof.
  pose proof (quic_broadcast_delivers still 0 connections 9 QuicNet.bind [] EngineConfig_default [0]
    1 (RsEngineExample.mkScriptNet [] []) [] EngineConfig_default [0]
    (origin_ops clocked) (relay_ops clocked) payload config 7 origin "c" "m"
    (origin_channel clocked) (relay_channel clocked) RsEngineExample.relay_config 1 9 None []) as Hb.
  cbv zeta in Hb. destruct Hb as (e1 & q & msgs & Hpub & Hq & Hq1 & Hdel).
  - repeat constructor.
  - vm_compute. reflexivity.
  - vm_compute. reflexivity.
  - discriminate.
  - vm_compute. reflexivity.
  - apply origin_node_hosts.
  - apply lookup_empty.
  - set_solver.
  - vm_compute. reflexivity.
  - exact node_roomy.
  - apply relay_hosts.
  - apply lookup_empty.
  - apply relay_parks_nothing.
  - apply relay_buries_nothing.
  - exact clocked_builds.
  - split; vm_compute; discriminate.
  - apply relay_still.
  - assert (Rs.preamble origin = XorCode.preamble) as Hpre by (vm_compute; reflexivity).
    rewrite Hpre in *. change (encode_to_vec XorCode.preamble) with [Byte.x01] in *.
    pose proof queued_published as Hall. unfold origin_node, node in Hall. rewrite Hpub in Hall.
    cbn [snd] in Hall. rewrite Hq1 in Hall. injection Hall as Hall.
    cbn [app] in Hdel. rewrite Hall, queued_events in Hdel.
    apply (Hdel queued_sendable) with (s0 := 9) (iu := []) (os1 := early) (os2 := late); clear.
    + done.
    + repeat constructor.
    + vm_compute. lia.
    + intros ev Hev. unfold early, late. set_solver.
    + intros i y s1 Hin. rewrite origin_slot. by eapply handled_collision_free.
Defined.
End QuicBroadcastExample.
