(* ===== verification/Sim.v ===== *)
(** The discrete-event core of the simulator: [ethp2p-sim/src/state.rs], the
    fault plan, hub and endpoints of [net.rs], the data of [trace.rs] and the
    clock of [clock.rs].

    The hub's state is behind a mutex and every call locks it once, so it is one
    record passed from call to call.  Virtual times are offsets in nanoseconds.
    A fault predicate is an [FnMut] closure: [pred_test] takes its captured state,
    of type [PS], and returns the next one.  The random generator is that of the
    crate [rand_chacha], a parameter ([Rng]); probabilities are [f64]s, compared
    as [SpecFloat] does. *)
From Stdlib Require Import NArith Lia SpecFloat.
From stdpp Require Import base gmap option strings list sorting.
From S2P Require Import Prelude Heap Runtime MemoryNet.

Open Scope N_scope.

(** [ChaCha8Rng], with [random::<f64>()] and [random_range(0..=max)]. *)
Class Rng (G : Type) := {
  seed_from_u64 : N → G;
  random_f64 : G → spec_float * G;
  random_range : N → G → N * G
}.

(** [random_range(0..=max)] is in its range. *)
Class RngRange (G : Type) `{!Rng G} :=
  random_range_le max g : fst (random_range max g) ≤ max.

(** * [trace.rs] *)
Inductive DropReason := Rule | InPartition | Random.

Inductive Disposition :=
  | Delivered (deliver_at : N)
  | Dropped (reason : DropReason).

Module MsgKind.
Inductive t :=
  | Handshake | Subscribe | Unsubscribe | SessionOpen | RoutingUpdate
  | Chunk (chunk_id : N).

(** [MsgKind::of]; [None] is the [unreachable!] arm. *)
Definition of_send (msg : NetSend) : option t :=
  match msg with
  | SendHandshake _ _ _ _ => Some Handshake
  | SendSubscribe _ _ => Some Subscribe
  | SendUnsubscribe _ _ => Some Unsubscribe
  | SendSessionOpen _ _ _ _ _ => Some SessionOpen
  | SendRoutingUpdate _ _ _ _ => Some RoutingUpdate
  | SendChunk _ _ _ chunk_id _ _ => Some (Chunk chunk_id)
  | SendSessionReconstructed _ _ => None
  end.
End MsgKind.

Inductive TraceKind :=
  | TraceSend (src dst : N) (msg : MsgKind.t) (disposition : Disposition)
  | EngineStep (peer : N).

Record TraceEntry := mkTraceEntry {
  tr_at : N;
  tr_seq : N;
  tr_kind : TraceKind
}.

(** [Duration::MAX], and [+] on durations; [None] is its panic. *)
Definition DURATION_MAX : N := (2 ^ 64 - 1) * 1000000000 + 999999999.

Definition duration_add (a b : N) : option N :=
  if decide (a + b ≤ DURATION_MAX) then Some (a + b) else None.

(** * Messages and fault rules of [net.rs] *)

(** [destination]; [None] is the [unreachable!] arm. *)
Definition destination (msg : NetSend) : option N :=
  match msg with
  | SendHandshake peer _ _ _ | SendSubscribe peer _ | SendUnsubscribe peer _
  | SendSessionOpen peer _ _ _ _ | SendRoutingUpdate peer _ _ _
  | SendChunk peer _ _ _ _ _ => Some peer
  | SendSessionReconstructed _ _ => None
  end.

(** [into_event]; [None] is the [unreachable!] arm. *)
Definition into_event (src : N) (msg : NetSend) : option NetEvent.t :=
  match msg with
  | SendHandshake _ version channels peer_id =>
      Some (NetEvent.Handshake src version channels peer_id)
  | SendSubscribe _ channel => Some (NetEvent.Subscribe src channel)
  | SendUnsubscribe _ channel => Some (NetEvent.Unsubscribe src channel)
  | SendSessionOpen _ channel message_id preamble initial_update =>
      Some (NetEvent.SessionOpen src channel message_id preamble initial_update)
  | SendRoutingUpdate _ channel message_id payload =>
      Some (NetEvent.RoutingUpdate src channel message_id payload)
  | SendChunk _ channel message_id chunk_id payload _ =>
      Some (NetEvent.Chunk src channel message_id chunk_id payload)
  | SendSessionReconstructed _ _ => None
  end.

(** [Classification]. *)
Inductive Classification :=
  | Deliver (delay : N)
  | Drop (reason : DropReason).

(** [SendPredicate]. *)
Record SendPredicate (PS : Type) := mkPred {
  pred_state : PS;
  pred_test : PS → NetSend → bool * PS
}.
Arguments mkPred {PS} pred_state pred_test.
Arguments pred_state {PS} _.
Arguments pred_test {PS} _.

Definition call_pred {PS} (p : SendPredicate PS) (msg : NetSend) : bool * SendPredicate PS :=
  let '(b, s) := pred_test p (pred_state p) msg in (b, mkPred s (pred_test p)).

(** [FaultAction] and [FaultRule]. *)
Inductive FaultAction (PS : Type) :=
  | DropIf (pred : SendPredicate PS)
  | DropWithProbability (p : spec_float)
  | DelayIf (pred : SendPredicate PS) (delay : N)
  | DelayJitter (max : N)
  | Partition (from until : N).
Arguments DropIf {PS} pred.
Arguments DropWithProbability {PS} p.
Arguments DelayIf {PS} pred delay.
Arguments DelayJitter {PS} max.
Arguments Partition {PS} from until.

Record FaultRule (PS : Type) := mkRule {
  r_src : N;
  r_dst : N;
  action : FaultAction PS
}.
Arguments mkRule {PS} r_src r_dst action.
Arguments r_src {PS} _.
Arguments r_dst {PS} _.
Arguments action {PS} _.

(** [FaultPlan]. *)
Record FaultPlan (PS G : Type) := mkPlan {
  plan_seed : N;
  rules : list (FaultRule PS);
  rng : G
}.
Arguments mkPlan {PS G} plan_seed rules rng.
Arguments plan_seed {PS G} _.
Arguments rules {PS G} _.
Arguments rng {PS G} _.

Module FaultPlan.
Section plan.
Context {PS G : Type} `{!Rng G}.
Implicit Type p : FaultPlan PS G.

Definition new (seed : N) : FaultPlan PS G := mkPlan seed [] (seed_from_u64 seed).

Definition push_rule p (r : FaultRule PS) : FaultPlan PS G :=
  mkPlan (plan_seed p) (rules p ++ [r]) (rng p).

Definition drop_if p (src dst : N) (pred : SendPredicate PS) :=
  push_rule p (mkRule src dst (DropIf pred)).
Definition drop_with_probability p (src dst : N) (probability : spec_float) :=
  push_rule p (mkRule src dst (DropWithProbability probability)).
Definition delay_if p (src dst delay : N) (pred : SendPredicate PS) :=
  push_rule p (mkRule src dst (DelayIf pred delay)).
Definition delay_jitter p (src dst max : N) :=
  push_rule p (mkRule src dst (DelayJitter max)).
Definition partition p (a b from until : N) :=
  push_rule (push_rule p (mkRule a b (Partition from until))) (mkRule b a (Partition from until)).

(** One matching rule: a reason to drop, or the delay it adds, with the rule
    and the generator afterwards.  A jitter above [u64::MAX] nanoseconds is
    clamped to it. *)
Definition apply_action (a : FaultAction PS) (g : G) (now : N) (msg : NetSend)
    : (DropReason + N) * FaultAction PS * G :=
  match a with
  | Partition from until =>
      (if decide (from ≤ now ∧ now < until) then inl InPartition else inr 0, a, g)
  | DropIf pred =>
      let '(b, pred) := call_pred pred msg in
      (if b then inl Rule else inr 0, DropIf pred, g)
  | DropWithProbability p =>
      let '(x, g) := random_f64 g in
      (if SFltb x p then inl Random else inr 0, a, g)
  | DelayIf pred d =>
      let '(b, pred) := call_pred pred msg in
      (inr (if b then d else 0), DelayIf pred d, g)
  | DelayJitter max =>
      let max_nanos := N.min max (2 ^ 64 - 1) in
      let '(x, g) := random_range max_nanos g in (inr x, a, g)
  end.

(** The loop of [classify] over the rules; [None] is the panic of [delay += d]. *)
Fixpoint classify_rules (rs : list (FaultRule PS)) (g : G) (src dst now : N)
    (msg : NetSend) (delay : N) : option (Classification * list (FaultRule PS) * G) :=
  match rs with
  | [] => Some (Deliver delay, [], g)
  | rule :: rs =>
      if decide (r_src rule ≠ src ∨ r_dst rule ≠ dst) then
        '(c, rs, g) ← classify_rules rs g src dst now msg delay;
        Some (c, rule :: rs, g)
      else
        match apply_action (action rule) g now msg with
        | (inl reason, a, g) =>
            Some (Drop reason, mkRule (r_src rule) (r_dst rule) a :: rs, g)
        | (inr d, a, g) =>
            delay ← duration_add delay d;
            '(c, rs, g) ← classify_rules rs g src dst now msg delay;
            Some (c, mkRule (r_src rule) (r_dst rule) a :: rs, g)
        end
  end.

Definition classify p (src dst now : N) (msg : NetSend)
    : option (Classification * FaultPlan PS G) :=
  '(c, rs, g) ← classify_rules (rules p) (rng p) src dst now msg 0;
  Some (c, mkPlan (plan_seed p) rs g).
End plan.
End FaultPlan.

(** * [state.rs] *)

(** [PumpStep]. *)
Inductive PumpStep := DeliveredTo (peer : N) | Woke.

(** [Pending]; a sleeper is named by the sequence number of its entry. *)
Inductive Pending :=
  | Delivery (dst : N) (event : NetEvent.t)
  | Wakeup (sleeper : N).

(** [Entry] and its reversed [Ord]: the smallest [(at, seq)] pops first. *)
Record Entry := mkEntry {
  at_ : N;
  seq : N;
  pending : Pending
}.

Definition entry_le (a b : Entry) : bool :=
  bool_decide (at_ a < at_ b ∨ at_ a = at_ b ∧ seq a ≤ seq b).

(** [SimState], with the queues behind the inboxes and the sleepers that have
    been woken. *)
Record SimState (PS G : Type) := mkState {
  now : N;
  next_seq : N;
  heap : list Entry;
  sim_start : N;
  plan : FaultPlan PS G;
  trace : list TraceEntry;
  inboxes : gmap N nat;
  queues : gmap nat MemoryNet.Queue;
  next_queue : nat;
  done : gset N
}.
Arguments mkState {PS G} now next_seq heap sim_start plan trace inboxes queues next_queue done.
Arguments now {PS G} _.
Arguments next_seq {PS G} _.
Arguments heap {PS G} _.
Arguments sim_start {PS G} _.
Arguments plan {PS G} _.
Arguments trace {PS G} _.
Arguments inboxes {PS G} _.
Arguments queues {PS G} _.
Arguments next_queue {PS G} _.
Arguments done {PS G} _.

Module SimState.
Section state.
Context {PS G : Type} `{!Rng G}.
Implicit Type s : SimState PS G.

Definition new (plan : FaultPlan PS G) (sim_start : N) : SimState PS G :=
  mkState 0 0 [] sim_start plan [] ∅ ∅ 0 ∅.

Definition wall_now s : N := sim_start s + now s.

(** [next_seq()], before the increment. *)
Definition bump s : SimState PS G :=
  mkState (now s) (u64_add (next_seq s) 1) (heap s) (sim_start s) (plan s) (trace s)
    (inboxes s) (queues s) (next_queue s) (done s).

Definition set_plan v s : SimState PS G :=
  mkState (now s) (next_seq s) (heap s) (sim_start s) v (trace s)
    (inboxes s) (queues s) (next_queue s) (done s).

Definition push_trace (t : TraceEntry) s : SimState PS G :=
  mkState (now s) (next_seq s) (heap s) (sim_start s) (plan s) (trace s ++ [t])
    (inboxes s) (queues s) (next_queue s) (done s).

Definition push_entry (e : Entry) s : SimState PS G :=
  mkState (now s) (next_seq s) (heap_push entry_le e (heap s)) (sim_start s) (plan s) (trace s)
    (inboxes s) (queues s) (next_queue s) (done s).

Definition set_queues v s : SimState PS G :=
  mkState (now s) (next_seq s) (heap s) (sim_start s) (plan s) (trace s)
    (inboxes s) v (next_queue s) (done s).

Definition set_now v s : SimState PS G :=
  mkState v (next_seq s) (heap s) (sim_start s) (plan s) (trace s)
    (inboxes s) (queues s) (next_queue s) (done s).

(** [submit_send]; [None] is a panic. *)
Definition submit_send (src : N) (msg : NetSend) s
    : option (result NetError unit * SimState PS G) :=
  match msg with
  | SendSessionReconstructed _ _ => Some (Ok (), s)
  | _ =>
      dst ← destination msg;
      if negb (contains_key (inboxes s) dst) then Some (Err (PeerNotFound dst), s)
      else
        kind ← MsgKind.of_send msg;
        let seq := next_seq s in
        let s := bump s in
        '(c, p) ← FaultPlan.classify (plan s) src dst (now s) msg;
        let s := set_plan p s in
        match c with
        | Drop reason =>
            Some (Ok (),
              push_trace (mkTraceEntry (now s) seq (TraceSend src dst kind (Dropped reason))) s)
        | Deliver delay =>
            deliver_at ← duration_add (now s) delay;
            event ← into_event src msg;
            Some (Ok (),
              push_entry (mkEntry deliver_at seq (Delivery dst event))
                (push_trace
                   (mkTraceEntry (now s) seq (TraceSend src dst kind (Delivered deliver_at))) s))
        end
  end.

(** [schedule_wakeup]; the sleep future it returns is the sleeper's name. *)
Definition schedule_wakeup (at_time : N) s : N * SimState PS G :=
  let seq := next_seq s in
  (seq, push_entry (mkEntry at_time seq (Wakeup seq)) (bump s)).

(** Polling a [Sleep]. *)
Definition poll_sleep (sleeper : N) s : bool := bool_decide (sleeper ∈ done s).

(** [tx.send(event)] on an inbox; a closed one loses the event. *)
Definition inbox_send (q : nat) (event : NetEvent.t) s : SimState PS G :=
  match queues s !! q with
  | Some (MemoryNet.mkQueue evs true) =>
      set_queues (<[q := MemoryNet.mkQueue (evs ++ [event]) true]> (queues s)) s
  | _ => s
  end.

Definition pop_next s : option (PumpStep * SimState PS G) :=
  '(e, h) ← heap_pop (heap s);
  let s := mkState (at_ e) (next_seq s) h (sim_start s) (plan s) (trace s)
             (inboxes s) (queues s) (next_queue s) (done s) in
  match pending e with
  | Delivery dst event =>
      Some (DeliveredTo dst,
        match inboxes s !! dst with
        | Some q => inbox_send q event s
        | None => s
        end)
  | Wakeup sleeper =>
      Some (Woke,
        mkState (now s) (next_seq s) (heap s) (sim_start s) (plan s) (trace s)
          (inboxes s) (queues s) (next_queue s) ({[sleeper]} ∪ done s))
  end.

(** The loop of [advance_to]; it takes an entry off the heap in every round, so
    the length of the heap is enough fuel. *)
Fixpoint advance_loop (fuel : nat) (target : N) s : SimState PS G :=
  match fuel with
  | O => s
  | S fuel =>
      match head (heap s) with
      | Some e =>
          if decide (at_ e ≤ target) then
            match pop_next s with
            | Some (_, s) => advance_loop fuel target s
            | None => s
            end
          else s
      | None => s
      end
  end.

Definition advance_to (target : N) s : SimState PS G :=
  let s := advance_loop (length (heap s)) target s in
  if decide (now s < target) then set_now target s else s.

Definition record_engine_step (peer : N) s : SimState PS G :=
  let seq := next_seq s in
  let s := bump s in
  push_trace (mkTraceEntry (now s) seq (EngineStep peer)) s.

(** [SimNetHub::endpoint]: a new queue, registered as the peer's inbox. *)
Definition endpoint (peer_id : N) s : nat * SimState PS G :=
  let q := next_queue s in
  (q, mkState (now s) (next_seq s) (heap s) (sim_start s) (plan s) (trace s)
        (<[peer_id := q]> (inboxes s)) (<[q := MemoryNet.mkQueue [] true]> (queues s))
        (S q) (done s)).

(** [SimClock::sleep]; [None] is the panic of [state.now() + d]. *)
Definition sleep (d : N) s : option (N * SimState PS G) :=
  at_time ← duration_add (now s) d;
  Some (schedule_wakeup at_time s).

(** The loop of [pump_all]: the entries processed. *)
Fixpoint pump_loop (fuel n : nat) s : nat * SimState PS G :=
  match fuel with
  | O => (n, s)
  | S fuel =>
      match pop_next s with
      | Some (_, s) => pump_loop fuel (S n) s
      | None => (n, s)
      end
  end.

Definition pump_all s : nat * SimState PS G := pump_loop (length (heap s)) 0 s.
End state.
End SimState.

(** * Runs of the simulated network *)
Module SimTrace.
Import SimState.
Section trace.
Context {PS G : Type} `{!Rng G}.
Implicit Type s : SimState PS G.

(** The calls of the endpoints, the clock and the runner. *)
Inductive op :=
  | Endpoint (peer : N)
  | Send (src : N) (msg : NetSend)
  | Sleep (d : N)
  | Pump
  | AdvanceTo (target : N)
  | RecordStep (peer : N).

Definition step (o : op) s : option (SimState PS G) :=
  match o with
  | Endpoint peer => Some (snd (endpoint peer s))
  | Send src msg => snd <$> submit_send src msg s
  | Sleep d => snd <$> sleep d s
  | Pump => Some (match pop_next s with Some (_, s) => s | None => s end)
  | AdvanceTo target => Some (advance_to target s)
  | RecordStep peer => Some (record_engine_step peer s)
  end.

(** The entry a call puts on the heap: a message that the plan lets through, at
    the time the plan gives it, or a wakeup. *)
Definition schedules (o : op) s : list Entry :=
  match o with
  | Send src msg =>
      match destination msg, into_event src msg with
      | Some dst, Some event =>
          if contains_key (inboxes s) dst then
            match FaultPlan.classify (plan s) src dst (now s) msg with
            | Some (Deliver delay, _) =>
                [mkEntry (now s + delay) (next_seq s) (Delivery dst event)]
            | _ => []
            end
          else []
      | _, _ => []
      end
  | Sleep d => [mkEntry (now s + d) (next_seq s) (Wakeup (next_seq s))]
  | _ => []
  end.

(** The entries a call processes: the first one, or all that are due. *)
Definition processes (o : op) s : list Entry :=
  match o with
  | Pump => option_list (head (heap s))
  | AdvanceTo target => filter (λ e, at_ e ≤ target) (heap s)
  | _ => []
  end.

(** The entries scheduled and processed by a run, in order, and the state. *)
Fixpoint run (os : list op) s : option (list Entry * list Entry * SimState PS G) :=
  match os with
  | [] => Some ([], [], s)
  | o :: os =>
      s1 ← step o s;
      '(sch, pro, s2) ← run os s1;
      Some (schedules o s ++ sch, processes o s ++ pro, s2)
  end.

Definition trace_le (a b : TraceEntry) : Prop := tr_at a ≤ tr_at b ∧ tr_seq a < tr_seq b.

(** The most the rules can delay one message. *)
Definition action_delay (a : FaultAction PS) : N :=
  match a with
  | DelayIf _ d => d
  | DelayJitter max => N.min max (2 ^ 64 - 1)
  | _ => 0
  end.

Definition plan_delay (rs : list (FaultRule PS)) : N :=
  foldr (λ r n, action_delay (action r) + n) 0 rs.

(** How far into the future a call reaches, when the rules delay by at most [D]. *)
Definition reach (D : N) (o : op) : N :=
  match o with
  | Send _ _ => D
  | Sleep d => d
  | AdvanceTo target => target
  | _ => 0
  end.

Definition horizon (D : N) (os : list op) : N := foldr (λ o n, reach D o + n) 0 os.

Record bounded (D B : N) s : Prop := {
  b_now : now s ≤ B;
  b_heap e : e ∈ heap s → at_ e ≤ B;
  b_plan : plan_delay (rules (plan s)) = D
}.

(** The entries processed so far, then those still on the heap, are in order;
    none is scheduled in the past; sequence numbers are fresh. *)
Record inv (pro : list Entry) (k : N) s : Prop := {
  inv_sorted : StronglySorted entry_le (pro ++ heap s);
  inv_pro e : e ∈ pro → at_ e ≤ now s ∧ seq e < next_seq s;
  inv_heap e : e ∈ heap s → now s ≤ at_ e ∧ seq e < next_seq s;
  inv_trace : StronglySorted trace_le (trace s);
  inv_trace_now t : t ∈ trace s → tr_at t ≤ now s ∧ tr_seq t < next_seq s;
  inv_seq : next_seq s ≤ k
}.

Lemma at_seq_le_spec a b :
  entry_le a b ↔ at_ a < at_ b ∨ at_ a = at_ b ∧ seq a ≤ seq b.
Proof. unfold entry_le. by rewrite bool_decide_spec. Qed.

Lemma at_seq_le_trans a b c : entry_le a b → entry_le b c → entry_le a c.
Proof. rewrite !at_seq_le_spec. lia. Qed.

Lemma at_seq_le_total a b : entry_le a b ∨ entry_le b a.
Proof. rewrite !at_seq_le_spec. lia. Qed.

Lemma StronglySorted_app_iff {A} (R : A → A → Prop) l1 l2 :
  StronglySorted R (l1 ++ l2) ↔
  StronglySorted R l1 ∧ StronglySorted R l2 ∧ ∀ x y, x ∈ l1 → y ∈ l2 → R x y.
Proof.
  induction l1 as [|x l1 IH]; simpl.
  - split; [|tauto]. intros H. split; [constructor|]. split; [done|].
    by intros ?? ?%elem_of_nil.
  - split.
    + intros H. inversion H as [|? ? H1 H2]; subst. apply IH in H1 as (H1 & H3 & H4).
      apply Forall_app in H2 as [H2 H5]. split; [by constructor|]. split; [done|].
      intros a b [->|Ha]%elem_of_cons Hb; [by eapply Forall_forall in H5|auto].
    + intros (H1 & H2 & H3). inversion H1 as [|? ? H4 H5]; subst. constructor.
      * apply IH. split; [done|]. split; [done|]. intros a b Ha. apply H3. by right.
      * apply Forall_app. split; [done|]. apply Forall_forall. intros y Hy.
        apply H3; [by left|done].
Qed.

Lemma StronglySorted_weaken {A} (R R' : A → A → Prop) l :
  (∀ x y, R x y → R' x y) → StronglySorted R l → StronglySorted R' l.
Proof.
  intros HR. induction 1 as [|x l _ IH Hx]; constructor; [done|].
  eapply Forall_impl; [done|]. auto.
Qed.

Lemma inv_bump pro k s :
  inv pro k s → k + 1 < 2 ^ 64 → inv pro (k + 1) (bump s) ∧ next_seq (bump s) = next_seq s + 1.
Proof.
  intros [] Hk. assert (next_seq (bump s) = next_seq s + 1) as Hb.
  { simpl. unfold u64_add. apply N.mod_small. lia. }
  split; [|done]. split; try done; rewrite ?Hb.
  - intros e He. specialize (inv_pro0 e He). simpl. lia.
  - intros e He. specialize (inv_heap0 e He). simpl. lia.
  - intros t Ht. specialize (inv_trace_now0 t Ht). simpl. lia.
  - lia.
Qed.

Lemma inv_push_trace pro k s t :
  inv pro k s → tr_at t = now s → (∀ t', t' ∈ trace s → tr_seq t' < tr_seq t) →
  tr_seq t < next_seq s → inv pro k (push_trace t s).
Proof.
  intros [] Hat Hseq Hlt. split; try done; simpl.
  - apply StronglySorted_app_iff. split; [done|]. split; [repeat constructor|].
    intros x y Hx Hy%list_elem_of_singleton. subst y. destruct (inv_trace_now0 x Hx).
    split; [lia|auto].
  - intros t' [?|Ht'%list_elem_of_singleton]%elem_of_app; [auto|subst t'; lia].
Qed.

Lemma inv_push_entry pro k s e :
  inv pro k s → now s ≤ at_ e → (∀ e', e' ∈ pro → seq e' ≤ seq e) →
  seq e < next_seq s → inv pro k (push_entry e s).
Proof.
  intros [] Hat Hseq Hlt. apply StronglySorted_app_iff in inv_sorted0 as (H1 & H2 & H3).
  split; try done; simpl.
  - apply StronglySorted_app_iff. split; [done|]. split.
    + apply heap_push_sorted; [apply at_seq_le_trans|apply at_seq_le_total|done].
    + intros x y Hx [->|Hy]%elem_of_heap_push; [|auto].
      apply at_seq_le_spec. destruct (inv_pro0 x Hx). specialize (Hseq x Hx). lia.
  - intros e' [->|He]%elem_of_heap_push; [lia|auto].
Qed.

Lemma pop_next_cons e h s :
  heap s = e :: h →
  ∃ st s', pop_next s = Some (st, s') ∧ heap s' = h ∧ now s' = at_ e ∧
    trace s' = trace s ∧ next_seq s' = next_seq s ∧ plan s' = plan s ∧ inboxes s' = inboxes s.
Proof.
  intros Hh. unfold pop_next. rewrite Hh. cbn [heap_pop mbind option_bind].
  destruct (pending e) as [d ev|w]; eexists _, _; (split; [done|]); [|done].
  simpl. destruct (inboxes s !! d) as [q|]; [|done]. unfold inbox_send. simpl.
  by destruct (queues s !! q) as [[evs []]|].
Qed.

Lemma inv_pop pro k s s' e h :
  inv pro k s → heap s = e :: h → heap s' = h → now s' = at_ e →
  trace s' = trace s → next_seq s' = next_seq s →
  inv (pro ++ [e]) k s' ∧ now s ≤ now s'.
Proof.
  intros [] Hh Hh' Hn Ht Hs. destruct (inv_heap0 e ltac:(rewrite Hh; by left)) as [Hle Hlt].
  assert (StronglySorted entry_le (e :: h)) as Hsort.
  { rewrite <- Hh. by apply StronglySorted_app_iff in inv_sorted0 as (_ & ? & _). }
  split; [|lia]. split; rewrite ?Hh', ?Hn, ?Ht, ?Hs; try done.
  - rewrite <- app_assoc. cbn [app]. by rewrite <- Hh.
  - intros x [Hx|Hx%list_elem_of_singleton]%elem_of_app; [|subst x; lia].
    specialize (inv_pro0 x Hx). lia.
  - intros x Hx. destruct (inv_heap0 x ltac:(rewrite Hh; by right)). split; [|done].
    inversion Hsort as [|? ? _ Hall]; subst. eapply Forall_forall in Hall; [|done].
    apply at_seq_le_spec in Hall. lia.
  - intros t Hin. specialize (inv_trace_now0 t Hin). lia.
Qed.

Lemma advance_loop_spec fuel target pro k s :
  inv pro k s → (length (heap s) ≤ fuel)%nat →
  let s' := advance_loop fuel target s in
  let due := filter (λ e, at_ e ≤ target) (heap s) in
  inv (pro ++ due) k s' ∧ heap s = due ++ heap s' ∧
  (∀ e, e ∈ heap s' → target < at_ e) ∧ now s ≤ now s' ∧ (now s' ≤ now s ∨ now s' ≤ target).
Proof.
  cbv zeta. revert pro s; induction fuel as [|fuel IH]; intros pro s Hi Hf.
  { destruct (heap s) eqn:Hh; [|simpl in Hf; lia]. cbn [advance_loop].
    rewrite filter_nil, app_nil_r, Hh. split; [done|]. split; [done|].
    split; [by intros ? ?%elem_of_nil|]. lia. }
  cbn [advance_loop]. destruct (heap s) as [|e h] eqn:Hh; cbn [head].
  { rewrite filter_nil, app_nil_r, Hh. split; [done|]. split; [done|].
    split; [by intros ? ?%elem_of_nil|]. lia. }
  destruct (decide (at_ e ≤ target)) as [Hle|Hgt].
  - destruct (pop_next_cons e h s Hh) as (stp & s1 & -> & Hh1 & Hn1 & Ht1 & Hs1 & _).
    destruct (inv_pop pro k s s1 e h Hi Hh Hh1 Hn1 Ht1 Hs1) as [Hi1 Hnow].
    destruct (IH (pro ++ [e]) s1 Hi1) as (H1 & H2 & H3 & H4 & H5).
    { rewrite Hh1. simpl in Hf. lia. }
    rewrite filter_cons_True by done. rewrite Hh1 in *.
    split; [by rewrite <- app_assoc in H1|]. split; [simpl; congruence|].
    split; [done|]. lia.
  - assert (∀ x, x ∈ e :: h → target < at_ x) as Hall.
    { destruct Hi. apply StronglySorted_app_iff in inv_sorted0 as (_ & Hs & _).
      rewrite Hh in Hs. inversion Hs as [|? ? _ Hall]; subst.
      intros x [->|Hx]%elem_of_cons; [lia|]. eapply Forall_forall in Hall; [|done].
      apply at_seq_le_spec in Hall. lia. }
    assert (filter (λ e, at_ e ≤ target) (e :: h) = []) as ->.
    { clear -Hall. induction (e :: h) as [|x l IH]; [done|].
      rewrite filter_cons_False by (specialize (Hall x ltac:(by left)); lia).
      apply IH. intros y Hy. apply Hall. by right. }
    rewrite app_nil_r, Hh. split; [done|]. split; [done|]. split; [done|]. lia.
Qed.

Lemma inv_advance target pro k s :
  inv pro k s →
  let s' := advance_to target s in
  let due := filter (λ e, at_ e ≤ target) (heap s) in
  inv (pro ++ due) k s' ∧ heap s = due ++ heap s' ∧ now s ≤ now s' ∧ target ≤ now s'.
Proof.
  cbv zeta. intros Hi. unfold advance_to.
  destruct (advance_loop_spec (length (heap s)) target pro k s Hi (le_n _))
    as (H1 & H2 & H3 & H4 & H5).
  set (s1 := advance_loop _ _ _) in *. case_decide as Hd; [|split_and!; [done..|lia]].
  split; [|split_and!; [done|simpl; lia|simpl; lia]].
  destruct H1. split; try done; simpl.
  - intros e He. specialize (inv_pro0 e He). lia.
  - intros e He. destruct (inv_heap0 e He). specialize (H3 e He). lia.
  - intros t Ht. specialize (inv_trace_now0 t Ht). lia.
Qed.

Lemma inv_weaken pro k k' s : inv pro k s → k ≤ k' → inv pro k' s.
Proof. intros [] ?. split; try done. lia. Qed.

Lemma classify_rules_total `{!RngRange G} rs g src dst n msg delay :
  delay + plan_delay rs ≤ DURATION_MAX →
  ∃ c rs' g', FaultPlan.classify_rules (PS:=PS) rs g src dst n msg delay = Some (c, rs', g') ∧
    plan_delay rs' = plan_delay rs ∧
    (∀ d, c = Deliver d → d ≤ delay + plan_delay rs).
Proof.
  revert g delay; induction rs as [|r rs IH]; intros g delay Hle;
    cbn [FaultPlan.classify_rules plan_delay foldr] in *.
  { eexists _, _, _. split; [done|]. split; [done|]. intros d [= <-]. lia. }
  fold (plan_delay rs) in *. case_decide.
  { destruct (IH g delay ltac:(lia)) as (c & rs' & g' & -> & Hp & Hd). cbn [mbind option_bind].
    eexists _, _, _. split; [done|]. cbn [plan_delay foldr]. fold (plan_delay rs').
    split; [lia|]. intros d ?. specialize (Hd d ltac:(done)). lia. }
  destruct (FaultPlan.apply_action (action r) g n msg) as [[out a] g1] eqn:Ha.
  assert (action_delay a = action_delay (action r) ∧
          ∀ d, out = inr d → d ≤ action_delay (action r)) as [Ha1 Ha2].
  { destruct (action r) as [pr|p|pr d|m|f u]; cbn [FaultPlan.apply_action] in Ha.
    - destruct (call_pred pr msg) as [[] ?]; injection Ha as <- <- <-; (split; [done|]);
        intros d [= <-]. simpl; lia.
    - destruct (random_f64 g) as [x ?]. destruct (SFltb x p); injection Ha as <- <- <-;
        (split; [done|]); intros d [= <-]. simpl; lia.
    - destruct (call_pred pr msg) as [[] ?]; injection Ha as <- <- <-; (split; [done|]);
        intros d' [= <-]; simpl; lia.
    - pose proof (random_range_le (N.min m (2 ^ 64 - 1)) g) as Hr.
      destruct (random_range _ g) as [x g2]. injection Ha as <- <- <-. split; [done|].
      intros d [= <-]. exact Hr.
    - case_decide; injection Ha as <- <- <-; (split; [done|]); intros d [= <-]. simpl; lia. }
  destruct out as [reason|d].
  { eexists _, _, _. split; [done|]. cbn [plan_delay foldr action]. fold (plan_delay rs).
    split; [lia|]. by intros ? [=]. }
  specialize (Ha2 d eq_refl). unfold duration_add. rewrite decide_True by lia.
  cbn [mbind option_bind].
  destruct (IH g1 (delay + d) ltac:(lia)) as (c & rs' & g' & -> & Hp & Hd). cbn [mbind option_bind].
  eexists _, _, _. split; [done|]. cbn [plan_delay foldr action]. fold (plan_delay rs').
  split; [lia|]. intros d' ?. specialize (Hd d' ltac:(done)). lia.
Qed.

Lemma classify_total `{!RngRange G} (p : FaultPlan PS G) src dst n msg :
  plan_delay (rules p) ≤ DURATION_MAX →
  ∃ c p', FaultPlan.classify p src dst n msg = Some (c, p') ∧
    plan_delay (rules p') = plan_delay (rules p) ∧
    (∀ d, c = Deliver d → d ≤ plan_delay (rules p)).
Proof.
  intros Hle. unfold FaultPlan.classify.
  destruct (classify_rules_total (rules p) (rng p) src dst n msg 0 ltac:(lia))
    as (c & rs' & g' & -> & Hp & Hd).
  cbn [mbind option_bind]. eexists _, _. split; [done|]. split; [done|].
  intros d ?. specialize (Hd d ltac:(done)). lia.
Qed.

(** A send that reaches the fault plan, and the others. *)
Lemma submit_send_cases src msg s :
  (∃ r, submit_send src msg s = Some (r, s) ∧ schedules (Send src msg) s = []) ∨
  ∃ dst kind event, ∀ c p, FaultPlan.classify (plan s) src dst (now s) msg = Some (c, p) →
    schedules (Send src msg) s =
      match c with
      | Deliver delay => [mkEntry (now s + delay) (next_seq s) (Delivery dst event)]
      | Drop _ => []
      end ∧
    submit_send src msg s =
      match c with
      | Drop reason =>
          Some (Ok (),
            push_trace (mkTraceEntry (now s) (next_seq s) (TraceSend src dst kind (Dropped reason)))
              (set_plan p (bump s)))
      | Deliver delay =>
          deliver_at ← duration_add (now s) delay;
          Some (Ok (),
            push_entry (mkEntry deliver_at (next_seq s) (Delivery dst event))
              (push_trace
                 (mkTraceEntry (now s) (next_seq s) (TraceSend src dst kind (Delivered deliver_at)))
                 (set_plan p (bump s))))
      end.
Proof.
  destruct msg as [dst ver chs pid|dst ch|dst ch|dst ch m pre iu|dst ch m pl|
    dst ch m i pl tok|ch m]; [| | | | | |left; by exists (Ok ())].
  all: unfold submit_send; cbn [schedules destination into_event MsgKind.of_send];
    cbn [mbind option_bind]; destruct (contains_key (inboxes s) dst); cbn [negb];
    [right; eexists dst, _, _; intros c p; change (plan (bump s)) with (plan s);
     change (now (bump s)) with (now s); intros ->; cbn [mbind option_bind];
     by destruct c
    |left; by exists (Err (PeerNotFound dst))].
Qed.

Lemma inv_set_plan pro k p s : inv pro k s → inv pro k (set_plan p s).
Proof. by intros []. Qed.

Lemma bounded_mono D B B' s : bounded D B s → B ≤ B' → bounded D B' s.
Proof. intros [] ?. split; [lia| |done]. intros e He. specialize (b_heap0 e He). lia. Qed.

Lemma bounded_pop D B s s' e h :
  bounded D B s → heap s = e :: h → heap s' = h → now s' = at_ e → plan s' = plan s →
  bounded D B s'.
Proof.
  intros [] Hh Hh' Hn Hp. split.
  - rewrite Hn. apply b_heap0. rewrite Hh. by left.
  - intros x Hx. apply b_heap0. rewrite Hh. right. by rewrite <- Hh'.
  - by rewrite Hp.
Qed.

Lemma bounded_advance_loop D B fuel target s :
  bounded D B s → bounded D B (advance_loop fuel target s).
Proof.
  revert s; induction fuel as [|fuel IH]; intros s Hb; [done|]. cbn [advance_loop].
  destruct (heap s) as [|e h] eqn:Hh; [done|]. cbn [head]. case_decide; [|done].
  destruct (pop_next_cons e h s Hh) as (stp & s1 & -> & Hh1 & Hn1 & _ & _ & Hp1 & _).
  apply IH. by apply (bounded_pop D B s s1 e h).
Qed.

Lemma bounded_advance D B target s :
  bounded D B s → bounded D (B + target) (advance_to target s).
Proof.
  intros Hb. unfold advance_to.
  apply (bounded_advance_loop D B (length (heap s)) target) in Hb.
  case_decide; [|eapply bounded_mono; [done|lia]].
  destruct Hb. split; [simpl; lia| |done]. intros e He. specialize (b_heap0 e He). simpl. lia.
Qed.

Lemma bounded_push D B s e :
  bounded D B s → at_ e ≤ B → bounded D B (push_entry e s).
Proof.
  intros [] He. split; [done| |done].
  intros x [->|Hx]%elem_of_heap_push; [done|by apply b_heap0].
Qed.

(** One call. *)
Lemma step_inv `{!RngRange G} o pro k D B s :
  inv pro k s → bounded D B s → k + 1 < 2 ^ 64 → B + reach D o ≤ DURATION_MAX →
  D ≤ DURATION_MAX →
  ∃ s', step o s = Some s' ∧ inv (pro ++ processes o s) (k + 1) s' ∧
    bounded D (B + reach D o) s' ∧
    processes o s ++ heap s' ≡ₚ heap s ++ schedules o s ∧ now s ≤ now s'.
Proof.
  intros Hi Hbd Hk HB HD. pose proof (b_now _ _ _ Hbd) as Hnow0.
  assert (inv pro (k + 1) s) as Hi' by (eapply inv_weaken; [done|lia]).
  assert (bounded D (B + reach D o) s) as Hbd' by (eapply bounded_mono; [done|lia]).
  destruct (inv_bump pro k s Hi Hk) as [Hb Hbs].
  destruct o as [peer|src msg|d| |target|peer]; cbn [step processes reach] in *.
  - eexists. split; [done|]. rewrite app_nil_r. simpl. rewrite app_nil_r.
    split; [by destruct Hi'|]. split; [by destruct Hbd'|]. split; [done|lia].
  - rewrite app_nil_r. destruct (submit_send_cases src msg s)
      as [(r & -> & ->)|(dst & kind & event & Hcase)].
    { exists s. rewrite app_nil_r. split; [done|]. split; [done|]. split; [done|].
      split; [done|lia]. }
    destruct (classify_total (plan s) src dst (now s) msg) as (c & p & Hc & Hp & Hd).
    { by rewrite (b_plan _ _ _ Hbd). }
    rewrite (b_plan _ _ _ Hbd) in *. destruct (Hcase c p Hc) as [-> ->].
    assert (bounded D (B + D) (set_plan p (bump s))) as Hbd1 by (by destruct Hbd'; split).
    assert (∀ d, inv pro (k + 1) (push_trace (mkTraceEntry (now s) (next_seq s)
      (TraceSend src dst kind d)) (set_plan p (bump s)))) as Hi1.
    { intros d. apply inv_push_trace; [by apply inv_set_plan|done| |].
      - intros t' Ht'. by destruct (inv_trace_now _ _ _ Hi t' Ht').
      - change (next_seq s < next_seq (bump s)). rewrite Hbs. lia. }
    destruct c as [delay|reason].
    + specialize (Hd delay eq_refl). unfold duration_add. rewrite decide_True by lia.
      cbn [mbind option_bind fmap option_fmap option_map]. eexists. split; [done|].
      split; [|split; [|split; [|simpl; lia]]].
      * apply inv_push_entry; [apply Hi1|simpl; lia| |].
        -- intros e' He'. destruct (inv_pro _ _ _ Hi e' He'). simpl. lia.
        -- change (next_seq s < next_seq (bump s)). rewrite Hbs. lia.
      * apply bounded_push; [by destruct Hbd1|simpl; lia].
      * simpl. rewrite heap_push_perm. by rewrite Permutation_app_comm.
    + eexists. split; [done|]. split; [apply Hi1|]. split; [by destruct Hbd1|].
      rewrite app_nil_r. split; [done|simpl; lia].
  - unfold sleep, duration_add. rewrite decide_True by lia. eexists. split; [done|].
    rewrite app_nil_r. cbn [schedules schedule_wakeup snd].
    split; [|split; [|split; [|simpl; lia]]].
    + apply inv_push_entry; [done|simpl; lia| |rewrite Hbs; simpl; lia].
      intros e' He'. destruct (inv_pro _ _ _ Hi e' He'). simpl. lia.
    + apply bounded_push; [by destruct Hbd'|simpl; lia].
    + simpl. rewrite heap_push_perm. by rewrite Permutation_app_comm.
  - destruct (heap s) as [|e h] eqn:Hh.
    + assert (pop_next s = None) as -> by (unfold pop_next; by rewrite Hh).
      exists s. rewrite app_nil_r, Hh. split; [done|]. split; [done|]. split; [done|].
      split; [done|lia].
    + destruct (pop_next_cons e h s Hh) as (stp & s1 & -> & Hh1 & Hn1 & Ht1 & Hs1 & Hp1 & _).
      destruct (inv_pop pro (k + 1) s s1 e h Hi' Hh Hh1 Hn1 Ht1 Hs1) as [Hi1 Hnow].
      exists s1. split; [done|]. split; [done|]. split; [by apply (bounded_pop D _ s s1 e h)|].
      split; [|done]. by rewrite app_nil_r, Hh1.
  - destruct (inv_advance target pro (k + 1) s Hi') as (H1 & H2 & H3 & _).
    eexists. split; [done|]. split; [done|]. split; [by apply bounded_advance|].
    split; [|done]. simpl. by rewrite app_nil_r, <- H2.
  - eexists. split; [done|]. rewrite app_nil_r. simpl. rewrite app_nil_r.
    split; [|split; [by destruct Hbd'|split; [done|lia]]].
    apply (inv_push_trace _ _ (bump s)); [done|done| |rewrite Hbs; simpl; lia].
    intros t' Ht'. destruct (inv_trace_now _ _ _ Hi t' Ht'). simpl. lia.
Qed.

Lemma sim_run_inv `{!RngRange G} os pro k D B s :
  inv pro k s → bounded D B s → k + N.of_nat (length os) < 2 ^ 64 →
  B + horizon D os ≤ DURATION_MAX → D ≤ DURATION_MAX →
  ∃ sch pr s', run os s = Some (sch, pr, s') ∧
    inv (pro ++ pr) (k + N.of_nat (length os)) s' ∧
    pr ++ heap s' ≡ₚ heap s ++ sch ∧ now s ≤ now s'.
Proof.
  revert pro k B s; induction os as [|o os IH]; intros pro k B s Hi Hb Hk HB HD.
  { exists [], [], s. rewrite !app_nil_r. split; [done|]. simpl. rewrite N.add_0_r.
    split; [done|]. split; [done|lia]. }
  cbn [length horizon foldr] in Hk, HB. fold (horizon D os) in HB. rewrite Nat2N.inj_succ in Hk.
  destruct (step_inv o pro k D B s Hi Hb) as (s1 & Hstep & Hi1 & Hb1 & Hperm & Hnow); [lia..|].
  destruct (IH _ _ _ _ Hi1 Hb1) as (sch & pr & s2 & Hrun & Hi2 & Hperm2 & Hnow2); [lia..|].
  exists (schedules o s ++ sch), (processes o s ++ pr), s2.
  cbn [run]. rewrite Hstep. cbn [mbind option_bind]. rewrite Hrun. cbn [mbind option_bind].
  split; [done|]. split; [|split; [|lia]].
  - rewrite <- app_assoc in Hi2.
    replace (k + N.of_nat (length (o :: os))) with (k + 1 + N.of_nat (length os))
      by (cbn [length]; lia). done.
  - rewrite <- app_assoc, Hperm2, !app_assoc. by rewrite Hperm.
Qed.

(** The loop of [classify] over a plan with more rules behind. *)
Lemma classify_rules_app rs xs g src dst n msg delay :
  FaultPlan.classify_rules (PS:=PS) (rs ++ xs) g src dst n msg delay =
  '(c, rs', g') ← FaultPlan.classify_rules rs g src dst n msg delay;
  match c with
  | Deliver d =>
      '(c, xs', g') ← FaultPlan.classify_rules xs g' src dst n msg d;
      Some (c, rs' ++ xs', g')
  | Drop _ => Some (c, rs' ++ xs, g')
  end.
Proof.
  revert g delay; induction rs as [|r rs IH]; intros g delay; simpl.
  { by destruct (FaultPlan.classify_rules xs g src dst n msg delay) as [[[c ys] g']|]. }
  case_decide; [rewrite IH|].
  - destruct (FaultPlan.classify_rules rs g src dst n msg delay) as [[[[d|] rs'] g']|]; simpl; try done.
    by destruct (FaultPlan.classify_rules xs g' src dst n msg d) as [[[c ys] g'']|].
  - destruct (FaultPlan.apply_action (action r) g n msg) as [[[reason|d0] a] g1]; [done|].
    destruct (duration_add delay d0) as [delay'|]; simpl; [|done]. rewrite IH.
    destruct (FaultPlan.classify_rules rs g1 src dst n msg delay') as [[[[d|] rs'] g']|]; simpl; try done.
    by destruct (FaultPlan.classify_rules xs g' src dst n msg d) as [[[c ys] g'']|].
Qed.

Lemma classify_rules_delay rs g src dst n msg delay d rs' g' :
  FaultPlan.classify_rules (PS:=PS) rs g src dst n msg delay = Some (Deliver d, rs', g') →
  delay ≤ DURATION_MAX → d ≤ DURATION_MAX.
Proof.
  revert g delay rs' g'; induction rs as [|r rs IH]; intros g delay rs' g' Hc Hle; simpl in Hc.
  { by injection Hc as <- _ _. }
  case_decide.
  - destruct (FaultPlan.classify_rules rs g src dst n msg delay) as [[[c ys] g1]|] eqn:Hr;
      simplify_eq/=. by eapply IH.
  - destruct (FaultPlan.apply_action (action r) g n msg) as [[[reason|d0] a] g1]; [done|].
    unfold duration_add in Hc. case_decide; simplify_eq/=.
    destruct (FaultPlan.classify_rules rs g1 src dst n msg (delay + d0)) as [[[c ys] g2]|] eqn:Hr;
      simplify_eq/=. by eapply IH.
Qed.

(** The two rules of a partition. *)
Lemma classify_rules_cut a b from until g src dst n msg d :
  d ≤ DURATION_MAX →
  (fst ∘ fst) <$> FaultPlan.classify_rules (PS:=PS)
    [mkRule a b (Partition from until); mkRule b a (Partition from until)] g src dst n msg d =
  Some (if decide ((src, dst) ∈ [(a, b); (b, a)] ∧ from ≤ n ∧ n < until)
        then Drop InPartition else Deliver d).
Proof.
  intros Hd. assert (duration_add d 0 = Some d) as H0.
  { unfold duration_add. rewrite N.add_0_r. by rewrite decide_True. }
  rewrite (decide_ext _ ((src = a ∧ dst = b ∨ src = b ∧ dst = a) ∧ from ≤ n ∧ n < until));
    [|rewrite !elem_of_cons, elem_of_nil, !pair_eq; tauto].
  cbn [FaultPlan.classify_rules r_src r_dst action FaultPlan.apply_action].
  repeat case_decide; cbn [mbind option_bind fmap option_fmap option_map compose fst];
    rewrite ?H0; cbn [mbind option_bind fmap option_fmap option_map compose fst];
    rewrite ?H0; cbn [mbind option_bind fmap option_fmap option_map compose fst];
    try done; exfalso; lia.
Qed.

Lemma inv_new p start : inv [] 0 (new (PS:=PS) (G:=G) p start).
Proof.
  split; try apply SSorted_nil; try done; by intros ? ?%elem_of_nil.
Qed.

(** C18: Whatever the endpoints, the clock and the runner call on a new
    simulation, as long as the times they reach stay within a [Duration] and the
    sequence numbers within a [u64], no call panics; what is scheduled is exactly
    what has been processed and what is still on the heap; all of it is processed
    in order of its time, and of its submission among equal times; no entry is
    in the past of the virtual clock; and the trace is in that order too. *)
Theorem sim_event_order `{!RngRange G} os (p : FaultPlan PS G) start :
  N.of_nat (length os) < 2 ^ 64 →
  plan_delay (rules p) + horizon (plan_delay (rules p)) os ≤ DURATION_MAX →
  ∃ scheduled processed s, run os (new p start) = Some (scheduled, processed, s) ∧
    processed ++ heap s ≡ₚ scheduled ∧
    StronglySorted (λ a b, at_ a < at_ b ∨ at_ a = at_ b ∧ seq a ≤ seq b) (processed ++ heap s) ∧
    (∀ e, e ∈ processed → at_ e ≤ now s) ∧
    (∀ e, e ∈ heap s → now s ≤ at_ e) ∧
    StronglySorted (λ a b, tr_at a ≤ tr_at b ∧ tr_seq a < tr_seq b) (trace s) ∧
    (∀ t, t ∈ trace s → tr_at t ≤ now s).
Proof.
  intros Hk HB.
  destruct (sim_run_inv os [] 0 (plan_delay (rules p)) 0 (new p start)) as
    (sch & pr & s & Hrun & Hi & Hperm & _); [apply inv_new| |lia..|].
  { split; [done| |done]. by intros ? ?%elem_of_nil. }
  exists sch, pr, s. cbn [app] in Hi. split; [done|]. split; [done|].
  split; [|split; [|split; [|split; [apply Hi|]]]].
  - eapply StronglySorted_weaken; [|apply Hi]. intros a b. apply at_seq_le_spec.
  - intros e He. by destruct (inv_pro _ _ _ Hi e He).
  - intros e He. by destruct (inv_heap _ _ _ Hi e He).
  - intros t Ht. by destruct (inv_trace_now _ _ _ Hi t Ht).
Qed.

(** [partition] adds a cut of both directions of the link: inside the window
    every message between the two peers that the other rules let through is
    dropped as partitioned; outside it, and between other peers, the plan
    classifies as before. *)
Theorem partition_spec (p : FaultPlan PS G) a b from until src dst n msg :
  fst <$> FaultPlan.classify (FaultPlan.partition p a b from until) src dst n msg =
  (λ c, if decide ((src, dst) ∈ [(a, b); (b, a)] ∧ from ≤ n ∧ n < until) then
          match c with Deliver _ => Drop InPartition | Drop r => Drop r end
        else c) <$> (fst <$> FaultPlan.classify p src dst n msg).
Proof.
  unfold FaultPlan.classify, FaultPlan.partition, FaultPlan.push_rule. cbn [rules rng].
  rewrite <- app_assoc, classify_rules_app. cbn [app].
  pose proof (λ g d, classify_rules_cut a b from until g src dst n msg d) as Hcut.
  set (xs := [mkRule a b _; _]) in *.
  destruct (FaultPlan.classify_rules (rules p) (rng p) src dst n msg 0)
    as [[[[d|reason] rs] g]|] eqn:Hc; [| |done]; cbn [mbind option_bind fmap option_fmap option_map fst].
  - apply classify_rules_delay in Hc; [|done]. specialize (Hcut g d Hc). clearbody xs.
    destruct (FaultPlan.classify_rules xs g src dst n msg d) as [[[c ys] g']|]; [|done].
    cbn [mbind option_bind fmap option_fmap option_map fst compose] in *.
    by rewrite Hcut.
  - by case_decide.
Qed.
End trace.
End SimTrace.

(** ** A concrete run *)
Module SimExample.
Import SimTrace.

(** A generator in the place of [ChaCha8Rng]. *)
#[global] Instance Rng_counter : Rng N := {
  seed_from_u64 seed := seed;
  random_f64 g := (S754_zero false, g + 1);
  random_range max g := (N.min g max, g + 1)
}.

#[global] Instance RngRange_counter : RngRange N.
Proof. intros max g. simpl. lia. Qed.

(** Every message from peer 1 to peer 2 takes 5 ns, and up to 3 more; the link
    between 1 and 3 is cut until 10 ns. *)
Definition plan0 : FaultPlan unit N :=
  FaultPlan.partition
    (FaultPlan.delay_jitter
       (FaultPlan.delay_if (FaultPlan.new 2) 1 2 5 (mkPred tt (λ _ _, (true, tt)))) 1 2 3)
    1 3 0 10.

Definition ops0 : list op :=
  [Endpoint 1; Endpoint 2; Endpoint 3; Sleep 6; Send 1 (SendSubscribe 2 "a");
   Send 1 (SendSubscribe 3 "a"); Send 3 (SendSubscribe 2 "a"); Pump; Send 1 (SendSubscribe 9 "a");
   AdvanceTo 20; Send 1 (SendSubscribe 3 "b"); RecordStep 3].

(** The run of [ops0]: what it processes and what is left. *)
Lemma sim_run_eq :
  (λ '(sch, pro, s), (map at_ sch, map at_ pro, map at_ (heap s), now s)) <$>
    run ops0 (SimState.new plan0 100) =
  Some ([6; 7; 0; 20], [0; 6; 7], [20], 20).
Proof. vm_compute. reflexivity. Qed.

Lemma sim_event_order_witness :
  N.of_nat (length ops0) < 2 ^ 64 ∧
  plan_delay (rules plan0) + horizon (plan_delay (rules plan0)) ops0 ≤ DURATION_MAX ∧
  ∃ scheduled processed s, run ops0 (SimState.new plan0 100) = Some (scheduled, processed, s) ∧
    processed ++ heap s ≡ₚ scheduled.
Proof.
  split; [vm_compute; reflexivity|]. split; [vm_compute; discriminate|].
  destruct (sim_event_order ops0 plan0 100) as (sch & pro & s & Hrun & Hperm & _);
    [vm_compute; reflexivity|vm_compute; discriminate|].
  exists sch, pro, s. split; assumption.
Defined.
End SimExample.
