(* ===== verification/SimSleep.v ===== *)
(** The futures of [SimClock::sleep], [WakeupInner] and [Sleep] of
    [ethp2p-sim/src/state.rs], below the level of [Sim.v]: the runner's thread fires a
    wakeup while another thread polls its future.

    Each access to the flag and each critical section of the waker's mutex is a step.
    The flag is stored with [Release] and loaded with [Acquire], so a load may still
    miss the store; it cannot if the mutex orders the two, that is, if the loading
    thread has held the mutex after the firing thread has ([load]).  A future is polled
    at any time, each time with a waker of the executor's choice. *)
From Stdlib Require Import Lia.
From stdpp Require Import base relations option list.
From S2P Require Import Prelude.

(** How far the thread that calls [fire] is. *)
Inductive Firing := Armed | Stored | Fired.

(** Where the thread that polls is in [Sleep::poll], with the waker of its context:
    the flag is loaded first, then the waker is stored, and the flag is loaded
    again; a pending poll leaves the task asleep. *)
Inductive Sleeper (W : Type) :=
  | Unpolled
  | Checking (w : W)
  | Registering (w : W)
  | Rechecking (w : W)
  | Asleep (w : W)
  | Ready.
Arguments Unpolled {W}.
Arguments Checking {W} w.
Arguments Registering {W} w.
Arguments Rechecking {W} w.
Arguments Asleep {W} w.
Arguments Ready {W}.

(** [WakeupInner] with its two threads, the wakers that were called, and whether the
    polling thread has held the mutex after the firing thread. *)
Record WakeupInner (W : Type) := mkWakeup {
  done : bool;
  waker : option W;
  firing : Firing;
  sleeper : Sleeper W;
  woken : list W;
  synced : bool
}.
Arguments mkWakeup {W} done waker firing sleeper woken synced.
Arguments done {W} _.
Arguments waker {W} _.
Arguments firing {W} _.
Arguments sleeper {W} _.
Arguments woken {W} _.
Arguments synced {W} _.

Section sleep.
Context {W : Type}.
Implicit Types (s : WakeupInner W) (w : W) (b : bool).

(** [WakeupInner::default]. *)
Definition armed : WakeupInner W := mkWakeup false None Armed Unpolled [] false.

Definition set_sleeper v s : WakeupInner W :=
  mkWakeup (done s) (waker s) (firing s) v (woken s) (synced s).

(** The two steps of [fire]; the lock is held while the waker is called. *)
Definition fire_step s : option (WakeupInner W) :=
  match firing s with
  | Armed => Some (mkWakeup true (waker s) Stored (sleeper s) (woken s) (synced s))
  | Stored =>
      Some (mkWakeup (done s) None Fired (sleeper s) (woken s ++ option_list (waker s)) (synced s))
  | Fired => None
  end.

(** The steps of [poll]; [b] is what a load of the flag gives. *)
Definition poll_step b s : option (WakeupInner W) :=
  match sleeper s with
  | Checking w => Some (set_sleeper (if b then Ready else Registering w) s)
  | Registering w =>
      Some (mkWakeup (done s) (Some w) (firing s) (Rechecking w) (woken s)
              (match firing s with Fired => true | _ => synced s end))
  | Rechecking w => Some (set_sleeper (if b then Ready else Asleep w) s)
  | Unpolled | Asleep _ | Ready => None
  end.

(** What a load of the flag may give. *)
Definition load s b : Prop := (b = true → done s = true) ∧ (synced s = true → b = done s).

(** No poll is under way. *)
Definition pollable s : bool :=
  match sleeper s with Unpolled | Asleep _ => true | _ => false end.

Inductive step s : WakeupInner W → Prop :=
  | step_fire s' : fire_step s = Some s' → step s s'
  | step_begin w : pollable s = true → step s (set_sleeper (Checking w) s)
  | step_poll b s' : load s b → poll_step b s = Some s' → step s s'.

(** ** The invariant *)

(** The flag is set before the waker is taken; once the waker is taken, whoever
    re-checks without having been woken has stored its waker later, and whoever sleeps
    has been woken. *)
Definition sound s : Prop :=
  (done s = true ↔ firing s ≠ Armed) ∧
  (sleeper s = Ready → done s = true) ∧
  match firing s, sleeper s with
  | Fired, Rechecking w => synced s = true ∨ w ∈ woken s
  | Fired, Asleep w => w ∈ woken s
  | Armed, (Rechecking w | Asleep w) | Stored, (Rechecking w | Asleep w) => waker s = Some w
  | _, _ => True
  end.

Lemma sound_armed : sound armed.
Proof. by split; [split|]. Qed.

Lemma fire_step_sound s s' : sound s → fire_step s = Some s' → sound s'.
Proof.
  unfold sound, fire_step. intros (Hd & Hr & Hw). destruct (firing s) eqn:Hf; intros [= <-]; simpl.
  - split; [by split|]. split; [done|]. by destruct (sleeper s).
  - split; [by rewrite Hd|]. split; [done|].
    destruct (sleeper s); try done; rewrite Hw; [right|]; apply elem_of_app; right; left.
Qed.

Lemma begin_sound s w : sound s → sound (set_sleeper (Checking w) s).
Proof. intros (Hd & _ & _). split; [done|]. split; [done|]. simpl. by destruct (firing s). Qed.

Lemma poll_step_sound s b s' : sound s → load s b → poll_step b s = Some s' → sound s'.
Proof.
  unfold sound, poll_step, load. intros (Hd & Hr & Hw) [Hb Hs].
  destruct (sleeper s) as [|w|w|w|w|] eqn:He; try done; intros [= <-]; simpl.
  - split; [done|]. destruct b; (split; [by auto|by destruct (firing s)]).
  - split; [done|]. split; [done|]. destruct (firing s); by auto.
  - split; [done|]. destruct b; (split; [by auto|]); [by destruct (firing s)|].
    destruct (firing s) eqn:Hf; [done|done|]. destruct Hw as [Hw|Hw]; [|done].
    specialize (Hs Hw). assert (done s = true) by (by apply Hd). congruence.
Qed.

Lemma reachable_sound s : rtc step armed s → sound s.
Proof.
  intros Hs. assert (sound armed) as Ha by apply sound_armed. revert Ha.
  induction Hs as [s|s1 s2 s3 Hst _ IH]; [done|]. intros H1. apply IH.
  destruct Hst as [s' Hf|w _|b s' Hl Hp];
    [by eapply fire_step_sound|by apply begin_sound|by eapply poll_step_sound].
Qed.

(** A step of the polling thread alone. *)
Definition own s s' : Prop := ∃ b, load s b ∧ poll_step b s = Some s'.

(** Once the wakeup is fired, the steps left to a poll; only those end in [Ready]. *)
Definition steps_left s : option nat :=
  match sleeper s with
  | Checking _ => Some 3
  | Registering _ => Some 2
  | Rechecking _ => if synced s then Some 1 else None
  | Ready => Some 0
  | Unpolled | Asleep _ => None
  end.

Lemma own_steps s n :
  firing s = Fired → done s = true → steps_left s = Some n →
  (sleeper s = Ready ∨ ∃ s', own s s') ∧
  ∀ s', own s s' → firing s' = Fired ∧ done s' = true ∧
    ∃ n', steps_left s' = Some n' ∧ n' < n.
Proof.
  unfold steps_left, own, poll_step, load. intros Hf Hd Hn. split.
  - destruct (sleeper s); try done; [right..|by left]; eexists _, true; by rewrite Hd.
  - intros s' (b & [Hb Hs] & Hp). destruct (sleeper s); try done; injection Hp as <-; simpl.
    + split_and!; [done..|]. injection Hn as <-. destruct b; eexists; (split; [done|lia]).
    + rewrite Hf. split_and!; [done..|]. injection Hn as <-. eexists; (split; [done|lia]).
    + destruct (synced s) eqn:He; [|done]. injection Hn as <-.
      rewrite Hs, Hd by done. split_and!; [done..|]. eexists; (split; [done|lia]).
Qed.

Lemma own_run s n m s' :
  firing s = Fired → done s = true → steps_left s = Some n → nsteps own m s s' →
  m ≤ n ∧ (sleeper s' = Ready ∨ ∃ s'', own s' s'').
Proof.
  intros Hf Hd Hn Hr. revert n Hf Hd Hn.
  induction Hr as [s|m s1 s2 s3 Hs _ IH]; intros n Hf Hd Hn.
  - split; [lia|]. by eapply own_steps.
  - destruct (own_steps s1 n Hf Hd Hn) as [_ Hown].
    destruct (Hown s2 Hs) as (Hf2 & Hd2 & n2 & Hn2 & Hlt).
    destruct (IH n2 Hf2 Hd2 Hn2) as [Hm He]. split; [lia|exact He].
Qed.

(** C24: no sleeper is left behind.  However the accesses of the two threads interleave
    and whatever stale values the loads give, a sleep resolves only once it is fired;
    once it is fired, a task that sleeps on it has been woken, with the waker of its
    last poll; and every poll that begins then resolves within three steps, even if its
    first load misses the store. *)
Theorem sleep_resolves s :
  rtc step armed s →
  (sleeper s = Ready → firing s ≠ Armed) ∧
  (firing s = Fired →
    (∀ w, sleeper s = Asleep w → w ∈ woken s) ∧
    ∀ w n s', nsteps own n (set_sleeper (Checking w) s) s' →
      n ≤ 3 ∧ (sleeper s' = Ready ∨ ∃ s'', own s' s'')).
Proof.
  intros Hs. destruct (reachable_sound s Hs) as (Hd & Hr & Hw).
  split; [intros He; by apply Hd, Hr|]. intros Hf. split.
  - intros w He. by rewrite Hf, He in Hw.
  - intros w n s'. apply own_run; [exact Hf| |reflexivity]. apply Hd. by rewrite Hf.
Qed.
End sleep.

(** The future is polled to sleep, woken spuriously and polled again with another waker;
    the wakeup fires around the re-check of that poll, which misses the store. *)
Definition late : WakeupInner nat := mkWakeup true None Fired (Asleep 2) [2] false.

Lemma late_reachable : rtc step armed late.
Proof.
  eapply rtc_l. { by apply (step_begin _ 1). }
  eapply rtc_l. { by apply (step_poll _ false). }
  eapply rtc_l. { by apply (step_poll _ false). }
  eapply rtc_l. { by apply (step_poll _ false). }
  eapply rtc_l. { by apply (step_begin _ 2). }
  eapply rtc_l. { by apply (step_poll _ false). }
  eapply rtc_l. { by apply (step_poll _ false). }
  eapply rtc_l. { by apply step_fire. }
  eapply rtc_l. { by apply (step_poll _ false). }
  eapply rtc_l. { by apply step_fire. }
  simpl. reflexivity.
Qed.

Lemma sleep_resolves_witness :
  2 ∈ woken late ∧
  ∀ n s', nsteps own n (set_sleeper (Checking 3) late) s' →
    n ≤ 3 ∧ (sleeper s' = Ready ∨ ∃ s'', own s' s'').
Proof.
  destruct (sleep_resolves late late_reachable) as [_ Hfired].
  destruct (Hfired eq_refl) as [Hw Hp]. split; [by apply Hw|]. intros n s'. apply Hp.
Defined.
