(* ===== verification/SimMemory.v ===== *)
(** The simulated network without faults and the in-memory network are the same
    to their peers, as the documentation of [net.rs] has it, but for the
    notifications that only the in-memory network gives, and as long as no peer
    registers anew while messages are on their way to it ([settled]).

    Both networks are driven by one sequence of calls; a call that only the
    simulator has (a sleep, a pump, an advance of the clock) is nothing to the
    in-memory network.  A message the simulator has not delivered yet is on its
    heap. *)
From Stdlib Require Import NArith Lia.
From stdpp Require Import base gmap option strings sorting list.
From S2P Require Import Prelude Heap Runtime MemoryNet Sim.

Open Scope N_scope.

Module SimMemory.
Import SimState SimTrace.

Section nets.
Context {PS G : Type} `{!Rng G}.
Implicit Type s : SimState PS G.
Implicit Type h : MemoryNet.Hub.

(** The results of the sends of a run, and the network after it. *)
Definition call_sim (o : op) s : option (list (result NetError unit) * SimState PS G) :=
  match o with
  | Send src msg => '(r, s) ← submit_send src msg s; Some ([r], s)
  | _ => s ← step o s; Some ([], s)
  end.
Definition call_memory (o : op) h : list (result NetError unit) * MemoryNet.Hub :=
  match o with
  | Send src msg => let '(r, h) := MemoryNet.send src msg h in ([r], h)
  | Endpoint p => ([], snd (MemoryNet.endpoint p h))
  | _ => ([], h)
  end.

Fixpoint run_sim (os : list op) s : option (list (result NetError unit) * SimState PS G) :=
  match os with
  | [] => Some ([], s)
  | o :: os =>
      '(r, s) ← call_sim o s;
      '(rs, s) ← run_sim os s;
      Some (r ++ rs, s)
  end.
Fixpoint run_memory (os : list op) h : list (result NetError unit) * MemoryNet.Hub :=
  match os with
  | [] => ([], h)
  | o :: os =>
      let '(r, h) := call_memory o h in
      let '(rs, h) := run_memory os h in
      (r ++ rs, h)
  end.

(** The peers that are given an endpoint, once or more often. *)
Definition endpoints (os : list op) : list N :=
  omap (λ o, match o with Endpoint p => Some p | _ => None end) os.

(** What waits for a peer: in its inbox, on the heap, and in its queue of the
    in-memory network. *)
Definition events_of (q : MemoryNet.Queue) : option (list NetEvent.t) :=
  if MemoryNet.rx_open q then Some (MemoryNet.q_events q) else None.
Definition content (names : gmap N nat) (qs : gmap nat MemoryNet.Queue) (p : N)
    : option (list NetEvent.t) :=
  names !! p ≫= λ q, qs !! q ≫= events_of.
Definition inbox (p : N) s : option (list NetEvent.t) := content (inboxes s) (queues s) p.
Definition stream (p : N) h : option (list NetEvent.t) :=
  content (MemoryNet.senders h) (MemoryNet.queues h) p.

Definition delivery_to (p : N) (e : Entry) : option NetEvent.t :=
  match pending e with
  | Delivery d ev => if decide (d = p) then Some ev else None
  | Wakeup _ => None
  end.
Definition under_way (p : N) s : list NetEvent.t := omap (delivery_to p) (heap s).

(** Peers take an endpoint only while nothing is on its way to them; the first
    time nothing is ([once_settled]). *)
Fixpoint settled (os : list op) s : bool :=
  match os with
  | [] => true
  | o :: os =>
      match o with
      | Endpoint p => match under_way p s with [] => true | _ => false end
      | _ => true
      end &&
      match call_sim o s with
      | Some (_, s) => settled os s
      | None => true
      end
  end.

(** The events of a message; the others tell a sender what became of its own. *)
Definition of_message (ev : NetEvent.t) : Prop :=
  match ev with
  | NetEvent.ChunkSendResult _ _ _ _ _ | NetEvent.PeerReconstructed _ _ _ => False
  | _ => True
  end.
#[export] Instance of_message_dec ev : Decision (of_message ev).
Proof. destruct ev; simpl; apply _. Defined.
End nets.

(** * Queues by name *)

(** Every name has an open queue of its own, numbered below [next]. *)
Record named (names : gmap N nat) (qs : gmap nat MemoryNet.Queue) (next : nat) : Prop := {
  nm_inj p p' q : names !! p = Some q → names !! p' = Some q → p = p';
  nm_open p q : names !! p = Some q →
    (q < next)%nat ∧ ∃ evs, qs !! q = Some (MemoryNet.mkQueue evs true)
}.

Lemma content_Some names qs next p q :
  named names qs next → names !! p = Some q →
  ∃ evs, qs !! q = Some (MemoryNet.mkQueue evs true) ∧ content names qs p = Some evs.
Proof.
  intros Hn Hp. destruct (nm_open _ _ _ Hn p q Hp) as [_ [evs He]]. exists evs.
  split; [done|]. unfold content. rewrite Hp. cbn. by rewrite He.
Qed.

Lemma content_None names qs next p :
  named names qs next → content names qs p = None ↔ names !! p = None.
Proof.
  intros Hn. destruct (names !! p) as [q|] eqn:Hp.
  - destruct (content_Some _ _ _ _ _ Hn Hp) as (evs & _ & ->). done.
  - unfold content. by rewrite Hp.
Qed.

Lemma named_new names qs next p :
  named names qs next →
  let names' := <[p := next]> names in
  let qs' := <[next := MemoryNet.mkQueue [] true]> qs in
  named names' qs' (S next) ∧
  ∀ p', content names' qs' p' = if decide (p' = p) then Some [] else content names qs p'.
Proof.
  intros Hn names' qs'. split; [split|].
  - intros p1 p2 q. unfold names'. rewrite !lookup_insert_Some.
    intros [[<- <-]|[_ H1]] [[<- H2]|[_ H2]]; try done.
    + by apply (nm_open _ _ _ Hn) in H2 as [? _]; lia.
    + subst q. apply (nm_open _ _ _ Hn) in H1 as [? _]. lia.
    + by eapply (nm_inj _ _ _ Hn).
  - intros p1 q. unfold names', qs'. rewrite lookup_insert_Some. intros [[<- <-]|[_ H1]].
    + split; [lia|]. exists []. by rewrite lookup_insert_eq.
    + apply (nm_open _ _ _ Hn) in H1 as [? [evs He]]. split; [lia|]. exists evs.
      by rewrite lookup_insert_ne by lia.
  - intros p'. unfold content, names', qs'. case_decide as Hp.
    + subst p'. rewrite lookup_insert_eq. cbn. by rewrite lookup_insert_eq.
    + rewrite lookup_insert_ne by done. destruct (names !! p') as [q|] eqn:Hq; [|done]. cbn.
      apply (nm_open _ _ _ Hn) in Hq as [? _]. by rewrite lookup_insert_ne by lia.
Qed.

(** Open queues that get longer. *)
Lemma named_grow names qs qs' next (f : nat → list NetEvent.t) :
  named names qs next →
  (∀ q, qs' !! q = (λ '(MemoryNet.mkQueue evs b),
     MemoryNet.mkQueue (if b : bool then evs ++ f q else evs) b) <$> qs !! q) →
  named names qs' next ∧
  ∀ p, content names qs' p =
    match names !! p with Some q => (λ l, l ++ f q) <$> content names qs p | None => None end.
Proof.
  intros Hn Hq. split; [split|].
  - apply Hn.
  - intros p q Hp. destruct (nm_open _ _ _ Hn p q Hp) as [? [evs He]]. split; [done|].
    exists (evs ++ f q). by rewrite Hq, He.
  - intros p. destruct (names !! p) as [q|] eqn:Hp; [|unfold content; by rewrite Hp].
    destruct (content_Some _ _ _ _ _ Hn Hp) as (evs & He & ->).
    unfold content. rewrite Hp. cbn. by rewrite Hq, He.
Qed.

(** One event more in the queue of [p]. *)
Lemma named_push names qs next p q evs ev :
  named names qs next → names !! p = Some q → qs !! q = Some (MemoryNet.mkQueue evs true) →
  let qs' := <[q := MemoryNet.mkQueue (evs ++ [ev]) true]> qs in
  named names qs' next ∧
  ∀ p', content names qs' p' =
    (λ l, l ++ if decide (p' = p) then [ev] else []) <$> content names qs p'.
Proof.
  intros Hn Hp Hq qs'.
  destruct (named_grow names qs qs' next (λ q', if decide (q' = q) then [ev] else []))
    as [Hn' Hc]; [done| |].
  { intros q'. unfold qs'. case_decide as Hd; [subst q'; by rewrite lookup_insert_eq, Hq|].
    rewrite lookup_insert_ne by done.
    destruct (qs !! q') as [[l []]|]; cbn; by rewrite ?app_nil_r. }
  split; [done|]. intros p'. rewrite Hc. destruct (names !! p') as [q'|] eqn:Hp'.
  - rewrite (decide_ext (q' = q) (p' = p)); [done|]. split; [|intros ->; congruence].
    intros ->. by eapply (nm_inj _ _ _ Hn).
  - assert (content names qs p' = None) as -> by by eapply content_None. done.
Qed.

(** * The simulation relation *)
Section relation.
Context {PS G : Type} `{!Rng G}.
Implicit Type s : SimState PS G.
Implicit Type h : MemoryNet.Hub.

(** Both networks know the same peers; what a peer got from the in-memory network
    it has in its inbox or on its way, in the same order; and what is on its way
    is due. *)
Record matches s h : Prop := {
  m_rules : rules (plan s) = [];
  m_sim : named (inboxes s) (queues s) (next_queue s);
  m_memory : named (MemoryNet.senders h) (MemoryNet.queues h) (MemoryNet.next_queue h);
  m_streams p :
    match inbox p s, stream p h with
    | Some evs, Some evs' => evs ++ under_way p s = filter of_message evs'
    | None, None => under_way p s = []
    | _, _ => False
    end;
  m_due e d ev : e ∈ heap s → pending e = Delivery d ev → at_ e = now s
}.

(** Calls that touch neither the inboxes nor the deliveries. *)
Lemma matches_quiet s s' h :
  matches s h → rules (plan s') = rules (plan s) → inboxes s' = inboxes s →
  queues s' = queues s → next_queue s' = next_queue s →
  (∀ p, under_way p s' = under_way p s) →
  (∀ e d ev, e ∈ heap s' → pending e = Delivery d ev → at_ e = now s') →
  matches s' h.
Proof.
  intros [] Hr Hi Hq Hn Hu Hd. split; try done; rewrite ?Hr, ?Hi, ?Hq, ?Hn; try done.
  intros p. unfold inbox. rewrite Hi, Hq, Hu. apply m_streams0.
Qed.

Lemma matches_endpoint p s h :
  matches s h → under_way p s = [] →
  matches (snd (endpoint p s)) (snd (MemoryNet.endpoint p h)).
Proof.
  intros [Hr Hs Hm Hst Hd] Hu.
  destruct (named_new _ _ _ p Hs) as [Hs' Hcs]. destruct (named_new _ _ _ p Hm) as [Hm' Hcm].
  split; try done. intros p'. unfold inbox, stream. cbn. rewrite Hcs, Hcm.
  case_decide as Hpp; [subst p'; exact Hu|apply Hst].
Qed.

(** ** Sends *)

Lemma of_message_event src msg d : MemoryNet.dst msg = Some d → of_message (MemoryNet.event_of src msg).
Proof. by destruct msg. Qed.

(** What a send gives the stream of [p], the notifications left out. *)
Definition sent_to (p src : N) (msg : NetSend) : list NetEvent.t :=
  match MemoryNet.dst msg with
  | Some d => if decide (p = d) then [MemoryNet.event_of src msg] else []
  | None => []
  end.

Lemma arrivals_of_message h src msg p q :
  named (MemoryNet.senders h) (MemoryNet.queues h) (MemoryNet.next_queue h) →
  MemoryNet.senders h !! p = Some q →
  filter of_message (MemoryNet.arrivals h q src msg) = sent_to p src msg.
Proof.
  intros Hn Hp. unfold MemoryNet.arrivals, sent_to. destruct (MemoryNet.dst msg) as [d|] eqn:Hd.
  - destruct (MemoryNet.senders h !! d) as [qd|] eqn:Hqd; cbn.
    2: { rewrite decide_False by congruence. done. }
    destruct (nm_open _ _ _ Hn d qd Hqd) as [_ [evs ->]]. rewrite filter_app.
    rewrite (decide_ext _ (p = d)).
    2: { split; [|intros ->; congruence]. intros Heq. injection Heq as ->.
         by eapply (nm_inj _ _ _ Hn). }
    assert (filter of_message (match MemoryNet.chunk_ack msg with
      | Some ack => if decide (MemoryNet.senders h !! src = Some q) then [ack] else []
      | None => [] end) = []) as ->.
    { destruct msg; try done. cbn. by case_decide. }
    rewrite app_nil_r. case_decide; [|done].
    rewrite filter_cons_True by (by eapply of_message_event). done.
  - destruct msg; try done. induction (bt_elements _) as [|x l IH]; [done|].
    rewrite bind_cons, filter_app, IH. by case_decide.
Qed.

Lemma memory_send src msg h :
  named (MemoryNet.senders h) (MemoryNet.queues h) (MemoryNet.next_queue h) →
  let '(r, h') := MemoryNet.send src msg h in
  r = match MemoryNet.dst msg with
      | Some d => match stream d h with Some _ => Ok () | None => Err (PeerNotFound d) end
      | None => Ok ()
      end ∧
  named (MemoryNet.senders h') (MemoryNet.queues h') (MemoryNet.next_queue h') ∧
  ∀ p, (filter of_message <$> stream p h') =
       (λ l, filter of_message l ++ sent_to p src msg) <$> stream p h.
Proof.
  intros Hn. pose proof (memory_send_spec src msg h) as Hs.
  destruct (MemoryNet.send src msg h) as [r h']. destruct Hs as ((Hsn & Hnx & Hq) & Hr & _).
  destruct (named_grow _ _ _ _ _ Hn Hq) as [Hn' Hc]. rewrite Hsn, Hnx. split; [|split; [done|]].
  - rewrite Hr. clear Hr. destruct (MemoryNet.dst msg) as [d|]; [|done]. unfold stream.
    destruct (MemoryNet.senders h !! d) as [q|] eqn:Hd.
    + destruct (content_Some _ _ _ _ _ Hn Hd) as (evs & -> & ->). done.
    + rewrite (proj2 (content_None _ _ _ d Hn) Hd). done.
  - intros p. unfold stream. rewrite Hsn, Hc.
    destruct (MemoryNet.senders h !! p) as [q|] eqn:Hp.
    + destruct (content_Some _ _ _ _ _ Hn Hp) as (evs & _ & ->). cbn.
      by rewrite filter_app, (arrivals_of_message h src msg p q).
    + rewrite (proj2 (content_None _ _ _ p Hn) Hp). done.
Qed.

(** Without rules every message is let through, at once. *)
Lemma classify_no_rules (pl : FaultPlan PS G) src d n msg :
  rules pl = [] → ∃ pl', FaultPlan.classify pl src d n msg = Some (Deliver 0, pl') ∧ rules pl' = [].
Proof. intros Hr. unfold FaultPlan.classify. rewrite Hr. cbn. eauto. Qed.

Lemma submit_no_rules src msg s :
  rules (plan s) = [] → now s ≤ DURATION_MAX →
  match MemoryNet.dst msg with
  | Some d =>
      match inboxes s !! d with
      | Some _ => ∃ t pl, rules pl = [] ∧
          submit_send src msg s =
          Some (Ok (), push_entry (mkEntry (now s) (next_seq s)
                         (Delivery d (MemoryNet.event_of src msg)))
                         (push_trace t (set_plan pl (bump s))))
      | None => submit_send src msg s = Some (Err (PeerNotFound d), s)
      end
  | None => submit_send src msg s = Some (Ok (), s)
  end.
Proof.
  intros Hr Hn. destruct (MemoryNet.dst msg) as [d|] eqn:Hd; [|by destruct msg].
  assert (destination msg = Some d ∧ into_event src msg = Some (MemoryNet.event_of src msg) ∧
          ∃ kind, MsgKind.of_send msg = Some kind ∧ ∀ ch m, msg ≠ SendSessionReconstructed ch m)
    as (Hdst & Hev & kind & Hk & Hne).
  { destruct msg; simplify_eq/=; (split; [done|]); (split; [done|]); eauto. }
  assert (submit_send src msg s =
    if negb (contains_key (inboxes s) d) then Some (Err (PeerNotFound d), s)
    else '(c, p) ← FaultPlan.classify (plan s) src d (now s) msg;
      match c with
      | Drop reason => Some (Ok (), push_trace (mkTraceEntry (now s) (next_seq s)
          (TraceSend src d kind (Dropped reason))) (set_plan p (bump s)))
      | Deliver delay =>
          deliver_at ← duration_add (now s) delay;
          Some (Ok (), push_entry (mkEntry deliver_at (next_seq s)
            (Delivery d (MemoryNet.event_of src msg)))
            (push_trace (mkTraceEntry (now s) (next_seq s)
               (TraceSend src d kind (Delivered deliver_at))) (set_plan p (bump s))))
      end) as ->.
  { unfold submit_send. rewrite Hdst, Hev, Hk.
    destruct msg; try by destruct (Hne channel message_id). all: done. }
  unfold contains_key. destruct (inboxes s !! d) as [q|]; cbn [negb].
  2: { by rewrite bool_decide_false by (by intros []). }
  rewrite bool_decide_true by eauto.
  destruct (classify_no_rules (plan s) src d (now s) msg Hr) as (pl & -> & Hpl).
  cbn [negb mbind option_bind]. unfold duration_add.
  rewrite N.add_0_r, decide_True by done. cbn. eauto.
Qed.

(** A delivery that is submitted now goes behind those that are due. *)
Lemma under_way_push pro k s h e p :
  inv pro k s → matches s h → at_ e = now s → seq e = next_seq s →
  omap (delivery_to p) (heap_push entry_le e (heap s)) =
  under_way p s ++ option_list (delivery_to p e).
Proof.
  intros Hi Hm Ha Hs. apply heap_push_omap_last.
  - apply at_seq_le_trans.
  - by destruct (proj1 (StronglySorted_app_iff _ _ _) (inv_sorted _ _ _ Hi)) as (_ & ? & _).
  - intros y Hy Hle. unfold delivery_to. destruct (pending y) as [d ev|] eqn:Hp; [|done].
    pose proof (m_due _ _ Hm y d ev Hy Hp). destruct (inv_heap _ _ _ Hi y Hy).
    apply at_seq_le_spec in Hle. lia.
Qed.

Lemma matches_send pro k src msg s h :
  inv pro k s → now s ≤ DURATION_MAX → matches s h →
  let '(r, h') := MemoryNet.send src msg h in
  ∃ s', submit_send src msg s = Some (r, s') ∧ matches s' h'.
Proof.
  intros Hi Hn Hm. pose proof (memory_send src msg h (m_memory _ _ Hm)) as Hmem.
  pose proof (submit_no_rules src msg s (m_rules _ _ Hm) Hn) as Hsub.
  destruct (MemoryNet.send src msg h) as [r h']. destruct Hmem as (-> & Hn' & Hst').
  assert (∀ p, inbox p s = None ↔ stream p h = None) as Hnone.
  { intros p. pose proof (m_streams _ _ Hm p) as Hst.
    destruct (inbox p s), (stream p h); by split. }
  assert (∀ p, sent_to p src msg = [] ∨ stream p h = None →
            stream p h' = None ∧ stream p h = None ∨
            ∃ evs evs', stream p h = Some evs ∧ stream p h' = Some evs' ∧
              filter of_message evs' = filter of_message evs) as Hkeep.
  { intros p Hp. specialize (Hst' p).
    destruct (stream p h) as [evs|], (stream p h') as [evs'|]; cbn in Hst'; try done; [right|by left].
    exists evs, evs'. split; [done|]. split; [done|]. injection Hst' as ->.
    destruct Hp as [->|]; [by rewrite app_nil_r|done]. }
  assert ((∀ p, sent_to p src msg = [] ∨ stream p h = None) → matches s h') as Hlost.
  { intros Hnot. destruct Hm. split; try done. intros p.
    specialize (m_streams0 p).
    destruct (Hkeep p (Hnot p)) as [[-> Heq]|(evs & evs' & Heq & -> & Hf)];
      rewrite Heq in m_streams0; [done|]. by rewrite Hf. }
  unfold sent_to in *. destruct (MemoryNet.dst msg) as [d|]; [|eauto].
  destruct (inboxes s !! d) as [q|] eqn:Hq.
  2: { apply (content_None _ _ _ _ (m_sim _ _ Hm)), Hnone in Hq as Hd. rewrite Hd.
       exists s. split; [done|]. apply Hlost. intros p. case_decide; [subst p|]; auto. }
  destruct Hsub as (t & pl & Hpl & Hsub).
  destruct (content_Some _ _ _ _ _ (m_sim _ _ Hm) Hq) as (evs & _ & Hin).
  destruct (stream d h) as [evs0|] eqn:Hd.
  2: { apply Hnone in Hd. unfold inbox in Hd. congruence. }
  eexists. split; [exact Hsub|].
  destruct Hm as [Hr Hs Hmm Hst Hdue] eqn:Hmeq; clear Hmeq. split; try done.
  - intros p. specialize (Hst p). specialize (Hst' p).
    change (inbox p (push_entry _ _)) with (inbox p s). unfold under_way. cbn [heap push_entry].
    match goal with |- context [omap (delivery_to p) (heap_push entry_le ?e ?hp)] =>
      change hp with (heap s);
      rewrite (under_way_push pro k s h e p Hi) by (done || by constructor)
    end.
    cbn [delivery_to pending].
    destruct (inbox p s) as [es|] eqn:Hes, (stream p h) as [es0|], (stream p h') as [es'|];
      cbn in Hst'; try done.
    + injection Hst' as ->. rewrite app_assoc, Hst. f_equal.
      rewrite (decide_ext (d = p) (p = d)) by (split; congruence). by case_decide.
    + rewrite Hst. unfold delivery_to. cbn. rewrite decide_False; [done|].
      intros ->. unfold inbox in Hes. congruence.
  - intros e d' ev. cbn [heap push_entry]. rewrite elem_of_heap_push.
    intros [->|He] Hp; [done|]. by apply (Hdue e d' ev).
Qed.

(** ** Deliveries *)

Lemma pop_next_state e hp s :
  heap s = e :: hp →
  ∃ st s', pop_next s = Some (st, s') ∧ heap s' = hp ∧ now s' = at_ e ∧
    inboxes s' = inboxes s ∧ next_queue s' = next_queue s ∧ rules (plan s') = rules (plan s) ∧
    queues s' =
      match pending e with
      | Delivery d ev =>
          match inboxes s !! d ≫= λ q, (q,.) <$> queues s !! q with
          | Some (q, MemoryNet.mkQueue evs true) =>
              <[q := MemoryNet.mkQueue (evs ++ [ev]) true]> (queues s)
          | _ => queues s
          end
      | Wakeup _ => queues s
      end.
Proof.
  intros Hh. unfold pop_next. rewrite Hh. cbn [heap_pop mbind option_bind].
  destruct (pending e) as [d ev|w]; [|by eexists _, _].
  eexists _, _. split; [done|]. cbn [inboxes].
  destruct (inboxes s !! d) as [q|] eqn:Hd; [|by split_and!]. unfold inbox_send. cbn.
  by destruct (queues s !! q) as [[evs []]|].
Qed.

Lemma matches_pop pro k e hp s h :
  inv pro k s → matches s h → heap s = e :: hp →
  ∃ st s', pop_next s = Some (st, s') ∧ heap s' = hp ∧ matches s' h ∧ inv (pro ++ [e]) k s'.
Proof.
  intros Hi Hm Hh. pose proof (pop_next_cons e hp s Hh) as (st & s' & Hpop & Hh' & Hn' & Ht & Hsq & _).
  exists st, s'. split; [done|]. split; [done|].
  destruct (pop_next_state e hp s Hh) as (st2 & s2 & Hpop2 & _ & _ & Hin & Hnq & Hru & Hqs).
  rewrite Hpop in Hpop2. injection Hpop2 as <- <-.
  destruct (inv_pop pro k s s' e hp Hi Hh Hh' Hn' Ht Hsq) as [Hi' Hnow].
  split; [|done].
  assert (∀ x d ev, x ∈ hp → pending x = Delivery d ev → at_ x = now s') as Hdue.
  { intros x d ev Hx Hp. assert (x ∈ heap s) as Hx' by (rewrite Hh; by right).
    pose proof (m_due _ _ Hm x d ev Hx' Hp).
    destruct (inv_heap _ _ _ Hi' x); [by rewrite Hh'|]. lia. }
  destruct (pending e) as [d ev|w] eqn:Hp.
  2: { eapply matches_quiet; [done|congruence|congruence|congruence|congruence| |by rewrite Hh'].
       intros p. unfold under_way. rewrite Hh', Hh. cbn [omap list_omap].
       unfold delivery_to at 2. by rewrite Hp. }
  destruct Hm as [Hr Hs Hmm Hst _].
  assert (∀ p, under_way p s = (if decide (p = d) then [ev] else []) ++ under_way p s') as Hu.
  { intros p. unfold under_way. rewrite Hh', Hh. cbn [omap list_omap].
    unfold delivery_to at 1. rewrite Hp. by repeat case_decide; subst. }
  destruct (inboxes s !! d) as [q|] eqn:Hq.
  2: { exfalso. specialize (Hst d). apply (content_None _ _ _ _ Hs) in Hq.
       unfold inbox in Hst. rewrite Hq, Hu, decide_True in Hst by done.
       by destruct (stream d h). }
  destruct (nm_open _ _ _ Hs d q Hq) as [_ [evs Hevs]]. cbn in Hqs. rewrite Hevs in Hqs. cbn in Hqs.
  destruct (named_push _ _ _ d q evs ev Hs Hq Hevs) as [Hs' Hc].
  split; try by rewrite ?Hru, ?Hin, ?Hqs, ?Hnq.
  - intros p. specialize (Hst p). rewrite Hu in Hst. unfold inbox in *.
    rewrite Hin, Hqs, Hc. destruct (content (inboxes s) (queues s) p) as [es|] eqn:Hes; cbn.
    + destruct (stream p h); [|done]. by rewrite <- app_assoc.
    + destruct (stream p h); [done|]. by apply app_eq_nil in Hst as [_ ?].
  - by rewrite Hh'.
Qed.

Lemma matches_pop_any pro k s h :
  inv pro k s → matches s h →
  matches (match pop_next s with Some (_, s) => s | None => s end) h.
Proof.
  intros Hi Hm. destruct (heap s) as [|e hp] eqn:Hh.
  - unfold pop_next. by rewrite Hh.
  - by destruct (matches_pop pro k e hp s h Hi Hm Hh) as (st & s' & -> & _ & ? & _).
Qed.

Lemma matches_advance pro k target s h :
  inv pro k s → matches s h → matches (advance_to target s) h.
Proof.
  intros Hi Hm. unfold advance_to.
  assert (∀ fuel pro s, inv pro k s → matches s h → matches (advance_loop fuel target s) h)
    as Hloop.
  { clear. induction fuel as [|fuel IH]; intros pro s Hi Hm; [done|]. cbn [advance_loop].
    destruct (heap s) as [|e hp] eqn:Hh; [done|]. cbn [head]. case_decide; [|done].
    destruct (matches_pop pro k e hp s h Hi Hm Hh) as (st & s' & -> & _ & ? & ?).
    by eapply IH. }
  pose proof (Hloop (length (heap s)) pro s Hi Hm) as Hm'.
  destruct (advance_loop_spec (length (heap s)) target pro k s Hi (le_n _)) as (_ & _ & Hlate & _).
  set (s1 := advance_loop _ _ _) in *. case_decide as Hlt; [|done].
  eapply matches_quiet; [done..|]. cbn. intros e d ev He Hp.
  pose proof (m_due _ _ Hm' e d ev He Hp). specialize (Hlate e He). lia.
Qed.

(** Pumping everything leaves nothing on the way. *)
Lemma matches_pump_all pro k s h :
  inv pro k s → matches s h → matches (snd (pump_all s)) h ∧ heap (snd (pump_all s)) = [].
Proof.
  unfold pump_all. generalize O as n. remember (length (heap s)) as fuel eqn:Hf.
  revert pro s Hf; induction fuel as [|fuel IH]; intros pro s Hf n Hi Hm.
  { split; [done|]. by apply nil_length_inv. }
  destruct (heap s) as [|e hp] eqn:Hh; [done|]. cbn [pump_loop].
  destruct (matches_pop pro k e hp s h Hi Hm Hh) as (st & s' & -> & Hh' & ? & ?).
  eapply IH; [|done..]. rewrite Hh'. by injection Hf.
Qed.

(** ** Runs *)

Lemma inbox_stream s h p : matches s h → inbox p s = None ↔ stream p h = None.
Proof.
  intros Hm. pose proof (m_streams _ _ Hm p). destruct (inbox p s), (stream p h); by split.
Qed.

(** Only [endpoint] makes a peer known. *)
Lemma call_memory_known o h p :
  named (MemoryNet.senders h) (MemoryNet.queues h) (MemoryNet.next_queue h) →
  stream p (call_memory o h).2 = None ↔ stream p h = None ∧ o ≠ Endpoint p.
Proof.
  intros Hn. destruct o as [p'|src msg|d| |target|p']; cbn;
    try by (split; [split|intros []]).
  - destruct (named_new _ _ _ p' Hn) as [_ Hc]. unfold stream. cbn. rewrite Hc.
    case_decide; [subst p'; split; [done|tauto]|]. split; [|tauto].
    intros ?. split; [done|]. congruence.
  - pose proof (memory_send src msg h Hn) as Hs.
    destruct (MemoryNet.send src msg h) as [r h']. destruct Hs as (_ & _ & Hs). cbn.
    specialize (Hs p). destruct (stream p h), (stream p h'); cbn in Hs; try done;
      (split; [by intros|by intros []]).
Qed.

(** One call on both networks. *)
Lemma matches_call `{!RngRange G} o pro k B s h :
  inv pro k s → bounded 0 B s → matches s h → k + 1 < 2 ^ 64 →
  B + reach 0 o ≤ DURATION_MAX →
  (∀ p, o = Endpoint p → under_way p s = []) →
  ∃ s', call_sim o s = Some ((call_memory o h).1, s') ∧ matches s' (call_memory o h).2 ∧
    (∃ pro', inv pro' (k + 1) s') ∧ bounded 0 (B + reach 0 o) s'.
Proof.
  intros Hi Hb Hm Hk HB Hnew.
  destruct (step_inv o pro k 0 B s Hi Hb) as (s' & Hstep & Hi' & Hb' & _); [done|lia|lia|].
  assert (matches s' (call_memory o h).2 ∧ call_sim o s = Some ((call_memory o h).1, s'))
    as [? ?]; [|exists s'; split_and!; try done; by eexists].
  destruct o as [p|src msg|d| |target|p]; cbn [step call_sim call_memory fst snd] in *;
    try injection Hstep as <-; try (split; [|done]).
  - apply matches_endpoint; [done|]. by apply Hnew.
  - pose proof (matches_send pro k src msg s h Hi) as Hs.
    pose proof (b_now _ _ _ Hb).
    destruct (MemoryNet.send src msg h) as [r h'].
    destruct Hs as (s1 & Hs1 & Hm1); [lia|done|]. rewrite Hs1 in Hstep |- *.
    cbn in Hstep. injection Hstep as <-. by split.
  - unfold sleep in *. destruct (duration_add (now s) d) as [at_time|] eqn:Hd; [|done].
    cbn in *. injection Hstep as <-. split; [|done].
    eapply matches_quiet; [done..| |].
    + intros p. unfold under_way. cbn. by apply heap_push_omap_None.
    + cbn. intros e d' ev He Hp. apply elem_of_heap_push in He as [->|He]; [done|].
      by apply (m_due _ _ Hm e d' ev).
  - by eapply matches_pop_any.
  - by eapply matches_advance.
  - by eapply matches_quiet; [done..| |apply (m_due _ _ Hm)].
Qed.

Lemma matches_run `{!RngRange G} os pro k B s h :
  inv pro k s → bounded 0 B s → matches s h → k + N.of_nat (length os) < 2 ^ 64 →
  B + horizon 0 os ≤ DURATION_MAX → settled os s = true →
  ∃ s', run_sim os s = Some ((run_memory os h).1, s') ∧ matches s' (run_memory os h).2 ∧
    ∃ pro' k', inv pro' k' s'.
Proof.
  revert pro k B s h; induction os as [|o os IH]; intros pro k B s h Hi Hb Hm Hk HB Hset.
  { exists s. split; [done|]. split; [done|]. by eexists _, _. }
  cbn [length horizon foldr] in Hk, HB. fold (horizon 0 os) in HB.
  cbn [settled] in Hset. apply andb_true_iff in Hset as [Ho Hset].
  destruct (matches_call o pro k B s h Hi Hb Hm) as (s1 & Hc & Hm1 & [pro1 Hi1] & Hb1); [lia|lia| |].
  { intros p ->. by destruct (under_way p s). }
  rewrite Hc in Hset. destruct (call_memory o h) as [r h1] eqn:Hcm. cbn [fst snd] in *.
  destruct (IH pro1 (k + 1) (B + reach 0 o) s1 h1) as (s2 & Hr & Hm2 & Hi2); try done; [lia|lia|].
  exists s2. cbn [run_sim run_memory]. rewrite Hc, Hcm. cbn. rewrite Hr. cbn.
  destruct (run_memory os h1) as [rs h2]. by split.
Qed.

(** Peers that register once each are settled. *)
Lemma once_settled `{!RngRange G} os pro k B s h :
  inv pro k s → bounded 0 B s → matches s h → k + N.of_nat (length os) < 2 ^ 64 →
  B + horizon 0 os ≤ DURATION_MAX →
  NoDup (endpoints os) → (∀ p, p ∈ endpoints os → stream p h = None) → settled os s = true.
Proof.
  revert pro k B s h; induction os as [|o os IH]; intros pro k B s h Hi Hb Hm Hk HB Hnd Hnew; [done|].
  cbn [length horizon foldr] in Hk, HB. fold (horizon 0 os) in HB.
  assert (endpoints (o :: os) = match o with Endpoint p => [p] | _ => [] end ++ endpoints os) as He
    by (by destruct o).
  rewrite He in Hnd, Hnew. apply NoDup_app in Hnd as (_ & Hdis & Hnd).
  assert (∀ p, o = Endpoint p → under_way p s = []) as Ho.
  { intros p ->. pose proof (m_streams _ _ Hm p) as Hst. rewrite (Hnew p) in Hst by left.
    by destruct (inbox p s). }
  destruct (matches_call o pro k B s h Hi Hb Hm) as (s1 & Hc & Hm1 & [pro1 Hi1] & Hb1); [lia|lia|done|].
  cbn [settled]. rewrite Hc. apply andb_true_iff. split.
  { destruct o as [p| | | | |]; try done. by rewrite (Ho p). }
  apply (IH pro1 (k + 1) (B + reach 0 o) s1 (call_memory o h).2); try done; [lia|lia|].
  intros p Hp. apply (call_memory_known o h p (m_memory _ _ Hm)).
  split; [apply Hnew, elem_of_app; by right|]. intros ->. apply (Hdis p); [by left|done].
Qed.

Lemma matches_new (pl : FaultPlan PS G) start :
  rules pl = [] → matches (SimState.new pl start) MemoryNet.new.
Proof.
  intros Hr. split; try done; try by split. by intros e d ev ?%elem_of_nil.
Qed.
End relation.

(** C19: without fault rules the simulated network behaves as the in-memory
    network, the notifications to a message's own sender apart.  Whatever peers
    call, together with any sleeps, pumps and advances of the clock, provided that
    a peer that takes another endpoint has nothing on its way then, no call
    panics, every send has the same result on both, and at any time what a peer
    has in its inbox, followed by what is on its way to it, is what its stream of
    the in-memory network holds, in the same order, less the chunk
    acknowledgements and the reconstruction notices, which the simulator never
    gives.  Once everything is pumped nothing is on its way.  The proviso is
    needed: [replaced_endpoint_differs]. *)
Theorem simnet_matches_memory_net {PS G} `{!Rng G, !RngRange G} os (pl : FaultPlan PS G) start :
  rules pl = [] → settled os (SimState.new pl start) = true → N.of_nat (length os) < 2 ^ 64 →
  horizon 0 os ≤ DURATION_MAX →
  let '(rs, h) := run_memory os MemoryNet.new in
  ∃ s, run_sim os (SimState.new pl start) = Some (rs, s) ∧
  ∀ p,
    match stream p h with
    | Some evs =>
        (∃ got, inbox p s = Some got ∧ got ++ under_way p s = filter of_message evs) ∧
        inbox p (snd (pump_all s)) = Some (filter of_message evs)
    | None => inbox p s = None
    end.
Proof.
  intros Hr Hset Hk HB.
  destruct (matches_run os [] 0 0 (SimState.new pl start) MemoryNet.new) as
    (s & Hs & Hm & pro & k & Hi); try done.
  - apply inv_new.
  - split; [done|by intros e ?%elem_of_nil|]. change (plan_delay (rules pl) = 0). by rewrite Hr.
  - by apply matches_new.
  - destruct (run_memory os MemoryNet.new) as [rs h]. cbn [fst snd] in *.
    exists s. split; [done|]. intros p.
    destruct (matches_pump_all pro k s h Hi Hm) as [Hm' Hh].
    pose proof (m_streams _ _ Hm p) as H1. pose proof (m_streams _ _ Hm' p) as H2.
    unfold under_way in H2. rewrite Hh in H2.
    destruct (stream p h) as [evs|]; [|by destruct (inbox p s)].
    destruct (inbox p s) as [got|]; [|done]. split; [by exists got|].
    destruct (inbox p (snd (pump_all s))); [|done]. cbn in H2. by rewrite app_nil_r in H2; subst.
Qed.

(** ** A concrete run *)
Module SimMemoryExample.
Import SimExample.

Definition calls : list op :=
  [Endpoint 1; Endpoint 2; Send 1 (SendSubscribe 2 "a"); Sleep 5; Pump;
   Send 2 (SendSessionOpen 1 "a" "m" [] []); Send 2 (SendChunk 1 "a" "m" 0 [] 7);
   Send 1 (SendSessionReconstructed "a" "m"); AdvanceTo 3; Send 1 (SendSubscribe 9 "a");
   Endpoint 9; Send 1 (SendSubscribe 9 "b"); Endpoint 2; Send 9 (SendSubscribe 2 "c")].

(** A peer that takes another endpoint while a message is on its way to it gets the
    message there in the simulation, but not in memory. *)
Definition replaced : list op :=
  [Endpoint 1; Endpoint 2; Send 2 (SendSubscribe 1 "a"); Endpoint 1].

Example replaced_endpoint_differs :
  stream 1 (snd (run_memory replaced MemoryNet.new)) = Some [] ∧
  ∃ s, run_sim replaced (SimState.new (FaultPlan.new 3 : FaultPlan unit N) 100) =
         Some ([Ok ()], s) ∧
    inbox 1 (snd (pump_all s)) = Some [NetEvent.Subscribe 2 "a"].
Proof.
  split; [vm_compute; reflexivity|]. eexists. split; [vm_compute; reflexivity|].
  vm_compute. reflexivity.
Qed.

Lemma simnet_matches_memory_net_witness :
  let '(rs, h) := run_memory calls MemoryNet.new in
  ∃ s, run_sim calls (SimState.new (FaultPlan.new 3 : FaultPlan unit N) 100) = Some (rs, s) ∧
  inbox 2 (snd (pump_all s)) = filter of_message <$> stream 2 h.
Proof.
  pose proof (simnet_matches_memory_net calls (FaultPlan.new 3 : FaultPlan unit N) 100 eq_refl
    ltac:(vm_compute; reflexivity) ltac:(vm_compute; reflexivity)
    ltac:(vm_compute; discriminate)) as Hw.
  destruct (run_memory calls MemoryNet.new) as [rs h] eqn:Hrun.
  destruct Hw as (s & Hs & Hp). exists s. split; [exact Hs|]. specialize (Hp 2).
  destruct (stream 2 h) eqn:Hst; [exact (proj2 Hp)|].
  vm_compute in Hrun. injection Hrun as <- <-. vm_compute in Hst. discriminate.
Defined.
End SimMemoryExample.
End SimMemory.
