(* ===== verification/SimRunner.v ===== *)
(** The scenario runner of the simulator: [ethp2p-sim/src/runner.rs], with the
    [Net] implementation of [net.rs] and the clock of [clock.rs].

    The engines share the hub's state behind a mutex.  The runner drives one
    engine at a time, so the model lends the state to that engine's endpoint
    for the call ([lend]) and takes it back ([call]).  The clock reads the
    virtual time, which only [pump] moves, so it is constant during a call.
    Waiting on an empty inbox blocks the runtime's only thread: [Hang]. *)
From Stdlib Require Import NArith Lia.
From stdpp Require Import base gmap option strings list sorting.
From S2P Require Import Prelude Heap BitMap Wire Config Strategy RsCodec Planner RsStrategy.
From S2P Require Import Session Channel Runtime Engine EngineInv EngineRel RsEngine.
From S2P Require Import EngineNet MemoryNet Sim.

Open Scope N_scope.

(** What running a call comes to. *)
Inductive Outcome (A : Type) := Returns (a : A) | Panic | Hang.
Arguments Returns {A} a.
Arguments Panic {A}.
Arguments Hang {A}.

#[export] Instance Outcome_ret : MRet Outcome := λ A a, Returns a.
#[export] Instance Outcome_bind : MBind Outcome := λ A B f o,
  match o with Returns a => f a | Panic => Panic | Hang => Hang end.

Definition or_panic {A} (o : option A) : Outcome A :=
  match o with Some a => Returns a | None => Panic end.

(** [SimError]. *)
Inductive SimError :=
  | EngineFailed (peer : N) (message : string)
  | EngineClosed (peer : N)
  | MaxStepsExceeded (max : nat)
  | UnknownPeer (peer : N)
  | EncodeFailed (message : string).

#[export] Instance Display_SimError : Display SimError := λ e,
  match e with
  | EngineFailed peer message => "engine " +:+ to_string peer +:+ ": " +:+ message
  | EngineClosed p => "engine " +:+ to_string p +:+ ": event stream closed"
  | MaxStepsExceeded max => "run_to_quiescence exceeded " +:+ to_string max +:+ " steps"
  | UnknownPeer p => "unknown peer " +:+ to_string p
  | EncodeFailed m => "origin encode failed: " +:+ m
  end%string.

Definition DELIVERY_SINK_CAPACITY : nat := 16.

(** The bounded channel of the deliveries; the runner keeps its receiver. *)
Record Buffer := mkBuffer { buffered : list DeliveredMessage }.

#[export] Instance Sink_Buffer : DeliverySink DeliveredMessage Buffer := λ m d,
  if decide (DELIVERY_SINK_CAPACITY ≤ length (buffered d))%nat then (Err (), d)
  else (Ok (), mkBuffer (buffered d ++ [m])).

(** [SimClock::now]. *)
Record SimClock := mkClock { wall : N }.
#[export] Instance Clock_SimClock : Clock SimClock := λ c, (wall c, c).

(** [SimNetEndpoint], with the shared state while it is lent; [None] after a
    panic. *)
Record SimNetEndpoint (PS G : Type) := mkEp {
  ep_peer : N;
  shared : option (SimState PS G)
}.
Arguments mkEp {PS G} ep_peer shared.
Arguments ep_peer {PS G} _.
Arguments shared {PS G} _.

#[export] Instance Net_Sim {PS G} `{!Rng G} : Net (SimNetEndpoint PS G) := λ msg n,
  match shared n with
  | None => (Ok (), n)
  | Some s =>
      match SimState.submit_send (ep_peer n) msg s with
      | None => (Ok (), mkEp (ep_peer n) None)
      | Some (r, s) => (r, mkEp (ep_peer n) (Some s))
      end
  end.

(** [derive_seed]. *)
Definition derive_seed (seed peer : N) : N :=
  N.lxor seed ((peer * 0x9E3779B97F4A7C15) `mod` 2 ^ 64).

(** The engines by peer, each with the queue of its events. *)
Record Node (E : Type) := mkNode { engine : E; rx : nat }.
Arguments mkNode {E} engine rx.
Arguments engine {E} _.
Arguments rx {E} _.

Record Runner (PS G E : Type) := mkRunner {
  hub : SimState PS G;
  seed : N;
  engines : gmap N (Node E)
}.
Arguments mkRunner {PS G E} hub seed engines.
Arguments hub {PS G E} _.
Arguments seed {PS G E} _.
Arguments engines {PS G E} _.

Module SimRunner.
Import Rs RsDrain.
Section runner.
Context {PS G : Type} `{!Rng G}.
Context `{Sha256, ReedSolomon, Message Preamble}.

(** [SimEngine]. *)
Abbreviation SimEngine := (Engine Rs.RsStrategy (SimNetEndpoint PS G) SimClock Buffer).
Abbreviation SimRunner := (Runner PS G SimEngine).
Implicit Types (r : SimRunner) (e : SimEngine) (s : SimState PS G).

Definition set_hub s r : SimRunner := mkRunner s (seed r) (engines r).
Definition set_engine (peer : N) e r : SimRunner :=
  mkRunner (hub r) (seed r) (alter (λ n, mkNode e (rx n)) peer (engines r)).

(** Giving the shared state to an engine for a call. *)
Definition lend s e : SimEngine :=
  set_net (mkEp (ep_peer (net e)) (Some s)) (set_clock (mkClock (SimState.wall_now s)) e).

(** A call of an engine. *)
Definition call {A} (f : SimEngine → A * SimEngine) (peer : N) e r : Outcome (A * SimRunner) :=
  let '(a, e) := f (lend (hub r) e) in
  s ← or_panic (shared (net e));
  Returns (a, set_engine peer e (set_hub s r)).

(** The loop body of [new]. *)
Definition add_peer r (peer : N) : SimRunner :=
  let '(q, s) := SimState.endpoint peer (hub r) in
  let e := Engine.with_config peer (mkEp peer (Some s)) (mkBuffer []) EngineConfig_default
             (mkClock (SimState.wall_now s)) in
  mkRunner s (seed r) (<[peer := mkNode e q]> (engines r)).

Definition new (peers : list N) (plan : FaultPlan PS G) (sim_start : N) : SimRunner :=
  foldl add_peer (mkRunner (SimState.new plan sim_start) (plan_seed plan) ∅) peers.

(** The loops over the engines: [?] leaves at the first error. *)
Fixpoint for_engines (peers : list N) (f : N → SM SimEngine EngineError unit) r
    : Outcome (result SimError unit * SimRunner) :=
  match peers with
  | [] => Returns (Ok (), r)
  | peer :: peers =>
      match engines r !! peer with
      | None => for_engines peers f r
      | Some node =>
          '(res, r) ← call (f peer) peer (engine node) r;
          match res with
          | Err err => Returns (Err (EngineFailed peer (to_string err)), r)
          | Ok _ => for_engines peers f r
          end
      end
  end.

Definition subscribe_all (channel : string) (config : RsConfig) r :=
  for_engines (bt_keys (engines r))
    (λ peer, Engine.subscribe channel
      (rs_relay_factory_seeded config
         (derive_seed (seed r) peer))) r.

Definition connect_full_mesh r :=
  let peers := bt_keys (engines r) in
  for_engines peers
    (λ peer, sm_for Engine.connect (filter (λ other, other ≠ peer) peers)) r.

Definition publish (origin : N) (channel message_id : string) (payload : bytes)
    (config : RsConfig) r : Outcome (result SimError unit * SimRunner) :=
  encoded ← or_panic (Encode.encode payload config);
  match encoded with
  | Err err => Returns (Err (EncodeFailed (debug_string err)), r)
  | Ok (preamble, _) =>
      let preamble_bytes := encode_to_vec preamble in
      origin_strategy ← or_panic
        (Rs.new_origin_with_seed payload config (derive_seed (seed r) origin));
      match origin_strategy with
      | Err err => Returns (Err (EncodeFailed (debug_string err)), r)
      | Ok strategy =>
          match engines r !! origin with
          | None => Returns (Err (UnknownPeer origin), r)
          | Some node =>
              '(res, r) ← call (Engine.publish channel message_id strategy preamble_bytes)
                            origin (engine node) r;
              Returns (map_err (λ err, EngineFailed origin (to_string err)) res, r)
          end
      end
  end.

(** [events.next()] on an inbox: it ends when no sender is left. *)
Definition next_event (q : nat) s : Outcome (option NetEvent.t * SimState PS G) :=
  match queues s !! q with
  | Some (MemoryNet.mkQueue (ev :: evs) b) =>
      Returns (Some ev, SimState.set_queues (<[q := MemoryNet.mkQueue evs b]> (queues s)) s)
  | _ => if decide (q ∈ (map_to_list (inboxes s)).*2) then Hang else Returns (None, s)
  end.

(** The loop of [run_to_quiescence]; [budget] is [max_steps - steps]. *)
Fixpoint run_loop (max_steps budget steps : nat) r
    : Outcome (result SimError nat * SimRunner) :=
  match SimState.pop_next (hub r) with
  | None => Returns (Ok steps, r)
  | Some (step, s) =>
      let r := set_hub s r in
      match budget with
      | O => Returns (Err (MaxStepsExceeded max_steps), r)
      | S budget =>
          match step with
          | Woke => run_loop max_steps budget (S steps) r
          | DeliveredTo peer =>
              match engines r !! peer with
              | None => run_loop max_steps budget (S steps) r
              | Some node =>
                  let r := set_hub (SimState.record_engine_step peer (hub r)) r in
                  '(event, s) ← next_event (rx node) (hub r);
                  '(res, r) ← call (Engine.run_one_step event) peer (engine node) (set_hub s r);
                  match res with
                  | Processed => run_loop max_steps budget (S steps) r
                  | StepClosed => Returns (Err (EngineClosed peer), r)
                  end
              end
          end
      end
  end.

Definition run_to_quiescence (max_steps : nat) r := run_loop max_steps max_steps 0 r.

Definition take_deliveries (peer : N) r : list DeliveredMessage * SimRunner :=
  match engines r !! peer with
  | Some node =>
      (buffered (delivered (engine node)),
       set_engine peer (set_delivered (mkBuffer []) (engine node)) r)
  | None => ([], r)
  end.
End runner.
End SimRunner.

(** * Runs of the runner *)
Module RunnerLemmas.
Import Rs RsDrain SimRunner SimTrace EngineRel NetOnly.
Section lemmas.
Context {PS G : Type} `{!Rng G, !RngRange G}.
Context `{Sha256, ReedSolomon, !ReedSolomonLaws, Message Preamble}.
Abbreviation SimEngine := (Engine Rs.RsStrategy (SimNetEndpoint PS G) SimClock Buffer).
Abbreviation SimRunner := (Runner PS G SimEngine).
Implicit Types (r : SimRunner) (e : SimEngine) (s : SimState PS G).

(** What sends do to the shared state when rules delay by at most [D]: the time
    and the inboxes stay, and what is scheduled is at most [D] away. *)
Record sent (D : N) s s' : Prop := {
  sn_now : now s' = now s;
  sn_queues : queues s' = queues s;
  sn_next : next_queue s' = next_queue s;
  sn_inboxes : inboxes s' = inboxes s;
  sn_plan : plan_delay (rules (plan s')) = plan_delay (rules (plan s));
  sn_heap x : x ∈ heap s' → x ∈ heap s ∨ at_ x ≤ now s + D
}.

#[export] Instance sent_po D : PreOrder (sent D).
Proof.
  split; [split; auto|]. intros s1 s2 s3 [] []. split; try congruence.
  intros x [Hx|Hx]%sn_heap1; [auto|right; congruence].
Qed.

Lemma submit_send_sent src msg s D :
  plan_delay (rules (plan s)) = D → now s + D ≤ DURATION_MAX →
  ∃ res s', SimState.submit_send src msg s = Some (res, s') ∧ sent D s s'.
Proof.
  intros HD Hle. destruct (submit_send_cases src msg s)
    as [(res & -> & _)|(dst & kind & event & Hc)]; [by exists res, s|].
  destruct (classify_total (plan s) src dst (now s) msg) as (c & p & Hcl & Hp & Hd); [lia|].
  destruct (Hc c p Hcl) as [_ ->]. destruct c as [delay|reason].
  - specialize (Hd delay eq_refl). unfold duration_add. rewrite decide_True by lia.
    eexists _, _. split; [done|]. split; try done.
    intros x [->|Hx]%elem_of_heap_push; [right; simpl; lia|by left].
  - eexists _, _. split; [done|]. split; try done. by left.
Qed.

Lemma net_sends_sent msgs p s D :
  plan_delay (rules (plan s)) = D → now s + D ≤ DURATION_MAX →
  ∃ s', net_sends msgs (mkEp p (Some s)) = mkEp p (Some s') ∧ sent D s s'.
Proof.
  revert s; induction msgs as [|msg msgs IH]; intros s HD Hle; [by exists s|].
  destruct (submit_send_sent p msg s D HD Hle) as (res & s1 & Hs & Hs1).
  pose proof Hs1 as []. destruct (IH s1) as (s2 & Hn2 & Hs2); [congruence..|].
  exists s2. split; [|by etrans]. unfold net_sends in *. cbn [foldl].
  unfold net_send at 2, Net_Sim. cbn [shared ep_peer]. by rewrite Hs.
Qed.

(** The queue [q] has a receiver. *)
Definition rx_alive s (q : nat) : Prop :=
  ∃ evs, queues s !! q = Some (MemoryNet.mkQueue evs true).

(** The runner's invariant: every engine has its own inbox, with a receiver, and
    nobody else has one; what is scheduled is at most [D] after [B], a bound on
    the time. *)
Record ok (D B : N) r : Prop := {
  ok_now : now (hub r) ≤ B;
  ok_heap x : x ∈ heap (hub r) → at_ x ≤ B + D;
  ok_plan : plan_delay (rules (plan (hub r))) = D;
  ok_wired p n : engines r !! p = Some n →
    inboxes (hub r) !! p = Some (rx n) ∧ rx_alive (hub r) (rx n) ∧
    (rx n < next_queue (hub r))%nat;
  ok_inbox p q : inboxes (hub r) !! p = Some q → ∃ n, engines r !! p = Some n ∧ rx n = q;
  ok_inj p1 p2 n1 n2 : engines r !! p1 = Some n1 → engines r !! p2 = Some n2 →
    rx n1 = rx n2 → p1 = p2
}.

Lemma ok_weaken D B B' r : ok D B r → B ≤ B' → ok D B' r.
Proof. intros [] ?. split; try done; [lia|]. intros x Hx. specialize (ok_heap0 x Hx). lia. Qed.

Lemma ok_sent D B r s' : ok D B r → sent D (hub r) s' → ok D B (set_hub s' r).
Proof.
  intros [] []. unfold rx_alive in *.
  split; simpl; rewrite ?sn_inboxes0, ?sn_next0; try done; [congruence| |congruence|].
  - intros x [Hx|Hx]%sn_heap0; [auto|lia].
  - intros p n Hn. unfold rx_alive. simpl. rewrite sn_queues0. auto.
Qed.

Lemma ok_set_engine D B r p e : ok D B r → ok D B (set_engine p e r).
Proof.
  intros [].
  assert (∀ p' n, engines (set_engine p e r) !! p' = Some n →
    ∃ n', engines r !! p' = Some n' ∧ rx n' = rx n) as Hr.
  { intros p' n. cbn [set_engine engines]. rewrite lookup_alter. case_decide; [|by eauto].
    subst p'. destruct (engines r !! p) as [n'|]; [|done]. intros [= <-]. by exists n'. }
  split; try done; cbn [set_engine hub].
  - intros p' n (n' & Hn & <-)%Hr. auto.
  - intros p' q (n & Hn & <-)%ok_inbox0. unfold set_engine. cbn [engines]. rewrite lookup_alter.
    case_decide; [subst p'|]; rewrite Hn; eexists; by split.
  - intros p1 p2 n1 n2 (n1' & ? & <-)%Hr (n2' & ? & <-)%Hr. eauto.
Qed.

(** A call of an engine whose effect on its network is by sends. *)
Lemma call_ok {A} (f : SimEngine → A * SimEngine) peer e r D B :
  ok D B r → B + D ≤ DURATION_MAX → (∀ e, by_sends e (snd (f e))) →
  ∃ e' r', call f peer e r = Returns (fst (f (lend (hub r) e)), r') ∧ ok D B r' ∧
    r' = set_engine peer e' (set_hub (hub r') r) ∧ sent D (hub r) (hub r').
Proof.
  intros Hok HB Hf. destruct (Hf (lend (hub r) e)) as [msgs Hm]. unfold call.
  destruct (f (lend (hub r) e)) as [a e'] eqn:Hfe. cbn [snd fst] in *.
  destruct (net_sends_sent msgs (ep_peer (net e)) (hub r) D) as (s' & Hs & Hsent).
  { apply Hok. } { destruct Hok. lia. }
  cbn [lend net set_net] in Hm. rewrite Hs in Hm. rewrite Hm. cbn [shared or_panic].
  exists e', (set_engine peer e' (set_hub s' r)). split; [done|].
  split; [|by split]. by apply ok_set_engine, ok_sent.
Qed.

Lemma for_engines_ok peers f r D B :
  ok D B r → B + D ≤ DURATION_MAX → (∀ p e, by_sends e (snd (f p e))) →
  ∃ res r', for_engines peers f r = Returns (res, r') ∧ ok D B r'.
Proof.
  revert r; induction peers as [|p peers IH]; intros r Hok HB Hf; [by eexists _, _|].
  cbn [for_engines]. destruct (engines r !! p) as [node|]; [|by apply IH].
  destruct (call_ok (f p) p (engine node) r D B Hok HB (Hf p)) as (e' & r' & -> & Hok' & _).
  cbn [mbind Outcome_bind]. destruct (fst _) as [[]|err]; [by apply IH|by eexists _, _].
Qed.

Lemma publish_ok origin ch m payload cfg r D B :
  ok D B r → B + D ≤ DURATION_MAX → chunk_len cfg ≠ 0 ∨ data_shards cfg ≠ 0 →
  ∃ res r', publish origin ch m payload cfg r = Returns (res, r') ∧ ok D B r'.
Proof.
  intros Hok HB Hcfg. unfold publish, Rs.new_origin_with_seed.
  destruct (Encode.encode payload cfg) as [[[pre shards]|err]|] eqn:He; cbn.
  - destruct (engines r !! origin) as [node|]; [|by eexists _, _].
    match goal with |- context [call ?f _ _ _] =>
      destruct (call_ok f origin (engine node) r D B Hok HB) as (e' & r' & -> & Hok' & _);
        [intros e; by apply (publish_rel _ _ by_sends)|] end.
    by eexists _, _.
  - by eexists _, _.
  - exfalso. destruct (decide (payload = [])) as [->|Hp]; [done|].
    pose proof (RsCodec.encode_cases payload cfg Hp) as Hc. rewrite He in Hc. lia.
Qed.

(** The invariant at a later time, with other events in the inboxes. *)
Lemma ok_hub D B B' r s :
  ok D B r → now s ≤ B' → (∀ x, x ∈ heap s → at_ x ≤ B' + D) →
  plan s = plan (hub r) → inboxes s = inboxes (hub r) → next_queue s = next_queue (hub r) →
  (∀ q, rx_alive (hub r) q → rx_alive s q) → ok D B' (set_hub s r).
Proof.
  intros [] ? Hh Hp Hi Hn Hq. split; cbn [set_hub hub engines]; rewrite ?Hp, ?Hi, ?Hn; try done.
  intros p n (? & ? & ?)%ok_wired0. auto.
Qed.

(** An event more or less in a queue. *)
Lemma rx_alive_insert s q evs q' :
  rx_alive s q' → rx_alive (SimState.set_queues (<[q := MemoryNet.mkQueue evs true]> (queues s)) s) q'.
Proof.
  intros Hq. unfold rx_alive. cbn [SimState.set_queues queues]. destruct (decide (q' = q)) as [->|].
  - rewrite lookup_insert_eq. by exists evs.
  - by rewrite lookup_insert_ne.
Qed.

(** Taking the first entry off the heap: a delivery to an engine leaves an event
    in its inbox. *)
Lemma pop_ok D B r step s :
  ok D B r → SimState.pop_next (hub r) = Some (step, s) →
  ok D (B + D) (set_hub s r) ∧
  ∀ p n, step = DeliveredTo p → engines r !! p = Some n →
    ∃ ev evs, queues s !! rx n = Some (MemoryNet.mkQueue (ev :: evs) true).
Proof.
  intros Hok. unfold SimState.pop_next. destruct (heap (hub r)) as [|x h] eqn:Hh; [done|].
  cbn [heap_pop mbind option_bind].
  assert (at_ x ≤ B + D ∧ ∀ y, y ∈ h → at_ y ≤ B + D + D) as [Hx Hy].
  { split; [|intros y Hy; etrans; [|apply N.le_add_r]]; apply (ok_heap _ _ _ Hok);
      rewrite Hh; [by left|by right]. }
  destruct (pending x) as [p ev|w]; intros [= <- <-]; [|split; [by apply (ok_hub D B)|done]].
  cbn [inboxes]. destruct (inboxes (hub r) !! p) as [q|] eqn:Hi.
  - destruct (ok_inbox _ _ _ Hok p q Hi) as (n & Hn & <-).
    destruct (ok_wired _ _ _ Hok p n Hn) as (_ & [evs Hq] & _). unfold SimState.inbox_send.
    cbn [queues]. rewrite Hq. split.
    + apply (ok_hub D B); try done. intros q' Hq'. by apply (rx_alive_insert (mkState _ _ _ _ _ _ _ _ _ _)).
    + intros p' n' [= <-] Hn'. assert (n' = n) as -> by congruence.
      cbn [SimState.set_queues queues]. rewrite lookup_insert_eq.
      destruct evs as [|ev' evs]; by eexists _, _.
  - split; [by apply (ok_hub D B)|]. intros p' n [= <-] Hn.
    destruct (ok_wired _ _ _ Hok p n Hn) as [Hw _]. congruence.
Qed.

(** The loop: it comes back, at the end of the heap or of the budget. *)
Lemma run_loop_ok max budget steps r D B :
  ok D B r → B + N.of_nat (S budget) * D + D ≤ DURATION_MAX →
  ∃ res r', run_loop max budget steps r = Returns (res, r') ∧
    ok D (B + N.of_nat (S budget) * D) r' ∧
    match res with
    | Ok n => (n ≤ steps + budget)%nat ∧ heap (hub r') = []
    | Err err => err = MaxStepsExceeded max
    end.
Proof.
  revert steps r B; induction budget as [|budget IH]; intros steps r B Hok HB;
    cbn [run_loop]; destruct (SimState.pop_next (hub r)) as [[step s]|] eqn:Hpop;
    try (eexists _, _; split; [done|]; split; [eapply ok_weaken; [done|lia]|]; split; [lia|];
      unfold SimState.pop_next in Hpop; destruct (heap (hub r)) as [|x h]; [done|];
      cbn in Hpop; by destruct (pending x)).
  { destruct (pop_ok D B r step s Hok Hpop) as [Hok1 _]. eexists _, _. split; [done|].
    split; [eapply ok_weaken; [done|lia]|done]. }
  destruct (pop_ok D B r step s Hok Hpop) as [Hok1 Hev].
  replace (B + N.of_nat (S (S budget)) * D) with (B + D + N.of_nat (S budget) * D) in * by lia.
  assert (∀ r', ok D (B + D) r' → ∃ res r2, run_loop max budget (S steps) r' = Returns (res, r2) ∧
    ok D (B + D + N.of_nat (S budget) * D) r2 ∧
    match res with
    | Ok n => (n ≤ steps + S budget)%nat ∧ heap (hub r2) = []
    | Err err => err = MaxStepsExceeded max
    end) as Hrec.
  { intros r' Hok'. destruct (IH (S steps) r' (B + D) Hok' ltac:(lia)) as ([n|err] & r2 & H1' & H2' & H3');
      eexists _, _; (split; [done|]); (split; [done|]); [|done].
    replace (steps + S budget)%nat with (S steps + budget)%nat by lia. done. }
  destruct step as [p|]; [|by apply Hrec]. cbn [set_hub engines].
  destruct (engines r !! p) as [n|] eqn:Hn; [|by apply Hrec].
  destruct (Hev p n eq_refl Hn) as (ev & evs & Hq). unfold next_event.
  cbn [set_hub hub SimState.record_engine_step SimState.push_trace SimState.bump queues].
  rewrite Hq. cbn [mbind Outcome_bind].
  match goal with |- context [call ?f p ?e ?r1] =>
    assert (ok D (B + D) r1) as Hok2; [|
      destruct (call_ok f p e r1 D (B + D) Hok2) as (e' & r' & -> & Hok3 & _);
        [lia|intros e1; apply (run_one_step_rel _ _ by_sends); intros; apply event_ok_True|]] end.
  { match goal with |- ok _ _ (set_hub ?s2 _) =>
      refine (ok_hub D (B + D) (B + D) (set_hub s r) s2 Hok1 _ _ eq_refl eq_refl eq_refl _) end;
      [apply Hok1|apply Hok1|].
    intros q. apply (rx_alive_insert (SimState.record_engine_step p s)). }
  cbn [Engine.run_one_step fst]. by apply Hrec.
Qed.

Lemma new_ok peers plan start :
  plan_delay (rules plan) ≤ DURATION_MAX →
  ok (plan_delay (rules plan)) 0 (new peers plan start).
Proof.
  intros HD. unfold new.
  assert (ok (plan_delay (rules plan)) 0
    (mkRunner (SimState.new plan start) (plan_seed plan) ∅)) as Hok.
  { split; simpl; try done; intros ? ?%elem_of_nil; done. }
  revert Hok. generalize (mkRunner (E:=SimEngine) (SimState.new plan start) (plan_seed plan) ∅).
  induction peers as [|p peers IH]; intros r [Hnow Hheap Hplan Hw Hib Hinj]; [done|].
  cbn [foldl]. apply IH.
  unfold add_peer, SimState.endpoint.
  match goal with |- context [mkNode ?x _] => set (e := x) end. split; try done.
  - intros p' n. cbn. destruct (decide (p' = p)) as [->|Hne].
    + rewrite !lookup_insert_eq. intros [= <-]. split; [done|]. split; [|simpl; lia].
      exists []. apply lookup_insert_eq.
    + rewrite !lookup_insert_ne by done. intros (Hi & [evs Hq] & Hlt)%Hw.
      split; [done|]. split; [|lia]. exists evs. cbn. rewrite lookup_insert_ne by lia. done.
  - intros p' q. cbn. destruct (decide (p' = p)) as [->|Hne].
    + rewrite !lookup_insert_eq. intros [= <-]. by eexists.
    + rewrite !lookup_insert_ne by done. apply Hib.
  - assert (∀ p' n, <[p := mkNode e (next_queue (hub r))]> (engines r) !! p' = Some n →
      p' = p ∧ rx n = next_queue (hub r) ∨
      engines r !! p' = Some n ∧ (rx n < next_queue (hub r))%nat) as Hcase.
    { intros p' n. destruct (decide (p' = p)) as [->|Hne].
      - rewrite lookup_insert_eq. intros [= <-]. by left.
      - rewrite lookup_insert_ne by done. intros Hn. right. split; [done|].
        apply (Hw p' n Hn). }
    intros p1 p2 n1 n2 [[-> Hr1]|[Hn1 Hr1]]%Hcase [[-> Hr2]|[Hn2 Hr2]]%Hcase Heq;
      [done|lia|lia|eauto].
Qed.

(** The calls of a scenario. *)
Inductive op :=
  | SubscribeAll (channel : string) (config : RsConfig)
  | ConnectFullMesh
  | Publish (origin : N) (channel message_id : string) (payload : bytes) (config : RsConfig)
  | RunToQuiescence (max_steps : nat)
  | TakeDeliveries (peer : N).

(** A call, and whether it succeeded. *)
Definition exec (o : op) r : Outcome (bool * SimRunner) :=
  match o with
  | SubscribeAll channel config =>
      '(res, r) ← subscribe_all channel config r;
      Returns (is_ok res, r)
  | ConnectFullMesh => '(res, r) ← connect_full_mesh r; Returns (is_ok res, r)
  | Publish origin channel message_id payload config =>
      '(res, r) ← publish origin channel message_id payload config r; Returns (is_ok res, r)
  | RunToQuiescence max_steps =>
      '(res, r) ← run_to_quiescence max_steps r; Returns (is_ok res, r)
  | TakeDeliveries peer => Returns (true, snd (take_deliveries peer r))
  end.

Fixpoint run (os : list op) r : Outcome SimRunner :=
  match os with
  | [] => Returns r
  | o :: os => '(_, r) ← exec o r; run os r
  end.

(** A configuration with neither a chunk length nor data shards makes [encode]
    panic. *)
Definition op_shape (o : op) : Prop :=
  match o with
  | Publish _ _ _ _ cfg => chunk_len cfg ≠ 0 ∨ data_shards cfg ≠ 0
  | _ => True
  end.

(** The entries a scenario can take off the heap. *)
Definition pumps (os : list op) : N :=
  foldr (λ o n, match o with RunToQuiescence max => N.of_nat (S max) + n | _ => n end) 0 os.

Lemma exec_ok o r D B :
  ok D B r → op_shape o → B + pumps [o] * D + D ≤ DURATION_MAX →
  ∃ b r', exec o r = Returns (b, r') ∧ ok D (B + pumps [o] * D) r'.
Proof.
  intros Hok Hsh HB. destruct o as [ch cfg| |p ch m pl cfg|max|p]; cbn [exec pumps foldr] in *;
    [rewrite N.mul_0_l, N.add_0_r in *..| |rewrite N.mul_0_l, N.add_0_r in *].
  - unfold subscribe_all. match goal with |- context [for_engines ?l ?f r] =>
      destruct (for_engines_ok l f r D B Hok HB) as (res & r' & -> & Hok') end;
      [intros; by apply (subscribe_op_rel _ _ by_sends)|by eexists _, _].
  - unfold connect_full_mesh. match goal with |- context [for_engines ?l ?f r] =>
      destruct (for_engines_ok l f r D B Hok HB) as (res & r' & -> & Hok') end;
      [intros; apply (connect_all_rel _ _ by_sends)|by eexists _, _].
  - destruct (publish_ok p ch m pl cfg r D B Hok HB Hsh) as (res & r' & -> & Hok').
    by eexists _, _.
  - rewrite N.add_0_r in *. unfold run_to_quiescence.
    destruct (run_loop_ok max max 0 r D B Hok HB) as (res & r' & -> & Hok' & _).
    by eexists _, _.
  - eexists _, _. split; [done|]. unfold take_deliveries.
    destruct (engines r !! p); [by apply ok_set_engine|done].
Qed.

Lemma run_ok os r D B :
  ok D B r → Forall op_shape os → B + pumps os * D + D ≤ DURATION_MAX →
  ∃ r', run os r = Returns r' ∧ ok D (B + pumps os * D) r'.
Proof.
  revert r B; induction os as [|o os IH]; intros r B Hok Hsh HB.
  { exists r. split; [done|]. eapply ok_weaken; [done|lia]. }
  inversion Hsh as [|? ? Ho Hos]; subst.
  assert (pumps (o :: os) = pumps [o] + pumps os) as Hp by (destruct o; simpl; lia).
  rewrite Hp, N.mul_add_distr_r in *.
  destruct (exec_ok o r D B Hok Ho) as (b & r1 & He & Hok1); [lia|].
  destruct (IH r1 _ Hok1 Hos) as (r2 & Hr & Hok2); [lia|].
  exists r2. cbn [run]. rewrite He. split; [done|]. by rewrite N.add_assoc.
Qed.

(** C17: A scenario never blocks and never dies.  After any calls on a new
    runner, [run_to_quiescence] comes back: either the heap is empty and every
    step was within the budget, or the budget was exceeded; no engine waits for
    an event that does not come, none finds its inbox closed, and nothing
    panics, as long as the virtual times stay within a [Duration] and every
    published shape has a chunk length or data shards. *)
Theorem run_to_quiescence_spec peers (plan : FaultPlan PS G) start os max :
  Forall op_shape os →
  (pumps os + N.of_nat (S max) + 1) * plan_delay (rules plan) ≤ DURATION_MAX →
  ∃ r res r', run os (new peers plan start) = Returns r ∧
    run_to_quiescence max r = Returns (res, r') ∧
    match res with
    | Ok n => (n ≤ max)%nat ∧ heap (hub r') = []
    | Err err => err = MaxStepsExceeded max
    end.
Proof.
  intros Hsh HB. set (D := plan_delay (rules plan)) in *.
  assert (ok D 0 (new peers plan start)) as Hok by (apply new_ok; fold D; lia).
  destruct (run_ok os _ D 0 Hok Hsh) as (r & Hr & Hok1); [lia|].
  destruct (run_loop_ok max max 0 r D _ Hok1) as (res & r' & Hl & _ & Hres); [lia|].
  exists r, res, r'. split; [done|]. split; [done|]. by destruct res.
Qed.

End lemmas.
End RunnerLemmas.

(** ** A scenario

    Three peers on a channel, with jitter on one link; peer 1 publishes the
    example payload of [RsCodec.XorCode]. *)
Module RunnerExample.
Import Rs RsDrain XorCode SimExample SimRunner SimTrace RunnerLemmas.
#[local] Existing Instances digest code RsEngineExample.Message_Preamble.

Definition jitter : FaultPlan unit N := FaultPlan.delay_jitter (FaultPlan.new 2) 1 2 3.

Definition scenario : list op :=
  [ SubscribeAll "c" RsEngineExample.relay_config; ConnectFullMesh; RunToQuiescence 50;
    Publish 1 "c" "m" payload config ].

Definition start : Runner unit N _ := new [1; 2; 3] jitter 100.

Lemma run_to_quiescence_spec_witness :
  Forall op_shape scenario ∧
  (pumps scenario + N.of_nat 101 + 1) * plan_delay (rules jitter) ≤ DURATION_MAX ∧
  ∃ r res r', run scenario start = Returns r ∧
    run_to_quiescence 100 r = Returns (res, r') ∧
    match res with
    | Ok n => (n ≤ 100)%nat ∧ heap (hub r') = []
    | Err err => err = MaxStepsExceeded 100
    end.
Proof.
  assert (Forall op_shape scenario) as Hsh.
  { repeat (constructor; [exact I || (right; vm_compute; discriminate)|]). constructor. }
  split; [exact Hsh|]. split; [vm_compute; discriminate|].
  apply (run_to_quiescence_spec (H1 := code_laws) [1; 2; 3] jitter 100 scenario 100 Hsh).
  vm_compute. discriminate.
Defined.

(** The texts of the errors of scenario calls: a message published again, by a peer
    that the runner does not host, and in a shape that the codec refuses. *)
Definition error_of {R} (o : Outcome (result SimError unit * R)) : string :=
  match o with Returns (Err err, _) => to_string err | _ => "" end.

Example publish_errors :
  (r ← run scenario start;
   Returns (error_of <$>
     [ publish 1 "c" "m" payload config r; publish 7 "c" "m" payload config r;
       publish 1 "d" "m" payload config r; publish 1 "c" "n" [] config r;
       publish 1 "c" "n" payload (mkRsConfig 3 1 0 50 4 false) r ])) =
  Returns ["engine 1: channel: duplicate session: m"; "unknown peer 7";
           "engine 1: unknown channel: d"; "origin encode failed: EmptyPayload";
           "origin encode failed: Rs(Shape)"]%string.
Proof. vm_compute. reflexivity. Qed.

(** The chunks that links 1 to 2 and 1 to 3 lose. *)
Definition lost3 (a b c : bool) (chunk_id : N) : bool :=
  if decide (chunk_id = 0) then a else if decide (chunk_id = 1) then b
  else bool_decide (chunk_id = 2) && c.

Definition lossy (l2 l3 : N → bool) : FaultPlan unit N :=
  let loses l := mkPred tt (λ _ msg,
    (match msg with SendChunk _ _ _ i _ _ => l i | _ => false end, tt)) in
  FaultPlan.drop_if (FaultPlan.drop_if (FaultPlan.new 2) 1 2 (loses l2)) 1 3 (loses l3).

(** Erasure coding over a lossy mesh.  Peer 1 of three publishes a message of
    two data shards and a parity shard; the links to the others lose any chunks
    they like.  Peers 2 and 3 relay to each other, and both end up with the
    message, once, exactly when at least two of the three chunks reached either
    of them; otherwise neither delivers anything.  There is one exception: when
    peer 2 gets chunk 0 only and peer 3 chunk 2 only, each planner allocates a
    shard that its relay does not hold, the drains stop there, nothing is relayed
    and the message is lost.  (One payload, shape and seed; all 64 losses.) *)
Example lossy_mesh_delivers (a2 b2 c2 a3 b3 c3 : bool) :
  let l2 := lost3 a2 b2 c2 in
  let l3 := lost3 a3 b3 c3 in
  let arrived := filter (λ i, ¬ (l2 i && l3 i)) [0; 1; 2] in
  let stalled := (a2, b2, c2, a3, b3, c3) = (false, true, true, true, true, false) in
  let got := if decide (2 ≤ length arrived ∧ ¬ stalled)%nat
             then [mkDelivered "c" "m" payload] else [] in
  (r ← run (scenario ++ [RunToQuiescence 50])
         (new [1; 2; 3] (lossy l2 l3) 100);
   Returns (bool_decide (heap (hub r) = []), map (λ p, fst (take_deliveries p r)) [1; 2; 3])) =
  Returns (true, [[]; got; got]).
Proof. destruct a2, b2, c2, a3, b3, c3; vm_compute; reflexivity. Qed.
End RunnerExample.
