(* ===== verification/SimMesh.v ===== *)
(** A mesh of the simulator without faults delivers a broadcast to everyone.

    Without fault rules nothing is delayed, so the hub is a queue of events
    ([SimFifo]) and the runner hands them to the engines one at a time
    ([SimQueue]).  [SimMesh] follows a scenario through its calls: the handshakes
    make every engine a subscriber at every other, the publication puts the opens
    and the shards into the queue, and the members of [RsMesh] empty it. *)
From Stdlib Require Import NArith ZArith Lia.
From stdpp Require Import base gmap option strings sorting list.
From S2P Require Import Prelude Heap BitMap Wire Config Strategy RsCodec Planner RsStrategy RsLink.
From S2P Require Import Session Channel Runtime MemoryNet Engine EngineInv EngineRel EngineSend.
From S2P Require Import EngineDrain EngineDeliver EngineObserve EngineNet EngineFlow RsEngine.
From S2P Require Import RsBroadcast RsMesh Sim SimMemory SimRunner.

Open Scope N_scope.

(** * The hub as a queue *)
Module SimFifo.
Import SimState SimTrace.
Section fifo.
Context {PS G : Type} `{!Rng G}.
Implicit Type s : SimState PS G.

(** The events [Q] are due, in this order; [k] bounds the sequence numbers. *)
Record fifo (Q : list (N * NetEvent.t)) (k : N) s : Prop := {
  ff_rules : rules (plan s) = [];
  ff_now : now s = 0;
  ff_heap : (λ x, (at_ x, pending x)) <$> heap s = (λ '(d, ev), (0, Delivery d ev)) <$> Q;
  ff_seq x : x ∈ heap s → seq x < next_seq s;
  ff_next : next_seq s ≤ k
}.

(** The inboxes stay as they are. *)
Record wired s s' : Prop := {
  wi_inboxes : inboxes s' = inboxes s;
  wi_queues : queues s' = queues s;
  wi_next : next_queue s' = next_queue s;
  wi_start : sim_start s' = sim_start s
}.

#[export] Instance wired_po : PreOrder wired.
Proof. split; [by split|]. intros ??? [] []. split; congruence. Qed.

Lemma fifo_at Q k s x : fifo Q k s → x ∈ heap s → at_ x = 0.
Proof.
  intros [] Hx. assert ((at_ x, pending x) ∈ (λ '(d, ev), (0, Delivery d ev)) <$> Q) as Hin.
  { rewrite <- ff_heap0. apply list_elem_of_fmap. by exists x. }
  apply list_elem_of_fmap in Hin as ([d ev] & [= -> _] & _). done.
Qed.

(** A push behind everything. *)
Lemma heap_push_end {A} (le : A → A → bool) x h :
  (∀ y, y ∈ h → le x y = false) → heap_push le x h = h ++ [x].
Proof.
  intros Hle. induction h as [|y h IH]; [done|]. cbn. rewrite (Hle y) by by left.
  f_equal. apply IH. intros z Hz. apply Hle. by right.
Qed.

Lemma fifo_weaken Q k k' s : fifo Q k s → k ≤ k' → fifo Q k' s.
Proof. intros [] ?. split; try done. lia. Qed.

(** A number drawn. *)
Lemma fifo_bump Q k s t : fifo Q k s → k + 1 < 2 ^ 64 → fifo Q (k + 1) (push_trace t (bump s)).
Proof.
  intros [] Hk. split; try done; cbn; rewrite u64_add_small by lia; [|lia].
  intros x Hx%ff_seq0. lia.
Qed.

(** What the peers of the messages get. *)
Definition arrivals (src : N) (msgs : list NetSend) : list (N * NetEvent.t) :=
  omap (λ msg, (λ d, (d, MemoryNet.event_of src msg)) <$> MemoryNet.dst msg) msgs.

Lemma fifo_send src msg s Q k :
  fifo Q k s → k + 1 < 2 ^ 64 → (∀ d, MemoryNet.dst msg = Some d → is_Some (inboxes s !! d)) →
  ∃ s', submit_send src msg s = Some (Ok (), s') ∧ wired s s' ∧
    fifo (Q ++ arrivals src [msg]) (k + N.of_nat (length (omap MemoryNet.dst [msg]))) s'.
Proof.
  intros Hf Hk Hd. pose proof Hf as [Hr Hn Hh Hs Hx].
  assert (now s ≤ DURATION_MAX) as Hmax by (rewrite Hn; done).
  pose proof (SimMemory.submit_no_rules src msg s Hr Hmax) as Hsub. unfold arrivals.
  cbn [omap list_omap]. destruct (MemoryNet.dst msg) as [d|]; cbn [length].
  - destruct (Hd d eq_refl) as [q Hq]. rewrite Hq in Hsub. destruct Hsub as (t & pl & Hpl & ->).
    eexists. split; [done|]. split; [done|]. set (x := mkEntry _ _ _).
    assert (heap_push entry_le x (heap s) = heap s ++ [x]) as Hpush.
    { apply heap_push_end. intros y Hy. apply bool_decide_eq_false. cbn.
      rewrite (fifo_at _ _ _ y Hf Hy), Hn. specialize (Hs y Hy). lia. }
    split; cbn; rewrite ?Hpush, ?u64_add_small by lia; try done; [| |lia].
    + rewrite !fmap_app, Hh. cbn. by rewrite Hn.
    + intros y [Hy%Hs| ->%list_elem_of_singleton]%elem_of_app; [lia|cbn; lia].
  - rewrite Hsub. exists s. split; [done|]. split; [done|]. rewrite app_nil_r, N.add_0_r.
    exact Hf.
Qed.

(** The endpoint's view of it. *)
Definition up (X : gset N) (n : SimNetEndpoint PS G) : Prop :=
  ∃ s, shared n = Some s ∧ rules (plan s) = [] ∧ now s = 0 ∧
    ∀ d, d ∈ X → is_Some (inboxes s !! d).

Lemma fifo_up Q k s p X :
  fifo Q k s → (∀ d, d ∈ X → is_Some (inboxes s !! d)) → up X (mkEp p (Some s)).
Proof. intros [] HX. by exists s. Qed.

#[export] Instance up_accepts X : Accepts (up X) (λ p, p ∈ X).
Proof.
  intros msg [p o] (s & Hsh & Hr & Hn & HX) Hd. cbn in Hsh. subst o.
  assert (now s ≤ DURATION_MAX) as Hmax by (rewrite Hn; done).
  pose proof (SimMemory.submit_no_rules p msg s Hr Hmax) as Hsub.
  unfold net_send, Net_Sim. cbn [shared ep_peer]. destruct (MemoryNet.dst msg) as [d|].
  - destruct (HX d (Hd d eq_refl)) as [q Hq]. rewrite Hq in Hsub.
    destruct Hsub as (t & pl & Hpl & ->). split; [done|]. eexists. split; [done|].
    split; [exact Hpl|]. by split.
  - rewrite Hsub. split; [done|]. by exists s.
Qed.

(** What an engine sends goes to the end of the queue. *)
Lemma fifo_sends src msgs s Q k :
  fifo Q k s → (∀ d, d ∈ omap MemoryNet.dst msgs → is_Some (inboxes s !! d)) →
  k + N.of_nat (length (omap MemoryNet.dst msgs)) < 2 ^ 64 →
  ∃ s', net_sends msgs (mkEp src (Some s)) = mkEp src (Some s') ∧ wired s s' ∧
    fifo (Q ++ arrivals src msgs) (k + N.of_nat (length (omap MemoryNet.dst msgs))) s'.
Proof.
  revert s Q k; induction msgs as [|msg msgs IH]; intros s Q k Hf Hd Hk.
  { exists s. split; [done|]. split; [done|]. by rewrite app_nil_r, N.add_0_r. }
  assert (omap MemoryNet.dst (msg :: msgs) = omap MemoryNet.dst [msg] ++ omap MemoryNet.dst msgs)
    as Ho by (cbn; by destruct (MemoryNet.dst msg)).
  assert (arrivals src (msg :: msgs) = arrivals src [msg] ++ arrivals src msgs) as Ha
    by (unfold arrivals; cbn; by destruct (MemoryNet.dst msg)).
  rewrite Ho, Ha, app_assoc in *. rewrite length_app, Nat2N.inj_add in *.
  assert (∃ s1, submit_send src msg s = Some (Ok (), s1) ∧ wired s s1 ∧
    fifo (Q ++ arrivals src [msg]) (k + N.of_nat (length (omap MemoryNet.dst [msg]))) s1)
    as (s1 & Hs1 & Hw1 & Hf1).
  { destruct (MemoryNet.dst msg) as [d|] eqn:Hdst.
    - cbn in Hk. rewrite Hdst in Hk. cbn in Hk. apply fifo_send; [done|lia|].
      rewrite Hdst. intros d' [= <-]. apply Hd. cbn. rewrite Hdst. by left.
    - exists s. assert (submit_send src msg s = Some (Ok (), s)) as -> by by destruct msg.
      split; [done|]. split; [done|]. unfold arrivals. cbn. rewrite Hdst. cbn.
      by rewrite app_nil_r, N.add_0_r. }
  destruct (IH s1 _ _ Hf1) as (s2 & Hs2 & Hw2 & Hf2); [|lia|].
  { intros d' Hd'. rewrite (wi_inboxes _ _ Hw1). apply Hd, elem_of_app. by right. }
  exists s2. split; [|split; [by etrans|by rewrite N.add_assoc]].
  unfold net_sends in *. cbn [foldl]. unfold net_send at 2, Net_Sim. cbn [shared ep_peer].
  by rewrite Hs1.
Qed.
End fifo.
End SimFifo.

(** * The runner as a queue of events *)
Module SimQueue.
Import Rs RsDrain SimRunner SimFifo SimState.
Section queue.
Context {PS G : Type} `{!Rng G}.
Context `{Sha256, ReedSolomon}.
Abbreviation SimEngine := (Engine Rs.RsStrategy (SimNetEndpoint PS G) SimClock Buffer).
Abbreviation SimRunner := (Runner PS G SimEngine).
Implicit Types (r : SimRunner) (e : SimEngine) (s : SimState PS G).
Context (start : N) (peers : gset N).

(** The engines of [peers], each with an empty inbox of its own, the engine of [p]
    satisfying [P p], and the events [Q] in the queue. *)
Record mesh (P : N → SimEngine → Prop) (Q : list (N * NetEvent.t)) (k : N) r : Prop := {
  me_fifo : fifo Q k (hub r);
  me_start : sim_start (hub r) = start;
  me_peers p : p ∈ peers ↔ is_Some (engines r !! p);
  me_node p n : engines r !! p = Some n →
    inboxes (hub r) !! p = Some (rx n) ∧
    queues (hub r) !! rx n = Some (MemoryNet.mkQueue [] true) ∧
    (rx n < next_queue (hub r))%nat ∧ ep_peer (net (engine n)) = p ∧ P p (engine n);
  me_inj p1 p2 n1 n2 : engines r !! p1 = Some n1 → engines r !! p2 = Some n2 →
    rx n1 = rx n2 → p1 = p2
}.

Lemma me_inbox P Q k r d : mesh P Q k r → d ∈ peers → is_Some (inboxes (hub r) !! d).
Proof.
  intros Hm Hd. apply (me_peers _ _ _ _ Hm) in Hd as [n Hn].
  destruct (me_node _ _ _ _ Hm d n Hn) as [-> _]. by eexists.
Qed.

Lemma mesh_keys P Q k r : mesh P Q k r → bt_keys (engines r) = bt_elements peers.
Proof.
  intros Hm. unfold bt_keys. f_equal. apply set_eq. intros p.
  by rewrite elem_of_dom, (me_peers _ _ _ _ Hm).
Qed.

Lemma mesh_mono (P P' : N → SimEngine → Prop) Q k r :
  mesh P Q k r → (∀ p e, p ∈ peers → P p e → P' p e) → mesh P' Q k r.
Proof.
  intros [] HP. split; try done. intros p n Hn.
  destruct (me_node0 p n Hn) as (? & ? & ? & ? & ?). split_and!; try done.
  apply HP; [|done]. apply me_peers0. by eexists.
Qed.

(** An engine and the hub change. *)
Lemma mesh_update (P P' : N → SimEngine → Prop) Q Q' k k' r p n e' s' :
  mesh P Q k r → engines r !! p = Some n → fifo Q' k' s' → wired (hub r) s' →
  ep_peer (net e') = p → P' p e' → (∀ q e, q ∈ peers → q ≠ p → P q e → P' q e) →
  mesh P' Q' k' (set_engine p e' (set_hub s' r)).
Proof.
  intros [] Hn Hf [] Hep HP Hq.
  assert (∀ q n', engines (set_engine p e' (set_hub s' r)) !! q = Some n' →
    ∃ n0, engines r !! q = Some n0 ∧ rx n' = rx n0 ∧
      (q = p ∧ engine n' = e' ∨ q ≠ p ∧ n' = n0)) as Hr.
  { intros q n'. cbn [set_engine engines set_hub]. rewrite lookup_alter. case_decide as Hqp.
    - subst q. rewrite Hn. intros [= <-]. exists n. split; [done|]. split; [done|]. by left.
    - intros Hn'. exists n'. split; [done|]. split; [done|]. by right. }
  split; cbn [set_engine hub set_hub]; rewrite ?wi_inboxes0, ?wi_queues0, ?wi_next0; try done.
  - congruence.
  - intros q. rewrite me_peers0. cbn [set_engine engines set_hub]. rewrite lookup_alter.
    case_decide as Hqp; [|done]. subst q. rewrite fmap_is_Some. done.
  - intros q n' (n0 & Hn0 & Hrx & Hcase)%Hr.
    destruct (me_node0 q n0 Hn0) as (? & ? & ? & ? & ?). rewrite Hrx. split_and!; try done.
    + destruct Hcase as [[-> ->]|[_ ->]]; done.
    + destruct Hcase as [[-> ->]|[? ->]]; [done|].
      apply Hq; [apply me_peers0; by eexists|done..].
  - intros p1 p2 n1 n2 (n1' & H1 & Hr1 & _)%Hr (n2' & H2 & Hr2 & _)%Hr Heq.
    eapply me_inj0; [done..|congruence].
Qed.

(** A call of an engine, by what it sends. *)
Lemma mesh_call {A} (f : SimEngine → A * SimEngine) P Q k r p n a e' msgs :
  mesh P Q k r → engines r !! p = Some n →
  f (lend (hub r) (engine n)) = (a, e') → net e' = net_sends msgs (mkEp p (Some (hub r))) →
  (∀ d, d ∈ omap MemoryNet.dst msgs → d ∈ peers) →
  k + N.of_nat (length (omap MemoryNet.dst msgs)) < 2 ^ 64 →
  ∃ s', call f p (engine n) r = Returns (a, set_engine p e' (set_hub s' r)) ∧
    wired (hub r) s' ∧ ep_peer (net e') = p ∧
    fifo (Q ++ arrivals p msgs) (k + N.of_nat (length (omap MemoryNet.dst msgs))) s'.
Proof.
  intros Hm Hn Hf Hnet Hd Hk.
  destruct (fifo_sends p msgs (hub r) Q k) as (s' & Hs' & Hw & Hf'); [apply Hm| |done|].
  { intros d Hin. eapply me_inbox; [done|by apply Hd]. }
  exists s'. unfold call. rewrite Hf, Hnet, Hs'. done.
Qed.

(** The lent engine, and what it can reach. *)
Lemma lend_net P Q k r p n :
  mesh P Q k r → engines r !! p = Some n →
  net (lend (hub r) (engine n)) = mkEp p (Some (hub r)).
Proof.
  intros Hm Hn. destruct (me_node _ _ _ _ Hm p n Hn) as (_ & _ & _ & Hep & _).
  cbn. by rewrite Hep.
Qed.

Lemma lend_up P Q k r p n X :
  mesh P Q k r → engines r !! p = Some n → X ⊆ peers →
  up X (net (lend (hub r) (engine n))).
Proof.
  intros Hm Hn HX. rewrite (lend_net _ _ _ _ _ _ Hm Hn).
  eapply fifo_up; [apply Hm|]. intros d Hd. eapply me_inbox; [done|by apply HX].
Qed.

Lemma lend_clock P Q k r e : mesh P Q k r → wall (clock (lend (hub r) e)) = start.
Proof.
  intros Hm. cbn. unfold wall_now.
  rewrite (me_start _ _ _ _ Hm), (ff_now _ _ _ (me_fifo _ _ _ _ Hm)). lia.
Qed.

(** ** The loop *)

(** The hub when the first event is handed to its engine. *)
Lemma mesh_pop P Q k r d ev :
  mesh P ((d, ev) :: Q) k r → d ∈ peers → k + 1 < 2 ^ 64 →
  ∃ n s, engines r !! d = Some n ∧ mesh P Q (k + 1) (set_hub s r) ∧
    ∀ max budget steps, run_loop max (S budget) steps r =
      ('(res, r) ← call (Engine.run_one_step (Some ev)) d (engine n) (set_hub s r);
       match res with
       | Processed => run_loop max budget (S steps) r
       | StepClosed => Returns (Err (EngineClosed d), r)
       end).
Proof.
  intros Hm [n Hn]%(me_peers _ _ _ _ Hm) Hk. pose proof Hm as [[Hr Hz Hh Hs Hx] Hst Hp Hnode Hinj].
  destruct (Hnode d n Hn) as (Hin & Hq & Hlt & Hep & HP).
  destruct (heap (hub r)) as [|x h] eqn:Hheap; [done|].
  injection Hh as Hxa Hxp Hh.
  exists n. unfold run_loop; fold (@run_loop PS G). unfold pop_next. rewrite Hheap.
  cbn [heap_pop mbind option_bind]. rewrite Hxp. cbn [inboxes]. rewrite Hin.
  unfold inbox_send. cbn [queues]. rewrite Hq. cbn [set_queues app].
  set (qs := <[rx n := MemoryNet.mkQueue [ev] true]> (queues (hub r))).
  eexists. split; [done|]. split.
  2: { intros max budget steps. cbn [set_hub engines]. rewrite Hn. cbn [set_hub hub].
       set (s2 := record_engine_step d _). assert (queues s2 = qs) as Hqs by done.
       assert (qs !! rx n = Some (MemoryNet.mkQueue [ev] true)) as Hqn by apply lookup_insert_eq.
       unfold next_event. rewrite Hqs, Hqn. cbn [mbind Outcome_bind]. reflexivity. }
  split; try done.
  - split; cbn; try done; rewrite ?u64_add_small by lia; [|lia].
    intros y Hy. assert (seq y < next_seq (hub r)) by (apply Hs; by right). lia.
  - intros q n' Hn'. destruct (Hnode q n' Hn') as (? & Hqq & ? & ? & ?). split_and!; try done.
    cbn. unfold qs. destruct (decide (rx n' = rx n)) as [Heq|Hne].
    + by rewrite Heq, !lookup_insert_eq.
    + by rewrite !lookup_insert_ne.
Qed.

(** The events of the queue for [p]. *)
Definition events_to (p : N) (Q : list (N * NetEvent.t)) : list NetEvent.t :=
  omap (λ x, if decide (x.1 = p) then Some x.2 else None) Q.

Lemma events_to_app p Q1 Q2 : events_to p (Q1 ++ Q2) = events_to p Q1 ++ events_to p Q2.
Proof. apply omap_app. Qed.

Lemma elem_of_events_to p ev Q : ev ∈ events_to p Q ↔ (p, ev) ∈ Q.
Proof.
  unfold events_to. rewrite list_elem_of_omap. split.
  - intros ([d ev'] & Hin & Hx). cbn in Hx. case_decide; [|done]. by injection Hx as <-; subst.
  - intros Hin. exists (p, ev). split; [done|]. cbn. by rewrite decide_True.
Qed.

(** What the engines still have to say. *)
Definition weight_of (w : SimEngine → nat) (M : gmap N (Node SimEngine)) : nat :=
  map_fold (λ _ n t, (w (engine n) + t)%nat) 0%nat M.
Definition total (w : SimEngine → nat) r : nat := weight_of w (engines r).

Lemma weight_of_delete w p n M :
  M !! p = Some n → weight_of w M = (w (engine n) + weight_of w (delete p M))%nat.
Proof.
  intros Hn. unfold weight_of. rewrite <- (insert_delete_id M p n) at 1 by done.
  rewrite map_fold_insert_L; [done|intros; lia|apply lookup_delete_eq].
Qed.

Lemma weight_of_le w b M :
  (∀ p n, M !! p = Some n → w (engine n) ≤ b)%nat → (weight_of w M ≤ size M * b)%nat.
Proof.
  induction M as [|p n M Hp IH] using map_ind; intros Hb; [done|].
  rewrite (weight_of_delete w p n) by apply lookup_insert_eq.
  rewrite delete_insert_id by done. rewrite map_size_insert_None by done.
  pose proof (Hb p n (lookup_insert_eq _ _ _)).
  assert (weight_of w M ≤ size M * b)%nat; [|lia]. apply IH. intros q n' Hq.
  apply (Hb q). rewrite lookup_insert_ne; [done|congruence].
Qed.

Lemma mesh_size P Q k r : mesh P Q k r → size (engines r) = size peers.
Proof.
  intros Hm. rewrite <- (size_dom (D := gset N)). f_equal. apply set_eq. intros p.
  by rewrite elem_of_dom, (me_peers _ _ _ _ Hm).
Qed.

Lemma total_le w p n r : engines r !! p = Some n → (w (engine n) ≤ total w r)%nat.
Proof. intros Hn. unfold total. rewrite (weight_of_delete w p n) by done. lia. Qed.

Lemma total_set w p n e s r :
  engines r !! p = Some n →
  (total w (set_engine p e (set_hub s r)) + w (engine n) = total w r + w e)%nat.
Proof.
  intros Hn. unfold total. cbn [set_engine set_hub engines].
  rewrite (weight_of_delete w p n (engines r)) by done.
  rewrite (weight_of_delete w p (mkNode e (rx n))) by by rewrite lookup_alter_eq, Hn.
  assert (delete p (alter (λ n, mkNode e (rx n)) p (engines r)) = delete p (engines r)) as ->.
  { apply map_eq. intros q. destruct (decide (q = p)) as [->|].
    - by rewrite !lookup_delete_eq.
    - by rewrite !lookup_delete_ne, lookup_alter_ne. }
  cbn [engine]. lia.
Qed.

(** Engines that react to the events [E p] at [p]: what they send is bounded by
    [w], and keeps to the mesh and to [E]. *)
Class Reacts (E : N → NetEvent.t → Prop) (w : SimEngine → nat)
    (P : N → list NetEvent.t → SimEngine → Prop) : Prop := {
  re_more p evs l e : P p evs e → P p (evs ++ l) e;
  re_lend p evs n c e : P p evs e → P p evs (set_net n (set_clock c e));
  re_weight n c e : w (set_net n (set_clock c e)) = w e;
  re_event p ev evs e :
    p ∈ peers → E p ev → P p (ev :: evs) e → up peers (net e) → wall (clock e) = start →
    ∃ msgs e', Engine.run_one_step (Some ev) e = (Processed, e') ∧
      net e' = net_sends msgs (net e) ∧
      (∀ msg d, msg ∈ msgs → MemoryNet.dst msg = Some d → d ∈ peers ∧ E d (MemoryNet.event_of p msg)) ∧
      (length (omap MemoryNet.dst msgs) + w e' ≤ w e)%nat ∧ P p evs e'
}.

(** The mesh with the queue's events under way. *)
Definition running E (P : N → list NetEvent.t → SimEngine → Prop) Q k r : Prop :=
  mesh (λ p e, P p (events_to p Q) e) Q k r ∧ ∀ d ev, (d, ev) ∈ Q → d ∈ peers ∧ E d ev.

Lemma elem_of_arrivals p msgs d ev :
  (d, ev) ∈ arrivals p msgs ↔
  ∃ msg, msg ∈ msgs ∧ MemoryNet.dst msg = Some d ∧ ev = MemoryNet.event_of p msg.
Proof.
  unfold arrivals. rewrite list_elem_of_omap. split.
  - intros (msg & Hin & Hm). exists msg. destruct (MemoryNet.dst msg); [|done].
    by injection Hm as -> ->.
  - intros (msg & Hin & Hd & ->). exists msg. by rewrite Hd.
Qed.

Lemma length_arrivals p msgs : length (arrivals p msgs) = length (omap MemoryNet.dst msgs).
Proof.
  unfold arrivals. induction msgs as [|msg msgs IH]; [done|]. cbn.
  destruct (MemoryNet.dst msg); cbn; lia.
Qed.

Lemma run_loop_empty P max budget steps k r :
  mesh P [] k r → run_loop max budget steps r = Returns (Ok steps, r).
Proof.
  intros Hm. pose proof (ff_heap _ _ _ (me_fifo _ _ _ _ Hm)) as Hh.
  destruct (heap (hub r)) eqn:Hheap; [|done].
  destruct budget; cbn [run_loop]; unfold pop_next; by rewrite Hheap.
Qed.

(** One round: an event is handled, and what its engine sends is queued. *)
Lemma run_loop_step E w P `{!Reacts E w P} d ev Q k r :
  running E P ((d, ev) :: Q) k r → k + 1 + N.of_nat (total w r) < 2 ^ 64 →
  ∃ new r', running E P (Q ++ new) (k + 1 + N.of_nat (length new)) r' ∧
    (length new + total w r' ≤ total w r)%nat ∧ seed r' = seed r ∧
    ∀ max budget steps, run_loop max (S budget) steps r = run_loop max budget (S steps) r'.
Proof.
  intros [Hm HQ] Hk. destruct (HQ d ev) as [Hd HE]; [by left|].
  destruct (mesh_pop _ Q k r d ev Hm Hd) as (n & s & Hn & Hm1 & Hrun); [lia|].
  set (r1 := set_hub s r) in *. assert (engines r1 !! d = Some n) as Hn1 by done.
  pose proof (me_node _ _ _ _ Hm d n Hn) as (_ & _ & _ & _ & HP).
  cbn [events_to omap list_omap fst snd] in HP. rewrite decide_True in HP by done.
  fold (events_to d Q) in HP.
  pose proof (lend_net _ _ _ _ _ _ Hm1 Hn1) as Hln.
  destruct (re_event d ev (events_to d Q) (lend (hub r1) (engine n)))
    as (msgs & e' & Hstep & Hnet & Hmsgs & Hw & HP');
    [done|done|by apply re_lend|by eapply lend_up|by eapply lend_clock|].
  pose proof (total_le w d n r Hn) as Hle. rewrite Hln in Hnet. unfold lend in Hw. rewrite re_weight in Hw.
  destruct (mesh_call (Engine.run_one_step (Some ev)) _ Q (k + 1) r1 d n Processed e' msgs
    Hm1 Hn1 Hstep Hnet) as (s' & Hcall & Hwi & Hep & Hf); [|lia|].
  { intros d' (msg & Hin & Hd')%list_elem_of_omap. by apply (Hmsgs msg). }
  pose proof (total_set w d n e' s' r1 Hn1) as Ht. change (total w r1) with (total w r) in Ht.
  exists (arrivals d msgs), (set_engine d e' (set_hub s' r1)). rewrite length_arrivals.
  split; [split|split; [lia|split; [done|]]].
  - eapply mesh_update; [exact Hm1|exact Hn1|exact Hf|exact Hwi|exact Hep| |].
    + rewrite events_to_app. by apply re_more.
    + intros q e _ Hq HPq. rewrite events_to_app. apply re_more.
      cbn [events_to omap list_omap fst snd] in HPq. by rewrite decide_False in HPq.
  - intros d' ev' [Hin|(msg & Hin & Hd' & ->)%elem_of_arrivals]%elem_of_app.
    + apply HQ. by right.
    + by eapply Hmsgs.
  - intros max budget steps. rewrite Hrun, Hcall. done.
Qed.

(** The mesh comes to rest. *)
Lemma run_loop_mesh E w P `{!Reacts E w P} max budget steps Q k r :
  running E P Q k r → (length Q + total w r ≤ budget)%nat →
  k + N.of_nat (length Q + 2 * total w r) < 2 ^ 64 →
  ∃ n r' k', run_loop max budget steps r = Returns (Ok n, r') ∧
    mesh (λ p e, P p [] e) [] k' r' ∧ k' ≤ k + N.of_nat (length Q + 2 * total w r) ∧
    seed r' = seed r.
Proof.
  revert steps Q k r; induction budget as [|budget IH]; intros steps [|[d ev] Q] k r Hr Hb Hk;
    cbn [length] in *; try lia;
    try (destruct Hr as [Hm _]; exists steps, r, k; split; [by eapply run_loop_empty|];
      split; [exact Hm|split; [lia|done]]).
  destruct (run_loop_step E w P d ev Q k r Hr) as (new & r' & Hr' & Hw & Hs & Hrun);
    [lia|]. rewrite Hrun.
  destruct (IH (S steps) (Q ++ new) _ r' Hr') as (n & r3 & k3 & Hr3 & Hm3 & Hk3 & Hs3);
    rewrite ?length_app in *; [lia|lia|].
  exists n, r3, k3. split; [exact Hr3|]. split; [exact Hm3|]. split; [lia|congruence].
Qed.

(** ** The loops over the engines *)

Lemma for_engines_mesh (f : N → SM SimEngine EngineError unit) (M : N → list NetSend)
    (P P' : N → SimEngine → Prop) l Q k r :
  (∀ p n c e, p ∈ l → P p e → P p (set_net n (set_clock c e))) →
  (∀ p e, p ∈ l → P p e → ep_peer (net e) = p → up peers (net e) → wall (clock e) = start →
     ∃ e', f p e = (Ok (), e') ∧ net e' = net_sends (M p) (net e) ∧ P' p e') →
  (∀ p d, p ∈ l → d ∈ omap MemoryNet.dst (M p) → d ∈ peers) →
  mesh P Q k r → NoDup l → (∀ p, p ∈ l → p ∈ peers) →
  let sent := l ≫= (λ p, arrivals p (M p)) in
  k + N.of_nat (length sent) < 2 ^ 64 →
  ∃ r', for_engines l f r = Returns (Ok (), r') ∧
    mesh (λ p e, if decide (p ∈ l) then P' p e else P p e) (Q ++ sent)
      (k + N.of_nat (length sent)) r' ∧ seed r' = seed r.
Proof.
  intros Hlend. revert P Q k r Hlend; induction l as [|p l IH];
    intros P Q k r Hlend Hf HM Hm Hnd Hl; cbn [mbind list_bind length].
  { intros _. exists r. cbn [length N.of_nat]. rewrite app_nil_r, N.add_0_r. split; [done|]. split; [|done].
    eapply mesh_mono; [exact Hm|]. intros q e _ Hq. by rewrite decide_False by set_solver. }
  intros Hk. apply NoDup_cons in Hnd as [Hp Hnd].
  rewrite length_app, Nat2N.inj_add, length_arrivals in Hk.
  assert (is_Some (engines r !! p)) as [n Hn] by (apply (me_peers _ _ _ _ Hm), Hl; by left).
  pose proof (lend_net _ _ _ _ _ _ Hm Hn) as Hln.
  pose proof (me_node _ _ _ _ Hm p n Hn) as (_ & _ & _ & _ & HP).
  assert (P p (lend (hub r) (engine n))) as HPl by (apply Hlend; [by left|done]).
  destruct (Hf p (lend (hub r) (engine n))) as (e' & He' & Hnet & HP'); [by left|done| | | |].
  { by rewrite Hln. }
  { by eapply lend_up. }
  { by eapply lend_clock. }
  rewrite Hln in Hnet.
  destruct (mesh_call (f p) P Q k r p n (Ok ()) e' (M p) Hm Hn He' Hnet) as (s' & Hc & Hwi & Hep & Hff).
  { intros d. apply HM. by left. }
  { lia. }
  cbn [for_engines]. rewrite Hn, Hc. cbn [mbind Outcome_bind].
  set (P1 := λ q e, if decide (q = p) then P' q e else P q e).
  set (Q1 := Q ++ arrivals p (M p)) in *.
  assert (∀ q, q ∈ l → q ≠ p) as Hne by (intros q Hq ->; done).
  assert (∀ q e, q ∈ l → P1 q e = P q e) as HP1.
  { intros q e Hq. unfold P1. by rewrite decide_False by auto. }
  destruct (IH P1 Q1 (k + N.of_nat (length (omap MemoryNet.dst (M p))))
    (set_engine p e' (set_hub s' r))) as (r' & Hr' & Hm' & Hs').
  - intros q n' c e Hq. rewrite !HP1 by done. apply Hlend. by right.
  - intros q e Hq. rewrite HP1 by done. apply Hf. by right.
  - intros q d Hq. apply HM. by right.
  - eapply mesh_update; [exact Hm|exact Hn|exact Hff|exact Hwi|exact Hep| |].
    + unfold P1. by rewrite decide_True.
    + intros q e _ Hq. unfold P1. by rewrite decide_False.
  - done.
  - intros q Hq. apply Hl. by right.
  - lia.
  - exists r'. split; [exact Hr'|]. split; [|by rewrite Hs'].
    unfold Q1 in Hm'. rewrite <- app_assoc in Hm'.
    rewrite length_app, Nat2N.inj_add, length_arrivals, N.add_assoc.
    eapply mesh_mono; [exact Hm'|]. intros q e _. unfold P1. cbn beta.
    repeat case_decide; try done; set_solver.
Qed.
End queue.

(** ** A new runner *)
Section new.
Context {PS G : Type} `{!Rng G}.
Context `{Sha256, ReedSolomon}.
Abbreviation SimEngine := (Engine Rs.RsStrategy (SimNetEndpoint PS G) SimClock Buffer).
Abbreviation SimRunner := (Runner PS G SimEngine).
Implicit Types (r : SimRunner) (e : SimEngine) (P : N → SimEngine → Prop).

(** An engine as [add_peer] makes it. *)
Definition newborn (start p : N) (s : SimState PS G) : SimEngine :=
  Engine.with_config p (mkEp p (Some s)) (mkBuffer []) EngineConfig_default (mkClock start).

Lemma add_peer_mesh start X P k r p :
  mesh start X P [] k r → (∀ s, P p (newborn start p s)) →
  mesh start ({[p]} ∪ X) P [] k (add_peer r p) ∧ seed (add_peer r p) = seed r.
Proof.
  intros [[] ? ? ? ?] HP. split; [|done]. unfold add_peer, endpoint.
  assert (∀ q n (e : SimEngine), <[p := mkNode e (next_queue (hub r))]> (engines r) !! q = Some n →
    q = p ∧ n = mkNode e (next_queue (hub r)) ∨
    q ≠ p ∧ engines r !! q = Some n ∧ (rx n < next_queue (hub r))%nat) as Hcase.
  { intros q n e. rewrite lookup_insert_Some. intros [[<- <-]|[Hq Hn]]; [by left|right].
    split; [done|]. split; [done|]. by apply (me_node0 q n). }
  split; cbn [hub engines].
  - by split.
  - done.
  - intros q. rewrite elem_of_union, elem_of_singleton, me_peers0, lookup_insert_is_Some'.
    naive_solver.
  - intros q n [[-> ->]|(Hq & Hn & Hlt)]%Hcase; cbn [rx engine inboxes queues next_queue].
    + rewrite !lookup_insert_eq. split_and!; try done; [lia|].
      match goal with |- context [mkClock (wall_now ?s)] =>
        assert (wall_now s = start) as -> by (unfold wall_now; cbn; lia) end. apply HP.
    + destruct (me_node0 q n Hn) as (? & ? & ? & ? & ?).
      rewrite !lookup_insert_ne by (done || lia). split_and!; try done. lia.
  - intros p1 p2 n1 n2 [[-> ->]|(? & ? & ?)]%Hcase [[-> ->]|(? & ? & ?)]%Hcase Heq;
      cbn [rx] in *; [done|lia|lia|eauto].
Qed.

Lemma new_mesh start l (plan : FaultPlan PS G) P :
  rules plan = [] → (∀ p s, p ∈ l → P p (newborn start p s)) →
  mesh start (list_to_set l) P [] 0 (SimRunner.new l plan start) ∧
  seed (SimRunner.new l plan start) = plan_seed plan.
Proof.
  intros Hr HP. unfold SimRunner.new.
  assert (∀ X r0, mesh start X P [] 0 r0 →
    mesh start (list_to_set l ∪ X) P [] 0 (foldl add_peer r0 l) ∧
    seed (foldl add_peer r0 l) = seed r0) as Hfold.
  { induction l as [|p l IH]; intros X r0 Hm; cbn [foldl list_to_set].
    - by rewrite (left_id_L ∅ (∪)).
    - destruct (add_peer_mesh start X P 0 r0 p Hm) as [Hm1 Hs1]; [intros s; apply HP; by left|].
      destruct (IH (λ q s Hq, HP q s (list_elem_of_further _ _ _ Hq)) _ _ Hm1) as [Hm2 Hs2].
      rewrite Hs2, Hs1. split; [|done].
      by rewrite (comm_L (∪) {[p]}), <- (assoc_L (∪)). }
  match goal with |- mesh _ _ _ _ _ (foldl _ ?r0 _) ∧ _ => destruct (Hfold ∅ r0) as [Hm Hs] end.
  - split; cbn; try done; [|intros p; by rewrite lookup_empty, is_Some_alt].
    split; try done. by intros x ?%elem_of_nil.
  - by rewrite (right_id_L ∅ (∪)) in Hm.
Qed.
End new.
End SimQueue.
