(* ===== verification/SimBroadcast.v ===== *)
(** A mesh of the simulator without faults delivers a broadcast to everyone.

    [Setup] follows a scenario up to the publication: the handshakes make every
    engine a subscriber at every other.  [Spread] is the broadcast itself: the
    members of [RsMesh] empty the queue of [SimMesh], and then every relay has
    delivered the message.  [mesh_delivers] is the whole scenario. *)
From Stdlib Require Import NArith ZArith Lia.
From stdpp Require Import base gmap option strings pretty sorting list.
From S2P Require Import Prelude Heap BitMap Wire Config Strategy RsCodec Planner RsStrategy RsLink.
From S2P Require Import Session Channel Runtime MemoryNet Engine EngineInv EngineRel EngineSend.
From S2P Require Import EnginePark EngineDrain EngineDeliver EngineObserve EngineNet EngineFlow RsEngine.
From S2P Require Import EngineAuth RsBroadcast RsMesh Sim SimMemory SimRunner SimMesh.

Open Scope N_scope.

(** * Up to the publication *)
Module Setup.
Import Engine EngineLemmas Rs RsDrain SimRunner SimFifo SimQueue.
Section setup.
Context {PS G : Type} `{!Rng G}.
Context `{Sha256, ReedSolomon, Message Preamble}.
Abbreviation SimEngine := (Engine Rs.RsStrategy (SimNetEndpoint PS G) SimClock Buffer).
Abbreviation SimRunner := (Runner PS G SimEngine).
Implicit Types (r : SimRunner) (e : SimEngine).
Context (start sd : N) (peers : gset N) (ch : string) (rc : RsConfig).

Definition others (p : N) : gset N := peers ∖ {[p]}.
Definition chan (p : N) (subs : gset N) : Channel RsStrategy :=
  mkChannel ch subs ∅ (rs_relay_factory_seeded rc (derive_seed sd p)).

(** No message was seen. *)
Record calm (p : N) e : Prop := {
  cm_name : local_peer_str e = "peer-" +:+ pretty p;
  cm_coherent : coherent e;
  cm_parked : parked_chunks e = ∅;
  cm_tombstones : tombstones e = ∅;
  cm_cleanup : start < next_cleanup e;
  cm_delivered : delivered e = mkBuffer []
}.

Definition fresh (p : N) e : Prop := calm p e ∧ channels e = ∅ ∧ connected e = ∅.
Definition hosting (p : N) e : Prop :=
  calm p e ∧ channels e = {[ch := chan p ∅]} ∧ connected e = ∅.
(** Whoever is not a subscriber yet has a handshake under way. *)
Definition greeting (p : N) (evs : list NetEvent.t) e : Prop :=
  calm p e ∧ ∃ subs, channels e = {[ch := chan p subs]} ∧ subs ⊆ others p ∧
    ∀ q, q ∈ others p → q ∈ subs ∨ ∃ s, NetEvent.Handshake q PROTOCOL_VERSION [ch] s ∈ evs.
Definition greeted (p : N) e : Prop := calm p e ∧ channels e = {[ch := chan p (others p)]}.

Lemma calm_lend p n c e : calm p e → calm p (set_net n (set_clock c e)).
Proof. intros [? [] ? ? ? ?]. by split. Qed.

Lemma newborn_fresh p s : fresh p (newborn start p s).
Proof.
  split; [|done]. split; try done; [apply with_config_coherent|].
  cbn. unfold from_secs. lia.
Qed.

Lemma subscribe_hosts p e :
  fresh p e →
  ∃ e', subscribe ch (factory (chan p ∅)) e = (Ok (), e') ∧ net e' = net_sends [] (net e) ∧
    hosting p e'.
Proof.
  intros ([Hn Hco Hpk Ht Hcl Hd] & Hc & Hcon).
  pose proof (exec_coherent (Subscribe ch (factory (chan p ∅))) e Hco) as Hco'.
  cbn [exec] in Hco'. unfold sm_exec, subscribe in *.
  rewrite (proj2 (contains_key_false _ _)) in * by by rewrite Hc.
  cbn [connected set_channels] in *. rewrite Hcon in *. cbn in *.
  eexists. split; [done|]. split; [done|]. split; [by split|].
  split; [|exact Hcon]. cbn. by rewrite Hc.
Qed.

(** The handshakes of a loop of [connect]s. *)
Definition handshake (p q : N) : NetSend :=
  SendHandshake q PROTOCOL_VERSION [ch] ("peer-" +:+ pretty p).

Lemma bt_keys_singleton {V} (v : V) : bt_keys {[ch := v]} = [ch].
Proof.
  unfold bt_keys. rewrite dom_singleton_L.
  pose proof (bt_elements_perm ({[ch]} : gset string)) as Hp.
  rewrite elements_singleton in Hp. by apply Permutation_singleton_r in Hp.
Qed.

Lemma connect_all X p c l e :
  calm p e → channels e = {[ch := c]} → up X (net e) → NoDup l →
  (∀ q, q ∈ l → q ∈ X ∧ q ∉ connected e) →
  ∃ e', sm_for connect l e = (Ok (), e') ∧ net e' = net_sends (handshake p <$> l) (net e) ∧
    calm p e' ∧ channels e' = channels e.
Proof.
  intros Hcm Hc Hup Hnd. revert e Hcm Hc Hup; induction Hnd as [|q l Hq Hnd IH];
    intros e Hcm Hc Hup Hl; [by exists e|].
  cbn [sm_for]. unfold mbind, SM_bind.
  pose proof (exec_coherent (Connect q) e (cm_coherent _ _ Hcm)) as Hco.
  cbn [exec] in Hco. unfold sm_exec, connect, register_peer_and_handshake in *.
  destruct (Hl q) as [HqX Hqc]; [by left|]. rewrite decide_False in * by done.
  cbn [channels local_peer_str set_connected] in *. rewrite Hc, bt_keys_singleton in *.
  rewrite (cm_name _ _ Hcm) in *. fold (handshake p q) in *. unfold send in *.
  cbn [net set_connected] in *.
  destruct (up_accepts X (handshake p q) (net e) Hup) as [Hok Hup'].
  { intros d [= <-]. done. }
  destruct (net_send (handshake p q) (net e)) as [res nt] eqn:Hs. cbn [fst snd] in *. subst res.
  cbn [map_err snd] in *. set (e1 := set_net nt _) in *.
  destruct (IH e1) as (e' & He' & Hnet & Hcm' & Hch).
  - destruct Hcm. by split.
  - done.
  - exact Hup'.
  - intros q' Hq'. destruct (Hl q') as [? Hc']; [by right|]. split; [done|].
    cbn. rewrite elem_of_union, elem_of_singleton. intros [->|?]; done.
  - exists e'. split; [exact He'|]. split; [|split; [exact Hcm'|by rewrite Hch]].
    rewrite Hnet. unfold net_sends. cbn [fmap list_fmap foldl]. by rewrite Hs.
Qed.

(** A handshake makes its sender a subscriber. *)
Lemma greeting_event p q s evs e :
  q ∈ others p → greeting p (NetEvent.Handshake q PROTOCOL_VERSION [ch] s :: evs) e →
  wall (clock e) = start →
  ∃ e', run_one_step (Some (NetEvent.Handshake q PROTOCOL_VERSION [ch] s)) e = (Processed, e') ∧
    net e' = net e ∧ greeting p evs e'.
Proof.
  intros Hq ([Hn Hco Hpk Ht Hcl Hd] & subs & Hc & Hsub & Hall) Hck.
  pose proof (exec_coherent (Step (NetEvent.Handshake q PROTOCOL_VERSION [ch] s)) e Hco) as Hco'.
  cbn [exec] in Hco'.
  assert (∃ v, handle_event (NetEvent.Handshake q PROTOCOL_VERSION [ch] s) e =
    set_channels {[ch := chan p ({[q]} ∪ subs)]} (set_connected v e)) as [v Hev].
  { exists ({[q]} ∪ connected e). cbn [handle_event]. unfold on_handshake.
    rewrite decide_True by done. cbn [foldl]. set (e0 := set_connected _ e).
    assert (subscribe_to ch q e0 = set_channels {[ch := chan p ({[q]} ∪ subs)]} e0) as ->.
    { unfold subscribe_to. f_equal. cbn [e0 channels set_connected]. rewrite Hc.
      rewrite alter_singleton_eq. f_equal. unfold Channel.subscribe_peer, chan. cbn.
      case_decide; [f_equal; set_solver|by rewrite fmap_empty]. }
    unfold sm_exec, drain_channel. cbn [channels set_channels]. by rewrite lookup_singleton_eq. }
  exists (set_clock (clock e) (handle_event (NetEvent.Handshake q PROTOCOL_VERSION [ch] s) e)).
  assert (run_one_step (Some (NetEvent.Handshake q PROTOCOL_VERSION [ch] s)) e = (Processed,
    set_clock (clock e) (handle_event (NetEvent.Handshake q PROTOCOL_VERSION [ch] s) e))) as Hstep.
  { cbn [run_one_step]. f_equal. unfold maybe_run_cleanup, now. rewrite Hev.
    cbn [clock set_channels set_connected]. cbn. by rewrite Hck, decide_True. }
  rewrite Hstep in Hco'. split; [exact Hstep|]. rewrite Hev in *. split; [done|].
  split; [by split|]. exists ({[q]} ∪ subs). split; [done|]. split; [set_solver|].
  intros q' Hq'. destruct (Hall q' Hq') as [?|[s' [Heq|?]%elem_of_cons]].
  - left. set_solver.
  - injection Heq as -> _. left. set_solver.
  - right. by exists s'.
Qed.

(** ** The calls *)

Lemma size_others p : p ∈ peers → size (others p) = (size peers - 1)%nat.
Proof.
  intros Hp. unfold others. rewrite size_difference by set_solver. by rewrite size_singleton.
Qed.

(** Everyone else, in the order of the loop. *)
Definition rest (p : N) : list N := filter (λ q, q ≠ p) (bt_elements peers).

Lemma elem_of_rest p q : q ∈ rest p ↔ q ∈ others p.
Proof.
  unfold rest, others. rewrite list_elem_of_filter, elem_of_bt_elements. set_solver.
Qed.

Lemma NoDup_rest p : NoDup (rest p).
Proof. apply NoDup_filter, NoDup_bt_elements. Qed.

Lemma length_rest p : p ∈ peers → length (rest p) = (size peers - 1)%nat.
Proof.
  intros Hp. rewrite <- (size_others p Hp).
  rewrite <- (size_list_to_set (C := gset N)) by apply NoDup_rest.
  f_equal. apply set_eq. intros q. by rewrite elem_of_list_to_set, elem_of_rest.
Qed.

Definition greetings : list (N * NetEvent.t) :=
  bt_elements peers ≫= λ p, arrivals p (handshake p <$> rest p).

Lemma length_greetings : length greetings = (size peers * (size peers - 1))%nat.
Proof.
  unfold greetings. rewrite <- (length_bt_elements peers) at 1.
  assert (∀ p, p ∈ bt_elements peers → p ∈ peers) as Hin by (intros p; apply elem_of_bt_elements).
  induction (bt_elements peers) as [|p l IH]; [done|]. cbn [mbind list_bind length].
  rewrite length_app, length_arrivals, IH by (intros q Hq; apply Hin; by right).
  assert (∀ l', omap MemoryNet.dst (handshake p <$> l') = l') as ->.
  { intros l'. induction l' as [|q l' IH']; [done|]. cbn. by f_equal. }
  rewrite length_rest; [lia|]. apply Hin. by left.
Qed.

Lemma elem_of_greetings d ev :
  (d, ev) ∈ greetings ↔ d ∈ peers ∧ ∃ q, q ∈ others d ∧
    ev = NetEvent.Handshake q PROTOCOL_VERSION [ch] ("peer-" +:+ pretty q).
Proof.
  unfold greetings. rewrite list_elem_of_bind. split.
  - intros (q & Hin & Hq%elem_of_bt_elements).
    apply elem_of_arrivals in Hin as (msg & (d' & -> & Hd')%list_elem_of_fmap & [= ->] & ->).
    apply elem_of_rest in Hd'. unfold others in *. split; [set_solver|]. exists q.
    split; [set_solver|done].
  - intros (Hd & q & Hq & ->). unfold others in Hq. exists q. split; [|apply elem_of_bt_elements; set_solver].
    apply elem_of_arrivals. exists (handshake q d). split; [|done].
    apply list_elem_of_fmap. exists d. split; [done|]. apply elem_of_rest. unfold others. set_solver.
Qed.

Definition greets (d : N) (ev : NetEvent.t) : Prop :=
  ∃ q s, q ∈ others d ∧ ev = NetEvent.Handshake q PROTOCOL_VERSION [ch] s.

#[export] Instance greeting_reacts :
  Reacts start peers greets (λ _ : SimEngine, 0%nat) greeting.
Proof.
  split.
  - intros p evs l e (Hc & subs & Hch & Hsub & Hall). split; [done|]. exists subs.
    split; [done|]. split; [done|]. intros q Hq. destruct (Hall q Hq) as [?|[s ?]]; [by left|right].
    exists s. apply elem_of_app. by left.
  - intros p evs n c e (Hc & Hx). split; [by apply calm_lend|exact Hx].
  - done.
  - intros p ev evs e Hp (q & s & Hq & ->) Hg _ Hck.
    destruct (greeting_event p q s evs e Hq Hg Hck) as (e' & Hstep & Hnet & Hg').
    exists [], e'. split; [done|]. split; [done|]. split; [by intros msg d ?%elem_of_nil|].
    split; [done|exact Hg'].
Qed.

(** The engines host the channel. *)
Lemma subscribe_all_mesh k r :
  mesh start peers fresh [] k r → seed r = sd → k < 2 ^ 64 →
  ∃ r', subscribe_all ch rc r = Returns (Ok (), r') ∧
    mesh start peers hosting [] k r' ∧ seed r' = sd.
Proof.
  intros Hm Hs Hk. unfold subscribe_all. rewrite (mesh_keys _ _ _ _ _ _ Hm), Hs.
  assert ((bt_elements peers ≫= λ p, arrivals p []) = []) as Hnil
    by (induction (bt_elements peers); done).
  destruct (for_engines_mesh start peers (λ p, subscribe ch (factory (chan p ∅))) (λ _, [])
    fresh hosting (bt_elements peers) [] k r) as (r' & Hr' & Hm' & Hs').
  - intros p n c e _ (Hc & Hx). split; [by apply calm_lend|exact Hx].
  - intros p e _ Hf _ _ _. by apply subscribe_hosts.
  - by intros p d _ ?%elem_of_nil.
  - done.
  - apply NoDup_bt_elements.
  - intros p. apply elem_of_bt_elements.
  - rewrite Hnil. cbn. lia.
  - rewrite Hnil in Hm'. cbn in Hm'. rewrite N.add_0_r in Hm'.
    exists r'. split; [exact Hr'|]. split; [|by rewrite Hs'].
    eapply mesh_mono; [exact Hm'|]. intros p e Hp He.
    cbn beta in He. by rewrite decide_True in He by by apply elem_of_bt_elements.
Qed.

(** And greet each other. *)
Lemma connect_full_mesh_mesh k r :
  mesh start peers hosting [] k r →
  k + N.of_nat (size peers * (size peers - 1)) < 2 ^ 64 →
  ∃ r', connect_full_mesh r = Returns (Ok (), r') ∧
    running start peers greets greeting greetings
      (k + N.of_nat (size peers * (size peers - 1))) r' ∧ seed r' = seed r.
Proof.
  intros Hm Hk. unfold connect_full_mesh. rewrite (mesh_keys _ _ _ _ _ _ Hm).
  set (P' := λ p e, calm p e ∧ channels e = {[ch := chan p ∅]}).
  destruct (for_engines_mesh start peers (λ p, sm_for connect (rest p))
    (λ p, handshake p <$> rest p) hosting P' (bt_elements peers) [] k r) as (r' & Hr' & Hm' & Hs').
  - intros p n c e _ (Hc & Hx). split; [by apply calm_lend|exact Hx].
  - intros p e Hp%elem_of_bt_elements (Hc & Hch & Hcon) _ Hup _.
    destruct (connect_all peers p (chan p ∅) (rest p) e Hc Hch Hup (NoDup_rest p))
      as (e' & He' & Hnet & Hcm & Hch').
    { intros q Hq%elem_of_rest. rewrite Hcon. unfold others in Hq. split; set_solver. }
    exists e'. split; [exact He'|]. split; [exact Hnet|]. split; [done|]. by rewrite Hch'.
  - intros p d _ (msg & (q & -> & Hq)%list_elem_of_fmap & [= ->])%list_elem_of_omap.
    apply elem_of_rest in Hq. unfold others in Hq. set_solver.
  - done.
  - apply NoDup_bt_elements.
  - intros p. apply elem_of_bt_elements.
  - fold greetings. by rewrite length_greetings.
  - fold greetings in Hm'. rewrite length_greetings in Hm'.
    exists r'. split; [exact Hr'|]. split; [|by rewrite Hs']. split.
    + eapply mesh_mono; [exact Hm'|]. intros p e Hp He. cbn beta in He.
      rewrite decide_True in He by by apply elem_of_bt_elements. destruct He as [Hc Hch].
      split; [done|]. exists ∅. split; [done|]. split; [set_solver|]. intros q Hq. right.
      exists ("peer-" +:+ pretty q). apply elem_of_events_to, elem_of_greetings. eauto.
    + intros d ev (Hd & q & Hq & ->)%elem_of_greetings. split; [done|]. by eexists _, _.
Qed.

(** All are subscribers of each other. *)
Lemma greetings_mesh max k r :
  running start peers greets greeting greetings k r →
  (size peers * (size peers - 1) ≤ max)%nat →
  k + N.of_nat (size peers * (size peers - 1)) < 2 ^ 64 →
  ∃ n r' k', run_to_quiescence max r = Returns (Ok n, r') ∧
    mesh start peers greeted [] k' r' ∧
    k' ≤ k + N.of_nat (size peers * (size peers - 1)) ∧ seed r' = seed r.
Proof.
  intros Hr Hmax Hk.
  assert (total (λ _ : SimEngine, 0%nat) r = 0%nat) as Ht.
  { unfold total. pose proof (weight_of_le (λ _ : SimEngine, 0%nat) 0 (engines r)) as Hle.
    specialize (Hle (λ _ _ _, le_n 0)). lia. }
  destruct (run_loop_mesh start peers greets (λ _, 0%nat) greeting max max 0 greetings k r Hr)
    as (n & r' & k' & Hrun & Hm & Hk' & Hs); rewrite ?Ht, ?length_greetings in *; [lia|lia|].
  exists n, r', k'. split; [exact Hrun|]. split; [|split; [lia|done]].
  eapply mesh_mono; [exact Hm|]. intros p e Hp (Hc & subs & Hch & Hsub & Hall).
  split; [done|]. rewrite Hch. do 2 f_equal. apply set_eq. intros q. split; [apply Hsub|].
  intros Hq. destruct (Hall q Hq) as [?|[s ?%elem_of_nil]]; done.
Qed.

(** A new mesh that is ready for a publication. *)
Lemma setup_mesh l (plan : FaultPlan PS G) max :
  rules plan = [] → plan_seed plan = sd → list_to_set l = peers →
  (size peers * (size peers - 1) ≤ max)%nat →
  N.of_nat (2 * (size peers * (size peers - 1))) < 2 ^ 64 →
  ∃ r1 r2 n r3 k, subscribe_all ch rc (SimRunner.new l plan start) = Returns (Ok (), r1) ∧
    connect_full_mesh r1 = Returns (Ok (), r2) ∧ run_to_quiescence max r2 = Returns (Ok n, r3) ∧
    mesh start peers greeted [] k r3 ∧
    k ≤ N.of_nat (2 * (size peers * (size peers - 1))) ∧ seed r3 = sd.
Proof.
  intros Hr Hsd Hl Hmax Hk.
  destruct (new_mesh start l plan fresh Hr) as [Hm0 Hs0]; [intros p s _; apply newborn_fresh|].
  rewrite Hl in Hm0. rewrite Hsd in Hs0.
  destruct (subscribe_all_mesh 0 _ Hm0 Hs0) as (r1 & H1' & Hm1 & Hs1); [done|].
  destruct (connect_full_mesh_mesh 0 r1 Hm1) as (r2 & H2' & Hm2 & Hs2); [lia|].
  destruct (greetings_mesh max _ r2 Hm2 Hmax) as (n & r3 & k & H3' & Hm3 & Hk3 & Hs3); [lia|].
  exists r1, r2, n, r3, k. split; [done|]. split; [done|]. split; [done|]. split; [done|].
  split; [lia|congruence].
Qed.
End setup.
End Setup.

(** * The broadcast *)
Module Spread.
Import Engine EngineLemmas Observe Flow Rs RsLemmas RsDrain RsGather RsPolls RsPublish RsPotential.
Import Acts Hope Mates SimRunner SimFifo SimQueue Setup.

(** The steps of a broadcast to [x] others in [n] shards: the opens, the messages
    of the origin, and those of each relay. *)
Definition spread_steps (x n : nat) : nat :=
  (x + drain_messages x n + x * (4 * x * full_potential n x))%nat.

Section spread.
Context {PS G : Type} `{!Rng G}.
Context `{Sha256, !Sha256Laws, ReedSolomon, !ReedSolomonLaws}.
Context `{Message Preamble, !MessageLaws Preamble}.
Abbreviation SimEngine := (Engine Rs.RsStrategy (SimNetEndpoint PS G) SimClock Buffer).
Abbreviation SimRunner := (Runner PS G SimEngine).
Implicit Types (r : SimRunner) (e : SimEngine).
Context (start sd : N) (peers : gset N) (ch m : string) (rc : RsConfig) (origin : N).
Context (payload : bytes) (k pm : N) (pr : Preamble) (shards : list bytes).
Context (Hencoded : encoded payload k pm pr shards).
Hypothesis fm : forward_multiplier rc < 2 ^ 32.

Abbreviation others := (others peers).

(** The deliveries before and after the message. *)
Definition room (d : Buffer) : Prop := buffered d = [].
Definition got (d : Buffer) : Prop := buffered d = [mkDelivered ch m payload].

Lemma got_receives d : room d → got (snd (try_send (mkDelivered ch m payload) d)).
Proof. unfold room, got, try_send, Sink_Buffer. by intros ->. Qed.

Definition at_start (c : SimClock) : Prop := wall c = start.
#[export] Instance at_start_shows : Shows at_start start.
Proof. by intros c Hc. Qed.

Definition spreads (p : N) (evs : list NetEvent.t) e : Prop :=
  mate (others p) start pr shards rc (derive_seed sd p) ch m room got
    (bool_decide (p = origin)) evs e.

(** What each member may still send. *)
Definition fellows : nat := (size peers - 1)%nat.
Definition limit : nat := full_potential (length shards) fellows.
Definition weight e : nat := (4 * fellows * engine_potential ch m limit e)%nat.

#[export] Instance spreads_reacts :
  Reacts start peers (λ _, mesh_event (shard_at shards) ch m (pre pr)) weight spreads.
Proof.
  split.
  - intros p evs l e. apply mate_more.
  - intros p evs n c e. apply mate_lend.
  - done.
  - intros p ev evs e Hp Hev Hmt (s & Hsh & Hr & Hn & Hin) Hck.
    assert (up (others p) (net e)) as Hup.
    { exists s. split; [done|]. split; [done|]. split; [done|]. intros d Hd. apply Hin.
      unfold Setup.others in Hd. set_solver. }
    destruct (mate_event (others p) (up (others p)) at_start start payload k pm pr shards Hencoded
      rc (derive_seed sd p) fm ch m room got got_receives (bool_decide (p = origin))
      ev evs e Hev Hmt Hup Hck) as (msgs & e' & Hstep & Hnet & Hf & Hw & Hmt').
    unfold Mates.most in Hw. rewrite (size_others peers p Hp) in Hw.
    exists msgs, e'. split; [exact Hstep|]. split; [exact Hnet|]. split; [|split; [exact Hw|exact Hmt']].
    intros msg d Hmsg Hd. rewrite Forall_forall in Hf.
    destruct (fine_event _ _ _ _ _ p msg d (Hf msg Hmsg) Hd) as [Hd' Hev'].
    split; [|exact Hev']. unfold Setup.others in Hd'. set_solver.
Qed.

(** The events that the messages of a publication become. *)
Definition opens (q : N) : list NetSend :=
  (λ p, SendSessionOpen p ch m (pre pr) []) <$> bt_elements (others q).

Lemma spreads_relay p e l o :
  p ∈ others origin → greeted start sd peers ch rc p e →
  (∀ i, slot o i = shards !! N.to_nat i) → preamble o = pr →
  omap chunk_of l ≡ₚ deliveries ch m o (others origin) →
  spreads p (events_to p (arrivals origin (opens origin ++ l))) e.
Proof.
  intros Hp ([_ _ Hpk Ht Hcl Hd] & Hch) Hslot Hpre Hperm.
  assert (lookup_session e ch m = None) as Hl.
  { unfold lookup_session. rewrite Hch, lookup_singleton_eq. done. }
  split.
  - unfold subscribers_of. rewrite Hch, lookup_singleton_eq. done.
  - rewrite Hl. done.
  - unfold Parking.parked_of. rewrite Hpk. by intros i d ?%elem_of_nil.
  - by rewrite Ht.
  - done.
  - rewrite bool_decide_eq_false_2 by (unfold Setup.others in Hp; set_solver). left. split.
    { split; [done|]. split; [by unfold room; rewrite Hd|].
      exists (chan sd ch rc p (others p)). by rewrite Hch, lookup_singleton_eq. }
    assert (p ∈ bt_elements (others origin)) as (l1 & l2 & Hl12)%list_elem_of_split
      by by apply elem_of_bt_elements.
    exists (events_to p (arrivals origin ((λ p, SendSessionOpen p ch m (pre pr) []) <$> l1))), origin, [],
      (events_to p (arrivals origin (((λ p, SendSessionOpen p ch m (pre pr) []) <$> l2) ++ l))).
    split.
    + unfold opens. rewrite Hl12, fmap_app, <- app_assoc. unfold arrivals.
      rewrite omap_app, events_to_app. f_equal. cbn. by rewrite decide_True.
    + intros i d Hi. right. exists origin. apply elem_of_events_to, elem_of_arrivals.
      destruct (proj2 (elem_of_deliveries payload k pm o shards ch m (others origin) l p i d
        ltac:(by rewrite Hpre) Hslot Hperm)) as [h Hh]; [done|].
      exists (SendChunk p ch m i d h). split; [|done]. apply elem_of_app. by right.
Qed.

(** What the origin puts on the network. *)
Lemma publication_fine l :
  Forall (of_session (λ p, p ∈ others origin) (shard_at shards) ch m (pre pr)) l →
  Forall (fine (others origin) (shard_at shards) ch m (pre pr)) (opens origin ++ l).
Proof.
  intros Hf. apply Forall_app. split; [|eapply Forall_impl; [exact Hf|by right]].
  apply Forall_forall. intros msg (p & -> & Hin%elem_of_bt_elements)%list_elem_of_fmap.
  right. by split.
Qed.

Lemma publication_length l :
  origin ∈ peers → (length (omap MemoryNet.dst (opens origin ++ l)) ≤ fellows + length l)%nat.
Proof.
  intros Ho.
  assert (∀ l', length (omap MemoryNet.dst l') ≤ length l')%nat as Hle.
  { intros l'. induction l' as [|msg l' IH]; [done|]. cbn. destruct (MemoryNet.dst msg); cbn; lia. }
  rewrite omap_app, length_app. pose proof (Hle l). pose proof (Hle (opens origin)) as Hop.
  unfold opens in Hop at 2. rewrite length_fmap, length_bt_elements, size_others in Hop by done.
  unfold fellows. lia.
Qed.

Lemma fine_running msgs q r :
  Forall (fine (others origin) (shard_at shards) ch m (pre pr)) msgs →
  mesh start peers (λ p e, spreads p (events_to p (arrivals origin msgs)) e) (arrivals origin msgs) q r →
  running start peers (λ _, mesh_event (shard_at shards) ch m (pre pr)) spreads (arrivals origin msgs) q r.
Proof.
  intros Hf Hm. split; [exact Hm|]. intros d ev (msg & Hin & Hd & ->)%elem_of_arrivals.
  rewrite Forall_forall in Hf.
  destruct (fine_event _ _ _ _ _ origin msg d (Hf msg Hin) Hd) as [Hd' Hev].
  split; [|exact Hev]. unfold Setup.others in Hd'. set_solver.
Qed.

(** The origin after its publication. *)
Lemma spreads_origin o evs e e' s' :
  calm start origin e → apart at_start e e' →
  drainable (up (others origin)) ch m (pre pr) (attached (shard_at shards) (others origin)) (others origin) e' s' →
  alike seen (Session.new_origin o) s' → spreads origin evs e'.
Proof.
  intros [_ _ Hpk Ht Hcl Hd] [Hpk' Hcl' Ht' Hd' _] [[_ Hpre] Hl HP HX] [Hst _]. unfold spreads.
  rewrite bool_decide_eq_true_2 by done. split.
  - exact HX.
  - rewrite Hl. by intros s0 [= <-].
  - unfold Parking.parked_of. rewrite Hpk', Hpk. by intros i d ?%elem_of_nil.
  - by rewrite Ht', Ht.
  - by rewrite Hcl'.
  - split; [unfold room; by rewrite Hd', Hd|]. by exists s'.
Qed.

Lemma weight_origin o e s :
  lookup_session e ch m = Some s → chunks o = Some <$> shards →
  alike seen (Session.new_origin o) s → weight e = (4 * fellows * poll_bound (strategy s))%nat.
Proof.
  intros Hl Hc [_ Hsn]. unfold weight, engine_potential, potential. rewrite Hl.
  rewrite (missing_none _ shards), Nat.add_0_r; [done|]. injection Hsn as _ ->. exact Hc.
Qed.

(** The relays before a publication. *)
Lemma weight_relays q r n :
  mesh start peers (greeted start sd peers ch rc) [] q r → engines r !! origin = Some n →
  (weight_of weight (delete origin (engines r)) ≤ fellows * (4 * fellows * limit))%nat.
Proof.
  intros Hm Hn. etrans; [apply (weight_of_le weight (4 * fellows * limit))|].
  - intros p n' [_ Hn']%lookup_delete_Some.
    destruct (me_node _ _ _ _ _ _ Hm p n' Hn') as (_ & _ & _ & _ & [_ Hch']).
    unfold weight, engine_potential, lookup_session. by rewrite Hch', lookup_singleton_eq.
  - rewrite map_size_delete_Some by done. rewrite (mesh_size _ _ _ _ _ _ Hm).
    apply Nat.mul_le_mono_r. unfold fellows. lia.
Qed.

Lemma new_origin_encode cfg seed :
  Encode.encode payload cfg = Some (Ok (pr, shards)) →
  ∃ o, new_origin_with_seed payload cfg seed = Some (Ok o) ∧ preamble o = pr ∧
    chunks o = Some <$> shards.
Proof. intros He. unfold new_origin_with_seed. rewrite He. by eexists. Qed.

(** The call of the origin's engine. *)
Lemma origin_publishes cfg seed o e :
  calm start origin e → channels e = {[ch := chan sd ch rc origin (others origin)]} →
  up (others origin) (net e) → origin ∈ peers → payload ≠ [] →
  new_origin_with_seed payload cfg seed = Some (Ok o) → preamble o = pr →
  chunks o = Some <$> shards → N.of_nat (drain_messages fellows (length shards)) < 2 ^ 63 →
  ∃ e' l, Engine.publish ch m o (pre pr) e = (Ok (), e') ∧
    net e' = net_sends (opens origin ++ l) (net e) ∧
    Forall (fine (others origin) (shard_at shards) ch m (pre pr)) (opens origin ++ l) ∧
    omap chunk_of l ≡ₚ deliveries ch m o (others origin) ∧
    (length l + weight e' ≤ drain_messages fellows (length shards))%nat ∧
    ∀ evs, spreads origin evs e'.
Proof.
  intros Hcm Hch Hup Ho Hp Hno Hpre Hchunks Hfew.
  pose proof (encoded_total _ _ _ _ _ Hencoded) as Htotal.
  assert (size (others origin) = fellows) as Hsize by by apply size_others.
  destruct (publish_origin (up (others origin)) (shard_at shards) payload cfg seed o ch m
    (pre pr) (chan sd ch rc origin (others origin)) e)
    as (e' & s' & l & Hpub & Hdn & Halike & Hnet & Hf & Hperm & _ & Hlen);
    [done|done|apply Hcm|done|by rewrite Hch, lookup_singleton_eq|done| | |].
  { cbn [subscribers chan]. rewrite Hsize, Hpre, <- Htotal. unfold drain_messages in Hfew.
    destruct fellows; cbn -[N.mul] in *; nia. }
  { intros i d Hd. unfold shard_at. by rewrite <- (RsLinkLemmas.slot_origin shards o i Hchunks). }
  cbn [subscribers chan] in *. rewrite Hsize, Hpre, <- Htotal, Nat2N.id in Hlen.
  pose proof (publish_apart at_start start ch m (pre pr) o e) as Hap. rewrite Hpub in Hap.
  exists e', l. split; [exact Hpub|]. split; [exact Hnet|]. split; [by apply publication_fine|].
  split; [exact Hperm|]. split; [|intros evs; by eapply spreads_origin].
  by rewrite (weight_origin o e' s' (dn_session _ _ _ _ _ _ _ _ Hdn) Hchunks Halike).
Qed.

(** The call of the runner. *)
Lemma publish_mesh cfg q r :
  mesh start peers (greeted start sd peers ch rc) [] q r → origin ∈ peers → seed r = sd →
  payload ≠ [] → Encode.encode payload cfg = Some (Ok (pr, shards)) →
  q + N.of_nat (2 * spread_steps fellows (length shards)) < 2 ^ 64 →
  ∃ r' Q q', publish origin ch m payload cfg r = Returns (Ok (), r') ∧
    running start peers (λ _, mesh_event (shard_at shards) ch m (pre pr)) spreads Q q' r' ∧
    (length Q + total weight r' ≤ spread_steps fellows (length shards))%nat ∧
    q' + N.of_nat (length Q + 2 * total weight r') < 2 ^ 64 ∧ seed r' = sd.
Proof.
  intros Hm Ho Hs Hp He Hq. unfold spread_steps in *. fold limit in *.
  assert (is_Some (engines r !! origin)) as [n Hn] by by apply (me_peers _ _ _ _ _ _ Hm).
  pose proof (me_node _ _ _ _ _ _ Hm origin n Hn) as (_ & _ & _ & _ & [Hcm Hch]).
  destruct (new_origin_encode cfg (derive_seed (seed r) origin) He) as (o & Hno & Hpre & Hchunks).
  destruct (origin_publishes cfg (derive_seed (seed r) origin) o (lend (hub r) (engine n)))
    as (e' & l & Hpub & Hnet & Hfine & Hperm & Hlen & Hsp); try done; [by apply calm_lend| |lia|].
  { eapply lend_up; [done|done|]. unfold Setup.others. set_solver. }
  rewrite (lend_net _ _ _ _ _ _ _ _ Hm Hn) in Hnet.
  pose proof (publication_length l Ho) as Hlm. set (msgs := opens origin ++ l) in *.
  destruct (mesh_call start peers (Engine.publish ch m o (pre pr)) _ [] q r origin n (Ok ()) e' msgs
    Hm Hn Hpub Hnet) as (hub' & Hcall & Hwi & Hep & Hff); [|lia|].
  { intros d (msg & Hin & Hd')%list_elem_of_omap. rewrite Forall_forall in Hfine.
    destruct (fine_event _ _ _ _ _ origin msg d (Hfine msg Hin) Hd') as [Hd'' _].
    unfold Setup.others in Hd''. set_solver. }
  unfold publish. rewrite He. cbn [or_panic mbind Outcome_bind]. rewrite Hno.
  cbn [or_panic mbind Outcome_bind]. rewrite Hn. change (encode_to_vec pr) with (pre pr).
  rewrite Hcall. cbn [mbind Outcome_bind map_err].
  eexists _, (arrivals origin msgs), (q + N.of_nat (length (omap MemoryNet.dst msgs))).
  split; [done|].
  pose proof (total_set weight origin n e' hub' r Hn) as Htot.
  unfold total in Htot at 2. rewrite (weight_of_delete weight origin n) in Htot by done.
  pose proof (weight_relays q r n Hm Hn) as Hrest. rewrite length_arrivals.
  split; [|split; [lia|split; [lia|exact Hs]]].
  apply fine_running; [exact Hfine|].
  eapply mesh_update; [exact Hm|exact Hn|exact Hff|exact Hwi|exact Hep|apply Hsp|].
  intros p e Hp' Hpo Hg. apply (spreads_relay p e l o); [|done| |done|done].
  - unfold Setup.others. set_solver.
  - intros i. by apply RsLinkLemmas.slot_origin.
Qed.

(** Every relay has the message, once. *)
Lemma spread_mesh max Q q r :
  running start peers (λ _, mesh_event (shard_at shards) ch m (pre pr)) spreads Q q r →
  (length Q + total weight r ≤ max)%nat → q + N.of_nat (length Q + 2 * total weight r) < 2 ^ 64 →
  ∃ n r', run_to_quiescence max r = Returns (Ok n, r') ∧
    heap (hub r') = [] ∧
    ∀ p, p ∈ peers → fst (take_deliveries p r') =
      if decide (p = origin) then [] else [mkDelivered ch m payload].
Proof.
  intros Hr Hmax Hq.
  destruct (run_loop_mesh start peers (λ _, mesh_event (shard_at shards) ch m (pre pr)) weight spreads
    max max 0 Q q r Hr Hmax Hq) as (n & r' & q' & Hrun & Hm & _).
  exists n, r'. split; [exact Hrun|]. split.
  { pose proof (ff_heap _ _ _ (me_fifo _ _ _ _ _ _ Hm)) as Hh. by destruct (heap (hub r')). }
  intros p Hp. assert (is_Some (engines r' !! p)) as [node Hn] by by apply (me_peers _ _ _ _ _ _ Hm).
  unfold take_deliveries. rewrite Hn. cbn [fst].
  pose proof (me_node _ _ _ _ _ _ Hm p node Hn) as (_ & _ & _ & _ & [_ _ _ _ _ Hmsg]).
  destruct (decide (p = origin)) as [Hpo|Hpo].
  - rewrite bool_decide_eq_true_2 in Hmsg by done. apply Hmsg.
  - rewrite bool_decide_eq_false_2 in Hmsg by done.
    by eapply (hopeful_done payload k pm pr shards Hencoded) in Hmsg.
Qed.
End spread.
End Spread.

(** * Property *)
Section property.
Import Rs RsLemmas RsDrain SimRunner RunnerLemmas Setup Spread.
Context {PS G : Type} `{!Rng G}.
Context `{Sha256, !Sha256Laws, ReedSolomon, !ReedSolomonLaws}.
Context `{Message Preamble, !MessageLaws Preamble}.
Abbreviation SimEngine := (Engine Rs.RsStrategy (SimNetEndpoint PS G) SimClock Buffer).
Abbreviation SimRunner := (Runner PS G SimEngine).

(** Calls that succeed one after the other. *)
Fixpoint succeeds (os : list op) (r : SimRunner) : Outcome (bool * SimRunner) :=
  match os with
  | [] => Returns (true, r)
  | o :: os =>
      match exec o r with
      | Returns (true, r) => succeeds os r
      | res => res
      end
  end.

(** The steps of a whole scenario, for [n] peers and messages of [s] shards. *)
Definition mesh_steps (n s : nat) : nat := (n * (n - 1) + spread_steps (n - 1) s)%nat.

(** C1: a broadcast reaches everyone, and the mesh comes to rest.  Engines for any
    peers subscribe to a channel on a simulated network without faults, connect
    to each other and settle; one of them publishes a payload, and the mesh runs
    until nothing is under way.  Every call succeeds, within a number of steps
    that [mesh_steps] gives; at the end no event is left, every other peer's
    application was handed exactly the payload, once, and the origin's nothing.
    Every chunk that is sent in such a mesh is the shard of its index. *)
Theorem mesh_delivers (plan : FaultPlan PS G) start ids ch m rc origin payload cfg pr shards max :
  let steps := mesh_steps (size (list_to_set ids : gset N)) (length shards) in
  rules plan = [] → origin ∈ ids → payload ≠ [] →
  Encode.encode payload cfg = Some (Ok (pr, shards)) → forward_multiplier rc < 2 ^ 32 →
  (steps ≤ max)%nat → N.of_nat (2 * steps) < 2 ^ 64 →
  ∃ r,
    succeeds [SubscribeAll ch rc; ConnectFullMesh; RunToQuiescence max;
              Publish origin ch m payload cfg; RunToQuiescence max]
      (SimRunner.new ids plan start) = Returns (true, r) ∧
    heap (hub r) = [] ∧
    ∀ p, p ∈ ids → fst (take_deliveries p r) =
      if decide (p = origin) then [] else [mkDelivered ch m payload].
Proof.
  intros steps Hr Ho Hp He Hfm Hmax Hsteps. set (peers := list_to_set ids : gset N) in *.
  unfold steps, mesh_steps in *.
  pose proof (encode_cases payload cfg Hp) as Henc. rewrite He in Henc.
  destruct Henc as (k & pm & len & _ & Henc).
  destruct (setup_mesh start (plan_seed plan) peers ch rc ids plan max)
    as (r1 & r2 & n & r3 & q & H1' & H2' & H3' & Hm & Hq & Hs); [done..|lia|lia|].
  destruct (publish_mesh start (plan_seed plan) peers ch m rc origin payload k pm pr shards
    Henc Hfm cfg q r3 Hm) as (r4 & Q & q4 & H4' & Hrun & Hlen & Hq4 & _); [|done..| |].
  { unfold peers. by rewrite elem_of_list_to_set. }
  { unfold fellows. lia. }
  destruct (spread_mesh start (plan_seed plan) peers ch m rc origin payload k pm pr shards
    Henc Hfm max Q q4 r4 Hrun) as (n5 & r5 & H5' & Hheap & Hgot);
    [unfold fellows in *; lia|done|].
  exists r5. split; [|split; [exact Hheap|]].
  - cbn [succeeds exec]. rewrite H1'. cbn [mbind Outcome_bind is_ok]. rewrite H2'.
    cbn [mbind Outcome_bind is_ok]. rewrite H3'. cbn [mbind Outcome_bind is_ok]. rewrite H4'.
    cbn [mbind Outcome_bind is_ok]. by rewrite H5'.
  - intros p Hpi. apply Hgot. unfold peers. by rewrite elem_of_list_to_set.
Qed.
End property.

(** ** A mesh of three peers *)
Module MeshExample.
Import Rs RsDrain XorCode SimExample SimRunner RunnerLemmas EngineAuth.AuthExample.
#[local] Existing Instances Message_short MessageLaws_short.

Lemma mesh_delivers_witness :
  ∃ r : Runner unit N (Engine RsStrategy (SimNetEndpoint unit N) SimClock Buffer),
    succeeds
      [SubscribeAll "c" RsEngineExample.relay_config; ConnectFullMesh; RunToQuiescence 300;
       Publish 1 "c" "m" payload config; RunToQuiescence 300]
      (SimRunner.new [1; 2; 3] (FaultPlan.new 2) 100) = Returns (true, r) ∧
    heap (hub r) = [] ∧
    ∀ p, p ∈ [1; 2; 3] → fst (take_deliveries p r) =
      if decide (p = 1) then [] else [mkDelivered "c" "m" payload].
Proof.
  apply (mesh_delivers (FaultPlan.new 2) 100 [1; 2; 3] "c" "m"
    RsEngineExample.relay_config 1 payload config XorCode.preamble [shard 0; shard 1; shard 2] 300).
  - reflexivity.
  - left.
  - discriminate.
  - vm_compute. reflexivity.
  - vm_compute. reflexivity.
  - vm_compute. lia.
  - vm_compute. reflexivity.
Defined.
End MeshExample.
