(* ===== verification/SimAuth.v ===== *)
(** What a simulated mesh delivers: the composition of the simulator, the runner,
    the engines, the Reed-Solomon strategy and the codec.  Every preamble in
    flight was published, so every delivery has the digest and the length of a
    payload published for its message. *)
From Stdlib Require Import NArith ZArith Lia.
From stdpp Require Import base gmap option strings list.
From S2P Require Import Prelude Heap BitMap Wire Config Strategy RsCodec Planner RsStrategy.
From S2P Require Import Session Channel Runtime Engine EngineInv EngineRel RsEngine.
From S2P Require Import EngineAuth MemoryNet Sim SimRunner.

Open Scope N_scope.

Module SimAuth.
Import Rs RsDrain SimRunner EngineRel Auth RsAuth RunnerLemmas.
Section auth.
Context {PS G : Type} `{!Rng G}.
Context `{Sha256, ReedSolomon, !ReedSolomonLaws, Message Preamble, !MessageLaws Preamble}.
Abbreviation SimEngine := (Engine Rs.RsStrategy (SimNetEndpoint PS G) SimClock Buffer).
Abbreviation SimRunner := (Runner PS G SimEngine).
Implicit Types (r : SimRunner) (e : SimEngine) (s : SimState PS G).

Context (Auth : string → string → bytes → Prop).

(** The opens under way, on the heap and in the inboxes, are authentic. *)
Record hub_auth s : Prop := {
  ha_heap x d ev : x ∈ heap s → pending x = Delivery d ev → event_auth Auth ev;
  ha_queues q evs b ev :
    queues s !! q = Some (MemoryNet.mkQueue evs b) → ev ∈ evs → event_auth Auth ev
}.

(** As the observers of an engine. *)
Definition net_auth (n : SimNetEndpoint PS G) : Prop := ∀ s, shared n = Some s → hub_auth s.
Definition buffer_fits (d : Buffer) : Prop :=
  ∀ msg, msg ∈ buffered d →
    ∃ pre, Auth (dm_channel_id msg) (dm_message_id msg) pre ∧ fits pre (dm_payload msg).

Lemma hub_auth_same s s' :
  hub_auth s → heap s' = heap s → queues s' = queues s → hub_auth s'.
Proof. intros [] Hh Hq. split; [rewrite Hh|rewrite Hq]; eauto. Qed.

(** What a send puts on the heap is the event of its message. *)
Lemma submit_send_heap src msg s res s' :
  SimState.submit_send src msg s = Some (res, s') →
  queues s' = queues s ∧
  ∀ x, x ∈ heap s' → x ∈ heap s ∨
    ∃ d ev, pending x = Delivery d ev ∧ into_event src msg = Some ev.
Proof.
  destruct msg as [dst ver chs pid|dst ch|dst ch|dst ch m pre iu|dst ch m pl|
    dst ch m i pl tok|ch m]; [| | | | | |intros [= _ <-]; by auto].
  all: unfold SimState.submit_send; cbn [destination into_event MsgKind.of_send mbind option_bind];
    destruct (contains_key (inboxes s) dst); cbn [negb]; [|intros [= _ <-]; by auto];
    match goal with |- context [FaultPlan.classify ?a ?b ?c ?d ?x] =>
      destruct (FaultPlan.classify a b c d x) as [[[delay|reason] p]|] end;
    cbn [mbind option_bind]; [|intros [= _ <-]; by auto|done];
    destruct (duration_add _ delay); cbn [mbind option_bind]; [|done];
    intros [= _ <-]; (split; [done|]); intros x [->|Hx]%elem_of_heap_push;
    [right; by eexists _, _|by left].
Qed.

#[export] Instance sim_observers : Observers Auth runs_under net_auth buffer_fits.
Proof.
  split.
  - intros msg [p [s|]] Hn Hm; [|exact Hn]. unfold net_send, Net_Sim. cbn [shared ep_peer].
    destruct (SimState.submit_send p msg s) as [[res s']|] eqn:Hs; [|by intros s2 ?].
    intros s2 [= <-]. destruct (submit_send_heap _ _ _ _ _ Hs) as [Hq Hh].
    destruct (Hn s eq_refl) as [Hheap Hqueues]. split; [|rewrite Hq; eauto].
    intros x d ev [Hx|(d' & ev' & Hp & Hi)]%Hh Hd; [by eapply Hheap|].
    assert (ev' = ev) as -> by congruence.
    destruct msg; try discriminate Hi; injection Hi as <-; try done. cbn. eauto.
  - intros ch m pre x payload d Hd Ha Hr Hx. unfold try_send, Sink_Buffer.
    case_decide; [done|]. intros msg. cbn [snd buffered].
    intros [Hin| ->%list_elem_of_singleton]%elem_of_app; [by apply Hd|].
    exists pre. split; [done|]. by eapply decode_fits.
Qed.

Abbreviation engine_auth := (auth Auth runs_under net_auth buffer_fits).

(** The hub and all engines. *)
Record sys_auth r : Prop := {
  sa_hub : hub_auth (hub r);
  sa_engines p n : engines r !! p = Some n → engine_auth (engine n)
}.

Lemma sys_auth_hub r s : sys_auth r → hub_auth s → sys_auth (set_hub s r).
Proof. by intros [] ?. Qed.

Lemma set_engine_auth r p e : sys_auth r → engine_auth e → sys_auth (set_engine p e r).
Proof.
  intros [] He. split; [done|]. intros p' n. unfold set_engine. cbn [engines].
  rewrite lookup_alter. case_decide; [|eauto]. rewrite fmap_Some. by intros (n' & _ & ->).
Qed.

Lemma lend_auth s e : engine_auth e → hub_auth s → engine_auth (lend s e).
Proof. intros [] Hs. split; try done. by intros s' [= <-]. Qed.

(** A call of an engine. *)
Lemma call_auth {A} (f : SimEngine → A * SimEngine) p e r a r' :
  sys_auth r → engine_auth e → (∀ e, engine_auth e → engine_auth (snd (f e))) →
  call f p e r = Returns (a, r') → sys_auth r'.
Proof.
  intros Hr He Hf. unfold call. pose proof (Hf _ (lend_auth (hub r) e He (sa_hub _ Hr))) as Hfe.
  destruct (f (lend (hub r) e)) as [a' e']. cbn [snd] in Hfe.
  destruct (shared (net e')) as [s'|] eqn:Hs; [|done]. cbn. intros [= <- <-].
  apply set_engine_auth; [|done]. apply sys_auth_hub; [done|]. by apply (au_net _ _ _ _ _ Hfe).
Qed.

Lemma for_engines_auth peers f r res r' :
  sys_auth r → (∀ p e, engine_auth e → engine_auth (snd (f p e))) →
  for_engines peers f r = Returns (res, r') → sys_auth r'.
Proof.
  revert r; induction peers as [|p peers IH]; intros r Hr Hf; [by intros [= _ <-]|].
  cbn [for_engines]. destruct (engines r !! p) as [n|] eqn:Hn; [|by apply IH].
  destruct (call (f p) p (engine n) r) as [[[u|err] r1]| |] eqn:Hc; try done;
    cbn [mbind Outcome_bind].
  - apply IH; [|done]. eapply call_auth; [done|by eapply sa_engines|apply Hf|done].
  - intros [= _ <-]. eapply call_auth; [done|by eapply sa_engines|apply Hf|done].
Qed.

Lemma publish_auth origin ch m payload cfg r res r' :
  sys_auth r →
  (∀ pr shards, Encode.encode payload cfg = Some (Ok (pr, shards)) → Auth ch m (encode_to_vec pr)) →
  publish origin ch m payload cfg r = Returns (res, r') → sys_auth r'.
Proof.
  intros Hr Ha. unfold publish.
  destruct (Encode.encode payload cfg) as [[[pr shards]|err]|] eqn:He; cbn; try done;
    [|by intros [= _ <-]].
  destruct (Rs.new_origin_with_seed payload cfg _) as [[x|err]|] eqn:Hx; cbn; try done;
    [|by intros [= _ <-]].
  destruct (engines r !! origin) as [n|] eqn:Hn; [|by intros [= _ <-]].
  match goal with |- context [call ?f _ _ _] =>
    destruct (call f origin (engine n) r) as [[res1 r1]| |] eqn:Hc end; try done.
  cbn. intros [= _ <-]. eapply call_auth; [done|by eapply sa_engines| |exact Hc].
  intros e Hee. eapply (publish_rel _ _ (keeps_auth Auth runs_under net_auth buffer_fits));
    [|done]. split; [by eapply Ha|by eapply origin_under].
Qed.

(** Events move from the heap to an inbox and from there to an engine. *)
Lemma pop_auth s step s' : hub_auth s → SimState.pop_next s = Some (step, s') → hub_auth s'.
Proof.
  intros Hs. unfold SimState.pop_next. destruct (heap s) as [|x h] eqn:Hh; [done|].
  cbn [heap_pop mbind option_bind].
  assert (∀ s', heap s' = h → queues s' = queues s → hub_auth s') as Hsame.
  { intros s2 Hh2 Hq. split; [|rewrite Hq; apply Hs]. rewrite Hh2. intros y d ev Hy.
    eapply ha_heap; [exact Hs|]. rewrite Hh. by right. }
  destruct (pending x) as [p ev|w] eqn:Hp; intros [= <- <-]; [|by apply Hsame].
  cbn [inboxes]. destruct (inboxes s !! p) as [q|]; [|by apply Hsame].
  unfold SimState.inbox_send. cbn [queues].
  destruct (queues s !! q) as [[evs []]|] eqn:Hq; [|by apply Hsame..].
  split; [by apply (Hsame (mkState 0 0 h 0 (plan s) [] ∅ (queues s) 0 ∅))|].
  intros q' evs' b ev'. cbn. rewrite lookup_insert_Some. intros [[_ [= <- _]]|[_ Hq']].
  - intros [Hin| ->%list_elem_of_singleton]%elem_of_app; [by eapply ha_queues|].
    eapply ha_heap; [exact Hs| |exact Hp]. rewrite Hh. by left.
  - by eapply ha_queues.
Qed.

Lemma next_event_auth q s ev s' :
  hub_auth s → next_event q s = Returns (ev, s') →
  hub_auth s' ∧ ∀ ev', ev = Some ev' → event_auth Auth ev'.
Proof.
  intros Hs. unfold next_event. destruct (queues s !! q) as [[[|ev1 evs] b]|] eqn:Hq.
  - case_decide; [done|]. by intros [= <- <-].
  - intros [= <- <-]. split.
    + split; [apply Hs|]. intros q' evs' b' ev'. cbn. rewrite lookup_insert_Some.
      intros [[_ [= <- _]]|[_ Hq']]; [|by eapply ha_queues].
      intros Hin. eapply ha_queues; [exact Hs|exact Hq|by right].
    + intros ev' [= <-]. eapply ha_queues; [exact Hs|exact Hq|by left].
  - case_decide; [done|]. by intros [= <- <-].
Qed.

Lemma run_loop_auth max budget steps r res r' :
  sys_auth r → run_loop max budget steps r = Returns (res, r') → sys_auth r'.
Proof.
  revert steps r; induction budget as [|budget IH]; intros steps r Hr; cbn [run_loop];
    destruct (SimState.pop_next (hub r)) as [[step s]|] eqn:Hpop; try by intros [= _ <-].
  - intros [= _ <-]. apply sys_auth_hub; [done|]. eapply pop_auth; [apply Hr|done].
  - assert (hub_auth s) as Hs by (eapply pop_auth; [apply Hr|done]).
    assert (sys_auth (set_hub s r)) as Hr1 by by apply sys_auth_hub.
    destruct step as [p|]; [|by apply IH]. cbn [set_hub engines].
    destruct (engines r !! p) as [n|] eqn:Hn; [|by apply IH].
    cbn [set_hub hub]. set (s1 := SimState.record_engine_step p s).
    assert (hub_auth s1) as Hs1 by by apply (hub_auth_same s).
    destruct (next_event (rx n) s1) as [[ev s2]| |] eqn:He; try done. cbn [mbind Outcome_bind].
    destruct (next_event_auth _ _ _ _ Hs1 He) as [Hs2 Hev].
    match goal with |- context [call ?f p ?e ?r1] =>
      destruct (call f p e r1) as [[a r2]| |] eqn:Hc end; try done.
    assert (sys_auth r2) as Hr2.
    { eapply call_auth; [by apply sys_auth_hub|by eapply sa_engines| |exact Hc].
      intros e Hee. eapply step_auth; [apply _|apply _|done|done]. }
    cbn [mbind Outcome_bind]. destruct a; [by apply IH|by intros [= _ <-]].
Qed.

Lemma new_auth peers plan start : sys_auth (new peers plan start).
Proof.
  unfold new.
  assert (sys_auth (mkRunner (SimState.new plan start) (plan_seed plan) ∅)) as Hr.
  { split; [split|]; cbn; intros *; [by intros ?%elem_of_nil|by rewrite lookup_empty..]. }
  revert Hr. generalize (mkRunner (E:=SimEngine) (SimState.new plan start) (plan_seed plan) ∅).
  induction peers as [|p peers IH]; intros r [[Hheap Hq] He]; [done|]. cbn [foldl]. apply IH.
  unfold add_peer, SimState.endpoint.
  match goal with |- context [SimState.wall_now ?s] => set (s1 := s) end.
  assert (hub_auth s1) as Hs1.
  { split; [exact Hheap|]. intros q evs b ev. cbn. rewrite lookup_insert_Some.
    intros [[_ [= <- _]]|[_ Hq']]; [by intros ?%elem_of_nil|by eapply Hq]. }
  split; [exact Hs1|]. intros p' n. cbn [engines]. rewrite lookup_insert_Some.
  intros [[_ <-]|[_ Hn]]; [|by eapply He]. apply with_config_auth; [by intros s [= <-]|].
  by intros ? ?%elem_of_nil.
Qed.

(** A call of a scenario whose publications are authentic. *)
Lemma exec_auth_sim o r b r' :
  (∀ origin ch m payload cfg pr shards, o = Publish origin ch m payload cfg →
     Encode.encode payload cfg = Some (Ok (pr, shards)) → Auth ch m (encode_to_vec pr)) →
  sys_auth r → exec o r = Returns (b, r') → sys_auth r'.
Proof.
  intros Ha Hr. destruct o as [ch cfg| |p ch m pl cfg|max|p]; cbn [exec].
  - destruct (subscribe_all ch cfg r) as [[res r1]| |] eqn:Hc; try done.
    intros [= _ <-]. eapply for_engines_auth; [done| |exact Hc].
    intros p e Hee. eapply (subscribe_op_rel _ _ (keeps_auth Auth runs_under net_auth buffer_fits));
      [|done]. intros n pre x n'. apply (relay_factory_under cfg). left. by eexists.
  - destruct (connect_full_mesh r) as [[res r1]| |] eqn:Hc; try done.
    intros [= _ <-]. eapply for_engines_auth; [done| |exact Hc].
    intros p e Hee. by eapply (connect_all_rel _ _ (keeps_auth Auth runs_under net_auth buffer_fits)).
  - destruct (publish p ch m pl cfg r) as [[res r1]| |] eqn:Hc; try done.
    intros [= _ <-]. eapply publish_auth; [done| |exact Hc]. eauto.
  - destruct (run_to_quiescence max r) as [[res r1]| |] eqn:Hc; try done.
    intros [= _ <-]. by eapply run_loop_auth.
  - intros [= _ <-]. unfold take_deliveries. destruct (engines r !! p) as [n|] eqn:Hn; [|done].
    apply set_engine_auth; [done|]. pose proof (sa_engines _ Hr p n Hn) as [].
    split; try done. by intros ? ?%elem_of_nil.
Qed.

Lemma run_auth_sim os r r' :
  (∀ origin ch m payload cfg pr shards, Publish origin ch m payload cfg ∈ os →
     Encode.encode payload cfg = Some (Ok (pr, shards)) → Auth ch m (encode_to_vec pr)) →
  sys_auth r → run os r = Returns r' → sys_auth r'.
Proof.
  revert r; induction os as [|o os IH]; intros r Ha Hr; [by intros [= <-]|]. cbn [run].
  destruct (exec o r) as [[b r1]| |] eqn:Hc; try done. cbn [mbind Outcome_bind].
  apply IH.
  - intros origin ch m payload cfg pr shards Hin. apply (Ha origin). by right.
  - eapply exec_auth_sim; [|exact Hr|exact Hc].
    intros origin ch m payload cfg pr shards ->. apply (Ha origin). by left.
Qed.
End auth.
End SimAuth.

(** * Properties *)
Section properties.
Context {PS G : Type} `{!Rng G}.
Context `{Sha256, ReedSolomon, !ReedSolomonLaws, Message Preamble, !MessageLaws Preamble}.
Import Rs RsDrain SimRunner RunnerLemmas RsAuth SimAuth.

(** C4: a simulated mesh delivers only what was published.  Take any scenario on
    any peers, under any fault plan: whatever is lost, delayed or cut off, a
    message that some peer's application receives on a channel has the SHA-256
    digest and the length of a payload that the scenario published under that
    message id on that channel. *)
Theorem deliveries_were_published
    (peers : list N) (plan : FaultPlan PS G) (start : N) (os : list op) r (p : N) ch m payload :
  run os (new peers plan start) = Returns r →
  mkDelivered ch m payload ∈ fst (take_deliveries p r) →
  ∃ origin original cfg, Publish origin ch m original cfg ∈ os ∧
    sha256_digest payload = sha256_digest original ∧ length payload = length original.
Proof.
  intros Hrun Hin.
  set (published := λ ch m pre, ∃ origin original cfg pr shards,
    Publish origin ch m original cfg ∈ os ∧
    Encode.encode original cfg = Some (Ok (pr, shards)) ∧ pre = encode_to_vec pr).
  assert (sys_auth published r) as [_ He].
  { eapply (run_auth_sim published os); [|apply new_auth|exact Hrun].
    intros origin ch' m' pl cfg pr shards Hp Henc. by exists origin, pl, cfg, pr, shards. }
  unfold take_deliveries in Hin. destruct (engines r !! p) as [n|] eqn:Hn;
    [|by apply elem_of_nil in Hin].
  destruct (Auth.au_delivered _ _ _ _ _ (He p n Hn) _ Hin) as
    (pre & (origin & original & cfg & pr & shards & Hp & Henc & ->) & pr' & Hd & Hh & Hl).
  rewrite decode_msg_encode in Hd. injection Hd as <-. cbn [dm_payload] in *.
  exists origin, original, cfg. split; [exact Hp|].
  destruct (decide (original = [])) as [->|Hne]; [done|].
  pose proof (encode_cases original cfg Hne) as Hc. rewrite Henc in Hc.
  destruct Hc as (k & mm & len & _ & []). split; [congruence|].
  rewrite en_length, i32_as_usize_nonneg in Hl by lia. lia.
Qed.
End properties.

(** ** A scenario that delivers *)
Module SimAuthExample.
Import Rs RsDrain XorCode SimExample SimRunner RunnerLemmas AuthExample.
#[local] Existing Instances Message_short MessageLaws_short.

Definition mesh : list op :=
  [ SubscribeAll "c" RsEngineExample.relay_config; ConnectFullMesh; RunToQuiescence 50;
    Publish 1 "c" "m" payload config; RunToQuiescence 50 ].

Lemma deliveries_were_published_witness :
  ∃ r, run mesh (new [1; 2; 3] RunnerExample.jitter 100) = Returns r ∧
    mkDelivered "c" "m" payload ∈ fst (take_deliveries 2 r) ∧
    ∃ origin original cfg, Publish origin "c" "m" original cfg ∈ mesh ∧
      sha256_digest payload = sha256_digest original ∧ length payload = length original.
Proof.
  assert (match run mesh (new [1; 2; 3] RunnerExample.jitter 100) with
          | Returns r => fst (take_deliveries 2 r) = [mkDelivered "c" "m" payload]
          | _ => False
          end) as Hd by (vm_compute; reflexivity).
  destruct (run mesh _) as [r| |] eqn:Hr; [|destruct Hd|destruct Hd].
  exists r. split; [reflexivity|].
  assert (mkDelivered "c" "m" payload ∈ fst (take_deliveries 2 r)) as Hin
    by (rewrite Hd; apply list_elem_of_singleton; reflexivity).
  split; [exact Hin|].
  exact (deliveries_were_published [1; 2; 3]
    RunnerExample.jitter 100 mesh r 2 "c" "m" payload Hr Hin).
Defined.
End SimAuthExample.
